(* ===== verification/_CoqProject ===== *)
-Q . S2P
Prelude.v
Buffer.v
Channel.v
Poller.v
EventLoop.v
Socket.v
TcpConnection.v
Threads.v
ThreadPool.v
TcpServer.v
Lifecycle.v
Session.v
Http.v
HttpServer.v
Timer.v
TimerLoop.v
MemoryPool.v
MemoryFree.v
Logger.v
AsyncLogging.v
Mysql.v
Echo.v
LogService.v
Service.v
