(* ===== verification/Prelude.v ===== *)
(** * A Tiny Network Library: verification development

    The repository is a Reactor-style network library in C++: an event loop
    per thread over epoll, TCP connections with user-space buffers, a
    round-robin pool of loop threads, timers on a timerfd, a small HTTP/1
    server, an asynchronous logger, a memory pool, a thread pool and a MySQL
    connection pool, with two echo servers as examples.  This development
    models its own code (under [src/src] and [src/example]) as executable Rocq
    definitions and proves what makes each part correct.

    ** The program and how its parts interact

    [EventLoop::loop] calls [Poller::poll], which fills the list of active
    [Channel]s; each channel dispatches to the callbacks its owner registered
    ([Acceptor], [TcpConnection], [TimerQueue], the loop's own wakeup
    channel); then the loop runs the functors other objects queued.  A
    [TcpServer] owns an [Acceptor] on the base loop and a map of
    [TcpConnection]s, each living in a loop the [EventLoopThreadPool] chose;
    [HttpServer] and the echo servers are clients of [TcpServer].

    ** Files

    - [Prelude]: outcomes (a value or a [fault]), machine integers (LP64,
      unsigned wrap-around, [i32]/[i64] conversions), bytes and memory ranges,
      [snprintf]'s decimal output, tactics and lemmas.
    - [Buffer]: [net/Buffer.*].  Storage is the vector's content, reads and
      writes outside it are faults.
    - [Channel]: [net/Channel.*] and the interface [POLLER] (with its laws
      [POLLER_LAWS]) through which channels and loops see the poller.
    - [Poller]: [net/poller/*]; [EPOLL] is the kernel's interest set; the
      instance [EPollPoller_laws] discharges [POLLER_LAWS].
    - [EventLoop]: [net/EventLoop.*], [base/CurrentThread.*]; [EVENTFD] is the
      eventfd; [HASLOOP] gives the loop inside a larger state.  The last part
      is a step relation of the loop thread and the threads that queue.
    - [Socket]: [net/Socket.*], [net/InetAddress.*].
    - [TcpConnection]: [net/TcpConnection.*]; [SOCKET] is the kernel's side of
      the socket; an [Env] is a connection with its loop, its socket and the
      rest of the program.
    - [Threads]: [base/Thread.*], [net/EventLoopThread.*],
      [net/EventLoopThreadPool.*].
    - [ThreadPool]: [base/ThreadPool.*].
    - [TcpServer]: [net/Acceptor.*], [net/TcpServer.*]; the [World] holds the
      server, all loops, all connection objects and their sockets.
    - [Lifecycle]: the pieces above put together: [step] is one piece of work
      of some thread (accepting, dispatching events, running the functor at
      the head of a queue, releasing the last [shared_ptr], one of the stages -
      the check of [state_], its store, the queueing - of a [send] or
      [shutdown] called from a thread of the user), [run] any sequence of
      them, [orderly] the runs in which no such call is overtaken by the close
      of its connection, and [Inv] the invariant of the worlds these reach.
    - [Session]: what [Lifecycle] does for one connection, as a sequential
      machine: for any user program, a [session] moved on by [occurrence]s
      (up, bytes received, down, notified).  [SOCKET_INPUT] is what the peer
      sends.
    - [Http], [HttpServer]: [http/*], with the program of [http/main.cc].
    - [Timer]: [base/Timestamp.*], [timer/Timer.*], the ordered set of
      [timer/TimerQueue.*]; [double]s are binary64 values of [SpecFloat],
      [TIMERFD] is the timerfd.
    - [TimerLoop]: [timer/TimerQueue.cc] in its [EventLoop] (the timer members
      of [net/EventLoop.h] included), with both clocks, other threads and an
      arbitrary program; [step] is a turn of the loop or a part of one, an
      action of another thread, or the passing of time.
    - [MemoryPool]: [memory/*], over explicit addresses and a C heap;
      [MemoryFree]: the bookkeeping behind [freeMemory] and [resetPool], and
      programs that mix all operations.
    - [Logger]: [logger/FixedBuffer.h], [LogStream.*], [Logging.*].
    - [AsyncLogging]: [logger/FileUtil.*], [LogFile.*], [AsyncLogging.*];
      [LOG_SINK] is what the asynchronous log asks of its file, [LogFile_sink]
      shows that [LogFile] gives it.
    - [Mysql]: [mysql/ConnectionPool.*], [mysql/MysqlConn.*] over the class
      [MYSQL_API] of the client library's functions.
    - [Echo]: [example/echoServer.cc], [example/echoServerAsync.cc].
    - [LogService]: the log of [echoServerAsync.cc] end to end: [Logger]'s
      statements, [AsyncLogging] and [LogFile].
    - [Service]: the echo server and the HTTP server on [Lifecycle], end to
      end, by computing their sessions.

    In each file a Module has the name of the C++ class and its definitions
    the names of the members ([new_X] the constructor, [delete_X] the
    destructor); a definition is the whole member, its guards and early
    returns included, and a helper with a name of its own is a part of one.

    ** How the code is modelled

    Stateful code is a function from a state to an [outcome] of a state; a
    [fault] is undefined behaviour, a call of [abort()] or an exception nobody
    catches, so a theorem that an operation returns [Ret] excludes them all.  Calls of the kernel and of
    third-party libraries are class operations or arguments, with what the
    code relies on as laws ([EPOLL_LAWS], [EVENTFD_LAWS], [SOCKET_LAWS],
    [readv_law], [ntop_law], [TIMERFD_LAWS], [alloc_law], [memalign_law],
    [io_ok], [env_ok]); every
    property with such a hypothesis has a witness at a concrete instance.
    Concurrency is a step relation ([EventLoop.step], [EventLoopThread.step])
    or a run of labels ([ThreadPool], [AsyncLogging], [Mysql], [Lifecycle],
    [TimerLoop]) in which a
    critical section is one step and waits may end spuriously, so a theorem
    about all runs is about all interleavings.

    ** What is proved

    - Buffers are FIFO byte queues: [append], [retrieve], [readFd] and
      [findCRLF] stay inside the storage and have the content they should
      ([run_ops_refines_queue], [append_content], [readFd_appends],
      [findCRLF_first]).
    - A connection refines a pipe of bytes under any sequence of sends,
      shutdowns and writability events ([connection_refines_pipe]), drains
      ([writable_events_drain]) and notifies when it should
      ([sendInLoop_notifications], [handleRead_dispatch]).
    - Registration in the poller, [channels_] and [index_] always agree
      ([updateChannel_inv], [removeChannel_unregisters]) and [poll] reports
      live channels only ([poll_reports_live_channels]); dispatch order and
      lifetime ([handleEventWithGuard_dispatch], [handleEvent_tied_safe]).
    - Functors run once and in order ([doPendingFunctors_fifo]) and no wakeup
      is lost ([wakeup_not_lost]).
    - Loop threads start and are handed out in turn ([startLoop_handshake],
      [getNextLoop_round_robin]); accepting is safe ([newConnection_ok]).
    - In a server with any number of loops, under any interleaving of accepts,
      events, functors, releases and the stages of calls from other threads in
      which no call is overtaken by a close: no connection is used after it is
      destroyed and pollers point at live connections only
      ([server_never_dangles]); states only advance
      ([connection_typestate]); a closed connection leaves the map and its
      poller once the queues have been worked off
      ([closed_connection_released]), and then nothing holds it any more
      ([closed_connection_reclaimed]).  A call that is overtaken - nothing in
      the code prevents it - breaks each of these ([stale_shutdown_reopens],
      [stale_shutdown_dangles], [stale_send_dangles],
      [stale_store_reregisters]).
    - Such a server is, connection by connection, the sequential session of
      the user's program, for any program that passes [send] no message of
      2 GB or more ([server_sessions]); so what
      the echo server returns and what the HTTP server answers is known byte
      for byte ([echo_service_conserves], [http_service_answers]).
    - HTTP parsing is total and right ([parseRequest_classifies]), inverts
      printing ([parse_print_roundtrip]); responses and the server's reaction
      ([appendToBuffer_renders], [onMessage_responds]); the echo server's
      callback echoes ([echo_server_echoes]).
    - Timers in their loop, for any program and any interleaving: none is
      lost, leaked, run twice or run early, and repeating ones keep their
      distance ([timers_conserved]); those due run in order
      ([handleRead_expires]); each is run, once the loop looks, at the latest
      100 microseconds from now or the time late that passes between reading
      the clock and setting the timerfd ([timer_punctual],
      [resetTimerfd_bounds]), unless its alarm was swallowed
      ([swallowed_alarm]).
    - Any program of [malloc], [calloc], [freeMemory] and [resetPool] runs
      without a fault; the ranges held are disjoint and off the pool's own
      data ([pool_programs_sound]); destroying a pool of one block then leaves
      the C heap as it was, and a longer one faults
      ([destroyPool_after_program]).
    - Tasks of the thread pool run once, in order, with no lost wakeup, and
      are drained after [stop] ([pool_runs_tasks]).
    - Records and numbers are printed right ([log_record_emitted],
      [formatInteger_prints]); log files and the asynchronous log keep every
      record in order ([LogFile_keeps_records], [async_keeps_records]), and
      so what the log statements of any threads emit is on file after a turn
      of the back end ([log_service_delivers]).
    - Theorems about what the code does against its intent:
      [cross_thread_send_dangles], [quit_other_thread_does_not_wake],
      [fragmented_request_refused], [reused_buffers_repeat_records],
      [destroyPool_after_program], [early_expiry_disarms], [swallowed_alarm],
      [append_truncated_length_faults], [fatal_record_lost], [pool_accounting].

    ** Bounds and fuel

    [digit_fuel n] is the number of binary digits of [n] plus one, at least
    the decimal digits printed ([digits_rev_fuel]).  [parse_loop] and
    [loop_while] take fuel; [parseRequest_classifies] shows that one
    turn for every two bytes and one more are enough, while [EventLoop.loop]
    runs until [quit] and
    is given any fuel.  [FileUtil.append_loop] has one turn per byte and one
    more, enough when every [fwrite] makes progress ([append_loop_works]);
    without progress it never ends ([append_loop_spins]).  The walks of the memory
    pool's lists are bounded by the lists' lengths, so [n] operations need
    fuel [n + 1] ([pool_programs_sound]).  The recycler's loop is
    bounded by the queue.

    ** What is not modelled

    The vendored JSON library ([src/src/mysql/json.hpp]), the copies of the
    headers under [src/include], the generated build tree and the tests;
    [noncopyable]; the log statements of other components, except where a
    [LOG_FATAL] ends the program ([Aborted]) or a branch only logs; pure I/O
    of system calls beyond their results.  In [Lifecycle] user code acts on
    the connection whose callback it is, from that connection's loop, or calls
    [send(Buffer* )] or [shutdown] from another thread (a string sent so
    dangles, [cross_thread_send_dangles]).  The dispatch of a connection's
    events and the run of a functor are one step each: the stages of a call
    come before or after it, not while the loop is in a handler, and the
    memory model is sequentially consistent ([state_] is an [atomic], the
    members the handlers change are used on the loop's thread only).
    [Session] is about
    connections no other thread calls; the run ends before
    the destructor of the server, which is modelled in [TcpServer].  In
    [TimerLoop] the bodies of the timer queue run in one step, but time passes
    inside them: before each reading of the clock ([delays]) and between a
    reading and the system call after it ([lags]). *)

From stdpp Require Export base tactics list gmap strings relations.
From Stdlib Require Export ZArith Lia Ascii.

Open Scope Z_scope.

(** ** Outcomes of C++ operations

    A C++ expression either yields a value or leaves the defined behaviour of
    the program; [fault] names the ways the modelled code can do the latter. *)

Inductive fault :=
  | OutOfBounds        (** access outside the storage of a buffer *)
  | BadOverlap         (** [std::copy] into its own source range *)
  | LengthError        (** [std::length_error] of a container resize *)
  | NullDeref          (** dereference of a null pointer or empty function *)
  | UseAfterFree       (** access to a destroyed object *)
  | DoubleFree         (** release of storage that is not live *)
  | BadConversion      (** floating value not representable in the target *)
  | Overflow           (** signed integer overflow *)
  | BadAlloc           (** [operator new] found no memory *)
  | SystemError        (** [std::system_error], e.g. joining twice *)
  | MissingReturn      (** end of a non-void function without [return] *)
  | Aborted            (** [LOG_FATAL] called [abort()] *)
  | OutOfFuel.         (** the bound the model puts on a loop was reached *)

Inductive outcome (A : Type) :=
  | Ret (a : A)
  | Err (f : fault).
Arguments Ret {A} a.
Arguments Err {A} f.

#[export] Instance outcome_ret : MRet outcome := @Ret.
#[export] Instance outcome_bind : MBind outcome := fun A B f m =>
  match m with
  | Ret a => f a
  | Err e => Err e
  end.

#[export] Instance fault_eq_dec : EqDecision fault.
Proof. solve_decision. Defined.

#[export] Instance outcome_eq_dec {A} `{EqDecision A} : EqDecision (outcome A).
Proof. solve_decision. Defined.

(** [check b f] continues when [b] holds and faults with [f] otherwise. *)
Definition check (b : bool) (f : fault) : outcome unit :=
  if b then Ret tt else Err f.

(** [deref f o] reads through a pointer that may be null or dangling. *)
Definition deref {A} (f : fault) (o : option A) : outcome A :=
  match o with Some a => Ret a | None => Err f end.

(** ** Machine integers (LP64): unsigned types wrap, [int] conversions are
    two's complement. *)

Definition u16 (x : Z) : Z := x mod 2 ^ 16.
Definition u32 (x : Z) : Z := x mod 2 ^ 32.
Definition u64 (x : Z) : Z := x mod 2 ^ 64.
Definition i32 (x : Z) : Z := (x + 2 ^ 31) mod 2 ^ 32 - 2 ^ 31.
Definition i64 (x : Z) : Z := (x + 2 ^ 63) mod 2 ^ 64 - 2 ^ 63.

(** [++n] of a nonnegative [int], undefined past its largest value. *)
Definition incr32 (n : Z) : outcome Z := if n + 1 <? 2 ^ 31 then Ret (n + 1) else Err Overflow.

(** ** Bytes and memory ranges *)

Abbreviation bytes := (list ascii).

Definition str (s : String.string) : bytes := String.list_ascii_of_string s.

Definition chr (n : Z) : ascii := Ascii.ascii_of_N (Z.to_N n).
Definition ord (c : ascii) : Z := Z.of_N (Ascii.N_of_ascii c).

Definition NUL : ascii := chr 0.
Definition CR : ascii := chr 13.
Definition LF : ascii := chr 10.

(** Lengths in [Z]. *)
Definition zlen {A} (l : list A) : Z := Z.of_nat (length l).

(** The [len] elements from offset [off]. *)
Definition slice {A} (off len : Z) (l : list A) : list A :=
  take (Z.to_nat len) (drop (Z.to_nat off) l).

(** The list [l] with [d] written over it from offset [off]. *)
Definition splice {A} (off : Z) (d l : list A) : list A :=
  take (Z.to_nat off) l ++ d ++ drop (Z.to_nat off + length d) l.

Definition read_mem {A} (l : list A) (off len : Z) : outcome (list A) :=
  if (0 <=? off) && (0 <=? len) && (off + len <=? zlen l)
  then Ret (slice off len l) else Err OutOfBounds.

Definition write_mem {A} (l : list A) (off : Z) (d : list A) : outcome (list A) :=
  if (0 <=? off) && (off + zlen d <=? zlen l)
  then Ret (splice off d l) else Err OutOfBounds.

(** [std::find]: the offset of the first [c], the length when there is none. *)
Fixpoint find_index (c : ascii) (l : bytes) : nat :=
  match l with
  | [] => 0
  | x :: l' => if Ascii.eqb x c then 0%nat else S (find_index c l')
  end.

Fixpoint is_prefix (p l : bytes) : bool :=
  match p, l with
  | [], _ => true
  | a :: p', b :: l' => Ascii.eqb a b && is_prefix p' l'
  | _ :: _, [] => false
  end.

(** [std::search]: the offset of the first occurrence of [p], the length of
    [l] when there is none. *)
Fixpoint search_index (p l : bytes) : nat :=
  if is_prefix p l then 0%nat
  else match l with
       | [] => 0%nat
       | _ :: l' => S (search_index p l')
       end.

(** A C string is what precedes the first NUL. *)
Definition c_str (l : bytes) : bytes := take (find_index NUL l) l.

(** ** Decimal output, as [snprintf] prints [%d] and [%u] *)

Definition digit (d : Z) : ascii := chr (48 + d).

(** Digits of [n], least significant first; [fuel] bounds their number. *)
Fixpoint digits_rev (fuel : nat) (n : Z) : bytes :=
  match fuel with
  | O => []
  | S f => digit (n mod 10) :: (if n / 10 =? 0 then [] else digits_rev f (n / 10))
  end.

(** A natural number below [2 ^ k] has at most [k + 1] digits. *)
Definition digit_fuel (n : Z) : nat := S (Z.to_nat (Z.log2 n)).

Definition fmt_u (n : Z) : bytes := rev (digits_rev (digit_fuel n) n).

Definition fmt_d (n : Z) : bytes :=
  if n <? 0 then "-"%char :: fmt_u (- n) else fmt_u n.

(** [%0wd] and [%wd]: padding on the left to width [w]. *)
Definition fmt_pad (pad : ascii) (w : nat) (s : bytes) : bytes :=
  replicate (w - length s) pad ++ s.

(** [snprintf(buf, size, ...)] keeps [size - 1] characters. *)
Definition snprintf (size : nat) (s : bytes) : bytes := take (size - 1) s.

(** The number a digit string denotes. *)
Definition digits_value (l : bytes) : Z :=
  fold_left (fun acc c => acc * 10 + (ord c - 48)) l 0.

(** ** Automation *)

Create HintDb wf discriminated.
Create HintDb zlen.
Create HintDb post.

Ltac inv H := inversion H; clear H; simplify_eq.

(** Split the boolean tests a definition makes into arithmetic facts. *)
Ltac reflect_bools :=
  repeat match goal with
  | H : (_ && _) = true |- _ => apply andb_true_iff in H; destruct H
  | H : (_ && _) = false |- _ => apply andb_false_iff in H
  | H : (_ || _) = true |- _ => apply orb_true_iff in H
  | H : (_ || _) = false |- _ => apply orb_false_iff in H; destruct H
  | H : negb _ = true |- _ => apply negb_true_iff in H
  | H : negb _ = false |- _ => apply negb_false_iff in H
  | H : (_ <? _) = true |- _ => apply Z.ltb_lt in H
  | H : (_ <? _) = false |- _ => apply Z.ltb_ge in H
  | H : (_ <=? _) = true |- _ => apply Z.leb_le in H
  | H : (_ <=? _) = false |- _ => apply Z.leb_gt in H
  | H : (_ =? _) = true |- _ => apply Z.eqb_eq in H
  | H : (_ =? _) = false |- _ => apply Z.eqb_neq in H
  end.

(** Case analysis on every [if] of the goal, with arithmetic closing the
    impossible branches. *)
Ltac case_ifs :=
  repeat (match goal with
  | |- context [if ?b then _ else _] =>
      lazymatch type of b with bool => destruct b eqn:? end
  end; reflect_bools; try lia).

(** Reduce a test of the goal whose value arithmetic determines. *)
Ltac if_true := match goal with
  | |- context [if ?b then _ else _] =>
      replace b with true by (symmetry; repeat (apply andb_true_iff; split);
        first [apply Z.leb_le | apply Z.ltb_lt | apply Z.eqb_eq]; lia) end.
Ltac if_false := match goal with
  | |- context [if ?b then _ else _] =>
      replace b with false by (symmetry;
        first [apply Z.leb_gt | apply Z.ltb_ge | apply Z.eqb_neq]; lia) end.

(** The same for a conjunction of tests one of which is false. *)
Ltac if_false_and := match goal with
  | |- context [if ?b then _ else _] =>
      let E := fresh in destruct b eqn:E; [reflect_bools; lia|clear E] end.

(** Open the binds of an [outcome] computation that is known to return. *)
Ltac inv_ret :=
  repeat match goal with
  | H : Ret _ = Ret _ |- _ => inversion H; clear H; subst
  | H : Err _ = Ret _ |- _ => discriminate H
  | H : mbind _ ?m = Ret _ |- _ =>
      let E := fresh "E" in destruct m eqn:E; simpl in H
  | H : mret _ = Ret _ |- _ => unfold mret, outcome_ret in H
  end.

(** One step of an [outcome] computation, leaving everything else folded. *)
Ltac ostep := cbn [mbind mret outcome_bind outcome_ret deref check].

(** ** Lemmas on outcomes *)

Lemma bind_Ret {A B} (m : outcome A) (f : A -> outcome B) b :
  (m ≫= f) = Ret b <-> exists a, m = Ret a /\ f a = Ret b.
Proof. destruct m; simpl; naive_solver. Qed.

Lemma check_Ret b f u : check b f = Ret u <-> b = true.
Proof. destruct b, u; unfold check; naive_solver. Qed.

(** [post Q r]: the computation touches no destroyed object, and [Q] holds of
    what it returns. *)
Definition post {A} (Q : A -> Prop) (r : outcome A) : Prop :=
  match r with Ret a => Q a | Err f => f <> UseAfterFree end.

Lemma post_bind {A B} (Q : A -> Prop) (R : B -> Prop) (m : outcome A) (k : A -> outcome B) :
  post Q m -> (forall a, Q a -> post R (k a)) -> post R (m ≫= k).
Proof. destruct m; simpl; auto. Qed.

Lemma post_mono {A} (Q R : A -> Prop) (m : outcome A) :
  (forall a, Q a -> R a) -> post Q m -> post R m.
Proof. destruct m; simpl; auto. Qed.

Lemma post_true {A} (m : outcome A) : post (fun _ => True) m <-> m <> Err UseAfterFree.
Proof. destruct m; simpl; split; done || congruence. Qed.

Lemma post_read_mem {A} (l : list A) off len : post (fun _ => True) (read_mem l off len).
Proof. unfold read_mem. by destruct (_ && _). Qed.

Lemma post_write_mem {A} (l : list A) off d : post (fun _ => True) (write_mem l off d).
Proof. unfold write_mem. by destruct (_ && _). Qed.

#[export] Hint Resolve post_read_mem post_write_mem : post.

(** ** Lemmas on machine integers *)

Lemma u64_small x : 0 <= x < 2 ^ 64 -> u64 x = x.
Proof. apply Z.mod_small. Qed.

Lemma u64_range x : 0 <= u64 x < 2 ^ 64.
Proof. apply Z.mod_pos_bound. lia. Qed.

Lemma i32_small x : - 2 ^ 31 <= x < 2 ^ 31 -> i32 x = x.
Proof. intros. unfold i32. rewrite Z.mod_small; lia. Qed.

Lemma incr32_Ret n m : incr32 n = Ret m -> m = n + 1 /\ n + 1 < 2 ^ 31.
Proof. unfold incr32. destruct (_ <? _) eqn:E; [|done]. apply Z.ltb_lt in E. by intros [= <-]. Qed.

Lemma incr32_Err n f : incr32 n = Err f -> f = Overflow /\ 2 ^ 31 <= n + 1.
Proof. unfold incr32. destruct (_ <? _) eqn:E; [done|]. apply Z.ltb_ge in E. by intros [= <-]. Qed.

Lemma incr32_small n : n + 1 < 2 ^ 31 -> incr32 n = Ret (n + 1).
Proof. intros H. unfold incr32. apply Z.ltb_lt in H. by rewrite H. Qed.

Lemma i32_range x : - 2 ^ 31 <= i32 x < 2 ^ 31.
Proof. unfold i32. pose proof (Z.mod_pos_bound (x + 2 ^ 31) (2 ^ 32)). lia. Qed.

Lemma i64_small x : - 2 ^ 63 <= x < 2 ^ 63 -> i64 x = x.
Proof. intros. unfold i64. rewrite Z.mod_small; lia. Qed.

(** Two bit fields side by side. *)
Lemma lor_shiftl_add a b n :
  0 <= n -> 0 <= b < 2 ^ n -> Z.lor (Z.shiftl a n) b = a * 2 ^ n + b.
Proof.
  intros Hn Hb. rewrite <- Z.shiftl_mul_pow2 by done.
  assert (Z.land (Z.shiftl a n) b = 0) as L.
  { apply Z.bits_inj'. intros i Hi. rewrite Z.land_spec, Z.bits_0, Z.shiftl_spec by lia.
    destruct (Z.ltb_spec i n); [by rewrite Z.testbit_neg_r by lia|].
    replace (Z.testbit b i) with false; [by rewrite andb_false_r|].
    symmetry. destruct (decide (b = 0)) as [->|]; [apply Z.bits_0|].
    apply Z.bits_above_log2; [lia|]. apply Z.log2_lt_pow2; [lia|].
    eapply Z.lt_le_trans; [apply Hb|]. apply Z.pow_le_mono_r; lia. }
  by rewrite <- Z.lxor_lor, <- Z.add_nocarry_lxor by done.
Qed.

(** ** Lemmas on lengths, ranges and overwriting *)

Section Lists.
Context {A : Type}.
Implicit Types l d : list A.

Lemma zlen_nonneg l : 0 <= zlen l.
Proof. unfold zlen. lia. Qed.

Lemma zlen_nil : zlen (@nil A) = 0.
Proof. done. Qed.

Lemma zlen_cons x l : zlen (x :: l) = 1 + zlen l.
Proof. unfold zlen. simpl. lia. Qed.

Lemma zlen_app l d : zlen (l ++ d) = zlen l + zlen d.
Proof. unfold zlen. rewrite length_app. lia. Qed.

Lemma zlen_replicate n (x : A) : zlen (replicate n x) = Z.of_nat n.
Proof. unfold zlen. by rewrite length_replicate. Qed.

Lemma zlen_nil_inv l : zlen l = 0 -> l = [].
Proof. unfold zlen. destruct l; simpl; [done | lia]. Qed.

(** An element that is not in the second part is in the first. *)
Lemma app_cons_not_in (l1 l2 k1 k2 : list A) x : l1 ++ x :: l2 = k1 ++ k2 -> x ∉ k2 ->
  exists l2', k1 = l1 ++ x :: l2' /\ l2 = l2' ++ k2.
Proof.
  revert k1. induction l1 as [|y l1 IH]; intros [|z k1] He Hx; simplify_eq/=; eauto.
  - destruct Hx. set_solver.
  - destruct Hx. set_solver.
  - destruct (IH k1 ltac:(assumption) Hx) as (l2' & -> & ->). eauto.
Qed.

(** An element of a list that has grown at the end. *)
Lemma snoc_split l x pre y suf : l ++ [x] = pre ++ y :: suf ->
  y = x \/ exists suf', l = pre ++ y :: suf' /\ suf = suf' ++ [x].
Proof.
  destruct suf as [|z suf _] using rev_ind; intros He.
  - apply app_inj_tail in He as [_ ->]. by left.
  - right. exists suf. rewrite app_comm_cons, app_assoc in He. by apply app_inj_tail in He as [-> ->].
Qed.

Lemma zlen_slice off len l :
  0 <= off -> 0 <= len -> off + len <= zlen l -> zlen (slice off len l) = len.
Proof. unfold zlen, slice. intros. rewrite length_take, length_drop. lia. Qed.

Lemma zlen_splice off d l :
  0 <= off -> off + zlen d <= zlen l -> zlen (splice off d l) = zlen l.
Proof.
  unfold zlen, splice. intros. rewrite !length_app, length_take, length_drop. lia.
Qed.

Lemma zlen_drop n l : zlen (drop n l) = Z.max 0 (zlen l - Z.of_nat n).
Proof. unfold zlen. rewrite length_drop. lia. Qed.

Lemma zlen_take n l : zlen (take n l) = Z.min (Z.of_nat n) (zlen l).
Proof. unfold zlen. rewrite length_take. lia. Qed.

Lemma slice_0 off l : slice off 0 l = [].
Proof. done. Qed.

Lemma slice_all l : slice 0 (zlen l) l = l.
Proof. unfold slice, zlen. rewrite Nat2Z.id. simpl. by rewrite firstn_all. Qed.

Lemma slice_app off len1 len2 l :
  0 <= off -> 0 <= len1 -> 0 <= len2 ->
  slice off (len1 + len2) l = slice off len1 l ++ slice (off + len1) len2 l.
Proof.
  intros. unfold slice. rewrite !Z2Nat.inj_add by lia.
  rewrite <- drop_drop. rewrite <- take_take_drop. done.
Qed.

Lemma drop_slice n off len l :
  0 <= n <= len -> 0 <= off ->
  drop (Z.to_nat n) (slice off len l) = slice (off + n) (len - n) l.
Proof.
  intros. unfold slice. rewrite Z2Nat.inj_add, Z2Nat.inj_sub by lia.
  rewrite <- drop_drop. by rewrite skipn_firstn_comm.
Qed.

Lemma take_slice n off len l :
  0 <= n <= len -> take (Z.to_nat n) (slice off len l) = slice off n l.
Proof. intros. unfold slice. rewrite take_take. f_equal. lia. Qed.

Lemma slice_splice_same off d l :
  0 <= off -> off + zlen d <= zlen l -> slice off (zlen d) (splice off d l) = d.
Proof.
  unfold slice, splice, zlen. intros.
  rewrite drop_app_length' by (rewrite length_take; lia).
  by rewrite take_app_length' by lia.
Qed.

Lemma slice_splice_before off len off' d l :
  0 <= off -> 0 <= len -> off + len <= off' -> off' + zlen d <= zlen l ->
  slice off len (splice off' d l) = slice off len l.
Proof.
  unfold slice, splice, zlen. intros.
  rewrite drop_app_le by (rewrite length_take; lia).
  rewrite take_app_le by (rewrite length_drop, length_take; lia).
  rewrite skipn_firstn_comm, take_take. f_equal. lia.
Qed.

Lemma slice_app_l off len l d :
  0 <= off -> 0 <= len -> off + len <= zlen l ->
  slice off len (l ++ d) = slice off len l.
Proof.
  unfold slice, zlen. intros. rewrite drop_app_le by lia.
  by rewrite take_app_le by (rewrite length_drop; lia).
Qed.

Lemma read_mem_Ret l off len d :
  read_mem l off len = Ret d <->
  0 <= off /\ 0 <= len /\ off + len <= zlen l /\ d = slice off len l.
Proof. unfold read_mem. case_ifs; naive_solver lia. Qed.

Lemma read_mem_in l off len :
  0 <= off -> 0 <= len -> off + len <= zlen l ->
  read_mem l off len = Ret (slice off len l).
Proof. intros. by apply read_mem_Ret. Qed.

Lemma write_mem_in l off d :
  0 <= off -> off + zlen d <= zlen l -> write_mem l off d = Ret (splice off d l).
Proof. intros. unfold write_mem. by if_true. Qed.

Lemma write_mem_Ret l off d l' :
  write_mem l off d = Ret l' <->
  0 <= off /\ off + zlen d <= zlen l /\ l' = splice off d l.
Proof. unfold write_mem. case_ifs; naive_solver lia. Qed.

Lemma filter_all (P : A -> Prop) `{forall x, Decision (P x)} l : Forall P l -> filter P l = l.
Proof. induction 1; [done|]. rewrite filter_cons_True by done. by f_equal. Qed.

Lemma filter_none (P : A -> Prop) `{forall x, Decision (P x)} l :
  Forall (fun x => ~ P x) l -> filter P l = [].
Proof. induction 1; [done|]. by rewrite filter_cons_False. Qed.

End Lists.

#[export] Hint Rewrite @zlen_nil @zlen_cons @zlen_app @zlen_replicate
  @zlen_drop @zlen_take : zlen.
#[export] Hint Resolve zlen_nonneg : wf.

(** Arithmetic on lengths. *)
Ltac zlen_lia := autorewrite with zlen in *; lia.

(** ** Lemmas on searching *)

Lemma find_index_le c l : (find_index c l <= length l)%nat.
Proof. induction l; simpl; [lia|]. destruct (Ascii.eqb _ _); lia. Qed.

Lemma find_index_lookup c l :
  (find_index c l < length l)%nat -> l !! find_index c l = Some c.
Proof.
  induction l as [|x l IH]; simpl; [lia|].
  destruct (Ascii.eqb x c) eqn:E; simpl; intros.
  - apply Ascii.eqb_eq in E. by subst.
  - apply IH. lia.
Qed.

Lemma find_index_before c l : c ∉ take (find_index c l) l.
Proof.
  induction l as [|x l IH]; simpl; [set_solver|].
  destruct (Ascii.eqb x c) eqn:E; simpl; [set_solver|].
  apply Ascii.eqb_neq in E. set_solver.
Qed.

Lemma find_index_notin c l : c ∉ l -> find_index c l = length l.
Proof.
  induction l as [|x l IH]; simpl; intros H; [done|].
  destruct (Ascii.eqb x c) eqn:E.
  - apply Ascii.eqb_eq in E. set_solver.
  - f_equal. apply IH. set_solver.
Qed.

Lemma drop_past {A} (u k : list A) c : drop (S (length u)) (u ++ c :: k) = k.
Proof. rewrite cons_middle, app_assoc, drop_app_length'; [done|]. rewrite length_app. simpl. lia. Qed.

Lemma find_index_app c l l' : c ∉ l -> find_index c (l ++ c :: l') = length l.
Proof.
  induction l as [|x l IH]; simpl; intros H.
  - by rewrite Ascii.eqb_refl.
  - destruct (Ascii.eqb x c) eqn:E.
    + apply Ascii.eqb_eq in E. set_solver.
    + f_equal. apply IH. set_solver.
Qed.

Lemma is_prefix_spec p l : is_prefix p l = true <-> exists k, l = p ++ k.
Proof.
  revert l; induction p as [|a p IH]; intros l; simpl; [split; eauto|].
  destruct l as [|b l]; [split; [done | by intros [k ?]]|].
  rewrite andb_true_iff, IH. split.
  - intros [->%Ascii.eqb_eq [k ->]]. eauto.
  - intros [k [= -> ->]]. rewrite Ascii.eqb_refl. eauto.
Qed.

Lemma search_index_le p l : (search_index p l <= length l)%nat.
Proof. induction l; simpl; destruct (is_prefix _ _); simpl; lia. Qed.

(** A hit of [std::search] splits the range at the first occurrence. *)
Lemma search_index_hit p l :
  (search_index p l < length l)%nat ->
  exists k, l = take (search_index p l) l ++ p ++ k.
Proof.
  induction l as [|x l IH]; simpl; destruct (is_prefix _ _) eqn:E; simpl; intros H;
    try lia.
  - apply is_prefix_spec in E as [k ->]. by exists k.
  - destruct IH as [k IH]; [lia|]. exists k. by rewrite <- IH.
Qed.

Lemma search_index_first p l n :
  (n < search_index p l)%nat -> is_prefix p (drop n l) = false.
Proof.
  revert n; induction l as [|x l IH]; intros n; simpl;
    destruct (is_prefix _ _) eqn:E; simpl; try lia.
  destruct n; simpl; [done|]. intros. apply IH. lia.
Qed.

Lemma search_index_app p u k :
  p <> [] -> (forall n, (n < length u)%nat -> is_prefix p (drop n (u ++ p ++ k)) = false) ->
  search_index p (u ++ p ++ k) = length u.
Proof.
  intros Hp. induction u as [|x u IH]; intros H; simpl.
  - destruct p as [|a p]; [done|]. simpl. rewrite Ascii.eqb_refl. simpl.
    replace (is_prefix p (p ++ k)) with true; [done|].
    symmetry. apply is_prefix_spec. eauto.
  - pose proof (H 0%nat ltac:(simpl; lia)) as H0. simpl in H0. rewrite H0.
    f_equal. apply IH. intros n Hn. apply (H (S n)). simpl. lia.
Qed.

Lemma c_str_no_nul l : NUL ∉ c_str l.
Proof. apply find_index_before. Qed.

Lemma c_str_id l : NUL ∉ l -> c_str l = l.
Proof. intros. unfold c_str. by rewrite find_index_notin, firstn_all. Qed.

(** ** Lemmas on decimal output *)

Lemma ord_chr n : 0 <= n < 256 -> ord (chr n) = n.
Proof. intros. unfold ord, chr. rewrite N_ascii_embedding; lia. Qed.

Lemma chr_ord c : chr (ord c) = c.
Proof. unfold ord, chr. by rewrite N2Z.id, ascii_N_embedding. Qed.

Lemma ord_range c : 0 <= ord c < 256.
Proof. unfold ord. pose proof (N_ascii_bounded c). lia. Qed.

Lemma ord_inj c d : ord c = ord d -> c = d.
Proof. intros H. rewrite <- (chr_ord c), <- (chr_ord d). by f_equal. Qed.

Lemma ord_digit d : 0 <= d < 10 -> ord (digit d) = 48 + d.
Proof. intros. apply ord_chr. lia. Qed.

Lemma digits_value_app l d : digits_value (l ++ [d]) = digits_value l * 10 + (ord d - 48).
Proof. unfold digits_value. by rewrite fold_left_app. Qed.

Lemma digit_fuel_div n : 0 <= n -> n / 10 <> 0 -> (digit_fuel (n / 10) < digit_fuel n)%nat.
Proof.
  intros Hn E. unfold digit_fuel.
  pose proof (Z.div_mod n 10 ltac:(lia)). pose proof (Z.mod_pos_bound n 10 ltac:(lia)).
  assert (Z.log2 (2 * (n / 10)) <= Z.log2 n) by (apply Z.log2_le_mono; lia).
  rewrite Z.log2_double in * by lia. pose proof (Z.log2_nonneg (n / 10)). lia.
Qed.

Lemma digits_rev_fuel n f :
  0 <= n -> (digit_fuel n <= f)%nat -> digits_rev f n = digits_rev (digit_fuel n) n.
Proof.
  unfold digit_fuel. intros Hn.
  revert f. induction n as [n IH] using (well_founded_induction (Z.lt_wf 0)).
  intros f Hf. destruct f as [|f]; [lia|]. simpl. f_equal.
  destruct (n / 10 =? 0) eqn:E; [done|]. reflect_bools.
  pose proof (Z.div_mod n 10 ltac:(lia)). pose proof (Z.mod_pos_bound n 10 ltac:(lia)).
  assert (Z.log2 (n / 10) < Z.log2 n) as Hlt.
  { assert (Z.log2 (2 * (n / 10)) <= Z.log2 n) by (apply Z.log2_le_mono; lia).
    rewrite Z.log2_double in * by lia. lia. }
  pose proof (Z.log2_nonneg (n / 10)).
  rewrite (IH (n / 10)) by lia. symmetry. apply IH; lia.
Qed.

Lemma digits_rev_value f n :
  0 <= n -> (digit_fuel n <= f)%nat -> digits_value (rev (digits_rev f n)) = n.
Proof.
  revert n. induction f as [|f IH]; unfold digit_fuel in *; intros n Hn Hf; [lia|].
  simpl. rewrite digits_value_app, ord_digit by (apply Z.mod_pos_bound; lia).
  pose proof (Z.div_mod n 10 ltac:(lia)). pose proof (Z.mod_pos_bound n 10 ltac:(lia)).
  destruct (n / 10 =? 0) eqn:E; reflect_bools.
  - unfold digits_value. simpl. lia.
  - rewrite IH; [lia|lia|]. pose proof (Z.log2_nonneg (n / 10)).
    assert (Z.log2 (2 * (n / 10)) <= Z.log2 n) by (apply Z.log2_le_mono; lia).
    rewrite Z.log2_double in * by lia. lia.
Qed.

(** [%u] output denotes the number printed. *)
Lemma digits_value_fmt_u n : 0 <= n -> digits_value (fmt_u n) = n.
Proof. intros. by apply digits_rev_value. Qed.

Lemma fmt_u_inj n m : 0 <= n -> 0 <= m -> fmt_u n = fmt_u m -> n = m.
Proof.
  intros Hn Hm H. rewrite <- (digits_value_fmt_u n), <- (digits_value_fmt_u m) by done.
  by f_equal.
Qed.

Definition is_digit (c : ascii) : bool := (48 <=? ord c) && (ord c <=? 57).

Lemma is_digit_digit d : 0 <= d < 10 -> is_digit (digit d) = true.
Proof. intros. unfold is_digit. rewrite ord_digit by lia. rewrite andb_true_iff, !Z.leb_le. lia. Qed.

Lemma digits_rev_digits f n : Forall (fun c => is_digit c = true) (digits_rev f n).
Proof.
  revert n. induction f as [|f IH]; intros n; simpl; constructor.
  - apply is_digit_digit, Z.mod_pos_bound. lia.
  - destruct (_ =? 0); [constructor | apply IH].
Qed.

Lemma fmt_u_digits n : Forall (fun c => is_digit c = true) (fmt_u n).
Proof. apply Forall_rev, digits_rev_digits. Qed.

Lemma fmt_u_nonempty n : fmt_u n <> [].
Proof.
  unfold fmt_u, digit_fuel. simpl. intros H%(f_equal (@length _)).
  rewrite length_app in H. simpl in H. lia.
Qed.

(** A number below [10 ^ k] prints with at most [k] digits. *)
Lemma digits_rev_length k f n :
  0 <= n < 10 ^ Z.of_nat k -> (0 < k)%nat -> (length (digits_rev f n) <= k)%nat.
Proof.
  revert n f. induction k as [|k IH]; intros n f Hn Hk; [lia|].
  destruct f as [|f]; simpl; [lia|].
  destruct (n / 10 =? 0) eqn:E; simpl; [lia|]. reflect_bools.
  rewrite Nat2Z.inj_succ, Z.pow_succ_r in Hn by lia.
  pose proof (Z.div_pos n 10). assert (n / 10 < 10 ^ Z.of_nat k) by
    (apply Z.div_lt_upper_bound; lia).
  destruct k as [|k]; [change (10 ^ Z.of_nat 0) with 1 in *; lia|].
  specialize (IH (n / 10) f). lia.
Qed.

Lemma fmt_u_length k n :
  0 <= n < 10 ^ Z.of_nat k -> (0 < k)%nat -> (length (fmt_u n) <= k)%nat.
Proof. intros. unfold fmt_u. rewrite length_rev. by apply digits_rev_length. Qed.

Lemma fmt_d_no_nul k : 0 <= k -> NUL ∉ fmt_d k.
Proof.
  intros Hk Hin. unfold fmt_d in Hin. destruct (k <? 0) eqn:E; reflect_bools; [lia|].
  pose proof (fmt_u_digits k) as D. rewrite Forall_forall in D. apply D in Hin. done.
Qed.

Lemma fmt_d_length k : 0 <= k < 2 ^ 31 -> (length (fmt_d k) <= 10)%nat.
Proof.
  intros Hk. unfold fmt_d. destruct (k <? 0) eqn:E; reflect_bools; [lia|].
  apply fmt_u_length; [|lia]. change (10 ^ Z.of_nat 10) with 10000000000. lia.
Qed.

Lemma fmt_d_nonempty k : 0 <= k -> fmt_d k <> [].
Proof.
  intros. unfold fmt_d. destruct (k <? 0); [done|]. apply fmt_u_nonempty.
Qed.

(** A counter printed into a 32-byte array comes out whole. *)
Lemma c_str_fmt_d k : 0 <= k < 2 ^ 31 -> c_str (snprintf 32 (fmt_d k)) = fmt_d k.
Proof.
  intros Hk. unfold snprintf. pose proof (fmt_d_length k Hk).
  rewrite take_ge by lia. apply c_str_id, fmt_d_no_nul. lia.
Qed.

#[global] Arguments search_index : simpl never.
#[global] Arguments find_index : simpl never.
#[global] Arguments is_prefix : simpl never.
#[global] Arguments digits_rev : simpl never.
#[global] Arguments digit_fuel : simpl never.
#[global] Arguments u64 : simpl never.
#[global] Arguments i32 : simpl never.
#[global] Arguments slice : simpl never.
#[global] Arguments splice : simpl never.
#[global] Arguments str : simpl never.
