(* ===== verification/Buffer.v ===== *)
(** * Buffer: the growable byte queue of [src/net/Buffer.h] and [Buffer.cc]

    A [Buffer] is a vector of characters with a reader and a writer index.
    Pointers into the vector are offsets in [Z]; [size_t] arithmetic wraps at
    64 bits; an access outside the vector is a fault.  [content] is the byte
    queue the class implements, and the theorems show that every operation
    refines the operation on that queue. *)

From S2P Require Import Prelude.

Module Buffer.

(** ** State *)

Record Buffer := mkBuffer {
  buffer_ : bytes;
  readerIndex_ : Z;
  writerIndex_ : Z
}.

Definition kCheapPrepend : Z := 8.
Definition kInitialSize : Z := 1024.
Definition kCRLF : bytes := [CR; LF].

(** [std::vector<char>::max_size()] of the 64-bit library. *)
Definition max_size : Z := 2 ^ 63 - 1.

(** [sizeof extrabuf] in [readFd]. *)
Definition extrabuf_size : Z := 65536.

(** ** Operations *)

Definition new_Buffer (initialSize : Z) : Buffer :=
  mkBuffer (replicate (Z.to_nat (u64 (kCheapPrepend + initialSize))) NUL)
           kCheapPrepend kCheapPrepend.

Definition readableBytes (b : Buffer) : Z := u64 (writerIndex_ b - readerIndex_ b).
Definition writableBytes (b : Buffer) : Z := u64 (zlen (buffer_ b) - writerIndex_ b).
Definition prependableBytes (b : Buffer) : Z := readerIndex_ b.

(** [peek()] and [beginWrite()] as offsets from [begin()]. *)
Definition peek (b : Buffer) : Z := readerIndex_ b.
Definition beginWrite (b : Buffer) : Z := writerIndex_ b.

Definition retrieveAll (b : Buffer) : Buffer :=
  mkBuffer (buffer_ b) kCheapPrepend kCheapPrepend.

Definition retrieve (len : Z) (b : Buffer) : Buffer :=
  if len <? readableBytes b
  then mkBuffer (buffer_ b) (u64 (readerIndex_ b + len)) (writerIndex_ b)
  else retrieveAll b.

Definition retrieveUntil (end_ : Z) (b : Buffer) : Buffer :=
  retrieve (u64 (end_ - peek b)) b.

Definition GetBufferAllAsString (b : Buffer) : outcome bytes :=
  read_mem (buffer_ b) (peek b) (readableBytes b).

Definition retrieveAsString (len : Z) (b : Buffer) : outcome (bytes * Buffer) :=
  result ← read_mem (buffer_ b) (peek b) len;
  mret (result, retrieve len b).

Definition retrieveAllAsString (b : Buffer) : outcome (bytes * Buffer) :=
  retrieveAsString (readableBytes b) b.

(** [std::vector<char>::resize]. *)
Definition resize (n : Z) (v : bytes) : outcome bytes :=
  if max_size <? n then Err LengthError
  else mret (take (Z.to_nat n) v ++ replicate (Z.to_nat n - length v) NUL).

(** [std::copy(begin() + first, begin() + last, begin() + d_first)]. *)
Definition copy_within (v : bytes) (first last d_first : Z) : outcome bytes :=
  check (negb ((first <=? d_first) && (d_first <? last))) BadOverlap;;
  d ← read_mem v first (last - first);
  write_mem v d_first d.

(** [len] is the [int] parameter; in the comparison and in the sum it is
    converted back to [size_t]. *)
Definition makeSpace (len : Z) (b : Buffer) : outcome Buffer :=
  if u64 (writableBytes b + prependableBytes b) <? u64 (len + kCheapPrepend)
  then
    v ← resize (u64 (writerIndex_ b + len)) (buffer_ b);
    mret (mkBuffer v (readerIndex_ b) (writerIndex_ b))
  else
    let readable := readableBytes b in
    v ← copy_within (buffer_ b) (readerIndex_ b) (writerIndex_ b) kCheapPrepend;
    mret (mkBuffer v kCheapPrepend (u64 (kCheapPrepend + readable))).

Definition ensureWritableBytes (len : Z) (b : Buffer) : outcome Buffer :=
  if writableBytes b <? len then makeSpace (i32 len) b else mret b.

(** [append(const char *data, size_t len)]; [data] holds the [len] bytes. *)
Definition append (data : bytes) (b : Buffer) : outcome Buffer :=
  let len := zlen data in
  b1 ← ensureWritableBytes len b;
  v ← write_mem (buffer_ b1) (beginWrite b1) data;
  mret (mkBuffer v (readerIndex_ b1) (u64 (writerIndex_ b1 + len))).

(** [append(const std::string &str)]. *)
Definition append_string (s : bytes) (b : Buffer) : outcome Buffer := append s b.

(** The address of the first CRLF of the readable bytes, [None] for NULL. *)
Definition findCRLF (b : Buffer) : outcome (option Z) :=
  readable ← read_mem (buffer_ b) (peek b) (beginWrite b - peek b);
  let crlf := peek b + Z.of_nat (search_index kCRLF readable) in
  mret (if crlf =? beginWrite b then None else Some crlf).

(** What [readv] and [write] report: an errno or a result. *)
Inductive sys_result (A : Type) :=
  | Failed (errno : Z)
  | Done (a : A).
Arguments Failed {A} errno.
Arguments Done {A} a.

(** The lengths of the buffers [readFd] passes to [readv]: the writable part
    and, when it is short, the 64 KiB block on the stack. *)
Definition readFd_iov (b : Buffer) : list Z :=
  let writable := writableBytes b in
  if writable <? extrabuf_size then [writable; extrabuf_size] else [writable].

(** [readv fd lens] delivers the bytes it scatters over buffers of lengths
    [lens]; the result is the return value, the saved errno and the buffer. *)
Definition readFd (readv : Z -> list Z -> sys_result bytes) (fd : Z) (b : Buffer)
    : outcome (Z * option Z * Buffer) :=
  let writable := writableBytes b in
  match readv fd (readFd_iov b) with
  | Failed e => mret (-1, Some e, b)
  | Done d =>
      let n := zlen d in
      v ← write_mem (buffer_ b) (writerIndex_ b) (take (Z.to_nat writable) d);
      extrabuf ← write_mem (replicate (Z.to_nat extrabuf_size) NUL) 0
                   (drop (Z.to_nat writable) d);
      if n <=? writable
      then mret (n, None, mkBuffer v (readerIndex_ b) (u64 (writerIndex_ b + n)))
      else
        extra ← read_mem extrabuf 0 (n - writable);
        b' ← append extra (mkBuffer v (readerIndex_ b) (zlen v));
        mret (n, None, b')
  end.

(** [write fd data] reports how many bytes the kernel took. *)
Definition writeFd (write : Z -> bytes -> sys_result Z) (fd : Z) (b : Buffer)
    : outcome (Z * option Z) :=
  data ← read_mem (buffer_ b) (peek b) (readableBytes b);
  mret match write fd data with
       | Failed e => (-1, Some e)
       | Done n => (n, None)
       end.

(** ** Specification: a queue of bytes *)

(** [0 <= kCheapPrepend <= readerIndex <= writerIndex <= size]. *)
Definition wf (b : Buffer) : Prop :=
  kCheapPrepend <= readerIndex_ b /\ readerIndex_ b <= writerIndex_ b /\
  writerIndex_ b <= zlen (buffer_ b) /\ zlen (buffer_ b) <= max_size.

Definition content (b : Buffer) : bytes :=
  slice (readerIndex_ b) (writerIndex_ b - readerIndex_ b) (buffer_ b).

(** The operations a client performs, and their effect on the queue. *)
Inductive op :=
  | Append (d : bytes)
  | Retrieve (n : Z).

Definition run_op (o : op) (b : Buffer) : outcome Buffer :=
  match o with
  | Append d => append d b
  | Retrieve n => mret (retrieve n b)
  end.

Fixpoint run_ops (os : list op) (b : Buffer) : outcome Buffer :=
  match os with
  | [] => mret b
  | o :: os' => b' ← run_op o b; run_ops os' b'
  end.

Definition spec_op (q : bytes) (o : op) : bytes :=
  match o with
  | Append d => q ++ d
  | Retrieve n => drop (Z.to_nat n) q
  end.

(** Bytes appended by a sequence of operations. *)
Definition op_cost (o : op) : Z := match o with Append d => zlen d | _ => 0 end.
Definition cost (os : list op) : Z := foldr (fun o s => op_cost o + s) 0 os.

Definition op_ok (o : op) : Prop := match o with Retrieve n => 0 <= n | _ => True end.

(** ** Lemmas *)

#[local] Arguments u64 : simpl never.

(** The members never touch a destroyed object. *)
Lemma post_append data b : post (fun _ => True) (append data b).
Proof.
  unfold append, ensureWritableBytes, makeSpace, resize, copy_within.
  eapply post_bind with (Q := fun _ => True).
  - destruct (_ <? zlen data); [|done]. destruct (_ <? _); [by destruct (_ <? _)|].
    eapply post_bind with (Q := fun _ => True); [|done].
    eapply post_bind with (Q := fun _ => True); [by destruct (negb _)|intros _ _].
    eapply post_bind; [apply post_read_mem|]. auto with post.
  - intros b1 _. eapply post_bind; [apply post_write_mem|done].
Qed.

Lemma post_readFd readv fd b : post (fun _ => True) (readFd readv fd b).
Proof.
  unfold readFd. destruct (readv _ _) as [e|d]; [done|].
  eapply post_bind; [apply post_write_mem|intros v _].
  eapply post_bind; [apply post_write_mem|intros x _]. destruct (_ <=? _); [done|].
  eapply post_bind; [apply post_read_mem|intros y _].
  eapply post_bind; [apply post_append|done].
Qed.

#[export] Hint Resolve post_append post_readFd : post.

Lemma wf_readable b : wf b -> readableBytes b = writerIndex_ b - readerIndex_ b.
Proof. unfold wf, readableBytes, kCheapPrepend, max_size. intros. apply u64_small. lia. Qed.

Lemma wf_writable b : wf b -> writableBytes b = zlen (buffer_ b) - writerIndex_ b.
Proof. unfold wf, writableBytes, kCheapPrepend, max_size. intros. apply u64_small. lia. Qed.

Lemma zlen_content b : wf b -> zlen (content b) = writerIndex_ b - readerIndex_ b.
Proof. unfold wf, kCheapPrepend. intros. apply zlen_slice; lia. Qed.

Lemma readable_content b : wf b -> readableBytes b = zlen (content b).
Proof. intros. by rewrite wf_readable, zlen_content. Qed.

Lemma wf_new n : 0 <= n <= max_size - kCheapPrepend -> wf (new_Buffer n).
Proof.
  unfold wf, new_Buffer, max_size, kCheapPrepend. simpl. intros.
  rewrite zlen_replicate, u64_small; lia.
Qed.

Lemma content_new n : content (new_Buffer n) = [].
Proof. unfold content. simpl. by rewrite Z.sub_diag. Qed.

Lemma wf_retrieveAll b : wf b -> wf (retrieveAll b).
Proof. unfold wf. simpl. lia. Qed.

Lemma content_retrieveAll b : content (retrieveAll b) = [].
Proof. unfold content. simpl. by rewrite Z.sub_diag. Qed.

Lemma wf_retrieve len b : wf b -> 0 <= len -> wf (retrieve len b).
Proof.
  intros W ?. unfold retrieve. rewrite wf_readable by done.
  destruct (_ <? _) eqn:E; reflect_bools; [|by apply wf_retrieveAll].
  revert W. unfold wf, kCheapPrepend, max_size. simpl. intros. rewrite u64_small; lia.
Qed.

Lemma content_retrieve len b :
  wf b -> 0 <= len -> content (retrieve len b) = drop (Z.to_nat len) (content b).
Proof.
  intros W ?. pose proof (zlen_content b W) as L. unfold retrieve.
  rewrite wf_readable by done. destruct (_ <? _) eqn:E; reflect_bools.
  - revert W. unfold wf, kCheapPrepend, max_size. intros. unfold content at 1. simpl.
    rewrite u64_small by lia. unfold content. rewrite drop_slice by lia. f_equal; lia.
  - rewrite content_retrieveAll, drop_ge; [done|]. unfold zlen in L. lia.
Qed.

(** Retrieving in two goes. *)
Lemma retrieve_retrieve n m b : wf b -> 0 <= n -> 0 <= m -> n + m <= zlen (content b) ->
  retrieve m (retrieve n b) = retrieve (n + m) b.
Proof.
  intros W Hn Hm Hl. pose proof (zlen_content b W) as L.
  pose proof (wf_readable _ (wf_retrieve n b W Hn)) as R1. unfold retrieve at 1. rewrite R1.
  unfold retrieve. rewrite wf_readable by done.
  revert W. unfold wf, kCheapPrepend, max_size. intros W.
  destruct (n <? _) eqn:E1; reflect_bools; simpl.
  - rewrite u64_small by lia. destruct (m <? _) eqn:E2, (n + m <? _) eqn:E3; reflect_bools; try lia; [|done].
    rewrite !u64_small by lia. f_equal. lia.
  - assert (m = 0) as -> by lia.
    rewrite (Z.add_0_r n), (proj2 (Z.ltb_ge n _) E1). done.
Qed.

Lemma retrieve_nothing b : wf b -> content b <> [] -> retrieve 0 b = b.
Proof.
  intros W Hc. pose proof (zlen_content b W) as L. unfold retrieve. rewrite wf_readable by done.
  assert (0 < zlen (content b)) by (destruct (content b); [done|unfold zlen; simpl; lia]).
  destruct (_ <? _) eqn:E; reflect_bools; [|lia].
  revert W. unfold wf, kCheapPrepend, max_size. intros W. rewrite Z.add_0_r, u64_small by lia. by destruct b.
Qed.

Lemma buffer_retrieve len b : buffer_ (retrieve len b) = buffer_ b.
Proof. unfold retrieve. by destruct (_ <? _). Qed.

Lemma read_content b : wf b ->
  read_mem (buffer_ b) (peek b) (readableBytes b) = Ret (content b).
Proof.
  intros W. rewrite wf_readable by done. revert W. unfold wf, kCheapPrepend, peek.
  intros. apply read_mem_in; lia.
Qed.

Lemma resize_Ret n v :
  0 <= n <= max_size -> resize n v = Ret (take (Z.to_nat n) v ++ replicate (Z.to_nat n - length v) NUL).
Proof. intros. unfold resize. by if_false. Qed.

(** Room for [len] more bytes: the vector can only refuse to grow beyond its
    [max_size()]. *)
Definition makes_room (len : Z) (b : Buffer) (r : outcome Buffer) : Prop :=
  match r with
  | Ret b' => wf b' /\ content b' = content b /\
      writerIndex_ b' + len <= zlen (buffer_ b') <= zlen (buffer_ b) + len
  | Err f => f = LengthError /\ max_size < zlen (buffer_ b) + len
  end.

(** [makeSpace] for a request that does not fit behind the writer keeps the
    content and leaves room for [len] bytes. *)
Lemma makeSpace_room len b :
  wf b -> writableBytes b < len < 2 ^ 31 -> makes_room len b (makeSpace len b).
Proof.
  intros W Hlen. pose proof (wf_writable b W) as Hw. unfold makeSpace, makes_room.
  rewrite Hw in *. revert W. unfold wf, kCheapPrepend, prependableBytes. intros W.
  pose proof eq_refl : max_size = 2 ^ 63 - 1 as Hm. rewrite !u64_small by lia.
  destruct (_ <? _) eqn:E; reflect_bools.
  - unfold resize. destruct (_ <? _) eqn:E2; reflect_bools; [split; [done|lia]|].
    cbn [mbind mret outcome_bind outcome_ret buffer_ readerIndex_ writerIndex_].
    rewrite take_ge by (unfold zlen in *; lia).
    rewrite zlen_app, zlen_replicate. unfold content. simpl.
    rewrite slice_app_l by lia. unfold zlen in *. split_and!; try lia; done.
  - unfold copy_within, check. destruct (_ && _) eqn:B; reflect_bools; [lia|]. simpl.
    rewrite read_mem_in by lia. simpl.
    assert (zlen (slice (readerIndex_ b) (writerIndex_ b - readerIndex_ b) (buffer_ b)) =
            writerIndex_ b - readerIndex_ b) as L by (apply zlen_slice; lia).
    rewrite write_mem_in by lia. simpl.
    rewrite zlen_splice by lia. rewrite wf_readable by (unfold wf, kCheapPrepend; lia).
    rewrite u64_small by lia. split_and!; try lia. unfold content. simpl.
    replace (_ + _ - 8) with (writerIndex_ b - readerIndex_ b) by lia.
    rewrite <- L at 1. apply slice_splice_same; lia.
Qed.

Lemma ensureWritableBytes_room len b :
  wf b -> 0 <= len < 2 ^ 31 -> makes_room len b (ensureWritableBytes len b).
Proof.
  intros W Hlen. unfold ensureWritableBytes, makes_room. pose proof (wf_writable b W) as Hw.
  destruct (_ <? _) eqn:E; reflect_bools.
  - rewrite i32_small by lia. apply (makeSpace_room len b W); lia.
  - simpl. rewrite Hw in E. split_and!; try done; lia.
Qed.

Lemma append_room data b : wf b -> zlen data < 2 ^ 31 ->
  match append data b with
  | Ret b' => wf b' /\ content b' = content b ++ data /\
      zlen (buffer_ b') <= zlen (buffer_ b) + zlen data
  | Err f => f = LengthError /\ max_size < zlen (buffer_ b) + zlen data
  end.
Proof.
  intros W Hlen. pose proof (zlen_nonneg data).
  pose proof (ensureWritableBytes_room (zlen data) b W) as X. unfold append.
  destruct (ensureWritableBytes _ _) as [b1|f]; simpl; [|apply X; lia].
  destruct X as (W1 & C & ? & ?); [lia|]. unfold beginWrite.
  pose proof eq_refl : max_size = 2 ^ 63 - 1 as Hm. revert W1. unfold wf, kCheapPrepend. intros W1.
  rewrite write_mem_in by lia. simpl.
  rewrite zlen_splice, u64_small by lia. split_and!; try lia.
  rewrite <- C. unfold content. simpl.
  replace (writerIndex_ b1 + zlen data - readerIndex_ b1)
    with ((writerIndex_ b1 - readerIndex_ b1) + zlen data) by lia.
  rewrite slice_app by lia. f_equal.
  - apply slice_splice_before; lia.
  - replace (readerIndex_ b1 + _) with (writerIndex_ b1) by lia.
    apply slice_splice_same; lia.
Qed.

Lemma append_ok data b :
  wf b -> zlen data < 2 ^ 31 -> zlen (buffer_ b) + zlen data <= max_size ->
  exists b', append data b = Ret b' /\ wf b' /\ content b' = content b ++ data /\
    zlen (buffer_ b') <= zlen (buffer_ b) + zlen data.
Proof.
  intros W Hlen Hmax. pose proof (append_room data b W Hlen) as X.
  destruct (append data b) as [b'|f]; [by exists b'|]. destruct X. lia.
Qed.

Lemma op_cost_nonneg o : 0 <= op_cost o.
Proof. destruct o; simpl; auto with wf. lia. Qed.

Lemma cost_nonneg os : 0 <= cost os.
Proof. induction os as [|o os]; simpl; [lia|]. pose proof (op_cost_nonneg o). lia. Qed.

Lemma run_ops_ok os b :
  wf b -> Forall op_ok os -> cost os < 2 ^ 31 -> zlen (buffer_ b) + cost os <= max_size ->
  exists b', run_ops os b = Ret b' /\ wf b' /\
    content b' = fold_left spec_op os (content b) /\
    zlen (buffer_ b') <= zlen (buffer_ b) + cost os.
Proof.
  revert b. induction os as [|o os IH]; intros b W F Hc Hm.
  { exists b. split_and!; try done. simpl. lia. }
  pose proof (cost_nonneg os). pose proof (op_cost_nonneg o). inversion F as [|? ? Ho Fo]; subst. simpl in Hc, Hm.
  assert (exists b1, run_op o b = Ret b1 /\ wf b1 /\ content b1 = spec_op (content b) o /\
            zlen (buffer_ b1) <= zlen (buffer_ b) + op_cost o)
    as (b1 & E & W1 & C1 & L1).
  { destruct o as [d|n]; simpl in *.
    - apply append_ok; [done|lia|lia].
    - eexists. split; [done|]. split_and!.
      + by apply wf_retrieve.
      + by apply content_retrieve.
      + rewrite buffer_retrieve. lia. }
  simpl. rewrite E. simpl.
  destruct (IH b1) as (b' & E' & W' & C' & L'); try done; try lia.
  exists b'. rewrite C', C1. split_and!; try done. lia.
Qed.

Lemma findCRLF_run b : wf b ->
  findCRLF b = Ret (let i := search_index kCRLF (content b) in
                    if (i =? length (content b))%nat then None
                    else Some (peek b + Z.of_nat i)).
Proof.
  intros W. unfold findCRLF.
  replace (beginWrite b - peek b) with (readableBytes b)
    by (by rewrite wf_readable). rewrite read_content by done. simpl.
  pose proof (zlen_content b W) as L. unfold zlen, beginWrite, peek in *.
  destruct (_ =? _)%nat eqn:E.
  - apply Nat.eqb_eq in E. rewrite E. by if_true.
  - apply Nat.eqb_neq in E. by if_false.
Qed.

(** ** What the system calls promise *)

(** [readv] delivers at most the bytes its buffers hold. *)
Definition readv_law (readv : Z -> list Z -> sys_result bytes) : Prop :=
  forall fd lens d, readv fd lens = Done d -> zlen d <= foldr Z.add 0 lens.

(** Writing [d] behind the writer index, within the writable part. *)
Lemma fill_writable d b :
  wf b -> zlen d <= zlen (buffer_ b) - writerIndex_ b ->
  let b1 := mkBuffer (splice (writerIndex_ b) d (buffer_ b)) (readerIndex_ b)
              (writerIndex_ b + zlen d) in
  wf b1 /\ content b1 = content b ++ d /\ zlen (buffer_ b1) = zlen (buffer_ b).
Proof.
  unfold wf, content, max_size, kCheapPrepend. intros W Hd. simpl.
  pose proof (zlen_nonneg d). rewrite zlen_splice by lia. split_and!; [lia..| |done].
  replace (writerIndex_ b + zlen d - readerIndex_ b) with
    (writerIndex_ b - readerIndex_ b + zlen d) by lia.
  rewrite slice_app by lia. f_equal.
  - apply slice_splice_before; lia.
  - replace (readerIndex_ b + _) with (writerIndex_ b) by lia. apply slice_splice_same; lia.
Qed.

(** [readFd] for one result of [readv]. *)
Lemma readFd_ok readv fd b :
  (forall d, readv fd (readFd_iov b) = Done d -> zlen d <= foldr Z.add 0 (readFd_iov b)) ->
  wf b -> zlen (buffer_ b) + extrabuf_size <= max_size ->
  match readv fd (readFd_iov b) with
  | Failed e => readFd readv fd b = Ret (-1, Some e, b)
  | Done d => exists b', readFd readv fd b = Ret (zlen d, None, b') /\ wf b' /\
                         content b' = content b ++ d /\
                         zlen (buffer_ b') <= zlen (buffer_ b) + zlen d
  end.
Proof.
  intros L W Hmax.
  unfold readFd. destruct (readv fd (readFd_iov b)) as [e|d] eqn:E; [done|].
  specialize (L d eq_refl). pose proof (wf_writable b W) as Hw. unfold readFd_iov in L.
  rewrite Hw in *. pose proof W as W0. unfold wf, kCheapPrepend, max_size, extrabuf_size in W0, Hmax.
  remember (zlen (buffer_ b) - writerIndex_ b) as w eqn:Ew. pose proof (zlen_nonneg d).
  assert (zlen d <= w + extrabuf_size) as Hd.
  { unfold extrabuf_size in *. destruct (_ <? _); simpl in L; lia. }
  unfold extrabuf_size in *.
  set (d1 := take (Z.to_nat w) d). set (d2 := drop (Z.to_nat w) d).
  assert (zlen d1 = Z.min w (zlen d)) by (unfold d1; zlen_lia).
  assert (zlen d2 = Z.max 0 (zlen d - w)) by (unfold d2; zlen_lia).
  rewrite (write_mem_in (buffer_ b)) by lia. ostep.
  rewrite write_mem_in by (rewrite ?zlen_replicate; lia). ostep.
  destruct (fill_writable d1 b W ltac:(lia)) as (W1 & C1 & Lb).
  remember (mkBuffer (splice _ d1 _) _ _) as b1 eqn:Eb1.
  destruct (_ <=? _) eqn:B; reflect_bools.
  - assert (d1 = d) as Ed by (unfold d1; apply take_ge; unfold zlen in *; lia).
    rewrite u64_small by lia. exists b1. rewrite Eb1. rewrite Ed in *. subst b1.
    split_and!; done || lia.
  - rewrite read_mem_in by (rewrite ?zlen_splice, ?zlen_replicate; rewrite ?zlen_replicate; lia). ostep.
    replace (zlen d - w) with (zlen d2) by lia.
    rewrite slice_splice_same by (rewrite ?zlen_replicate; lia).
    rewrite zlen_splice by lia.
    replace (mkBuffer _ _ _) with b1 by (rewrite Eb1; f_equal; lia).
    destruct (append_ok d2 b1) as (b' & E' & W' & C' & L'); [done|lia|unfold max_size; lia|].
    rewrite E'. ostep. exists b'. split_and!; [done|done| |lia].
    rewrite C', C1, <- app_assoc. f_equal. apply take_drop.
Qed.

(** [retrieveAllAsString] on a well-formed buffer. *)
Lemma retrieveAllAsString_ok b : wf b -> retrieveAllAsString b = Ret (content b, retrieveAll b).
Proof.
  intros W. unfold retrieveAllAsString, retrieveAsString. rewrite read_content by done. ostep.
  unfold retrieve. by rewrite Z.ltb_irrefl.
Qed.

(** ** Properties *)

(** [append] of fewer than [2 ^ 31] bytes to a well-formed buffer never
    leaves the storage, keeps [kCheapPrepend <= readerIndex <= writerIndex <=
    size], and adds exactly the given bytes at the end of the readable
    content, whether the space comes from the tail, from moving the content
    to the front, or from a resize. *)
Theorem append_content data b
  (W : wf b) (Hlen : zlen data < 2 ^ 31) (Hmax : zlen (buffer_ b) + zlen data <= max_size) :
  exists b', append data b = Ret b' /\ wf b' /\ content b' = content b ++ data.
Proof.
  destruct (append_ok data b) as (b' & ? & ? & ? & ?); eauto.
Qed.

Lemma append_content_witness :
  exists b', append (str "GET /") (new_Buffer 2) = Ret b' /\ wf b' /\
             content b' = content (new_Buffer 2) ++ str "GET /".
Proof.
  apply (append_content (str "GET /") (new_Buffer 2)).
  - apply wf_new. vm_compute. split; discriminate.
  - vm_compute. reflexivity.
  - vm_compute. discriminate.
Defined.

(** C8: a buffer implements a FIFO queue of bytes: every sequence of appends
    and retrieves on a fresh [Buffer], of less than [2 ^ 31] bytes in all,
    runs without a fault, and its readable content is the one the same
    sequence gives on a plain byte queue. *)
Theorem run_ops_refines_queue os
  (Hok : Forall op_ok os) (Hcost : cost os < 2 ^ 31) :
  exists b', run_ops os (new_Buffer kInitialSize) = Ret b' /\ wf b' /\
             content b' = fold_left spec_op os [].
Proof.
  assert (wf (new_Buffer kInitialSize)) as W0.
  { apply wf_new. unfold kInitialSize, kCheapPrepend, max_size. lia. }
  destruct (run_ops_ok os (new_Buffer kInitialSize)) as (b' & E & W & C & _);
    [done | done | done | |].
  - change (zlen (buffer_ (new_Buffer kInitialSize))) with 1032. unfold max_size. lia.
  - exists b'. by rewrite C, content_new.
Qed.

Lemma run_ops_refines_queue_witness :
  let os := [Append (str "abc"); Retrieve 2; Append (str "de")] in
  exists b', run_ops os (new_Buffer kInitialSize) = Ret b' /\ wf b' /\
             content b' = fold_left spec_op os [].
Proof.
  apply run_ops_refines_queue.
  - repeat constructor; vm_compute; discriminate.
  - vm_compute. reflexivity.
Defined.

(** C26: [readFd] saves the errno and leaves the buffer alone when [readv]
    fails; otherwise it returns the number of bytes read and appends all of
    them in order, those that overflowed into the stack block included, with
    no more new storage than bytes. *)
Theorem readFd_appends readv fd b
  (L : readv_law readv) (W : wf b)
  (Hmax : zlen (buffer_ b) + extrabuf_size <= max_size) :
  match readv fd (readFd_iov b) with
  | Failed e => readFd readv fd b = Ret (-1, Some e, b)
  | Done d => exists b', readFd readv fd b = Ret (zlen d, None, b') /\ wf b' /\
                         content b' = content b ++ d /\
                         zlen (buffer_ b') <= zlen (buffer_ b) + zlen d
  end.
Proof. apply readFd_ok; [|done..]. intros d E. by apply L in E. Qed.

Lemma readFd_appends_witness :
  let readv := fun (fd : Z) lens =>
    if foldr Z.add 0 lens <? 6 then Failed 11 else Done (str "abcdef") in
  exists b', readFd readv 5 (new_Buffer 4) = Ret (6, None, b') /\ wf b' /\
             content b' = content (new_Buffer 4) ++ str "abcdef" /\
             zlen (buffer_ b') <= zlen (buffer_ (new_Buffer 4)) + zlen (str "abcdef").
Proof.
  intros readv. apply (readFd_appends readv 5 (new_Buffer 4)).
  - unfold readv. intros fd lens d. destruct (_ <? _) eqn:E; reflect_bools; intros [= <-].
    unfold zlen. simpl. lia.
  - apply wf_new. vm_compute. split; discriminate.
  - vm_compute. discriminate.
Defined.

(** [findCRLF] returns the address of the first CRLF of the readable
    bytes, and NULL exactly when they hold none. *)
Theorem findCRLF_first b (W : wf b) :
  exists r, findCRLF b = Ret r /\
  match r with
  | Some p => exists u v, content b = u ++ kCRLF ++ v /\ p = peek b + zlen u /\
      (forall n, (n < length u)%nat -> is_prefix kCRLF (drop n (content b)) = false)
  | None => forall n, is_prefix kCRLF (drop n (content b)) = false
  end.
Proof.
  rewrite findCRLF_run by done. eexists. split; [done|].
  pose proof (search_index_le kCRLF (content b)) as Hle. cbv zeta.
  destruct (_ =? _)%nat eqn:E; [apply Nat.eqb_eq in E | apply Nat.eqb_neq in E].
  - intros n. destruct (decide (n < length (content b))%nat).
    + apply search_index_first. lia.
    + by rewrite drop_ge by lia.
  - destruct (search_index_hit kCRLF (content b)) as [v Hv]; [lia|].
    exists (take (search_index kCRLF (content b)) (content b)), v.
    assert (length (take (search_index kCRLF (content b)) (content b)) =
      search_index kCRLF (content b)) as L by (rewrite length_take; lia).
    unfold zlen. rewrite L. split_and!; [done|done|]. intros. by apply search_index_first.
Qed.

Lemma findCRLF_first_witness :
  let b := mkBuffer (str "12345678a" ++ kCRLF ++ str "b") 8 12 in
  wf b /\ exists r, findCRLF b = Ret r /\
  match r with
  | Some p => exists u v, content b = u ++ kCRLF ++ v /\ p = peek b + zlen u /\
      (forall n, (n < length u)%nat -> is_prefix kCRLF (drop n (content b)) = false)
  | None => forall n, is_prefix kCRLF (drop n (content b)) = false
  end.
Proof.
  assert (wf (mkBuffer (str "12345678a" ++ kCRLF ++ str "b") 8 12)) as W.
  { vm_compute. split_and!; discriminate. }
  split; [exact W | exact (findCRLF_first _ W)].
Defined.

(** [makeSpace] takes its length as an [int]: a request for [2 ^ 32] bytes
    on a buffer with less than that to spare is truncated to 0, no room is
    made, and [append] leaves the vector's storage. *)
Theorem append_truncated_length_faults data b
  (W : wf b) (Hb : zlen (buffer_ b) < 2 ^ 32) (Hlen : zlen data = 2 ^ 32) :
  exists f, append data b = Err f.
Proof.
  unfold append, ensureWritableBytes. pose proof (wf_writable b W) as Hw.
  pose proof W as W0. unfold wf, kCheapPrepend, max_size in W0. rewrite Hw, Hlen.
  if_true. unfold makeSpace. change (i32 (2 ^ 32)) with 0. rewrite Hw.
  unfold prependableBytes, kCheapPrepend. rewrite !u64_small by lia. if_false.
  unfold copy_within, check. destruct (negb _); ostep; [|eauto].
  rewrite read_mem_in by lia. ostep.
  assert (zlen (slice (readerIndex_ b) (writerIndex_ b - readerIndex_ b) (buffer_ b)) =
          writerIndex_ b - readerIndex_ b) as L by (apply zlen_slice; lia).
  rewrite write_mem_in by lia. ostep. rewrite wf_readable by done.
  rewrite u64_small by lia. unfold write_mem, beginWrite. simpl.
  rewrite zlen_splice by lia. if_false_and. ostep. eauto.
Qed.

Lemma append_truncated_length_faults_witness :
  exists f, append (replicate (Z.to_nat (2 ^ 32)) NUL) (new_Buffer 16) = Err f.
Proof.
  apply append_truncated_length_faults.
  - apply wf_new. vm_compute. split; discriminate.
  - vm_compute. reflexivity.
  - rewrite zlen_replicate. apply Z2Nat.id. vm_compute. discriminate.
Defined.

End Buffer.
