(* ===== verification/Channel.v ===== *)
(** * Channel: a descriptor, its interest set and its callbacks
    ([src/net/Channel.h], [Channel.cc])

    A [Channel] is owned by exactly one object (a connection, an acceptor, a
    timer queue or a loop), so its operations take the channel as a value and
    return it; [update()] and [remove()] go to the poller of its loop through
    the interface [POLLER].  [handleEvent] dispatches the events the poller
    reported to the callbacks in the order of the code. *)

From S2P Require Import Prelude.

(** ** epoll event masks ([<sys/epoll.h>]) *)

Definition EPOLLIN : Z := 1.
Definition EPOLLPRI : Z := 2.
Definition EPOLLOUT : Z := 4.
Definition EPOLLERR : Z := 8.
Definition EPOLLHUP : Z := 16.

Module Channel.

(** ** State *)

Definition kNoneEvent : Z := 0.
Definition kReadEvent : Z := Z.lor EPOLLIN EPOLLPRI.
Definition kWriteEvent : Z := EPOLLOUT.

Section Channel.
(** [C] names the bound functions; [None] is the empty [std::function]. *)
Context {C : Type}.

Record Channel := mkChannel {
  loop_ : Z;
  fd_ : Z;
  events_ : Z;
  revents_ : Z;
  index_ : Z;
  tie_ : option Z;       (** the object of [std::weak_ptr<void> tie_] *)
  tied_ : bool;
  readCallback_ : option C;
  writeCallback_ : option C;
  closeCallback_ : option C;
  errorCallback_ : option C
}.

Definition new_Channel (loop fd : Z) : Channel :=
  mkChannel loop fd 0 0 (-1) None false None None None None.

(** ** Accessors and setters *)

Definition fd (c : Channel) : Z := fd_ c.
Definition events (c : Channel) : Z := events_ c.
Definition index (c : Channel) : Z := index_ c.
Definition ownerLoop (c : Channel) : Z := loop_ c.

Definition set_events (e : Z) (c : Channel) : Channel :=
  mkChannel (loop_ c) (fd_ c) e (revents_ c) (index_ c) (tie_ c) (tied_ c)
    (readCallback_ c) (writeCallback_ c) (closeCallback_ c) (errorCallback_ c).

Definition set_revents (r : Z) (c : Channel) : Channel :=
  mkChannel (loop_ c) (fd_ c) (events_ c) r (index_ c) (tie_ c) (tied_ c)
    (readCallback_ c) (writeCallback_ c) (closeCallback_ c) (errorCallback_ c).

Definition set_index (i : Z) (c : Channel) : Channel :=
  mkChannel (loop_ c) (fd_ c) (events_ c) (revents_ c) i (tie_ c) (tied_ c)
    (readCallback_ c) (writeCallback_ c) (closeCallback_ c) (errorCallback_ c).

Definition tie (obj : Z) (c : Channel) : Channel :=
  mkChannel (loop_ c) (fd_ c) (events_ c) (revents_ c) (index_ c) (Some obj) true
    (readCallback_ c) (writeCallback_ c) (closeCallback_ c) (errorCallback_ c).

Definition setReadCallback (cb : C) (c : Channel) : Channel :=
  mkChannel (loop_ c) (fd_ c) (events_ c) (revents_ c) (index_ c) (tie_ c) (tied_ c)
    (Some cb) (writeCallback_ c) (closeCallback_ c) (errorCallback_ c).

Definition setWriteCallback (cb : C) (c : Channel) : Channel :=
  mkChannel (loop_ c) (fd_ c) (events_ c) (revents_ c) (index_ c) (tie_ c) (tied_ c)
    (readCallback_ c) (Some cb) (closeCallback_ c) (errorCallback_ c).

Definition setCloseCallback (cb : C) (c : Channel) : Channel :=
  mkChannel (loop_ c) (fd_ c) (events_ c) (revents_ c) (index_ c) (tie_ c) (tied_ c)
    (readCallback_ c) (writeCallback_ c) (Some cb) (errorCallback_ c).

Definition setErrorCallback (cb : C) (c : Channel) : Channel :=
  mkChannel (loop_ c) (fd_ c) (events_ c) (revents_ c) (index_ c) (tie_ c) (tied_ c)
    (readCallback_ c) (writeCallback_ c) (closeCallback_ c) (Some cb).

(** A mask converted to [bool]. *)
Definition has (mask bits : Z) : bool := negb (Z.land mask bits =? 0).

Definition isNoneEvent (c : Channel) : bool := events_ c =? kNoneEvent.
Definition isWriting (c : Channel) : bool := has (events_ c) kWriteEvent.
Definition isReading (c : Channel) : bool := has (events_ c) kReadEvent.

End Channel.
Arguments Channel : clear implicits.

(** ** The poller interface

    The abstract base class [Poller]: a poller of type [P] accepts the channel
    at address [self] and returns the channel with its new [index_]. *)

Class POLLER (P : Type) := {
  updateChannel : forall {C}, Z -> Channel C -> P -> outcome (Channel C * P);
  removeChannel : forall {C}, Z -> Channel C -> P -> outcome (Channel C * P);
  hasChannel : forall {C}, Z -> Channel C -> P -> bool
}.

(** What a channel's owner relies on: the poller changes [index_] only, a
    removal never fails, and the only fault of an update is the abort of a
    failing [epoll_ctl]. *)
Class POLLER_LAWS (P : Type) `{POLLER P} := {
  update_frame : forall {C} self (c c' : Channel C) (p p' : P),
    updateChannel self c p = Ret (c', p') -> exists i, c' = set_index i c;
  update_fault : forall {C} self (c : Channel C) (p : P) f,
    updateChannel self c p = Err f -> f = Aborted;
  remove_total : forall {C} self (c : Channel C) (p : P),
    exists i p', removeChannel self c p = Ret (set_index i c, p')
}.

(** ** Operations that go to the poller *)

Section Updates.
Context {C P : Type} `{POLLER P}.
Implicit Types (c : Channel C) (p : P).

(** [Channel::update] and [Channel::remove], through [EventLoop]. *)
Definition update (self : Z) c p : outcome (Channel C * P) := updateChannel self c p.
Definition remove (self : Z) c p : outcome (Channel C * P) := removeChannel self c p.

Definition enableReading (self : Z) c p :=
  update self (set_events (Z.lor (events_ c) kReadEvent) c) p.
Definition disableReading (self : Z) c p :=
  update self (set_events (Z.land (events_ c) (Z.lnot kReadEvent)) c) p.
Definition enableWriting (self : Z) c p :=
  update self (set_events (Z.lor (events_ c) kWriteEvent) c) p.
Definition disableWriting (self : Z) c p :=
  update self (set_events (Z.land (events_ c) (Z.lnot kWriteEvent)) c) p.
Definition disableAll (self : Z) c p :=
  update self (set_events (Z.land (events_ c) kNoneEvent) c) p.

End Updates.

(** ** Event dispatch

    [W] is the state the callbacks run on, [this] reads the channel out of it
    ([None] when the channel has been destroyed), [alive] says whether the
    tied object still has an owner, and [run cb receiveTime] calls a bound
    function.  [run] is given the guard [handleEvent] holds: while it is
    [Some obj] the object cannot be destroyed. *)

Section Dispatch.
Context {C W : Type}.
Context (this : W -> option (Channel C)).
Context (alive : Z -> W -> bool).
Context (run : option Z -> C -> Z -> W -> outcome W).

(** [if (cb) cb(...)]. *)
Definition call (guard : option Z) (sel : Channel C -> option C) (t : Z) (w : W) : outcome W :=
  c ← deref UseAfterFree (this w);
  match sel c with
  | Some cb => run guard cb t w
  | None => mret w
  end.

Definition handleEventWithGuard (guard : option Z) (receiveTime : Z) (w : W) : outcome W :=
  c ← deref UseAfterFree (this w);
  w1 ← (if has (revents_ c) EPOLLHUP && negb (has (revents_ c) EPOLLIN)
        then call guard closeCallback_ receiveTime w else mret w);
  c1 ← deref UseAfterFree (this w1);
  w2 ← (if has (revents_ c1) EPOLLERR
        then call guard errorCallback_ receiveTime w1 else mret w1);
  c2 ← deref UseAfterFree (this w2);
  w3 ← (if has (revents_ c2) (Z.lor EPOLLIN EPOLLPRI)
        then call guard readCallback_ receiveTime w2 else mret w2);
  c3 ← deref UseAfterFree (this w3);
  if has (revents_ c3) EPOLLOUT
  then call guard writeCallback_ receiveTime w3 else mret w3.

Definition handleEvent (receiveTime : Z) (w : W) : outcome W :=
  c ← deref UseAfterFree (this w);
  if tied_ c then
    match tie_ c with
    | Some obj => if alive obj w
                  then handleEventWithGuard (Some obj) receiveTime w
                  else mret w
    | None => mret w
    end
  else handleEventWithGuard None receiveTime w.

End Dispatch.


(** ** Specification of the dispatch *)

Section Spec.
Context {C W : Type}.
Context (this : W -> option (Channel C)).
Context (alive : Z -> W -> bool).
Context (run : option Z -> C -> Z -> W -> outcome W).

(** The bound functions an event calls: close on HUP without IN, error on
    ERR, read on IN or PRI, write on OUT, in this order. *)
Definition selected (c : Channel C) : list C :=
  (if has (revents_ c) EPOLLHUP && negb (has (revents_ c) EPOLLIN)
   then option_list (closeCallback_ c) else []) ++
  (if has (revents_ c) EPOLLERR then option_list (errorCallback_ c) else []) ++
  (if has (revents_ c) (Z.lor EPOLLIN EPOLLPRI) then option_list (readCallback_ c) else []) ++
  (if has (revents_ c) EPOLLOUT then option_list (writeCallback_ c) else []).

Fixpoint run_all (guard : option Z) (cbs : list C) (t : Z) (w : W) : outcome W :=
  match cbs with
  | [] => mret w
  | cb :: cbs' => w' ← run guard cb t w; run_all guard cbs' t w'
  end.

(** What the dispatch reads of a channel. *)
Definition view (c : Channel C) :=
  (revents_ c, readCallback_ c, writeCallback_ c, closeCallback_ c, errorCallback_ c).

(** A callback run under [guard] leaves the channel in place, with the same
    reported events and callbacks. *)
Definition stable (guard : option Z) : Prop :=
  forall cb t w w' c, this w = Some c -> run guard cb t w = Ret w' ->
    exists c', this w' = Some c' /\ view c' = view c.

End Spec.

(** ** Lemmas *)

Lemma has_lor m b : has (Z.lor m b) b = negb (b =? 0).
Proof.
  unfold has. f_equal. rewrite Z.land_comm, Z.lor_comm.
  replace (Z.land b (Z.lor b m)) with b; [done|].
  apply Z.bits_inj. intros n. rewrite Z.land_spec, Z.lor_spec.
  by destruct (Z.testbit b n).
Qed.

Lemma has_land_lnot m b : has (Z.land m (Z.lnot b)) b = false.
Proof.
  unfold has. rewrite <- Z.land_assoc, (Z.land_comm _ b), Z.land_lnot_diag, Z.land_0_r. done.
Qed.

(** Changing the bits of [b] leaves the test of disjoint bits alone. *)
Lemma has_lor_disjoint m b d : Z.land b d = 0 -> has (Z.lor m b) d = has m d.
Proof. intros E. unfold has. by rewrite Z.land_lor_distr_l, E, Z.lor_0_r. Qed.

Lemma has_land_disjoint m b d : Z.land b d = 0 -> has (Z.land m (Z.lnot b)) d = has m d.
Proof.
  intros E. unfold has. do 2 f_equal. rewrite <- Z.land_assoc. f_equal.
  apply Z.bits_inj. intros n. apply (f_equal (fun x => Z.testbit x n)) in E. revert E.
  rewrite !Z.land_spec, Z.bits_0. destruct (Z.ltb_spec n 0).
  - by rewrite (Z.testbit_neg_r d), !andb_false_r by done.
  - rewrite Z.lnot_spec by done. destruct (Z.testbit b n), (Z.testbit d n); naive_solver.
Qed.

Section DispatchLemmas.
Context {C W : Type}.
Context (this : W -> option (Channel C)).
Context (run : option Z -> C -> Z -> W -> outcome W).

Lemma run_all_app g l1 l2 t w :
  run_all run g (l1 ++ l2) t w = (w' ← run_all run g l1 t w; run_all run g l2 t w').
Proof.
  revert w. induction l1 as [|cb l1 IH]; intros w; simpl; [done|].
  destruct (run g cb t w); simpl; [apply IH | done].
Qed.

Lemma run_all_stable g l t w w' c :
  stable this run g -> this w = Some c -> run_all run g l t w = Ret w' ->
  exists c', this w' = Some c' /\ view c' = view c.
Proof.
  intros St. revert w c. induction l as [|cb l IH]; intros w c Hw; simpl.
  - intros [= <-]. eauto.
  - intros E. apply bind_Ret in E as (w1 & E1 & E2).
    destruct (St _ _ _ _ _ Hw E1) as (c1 & Hc1 & V1).
    destruct (IH _ _ Hc1 E2) as (c2 & ? & ?). exists c2. split; congruence.
Qed.

(** One test-and-call of the dispatch. *)
Lemma call_run_all g sel t w c (b : bool) (k : W -> outcome W) :
  this w = Some c ->
  (w' ← (if b then call this run g sel t w else mret w); k w') =
  (w' ← run_all run g (if b then option_list (sel c) else []) t w; k w').
Proof.
  intros Hw. destruct b; [|done]. unfold call. rewrite Hw. ostep.
  destruct (sel c); simpl; [|done]. by destruct (run _ _ _ _).
Qed.

(** What every callback preserves, the dispatch preserves. *)
Lemma handleEvent_post alive (J : W -> Prop) t w :
  (forall g cb t w, J w -> post J (run g cb t w)) -> (forall w, J w -> is_Some (this w)) ->
  J w -> post J (handleEvent this alive run t w).
Proof.
  intros Hrun Hthis Hw.
  assert (forall g sel (b : bool) w, J w ->
    post J (if b then call this run g sel t w else mret w)) as Hcall.
  { intros g sel b w0 H0. destruct b; [|done]. unfold call.
    destruct (Hthis _ H0) as [c ->]. ostep. destruct (sel c); [by apply Hrun|done]. }
  assert (forall g, post J (handleEventWithGuard this run g t w)) as Hguard.
  { intros g. unfold handleEventWithGuard. destruct (Hthis _ Hw) as [c ->]. ostep.
    eapply post_bind; [by apply Hcall|]. intros w1 H1. destruct (Hthis _ H1) as [c1 ->]. ostep.
    eapply post_bind; [by apply Hcall|]. intros w2 H2. destruct (Hthis _ H2) as [c2 ->]. ostep.
    eapply post_bind; [by apply Hcall|]. intros w3 H3. destruct (Hthis _ H3) as [c3 ->]. ostep.
    by apply Hcall. }
  unfold handleEvent. destruct (Hthis _ Hw) as [c ->]. ostep.
  destruct (tied_ c); [|done]. destruct (tie_ c); [|done]. by destruct (alive _ _).
Qed.

Lemma selected_view (c c' : Channel C) : view c' = view c -> selected c' = selected c.
Proof. unfold view, selected. intros [= -> -> -> -> ->]. done. Qed.

End DispatchLemmas.


(** ** Properties *)

(** C15: the dispatch runs exactly the callbacks the reported events select, in
    the order close, error, read, write, each on the state the previous one
    left, and stops at the first fault; an empty callback is skipped. *)
Theorem handleEventWithGuard_dispatch {C W} (this : W -> option (Channel C)) run g t w c
  (Hst : stable this run g) (Hw : this w = Some c) :
  handleEventWithGuard this run g t w = run_all run g (selected c) t w.
Proof.
  unfold handleEventWithGuard, selected. rewrite Hw. ostep.
  rewrite (call_run_all this run g closeCallback_ t w c) by done.
  rewrite run_all_app. destruct (run_all _ _ _ t w) as [w1|] eqn:E1; [|done]. ostep.
  destruct (run_all_stable this run _ _ _ _ _ _ Hst Hw E1) as (c1 & H1 & V1).
  rewrite H1. ostep. injection V1 as R1 Rd1 Wr1 Cl1 Er1.
  rewrite (call_run_all this run g errorCallback_ t w1 c1) by done. rewrite R1, Er1.
  rewrite run_all_app. destruct (run_all _ _ _ t w1) as [w2|] eqn:E2; [|done]. ostep.
  destruct (run_all_stable this run _ _ _ _ _ _ Hst H1 E2) as (c2 & H2 & V2).
  rewrite H2. ostep. injection V2 as R2 Rd2 Wr2 Cl2 Er2.
  rewrite (call_run_all this run g readCallback_ t w2 c2) by done. rewrite R2, Rd2, R1, Rd1.
  rewrite run_all_app. destruct (run_all _ _ _ t w2) as [w3|] eqn:E3; [|done]. ostep.
  destruct (run_all_stable this run _ _ _ _ _ _ Hst H2 E3) as (c3 & H3 & V3).
  rewrite H3. ostep. injection V3 as R3 Rd3 Wr3 Cl3 Er3. rewrite R3, R2, R1.
  destruct (has _ EPOLLOUT); [|done]. unfold call. rewrite H3. ostep.
  rewrite Wr3, Wr2, Wr1. destruct (writeCallback_ c); simpl; [|done].
  by destruct (run _ _ _ _).
Qed.

(** A channel whose callbacks are numbered 1 (read) to 4 (error), reporting
    HUP, ERR and OUT; the callbacks log their number. *)
Definition demo_channel : Channel nat :=
  set_revents (Z.lor EPOLLHUP (Z.lor EPOLLERR EPOLLOUT))
    (setErrorCallback 4%nat (setCloseCallback 3%nat
      (setWriteCallback 2%nat (setReadCallback 1%nat (new_Channel 0 7))))).

Lemma handleEventWithGuard_dispatch_witness :
  handleEventWithGuard (fun w : list nat => Some demo_channel)
    (fun _ cb _ w => Ret (w ++ [cb])) None 0 [] = Ret [3; 4; 2]%nat.
Proof.
  rewrite (handleEventWithGuard_dispatch _ _ _ _ _ demo_channel); [reflexivity | | reflexivity].
  intros cb t w w' c [= <-] _. eauto.
Defined.

(** C14: [handleEvent] of a tied channel: when the tied object is gone no
    callback runs; when it is alive and the guard keeps the channel's owner
    alive during each callback, the dispatch never touches a destroyed
    channel, although a callback may drop the last other reference. *)
Theorem handleEvent_tied_safe {C W} (this : W -> option (Channel C)) alive run t w c obj
  (Hw : this w = Some c) (Htied : tied_ c = true) (Htie : tie_ c = Some obj)
  (Hguard : forall cb t w w', run (Some obj) cb t w = Ret w' ->
     is_Some (this w) -> is_Some (this w'))
  (Hrun : forall cb t w, run (Some obj) cb t w <> Err UseAfterFree) :
  handleEvent this alive run t w <> Err UseAfterFree /\
  (alive obj w = false -> handleEvent this alive run t w = Ret w).
Proof.
  unfold handleEvent. rewrite Hw. ostep. rewrite Htied, Htie.
  destruct (alive obj w); [|done]. split; [|done].
  assert (forall sel (b : bool) w, is_Some (this w) ->
    match (if b then call this run (Some obj) sel t w else mret w) with
    | Ret w' => is_Some (this w') | Err f => f <> UseAfterFree end) as Hcall.
  { intros sel b w0 [c0 H0]. destruct b; [|simpl; eauto]. unfold call. rewrite H0. ostep.
    destruct (sel c0) as [cb|]; [|simpl; eauto].
    destruct (run (Some obj) cb t w0) eqn:E; [eapply Hguard; eauto|].
    intros ->. by apply Hrun in E. }
  unfold handleEventWithGuard. rewrite Hw. ostep.
  assert (is_Some (this w)) as S0 by eauto.
  match goal with |- context [if ?b then call _ _ _ closeCallback_ _ _ else _] =>
    specialize (Hcall closeCallback_ b w S0) as H1; destruct (if b then _ else _) as [w1|] end;
    [ostep | simpl; congruence].
  destruct H1 as [c1 E1]. rewrite E1. ostep.
  match goal with |- context [if ?b then call _ _ _ errorCallback_ _ _ else _] =>
    specialize (Hcall errorCallback_ b w1 (ex_intro _ _ E1)) as H2; destruct (if b then _ else _) as [w2|] end;
    [ostep | simpl; congruence].
  destruct H2 as [c2 E2]. rewrite E2. ostep.
  match goal with |- context [if ?b then call _ _ _ readCallback_ _ _ else _] =>
    specialize (Hcall readCallback_ b w2 (ex_intro _ _ E2)) as H3; destruct (if b then _ else _) as [w3|] end;
    [ostep | simpl; congruence].
  destruct H3 as [c3 E3]. rewrite E3. ostep.
  specialize (Hcall writeCallback_ (has (revents_ c3) EPOLLOUT) w3 (ex_intro _ _ E3)) as H4.
  destruct (if has (revents_ c3) EPOLLOUT then _ else _); congruence.
Qed.

(** The state is the channel's owner: [None] once it is destroyed.  Its close
    callback destroys it unless a guard is held. *)
Lemma handleEvent_tied_safe_witness :
  let c := tie 9 demo_channel in
  let run := fun (g : option Z) (cb : nat) (t : Z) (w : option (Channel nat)) =>
    match g with Some _ => Ret w | None => Ret None end in
  handleEvent id (fun _ _ => true) run 0 (Some c) <> Err UseAfterFree /\
  handleEvent id (fun _ _ => true) run 0 (Some demo_channel) = Err UseAfterFree.
Proof.
  intros c run. split; [|reflexivity].
  apply (handleEvent_tied_safe id (fun _ _ => true) run 0 (Some c) c 9);
    [reflexivity | reflexivity | reflexivity | | discriminate].
  intros cb t w w' [= <-]. done.
Defined.

End Channel.
