(* ===== verification/Poller.v ===== *)
(** * Poller and EPollPoller ([src/net/poller/])

    [Poller] keeps the map from descriptors to channel addresses; its only
    implementation, [EPollPoller], mirrors the interest set of a kernel epoll
    instance.  The kernel is the interface [EPOLL]; [EPOLL_LAWS] states what
    the manual pages of [epoll_ctl(2)] promise, and [kepoll] is a concrete
    kernel that satisfies them.  [EPollPoller] is an instance of [POLLER]. *)

From S2P Require Import Prelude Channel.

(** ** The kernel side *)

Inductive ctl_op := EPOLL_CTL_ADD | EPOLL_CTL_DEL | EPOLL_CTL_MOD.

(** [struct epoll_event]: the mask and [data.ptr]. *)
Record epoll_event := mkEvent { ev_events : Z; ev_ptr : Z }.

Class EPOLL (K : Type) := {
  epoll_ctl : ctl_op -> Z -> epoll_event -> K -> Z * K;
  interest : K -> gmap Z epoll_event
}.

(** What the code relies on: a failing call reports a negative number and
    changes nothing; a successful one has its effect; [ADD] fails on a
    descriptor that is present, [MOD] and [DEL] on one that is not; deleting
    a descriptor that is present succeeds. *)
Class EPOLL_LAWS (K : Type) `{EPOLL K} := {
  ctl_fail : forall op fd ev k r k', epoll_ctl op fd ev k = (r, k') -> r < 0 ->
    interest k' = interest k;
  ctl_add : forall fd ev k r k', epoll_ctl EPOLL_CTL_ADD fd ev k = (r, k') -> 0 <= r ->
    interest k !! fd = None /\ interest k' = <[fd := ev]> (interest k);
  ctl_mod : forall fd ev k r k', epoll_ctl EPOLL_CTL_MOD fd ev k = (r, k') -> 0 <= r ->
    is_Some (interest k !! fd) /\ interest k' = <[fd := ev]> (interest k);
  ctl_del : forall fd ev k r k', epoll_ctl EPOLL_CTL_DEL fd ev k = (r, k') ->
    interest k' = delete fd (interest k);
}.

(** A kernel without resource limits. *)
Abbreviation kepoll := (gmap Z epoll_event).

#[export] Instance kepoll_epoll : EPOLL kepoll := {|
  epoll_ctl op fd ev k :=
    match op, k !! fd with
    | EPOLL_CTL_ADD, None => (0, <[fd := ev]> k)
    | EPOLL_CTL_MOD, Some _ => (0, <[fd := ev]> k)
    | EPOLL_CTL_DEL, Some _ => (0, delete fd k)
    | _, _ => (-1, k)
    end;
  interest k := k
|}.

Module Poller.

(** ** Poller.h, Poller.cc *)

Record Poller := mkPoller {
  channels_ : gmap Z Z;     (** descriptor -> address of its channel *)
  ownerLoop_ : Z
}.

Definition new_Poller (loop : Z) : Poller := mkPoller ∅ loop.

Definition hasChannel {C} (self : Z) (channel : Channel.Channel C) (p : Poller) : bool :=
  match channels_ p !! Channel.fd channel with
  | Some c => c =? self
  | None => false
  end.

(** [newDefaultPoller]: no poll(2) back end exists, so setting the variable
    yields the null pointer. *)
Definition newDefaultPoller {E} (getenv_MUDUO_USE_POLL : bool) (mk : Z -> E) (loop : Z) : option E :=
  if getenv_MUDUO_USE_POLL then None else Some (mk loop).

End Poller.

Module EPollPoller.

Definition kNew : Z := -1.
Definition kAdded : Z := 1.
Definition kDeleted : Z := 2.
Definition kInitEventListSize : Z := 16.
Definition EINTR : Z := 4.

Section EPollPoller.
Context {K : Type} `{EPOLL K}.

Record EPollPoller := mkEPollPoller {
  base : Poller.Poller;
  epollfd_ : K;              (** the kernel object behind the descriptor *)
  events_size : Z            (** [events_.size()] *)
}.

(** [epoll_create1] failing is [LOG_FATAL], which aborts. *)
Definition new_EPollPoller (epoll_create1 : option K) (loop : Z) : outcome EPollPoller :=
  k ← deref Aborted epoll_create1;
  mret (mkEPollPoller (Poller.new_Poller loop) k kInitEventListSize).

(** [~EPollPoller]: the descriptor it closes. *)
Definition delete_EPollPoller (p : EPollPoller) : K := epollfd_ p.

Definition set_channels (m : gmap Z Z) (p : EPollPoller) : EPollPoller :=
  mkEPollPoller (Poller.mkPoller m (Poller.ownerLoop_ (base p))) (epollfd_ p) (events_size p).

Definition set_epollfd (k : K) (p : EPollPoller) : EPollPoller :=
  mkEPollPoller (base p) k (events_size p).

(** A failing [DEL] is logged; a failing [ADD] or [MOD] aborts. *)
Definition update {C} (operation : ctl_op) (self : Z) (channel : Channel.Channel C)
    (p : EPollPoller) : outcome EPollPoller :=
  let fd := Channel.fd channel in
  let '(r, k) := epoll_ctl operation fd (mkEvent (Channel.events channel) self) (epollfd_ p) in
  if r <? 0 then
    match operation with
    | EPOLL_CTL_DEL => mret (set_epollfd k p)
    | _ => Err Aborted
    end
  else mret (set_epollfd k p).

Definition updateChannel {C} (self : Z) (channel : Channel.Channel C) (p : EPollPoller)
    : outcome (Channel.Channel C * EPollPoller) :=
  let index := Channel.index channel in
  if (index =? kNew) || (index =? kDeleted) then
    let p1 := if index =? kNew
              then set_channels (<[Channel.fd channel := self]> (Poller.channels_ (base p))) p
              else p in
    let channel1 := Channel.set_index kAdded channel in
    p2 ← update EPOLL_CTL_ADD self channel1 p1;
    mret (channel1, p2)
  else if Channel.isNoneEvent channel then
    p1 ← update EPOLL_CTL_DEL self channel p;
    mret (Channel.set_index kDeleted channel, p1)
  else
    p1 ← update EPOLL_CTL_MOD self channel p;
    mret (channel, p1).

Definition removeChannel {C} (self : Z) (channel : Channel.Channel C) (p : EPollPoller)
    : outcome (Channel.Channel C * EPollPoller) :=
  let p1 := set_channels (delete (Channel.fd channel) (Poller.channels_ (base p))) p in
  p2 ← (if Channel.index channel =? kAdded
        then update EPOLL_CTL_DEL self channel p1 else mret p1);
  mret (Channel.set_index kNew channel, p2).

#[export] Instance EPollPoller_poller : Channel.POLLER EPollPoller := {|
  Channel.updateChannel C := updateChannel;
  Channel.removeChannel C := removeChannel;
  Channel.hasChannel C self channel p := Poller.hasChannel self channel (base p)
|}.

(** ** Waiting for events *)

(** [fillActiveChannels] on the first [numEvents] entries: each reported
    channel gets its [revents_] and is appended to [activeChannels]. [store]
    is where channels live; a dangling [data.ptr] is a use after free. *)
Fixpoint fill_events {C} (evs : list epoll_event) (store : gmap Z (Channel.Channel C))
    (activeChannels : list Z) : outcome (gmap Z (Channel.Channel C) * list Z) :=
  match evs with
  | [] => mret (store, activeChannels)
  | ev :: evs' =>
      channel ← deref UseAfterFree (store !! ev_ptr ev);
      fill_events evs' (<[ev_ptr ev := Channel.set_revents (ev_events ev) channel]> store)
        (activeChannels ++ [ev_ptr ev])
  end.

(** The loop bound [numEvents] is an [int]: a negative one runs no iteration. *)
Definition fillActiveChannels {C} (numEvents : Z) (evs : list epoll_event)
    (store : gmap Z (Channel.Channel C)) (activeChannels : list Z)
    : outcome (gmap Z (Channel.Channel C) * list Z) :=
  fill_events (take (Z.to_nat numEvents) evs) store activeChannels.

(** What [poll] logs. *)
Inductive poll_log := LogTimeout | LogError.

(** [epoll_wait] returned [ret] (-1 with [errno] on failure) and wrote [evs].
    [numEvents] is a [size_t], so a failure reads as [2 ^ 64 - 1]. *)
Definition poll {C} (ret errno : Z) (evs : list epoll_event)
    (store : gmap Z (Channel.Channel C)) (activeChannels : list Z) (p : EPollPoller)
    : outcome (gmap Z (Channel.Channel C) * list Z * EPollPoller * list poll_log) :=
  let numEvents := u64 ret in
  if 0 <? numEvents then
    '(store', active') ← fillActiveChannels (i32 numEvents) evs store activeChannels;
    let p' := if numEvents =? events_size p
              then mkEPollPoller (base p) (epollfd_ p) (u64 (events_size p * 2)) else p in
    mret (store', active', p', [])
  else if numEvents =? 0 then mret (store, activeChannels, p, [LogTimeout])
  else if negb (errno =? EINTR) then mret (store, activeChannels, p, [LogError])
  else mret (store, activeChannels, p, []).

End EPollPoller.
Arguments EPollPoller : clear implicits.

(** ** The registration invariant

    [store] maps every live channel address to its channel.  [index_] says
    where the channel is registered: nowhere ([kNew]), in [channels_] only
    ([kDeleted]), or in [channels_] and in the kernel, with its current
    interest ([kAdded]); and the maps hold nothing but live channels. *)

Section Invariant.
Context {K C : Type} `{EPOLL K}.
Implicit Types (p : EPollPoller K) (c : Channel.Channel C) (store : gmap Z (Channel.Channel C)).

Definition registered (self : Z) c p : Prop :=
  let m := Poller.channels_ (base p) !! Channel.fd_ c in
  let k := interest (epollfd_ p) !! Channel.fd_ c in
  (Channel.index_ c = kNew /\ m <> Some self /\
     (forall ev, k = Some ev -> ev_ptr ev <> self)) \/
  (Channel.index_ c = kDeleted /\ m = Some self /\ k = None) \/
  (Channel.index_ c = kAdded /\ m = Some self /\
     k = Some (mkEvent (Channel.events_ c) self)).

Definition inv (store : gmap Z (Channel.Channel C)) p : Prop :=
  (forall self c, store !! self = Some c -> registered self c p) /\
  (forall fd self, Poller.channels_ (base p) !! fd = Some self ->
     exists c, store !! self = Some c /\ Channel.fd_ c = fd) /\
  (forall fd ev, interest (epollfd_ p) !! fd = Some ev ->
     Poller.channels_ (base p) !! fd = Some (ev_ptr ev)).

(** The descriptor of [c] is not in use by another registered channel. *)
Definition fd_free (self : Z) c p : Prop :=
  Poller.channels_ (base p) !! Channel.fd_ c = None \/
  Poller.channels_ (base p) !! Channel.fd_ c = Some self.

End Invariant.


(** ** Lemmas *)

Section Lemmas.
Context {K C : Type} `{EPOLL_LAWS K}.
Implicit Types (p : EPollPoller K) (c : Channel.Channel C) (store : gmap Z (Channel.Channel C)).

(** What [EPollPoller::update] leaves behind when it does not abort. *)
Lemma update_add self c p p' :
  update EPOLL_CTL_ADD self c p = Ret p' ->
  base p' = base p /\ events_size p' = events_size p /\
  interest (epollfd_ p) !! Channel.fd_ c = None /\
  interest (epollfd_ p') =
    <[Channel.fd_ c := mkEvent (Channel.events_ c) self]> (interest (epollfd_ p)).
Proof.
  unfold update, Channel.fd, Channel.events. destruct (epoll_ctl _ _ _ _) as [r k] eqn:E.
  destruct (r <? 0) eqn:R; [done|]. intros [= <-]. reflect_bools.
  apply ctl_add in E as [? ?]; [done|lia].
Qed.

Lemma update_mod self c p p' :
  update EPOLL_CTL_MOD self c p = Ret p' ->
  base p' = base p /\ events_size p' = events_size p /\
  interest (epollfd_ p') =
    <[Channel.fd_ c := mkEvent (Channel.events_ c) self]> (interest (epollfd_ p)).
Proof.
  unfold update, Channel.fd, Channel.events. destruct (epoll_ctl _ _ _ _) as [r k] eqn:E.
  destruct (r <? 0) eqn:R; [done|]. intros [= <-]. reflect_bools.
  apply ctl_mod in E as [? ?]; [done|lia].
Qed.

Lemma update_del self c p :
  exists p', update EPOLL_CTL_DEL self c p = Ret p' /\
  base p' = base p /\ events_size p' = events_size p /\
  interest (epollfd_ p') = delete (Channel.fd_ c) (interest (epollfd_ p)).
Proof.
  unfold update, Channel.fd, Channel.events. destruct (epoll_ctl _ _ _ _) as [r k] eqn:E.
  apply ctl_del in E. destruct (r <? 0); eauto.
Qed.

(** [updateChannel] changes the channel's [index_] only. *)
Lemma updateChannel_channel self c p c' p' :
  updateChannel self c p = Ret (c', p') ->
  c' = Channel.set_index (if (Channel.index_ c =? kNew) || (Channel.index_ c =? kDeleted)
                          then kAdded
                          else if Channel.isNoneEvent c then kDeleted
                          else Channel.index_ c) c.
Proof.
  unfold updateChannel, Channel.index. destruct (_ || _); intros E; inv_ret; [done|].
  destruct (Channel.isNoneEvent c); inv_ret; [done|]. by destruct c'.
Qed.

Lemma removeChannel_ok self c p : exists p',
  removeChannel self c p = Ret (Channel.set_index kNew c, p') /\
  Poller.channels_ (base p') = delete (Channel.fd_ c) (Poller.channels_ (base p)) /\
  interest (epollfd_ p') =
    (if Channel.index_ c =? kAdded then delete (Channel.fd_ c) (interest (epollfd_ p))
     else interest (epollfd_ p)).
Proof.
  unfold removeChannel, Channel.index, Channel.fd. destruct (_ =? kAdded).
  - destruct (update_del self c
      (set_channels (delete (Channel.fd_ c) (Poller.channels_ (base p))) p))
      as (p' & -> & Hb & _ & Hi). ostep. exists p'. rewrite Hb, Hi. done.
  - ostep. eexists. split; [done|]. done.
Qed.

(** The implementation side of the interface. *)
#[export] Instance EPollPoller_laws : Channel.POLLER_LAWS (EPollPoller K).
Proof.
  split; simpl.
  - intros D self c c' p p' E. unfold updateChannel in E.
    destruct (_ || _); [|destruct (Channel.isNoneEvent c)]; inv_ret; eauto.
    exists (Channel.index_ c'). by destruct c'.
  - intros D self c p f. unfold updateChannel, update.
    destruct (_ || _); [|destruct (Channel.isNoneEvent c)];
      destruct (epoll_ctl _ _ _ _) as [r k]; simpl; destruct (r <? 0); simpl; by intros [=].
  - intros D self c p. unfold removeChannel, update.
    destruct (_ =? kAdded); [|simpl; eauto].
    destruct (epoll_ctl _ _ _ _) as [r k]; simpl. destruct (r <? 0); simpl; eauto.
Qed.

(** How a step that rewrites only the entries of one descriptor to [self]
    preserves the invariant. *)
Lemma registration_step store p p' self c c0 m k :
  inv store p -> store !! self = Some c0 -> Channel.fd_ c0 = Channel.fd_ c ->
  fd_free self c p ->
  Poller.channels_ (base p') = partial_alter (fun _ => m) (Channel.fd_ c) (Poller.channels_ (base p)) ->
  interest (epollfd_ p') = partial_alter (fun _ => k) (Channel.fd_ c) (interest (epollfd_ p)) ->
  (m = None \/ m = Some self) ->
  (forall ev, k = Some ev -> m = Some (ev_ptr ev)) ->
  registered self c p' ->
  inv (<[self := c]> store) p'.
Proof.
  intros (I1 & I2 & I3) Hs Hfd Hfree Hm Hk Mm Mk Hreg. split_and!.
  - intros s c1. destruct (decide (s = self)) as [->|Hne]; [by intros; simplify_map_eq|].
    rewrite lookup_insert_ne by done. intros Hc1. specialize (I1 _ _ Hc1).
    unfold registered in *. rewrite Hm, Hk.
    destruct (decide (Channel.fd_ c1 = Channel.fd_ c)) as [Ef|Ef].
    + rewrite Ef in *. rewrite !lookup_partial_alter_eq.
      left. destruct I1 as [(? & ? & ?)|[(? & X & ?)|(? & X & ?)]];
        [|destruct Hfree; congruence..].
      split_and!; [done|destruct Mm; congruence|].
      intros ev Hev. apply Mk in Hev. destruct Mm; congruence.
    + by rewrite !lookup_partial_alter_ne by done.
  - intros fd s. rewrite Hm. destruct (decide (fd = Channel.fd_ c)) as [->|Hne].
    + rewrite lookup_partial_alter_eq. intros ->. destruct Mm as [|[= ->]]; [done|].
      exists c. by simplify_map_eq.
    + rewrite lookup_partial_alter_ne by done. intros Hl.
      destruct (I2 _ _ Hl) as (c1 & Hc1 & <-).
      destruct (decide (s = self)) as [->|]; [|exists c1; by simplify_map_eq].
      by simplify_eq.
  - intros fd ev. rewrite Hm, Hk. destruct (decide (fd = Channel.fd_ c)) as [->|Hne].
    + rewrite !lookup_partial_alter_eq. apply Mk.
    + rewrite !lookup_partial_alter_ne by done. apply I3.
Qed.

(** A channel the poller knows owns its descriptor. *)
Lemma registered_fd_free self c p :
  registered self c p -> Channel.index_ c <> kNew -> fd_free self c p.
Proof. unfold registered, fd_free. naive_solver. Qed.

(** A fresh address never occurs in the poller's maps. *)
Lemma inv_fresh store p self :
  inv store p -> store !! self = None ->
  (forall fd, Poller.channels_ (base p) !! fd <> Some self) /\
  (forall fd ev, interest (epollfd_ p) !! fd = Some ev -> ev_ptr ev <> self).
Proof.
  intros (I1 & I2 & I3) Hn. split.
  - intros fd Hf. destruct (I2 _ _ Hf) as (? & ? & ?). congruence.
  - intros fd ev Hev <-. apply I3, I2 in Hev as (? & ? & ?). congruence.
Qed.

(** Creating a channel. *)
Lemma inv_new_channel store p self c :
  inv store p -> store !! self = None -> Channel.index_ c = kNew ->
  inv (<[self := c]> store) p.
Proof.
  intros I Hn Hi. destruct (inv_fresh _ _ _ I Hn) as [F1 F2].
  destruct I as (I1 & I2 & I3). split_and!; [| |done].
  - intros s c1. destruct (decide (s = self)) as [->|]; intros; simplify_map_eq; [|eauto].
    left. split_and!; [done|apply F1|intros ? Hev; by apply F2 in Hev].
  - intros fd s Hs. destruct (I2 _ _ Hs) as (c1 & ? & ?). exists c1. split; [|done].
    rewrite lookup_insert_ne; [done|]. intros ->. congruence.
Qed.

(** Destroying a channel that is not registered. *)
Lemma inv_delete_channel store p self c :
  inv store p -> store !! self = Some c -> Channel.index_ c = kNew ->
  inv (delete self store) p.
Proof.
  intros (I1 & I2 & I3) Hc Hi. split_and!; [| |done].
  - intros s c1 [? ?]%lookup_delete_Some. eauto.
  - intros fd s Hs. destruct (I2 _ _ Hs) as (c1 & Hc1 & Hf). exists c1. split; [|done].
    apply lookup_delete_Some. split; [|done]. intros ->. simplify_eq.
    destruct (I1 _ _ Hc) as [(_ & ? & _)|[(X & _)|(X & _)]]; [done| |];
      rewrite X in Hi; discriminate.
Qed.

(** Setting only [revents_] (or callbacks, ties) keeps the invariant. *)
Lemma inv_same_registration store p self c c' :
  inv store p -> store !! self = Some c ->
  Channel.fd_ c' = Channel.fd_ c -> Channel.index_ c' = Channel.index_ c ->
  Channel.events_ c' = Channel.events_ c ->
  inv (<[self := c']> store) p.
Proof.
  intros (I1 & I2 & I3) Hc Ef Ei Ee. split_and!; [| |done].
  - intros s c1. destruct (decide (s = self)) as [->|]; intros; simplify_map_eq; [|eauto].
    specialize (I1 _ _ Hc). unfold registered in *. by rewrite Ef, Ei, Ee.
  - intros fd s Hs. destruct (I2 _ _ Hs) as (c1 & Hc1 & Hf).
    destruct (decide (s = self)) as [->|]; [exists c'|exists c1]; simplify_map_eq; done.
Qed.

Lemma updateChannel_inv_step store p self c0 e c' p' :
  inv store p -> store !! self = Some c0 ->
  fd_free self c0 p ->
  updateChannel self (Channel.set_events e c0) p = Ret (c', p') ->
  inv (<[self := c']> store) p'.
Proof.
  intros I Hc Hfree E. pose proof I as (I1 & _ & _). specialize (I1 _ _ Hc).
  revert E. unfold updateChannel, Channel.index. simpl. intros E.
  destruct (Channel.index_ c0 =? kNew) eqn:En; simpl in E;
    [|destruct (Channel.index_ c0 =? kDeleted) eqn:Ed; simpl in E]; reflect_bools.
  - inv_ret. apply update_add in E0 as (Hb & _ & Hn & Hi). simpl in *.
    eapply registration_step with (c0 := c0) (m := Some self) (k := Some (mkEvent e self)); eauto.
    + rewrite Hb. done.
    + intros ? [= <-]. done.
    + right; right. unfold registered. simpl. rewrite Hb, Hi. simpl.
      by rewrite !lookup_insert_eq.
  - destruct I1 as [(X & _)|[(_ & Hm & Hk)|(X & _)]]; try congruence;
      [|rewrite X in Ed; discriminate].
    inv_ret. apply update_add in E0 as (Hb & _ & Hn & Hi). simpl in *.
    eapply registration_step with (c0 := c0) (m := Some self) (k := Some (mkEvent e self)); eauto.
    + rewrite Hb. symmetry. by apply partial_alter_id.
    + intros ? [= <-]. done.
    + right; right. unfold registered. simpl. rewrite Hb, Hi.
      by rewrite lookup_insert_eq.
  - destruct I1 as [(X & _)|[(X & _)|(Hx & Hm & Hk)]]; try congruence.
    destruct (Channel.isNoneEvent _) eqn:Ev; inv_ret.
    + destruct (update_del self (Channel.set_events e c0) p) as (p1 & X & Hb & _ & Hi).
      rewrite X in E0. inv E0. simpl in *.
      eapply registration_step with (c0 := c0) (m := Some self) (k := None); eauto.
      * rewrite Hb. symmetry. by apply partial_alter_id.
      * done.
      * right; left. unfold registered. simpl. rewrite Hb, Hi. by rewrite lookup_delete_eq.
    + apply update_mod in E0 as (Hb & _ & Hi). simpl in *.
      eapply registration_step with (c0 := c0) (m := Some self) (k := Some (mkEvent e self)); eauto.
      * rewrite Hb. symmetry. by apply partial_alter_id.
      * intros ? [= <-]. done.
      * right; right. unfold registered. simpl. rewrite Hb, Hi.
        by rewrite lookup_insert_eq.
Qed.

Lemma removeChannel_inv_step store p self c0 c' p' :
  inv store p -> store !! self = Some c0 -> fd_free self c0 p ->
  removeChannel self c0 p = Ret (c', p') ->
  inv (<[self := c']> store) p' /\ c' = Channel.set_index kNew c0.
Proof.
  intros I Hc Hfree E. pose proof I as (I1 & _ & I3). specialize (I1 _ _ Hc).
  destruct (removeChannel_ok self c0 p) as (p1 & E1 & Hb & Hi).
  rewrite E1 in E. inv E. split; [|done].
  assert (interest (epollfd_ p') = delete (Channel.fd_ c0) (interest (epollfd_ p))) as Hi'.
  { destruct (_ =? kAdded) eqn:Ea; [done|]. reflect_bools. rewrite Hi. symmetry.
    apply delete_id. destruct I1 as [(_ & Hm & Hk)|[(_ & _ & Hk)|(X & _)]];
      [|done|done].
    destruct (interest (epollfd_ p) !! _) as [ev|] eqn:Ev; [|done].
    specialize (Hk _ eq_refl). apply I3 in Ev. destruct Hfree; congruence. }
  eapply registration_step with (c0 := c0) (m := None) (k := None); eauto; [done|].
  left. unfold registered. simpl. rewrite Hb, Hi', !lookup_delete_eq. done.
Qed.

Lemma fill_events_ok evs store acc :
  (forall ev, ev ∈ evs -> is_Some (store !! ev_ptr ev)) ->
  exists store', fill_events evs store acc = Ret (store', acc ++ map ev_ptr evs) /\
    dom store' = dom store /\
    (forall s c, store !! s = Some c -> s ∉ map ev_ptr evs -> store' !! s = Some c) /\
    (forall s c, store !! s = Some c -> exists r, store' !! s = Some (Channel.set_revents r c)) /\
    (NoDup (map ev_ptr evs) -> forall ev c, ev ∈ evs -> store !! ev_ptr ev = Some c ->
       store' !! ev_ptr ev = Some (Channel.set_revents (ev_events ev) c)).
Proof.
  revert store acc. induction evs as [|ev evs IH]; intros store acc Hl; simpl.
  { exists store. rewrite app_nil_r. split_and!; [done|done|eauto| |set_solver].
    intros s [] Hc. eexists. by apply Hc. }
  destruct (Hl ev) as [c Hc]; [set_solver|]. rewrite Hc. ostep.
  destruct (IH (<[ev_ptr ev := Channel.set_revents (ev_events ev) c]> store) (acc ++ [ev_ptr ev]))
    as (store' & E & D & Hout & Hany & Hin).
  { intros ev' ?. apply lookup_insert_is_Some'. set_solver. }
  exists store'. rewrite E, <- app_assoc. split_and!; [done| | | |].
  - rewrite D, dom_insert_L. apply elem_of_dom_2 in Hc. set_solver.
  - intros s c1 ? Hn. apply Hout; [|set_solver]. rewrite lookup_insert_ne; set_solver.
  - intros s c1 Hs. destruct (decide (s = ev_ptr ev)) as [->|].
    + simplify_eq. destruct (Hany (ev_ptr ev) (Channel.set_revents (ev_events ev) c)) as [r Hr];
        [by simplify_map_eq|]. exists r. by destruct c.
    + apply Hany. by simplify_map_eq.
  - intros ND%NoDup_cons e c1 He Hs. destruct ND as [Hni ND].
    apply elem_of_cons in He as [->|He].
    + simplify_eq. by apply Hout; [simplify_map_eq|].
    + apply Hin; [done|done|]. rewrite lookup_insert_ne; [done|].
      intros X. apply Hni. rewrite X. apply list_elem_of_fmap; eauto.
Qed.

End Lemmas.


(** ** Properties *)

(** What [epoll_wait] reports: distinct channels of the interest set. *)
Definition wait_law {K} `{EPOLL K} (k : K) (evs : list epoll_event) : Prop :=
  NoDup (map ev_ptr evs) /\
  forall ev, ev ∈ evs -> exists fd e, interest k !! fd = Some e /\ ev_ptr e = ev_ptr ev.

(** C11: every change of a channel's interest ([enableReading], [enableWriting],
    [disableWriting], [disableAll]: any new mask [e]) keeps [index_],
    [channels_] and the kernel's interest set in agreement for all channels,
    whichever of the states new, deleted or added the channel was in. *)
Theorem updateChannel_inv {K C} `{EPOLL_LAWS K} (store : gmap Z (Channel.Channel C))
  (p p' : EPollPoller K) self c0 e c'
  (I : inv store p) (Hc : store !! self = Some c0) (Hfree : fd_free self c0 p)
  (E : updateChannel self (Channel.set_events e c0) p = Ret (c', p')) :
  inv (<[self := c']> store) p' /\ Channel.events_ c' = e.
Proof.
  split; [by eapply updateChannel_inv_step|].
  apply updateChannel_channel in E as ->. done.
Qed.

Definition demo_poller : EPollPoller kepoll := mkEPollPoller (Poller.new_Poller 0) ∅ 16.

Lemma demo_poller_inv : inv (C:=unit) {[5 := Channel.new_Channel 0 7]} demo_poller.
Proof.
  split_and!.
  - intros self c [<- <-]%lookup_singleton_Some. left. split_and!; done.
  - intros fd self X. unfold demo_poller in X. simpl in X. by rewrite lookup_empty in X.
  - intros fd ev X. change ((∅ : gmap Z epoll_event) !! fd = Some ev) in X. by rewrite lookup_empty in X.
Qed.

#[export] Instance kepoll_laws : EPOLL_LAWS kepoll.
Proof.
  split; simpl.
  - intros op fd ev k r k' E ?. destruct op, (k !! fd); simplify_eq; done || lia.
  - intros fd ev k r k' E ?. destruct (k !! fd) eqn:L; simplify_eq; [lia|done].
  - intros fd ev k r k' E ?. destruct (k !! fd) eqn:L; simplify_eq; [eauto|lia].
  - intros fd ev k r k' E. destruct (k !! fd) eqn:L; simplify_eq; [done|].
    by rewrite delete_id.
Qed.

Lemma updateChannel_inv_witness :
  exists c' p', updateChannel 5 (Channel.set_events 3 (Channel.new_Channel (C:=unit) 0 7))
                  demo_poller = Ret (c', p') /\
    inv (<[5 := c']> {[5 := Channel.new_Channel 0 7]}) p' /\ Channel.events_ c' = 3.
Proof.
  eexists _, _. split; [reflexivity|].
  eapply (updateChannel_inv {[5 := Channel.new_Channel 0 7]} demo_poller _ 5
           (Channel.new_Channel 0 7) 3).
  - exact demo_poller_inv.
  - by rewrite lookup_singleton_eq.
  - left. reflexivity.
  - reflexivity.
Defined.

(** C25: [removeChannel] never faults, takes the channel out of [channels_] and
    out of the kernel's interest set, and keeps every other registration;
    after it the channel may be destroyed: no address of it is left. *)
Theorem removeChannel_unregisters {K C} `{EPOLL_LAWS K} (store : gmap Z (Channel.Channel C))
  (p : EPollPoller K) self c
  (I : inv store p) (Hc : store !! self = Some c) (Hfree : fd_free self c p) :
  exists p', removeChannel self c p = Ret (Channel.set_index kNew c, p') /\
    inv (delete self store) p' /\
    (forall fd, Poller.channels_ (base p') !! fd <> Some self) /\
    (forall fd ev, interest (epollfd_ p') !! fd = Some ev -> ev_ptr ev <> self).
Proof.
  destruct (removeChannel_ok self c p) as (p' & E & _). exists p'. split; [done|].
  destruct (removeChannel_inv_step _ _ _ _ _ _ I Hc Hfree E) as [I' _].
  apply (inv_delete_channel _ _ self (Channel.set_index kNew c)) in I';
    [|by rewrite lookup_insert_eq|done].
  rewrite delete_insert_eq in I'. split; [done|].
  apply (inv_fresh _ _ self I'), lookup_delete_eq.
Qed.

Lemma removeChannel_unregisters_witness :
  exists p', removeChannel 5 (Channel.new_Channel (C:=unit) 0 7) demo_poller
    = Ret (Channel.set_index kNew (Channel.new_Channel 0 7), p') /\
    inv (C:=unit) (delete 5 {[5 := Channel.new_Channel 0 7]}) p' /\
    (forall fd, Poller.channels_ (base p') !! fd <> Some 5) /\
    (forall fd ev, interest (epollfd_ p') !! fd = Some ev -> ev_ptr ev <> 5).
Proof.
  apply (removeChannel_unregisters {[5 := Channel.new_Channel 0 7]} demo_poller 5
           (Channel.new_Channel 0 7)).
  - exact demo_poller_inv.
  - by rewrite lookup_singleton_eq.
  - left. reflexivity.
Defined.

(** C12: [poll] on what [epoll_wait] reports from the interest set never
    dereferences a dangling channel; it lists exactly the reported channels,
    in order, stores in each the mask reported for it, leaves every
    registration as it was, and doubles the event array exactly when it was
    full. *)
Theorem poll_reports_live_channels {K C} `{EPOLL_LAWS K} (store : gmap Z (Channel.Channel C))
  (p : EPollPoller K) errno evs
  (I : inv store p) (Hw : wait_law (epollfd_ p) evs)
  (Hn : 0 < zlen evs < 2 ^ 31) (Hs : 0 < events_size p < 2 ^ 63) :
  exists store', poll (zlen evs) errno evs store [] p =
    Ret (store', map ev_ptr evs,
         mkEPollPoller (base p) (epollfd_ p)
           (if zlen evs =? events_size p then events_size p * 2 else events_size p), []) /\
    inv store' p /\ dom store' = dom store /\
    (forall ev c, ev ∈ evs -> store !! ev_ptr ev = Some c ->
       store' !! ev_ptr ev = Some (Channel.set_revents (ev_events ev) c)).
Proof.
  destruct Hw as [ND Hin]. destruct I as (I1 & I2 & I3).
  destruct (fill_events_ok evs store []) as (store' & E & D & _ & Hany & Hset).
  { intros ev He. destruct (Hin _ He) as (fd & e & Hi & <-).
    apply I3, I2 in Hi as (c & ? & _). eauto. }
  exists store'. unfold poll. rewrite !u64_small, i32_small by lia. if_true.
  unfold fillActiveChannels. replace (Z.to_nat (zlen evs)) with (length evs)
    by (unfold zlen; lia). rewrite firstn_all, E. ostep. split.
  { simpl. do 3 f_equal. destruct p. by destruct (_ =? _). }
  split_and!; [|done|auto]. split_and!; [| |done].
  - intros s c' Hs'. assert (is_Some (store !! s)) as [c Hc].
    { apply elem_of_dom. rewrite <- D. by eapply elem_of_dom_2. }
    destruct (Hany _ _ Hc) as [r Hr]. simplify_eq. apply (I1 _ _ Hc).
  - intros fd s Hm. destruct (I2 _ _ Hm) as (c & Hc & <-).
    destruct (Hany _ _ Hc) as [r Hr]. eauto.
Qed.

Lemma poll_reports_live_channels_witness :
  exists c1 p1, updateChannel 5 (Channel.set_events 3 (Channel.new_Channel (C:=unit) 0 7))
      demo_poller = Ret (c1, p1) /\
  exists store', poll 1 0 [mkEvent 1 5] {[5 := c1]} [] p1 =
    Ret (store', [5], mkEPollPoller (base p1) (epollfd_ p1) 16, []) /\
    inv store' p1 /\ dom store' = dom ({[5 := c1]} : gmap Z (Channel.Channel unit)) /\
    (forall ev c, ev ∈ [mkEvent 1 5] -> ({[5 := c1]} : gmap Z (Channel.Channel unit)) !! ev_ptr ev = Some c ->
       store' !! ev_ptr ev = Some (Channel.set_revents (ev_events ev) c)).
Proof.
  eexists _, _. split; [reflexivity|].
  match goal with |- context [poll 1 0 ?evs ?st [] ?p] =>
    apply (poll_reports_live_channels st p 0 evs) end.
  - pose proof (updateChannel_inv_step (K:=kepoll) (C:=unit) {[5 := Channel.new_Channel 0 7]}
      demo_poller 5 (Channel.new_Channel 0 7) 3 _ _ demo_poller_inv
      (lookup_singleton_eq _ _) (or_introl eq_refl) eq_refl) as I.
    by rewrite insert_singleton_eq in I.
  - split; [repeat constructor; set_solver|]. intros ev ->%list_elem_of_singleton.
    exists 7, (mkEvent 3 5). split; [reflexivity|done].
  - vm_compute. done.
  - vm_compute. done.
Defined.

(** A failing [epoll_wait] is not seen: [numEvents] is a [size_t], so -1
    takes the branch of [numEvents > 0] with a huge count, no event is
    filled and nothing is logged, whatever errno says. *)
Theorem poll_failure_is_silent {K C} `{EPOLL K} (store : gmap Z (Channel.Channel C))
  (p : EPollPoller K) errno evs act (Hs : events_size p < 2 ^ 63) :
  poll (-1) errno evs store act p = Ret (store, act, p, []).
Proof.
  unfold poll. change (u64 (-1)) with (2 ^ 64 - 1). change (i32 (2 ^ 64 - 1)) with (-1).
  if_true. unfold fillActiveChannels. change (take _ evs) with (@nil epoll_event).
  cbn [fill_events]. ostep. by if_false.
Qed.

Lemma poll_failure_is_silent_witness :
  poll (C:=unit) (-1) 9 [] ∅ [] demo_poller = Ret (∅, [], demo_poller, []).
Proof. apply (poll_failure_is_silent ∅ demo_poller). vm_compute. reflexivity. Defined.

End EPollPoller.

#[export] Existing Instance EPollPoller.EPollPoller_poller.
#[export] Existing Instance EPollPoller.EPollPoller_laws.
#[export] Existing Instance EPollPoller.kepoll_laws.
