(* ===== verification/EventLoop.v ===== *)
(** * EventLoop: the reactor loop and its cross-thread queue
    ([src/net/EventLoop.h], [EventLoop.cc], [src/base/CurrentThread.*])

    An [EventLoop] owns a poller, the eventfd channel other threads wake it
    with, and the functors queued for its thread.  The functors are names of
    type [F]; [exec] gives their meaning on a state [W] that contains the
    loop (class [HASLOOP]).  The last part models the interleaving of the loop
    thread with the threads that queue functors, as a step relation. *)

From S2P Require Import Prelude Channel.

(** ** eventfd(2)

    [efd_write] and [efd_read] move one 8-byte counter and report the byte
    count or -1; [efd_ready] is what [epoll_wait] sees. *)

Class EVENTFD (E : Type) := {
  efd_write : Z -> E -> Z * E;
  efd_read : E -> Z * E;
  efd_ready : E -> bool
}.

(** A non-zero write leaves the descriptor readable (when the counter is full
    it fails, and is readable anyway); a read empties it. *)
Class EVENTFD_LAWS (E : Type) `{EVENTFD E} := {
  efd_write_ready : forall n e, 0 < n < 2 ^ 64 - 1 -> efd_ready (snd (efd_write n e)) = true;
  efd_read_empty : forall e, efd_ready (snd (efd_read e)) = false
}.

#[export] Instance counter_eventfd : EVENTFD N := {|
  efd_write n c := if Z.of_N c + n <? 2 ^ 64 - 1 then (8, (c + Z.to_N n)%N) else (-1, c);
  efd_read c := if (c =? 0)%N then (-1, c) else (8, 0%N);
  efd_ready c := negb (c =? 0)%N
|}.

Module CurrentThread.

(** [t_cachedTid], 0 before the first call in a thread; [gettid] is what the
    system call returns. *)
Definition cacheTid (gettid t_cachedTid : Z) : Z :=
  if t_cachedTid =? 0 then gettid else t_cachedTid.

(** The thread id and the updated cache. *)
Definition tid (gettid t_cachedTid : Z) : Z * Z :=
  let t := if t_cachedTid =? 0 then cacheTid gettid t_cachedTid else t_cachedTid in
  (t, t).

End CurrentThread.

Module EventLoop.

Definition kPollTimeMs : Z := 10000.

(** [eventfd] returned [evfd]; a failure is [LOG_FATAL]. *)
Definition createEventfd (evfd : Z) : outcome Z :=
  if evfd <? 0 then Err Aborted else mret evfd.

Section EventLoop.
(** Functors, poller, eventfd, callback names of channels. *)
Context {F P E C : Type} `{Channel.POLLER P, EVENTFD E}.

Record EventLoop := mkEventLoop {
  looping_ : bool;
  quit_ : bool;
  callingPendingFunctors_ : bool;
  threadId_ : Z;
  pollReturnTime_ : Z;
  poller_ : P;
  wakeupFd_ : E;                         (** the kernel object of the descriptor *)
  wakeupChannel_ : Channel.Channel C;
  activeChannels_ : list Z;
  pendingFunctors_ : list F
}.

Definition set_flags (lo q c : bool) (l : EventLoop) : EventLoop :=
  mkEventLoop lo q c (threadId_ l) (pollReturnTime_ l) (poller_ l) (wakeupFd_ l)
    (wakeupChannel_ l) (activeChannels_ l) (pendingFunctors_ l).

Definition set_calling (c : bool) (l : EventLoop) : EventLoop :=
  set_flags (looping_ l) (quit_ l) c l.

Definition set_poller (p : P) (l : EventLoop) : EventLoop :=
  mkEventLoop (looping_ l) (quit_ l) (callingPendingFunctors_ l) (threadId_ l)
    (pollReturnTime_ l) p (wakeupFd_ l) (wakeupChannel_ l) (activeChannels_ l)
    (pendingFunctors_ l).

Definition set_wakeupFd (e : E) (l : EventLoop) : EventLoop :=
  mkEventLoop (looping_ l) (quit_ l) (callingPendingFunctors_ l) (threadId_ l)
    (pollReturnTime_ l) (poller_ l) e (wakeupChannel_ l) (activeChannels_ l)
    (pendingFunctors_ l).

Definition set_wakeupChannel (c : Channel.Channel C) (l : EventLoop) : EventLoop :=
  mkEventLoop (looping_ l) (quit_ l) (callingPendingFunctors_ l) (threadId_ l)
    (pollReturnTime_ l) (poller_ l) (wakeupFd_ l) c (activeChannels_ l)
    (pendingFunctors_ l).

Definition set_active (t : Z) (act : list Z) (l : EventLoop) : EventLoop :=
  mkEventLoop (looping_ l) (quit_ l) (callingPendingFunctors_ l) (threadId_ l)
    t (poller_ l) (wakeupFd_ l) (wakeupChannel_ l) act (pendingFunctors_ l).

Definition set_pending (fs : list F) (l : EventLoop) : EventLoop :=
  mkEventLoop (looping_ l) (quit_ l) (callingPendingFunctors_ l) (threadId_ l)
    (pollReturnTime_ l) (poller_ l) (wakeupFd_ l) (wakeupChannel_ l)
    (activeChannels_ l) fs.

(** ** Construction and destruction

    [t_loopInThisThread] is the loop that already exists in the thread; [self]
    is the address of the wakeup channel, [cb] its bound read callback. A
    null poller is dereferenced by the first [enableReading]. *)
Definition new_EventLoop (tid : Z) (poller : option P) (evfd : Z) (e : E) (self : Z) (cb : C)
    (t_loopInThisThread : option Z) : outcome EventLoop :=
  p ← deref NullDeref poller;
  fd ← createEventfd evfd;
  check (bool_decide (t_loopInThisThread = None)) Aborted;;
  '(c, p') ← Channel.enableReading self
               (Channel.setReadCallback cb (Channel.new_Channel tid fd)) p;
  mret (mkEventLoop false false false tid 0 p' e c [] []).

Definition delete_EventLoop (self : Z) (l : EventLoop) : outcome EventLoop :=
  '(c1, p1) ← Channel.disableAll self (wakeupChannel_ l) (poller_ l);
  '(c2, p2) ← Channel.remove self c1 p1;
  mret (set_wakeupChannel c2 (set_poller p2 l)).

(** ** Thread identity, wakeup and the pending queue *)

Definition pollReturnTime (l : EventLoop) : Z := pollReturnTime_ l.

Definition isInLoopThread (tid : Z) (l : EventLoop) : bool := threadId_ l =? tid.

(** The write of [one]; a short count is only logged. *)
Definition wakeup (l : EventLoop) : EventLoop :=
  set_wakeupFd (snd (efd_write 1 (wakeupFd_ l))) l.

(** The wakeup channel's read callback. *)
Definition handleRead (l : EventLoop) : EventLoop :=
  set_wakeupFd (snd (efd_read (wakeupFd_ l))) l.

(** [quit] called on thread [tid]. *)
Definition quit (tid : Z) (l : EventLoop) : EventLoop :=
  let l1 := set_flags (looping_ l) true (callingPendingFunctors_ l) l in
  if isInLoopThread tid l1 then wakeup l1 else l1.

(** The two parts of [queueInLoop]: the locked [emplace_back], and the
    conditional wakeup. *)
Definition enqueue (cb : F) (l : EventLoop) : EventLoop :=
  set_pending (pendingFunctors_ l ++ [cb]) l.

Definition wakeup_after_enqueue (tid : Z) (l : EventLoop) : EventLoop :=
  if negb (isInLoopThread tid l) || callingPendingFunctors_ l then wakeup l else l.

Definition queueInLoop (tid : Z) (cb : F) (l : EventLoop) : EventLoop :=
  wakeup_after_enqueue tid (enqueue cb l).

(** [functors.swap(pendingFunctors_)] under the lock. *)
Definition swap_pending (l : EventLoop) : list F * EventLoop :=
  (pendingFunctors_ l, set_pending [] l).

(** The forwarding members. *)
Definition updateChannel (self : Z) (c : Channel.Channel C) (l : EventLoop)
    : outcome (Channel.Channel C * EventLoop) :=
  '(c', p') ← Channel.updateChannel self c (poller_ l); mret (c', set_poller p' l).
Definition removeChannel (self : Z) (c : Channel.Channel C) (l : EventLoop)
    : outcome (Channel.Channel C * EventLoop) :=
  '(c', p') ← Channel.removeChannel self c (poller_ l); mret (c', set_poller p' l).
Definition hasChannel (self : Z) (c : Channel.Channel C) (l : EventLoop) : bool :=
  Channel.hasChannel self c (poller_ l).

End EventLoop.
Arguments EventLoop : clear implicits.

(** ** Running functors and the loop *)

(** A state that holds an event loop. *)
Class HASLOOP (W F P E C : Type) := {
  get_loop : W -> EventLoop F P E C;
  set_loop : EventLoop F P E C -> W -> W;
  get_set_loop : forall l w, get_loop (set_loop l w) = l
}.

Section Run.
Context {W F P E C : Type} `{Channel.POLLER P, EVENTFD E} `{!HASLOOP W F P E C}.
(** Calling a functor; [poll] fills the active channels and gives the return
    time; [handleEvent t c] dispatches the channel at address [c]. *)
Context (exec : F -> W -> outcome W).
Context (poll : Z -> W -> outcome (W * Z * list Z)).
Context (handleEvent : Z -> Z -> W -> outcome W).

Definition on_loop (f : EventLoop F P E C -> EventLoop F P E C) (w : W) : W :=
  set_loop (f (get_loop w)) w.

Definition runInLoop (tid : Z) (cb : F) (w : W) : outcome W :=
  if isInLoopThread tid (get_loop w) then exec cb w
  else mret (on_loop (queueInLoop tid cb) w).

Fixpoint run_functors (fs : list F) (w : W) : outcome W :=
  match fs with
  | [] => mret w
  | f :: fs' => w' ← exec f w; run_functors fs' w'
  end.

Definition doPendingFunctors (w : W) : outcome W :=
  let w1 := on_loop (set_calling true) w in
  let '(functors, l) := swap_pending (get_loop w1) in
  w2 ← run_functors functors (set_loop l w1);
  mret (on_loop (set_calling false) w2).

(** [for (Channel *channel : activeChannels_) channel->handleEvent(...)]. *)
Fixpoint handle_active (t : Z) (cs : list Z) (w : W) : outcome W :=
  match cs with
  | [] => mret w
  | c :: cs' => w' ← handleEvent t c w; handle_active t cs' w'
  end.

(** One turn of the [while] loop. *)
Definition loop_body (w : W) : outcome W :=
  let w1 := on_loop (fun l => set_active (pollReturnTime_ l) [] l) w in
  '(w2, t, act) ← poll kPollTimeMs w1;
  let w3 := on_loop (set_active t act) w2 in
  w4 ← handle_active t act w3;
  doPendingFunctors w4.

(** [while (!quit_)], for at most [fuel] turns; [None] when it is still
    running. *)
Fixpoint loop_while (fuel : nat) (w : W) : outcome (option W) :=
  if quit_ (get_loop w) then mret (Some w)
  else match fuel with
       | O => mret None
       | S fuel' => w' ← loop_body w; loop_while fuel' w'
       end.

Definition loop (fuel : nat) (w : W) : outcome (option W) :=
  let w1 := on_loop (fun l => set_flags true false (callingPendingFunctors_ l) l) w in
  r ← loop_while fuel w1;
  mret match r with
       | Some w2 => Some (on_loop (fun l => set_flags false (quit_ l) (callingPendingFunctors_ l) l) w2)
       | None => None
       end.

End Run.

(** ** Interleaving with other threads

    The loop thread is blocked in [poll], handling active channels, about to
    swap the queue, or running the swapped functors.  A thread in [waking]
    has pushed its functor and has not yet executed the wakeup of
    [queueInLoop]. *)

Section Threads.
Context {F P E C : Type} `{Channel.POLLER P, EVENTFD E}.

Inductive phase :=
  | InPoll
  | Handling
  | BeforeSwap
  | Running (functors : list F)
  | Exited.

Record threads := mkThreads {
  loop_state : EventLoop F P E C;
  loop_phase : phase;
  waking : list Z          (** ids of the threads between push and wakeup *)
}.

Inductive step : threads -> threads -> Prop :=
  (** another thread: the locked push, then the wakeup *)
  | step_push tid cb l ph wk :
      isInLoopThread tid l = false ->
      step (mkThreads l ph wk) (mkThreads (enqueue cb l) ph (tid :: wk))
  | step_wake tid l ph wk1 wk2 :
      step (mkThreads l ph (wk1 ++ tid :: wk2))
           (mkThreads (wakeup_after_enqueue tid l) ph (wk1 ++ wk2))
  (** the loop thread *)
  | step_poll l wk :
      step (mkThreads l InPoll wk) (mkThreads l Handling wk)
  | step_read l wk :
      step (mkThreads l Handling wk) (mkThreads (handleRead l) Handling wk)
  | step_queue_handling cb l wk :
      step (mkThreads l Handling wk)
           (mkThreads (queueInLoop (threadId_ l) cb l) Handling wk)
  | step_calling l wk :
      step (mkThreads l Handling wk) (mkThreads (set_calling true l) BeforeSwap wk)
  | step_swap l wk :
      step (mkThreads l BeforeSwap wk)
           (mkThreads (snd (swap_pending l)) (Running (fst (swap_pending l))) wk)
  | step_queue_running cb l fs wk :
      step (mkThreads l (Running fs) wk)
           (mkThreads (queueInLoop (threadId_ l) cb l) (Running fs) wk)
  | step_functor f l fs wk :
      step (mkThreads l (Running (f :: fs)) wk) (mkThreads l (Running fs) wk)
  | step_done l wk :
      quit_ l = false ->
      step (mkThreads l (Running []) wk) (mkThreads (set_calling false l) InPoll wk)
  | step_exit l wk :
      quit_ l = true ->
      step (mkThreads l (Running []) wk) (mkThreads (set_calling false l) Exited wk)
  (** any thread *)
  | step_quit tid l ph wk :
      step (mkThreads l ph wk) (mkThreads (quit tid l) ph wk).

(** Every functor pushed while the loop will poll before draining is
    announced: the eventfd is readable or its wakeup is still to come. *)
Definition announced (s : threads) : Prop :=
  match loop_phase s with
  | InPoll => callingPendingFunctors_ (loop_state s) = false /\
      (pendingFunctors_ (loop_state s) = [] \/ efd_ready (wakeupFd_ (loop_state s)) = true \/
       waking s <> [])
  | Handling | Exited => callingPendingFunctors_ (loop_state s) = false
  | BeforeSwap => callingPendingFunctors_ (loop_state s) = true
  | Running _ => callingPendingFunctors_ (loop_state s) = true /\
      (pendingFunctors_ (loop_state s) = [] \/ efd_ready (wakeupFd_ (loop_state s)) = true \/
       waking s <> [])
  end /\
  Forall (fun tid => isInLoopThread tid (loop_state s) = false) (waking s).

End Threads.
Arguments phase : clear implicits.
Arguments threads : clear implicits.


(** ** Lemmas *)

#[export] Instance counter_eventfd_laws : EVENTFD_LAWS N.
Proof.
  split; simpl.
  - intros n e Hn. destruct (_ <? _) eqn:E; reflect_bools; simpl;
      apply negb_true_iff, N.eqb_neq; lia.
  - intros e. destruct (e =? 0)%N eqn:E; simpl; [by rewrite E|done].
Qed.

Section ThreadLemmas.
Context {F P E C : Type} `{Channel.POLLER P, EVENTFD_LAWS E}.
Implicit Types s : threads F P E C.

Lemma wakeup_ready (l : EventLoop F P E C) : efd_ready (wakeupFd_ (wakeup l)) = true.
Proof. simpl. apply efd_write_ready. lia. Qed.

Lemma queue_self_calling (cb : F) (l : EventLoop F P E C) :
  callingPendingFunctors_ l = true ->
  efd_ready (wakeupFd_ (queueInLoop (threadId_ l) cb l)) = true /\
  callingPendingFunctors_ (queueInLoop (threadId_ l) cb l) = true.
Proof.
  intros Hc. unfold queueInLoop, wakeup_after_enqueue. simpl. rewrite Hc, orb_true_r.
  split; [apply wakeup_ready | done].
Qed.

Lemma wake_other tid (l : EventLoop F P E C) :
  isInLoopThread tid l = false -> wakeup_after_enqueue tid l = wakeup l.
Proof. unfold wakeup_after_enqueue. by intros ->. Qed.

Lemma step_announced s s' : step s s' -> announced s -> announced s'.
Proof.
  intros St. unfold announced. intros [Hp Hw]. destruct St; simpl in *.
  - split; [|by constructor]. destruct ph; simpl in *; naive_solver.
  - apply Forall_app in Hw as [Hw1 [Ht Hw2]%Forall_cons]. rewrite wake_other by done.
    split; [|by apply Forall_app]. pose proof (wakeup_ready l).
    destruct ph; simpl in *; naive_solver.
  - naive_solver.
  - naive_solver.
  - unfold queueInLoop, wakeup_after_enqueue. simpl. rewrite Hp. 
    unfold isInLoopThread. simpl. rewrite Z.eqb_refl. simpl. naive_solver.
  - naive_solver.
  - naive_solver.
  - destruct Hp as [Hc _]. destruct (queue_self_calling cb l Hc) as [Hr Hc'].
    split; [by eauto|]. eapply Forall_impl; [exact Hw|]. intros t.
    unfold queueInLoop, wakeup_after_enqueue, isInLoopThread. by destruct (_ || _).
  - naive_solver.
  - naive_solver.
  - naive_solver.
  - unfold quit, isInLoopThread. simpl. destruct (_ =? _); simpl; [|done].
    split; [|done]. pose proof (wakeup_ready l). destruct ph; simpl in *; naive_solver.
Qed.

End ThreadLemmas.

Section RunLemmas.
Context {W F P E C : Type} `{Channel.POLLER P, EVENTFD E} `{!HASLOOP W F P E C}.
Context (exec : F -> W -> outcome W).
(** [queued] lists every functor ever queued and [executed] every functor
    run, in order; queueing and running update them, flags do not. *)
Context (queued executed : W -> list F).

Definition pending (w : W) : list F := pendingFunctors_ (get_loop w).

(** Running a functor records it and may queue more behind what is pending. *)
Definition exec_law : Prop := forall f w w', exec f w = Ret w' ->
  executed w' = executed w ++ [f] /\
  exists new, pending w' = pending w ++ new /\ queued w' = queued w ++ new.

(** The records are not part of the loop object. *)
Definition history_law : Prop := forall l w,
  queued (set_loop l w) = queued w /\ executed (set_loop l w) = executed w.

Lemma run_functors_history fs w w' :
  exec_law -> run_functors exec fs w = Ret w' ->
  executed w' = executed w ++ fs /\
  exists new, pending w' = pending w ++ new /\ queued w' = queued w ++ new.
Proof.
  intros L. revert w. induction fs as [|f fs IH]; intros w; simpl.
  - intros [= <-]. rewrite app_nil_r. split; [done|]. exists []. by rewrite !app_nil_r.
  - intros E0. apply bind_Ret in E0 as (w1 & E1 & E2).
    destruct (L _ _ _ E1) as (X1 & new1 & P1 & Q1).
    destruct (IH _ E2) as (X2 & new2 & P2 & Q2).
    rewrite X2, X1, <- app_assoc. split; [done|]. exists (new1 ++ new2).
    by rewrite P2, P1, Q2, Q1, !app_assoc.
Qed.

End RunLemmas.

(** ** Properties *)

(** C13: [doPendingFunctors] runs exactly the functors that were pending, in
    the order they were queued and each once; functors queued meanwhile stay
    pending, in order, for the next turn: what was ever queued is always what
    was executed followed by what is pending. *)
Theorem doPendingFunctors_fifo {W F P E C} `{Channel.POLLER P, EVENTFD E}
  `{!HASLOOP W F P E C} exec (queued executed : W -> list F) w w'
  (Hexec : exec_law exec queued executed) (Hhist : history_law queued executed)
  (Hinv : queued w = executed w ++ pending w)
  (Hrun : doPendingFunctors exec w = Ret w') :
  executed w' = executed w ++ pending w /\ queued w' = executed w' ++ pending w'.
Proof.
  unfold doPendingFunctors, on_loop, swap_pending in Hrun. rewrite get_set_loop in Hrun.
  simpl in Hrun. apply bind_Ret in Hrun as (w2 & E2 & [= <-]).
  destruct (run_functors_history exec queued executed _ _ _ Hexec E2) as (X & new & Pn & Q).
  unfold pending in *. rewrite get_set_loop in *. simpl in *.
  destruct (Hhist (set_calling false (get_loop w2)) w2) as [Hq He].
  match type of X with context [set_loop ?l (set_loop ?l' w)] =>
    destruct (Hhist l (set_loop l' w)) as [Hq1 He1]; destruct (Hhist l' w) as [Hq2 He2] end.
  rewrite He, Hq, X, Q, He1, He2, Hq1, Hq2, Pn, Hinv. done.
Qed.

(** C5: no wakeup is lost: from a loop that polls with nothing queued on,
    whatever the interleaving of the loop thread with
    threads that queue functors or call [quit], when the loop is blocked in
    [poll] with a functor pending, the eventfd is readable or a thread that
    pushed is still to write it; so the functor is not left waiting for the
    poll timeout. *)
Theorem wakeup_not_lost {F P E C} `{Channel.POLLER P, EVENTFD_LAWS E} (s0 s : threads F P E C)
  (Hphase : loop_phase s0 = InPoll) (Hwaking : waking s0 = [])
  (Hcalling : callingPendingFunctors_ (loop_state s0) = false)
  (Hpending : pendingFunctors_ (loop_state s0) = [])
  (Hsteps : rtc step s0 s) (Hpoll : loop_phase s = InPoll)
  (Hne : pendingFunctors_ (loop_state s) <> []) :
  efd_ready (wakeupFd_ (loop_state s)) = true \/ waking s <> [].
Proof.
  assert (announced s) as [Ha _].
  { assert (announced s0) as A by (unfold announced; rewrite Hphase, Hwaking; eauto).
    clear Hphase Hwaking Hcalling Hpending Hpoll Hne.
    induction Hsteps; [done|]. apply IHHsteps. by eapply step_announced. }
  rewrite Hpoll in Ha. naive_solver.
Qed.

(** [quit] wakes the loop only when it is called on the loop's own
    thread, where the loop is not blocked: from another thread it sets
    [quit_] and leaves the eventfd as it is, so a loop blocked in [poll] on an
    unreadable eventfd is still blocked there with [quit_] set and no wakeup
    on its way. *)
Theorem quit_other_thread_does_not_wake {F P E C} `{Channel.POLLER P, EVENTFD E} tid
  (l : EventLoop F P E C)
  (Hother : isInLoopThread tid l = false) (Hidle : efd_ready (wakeupFd_ l) = false) :
  exists s, rtc step (mkThreads l InPoll []) s /\ loop_phase s = InPoll /\
    quit_ (loop_state s) = true /\ efd_ready (wakeupFd_ (loop_state s)) = false /\
    waking s = [].
Proof.
  exists (mkThreads (quit tid l) InPoll []). split; [by apply rtc_once, step_quit|].
  unfold quit. replace (isInLoopThread tid _) with false; done.
Qed.

(** A loop of thread 1 over a poller that accepts everything. *)
#[local] Instance unit_poller : Channel.POLLER unit := {|
  Channel.updateChannel C s c p := Ret (c, p);
  Channel.removeChannel C s c p := Ret (c, p);
  Channel.hasChannel C s c p := false
|}.

Definition demo_loop : EventLoop nat unit N unit :=
  mkEventLoop true false false 1 0 tt 0%N (Channel.new_Channel 1 3) [] [].

Lemma wakeup_not_lost_witness :
  efd_ready (wakeupFd_ (loop_state
    (mkThreads (wakeup_after_enqueue 2 (enqueue 7%nat demo_loop)) InPoll []))) = true \/
  @nil Z <> [].
Proof.
  apply (wakeup_not_lost (mkThreads demo_loop InPoll [])
    (mkThreads (wakeup_after_enqueue 2 (enqueue 7%nat demo_loop)) InPoll []));
    try reflexivity; [|discriminate].
  eapply rtc_l; [by apply (step_push 2 7%nat)|].
  apply rtc_once, (step_wake 2 _ _ [] []).
Defined.

Lemma quit_other_thread_does_not_wake_witness :
  exists s, rtc step (mkThreads demo_loop InPoll []) s /\ loop_phase s = InPoll /\
    quit_ (loop_state s) = true /\ efd_ready (wakeupFd_ (loop_state s)) = false /\
    waking s = [].
Proof. apply (quit_other_thread_does_not_wake 2 demo_loop); reflexivity. Defined.

(** A state that is the loop with the two histories; functor [S n] queues
    functor [n]. *)
Record demo_world := mkDemo {
  demo_l : EventLoop nat unit N unit;
  demo_queued : list nat;
  demo_executed : list nat
}.

#[local] Instance demo_hasloop : HASLOOP demo_world nat unit N unit := {|
  get_loop := demo_l;
  set_loop l w := mkDemo l (demo_queued w) (demo_executed w);
  get_set_loop _ _ := eq_refl
|}.

Definition demo_exec (f : nat) (w : demo_world) : outcome demo_world :=
  match f with
  | O => mret (mkDemo (demo_l w) (demo_queued w) (demo_executed w ++ [0%nat]))
  | S n => mret (mkDemo (queueInLoop 1 n (demo_l w)) (demo_queued w ++ [n])
                        (demo_executed w ++ [S n]))
  end.

Lemma doPendingFunctors_fifo_witness :
  let w := mkDemo (set_pending [2; 0]%nat demo_loop) [2; 0]%nat [] in
  exists w', doPendingFunctors demo_exec w = Ret w' /\
    demo_executed w' = demo_executed w ++ pending w /\
    demo_queued w' = demo_executed w' ++ pending w'.
Proof.
  intros w. eexists. split; [reflexivity|].
  eapply (doPendingFunctors_fifo demo_exec demo_queued demo_executed w);
    [| |reflexivity|reflexivity].
  - intros [|n] w0 w1 [= <-]; (split; [done|]);
      [exists []; by rewrite !app_nil_r | exists [n]; split; [|done]].
    unfold pending, get_loop, demo_hasloop, queueInLoop, wakeup_after_enqueue. simpl.
    by destruct (_ || _).
  - done.
Defined.

End EventLoop.

#[export] Existing Instance EventLoop.counter_eventfd_laws.
