(* ===== verification/Socket.v ===== *)
(** * InetAddress and Socket ([src/net/InetAddress.*], [src/net/Socket.*])

    [InetAddress] wraps a [sockaddr_in] in network byte order; [inet_ntop] is
    a parameter.  [Socket] forwards to the system calls on its descriptor;
    each operation takes what the call returned and gives what the code does
    with it: abort ([LOG_FATAL]), log, or go on. *)

From S2P Require Import Prelude.

Module InetAddress.

Definition AF_INET : Z := 2.
Definition INADDR_ANY : Z := 0.

(** Byte order conversion on a little-endian host. *)
Definition htons (x : Z) : Z :=
  Z.lor (Z.shiftl (Z.land x 255) 8) (Z.land (Z.shiftr x 8) 255).
Definition ntohs (x : Z) : Z := htons x.
Definition htonl (x : Z) : Z :=
  Z.lor (Z.shiftl (htons (Z.land x 65535)) 16) (htons (Z.land (Z.shiftr x 16) 65535)).

Record sockaddr_in := mkSockaddr {
  sin_family : Z;
  sin_port : Z;       (** network order *)
  s_addr : Z          (** network order *)
}.

(** [InetAddress] has the one member [addr_]. *)
Record InetAddress := mkInetAddress { addr_ : sockaddr_in }.

(** [InetAddress(uint16_t port, std::string ip)]: the call to [inet_addr] is
    commented out, so [ip] is not used. *)
Definition new_InetAddress (port : Z) (ip : bytes) : InetAddress :=
  mkInetAddress (mkSockaddr AF_INET (htons port) (htonl INADDR_ANY)).

Definition getSockAddr (a : InetAddress) : sockaddr_in := addr_ a.
Definition setSockAddr (addr : sockaddr_in) (a : InetAddress) : InetAddress :=
  mkInetAddress addr.

(** [char buf[64]] in [toIp] and [toIpPort]. *)
Definition buf_size : nat := 64.

Section Text.
(** [inet_ntop(AF_INET, addr, buf, sizeof buf)]: the text written. *)
Context (inet_ntop : Z -> bytes).

Definition toIp (a : InetAddress) : bytes := c_str (inet_ntop (s_addr (addr_ a))).

Definition toPort (a : InetAddress) : Z := ntohs (sin_port (addr_ a)).

(** [sprintf] writes the text and a NUL from offset [end]. *)
Definition toIpPort (a : InetAddress) : outcome bytes :=
  let ip := toIp a in
  let out := ip ++ ":"%char :: fmt_u (ntohs (sin_port (addr_ a))) in
  check (length out <? buf_size)%nat OutOfBounds;;
  mret out.

(** An IPv4 address has at most 15 characters, none of them NUL. *)
Definition ntop_law : Prop :=
  forall a, (length (inet_ntop a) <= 15)%nat /\ NUL ∉ inet_ntop a.

End Text.

End InetAddress.

Module Socket.

Definition SOL_SOCKET : Z := 1.
Definition IPPROTO_TCP : Z := 6.
Definition TCP_NODELAY : Z := 1.
Definition SO_REUSEADDR : Z := 2.
Definition SO_REUSEPORT : Z := 15.
Definition SO_KEEPALIVE : Z := 9.

Record Socket := mkSocket { sockfd_ : Z }.

Definition new_Socket (sockfd : Z) : Socket := mkSocket sockfd.
Definition fd (s : Socket) : Z := sockfd_ s.

(** [~Socket]: the descriptor it closes. *)
Definition delete_Socket (s : Socket) : Z := sockfd_ s.

(** [bind] and [listen] returned [ret]; anything but 0 is [LOG_FATAL]. *)
Definition bindAddress (ret : Z) (s : Socket) : outcome unit :=
  check (ret =? 0) Aborted.
Definition listen (ret : Z) (s : Socket) : outcome unit :=
  check (ret =? 0) Aborted.

(** [accept4] returned [connfd] and filled [addr]; [peeraddr] is assigned only
    on success. *)
Definition accept (connfd : Z) (addr : InetAddress.sockaddr_in)
    (peeraddr : InetAddress.InetAddress) (s : Socket) : Z * InetAddress.InetAddress :=
  (connfd, if 0 <=? connfd then InetAddress.setSockAddr addr peeraddr else peeraddr).

(** [shutdown(fd, SHUT_WR)] returned [ret]: whether the error is logged. *)
Definition shutdownWrite (ret : Z) (s : Socket) : bool := ret <? 0.

(** The arguments of [setsockopt] after the descriptor: level, name, value. *)
Definition sockopt : Type := Z * Z * Z.
Definition optval (on : bool) : Z := if on then 1 else 0.
Definition setTcpNoDelay (on : bool) (s : Socket) : Z * sockopt :=
  (sockfd_ s, (IPPROTO_TCP, TCP_NODELAY, optval on)).
Definition setReuseAddr (on : bool) (s : Socket) : Z * sockopt :=
  (sockfd_ s, (SOL_SOCKET, SO_REUSEADDR, optval on)).
Definition setReusePort (on : bool) (s : Socket) : Z * sockopt :=
  (sockfd_ s, (SOL_SOCKET, SO_REUSEPORT, optval on)).
Definition setKeepAlive (on : bool) (s : Socket) : Z * sockopt :=
  (sockfd_ s, (SOL_SOCKET, SO_KEEPALIVE, optval on)).

End Socket.

Module InetAddressTheory.
Import InetAddress.

Lemma htons_div x : 0 <= x < 2 ^ 16 -> htons x = 256 * (x mod 256) + x / 256.
Proof.
  intros. unfold htons. change 255 with (Z.ones 8). rewrite !Z.land_ones by lia.
  rewrite Z.shiftr_div_pow2 by lia. change (2 ^ 8) with 256.
  assert (x / 256 < 256) by (apply Z.div_lt_upper_bound; lia).
  assert (0 <= x / 256) by (apply Z.div_pos; lia).
  rewrite (Z.mod_small (x / 256)) by lia.
  pose proof (Z.mod_pos_bound x 256 ltac:(lia)).
  rewrite lor_shiftl_add by lia. lia.
Qed.

Lemma htons_range x : 0 <= x < 2 ^ 16 -> 0 <= htons x < 2 ^ 16.
Proof.
  intros. rewrite htons_div by done. pose proof (Z.mod_pos_bound x 256 ltac:(lia)).
  assert (x / 256 < 256) by (apply Z.div_lt_upper_bound; lia).
  assert (0 <= x / 256) by (apply Z.div_pos; lia). lia.
Qed.

Lemma htons_involutive x : 0 <= x < 2 ^ 16 -> ntohs (htons x) = x.
Proof.
  intros Hx. unfold ntohs. rewrite (htons_div (htons x)) by (by apply htons_range).
  rewrite htons_div by done. pose proof (Z.mod_pos_bound x 256 ltac:(lia)).
  assert (x / 256 < 256) by (apply Z.div_lt_upper_bound; lia).
  assert (0 <= x / 256) by (apply Z.div_pos; lia).
  replace (256 * (x mod 256) + x / 256) with (x / 256 + (x mod 256) * 256) by lia.
  rewrite Z.mod_add, Z.div_add by lia.
  rewrite (Z.mod_small (x / 256)), (Z.div_small (x / 256)) by lia. pose proof (Z.div_mod x 256 ltac:(lia)). lia.
Qed.

(** An address made from a port gives that port back, whatever the byte
    order in between, and prints as [ip:port] within the 64-byte buffer of
    [toIpPort], for every address text [inet_ntop] can produce. *)
Theorem toPort_roundtrip inet_ntop port ip
  (Hp : 0 <= port < 2 ^ 16) (Hn : ntop_law inet_ntop) :
  toPort (new_InetAddress port ip) = port /\
  toIpPort inet_ntop (new_InetAddress port ip) =
    Ret (inet_ntop 0 ++ ":"%char :: fmt_u port).
Proof.
  unfold toPort, toIpPort, toIp, new_InetAddress. simpl.
  rewrite htons_involutive by done. split; [done|].
  change (htonl INADDR_ANY) with 0. destruct (Hn 0) as [Hl Hz].
  rewrite c_str_id by done.
  assert (length (fmt_u port) <= 5)%nat by (apply fmt_u_length; [simpl; lia|lia]).
  replace (_ <? _)%nat with true; [done|]. symmetry. apply Nat.ltb_lt.
  unfold buf_size. rewrite length_app. simpl. lia.
Qed.

Lemma toPort_roundtrip_witness :
  toPort (new_InetAddress 8080 (str "127.0.0.1")) = 8080 /\
  toIpPort (fun _ => str "0.0.0.0") (new_InetAddress 8080 (str "127.0.0.1"))
    = Ret (str "0.0.0.0:8080").
Proof.
  apply (toPort_roundtrip (fun _ => str "0.0.0.0") 8080 (str "127.0.0.1")); [lia|].
  intros a. split; [simpl; lia|]. vm_compute. intros X. repeat (apply elem_of_cons in X as [X|X]; [discriminate X|]). by apply not_elem_of_nil in X.
Defined.

End InetAddressTheory.
