(* ===== verification/TcpConnection.v ===== *)
(** * TcpConnection ([src/net/TcpConnection.h], [TcpConnection.cc])

    The operations of a connection on the state its loop thread works on: the
    connection with its channel and buffers, its event loop, the kernel's
    side of its socket, and the rest of the program [R], which only user code
    and the close callback touch.  User callbacks and the server's close
    callback are names of type [U] with a meaning [user]. *)

From S2P Require Import Prelude Buffer Channel Poller EventLoop Socket.

(** ** Bound functions *)

(** The callbacks the library itself installs in channels. *)
Inductive chan_cb :=
  | ConnRead | ConnWrite | ConnClose | ConnError   (** of a [TcpConnection] *)
  | AcceptRead                                     (** [Acceptor::handleRead] *)
  | WakeupRead.                                    (** [EventLoop::handleRead] *)

(** The functors queued in event loops.  The first group binds a
    [shared_ptr] to the connection (and a copy of the user's callback), the
    second the raw [this]. *)
Inductive functor (U : Type) :=
  | WriteComplete (cb : U) (conn : Z)
  | HighWaterMark (cb : U) (conn : Z) (len : Z)
  | ConnectEstablished (conn : Z)
  | ConnectDestroyed (conn : Z)
  | RemoveConnectionInLoop (conn : Z)
  | SendInLoopPtr (conn : Z) (data : Z) (len : Z)  (** raw [this], raw [data] *)
  | SendInLoopStr (conn : Z) (message : bytes)     (** raw [this], copied string *)
  | ShutdownInLoop (conn : Z)                      (** raw [this] *)
  | AcceptorListen.
Arguments WriteComplete {U} cb conn.
Arguments HighWaterMark {U} cb conn len.
Arguments ConnectEstablished {U} conn.
Arguments ConnectDestroyed {U} conn.
Arguments RemoveConnectionInLoop {U} conn.
Arguments SendInLoopPtr {U} conn data len.
Arguments SendInLoopStr {U} conn message.
Arguments ShutdownInLoop {U} conn.
Arguments AcceptorListen {U}.

(** The connection a functor keeps alive through a [shared_ptr]. *)
Definition functor_owner {U} (f : functor U) : option Z :=
  match f with
  | WriteComplete _ c | HighWaterMark _ c _ | ConnectEstablished c
  | ConnectDestroyed c | RemoveConnectionInLoop c => Some c
  | _ => None
  end.

(** The connection a functor works on; a raw [this] does not keep it alive. *)
Definition is_raw {U} (f : functor U) : bool :=
  match f with SendInLoopPtr _ _ _ | SendInLoopStr _ _ | ShutdownInLoop _ => true | _ => false end.

Definition functor_conn {U} (f : functor U) : option Z :=
  match f with
  | SendInLoopPtr c _ _ | SendInLoopStr c _ | ShutdownInLoop c => Some c
  | _ => functor_owner f
  end.

(** ** The kernel's side of a TCP socket *)

Class SOCKET (S : Type) := {
  sk_write : bytes -> S -> Buffer.sys_result Z * S;
  sk_readv : list Z -> S -> Buffer.sys_result bytes * S;
  sk_shutdown : S -> Z * S;          (** [shutdown(fd, SHUT_WR)] *)
  sk_so_error : S -> Buffer.sys_result Z;  (** [getsockopt(SO_ERROR)] *)
  (** observations: the bytes accepted for sending, the half-close *)
  sk_out : S -> bytes;
  sk_shut : S -> bool
}.

(** What [write(2)], [readv(2)] and [shutdown(2)] promise: a write takes a
    prefix of the data, a failed call takes nothing. *)
Class SOCKET_LAWS (S : Type) `{SOCKET S} := {
  sk_write_done : forall d s n s', sk_write d s = (Buffer.Done n, s') ->
    0 <= n <= zlen d /\ sk_out s' = sk_out s ++ take (Z.to_nat n) d /\ sk_shut s' = sk_shut s;
  sk_write_failed : forall d s e s', sk_write d s = (Buffer.Failed e, s') ->
    sk_out s' = sk_out s /\ sk_shut s' = sk_shut s;
  sk_readv_done : forall l s d s', sk_readv l s = (Buffer.Done d, s') ->
    zlen d <= foldr Z.add 0 l;
  sk_readv_frame : forall l s r s', sk_readv l s = (r, s') ->
    sk_out s' = sk_out s /\ sk_shut s' = sk_shut s;
  sk_shutdown_law : forall s r s', sk_shutdown s = (r, s') ->
    sk_out s' = sk_out s /\ sk_shut s' = true
}.

Module TcpConnection.

Definition EWOULDBLOCK : Z := 11.
Definition EPIPE : Z := 32.
Definition ECONNRESET : Z := 104.

Inductive StateE := kDisconnected | kConnecting | kConnected | kDisconnecting.

#[export] Instance StateE_eq_dec : EqDecision StateE.
Proof. solve_decision. Defined.

Section TcpConnection.
Context {U : Type}.

(** ** State *)

Record TcpConnection := mkConn {
  loop_ : Z;
  name_ : bytes;
  state_ : StateE;
  reading_ : bool;
  socket_ : Socket.Socket;
  channel_ : Channel.Channel chan_cb;
  localAddr_ : InetAddress.InetAddress;
  peerAddr_ : InetAddress.InetAddress;
  connectionCallback_ : option U;
  messageCallback_ : option U;
  writeCompleteCallback_ : option U;
  closeCallback_ : option U;
  highWaterMarkCallback_ : option U;
  highWaterMark_ : Z;
  inputBuffer_ : Buffer.Buffer;
  outputBuffer_ : Buffer.Buffer
}.

Definition CheckLoopNotNull (loop : option Z) : outcome Z := deref Aborted loop.

(** The constructor: the four channel callbacks are bound, the high water
    mark is 64 MB.  [setKeepAlive] is only a request to the kernel. *)
Definition new_TcpConnection (loop : option Z) (nameArg : bytes) (sockfd : Z)
    (localAddr peerAddr : InetAddress.InetAddress) : outcome TcpConnection :=
  l ← CheckLoopNotNull loop;
  let channel :=
    Channel.setErrorCallback ConnError (Channel.setCloseCallback ConnClose
      (Channel.setWriteCallback ConnWrite (Channel.setReadCallback ConnRead
        (Channel.new_Channel l sockfd)))) in
  mret (mkConn l nameArg kConnecting true (Socket.mkSocket sockfd) channel
          localAddr peerAddr None None None None None (64 * 1024 * 1024)
          (Buffer.new_Buffer Buffer.kInitialSize) (Buffer.new_Buffer Buffer.kInitialSize)).

Definition connected (c : TcpConnection) : bool := bool_decide (state_ c = kConnected).
Definition getLoop (c : TcpConnection) : Z := loop_ c.
Definition name (c : TcpConnection) : bytes := name_ c.
Definition localAddress (c : TcpConnection) := localAddr_ c.
Definition peerAddress (c : TcpConnection) := peerAddr_ c.

Definition set_state (st : StateE) (c : TcpConnection) : TcpConnection :=
  mkConn (loop_ c) (name_ c) st (reading_ c) (socket_ c) (channel_ c) (localAddr_ c)
    (peerAddr_ c) (connectionCallback_ c) (messageCallback_ c) (writeCompleteCallback_ c)
    (closeCallback_ c) (highWaterMarkCallback_ c) (highWaterMark_ c) (inputBuffer_ c)
    (outputBuffer_ c).

Definition set_channel (ch : Channel.Channel chan_cb) (c : TcpConnection) : TcpConnection :=
  mkConn (loop_ c) (name_ c) (state_ c) (reading_ c) (socket_ c) ch (localAddr_ c)
    (peerAddr_ c) (connectionCallback_ c) (messageCallback_ c) (writeCompleteCallback_ c)
    (closeCallback_ c) (highWaterMarkCallback_ c) (highWaterMark_ c) (inputBuffer_ c)
    (outputBuffer_ c).

Definition set_inputBuffer (b : Buffer.Buffer) (c : TcpConnection) : TcpConnection :=
  mkConn (loop_ c) (name_ c) (state_ c) (reading_ c) (socket_ c) (channel_ c) (localAddr_ c)
    (peerAddr_ c) (connectionCallback_ c) (messageCallback_ c) (writeCompleteCallback_ c)
    (closeCallback_ c) (highWaterMarkCallback_ c) (highWaterMark_ c) b (outputBuffer_ c).

Definition set_outputBuffer (b : Buffer.Buffer) (c : TcpConnection) : TcpConnection :=
  mkConn (loop_ c) (name_ c) (state_ c) (reading_ c) (socket_ c) (channel_ c) (localAddr_ c)
    (peerAddr_ c) (connectionCallback_ c) (messageCallback_ c) (writeCompleteCallback_ c)
    (closeCallback_ c) (highWaterMarkCallback_ c) (highWaterMark_ c) (inputBuffer_ c) b.

(** [setConnectionCallback] ... [setHighWaterMarkCallback], in one. *)
Definition set_callbacks (cn ms wc cl : option U) (hw : option U) (mark : Z)
    (c : TcpConnection) : TcpConnection :=
  mkConn (loop_ c) (name_ c) (state_ c) (reading_ c) (socket_ c) (channel_ c) (localAddr_ c)
    (peerAddr_ c) cn ms wc cl hw mark (inputBuffer_ c) (outputBuffer_ c).

Definition setConnectionCallback (cb : option U) (c : TcpConnection) :=
  set_callbacks cb (messageCallback_ c) (writeCompleteCallback_ c) (closeCallback_ c)
    (highWaterMarkCallback_ c) (highWaterMark_ c) c.
Definition setMessageCallback (cb : option U) (c : TcpConnection) :=
  set_callbacks (connectionCallback_ c) cb (writeCompleteCallback_ c) (closeCallback_ c)
    (highWaterMarkCallback_ c) (highWaterMark_ c) c.
Definition setWriteCompleteCallback (cb : option U) (c : TcpConnection) :=
  set_callbacks (connectionCallback_ c) (messageCallback_ c) cb (closeCallback_ c)
    (highWaterMarkCallback_ c) (highWaterMark_ c) c.
Definition setCloseCallback (cb : option U) (c : TcpConnection) :=
  set_callbacks (connectionCallback_ c) (messageCallback_ c) (writeCompleteCallback_ c) cb
    (highWaterMarkCallback_ c) (highWaterMark_ c) c.
Definition setHighWaterMarkCallback (cb : option U) (mark : Z) (c : TcpConnection) :=
  set_callbacks (connectionCallback_ c) (messageCallback_ c) (writeCompleteCallback_ c)
    (closeCallback_ c) cb mark c.

End TcpConnection.
Arguments TcpConnection : clear implicits.

(** What a thread that is not the loop's calls on a connection it holds a
    [shared_ptr] to, and where it is in the call: past the check of [state_],
    or, in [shutdown], past the store of [kDisconnecting].  No lock is held
    between these points. *)
Inductive foreign_call :=
  | SendBuffer (b : Buffer.Buffer)
  | CallShutdown.

Inductive call_at :=
  | Checked (x : foreign_call)
  | Stored.

(** ** Operations *)

Section Ops.
Context {U P E S R : Type} `{Channel.POLLER P, EVENTFD E, SOCKET S}.

(** The state a loop thread works on while it serves one connection. *)
Record Env := mkEnv {
  conn : TcpConnection U;
  loop : EventLoop.EventLoop (functor U) P E chan_cb;
  sock : S;
  rest : R
}.

#[export] Instance env_hasloop : EventLoop.HASLOOP Env (functor U) P E chan_cb := {|
  EventLoop.get_loop := loop;
  EventLoop.set_loop l w := mkEnv (conn w) l (sock w) (rest w);
  EventLoop.get_set_loop l w := eq_refl
|}.

Definition set_conn (c : TcpConnection U) (w : Env) : Env := mkEnv c (loop w) (sock w) (rest w).
Definition set_sock (s : S) (w : Env) : Env := mkEnv (conn w) (loop w) s (rest w).
Definition upd_conn (f : TcpConnection U -> TcpConnection U) (w : Env) : Env :=
  set_conn (f (conn w)) w.

(** The address of the connection (and of its channel), and what the user's
    callbacks do. *)
Context (self : Z).

Inductive event :=
  | OnConnection
  | OnMessage (receiveTime : Z)
  | OnClose
  | OnWriteComplete
  | OnHighWaterMark (len : Z).

Context (user : U -> event -> Env -> outcome Env).

(** Calling an empty [std::function] throws. *)
Definition call_user (cb : option U) (ev : event) (w : Env) : outcome Env :=
  u ← deref NullDeref cb; user u ev w.

Definition setState (st : StateE) (w : Env) : Env := upd_conn (set_state st) w.

(** A channel operation through the loop's poller. *)
Definition on_channel
    (f : Z -> Channel.Channel chan_cb -> P -> outcome (Channel.Channel chan_cb * P))
    (w : Env) : outcome Env :=
  '(ch, p) ← f self (channel_ (conn w)) (EventLoop.poller_ (loop w));
  mret (mkEnv (set_channel ch (conn w)) (EventLoop.set_poller p (loop w)) (sock w) (rest w)).

Definition isWriting (w : Env) : bool := Channel.isWriting (channel_ (conn w)).

(** [loop_->queueInLoop] from the loop's own thread. *)
Definition queue_functor (f : functor U) (w : Env) : Env :=
  mkEnv (conn w) (EventLoop.queueInLoop (EventLoop.threadId_ (loop w)) f (loop w))
    (sock w) (rest w).

(** The attempt of [sendInLoop] to write directly: what was written, what
    remains, and whether the connection is broken. *)
Definition write_now (data : bytes) (w : Env) : Z * Z * bool * Env :=
  let len := zlen data in
  if negb (isWriting w) && (Buffer.readableBytes (outputBuffer_ (conn w)) =? 0) then
    let '(r, s) := sk_write data (sock w) in
    let w1 := set_sock s w in
    match r with
    | Buffer.Done nwrote =>
        let remaining := u64 (len - nwrote) in
        (nwrote, remaining, false,
         if remaining =? 0 then
           match writeCompleteCallback_ (conn w1) with
           | Some cb => queue_functor (WriteComplete cb self) w1
           | None => w1
           end
         else w1)
    | Buffer.Failed errno =>
        (0, len, negb (errno =? EWOULDBLOCK) && ((errno =? EPIPE) || (errno =? ECONNRESET)), w1)
    end
  else (0, len, false, w).

(** The notification of [sendInLoop] when the pending output reaches the
    high water mark. *)
Definition high_water (remaining : Z) (w : Env) : Env :=
  let oldLen := Buffer.readableBytes (outputBuffer_ (conn w)) in
  if (highWaterMark_ (conn w) <=? u64 (oldLen + remaining)) &&
     (oldLen <? highWaterMark_ (conn w)) then
    match highWaterMarkCallback_ (conn w) with
    | Some cb => queue_functor (HighWaterMark cb self (u64 (oldLen + remaining))) w
    | None => w
    end
  else w.

(** Buffering what the kernel did not take. *)
Definition buffer_rest (data : bytes) (nwrote remaining : Z) (w : Env) : outcome Env :=
  rest_data ← read_mem data nwrote remaining;
  out ← Buffer.append rest_data (outputBuffer_ (conn w));
  let w' := upd_conn (set_outputBuffer out) w in
  if negb (isWriting w') then on_channel Channel.enableWriting w' else mret w'.

Definition sendInLoop (data : bytes) (w : Env) : outcome Env :=
  if decide (state_ (conn w) = kDisconnected) then mret w
  else
    let '(nwrote, remaining, faultError, w1) := write_now data w in
    if negb faultError && (0 <? remaining) then
      buffer_rest data nwrote remaining (high_water remaining w1)
    else mret w1.

(** [sendInLoop(const std::string &message)]. *)
Definition sendInLoop_string (message : bytes) (w : Env) : outcome Env := sendInLoop message w.

(** [send(const std::string &buf)] on thread [tid]; [ptr] is the address of
    the characters of [buf], which a cross-thread send binds uncopied. *)
Definition send (tid ptr : Z) (buf : bytes) (w : Env) : outcome Env :=
  if decide (state_ (conn w) = kConnected) then
    if EventLoop.isInLoopThread tid (loop w) then sendInLoop buf w
    else EventLoop.runInLoop (fun _ => sendInLoop buf) tid
           (SendInLoopPtr self ptr (zlen buf)) w
  else mret w.

(** [send(Buffer *buf)]: the buffer is emptied; a cross-thread send binds a
    copy of its content. *)
Definition send_Buffer (tid : Z) (buf : Buffer.Buffer) (w : Env)
    : outcome (Buffer.Buffer * Env) :=
  if decide (state_ (conn w) = kConnected) then
    if EventLoop.isInLoopThread tid (loop w) then
      data ← read_mem (Buffer.buffer_ buf) (Buffer.peek buf) (Buffer.readableBytes buf);
      w' ← sendInLoop data w;
      mret (Buffer.retrieveAll buf, w')
    else
      '(message, buf') ← Buffer.retrieveAllAsString buf;
      w' ← EventLoop.runInLoop (fun _ => sendInLoop_string message) tid (SendInLoopStr self message) w;
      mret (buf', w')
  else mret (buf, w).

Definition shutdownInLoop (w : Env) : outcome Env :=
  if negb (isWriting w) then
    let '(ret, s) := sk_shutdown (sock w) in mret (set_sock s w)
  else mret w.

Definition shutdown (tid : Z) (w : Env) : outcome Env :=
  if decide (state_ (conn w) = kConnected) then
    EventLoop.runInLoop (fun _ => shutdownInLoop) tid (ShutdownInLoop self)
      (setState kDisconnecting w)
  else mret w.

(** [send(Buffer* )] and [shutdown] again, as the steps another thread [tid]
    takes: the check, and then from each point to the next; [None] when the
    call is over. *)
Definition call_enter (w : Env) : bool := bool_decide (state_ (conn w) = kConnected).

Definition call_next (tid : Z) (k : call_at) (w : Env) : outcome (Env * option call_at) :=
  match k with
  | Checked (SendBuffer buf) =>
      '(message, buf') ← Buffer.retrieveAllAsString buf;
      w' ← EventLoop.runInLoop (fun _ => sendInLoop_string message) tid (SendInLoopStr self message) w;
      mret (w', None)
  | Checked CallShutdown => mret (setState kDisconnecting w, Some Stored)
  | Stored =>
      w' ← EventLoop.runInLoop (fun _ => shutdownInLoop) tid (ShutdownInLoop self) w;
      mret (w', None)
  end.

(** A call that nothing comes between. *)
Definition call_whole (tid : Z) (x : foreign_call) (w : Env) : outcome Env :=
  if call_enter w then
    '(w1, k) ← call_next tid (Checked x) w;
    match k with
    | Some k => '(w2, _) ← call_next tid k w1; mret w2
    | None => mret w1
    end
  else mret w.

(** It is the function of the source. *)
Lemma call_whole_is (tid : Z) (x : foreign_call) (w : Env) :
  EventLoop.isInLoopThread tid (loop w) = false ->
  call_whole tid x w = match x with
    | SendBuffer b => '(_, w') ← send_Buffer tid b w; mret w'
    | CallShutdown => shutdown tid w
    end.
Proof.
  intros Ht. unfold call_whole, call_enter, send_Buffer, shutdown. destruct x as [b|]; simpl.
  - destruct (decide _) as [Hs|Hs]; [rewrite bool_decide_eq_true_2, Ht by done|by rewrite bool_decide_eq_false_2 by done].
    destruct (Buffer.retrieveAllAsString b) as [[m b']|f]; ostep; [|done].
    by destruct (EventLoop.runInLoop _ _ _ w).
  - destruct (decide _) as [Hs|Hs]; [rewrite bool_decide_eq_true_2 by done|by rewrite bool_decide_eq_false_2 by done].
    ostep. by destruct (EventLoop.runInLoop _ _ _ _).
Qed.

Definition connectEstablished (w : Env) : outcome Env :=
  let w1 := setState kConnected w in
  let w2 := upd_conn (fun c => set_channel (Channel.tie self (channel_ c)) c) w1 in
  w3 ← on_channel Channel.enableReading w2;
  call_user (connectionCallback_ (conn w3)) OnConnection w3.

Definition connectDestroyed (w : Env) : outcome Env :=
  w1 ← (if decide (state_ (conn w) = kConnected) then
          w0 ← on_channel Channel.disableAll (setState kDisconnected w);
          call_user (connectionCallback_ (conn w0)) OnConnection w0
        else mret w);
  on_channel Channel.remove w1.

Definition handleClose (w : Env) : outcome Env :=
  w1 ← on_channel Channel.disableAll (setState kDisconnected w);
  w2 ← call_user (connectionCallback_ (conn w1)) OnConnection w1;
  call_user (closeCallback_ (conn w2)) OnClose w2.

(** The error [handleError] logs: errno of a failing [getsockopt], or the
    value it gave.  Nothing else happens. *)
Definition handleError_err (w : Env) : Z :=
  match sk_so_error (sock w) with
  | Buffer.Failed errno => errno
  | Buffer.Done optval => optval
  end.
Definition handleError (w : Env) : outcome Env := let err := handleError_err w in mret w.

Definition handleRead (receiveTime : Z) (w : Env) : outcome Env :=
  let '(r, s) := sk_readv (Buffer.readFd_iov (inputBuffer_ (conn w))) (sock w) in
  '(n, savedErrno, b) ← Buffer.readFd (fun _ _ => r) (Channel.fd (channel_ (conn w)))
                          (inputBuffer_ (conn w));
  let w1 := set_sock s (upd_conn (set_inputBuffer b) w) in
  if 0 <? n then call_user (messageCallback_ (conn w1)) (OnMessage receiveTime) w1
  else if n =? 0 then handleClose w1
  else handleError w1.

(** The drained branch of [handleWrite]. *)
Definition write_complete (w : Env) : outcome Env :=
  w3 ← on_channel Channel.disableWriting w;
  let w4 := match writeCompleteCallback_ (conn w3) with
            | Some cb => queue_functor (WriteComplete cb self) w3
            | None => w3
            end in
  if decide (state_ (conn w4) = kDisconnecting) then shutdownInLoop w4 else mret w4.

Definition handleWrite (w : Env) : outcome Env :=
  if isWriting w then
    data ← read_mem (Buffer.buffer_ (outputBuffer_ (conn w)))
             (Buffer.peek (outputBuffer_ (conn w)))
             (Buffer.readableBytes (outputBuffer_ (conn w)));
    let '(r, s) := sk_write data (sock w) in
    '(n, saveErrno) ← Buffer.writeFd (fun _ _ => r) (Channel.fd (channel_ (conn w)))
                        (outputBuffer_ (conn w));
    let w1 := set_sock s w in
    if 0 <? n then
      let w2 := upd_conn (set_outputBuffer (Buffer.retrieve n (outputBuffer_ (conn w1)))) w1 in
      if Buffer.readableBytes (outputBuffer_ (conn w2)) =? 0 then
        write_complete w2
      else mret w2
    else mret w1
  else mret w.

(** The callbacks bound in the channel, and the channel's event dispatch. *)
Definition run_cb (guard : option Z) (cb : chan_cb) (t : Z) (w : Env) : outcome Env :=
  match cb with
  | ConnRead => handleRead t w
  | ConnWrite => handleWrite w
  | ConnClose => handleClose w
  | ConnError => handleError w
  | _ => mret w
  end.

Definition handleEvent (t : Z) (w : Env) : outcome Env :=
  Channel.handleEvent (fun w => Some (channel_ (conn w))) (fun _ _ => true) run_cb t w.

(** Running a functor of this connection; [heap] is the program's memory of
    character arrays, [None] where the array has been freed. *)
Definition exec_functor (heap : Z -> option bytes) (f : functor U) (w : Env) : outcome Env :=
  match f with
  | WriteComplete cb _ => user cb OnWriteComplete w
  | HighWaterMark cb _ n => user cb (OnHighWaterMark n) w
  | ConnectEstablished _ => connectEstablished w
  | ConnectDestroyed _ => connectDestroyed w
  | SendInLoopPtr _ data len =>
      str ← deref UseAfterFree (heap data);
      message ← read_mem str 0 len;
      sendInLoop message w
  | SendInLoopStr _ message => sendInLoop_string message w
  | ShutdownInLoop _ => shutdownInLoop w
  | _ => mret w
  end.

End Ops.
Arguments Env : clear implicits.


(** ** Specification: a byte pipe that is half-closed once drained *)

Section Spec.
Context {U P E S R : Type} `{Channel.POLLER P, EVENTFD E, SOCKET S}.
Implicit Types w : Env U P E S R.

(** What has been submitted on the connection: what the kernel accepted, then
    what the output buffer still holds. *)
Definition stream w : bytes := sk_out (sock w) ++ Buffer.content (outputBuffer_ (conn w)).

(** The channel asks for writability exactly while output is pending. *)
Definition interest_ok w : Prop :=
  isWriting w = negb (bool_decide (Buffer.content (outputBuffer_ (conn w)) = [])).

Definition out_ok w : Prop := Buffer.wf (outputBuffer_ (conn w)) /\ interest_ok w.

(** What user code in the loop's thread and the poller do to an open
    connection. *)
Inductive api :=
  | ApiSend (d : bytes)
  | ApiShutdown
  | Writable.

Definition run_api (self : Z) (o : api) w : outcome (Env U P E S R) :=
  match o with
  | ApiSend d => send self (EventLoop.threadId_ (loop w)) 0 d w
  | ApiShutdown => shutdown self (EventLoop.threadId_ (loop w)) w
  | Writable => handleWrite self w
  end.

Fixpoint run_apis (self : Z) (os : list api) w : outcome (Env U P E S R) :=
  match os with
  | [] => mret w
  | o :: os' => w' ← run_api self o w; run_apis self os' w'
  end.

(** The pipe: everything submitted, and whether it is being closed. *)
Definition pipe : Type := bytes * bool.

Definition pipe_step (a : pipe) (o : api) : pipe :=
  match o with
  | ApiSend d => if a.2 then a else (a.1 ++ d, false)
  | ApiShutdown => (a.1, true)
  | Writable => a
  end.

(** A connection implements a pipe when it has submitted the same bytes, is
    closing when the pipe is, and has half-closed its socket exactly when it
    is closing and the kernel has accepted everything. *)
Definition refines_pipe (a : pipe) w : Prop :=
  out_ok w /\ stream w = a.1 /\
  state_ (conn w) = (if a.2 then kDisconnecting else kConnected) /\
  sk_shut (sock w) = a.2 && bool_decide (sk_out (sock w) = a.1).

Definition api_cost (o : api) : Z := match o with ApiSend d => zlen d | _ => 0 end.
Definition apis_cost (os : list api) : Z := foldr (fun o n => api_cost o + n) 0 os.

(** The only fault the sending path leaves: [LOG_FATAL] on a failing
    [epoll_ctl]. *)
Definition aborts (f : fault) : Prop :=
  f = Aborted /\ exists self (c : Channel.Channel chan_cb) (p : P),
    Channel.updateChannel self c p = Err Aborted.

(** The kernel refuses a message because the peer has reset the connection;
    [sendInLoop] then drops it. *)
Definition refused (d : bytes) w : bool :=
  bool_decide (Buffer.content (outputBuffer_ (conn w)) = []) &&
  match sk_write d (sock w) with
  | (Buffer.Failed e, _) => (e =? EPIPE) || (e =? ECONNRESET)
  | (Buffer.Done _, _) => false
  end.

(** The calls of a run without the sends the kernel refused. *)
Fixpoint effective (self : Z) (os : list api) w : list api :=
  match os with
  | [] => []
  | o :: os' =>
      match o with ApiSend d => if refused d w then [] else [o] | _ => [o] end ++
      match run_api self o w with Ret w' => effective self os' w' | Err _ => [] end
  end.

(** The peer has not reset the connection. *)
Definition no_reset : Prop := forall d (s s' : S) e,
  sk_write d s = (Buffer.Failed e, s') -> e <> EPIPE /\ e <> ECONNRESET.

End Spec.

(** ** Lemmas *)

Section Lemmas.
Context {U P E S R : Type} `{Channel.POLLER_LAWS P, EVENTFD E, SOCKET_LAWS S}.
Context (self : Z).
Implicit Types w : Env U P E S R.

(** The parts of a connection the sending path does not touch. *)
Definition ident (c : TcpConnection U) :=
  (loop_ c, name_ c, localAddr_ c, peerAddr_ c,
   (connectionCallback_ c, messageCallback_ c, writeCompleteCallback_ c,
    closeCallback_ c, highWaterMarkCallback_ c, highWaterMark_ c), inputBuffer_ c).

Lemma on_channel_frame
  (f : Z -> Channel.Channel chan_cb -> P -> outcome (Channel.Channel chan_cb * P)) ev w w' :
  (forall ch p, f self ch p = Channel.update self (Channel.set_events (ev (Channel.events_ ch)) ch) p) ->
  on_channel self f w = Ret w' ->
  sock w' = sock w /\ rest w' = rest w /\
  (exists i, conn w' = set_channel (Channel.set_index i
      (Channel.set_events (ev (Channel.events_ (channel_ (conn w)))) (channel_ (conn w)))) (conn w)) /\
  exists p, loop w' = EventLoop.set_poller p (loop w).
Proof.
  intros Hf Eq. unfold on_channel in Eq. rewrite Hf in Eq. apply bind_Ret in Eq as ([ch p] & E1 & [= <-]).
  apply Channel.update_frame in E1 as [i ->]. simpl. split_and!; eauto.
Qed.

Lemma on_channel_fault
  (f : Z -> Channel.Channel chan_cb -> P -> outcome (Channel.Channel chan_cb * P)) ev w e :
  (forall ch p, f self ch p = Channel.update self (Channel.set_events (ev (Channel.events_ ch)) ch) p) ->
  on_channel self f w = Err e -> aborts (P := P) e.
Proof.
  intros Hf Eq. unfold on_channel in Eq. rewrite Hf in Eq.
  destruct (Channel.update _ _ _) as [[ch p]|f0] eqn:E1; [done|]. injection Eq as ->.
  apply Channel.update_fault in E1 as Ef. subst e. split; [done|eauto].
Qed.

Lemma queue_functor_frame f w :
  conn (queue_functor f w) = conn w /\ sock (queue_functor f w) = sock w /\
  rest (queue_functor f w) = rest w /\
  EventLoop.threadId_ (loop (queue_functor f w)) = EventLoop.threadId_ (loop w).
Proof.
  unfold queue_functor, EventLoop.queueInLoop, EventLoop.wakeup_after_enqueue.
  split_and!; try done. simpl. by destruct (_ || _).
Qed.

(** [if (cb) loop_->queueInLoop(...)]. *)
Lemma queue_opt_frame (cb : option U) (f : U -> functor U) w :
  let w' := match cb with Some u => queue_functor (f u) w | None => w end in
  conn w' = conn w /\ sock w' = sock w /\ rest w' = rest w /\
  EventLoop.threadId_ (loop w') = EventLoop.threadId_ (loop w).
Proof. destruct cb; [apply queue_functor_frame | done]. Qed.

Lemma interest_nil w : interest_ok w ->
  Buffer.content (outputBuffer_ (conn w)) = [] <-> isWriting w = false.
Proof. unfold interest_ok. intros ->. case_bool_decide; simpl; split; congruence. Qed.

Lemma readable_zero b : Buffer.wf b -> (Buffer.readableBytes b =? 0) = bool_decide (Buffer.content b = []).
Proof.
  intros W. rewrite Buffer.readable_content by done. case_bool_decide as Hc.
  - by rewrite Hc.
  - apply Z.eqb_neq. intros X. by apply zlen_nil_inv in X.
Qed.

Lemma write_now_spec data w n r fault w1 :
  out_ok w -> zlen data < 2 ^ 31 -> write_now self data w = (n, r, fault, w1) ->
  0 <= n <= zlen data /\ r = zlen data - n /\ conn w1 = conn w /\ rest w1 = rest w /\
  sk_out (sock w1) = sk_out (sock w) ++ take (Z.to_nat n) data /\
  sk_shut (sock w1) = sk_shut (sock w) /\
  (n <> 0 \/ fault = true -> Buffer.content (outputBuffer_ (conn w)) = []) /\
  fault = refused data w /\ (fault = true -> n = 0) /\
  EventLoop.threadId_ (loop w1) = EventLoop.threadId_ (loop w).
Proof.
  intros [W I] Hlen. unfold write_now, refused. rewrite readable_zero by done.
  pose proof (zlen_nonneg data).
  destruct (negb (isWriting w) && _) eqn:Eb.
  - apply andb_true_iff in Eb as [_ Hc]. apply bool_decide_eq_true in Hc.
    rewrite (bool_decide_eq_true_2 _ Hc). simpl.
    destruct (sk_write data (sock w)) as [[e|m] s] eqn:Ew.
    + apply sk_write_failed in Ew as Ew'. destruct Ew' as [Eo Es]. simpl.
      intros [= <- <- <- <-]. simpl. rewrite Eo, Es, app_nil_r, Z.sub_0_r.
      split_and!; try done; try lia. unfold EWOULDBLOCK, EPIPE, ECONNRESET.
      destruct (e =? 11) eqn:E1; [|done]. reflect_bools. by subst.
    + apply sk_write_done in Ew as (? & Ho & Hs). simpl. rewrite u64_small by lia.
      intros [= <- <- <- <-].
      destruct (queue_opt_frame (writeCompleteCallback_ (conn w)) (fun u => WriteComplete u self)
        (set_sock s w)) as (Qc & Qs & Qr & Qt).
      destruct (_ =? 0); [rewrite Qc, Qs, Qr, Qt|]; simpl; split_and!; try done; lia.
  - intros [= <- <- <- <-]. rewrite app_nil_r. split_and!; try done; try lia.
    unfold interest_ok in I. rewrite I in Eb. by destruct (bool_decide _).
Qed.

Lemma not_refused d w : no_reset (S := S) -> refused d w = false.
Proof.
  intros Hr. unfold refused. destruct (sk_write d (sock w)) as [[e|n] s'] eqn:Ew; [|by rewrite andb_false_r].
  destruct (Hr _ _ _ _ Ew). by rewrite !(proj2 (Z.eqb_neq _ _)), andb_false_r by done.
Qed.

Lemma stream_step (o1 c1 o2 c2 d1 d2 : bytes) :
  o2 = o1 ++ d1 -> c2 = c1 ++ d2 -> (d1 <> [] -> c1 = []) ->
  o2 ++ c2 = (o1 ++ c1) ++ d1 ++ d2.
Proof.
  intros -> -> Hc. rewrite <- !app_assoc. f_equal. destruct d1 as [|x d1]; [done|].
  rewrite Hc by done. done.
Qed.

Lemma high_water_frame r w :
  conn (high_water self r w) = conn w /\ sock (high_water self r w) = sock w /\
  rest (high_water self r w) = rest w /\
  EventLoop.threadId_ (loop (high_water self r w)) = EventLoop.threadId_ (loop w).
Proof. unfold high_water. destruct (_ && _); [|done].
  apply (queue_opt_frame _ (fun u => HighWaterMark u self _)). Qed.

(** The faults of sending [n] bytes: the kernel refuses, or the output vector
    would have to grow beyond its [max_size()]. *)
Definition stops (n : Z) w (f : fault) : Prop :=
  aborts (P := P) f \/
  f = LengthError /\ Buffer.max_size < zlen (Buffer.buffer_ (outputBuffer_ (conn w))) + n.

Lemma stops_aborts n w f :
  zlen (Buffer.buffer_ (outputBuffer_ (conn w))) + n <= Buffer.max_size -> stops n w f -> aborts (P := P) f.
Proof. intros Hm [?|[_ ?]]; [done|lia]. Qed.

(** Buffering the tail of [data] appends it to the pending output and leaves
    the channel interested in writability. *)
Lemma buffer_rest_spec data n w :
  Buffer.wf (outputBuffer_ (conn w)) -> 0 <= n < zlen data -> zlen data < 2 ^ 31 ->
  match buffer_rest self data n (zlen data - n) w with
  | Err f => stops (zlen data) w f
  | Ret w' =>
      out_ok w' /\ state_ (conn w') = state_ (conn w) /\ ident (conn w') = ident (conn w) /\
      rest w' = rest w /\ sock w' = sock w /\
      EventLoop.threadId_ (loop w') = EventLoop.threadId_ (loop w) /\
      zlen (Buffer.buffer_ (outputBuffer_ (conn w'))) <=
        zlen (Buffer.buffer_ (outputBuffer_ (conn w))) + zlen data /\
      Buffer.content (outputBuffer_ (conn w')) =
        Buffer.content (outputBuffer_ (conn w)) ++ drop (Z.to_nat n) data
  end.
Proof.
  intros W Hn Hlen. unfold buffer_rest. rewrite read_mem_in by lia. ostep.
  assert (slice n (zlen data - n) data = drop (Z.to_nat n) data) as ->.
  { unfold slice. rewrite take_ge; [done|]. rewrite length_drop. unfold zlen. lia. }
  assert (zlen (drop (Z.to_nat n) data) = zlen data - n) as Hsl by (rewrite zlen_drop; lia).
  pose proof (Buffer.append_room (drop (Z.to_nat n) data) (outputBuffer_ (conn w)) W ltac:(lia)) as X.
  destruct (Buffer.append _ _) as [b|f]; ostep; [|right; destruct X; split; [done|lia]].
  destruct X as (Wb & Cb & Lb).
  assert (Buffer.content b <> []) as Hne.
  { rewrite Cb. intros [_ X]%app_eq_nil. rewrite X in Hsl. rewrite zlen_nil in Hsl. lia. }
  unfold isWriting at 1. simpl. destruct (Channel.isWriting (channel_ (conn w))) eqn:Eiw; simpl.
  - unfold out_ok, interest_ok, isWriting. simpl.
    rewrite Eiw, bool_decide_eq_false_2 by done. split_and!; done || lia.
  - destruct (on_channel self Channel.enableWriting _) as [w'|f] eqn:E4.
    + destruct (on_channel_frame _ (fun e => Z.lor e Channel.kWriteEvent) _ _ (fun _ _ => eq_refl) E4)
        as (Hs4 & Hr4 & (i & Hc4) & p & Hl4). simpl in *.
      unfold out_ok, interest_ok, isWriting, Channel.isWriting. rewrite Hc4, Hr4, Hs4, Hl4.
      simpl. rewrite Channel.has_lor, bool_decide_eq_false_2 by done.
      split_and!; done || lia.
    + left. by apply (on_channel_fault _ (fun e => Z.lor e Channel.kWriteEvent)) in E4.
Qed.

(** Everything [sendInLoop] does to an open connection. *)
Lemma sendInLoop_spec data w :
  state_ (conn w) <> kDisconnected -> out_ok w -> zlen data < 2 ^ 31 ->
  match sendInLoop self data w with
  | Err f => stops (zlen data) w f
  | Ret w' =>
      out_ok w' /\ state_ (conn w') = state_ (conn w) /\ ident (conn w') = ident (conn w) /\
      rest w' = rest w /\ sk_shut (sock w') = sk_shut (sock w) /\
      EventLoop.threadId_ (loop w') = EventLoop.threadId_ (loop w) /\
      zlen (Buffer.buffer_ (outputBuffer_ (conn w'))) <=
        zlen (Buffer.buffer_ (outputBuffer_ (conn w))) + zlen data /\
      stream w' = stream w ++ (if refused data w then [] else data)
  end.
Proof.
  intros Hst O Hlen. unfold sendInLoop. rewrite decide_False by done.
  destruct (write_now self data w) as [[[n r] fault] w1] eqn:Ew.
  destruct (write_now_spec _ _ _ _ _ _ O Hlen Ew) as
    (Hn & -> & Hc & Hr & Ho & Hs & Hempty & Hrf & Hf & Ht). rewrite <- Hrf. clear Hrf.
  destruct (negb fault && _) eqn:Eb; reflect_bools.
  - destruct (high_water_frame (zlen data - n) w1) as (Qc & Qs & Qr & Qt).
    pose proof (buffer_rest_spec data n (high_water self (zlen data - n) w1)) as B.
    unfold stops in B. rewrite Qc, Hc in B. specialize (B (proj1 O) ltac:(lia) Hlen).
    destruct (buffer_rest _ _ _ _ _) as [w'|f]; [|done].
    destruct B as (? & ? & ? & Rr & Rs & Rt & Rl & Cb). rewrite Rr, Rs, Rt, Qs, Qr, Qt.
    destruct fault; [discriminate|]. split_and!; try done. unfold stream. rewrite Rs, Qs, Cb, Ho.
    rewrite (stream_step _ (Buffer.content (outputBuffer_ (conn w))) _ _
      (take (Z.to_nat n) data) (drop (Z.to_nat n) data)) by
      (done || (intros X; apply Hempty; left; intros ->; done)).
    by rewrite take_drop.
  - simpl. unfold out_ok, interest_ok, isWriting, stream. rewrite Hc, Hr, Hs, Ht.
    split_and!; try done; [apply O|apply O|pose proof (zlen_nonneg data); lia|].
    destruct fault; simpl in Eb.
    + rewrite Hf in * by done. by rewrite Ho, !app_nil_r.
    + destruct Eb as [|Eb]; [done|]. reflect_bools.
      rewrite Ho, take_ge by (unfold zlen in *; lia).
      destruct (decide (data = [])) as [->|Hd0]; [by rewrite !app_nil_r|].
      rewrite Hempty; [by rewrite !app_nil_r|]. left. intros ->. apply Hd0, zlen_nil_inv.
      pose proof (zlen_nonneg data). lia.
Qed.

(** What the pipe relation looks at. *)
Lemma refines_pipe_same a w w' :
  refines_pipe a w -> conn w' = conn w -> sk_out (sock w') = sk_out (sock w) ->
  sk_shut (sock w') = sk_shut (sock w) -> refines_pipe a w'.
Proof.
  unfold refines_pipe, out_ok, interest_ok, stream, isWriting. by intros ? -> -> ->.
Qed.

Lemma shutdownInLoop_spec w : exists w',
  shutdownInLoop w = Ret w' /\ conn w' = conn w /\ loop w' = loop w /\ rest w' = rest w /\
  sk_out (sock w') = sk_out (sock w) /\
  sk_shut (sock w') = (if isWriting w then sk_shut (sock w) else true).
Proof.
  unfold shutdownInLoop. destruct (isWriting w); simpl; [by exists w|].
  destruct (sk_shutdown _) as [r s] eqn:Eq. apply sk_shutdown_law in Eq as [? ?].
  by exists (set_sock s w).
Qed.

(** The pending output is empty exactly when the kernel has everything. *)
Lemma drained a w : stream w = a ->
  bool_decide (sk_out (sock w) = a) = bool_decide (Buffer.content (outputBuffer_ (conn w)) = []).
Proof.
  intros <-. unfold stream. apply bool_decide_ext.
  rewrite <- (app_nil_r (sk_out (sock w))) at 1. split; [by intros ?%app_inv_head|by intros ->].
Qed.

Lemma shutdown_pipe (a : pipe) w :
  refines_pipe a w -> exists w',
    shutdown self (EventLoop.threadId_ (loop w)) w = Ret w' /\ refines_pipe (a.1, true) w' /\
    loop w' = loop w /\ outputBuffer_ (conn w') = outputBuffer_ (conn w) /\
    inputBuffer_ (conn w') = inputBuffer_ (conn w).
Proof.
  intros (O & Hst & Hs & Hsh). pose proof (drained _ _ Hst) as Hd. unfold shutdown.
  destruct a as [d c]. simpl in *. destruct c.
  - rewrite decide_False by congruence. exists w. split_and!; [done|split_and!; done|done..].
  - rewrite decide_True by done. unfold EventLoop.runInLoop, EventLoop.isInLoopThread.
    simpl. rewrite Z.eqb_refl.
    destruct (shutdownInLoop_spec (setState kDisconnecting w)) as (w' & -> & Hc & Hl & Hr & Ho & Hx).
    exists w'. destruct O as [W I]. unfold refines_pipe, out_ok, interest_ok, stream, isWriting in *.
    rewrite Hc, Ho, Hl, Hx. simpl. split_and!; try done. rewrite Hd.
    rewrite I, Hsh. by destruct (bool_decide _).
Qed.

Lemma write_complete_spec (a : pipe) w :
  Buffer.wf (outputBuffer_ (conn w)) -> Buffer.content (outputBuffer_ (conn w)) = [] ->
  stream w = a.1 -> state_ (conn w) = (if a.2 then kDisconnecting else kConnected) ->
  sk_shut (sock w) = false ->
  match write_complete self w with
  | Err f => aborts (P := P) f
  | Ret w' => refines_pipe a w' /\ EventLoop.threadId_ (loop w') = EventLoop.threadId_ (loop w) /\
      outputBuffer_ (conn w') = outputBuffer_ (conn w)
  end.
Proof.
  intros W Hc Hst Hs Hsh. unfold write_complete.
  destruct (on_channel self Channel.disableWriting w) as [w3|f] eqn:E4; simpl;
    [|by apply (on_channel_fault _ (fun e => Z.land e (Z.lnot Channel.kWriteEvent))) in E4].
  destruct (on_channel_frame _ (fun e => Z.land e (Z.lnot Channel.kWriteEvent)) _ _
    (fun _ _ => eq_refl) E4) as (Hs4 & Hr4 & (i & Hc4) & p & Hl4).
  pose proof (drained a.1 w Hst) as Hd. rewrite Hc in Hd.
  destruct (queue_opt_frame (writeCompleteCallback_ (conn w3))
      (fun u => WriteComplete u self) w3)
    as (Qc & Qs & _ & Qt). revert Qc Qs Qt. generalize (match writeCompleteCallback_ (conn w3)
      with Some u => queue_functor (WriteComplete u self) w3 | None => w3 end).
  intros w4 Qc Qs Qt. rewrite Hc4 in Qc. rewrite Hl4 in Qt. rewrite Hs4 in Qs.
  assert (isWriting w4 = false) as Hw.
  { unfold isWriting. rewrite Qc. simpl. unfold Channel.isWriting. simpl. by rewrite Channel.has_land_lnot. }
  assert (forall w', conn w' = conn w4 -> sk_out (sock w') = sk_out (sock w4) ->
    sk_shut (sock w') = a.2 -> refines_pipe a w') as X.
  { intros w' C' O' S'. unfold refines_pipe, out_ok, interest_ok, stream, isWriting in *.
    rewrite C', O', S', Hw, Qc, Qs. simpl. rewrite Hc. split_and!; try done.
    - by rewrite <- Hst, Hc.
    - by rewrite Hd, andb_true_r. }
  rewrite Qc. simpl. rewrite Hs. destruct a as [d [|]]; simpl in *.
  - destruct (shutdownInLoop_spec w4) as (w' & -> & Hc' & Hl' & Hr' & Ho' & Hx').
    rewrite Hw in Hx'. rewrite Hl', Hc', Qc. split_and!; try done. by apply X.
  - rewrite Qc. split_and!; try done. apply X; try done. by rewrite Qs.
Qed.

Lemma write_complete_frame w w' :
  write_complete self w = Ret w' -> outputBuffer_ (conn w') = outputBuffer_ (conn w).
Proof.
  unfold write_complete. intros Eq. apply bind_Ret in Eq as (w3 & E3 & Eq).
  destruct (on_channel_frame _ (fun e => Z.land e (Z.lnot Channel.kWriteEvent)) _ _
    (fun _ _ => eq_refl) E3) as (_ & _ & (i & Hc) & _).
  destruct (queue_opt_frame (writeCompleteCallback_ (conn w3)) (fun u => WriteComplete u self) w3)
    as (Qc & _). revert Qc Eq. generalize (match writeCompleteCallback_ (conn w3)
      with Some u => queue_functor (WriteComplete u self) w3 | None => w3 end).
  intros w4 Qc. destruct (decide _).
  - destruct (shutdownInLoop_spec w4) as (w5 & -> & C5 & _). intros [= <-]. by rewrite C5, Qc, Hc.
  - intros [= <-]. by rewrite Qc, Hc.
Qed.

Lemma handleWrite_pipe (a : pipe) w :
  refines_pipe a w ->
  match handleWrite self w with
  | Err f => aborts (P := P) f
  | Ret w' => refines_pipe a w' /\ EventLoop.threadId_ (loop w') = EventLoop.threadId_ (loop w) /\
      Buffer.buffer_ (outputBuffer_ (conn w')) = Buffer.buffer_ (outputBuffer_ (conn w))
  end.
Proof.
  intros Href. pose proof Href as ((W & I) & Hst & Hs & Hsh). unfold handleWrite.
  destruct (isWriting w) eqn:Ei; [|done].
  unfold Buffer.writeFd. rewrite Buffer.read_content by done. ostep.
  assert (Buffer.content (outputBuffer_ (conn w)) <> []) as Hne.
  { intros X. apply (interest_nil w I) in X. congruence. }
  rewrite (drained _ _ Hst), (bool_decide_eq_false_2 _ Hne), andb_false_r in Hsh.
  destruct (sk_write _ (sock w)) as [[e|n] s] eqn:Ew; ostep.
  - apply sk_write_failed in Ew as [Eo Es]. simpl. split_and!; [|done..].
    by apply (refines_pipe_same a w).
  - apply sk_write_done in Ew as (Hn & Ho & Hx).
    destruct (0 <? n) eqn:En; reflect_bools; simpl.
    + pose proof (Buffer.wf_retrieve n _ W ltac:(lia)) as Wb.
      pose proof (Buffer.content_retrieve n _ W ltac:(lia)) as Cb.
      pose proof (Buffer.buffer_retrieve n (outputBuffer_ (conn w))) as Bb.
      set (w2 := upd_conn _ _).
      assert (stream w2 = a.1) as Hst2.
      { unfold stream. simpl. rewrite Ho, Cb, <- app_assoc, take_drop. done. }
      rewrite readable_zero by done. case_bool_decide as Hc.
      * pose proof (write_complete_spec a w2 Wb Hc Hst2 Hs ltac:(simpl; congruence)) as X.
        destruct (write_complete self w2) as [w'|f]; [|done].
        destruct X as (X1 & X2 & X3). rewrite X2, X3. done.
      * split_and!; [|done|done]. pose proof (drained _ _ Hst2) as Hd.
        unfold refines_pipe, out_ok, interest_ok, isWriting in *. simpl in *.
        rewrite (bool_decide_eq_false_2 _ Hc) in *. rewrite Hd, Ei, Hx, Hsh, andb_false_r.
        done.
    + assert (n = 0) as -> by lia. split_and!; [|done..].
      apply (refines_pipe_same a w); try done. simpl. rewrite Ho. apply app_nil_r.
Qed.

(** A writability event takes at least one byte off the pending output. *)
Lemma handleWrite_progress w w' :
  (forall d s, d <> [] -> exists n s', sk_write d s = (Buffer.Done n, s') /\ 0 < n) ->
  out_ok w -> handleWrite self w = Ret w' ->
  zlen (Buffer.content (outputBuffer_ (conn w'))) <=
    Z.max 0 (zlen (Buffer.content (outputBuffer_ (conn w))) - 1).
Proof.
  intros Hp [W I]. unfold handleWrite. destruct (isWriting w) eqn:Ei.
  - unfold Buffer.writeFd. rewrite Buffer.read_content by done. ostep.
    assert (Buffer.content (outputBuffer_ (conn w)) <> []) as Hne.
    { intros X. apply (interest_nil w I) in X. congruence. }
    destruct (Hp _ (sock w) Hne) as (n & s & Ew & Hn). rewrite Ew. ostep.
    replace (0 <? n) with true by (symmetry; apply Z.ltb_lt; lia).
    pose proof (Buffer.wf_retrieve n _ W ltac:(lia)) as Wb.
    pose proof (Buffer.content_retrieve n _ W ltac:(lia)) as Cb.
    pose proof (f_equal zlen Cb) as L. rewrite zlen_drop in L.
    destruct (Buffer.readableBytes _ =? 0).
    + intros X. apply write_complete_frame in X. rewrite X. simpl. rewrite L. lia.
    + intros [= <-]. simpl. rewrite L. lia.
  - intros [= <-]. apply (interest_nil w I) in Ei. rewrite Ei. done.
Qed.

Lemma send_pipe_any (a : pipe) ptr d w :
  refines_pipe a w -> zlen d < 2 ^ 31 ->
  match send self (EventLoop.threadId_ (loop w)) ptr d w with
  | Err f => stops (zlen d) w f
  | Ret w' => refines_pipe (if refused d w then a else pipe_step a (ApiSend d)) w' /\
      EventLoop.threadId_ (loop w') = EventLoop.threadId_ (loop w) /\
      zlen (Buffer.buffer_ (outputBuffer_ (conn w'))) <=
        zlen (Buffer.buffer_ (outputBuffer_ (conn w))) + zlen d /\
      inputBuffer_ (conn w') = inputBuffer_ (conn w)
  end.
Proof.
  intros Href Hlen. pose proof Href as (O & Hst & Hs & Hsh). unfold send.
  pose proof (zlen_nonneg d). destruct a as [x [|]]; simpl in *.
  - rewrite decide_False by congruence. simpl. split_and!; [by destruct (refused d w)|done|lia|done].
  - rewrite decide_True by done. unfold EventLoop.isInLoopThread. rewrite Z.eqb_refl.
    pose proof (sendInLoop_spec d w ltac:(congruence) O Hlen) as X.
    destruct (sendInLoop self d w) as [w'|f]; [|done].
    destruct X as (O' & Hs' & Hi & Hr' & Hx' & Ht' & Hl' & Hst').
    unfold ident in Hi. injection Hi as _ _ _ _ _ _ _ _ _ _ Hin. split_and!; try done.
    destruct (refused d w); split_and!; try done; simpl; rewrite ?app_nil_r in Hst'; congruence.
Qed.

Lemma send_pipe (a : pipe) ptr d w :
  no_reset (S := S) -> refines_pipe a w -> zlen d < 2 ^ 31 ->
  zlen (Buffer.buffer_ (outputBuffer_ (conn w))) + zlen d <= Buffer.max_size ->
  match send self (EventLoop.threadId_ (loop w)) ptr d w with
  | Err f => aborts (P := P) f
  | Ret w' => refines_pipe (pipe_step a (ApiSend d)) w' /\
      EventLoop.threadId_ (loop w') = EventLoop.threadId_ (loop w) /\
      zlen (Buffer.buffer_ (outputBuffer_ (conn w'))) <=
        zlen (Buffer.buffer_ (outputBuffer_ (conn w))) + zlen d /\
      inputBuffer_ (conn w') = inputBuffer_ (conn w)
  end.
Proof.
  intros Hr Href Hlen Hmax. pose proof (send_pipe_any a ptr d w Href Hlen) as X.
  rewrite not_refused in X by done. destruct (send _ _ _ _ _); [done|by eapply stops_aborts].
Qed.

(** The same for the overload taking a [Buffer], which it empties. *)
Lemma send_Buffer_pipe (a : pipe) b w :
  no_reset (S := S) -> refines_pipe a w -> Buffer.wf b -> zlen (Buffer.content b) < 2 ^ 31 ->
  a.2 = false ->
  zlen (Buffer.buffer_ (outputBuffer_ (conn w))) + zlen (Buffer.content b) <= Buffer.max_size ->
  match send_Buffer self (EventLoop.threadId_ (loop w)) b w with
  | Err f => aborts (P := P) f
  | Ret (b', w') => b' = Buffer.retrieveAll b /\
      refines_pipe (pipe_step a (ApiSend (Buffer.content b))) w' /\
      EventLoop.threadId_ (loop w') = EventLoop.threadId_ (loop w) /\
      inputBuffer_ (conn w') = inputBuffer_ (conn w)
  end.
Proof.
  intros Hr Href W Hlen Ha Hmax. pose proof (send_pipe a 0 _ w Hr Href Hlen Hmax) as X.
  destruct Href as (O & Hst & Hs & Hsh). unfold send_Buffer, send in *.
  rewrite Ha in Hs. rewrite decide_True in X by done. rewrite decide_True by done. revert X.
  unfold EventLoop.isInLoopThread. rewrite Z.eqb_refl, Buffer.read_content by done. ostep.
  intros X. destruct (sendInLoop _ _ _) as [w'|f]; ostep; [|done].
  destruct X as (X1 & X2 & _ & X3). done.
Qed.

(** The pipe does not see the input buffer. *)
Lemma refines_pipe_input a b w :
  refines_pipe a w -> refines_pipe a (upd_conn (set_inputBuffer b) w).
Proof. done. Qed.

Lemma run_api_spec (a : pipe) o w :
  refines_pipe a w -> api_cost o < 2 ^ 31 ->
  zlen (Buffer.buffer_ (outputBuffer_ (conn w))) + api_cost o <= Buffer.max_size ->
  match run_api self o w with
  | Err f => aborts (P := P) f
  | Ret w' =>
      refines_pipe (match o with ApiSend d => if refused d w then a else pipe_step a o
                    | _ => pipe_step a o end) w' /\
      zlen (Buffer.buffer_ (outputBuffer_ (conn w'))) <=
        zlen (Buffer.buffer_ (outputBuffer_ (conn w))) + api_cost o
  end.
Proof.
  intros Href Hlen Hmax. destruct o as [d| |]; simpl in *.
  - pose proof (send_pipe_any a 0 d w Href Hlen) as X.
    destruct (send _ _ _ _ _); [split; apply X|by eapply stops_aborts].
  - destruct (shutdown_pipe a w Href) as (w' & -> & ? & _ & -> & _). split; [done|lia].
  - pose proof (handleWrite_pipe a w Href) as X. destruct (handleWrite _ _) as [w'|f]; [|done].
    destruct X as (? & _ & ->). split; [done|lia].
Qed.

(** *** The functors queued on the way *)

Definition pending w := EventLoop.pendingFunctors_ (loop w).

Lemma queue_functor_pending f w : pending (queue_functor f w) = pending w ++ [f].
Proof.
  unfold pending, queue_functor, EventLoop.queueInLoop, EventLoop.wakeup_after_enqueue.
  simpl. by destruct (_ || _).
Qed.

(** The same for a functor queued from any thread. *)
Lemma queue_other_pending tid f w :
  pending (EventLoop.set_loop (EventLoop.queueInLoop tid f (loop w)) w) = pending w ++ [f].
Proof.
  unfold pending, EventLoop.queueInLoop, EventLoop.wakeup_after_enqueue. simpl.
  by destruct (_ || _).
Qed.

(** [if (cb) loop_->queueInLoop(...)] queues the notification once. *)
Lemma queue_opt_pending (cb : option U) (f : U -> functor U) w :
  pending (match cb with Some u => queue_functor (f u) w | None => w end) =
  pending w ++ option_list (f <$> cb).
Proof. destruct cb; simpl; [apply queue_functor_pending | by rewrite app_nil_r]. Qed.

Lemma on_channel_pending f w w' : on_channel self f w = Ret w' -> pending w' = pending w.
Proof.
  unfold on_channel, pending. intros Eq. apply bind_Ret in Eq as ([ch p] & _ & [= <-]). done.
Qed.

Lemma buffer_rest_pending data n r w w' :
  buffer_rest self data n r w = Ret w' -> pending w' = pending w.
Proof.
  unfold buffer_rest. intros Eq. apply bind_Ret in Eq as (d & _ & Eq).
  apply bind_Ret in Eq as (o & _ & Eq). destruct (negb _); [|by injection Eq as <-].
  by apply on_channel_pending in Eq.
Qed.

(** A direct write notifies when it took everything. *)
Lemma write_now_pending data w n r w1 :
  out_ok w -> data <> [] -> write_now self data w = (n, r, false, w1) ->
  pending w1 = pending w ++
    (if bool_decide (Buffer.content (outputBuffer_ (conn w)) = []) && (r =? 0)
     then option_list ((fun u => WriteComplete u self) <$> writeCompleteCallback_ (conn w))
     else []).
Proof.
  intros [W I] Hne. unfold write_now. rewrite readable_zero by done.
  unfold interest_ok in I. rewrite I. case_bool_decide as Hc; simpl.
  - destruct (sk_write data (sock w)) as [[e|m] s] eqn:Ew; intros Eq; simplify_eq.
    + destruct (zlen data =? 0) eqn:E0; [|by rewrite app_nil_r].
      reflect_bools. by apply zlen_nil_inv in E0.
    + destruct (_ =? 0); [|by rewrite app_nil_r].
      apply (queue_opt_pending _ (fun u => WriteComplete u self) (set_sock s w)).
  - intros [= <- <- <-]. by rewrite app_nil_r.
Qed.

Lemma api_cost_nonneg o : 0 <= api_cost o.
Proof. destruct o; simpl; [apply zlen_nonneg|lia..]. Qed.

Lemma apis_cost_nonneg os : 0 <= apis_cost os.
Proof. induction os as [|o os IH]; simpl; [lia|]. pose proof (api_cost_nonneg o). lia. Qed.

Lemma run_apis_spec os (a : pipe) w :
  refines_pipe a w -> Forall (fun o => api_cost o < 2 ^ 31) os ->
  zlen (Buffer.buffer_ (outputBuffer_ (conn w))) + apis_cost os <= Buffer.max_size ->
  match run_apis self os w with
  | Err f => aborts (P := P) f
  | Ret w' => refines_pipe (fold_left pipe_step (effective self os w) a) w'
  end.
Proof.
  intros Href Hlen. revert a w Href. induction Hlen as [|o os Ho _ IH]; intros a w Href Hmax; [done|].
  simpl in *. pose proof (apis_cost_nonneg os) as Hos. unfold apis_cost in *.
  pose proof (api_cost_nonneg o).
  pose proof (run_api_spec a o w Href Ho ltac:(lia)) as X.
  destruct (run_api self o w) as [w'|f]; [|done]. destruct X as [X1 X2].
  rewrite fold_left_app. destruct o as [d| |]; [destruct (refused d w)|..]; by apply IH; [|lia].
Qed.

Lemma high_water_pending r w :
  Buffer.wf (outputBuffer_ (conn w)) -> 0 < r < 2 ^ 31 ->
  let old := zlen (Buffer.content (outputBuffer_ (conn w))) in
  let mark := highWaterMark_ (conn w) in
  pending (high_water self r w) = pending w ++
    (if (old <? mark) && (mark <=? old + r)
     then option_list ((fun u => HighWaterMark u self (old + r)) <$> highWaterMarkCallback_ (conn w))
     else []).
Proof.
  intros W Hr old mark. unfold high_water. rewrite Buffer.readable_content by done.
  fold old mark. pose proof (Buffer.zlen_content _ W) as L. fold old in L.
  revert W. unfold Buffer.wf, Buffer.kCheapPrepend, Buffer.max_size. intros W.
  rewrite u64_small by lia. rewrite andb_comm. destruct (_ && _); [|by rewrite app_nil_r].
  apply (queue_opt_pending _ (fun u => HighWaterMark u self (old + r))).
Qed.

End Lemmas.

(** [handleRead] for one result of [readv]. *)
Lemma handleRead_ok {U P E S R} `{Channel.POLLER P, EVENTFD E, SOCKET_LAWS S}
  self user t (w : Env U P E S R)
  (W : Buffer.wf (inputBuffer_ (conn w)))
  (Hmax : zlen (Buffer.buffer_ (inputBuffer_ (conn w))) + Buffer.extrabuf_size <= Buffer.max_size) :
  let '(r, s) := sk_readv (Buffer.readFd_iov (inputBuffer_ (conn w))) (sock w) in
  match r with
  | Buffer.Failed e => handleRead self user t w = Ret (set_sock s w)
  | Buffer.Done d => exists b, Buffer.wf b /\
      zlen (Buffer.buffer_ b) <= zlen (Buffer.buffer_ (inputBuffer_ (conn w))) + zlen d /\
      Buffer.content b = Buffer.content (inputBuffer_ (conn w)) ++ d /\
      let w1 := set_sock s (upd_conn (set_inputBuffer b) w) in
      handleRead self user t w =
        if bool_decide (d = []) then handleClose self user w1
        else call_user user (messageCallback_ (conn w1)) (OnMessage t) w1
  end.
Proof.
  unfold handleRead. destruct (sk_readv _ _) as [r s] eqn:Er.
  pose proof (Buffer.readFd_ok (fun _ _ => r) (Channel.fd (channel_ (conn w)))
    (inputBuffer_ (conn w))) as X.
  destruct r as [e|d].
  - rewrite X; [|done..|]; [ostep; simpl; unfold handleError; by destruct w as [[] ? ? ?]|done].
  - destruct X as (b & Eb & Wb & Cb & Lb); [|done|done|].
    { intros ? [= <-]. by eapply sk_readv_done. }
    exists b. split_and!; [done..|]. rewrite Eb. ostep. case_bool_decide as Hd.
    + by rewrite Hd.
    + pose proof (zlen_nonneg d). assert (zlen d <> 0) by (by intros ?%zlen_nil_inv).
      by replace (0 <? zlen d) with true by (symmetry; apply Z.ltb_lt; lia).
Qed.

(** ** A concrete socket, for evaluation

    Each write takes as many bytes as [room] says, in order; when it says
    nothing more the socket is full.  Each read gives the next chunk. *)

Record tcp_socket := mkTcpSocket {
  ts_out : bytes;
  ts_shut : bool;
  ts_room : list Z;
  ts_in : list (Buffer.sys_result bytes)
}.

#[export] Instance tcp_socket_ops : SOCKET tcp_socket := {|
  sk_write d s :=
    match ts_room s with
    | [] => (Buffer.Failed EWOULDBLOCK, s)
    | r :: rs =>
        let n := Z.max 0 (Z.min r (zlen d)) in
        (Buffer.Done n,
         mkTcpSocket (ts_out s ++ take (Z.to_nat n) d) (ts_shut s) rs (ts_in s))
    end;
  sk_readv lens s :=
    if foldr Z.add 0 lens <? 0 then (Buffer.Failed 22, s) else
    match ts_in s with
    | [] => (Buffer.Failed EWOULDBLOCK, s)
    | Buffer.Failed e :: ins => (Buffer.Failed e, mkTcpSocket (ts_out s) (ts_shut s) (ts_room s) ins)
    | Buffer.Done d :: ins =>
        let n := Z.to_nat (foldr Z.add 0 lens) in
        (Buffer.Done (take n d), mkTcpSocket (ts_out s) (ts_shut s) (ts_room s)
           (if bool_decide (drop n d = []) then ins else Buffer.Done (drop n d) :: ins))
    end;
  sk_shutdown s := (0, mkTcpSocket (ts_out s) true (ts_room s) (ts_in s));
  sk_so_error s := Buffer.Done 0;
  sk_out := ts_out;
  sk_shut := ts_shut
|}.

#[export] Instance tcp_socket_laws : SOCKET_LAWS tcp_socket.
Proof.
  split; simpl.
  - intros d s n s'. destruct (ts_room s); [done|]. intros [= <- <-]. simpl.
    pose proof (zlen_nonneg d). split_and!; done || lia.
  - intros d s e s'. destruct (ts_room s); [|done]. by intros [= _ <-].
  - intros l s d s'. destruct (_ <? 0) eqn:E0; [done|]. reflect_bools.
    destruct (ts_in s) as [|[e|x] ins]; [done..|]. intros [= <- _].
    rewrite zlen_take. pose proof (zlen_nonneg x). lia.
  - intros l s r s'. destruct (_ <? 0); [by intros [= _ <-]|]. destruct (ts_in s) as [|[e|x] ins]; by intros [= _ <-].
  - intros s r s' [= _ <-]. done.
Qed.

(** ** Properties *)

(** C3: an open connection is a byte pipe.  Whatever sequence of sends and
    shutdowns the loop thread performs, each message shorter than 2 GB and all
    of them within the maximum size of a vector, and whenever the poller
    reports the socket writable, the bytes the kernel has accepted followed by
    those still buffered are exactly the bytes sent before the shutdown, in
    order; sends after the shutdown are dropped, and so is a send that finds
    nothing pending and whose write fails because the peer has reset the
    connection; and the write side is half-closed exactly when the connection
    is closing and the kernel has accepted everything.  The run faults only if
    [epoll_ctl] fails. *)
Theorem connection_refines_pipe {U P E S R} `{Channel.POLLER_LAWS P, EVENTFD E, SOCKET_LAWS S}
  self os (a : pipe) (w : Env U P E S R)
  (Href : refines_pipe a w) (Hlen : Forall (fun o => api_cost o < 2 ^ 31) os)
  (Hmax : zlen (Buffer.buffer_ (outputBuffer_ (conn w))) + apis_cost os <= Buffer.max_size) :
  match run_apis self os w with
  | Err f => aborts (P := P) f
  | Ret w' => refines_pipe (fold_left pipe_step (effective self os w) a) w'
  end.
Proof. by apply run_apis_spec. Qed.

(** A socket that takes at least one byte whenever it is reported writable. *)
Definition progress {S} `{SOCKET S} : Prop := forall d s, d <> [] ->
  exists n s', sk_write d s = (Buffer.Done n, s') /\ 0 < n.

(** C28: pending output drains: when each write takes at least one byte, as
    many writability events as there are pending bytes leave the buffer
    empty, with everything accepted by the kernel and the half-close of a
    closing connection performed. *)
Theorem writable_events_drain {U P E S R} `{Channel.POLLER_LAWS P, EVENTFD E, SOCKET_LAWS S}
  self n (a : pipe) (w : Env U P E S R)
  (Hprog : progress (S := S)) (Href : refines_pipe a w)
  (Hn : zlen (Buffer.content (outputBuffer_ (conn w))) <= Z.of_nat n) :
  match run_apis self (replicate n Writable) w with
  | Err f => aborts (P := P) f
  | Ret w' => Buffer.content (outputBuffer_ (conn w')) = [] /\ sk_out (sock w') = a.1 /\
              sk_shut (sock w') = a.2
  end.
Proof.
  revert w Href Hn. induction n as [|n IH]; intros w Href Hn; simpl.
  - assert (Buffer.content (outputBuffer_ (conn w)) = []) as Hc by
      (apply zlen_nil_inv; pose proof (zlen_nonneg (Buffer.content (outputBuffer_ (conn w)))); lia).
    destruct Href as (O & Hst & Hs & Hsh). pose proof (drained _ _ Hst) as Hd.
    rewrite Hc in Hd. rewrite Hd, andb_true_r in Hsh. unfold stream in Hst.
    rewrite Hc, app_nil_r in Hst. done.
  - pose proof (handleWrite_pipe self a w Href) as X.
    pose proof (handleWrite_progress self w) as Y.
    destruct (handleWrite self w) as [w'|f]; [|done]. destruct X as (X1 & _ & _).
    apply IH; [done|]. specialize (Y w' Hprog (proj1 Href) eq_refl). lia.
Qed.

(** C27: [sendInLoop] of a non-empty message, shorter than 2 GB and not refused
    because the peer has reset the connection, notifies exactly when it should:
    the write-complete callback is queued when the kernel took the whole
    message at once, the high-water callback (with the new length) when the
    pending output crosses the mark from below, and nothing else is queued. *)
Theorem sendInLoop_notifications {U P E S R} `{Channel.POLLER_LAWS P, EVENTFD E, SOCKET_LAWS S}
  self data (w w' : Env U P E S R)
  (Hst : state_ (conn w) <> kDisconnected) (O : out_ok w) (Hne : data <> [])
  (Hr : refused data w = false) (Hlen : zlen data < 2 ^ 31)
  (Hmax : zlen (Buffer.buffer_ (outputBuffer_ (conn w))) + zlen data <= Buffer.max_size)
  (Hrun : sendInLoop self data w = Ret w') :
  let old := zlen (Buffer.content (outputBuffer_ (conn w))) in
  let new := zlen (Buffer.content (outputBuffer_ (conn w'))) in
  let mark := highWaterMark_ (conn w) in
  pending w' = pending w ++
    (if new =? 0 then option_list ((fun u => WriteComplete u self) <$> writeCompleteCallback_ (conn w))
     else []) ++
    (if (old <? new) && (old <? mark) && (mark <=? new)
     then option_list ((fun u => HighWaterMark u self new) <$> highWaterMarkCallback_ (conn w))
     else []).
Proof.
  intros old new mark. unfold sendInLoop in Hrun. rewrite decide_False in Hrun by done.
  destruct (write_now self data w) as [[[n r] fault] w1] eqn:Ew.
  destruct (write_now_spec _ _ _ _ _ _ _ O Hlen Ew) as
    (Hn & -> & Hc & _ & _ & _ & Hempty & Hf & _).
  rewrite Hr in Hf. subst fault.
  pose proof (write_now_pending _ _ _ _ _ _ O Hne Ew) as Hp. simpl in Hrun.
  destruct (0 <? zlen data - n) eqn:Er; reflect_bools.
  - destruct (high_water_frame self (zlen data - n) w1) as (Qc & Qs & Qr & Qt).
    pose proof (buffer_rest_spec self data n (high_water self (zlen data - n) w1)) as B.
    rewrite Qc, Hc, Hrun in B. specialize (B (proj1 O) ltac:(lia) Hlen).
    destruct B as (_ & _ & _ & _ & _ & _ & _ & Cb).
    assert (new = old + (zlen data - n)) as Hnew.
    { unfold new. rewrite Cb, zlen_app, zlen_drop. fold old. lia. }
    apply buffer_rest_pending in Hrun. rewrite Hrun, high_water_pending, Hp by
      (rewrite ?Hc; apply O || lia).
    rewrite Hc. fold old mark. rewrite <- Hnew, <- !app_assoc. f_equal.
    pose proof (zlen_nonneg (Buffer.content (outputBuffer_ (conn w)))) as H0'. fold old in H0'.
    replace (zlen data - n =? 0) with false by (symmetry; apply Z.eqb_neq; lia).
    replace (new =? 0) with false by (symmetry; apply Z.eqb_neq; lia).
    replace (old <? new) with true by (symmetry; apply Z.ltb_lt; lia).
    by rewrite andb_false_r.
  - injection Hrun as <-. rewrite Hp. f_equal. unfold new, old. rewrite Hc. fold old.
    rewrite Z.ltb_irrefl. simpl. rewrite app_nil_r.
    assert (0 < zlen data) by (pose proof (zlen_nonneg data); enough (zlen data <> 0) by lia;
      by intros ?%zlen_nil_inv).
    assert (old = 0) as -> by (unfold old; rewrite Hempty by (left; lia); done).
    rewrite bool_decide_eq_true_2 by (apply Hempty; left; lia).
    by replace (zlen data - n =? 0) with true by (symmetry; apply Z.eqb_eq; lia).
Qed.

(** A readability event is handled by what the kernel gives: bytes are
    appended to the input buffer, none lost or reordered even when they
    overflow its writable part, and the message callback is called with the
    poll's time; end of file closes the connection; an error is only logged
    and leaves the connection as it was. *)
Theorem handleRead_dispatch {U P E S R} `{Channel.POLLER P, EVENTFD E, SOCKET_LAWS S}
  self user t (w : Env U P E S R)
  (W : Buffer.wf (inputBuffer_ (conn w)))
  (Hmax : zlen (Buffer.buffer_ (inputBuffer_ (conn w))) + Buffer.extrabuf_size <= Buffer.max_size) :
  let '(r, s) := sk_readv (Buffer.readFd_iov (inputBuffer_ (conn w))) (sock w) in
  match r with
  | Buffer.Failed e => handleRead self user t w = Ret (set_sock s w)
  | Buffer.Done d => exists b, Buffer.wf b /\
      Buffer.content b = Buffer.content (inputBuffer_ (conn w)) ++ d /\
      let w1 := set_sock s (upd_conn (set_inputBuffer b) w) in
      handleRead self user t w =
        if bool_decide (d = []) then handleClose self user w1
        else call_user user (messageCallback_ (conn w1)) (OnMessage t) w1
  end.
Proof.
  pose proof (handleRead_ok self user t w W Hmax) as X.
  destruct (sk_readv _ _) as [[e|d] s]; [exact X|].
  destruct X as (b & Wb & _ & X). by exists b.
Qed.

(** A send from another thread binds the address of the characters of
    the caller's string, not a copy: when the caller's string is gone by the
    time the loop runs the functor, the functor reads freed memory.  The
    overload taking a [Buffer] binds a copy and sends the content whatever
    became of the caller's memory. *)
Theorem cross_thread_send_dangles {U P E S R} `{Channel.POLLER P, EVENTFD E, SOCKET S}
  self user tid ptr buf (b : Buffer.Buffer) (w : Env U P E S R)
  (Hst : state_ (conn w) = kConnected) (W : Buffer.wf b)
  (Htid : EventLoop.isInLoopThread tid (loop w) = false) :
  (exists w', send self tid ptr buf w = Ret w' /\
     pending w' = pending w ++ [SendInLoopPtr self ptr (zlen buf)] /\
     forall heap (w'' : Env U P E S R), heap ptr = None ->
       exec_functor self user heap (SendInLoopPtr self ptr (zlen buf)) w'' = Err UseAfterFree) /\
  (exists w', send_Buffer self tid b w = Ret (Buffer.retrieveAll b, w') /\
     pending w' = pending w ++ [SendInLoopStr self (Buffer.content b)] /\
     forall heap (w'' : Env U P E S R), exec_functor self user heap (SendInLoopStr self (Buffer.content b)) w'' =
       sendInLoop self (Buffer.content b) w'').
Proof.
  split.
  - unfold send. rewrite decide_True by done. rewrite Htid. unfold EventLoop.runInLoop.
    simpl. rewrite Htid. eexists. split; [done|]. split.
    + apply (queue_other_pending tid).
    + intros heap w'' Hh. simpl. by rewrite Hh.
  - unfold send_Buffer. rewrite decide_True by done. rewrite Htid.
    rewrite Buffer.retrieveAllAsString_ok by done. ostep. unfold EventLoop.runInLoop.
    simpl. rewrite Htid. eexists. split; [done|]. split; [|done].
    apply (queue_other_pending tid).
Qed.

(** *** A connection to evaluate on *)

Abbreviation demo_env := (Env nat (EPollPoller.EPollPoller kepoll) N tcp_socket unit).

(** A connection on descriptor 9 in loop 0 of thread 1, open, with a high
    water mark of 8 bytes; the kernel will take 3, then 2, then 100 bytes. *)
Definition demo_conn : TcpConnection nat :=
  let ch := Channel.set_index EPollPoller.kAdded
              (Channel.set_events 3 (Channel.new_Channel 0 9)) in
  let addr := InetAddress.new_InetAddress 8080 (str "127.0.0.1") in
  mkConn 0 (str "demo") kConnected true (Socket.mkSocket 9) ch addr addr
    (Some 0%nat) (Some 1%nat) (Some 2%nat) (Some 3%nat) (Some 4%nat) 8
    (Buffer.new_Buffer 16) (Buffer.new_Buffer 16).

Definition demo_epoll : EPollPoller.EPollPoller kepoll :=
  EPollPoller.set_channels {[9 := 5]}
    (EPollPoller.mkEPollPoller (Poller.new_Poller 0) {[9 := mkEvent 3 5]} 16).

Definition demo_w : demo_env :=
  mkEnv demo_conn
    (EventLoop.mkEventLoop true false false 1 0 demo_epoll 0%N (Channel.new_Channel 0 4) [] [])
    (mkTcpSocket [] false [3; 2; 100] [Buffer.Done (str "ping")]) tt.

Lemma demo_refines : refines_pipe ([], false) demo_w.
Proof. split_and!; try reflexivity; vm_compute; split_and!; reflexivity || discriminate. Qed.

Lemma tcp_no_reset : no_reset (S := tcp_socket).
Proof.
  intros d s s' e. simpl. destruct (ts_room s); [|done]. intros [= <- _].
  split; discriminate.
Qed.

(** The outcome of a run, or the initial state. *)
Definition result_of (r : outcome demo_env) : demo_env := default demo_w
  match r with Ret w => Some w | Err _ => None end.

Definition demo_run := [ApiSend (str "abcd"); ApiShutdown; ApiSend (str "x"); Writable].

Lemma connection_refines_pipe_witness :
  match run_apis 5 demo_run demo_w with
  | Ret w' => refines_pipe (str "abcd", true) w' /\ sk_shut (sock w') = true
  | Err _ => False
  end.
Proof.
  pose proof (connection_refines_pipe 5 demo_run ([], false) demo_w demo_refines
    ltac:(repeat constructor) ltac:(vm_compute; discriminate)) as X.
  assert (effective 5 demo_run demo_w = demo_run) as Eo by (vm_compute; reflexivity). rewrite Eo in X.
  assert ((w' ← run_apis 5 demo_run demo_w; mret (sk_shut (sock w'))) = Ret true) as E
    by (vm_compute; reflexivity).
  destruct (run_apis 5 demo_run demo_w) as [w'|f]; [|discriminate E].
  split; [exact X|]. by injection E.
Defined.

(** A kernel that takes everything. *)
Record greedy := mkGreedy { g_out : bytes; g_shut : bool }.

#[local] Instance greedy_ops : SOCKET greedy := {|
  sk_write d s := (Buffer.Done (zlen d), mkGreedy (g_out s ++ d) (g_shut s));
  sk_readv lens s := (Buffer.Failed EWOULDBLOCK, s);
  sk_shutdown s := (0, mkGreedy (g_out s) true);
  sk_so_error s := Buffer.Done 0;
  sk_out := g_out;
  sk_shut := g_shut
|}.

#[local] Instance greedy_laws : SOCKET_LAWS greedy.
Proof.
  split; simpl; try (intros; simplify_eq; done).
  intros d s n s' [= <- <-]. pose proof (zlen_nonneg d). split; [lia|].
  unfold zlen. by rewrite Nat2Z.id, firstn_all.
Qed.

(** The same connection closing with two bytes pending. *)
Definition draining_w : Env nat (EPollPoller.EPollPoller kepoll) N greedy unit :=
  let out := Buffer.mkBuffer (str "........hi") 8 10 in
  mkEnv (set_outputBuffer out (set_state kDisconnecting
           (set_channel (Channel.set_events 7 (channel_ demo_conn)) demo_conn)))
    (loop demo_w) (mkGreedy [] false) tt.

Lemma writable_events_drain_witness :
  match run_apis 5 (replicate 2 Writable) draining_w with
  | Err f => aborts (P := EPollPoller.EPollPoller kepoll) f
  | Ret w' => Buffer.content (outputBuffer_ (conn w')) = [] /\ sk_out (sock w') = str "hi" /\
              sk_shut (sock w') = true
  end.
Proof.
  apply (writable_events_drain 5 2 (str "hi", true) draining_w).
  - intros d s Hd. exists (zlen d), (mkGreedy (g_out s ++ d) (g_shut s)). split; [reflexivity|].
    destruct d; [done|]. unfold zlen. simpl. lia.
  - split_and!; try reflexivity; vm_compute; split_and!; reflexivity || discriminate.
  - vm_compute. discriminate.
Defined.

Lemma sendInLoop_notifications_witness :
  exists w', sendInLoop 5 (str "0123456789ab") demo_w = Ret w' /\
             pending w' = [HighWaterMark 4%nat 5 9].
Proof.
  destruct (sendInLoop 5 (str "0123456789ab") demo_w) as [w'|] eqn:E;
    [|vm_compute in E; discriminate].
  exists w'. split; [reflexivity|].
  assert (zlen (Buffer.content (outputBuffer_ (conn w'))) = 9) as L.
  { replace w' with (result_of (sendInLoop 5 (str "0123456789ab") demo_w)) by (by rewrite E).
    vm_compute. reflexivity. }
  pose proof (sendInLoop_notifications 5 (str "0123456789ab") demo_w w' ltac:(discriminate)
    (proj1 demo_refines) ltac:(discriminate) ltac:(reflexivity) ltac:(vm_compute; reflexivity)
    ltac:(vm_compute; discriminate) E) as X.
  cbv zeta in X. rewrite L in X. exact X.
Defined.

Lemma handleRead_dispatch_witness :
  let '(r, s) := sk_readv (Buffer.readFd_iov (inputBuffer_ (conn demo_w))) (sock demo_w) in
  match r with
  | Buffer.Failed e => handleRead 5 (fun _ _ w => Ret w) 77 demo_w = Ret (set_sock s demo_w)
  | Buffer.Done d => exists b, Buffer.wf b /\
      Buffer.content b = Buffer.content (inputBuffer_ (conn demo_w)) ++ d /\
      let w1 := set_sock s (upd_conn (set_inputBuffer b) demo_w) in
      handleRead 5 (fun _ _ w => Ret w) 77 demo_w =
        if bool_decide (d = []) then handleClose 5 (fun _ _ w => Ret w) w1
        else call_user (fun _ _ w => Ret w) (messageCallback_ (conn w1)) (OnMessage 77) w1
  end.
Proof.
  apply (handleRead_dispatch 5 (fun _ _ w => Ret w) 77 demo_w).
  - vm_compute. split_and!; discriminate.
  - vm_compute. discriminate.
Defined.

Lemma cross_thread_send_dangles_witness :
  exists w', send 5 2 4096 (str "hello") demo_w = Ret w' /\
     pending w' = pending demo_w ++ [SendInLoopPtr 5 4096 5] /\
     exec_functor 5 (fun _ _ w => Ret w) (fun _ => None) (SendInLoopPtr 5 4096 5) w' =
       Err UseAfterFree.
Proof.
  destruct (cross_thread_send_dangles 5 (fun _ _ w => Ret w) 2 4096 (str "hello")
    (Buffer.new_Buffer 16) demo_w) as [(w' & E & Hp & X) _].
  - reflexivity.
  - vm_compute. split_and!; discriminate.
  - reflexivity.
  - exists w'. split; [exact E|]. split; [exact Hp|]. apply (X (fun _ => None) w'). reflexivity.
Defined.

End TcpConnection.

#[export] Existing Instance TcpConnection.tcp_socket_ops.
#[export] Existing Instance TcpConnection.tcp_socket_laws.
#[export] Existing Instance TcpConnection.StateE_eq_dec.
