(* ===== verification/Threads.v ===== *)
(** * Threads and loop threads ([src/base/Thread.*],
    [src/net/EventLoopThread.*], [src/net/EventLoopThreadPool.*])

    A [Thread] is the bookkeeping around a [std::thread]; an [EventLoopThread]
    starts one that runs an event loop and hands the loop's address back
    through a condition variable, modelled as a step relation of the two
    threads; an [EventLoopThreadPool] starts several and hands them out round
    robin. *)

From S2P Require Import Prelude.

Module Thread.

(** The [std::thread] behind [thread_]: its id while it is joinable. *)
Record Thread (Fn : Type) := mkThread {
  started_ : bool;
  joined_ : bool;
  thread_ : option (option Z);   (** null, or a [std::thread] *)
  tid_ : Z;
  func_ : Fn;
  name_ : bytes
}.
Arguments mkThread {Fn}.
Arguments started_ {Fn}.
Arguments joined_ {Fn}.
Arguments thread_ {Fn}.
Arguments tid_ {Fn}.
Arguments func_ {Fn}.
Arguments name_ {Fn}.

Section Thread.
Context {Fn : Type}.
Implicit Types t : Thread Fn.

(** [num] is [++numCreated_], an atomic [int32_t] that wraps. *)
Definition next_num (numCreated_ : Z) : Z := i32 (numCreated_ + 1).

Definition setDefaultName (num : Z) (t : Thread Fn) : Thread Fn :=
  match name_ t with
  | [] => mkThread (started_ t) (joined_ t) (thread_ t) (tid_ t) (func_ t)
            (snprintf 32 (str "Thread" ++ fmt_d num))
  | _ => t
  end.

(** The new thread and the new value of [numCreated_]. *)
Definition new_Thread (func : Fn) (name : bytes) (numCreated_ : Z) : Thread Fn * Z :=
  let num := next_num numCreated_ in
  (setDefaultName num (mkThread false false None 0 func name), num).

(** [start]: the semaphore makes it return only when the new thread has
    stored its id [tid]. *)
Definition start (tid : Z) (t : Thread Fn) : Thread Fn :=
  mkThread true (joined_ t) (Some (Some tid)) tid (func_ t) (name_ t).

Definition join (t : Thread Fn) : outcome (Thread Fn) :=
  th ← deref NullDeref (thread_ t);
  _ ← deref SystemError th;
  mret (mkThread (started_ t) true (Some None) (tid_ t) (func_ t) (name_ t)).

(** [~Thread]: what is left to release of the [std::thread]; destroying a
    joinable one terminates the program. *)
Definition delete_Thread (t : Thread Fn) : outcome unit :=
  th ← (if started_ t && negb (joined_ t)
        then th ← deref NullDeref (thread_ t); _ ← deref SystemError th; mret (Some None)
        else mret (thread_ t));
  match th with Some (Some _) => Err Aborted | _ => mret tt end.

Definition started t : bool := started_ t.
Definition tid t : Z := tid_ t.
Definition name t : bytes := name_ t.
Definition numCreated (numCreated_ : Z) : Z := numCreated_.

(** ** Lemmas *)

Lemma started_has_thread t : started_ t = true -> joined_ t = false ->
  (exists tid, thread_ t = Some (Some tid)) -> delete_Thread t = Ret tt.
Proof. unfold delete_Thread. intros -> -> [tid ->]. done. Qed.

End Thread.
End Thread.

Module EventLoopThread.

Section EventLoopThread.
Context {Cb : Type}.

Record EventLoopThread := mkEventLoopThread {
  loop_ : option Z;
  exiting_ : bool;
  thread_ : Thread.Thread unit;      (** runs [threadFunc] of this object *)
  callback_ : option Cb
}.

Definition new_EventLoopThread (cb : option Cb) (name : bytes) (numCreated_ : Z)
    : EventLoopThread * Z :=
  let '(t, n) := Thread.new_Thread tt name numCreated_ in
  (mkEventLoopThread None false t cb, n).

(** [~EventLoopThread]: the loop it asks to quit, and the state after joining
    its thread. *)
Definition delete_EventLoopThread (e : EventLoopThread) : outcome (option Z * EventLoopThread) :=
  match loop_ e with
  | Some l =>
      t ← Thread.join (thread_ e);
      mret (Some l, mkEventLoopThread (loop_ e) true t (callback_ e))
  | None => mret (None, mkEventLoopThread None true (thread_ e) (callback_ e))
  end.

(** *** [startLoop] and [threadFunc] side by side

    Where the two threads are.  A critical section of [mutex_] is one step;
    [cond_.wait] may wake spuriously. *)
Inductive starter_pc := SStart | SCheck | SWaiting | SReturned (loop : Z).
Inductive worker_pc := WNotStarted | WCallback | WPublish | WLooping | WUnpublish | WDone.

Record shared := mkShared {
  loop_ptr : option Z;           (** the member [loop_] *)
  starter : starter_pc;
  worker : worker_pc;
  initialised : list Z           (** loops the user's callback has run on *)
}.

Context (callback : option Cb) (the_loop : Z).

Inductive step : shared -> shared -> Prop :=
  (** [startLoop] *)
  | step_start p i :
      step (mkShared p SStart WNotStarted i) (mkShared p SCheck WCallback i)
  | step_check_null w i :
      step (mkShared None SCheck w i) (mkShared None SWaiting w i)
  | step_check_set l w i :
      step (mkShared (Some l) SCheck w i) (mkShared (Some l) (SReturned l) w i)
  | step_spurious p w i :
      step (mkShared p SWaiting w i) (mkShared p SCheck w i)
  (** [threadFunc]: [EventLoop loop;], the callback, the publication with
      [notify_one], [loop.loop()], the final reset *)
  | step_callback p s i :
      step (mkShared p s WCallback i)
           (mkShared p s WPublish (match callback with Some _ => i ++ [the_loop] | None => i end))
  | step_publish p s i :
      step (mkShared p s WPublish i)
           (mkShared (Some the_loop) (match s with SWaiting => SCheck | _ => s end) WLooping i)
  | step_loop_returns p s i :
      step (mkShared p s WLooping i) (mkShared p s WUnpublish i)
  | step_unpublish p s i :
      step (mkShared p s WUnpublish i) (mkShared None s WDone i).

Definition start_state : shared := mkShared None SStart WNotStarted [].

(** The handshake's invariant. *)
Definition handshake (s : shared) : Prop :=
  match worker s with
  | WNotStarted => starter s = SStart /\ loop_ptr s = None /\ initialised s = []
  | WCallback => (starter s = SCheck \/ starter s = SWaiting) /\ loop_ptr s = None /\
      initialised s = []
  | WPublish => (starter s = SCheck \/ starter s = SWaiting) /\ loop_ptr s = None /\
      initialised s = match callback with Some _ => [the_loop] | None => [] end
  | WLooping | WUnpublish => (starter s = SCheck \/ starter s = SReturned the_loop) /\
      loop_ptr s = Some the_loop /\
      initialised s = match callback with Some _ => [the_loop] | None => [] end
  | WDone => starter s <> SStart /\ (forall l, starter s = SReturned l -> l = the_loop) /\
      loop_ptr s = None /\
      initialised s = match callback with Some _ => [the_loop] | None => [] end
  end.

Lemma handshake_step s s' : step s s' -> handshake s -> handshake s'.
Proof.
  unfold handshake. destruct 1; simpl; try (destruct w; naive_solver); try naive_solver.
Qed.

Lemma handshake_reachable s : rtc step start_state s -> handshake s.
Proof.
  intros R. assert (handshake start_state) as H0 by done. revert H0.
  induction R as [|x y z St _ IH]; [done|]. intros H0. apply IH. by eapply handshake_step.
Qed.

End EventLoopThread.
Arguments EventLoopThread : clear implicits.

(** C31: [startLoop] returns the address of the loop the new thread runs, and
    only after the user's init callback has run on it; while it is blocked on
    the condition variable the new thread has not published the loop yet (so
    its notification is still to come) or has already left its loop. *)
Theorem startLoop_handshake {Cb} (callback : option Cb) the_loop s
  (R : rtc (step callback the_loop) start_state s) :
  (forall l, starter s = SReturned l -> l = the_loop /\
     initialised s = match callback with Some _ => [the_loop] | None => [] end) /\
  (starter s = SWaiting ->
     worker s = WCallback \/ worker s = WPublish \/ worker s = WDone).
Proof.
  apply handshake_reachable in R. unfold handshake in R.
  split; [intros l Hl|intros Hw]; destruct (worker s); intuition (eauto; congruence).
Qed.

Lemma startLoop_handshake_witness :
  let s := mkShared (Some 7) (SReturned 7) WLooping [7] in
  (forall l, starter s = SReturned l -> l = 7 /\ initialised s = [7]) /\
  (starter s = SWaiting ->
     worker s = WCallback \/ worker s = WPublish \/ worker s = WDone).
Proof.
  apply (startLoop_handshake (Some tt) 7).
  eapply rtc_l; [apply step_start|]. eapply rtc_l; [apply step_check_null|].
  eapply rtc_l; [apply step_callback|]. eapply rtc_l; [apply step_publish|].
  apply rtc_once, step_check_set.
Defined.

End EventLoopThread.

Module EventLoopThreadPool.

Section EventLoopThreadPool.
Context {Cb : Type}.

Record EventLoopThreadPool := mkPool {
  baseLoop_ : Z;
  name_ : bytes;
  started_ : bool;
  numThreads_ : Z;
  next_ : Z;
  threads_ : list (EventLoopThread.EventLoopThread Cb);
  loops_ : list Z
}.

Definition new_EventLoopThreadPool (baseLoop : Z) (nameArg : bytes) : EventLoopThreadPool :=
  mkPool baseLoop nameArg false 0 0 [] [].

Definition setThreadNum (numThreads : Z) (p : EventLoopThreadPool) : EventLoopThreadPool :=
  mkPool (baseLoop_ p) (name_ p) (started_ p) numThreads (next_ p) (threads_ p) (loops_ p).

(** The name of thread [i]: [snprintf] into a buffer 32 bytes longer than
    the pool's name. *)
Definition thread_name (p : EventLoopThreadPool) (i : Z) : bytes :=
  snprintf (length (name_ p) + 32) (c_str (name_ p) ++ fmt_d i).

(** [startLoop i t] is what [t->startLoop()] gives for thread [i]: the loop's
    address ([startLoop_handshake]) and the started thread object. *)
Context (startLoop : Z -> EventLoopThread.EventLoopThread Cb ->
                     Z * EventLoopThread.EventLoopThread Cb).

Fixpoint start_threads (cb : option Cb) (idx : list Z) (numCreated_ : Z)
    (p : EventLoopThreadPool) : EventLoopThreadPool * Z :=
  match idx with
  | [] => (p, numCreated_)
  | i :: idx' =>
      let '(t, n) := EventLoopThread.new_EventLoopThread cb (thread_name p i) numCreated_ in
      let '(l, t') := startLoop i t in
      start_threads cb idx' n
        (mkPool (baseLoop_ p) (name_ p) (started_ p) (numThreads_ p) (next_ p)
           (threads_ p ++ [t']) (loops_ p ++ [l]))
  end.

(** The pool, [numCreated_], and the base loop when the callback runs on it. *)
Definition start (cb : option Cb) (numCreated_ : Z) (p : EventLoopThreadPool)
    : EventLoopThreadPool * Z * option Z :=
  let p1 := mkPool (baseLoop_ p) (name_ p) true (numThreads_ p) (next_ p) (threads_ p) (loops_ p) in
  let '(p2, n) := start_threads cb (map Z.of_nat (seq 0 (Z.to_nat (numThreads_ p)))) numCreated_ p1 in
  (p2, n, match cb with
          | Some _ => if numThreads_ p =? 0 then Some (baseLoop_ p) else None
          | None => None
          end).

(** Round robin; indexing past the vector is undefined. *)
Definition getNextLoop (p : EventLoopThreadPool) : outcome (Z * EventLoopThreadPool) :=
  match loops_ p with
  | [] => mret (baseLoop_ p, p)
  | _ =>
      loop ← deref OutOfBounds (loops_ p !! Z.to_nat (next_ p));
      let next := u64 (next_ p + 1) in
      mret (loop, mkPool (baseLoop_ p) (name_ p) (started_ p) (numThreads_ p)
                    (if zlen (loops_ p) <=? next then 0 else next) (threads_ p) (loops_ p))
  end.

Definition getAllLoops (p : EventLoopThreadPool) : list Z :=
  match loops_ p with [] => [baseLoop_ p] | _ => loops_ p end.

Definition started (p : EventLoopThreadPool) : bool := started_ p.
Definition name (p : EventLoopThreadPool) : bytes := name_ p.

(** [n] successive calls. *)
Fixpoint next_loops (n : nat) (p : EventLoopThreadPool)
    : outcome (list Z * EventLoopThreadPool) :=
  match n with
  | O => mret ([], p)
  | S n' =>
      '(l, p1) ← getNextLoop p;
      '(ls, p2) ← next_loops n' p1;
      mret (l :: ls, p2)
  end.

(** ** Lemmas *)

Lemma start_threads_loops cb idx n p :
  let p' := fst (start_threads cb idx n p) in
  length (loops_ p') = (length (loops_ p) + length idx)%nat /\
  length (threads_ p') = (length (threads_ p) + length idx)%nat /\
  next_ p' = next_ p /\ baseLoop_ p' = baseLoop_ p /\ started_ p' = started_ p.
Proof.
  revert n p. induction idx as [|i idx IH]; intros n p; [simpl; split_and!; done || lia|].
  cbn [start_threads]. destruct (EventLoopThread.new_EventLoopThread cb (thread_name p i) n) as [t m].
  destruct (startLoop i t) as [l t'].
  destruct (IH m (mkPool (baseLoop_ p) (name_ p) (started_ p) (numThreads_ p) (next_ p)
    (threads_ p ++ [t']) (loops_ p ++ [l]))) as (-> & -> & -> & -> & ->).
  simpl. rewrite !length_app. simpl. split_and!; done || lia.
Qed.

Lemma getNextLoop_ok p n :
  (0 < n)%nat -> length (loops_ p) = n -> zlen (loops_ p) < 2 ^ 63 ->
  0 <= next_ p < Z.of_nat n ->
  exists l, loops_ p !! Z.to_nat (next_ p) = Some l /\
    getNextLoop p = Ret (l, mkPool (baseLoop_ p) (name_ p) (started_ p) (numThreads_ p)
      ((next_ p + 1) mod Z.of_nat n) (threads_ p) (loops_ p)).
Proof.
  intros Hn Hl Hmax Hp. destruct (lookup_lt_is_Some_2 (loops_ p) (Z.to_nat (next_ p))) as [l Hl'];
    [lia|]. exists l. split; [done|]. unfold getNextLoop.
  destruct (loops_ p) as [|x xs] eqn:El; [simpl in *; lia|]. rewrite Hl'. ostep.
  unfold zlen in *. rewrite Hl in *. rewrite u64_small by lia. do 3 f_equal.
  destruct (Z.of_nat n <=? next_ p + 1) eqn:E; reflect_bools.
  - replace (next_ p + 1) with (Z.of_nat n) by lia. by rewrite Z_mod_same_full.
  - by rewrite Z.mod_small by lia.
Qed.

(** The loop handed out is one of the pool's, which stay as they are. *)
Lemma getNextLoop_in p l p' : getNextLoop p = Ret (l, p') ->
  (l = baseLoop_ p \/ l ∈ loops_ p) /\ baseLoop_ p' = baseLoop_ p /\ loops_ p' = loops_ p.
Proof.
  unfold getNextLoop. destruct (loops_ p) as [|x xs] eqn:El.
  - intros [= <- <-]. by split; [left|].
  - destruct ((x :: xs) !! _) as [y|] eqn:Ey; [|done]. ostep. intros [= <- <-].
    apply list_elem_of_lookup_2 in Ey. by split; [right|].
Qed.

Lemma next_loops_ok m : forall p n k,
  (0 < n)%nat -> length (loops_ p) = n -> zlen (loops_ p) < 2 ^ 63 ->
  next_ p = k mod Z.of_nat n -> 0 <= k ->
  exists p', next_loops m p =
    Ret (map (fun i => nth (Z.to_nat ((k + Z.of_nat i) mod Z.of_nat n)) (loops_ p) 0) (seq 0 m), p').
Proof.
  induction m as [|m IH]; intros p n k Hn Hl Hmax Hk Hk0; [by exists p|]. cbn [next_loops].
  destruct (getNextLoop_ok p n) as (l & El & ->); [done|done|done| |].
  { rewrite Hk. apply Z.mod_pos_bound. lia. }
  ostep. edestruct (IH (mkPool (baseLoop_ p) (name_ p) (started_ p) (numThreads_ p)
    ((next_ p + 1) mod Z.of_nat n) (threads_ p) (loops_ p)) n (k + 1)) as [p' ->]; try done.
  { cbn [next_]. rewrite Hk, Zplus_mod_idemp_l. done. }
  { lia. }
  ostep. exists p'. simpl. do 3 f_equal.
  - rewrite Z.add_0_r, <- Hk. symmetry. by apply nth_lookup_Some.
  - rewrite <- seq_shift, map_map. apply map_ext. intros i. do 3 f_equal. lia.
Qed.

End EventLoopThreadPool.
Arguments EventLoopThreadPool : clear implicits.

(** C30: after [start] with [n] threads the pool has [n] loops, and
    successive calls of [getNextLoop] return them in order, over and over,
    starting with the first: the vector is never indexed out of range and
    every loop gets its share. *)
Theorem getNextLoop_round_robin {Cb} startLoop cb baseLoop nameArg numCreated_ n m
  (Hn : 0 < n < 2 ^ 31) :
  let p := fst (fst (start (Cb := Cb) startLoop cb numCreated_
             (setThreadNum n (new_EventLoopThreadPool baseLoop nameArg)))) in
  zlen (loops_ p) = n /\
  exists p', next_loops m p =
    Ret (map (fun i => nth (Z.to_nat (Z.of_nat i mod n)) (loops_ p) 0) (seq 0 m), p').
Proof.
  unfold start. cbn zeta. destruct (start_threads _ _ _ _ _) as [p2 nc] eqn:E.
  pose proof (start_threads_loops startLoop cb
    (map Z.of_nat (seq 0 (Z.to_nat (numThreads_ (setThreadNum n (new_EventLoopThreadPool (Cb := Cb) baseLoop nameArg))))))
    numCreated_ (mkPool baseLoop nameArg true n 0 [] [])) as X.
  simpl in X, E. rewrite E in X. simpl in X. rewrite length_map, length_seq in X.
  destruct X as (Hl & _ & Hnext & _ & _). simpl.
  assert (zlen (loops_ p2) = n) as Hz by (unfold zlen; lia). split; [done|].
  destruct (next_loops_ok m p2 (Z.to_nat n) 0) as [p' X]; try lia.
  { rewrite Hnext. done. }
  exists p'. rewrite X. do 2 f_equal. apply map_ext. intros i.
  rewrite Z2Nat.id by lia. by rewrite Z.add_0_l.
Qed.

Lemma getNextLoop_round_robin_witness :
  let p := fst (fst (start (fun i t => (100 + i, t)) (@None unit) 0
             (setThreadNum 3 (new_EventLoopThreadPool 1 (str "pool"))))) in
  zlen (loops_ p) = 3 /\
  exists p', next_loops 5 p =
    Ret (map (fun i => nth (Z.to_nat (Z.of_nat i mod 3)) (loops_ p) 0) (seq 0 5), p').
Proof. apply (getNextLoop_round_robin _ None 1 (str "pool") 0 3 5). lia. Defined.

End EventLoopThreadPool.
