(* ===== verification/ThreadPool.v ===== *)
(** * The thread pool ([src/base/ThreadPool.*])

    The members the mutex protects, and where each worker is in
    [runInThread]; every critical section is one step, and a run is any
    interleaving of the callers' and the workers' steps.  A worker in
    [cond_.wait] leaves it when a notification names it, or spuriously. *)

From S2P Require Import Prelude Threads.

Module ThreadPool.

Section ThreadPool.
(** A task, and whether it throws. *)
Context {T : Type}.
Variable throws : T -> bool.

(** Where a worker is: before [threadInitCallback_], about to lock, in the
    wait, woken and about to lock again, running a task, returned, left
    through the [catch]. *)
Inductive worker := Fresh | Ready | Blocked | Woken | Running (t : option T) | Exited | Caught.

Record ThreadPool := mkThreadPool {
  name_ : bytes;
  threadInitCallback_ : option T;
  threads_ : list (Thread.Thread unit);
  workers : list worker;                 (** of [threads_], in order *)
  queue_ : list (option T);              (** an empty function is [None] *)
  running_ : bool;
  threadSize_ : option Z                 (** [None]: not initialised *)
}.

Definition new_ThreadPool (name : bytes) : ThreadPool :=
  mkThreadPool name None [] [] [] false None.

Definition setThreadInitCallback (cb : option T) (p : ThreadPool) : ThreadPool :=
  mkThreadPool (name_ p) cb (threads_ p) (workers p) (queue_ p) (running_ p) (threadSize_ p).

(** [size_t] from [const int&]. *)
Definition setThreadSize (num : Z) (p : ThreadPool) : ThreadPool :=
  mkThreadPool (name_ p) (threadInitCallback_ p) (threads_ p) (workers p) (queue_ p)
    (running_ p) (Some (u64 num)).

Definition name (p : ThreadPool) : bytes := name_ p.
Definition queueSize (p : ThreadPool) : nat := length (queue_ p).

(** The body of the loop of [start]: the new thread, the [i]-th one started.
    [tid] is the thread id the system gives. *)
Definition start_one (tid : Z) (i : nat) (num : Z) (p : ThreadPool) : outcome (ThreadPool * Z) :=
  let id := c_str (snprintf 32 (fmt_d (Z.of_nat i + 1))) in
  let '(t, num) := Thread.new_Thread tt (name_ p ++ id) num in
  let ts := threads_ p ++ [t] in
  t ← deref OutOfBounds (ts !! i);
  mret (mkThreadPool (name_ p) (threadInitCallback_ p) (<[i := Thread.start tid t]> ts)
    (workers p ++ [Fresh]) (queue_ p) (running_ p) (threadSize_ p), num).

Fixpoint start_loop (tids : nat -> Z) (i n : nat) (num : Z) (p : ThreadPool)
    : outcome (ThreadPool * Z) :=
  match n with
  | O => mret (p, num)
  | S n => r ← start_one (tids i) i num p; start_loop tids (S i) n (snd r) (fst r)
  end.

(** The flag is whether the callback runs in the caller. *)
Definition start (tids : nat -> Z) (num : Z) (p : ThreadPool) : outcome (ThreadPool * Z * bool) :=
  n ← deref OutOfBounds (threadSize_ p);
  let p := mkThreadPool (name_ p) (threadInitCallback_ p) (threads_ p) (workers p) (queue_ p)
    true (threadSize_ p) in
  r ← start_loop tids 0 (Z.to_nat n) num p;
  mret (r, (n =? 0) && bool_decide (is_Some (threadInitCallback_ p))).

(** ** Steps *)

Definition set_workers (ws : list worker) (p : ThreadPool) : ThreadPool :=
  mkThreadPool (name_ p) (threadInitCallback_ p) (threads_ p) ws (queue_ p) (running_ p)
    (threadSize_ p).
Definition set_queue (q : list (option T)) (p : ThreadPool) : ThreadPool :=
  mkThreadPool (name_ p) (threadInitCallback_ p) (threads_ p) (workers p) q (running_ p)
    (threadSize_ p).

Definition wake (w : worker) : worker := match w with Blocked => Woken | _ => w end.

Definition is_blocked (w : worker) : bool := match w with Blocked => true | _ => false end.
Definition is_woken (w : worker) : bool := match w with Woken => true | _ => false end.

(** [cond_.notify_one()] wakes one waiting worker if there is one; [hint] is
    the one the system would choose. *)
Fixpoint wake_first (ws : list worker) : list worker :=
  match ws with
  | [] => []
  | Blocked :: ws => Woken :: ws
  | w :: ws => w :: wake_first ws
  end.

Definition notify_one (hint : nat) (ws : list worker) : list worker :=
  match ws !! hint with
  | Some Blocked => <[hint := Woken]> ws
  | _ => wake_first ws
  end.

Definition notify_all (ws : list worker) : list worker := wake <$> ws.

Definition add (hint : nat) (task : option T) (p : ThreadPool) : ThreadPool :=
  set_workers (notify_one hint (workers p)) (set_queue (queue_ p ++ [task]) p).

Definition stop (p : ThreadPool) : ThreadPool :=
  mkThreadPool (name_ p) (threadInitCallback_ p) (threads_ p) (notify_all (workers p))
    (queue_ p) false (threadSize_ p).

(** Running a task, or the callback, of a worker. *)
Definition after (t : option T) : worker :=
  match t with
  | Some f => if throws f then Caught else Ready
  | None => Ready
  end.

(** What a worker does next: its new place, and the rest of the queue. *)
Definition work (p : ThreadPool) (w : worker) : worker * list (option T) :=
  match w with
  | Fresh => (after (threadInitCallback_ p), queue_ p)
  | Ready | Woken | Blocked =>
      match queue_ p with
      | [] => (if running_ p then Blocked else Exited, [])
      | t :: q => (Running t, q)
      end
  | Running t => (after t, queue_ p)
  | Exited | Caught => (w, queue_ p)
  end.

Definition runInThread (i : nat) (p : ThreadPool) : ThreadPool :=
  match workers p !! i with
  | Some w =>
      let '(w', q) := work p w in set_queue q (set_workers (<[i := w']> (workers p)) p)
  | None => p
  end.

Inductive label := Add (hint : nat) (task : option T) | Stop | Work (i : nat).

(** The pool, the tasks dequeued and those that have been run, in order. *)
Record Sys := mkSys {
  pool : ThreadPool;
  taken : list (option T);
  finished : list (option T)
}.

Definition step (l : label) (s : Sys) : Sys :=
  match l with
  | Add hint task => mkSys (add hint task (pool s)) (taken s) (finished s)
  | Stop => mkSys (stop (pool s)) (taken s) (finished s)
  | Work i =>
      let p := pool s in
      mkSys (runInThread i p)
        (taken s ++ match workers p !! i with
                    | Some (Ready | Woken | Blocked) => take 1 (queue_ p)
                    | _ => []
                    end)
        (finished s ++ match workers p !! i with
                       | Some (Running t) => [t]
                       | _ => []
                       end)
  end.

Definition run (ls : list label) (s : Sys) : Sys := fold_left (fun s l => step l s) ls s.

(** [~ThreadPool]: [stop], then [join] every thread. *)
Fixpoint join_all (ts : list (Thread.Thread unit)) : outcome (list (Thread.Thread unit)) :=
  match ts with
  | [] => mret []
  | t :: ts => t ← Thread.join t; ts ← join_all ts; mret (t :: ts)
  end.

Definition delete_ThreadPool (p : ThreadPool) : outcome ThreadPool :=
  let p := stop p in
  ts ← join_all (threads_ p);
  mret (mkThreadPool (name_ p) (threadInitCallback_ p) ts (workers p) (queue_ p)
    (running_ p) (threadSize_ p)).

(** ** What the runs keep *)

Definition added (l : label) : list (option T) := match l with Add _ t => [t] | _ => [] end.

Definition in_hand (w : worker) : list (option T) := match w with Running t => [t] | _ => [] end.

Definition count (f : worker -> bool) (ws : list worker) : nat := length (filter (fun w => f w = true) ws).

(** The queue is what was added and not yet taken; what was taken has run or
    is in a worker's hands; while a worker waits, there is a woken worker for
    every task in the queue; nobody waits once the pool is stopped. *)
Record inv (s : Sys) : Prop := {
  inv_hand : finished s ++ concat (in_hand <$> workers (pool s)) ≡ₚ taken s;
  inv_woken : count is_blocked (workers (pool s)) <> 0%nat ->
    (length (queue_ (pool s)) <= count is_woken (workers (pool s)))%nat;
  inv_stopped : running_ (pool s) = false -> count is_blocked (workers (pool s)) = 0%nat
}.

End ThreadPool.
End ThreadPool.

Module ThreadPoolLemmas.
Import ThreadPool.

Section ThreadPoolLemmas.
Context {T : Type}.
Variable throws : T -> bool.
Implicit Types (p : @ThreadPool T) (ws : list (@worker T)) (s : @Sys T).

(** ** Counting workers *)

Lemma count_app f ws us : count f (ws ++ us) = (count f ws + count f us)%nat.
Proof. unfold count. by rewrite filter_app, length_app. Qed.

Lemma count_cons f w ws : count f (w :: ws) = ((if f w then 1 else 0) + count f ws)%nat.
Proof. unfold count. rewrite filter_cons. case_decide as E; [by rewrite E|]. by destruct (f w). Qed.

(** Replacing one worker moves the count by the two workers' own. *)
Lemma count_insert f ws i w w' :
  ws !! i = Some w ->
  (count f (<[i := w']> ws) + (if f w then 1 else 0) = count f ws + (if f w' then 1 else 0))%nat.
Proof.
  intros H. rewrite insert_take_drop by (by eapply lookup_lt_Some).
  rewrite <- (take_drop_middle ws i w H) at 3. rewrite !count_app, !count_cons. lia.
Qed.

Lemma hand_insert ws i w w' :
  ws !! i = Some w ->
  concat (in_hand <$> <[i := w']> ws) ++ in_hand w ≡ₚ concat (in_hand <$> ws) ++ in_hand w'.
Proof.
  intros H. rewrite insert_take_drop by (by eapply lookup_lt_Some).
  rewrite <- (take_drop_middle ws i w H) at 3. rewrite !fmap_app, !concat_app.
  cbn [fmap list_fmap concat]. solve_Permutation.
Qed.

(** A notification turns a waiting worker into a woken one. *)
Lemma wake_first_spec ws :
  (count is_blocked ws = 0%nat -> wake_first ws = ws) /\
  (count is_blocked ws <> 0%nat ->
    count is_blocked (wake_first ws) = pred (count is_blocked ws) /\
    count is_woken (wake_first ws) = S (count is_woken ws)) /\
  in_hand <$> wake_first ws = in_hand <$> ws.
Proof.
  induction ws as [|w ws (IH1 & IH2 & IH3)]; [done|].
  destruct w; cbn [wake_first fmap list_fmap]; rewrite !count_cons; cbn [is_blocked is_woken];
    split_and!; try (intros; f_equal; by auto); try (intros; lia); try (by f_equal);
    try (intros H; destruct (IH2 H) as [-> ->]; lia).
Qed.

Lemma notify_one_spec hint ws :
  (count is_blocked ws = 0%nat -> notify_one hint ws = ws) /\
  (count is_blocked ws <> 0%nat ->
    count is_blocked (notify_one hint ws) = pred (count is_blocked ws) /\
    count is_woken (notify_one hint ws) = S (count is_woken ws)) /\
  concat (in_hand <$> notify_one hint ws) ≡ₚ concat (in_hand <$> ws).
Proof.
  unfold notify_one. pose proof (wake_first_spec ws) as (H1 & H2 & H3).
  destruct (ws !! hint) as [w|] eqn:E; [|by rewrite H3].
  destruct w; try (by rewrite H3).
  pose proof (count_insert is_blocked ws hint _ Woken E) as C1.
  pose proof (count_insert is_woken ws hint _ Woken E) as C2.
  pose proof (hand_insert ws hint _ Woken E) as C3.
  cbn [is_blocked is_woken in_hand] in *. rewrite !app_nil_r in C3.
  split_and!; [intros; lia|intros; lia|done].
Qed.

Lemma notify_all_spec ws :
  count is_blocked (notify_all ws) = 0%nat /\ in_hand <$> notify_all ws = in_hand <$> ws.
Proof.
  induction ws as [|w ws [IH1 IH2]]; [done|]. unfold notify_all in *. cbn [fmap list_fmap].
  rewrite count_cons, IH1, IH2. by destruct w.
Qed.

(** ** Steps *)

Lemma hand_step (fin old new a b tk : list (option T)) :
  fin ++ old ≡ₚ tk -> new ++ a ≡ₚ old ++ b -> (fin ++ a) ++ new ≡ₚ tk ++ b.
Proof.
  intros H1 H2. rewrite <- H1, <- !app_assoc, <- H2. by rewrite (Permutation_app_comm a).
Qed.

Lemma inv_work i s : inv s -> inv (step throws (Work i) s).
Proof.
  intros [Hh Hw Hs]. destruct s as [p tk fin]. cbn [pool taken finished step] in *.
  unfold runInThread. destruct (workers p !! i) as [w|] eqn:E.
  2:{ rewrite !app_nil_r. by split. }
  destruct (work throws p w) as [w' q] eqn:Ew.
  pose proof (count_insert is_blocked (workers p) i w w' E) as C1.
  pose proof (count_insert is_woken (workers p) i w w' E) as C2.
  pose proof (hand_insert (workers p) i w w' E) as C3.
  assert (after_not : forall t, is_blocked (after throws t) = false /\
    is_woken (after throws t) = false /\ in_hand (after throws t) = []).
  { intros [f|]; cbn; [|done]. by destruct (throws f). }
  destruct w; cbn [work] in Ew;
    try (destruct (queue_ p) as [|t q0] eqn:Eq; [destruct (running_ p) eqn:Er|]);
    injection Ew as <- <-;
    try (destruct (after_not (threadInitCallback_ p)) as (A1 & A2 & A3); rewrite ?A1, ?A2, ?A3 in *);
    try (destruct (after_not t) as (B1 & B2 & B3); rewrite ?B1, ?B2, ?B3 in *);
    cbn [is_blocked is_woken in_hand] in C1, C2, C3;
    (split; cbn [pool taken finished set_queue set_workers workers queue_ running_ take];
     [exact (hand_step _ _ _ _ _ _ Hh C3)
     |intros; cbn [length] in *; try lia
     |intros; try (specialize (Hs ltac:(done))); try congruence; lia]).
Qed.

Lemma pool_inv_step l s : inv s -> inv (step throws l s).
Proof.
  destruct l as [hint t| |i]; [| |apply inv_work]; intros [Hh Hw Hs];
    destruct s as [p tk fin]; cbn [pool taken finished step] in *.
  - pose proof (notify_one_spec hint (workers p)) as (N1 & N2 & N3).
    unfold add. split; cbn [pool taken finished set_queue set_workers workers queue_ running_].
    + by rewrite N3.
    + intros Hb. rewrite length_app. cbn [length].
      destruct (decide (count is_blocked (workers p) = 0%nat)) as [E|E].
      * by rewrite N1 in Hb.
      * destruct (N2 E) as [_ ->]. specialize (Hw E). lia.
    + intros Hr. specialize (Hs Hr). by rewrite N1.
  - pose proof (notify_all_spec (workers p)) as [N1 N2].
    unfold stop. split; cbn [pool taken finished workers queue_ running_].
    + by rewrite N2.
    + intros Hb. lia.
    + done.
Qed.

Lemma pool_inv_run ls s : inv s -> inv (run throws ls s).
Proof.
  unfold run. revert s. induction ls as [|l ls IH]; intros s Hi; [done|].
  apply IH, pool_inv_step, Hi.
Qed.

(** The queue is first-in first-out. *)
Lemma step_queue l s :
  taken (step throws l s) ++ queue_ (pool (step throws l s)) =
  taken s ++ queue_ (pool s) ++ added l.
Proof.
  destruct s as [p tk fin], l as [hint t| |i]; cbn [step pool taken added].
  - done.
  - by rewrite app_nil_r.
  - unfold runInThread. rewrite app_nil_r.
    destruct (workers p !! i) as [w|]; [|by rewrite app_nil_r].
    destruct w; cbn [work]; try (destruct (queue_ p) as [|t0 q0] eqn:Eq);
      cbn [set_queue set_workers queue_ take]; rewrite ?app_nil_r, <- ?app_assoc, ?Eq; done.
Qed.

Lemma run_queue ls s :
  taken (run throws ls s) ++ queue_ (pool (run throws ls s)) =
  taken s ++ queue_ (pool s) ++ concat (added <$> ls).
Proof.
  unfold run. revert s. induction ls as [|l ls IH]; intros s; cbn [fold_left].
  - by rewrite app_nil_r.
  - rewrite IH, app_assoc, step_queue, <- !app_assoc. done.
Qed.

(** ** Draining: a worker of a stopped pool runs what is queued *)

Definition safe (t : option T) : Prop := forall f, t = Some f -> throws f = false.

Lemma after_safe t : safe t -> after throws t = Ready.
Proof. destruct t as [f|]; cbn; [|done]. intros H. by rewrite (H f eq_refl). Qed.

Lemma take_and_run i s t q :
  queue_ (pool s) = t :: q -> workers (pool s) !! i = Some Ready -> safe t ->
  let s2 := step throws (Work i) (step throws (Work i) s) in
  queue_ (pool s2) = q /\ running_ (pool s2) = running_ (pool s) /\
  workers (pool s2) !! i = Some Ready /\ finished s2 = finished s ++ [t].
Proof.
  destruct s as [p tk fin]. cbn [pool]. intros Eq Hw Ht.
  pose proof (lookup_lt_Some _ _ _ Hw) as Hi.
  cbn [step pool taken finished]. unfold runInThread. rewrite Hw. cbn [work]. rewrite Eq.
  cbn [set_queue set_workers queue_ workers pool running_].
  rewrite list_lookup_insert_eq by done. cbn [work]. rewrite after_safe by done.
  cbn [set_queue set_workers queue_ workers pool running_].
  rewrite list_insert_insert_eq, list_lookup_insert_eq by done. by rewrite app_nil_r.
Qed.

Lemma exit_when_empty i s :
  queue_ (pool s) = [] -> running_ (pool s) = false -> workers (pool s) !! i = Some Ready ->
  let s' := step throws (Work i) s in
  queue_ (pool s') = [] /\ workers (pool s') !! i = Some Exited /\ finished s' = finished s.
Proof.
  destruct s as [p tk fin]. cbn [pool]. intros Eq Hr Hw.
  cbn [step pool taken finished]. unfold runInThread. rewrite Hw. cbn [work]. rewrite Eq, Hr.
  cbn [set_queue set_workers queue_ workers]. rewrite app_nil_r.
  rewrite list_lookup_insert_eq by (by eapply lookup_lt_Some). done.
Qed.

Lemma drain i q s :
  queue_ (pool s) = q -> running_ (pool s) = false -> workers (pool s) !! i = Some Ready ->
  Forall safe q ->
  let s' := run throws (replicate (2 * length q + 1) (Work i)) s in
  queue_ (pool s') = [] /\ workers (pool s') !! i = Some Exited /\
  finished s' = finished s ++ q.
Proof.
  intros Eq Hr Hw Hq. revert s Eq Hr Hw. induction Hq as [|t q Ht Hq IH]; intros s Eq Hr Hw.
  - destruct (exit_when_empty i s Eq Hr Hw) as (H1 & H2 & H3). by rewrite app_nil_r.
  - destruct (take_and_run i s t q Eq Hw Ht) as (H1 & H2 & H3 & H4).
    replace (2 * length (t :: q) + 1)%nat with (S (S (2 * length q + 1))) by (cbn; lia).
    rewrite Hr in H2. destruct (IH _ H1 H2 H3) as (K1 & K2 & K3).
    split_and!; [exact K1|exact K2|]. rewrite cons_middle, app_assoc, <- H4. exact K3.
Qed.

(** ** Starting *)

(** Thread number [k] of the pool, started. *)
Definition started_thread (tids : nat -> Z) (nm : bytes) (k : nat) : Thread.Thread unit :=
  Thread.start (tids k) (Thread.mkThread false false None 0 tt (nm ++ fmt_d (Z.of_nat k + 1))).

Lemma start_one_ok tids i num p :
  length (threads_ p) = i -> Z.of_nat i < 2 ^ 31 - 1 ->
  start_one (tids i) i num p =
    Ret (mkThreadPool (name_ p) (threadInitCallback_ p)
      (threads_ p ++ [started_thread tids (name_ p) i]) (workers p ++ [Fresh]) (queue_ p)
      (running_ p) (threadSize_ p), Thread.next_num num).
Proof.
  intros Hi Hb. unfold start_one. rewrite c_str_fmt_d by lia.
  unfold Thread.new_Thread, Thread.setDefaultName. cbn [Thread.name_].
  pose proof (fmt_d_nonempty (Z.of_nat i + 1) ltac:(lia)) as Hne.
  destruct (name_ p ++ fmt_d (Z.of_nat i + 1)) as [|c nm] eqn:En.
  { by apply app_eq_nil in En as [_ ?]. }
  rewrite lookup_app_r, Hi, Nat.sub_diag by lia. cbn [lookup list_lookup]. ostep. do 3 f_equal.
  rewrite insert_app_r_alt, Hi, Nat.sub_diag by lia.
  unfold started_thread. by rewrite En.
Qed.

Lemma start_loop_ok tids n i num p :
  length (threads_ p) = i -> Z.of_nat (i + n) < 2 ^ 31 -> exists p' num',
    start_loop tids i n num p = Ret (p', num') /\
    workers p' = workers p ++ replicate n Fresh /\
    threads_ p' = threads_ p ++ (started_thread tids (name_ p) <$> seq i n) /\
    queue_ p' = queue_ p /\ running_ p' = running_ p.
Proof.
  revert i num p. induction n as [|n IH]; intros i num p Hi Hb.
  - exists p, num. cbn. by rewrite !app_nil_r.
  - cbn [start_loop]. rewrite start_one_ok by (done || lia). ostep. cbn [fst snd].
    match goal with |- context [start_loop tids (S i) n ?m ?q] =>
      destruct (IH (S i) m q) as (p' & num' & E & Hw & Ht & Hq & Hr) end.
    { cbn. rewrite length_app. cbn. lia. }
    { lia. }
    exists p', num'. cbn [workers threads_ queue_ running_ name_] in *.
    rewrite Hw, Ht, <- !app_assoc. by split_and!.
Qed.

End ThreadPoolLemmas.
End ThreadPoolLemmas.

Module ThreadPoolProps.
Import ThreadPool ThreadPoolLemmas.

(** C17: a pool started with [n] threads has [n] threads named after it, and
    under every interleaving of [add], [stop] and the workers' steps tasks are
    dequeued in the order they were added, each dequeued task is run once
    (what was dequeued has run or is being run), no wake-up is lost (while a
    worker waits there are at least as many woken workers as queued tasks), and
    after [stop] nobody waits and any one ready worker runs everything that is
    still queued, in order, before it returns (when no queued task throws). *)
Theorem pool_runs_tasks {T} (throws : T -> bool) (nm : bytes) (cb : option T) (n : Z)
    (tids : nat -> Z) (num : Z) :
  0 <= n < 2 ^ 31 -> exists p num' b,
    start tids num (setThreadSize n (setThreadInitCallback cb (new_ThreadPool nm))) =
      Ret (p, num', b) /\
    workers p = replicate (Z.to_nat n) Fresh /\
    Thread.name_ <$> threads_ p =
      (fun k => nm ++ fmt_d (Z.of_nat k + 1)) <$> seq 0 (Z.to_nat n) /\
    forall ls, let s := run throws ls (mkSys p [] []) in
      concat (added <$> ls) = taken s ++ queue_ (pool s) /\
      finished s ++ concat (in_hand <$> workers (pool s)) ≡ₚ taken s /\
      (count is_blocked (workers (pool s)) <> 0%nat ->
        (length (queue_ (pool s)) <= count is_woken (workers (pool s)))%nat) /\
      (running_ (pool s) = false ->
        count is_blocked (workers (pool s)) = 0%nat /\
        forall i, workers (pool s) !! i = Some Ready -> Forall (safe throws) (queue_ (pool s)) ->
          let s' := run throws (replicate (2 * length (queue_ (pool s)) + 1) (Work i)) s in
          queue_ (pool s') = [] /\ workers (pool s') !! i = Some Exited /\
          finished s' = finished s ++ queue_ (pool s)).
Proof.
  intros Hn. unfold start, setThreadSize, setThreadInitCallback, new_ThreadPool.
  cbn [threadSize_ name_ threadInitCallback_ threads_ workers queue_ running_].
  rewrite u64_small by lia. ostep.
  match goal with |- context [start_loop tids 0 ?k num ?q] =>
    destruct (start_loop_ok tids k 0 num q) as (p & num' & -> & Hw & Ht & Hq & Hr) end;
    [done|lia|].
  ostep. exists p, num'. eexists. cbn [workers threads_ queue_ running_ name_ app] in *.
  split; [done|]. split; [done|]. split.
  { rewrite Ht, <- list_fmap_compose. done. }
  assert (inv (mkSys p [] [])) as Hi.
  { assert (count is_blocked (workers p) = 0%nat) as Hb.
    { rewrite Hw. generalize (Z.to_nat n). intros k. by induction k. }
    split; cbn [pool taken finished]; [|by rewrite Hb|done].
    rewrite Hw. generalize (Z.to_nat n). intros k. by induction k. }
  intros ls. destruct (pool_inv_run throws ls _ Hi) as [I1 I2 I3]. split_and!; [|done|done|].
  - symmetry. rewrite run_queue. cbn [pool taken]. by rewrite Hq.
  - intros Hs. split; [by apply I3|]. intros i Hi' Hq'. by apply drain.
Qed.

(** ** Witness: two workers, of which one runs everything left after a stop *)

Definition demo_labels : list (@label nat) :=
  [Work 0; Work 0; Add 0 (Some 1%nat); Work 1; Add 1 None; Add 0 (Some 2%nat); Work 0; Stop; Work 0].

Lemma pool_runs_tasks_witness : exists p num' b,
  start (fun i => 100 + Z.of_nat i) 0 (setThreadSize 2 (new_ThreadPool (str "pool"))) =
    Ret (p, num', b) /\
  Thread.name_ <$> threads_ p = [str "pool1"; str "pool2"] /\
  let s := run (fun _ => false) demo_labels (mkSys p [] []) in
  taken s = [Some 1%nat] /\ queue_ (pool s) = [None; Some 2%nat] /\
  let s' := run (fun _ => false) (replicate 5 (Work 0)) s in
  queue_ (pool s') = [] /\ finished s' = [Some 1%nat; None; Some 2%nat].
Proof.
  destruct (pool_runs_tasks (fun _ : nat => false) (str "pool") None 2
    (fun i => 100 + Z.of_nat i) 0) as (p & num' & b & E & _ & _).
  - lia.
  - exists p, num', b. split; [exact E|]. clear -E. vm_compute in E. injection E as <- _ _.
    vm_compute. split_and!; reflexivity.
Defined.

End ThreadPoolProps.
