(* ===== verification/TcpServer.v ===== *)
(** * Acceptor and TcpServer ([src/net/Acceptor.*], [src/net/TcpServer.*])

    The server owns the listening channel and the map of connections; the
    [World] is what its operations work on: the server, every event loop and
    every connection object with its socket.  [on_conn] runs an operation of
    [TcpConnection] on the connection at an address, in the loop it belongs
    to. *)

From S2P Require Import Prelude Buffer Channel Poller EventLoop Socket TcpConnection Threads.

Module Acceptor.

Definition EMFILE : Z := 24.

Section Acceptor.
Context {F P E NC : Type} `{Channel.POLLER P, EVENTFD E}.

Record Acceptor := mkAcceptor {
  loop_ : Z;
  acceptSocket_ : Socket.Socket;
  acceptChannel_ : Channel.Channel chan_cb;
  NewConnectionCallback_ : option NC;
  listenning_ : bool
}.

(** [socket] returned [sockfd]. *)
Definition createNonblocking (sockfd : Z) : outcome Z :=
  check (0 <=? sockfd) Aborted;; mret sockfd.

(** The acceptor and the socket options it set, in order. *)
Definition new_Acceptor (loop sockfd bind_ret : Z) (reuseport : bool)
    : outcome (Acceptor * list (Z * Socket.sockopt)) :=
  fd ← createNonblocking sockfd;
  let sock := Socket.mkSocket fd in
  let ch := Channel.new_Channel loop fd in
  let opts := [Socket.setReuseAddr reuseport sock; Socket.setReusePort true sock] in
  Socket.bindAddress bind_ret sock;;
  mret (mkAcceptor loop sock (Channel.setReadCallback AcceptRead ch) None false, opts).

Definition set_acceptChannel (ch : Channel.Channel chan_cb) (a : Acceptor) : Acceptor :=
  mkAcceptor (loop_ a) (acceptSocket_ a) ch (NewConnectionCallback_ a) (listenning_ a).

Definition setNewConnectionCallback (cb : option NC) (a : Acceptor) : Acceptor :=
  mkAcceptor (loop_ a) (acceptSocket_ a) (acceptChannel_ a) cb (listenning_ a).

Definition listenning (a : Acceptor) : bool := listenning_ a.

(** [~Acceptor], at address [self] of its channel. *)
Definition delete_Acceptor (self : Z) (a : Acceptor) (l : EventLoop.EventLoop F P E chan_cb)
    : outcome (EventLoop.EventLoop F P E chan_cb) :=
  '(c1, p1) ← Channel.disableAll self (acceptChannel_ a) (EventLoop.poller_ l);
  '(c2, p2) ← Channel.remove self c1 p1;
  mret (EventLoop.set_poller p2 l).

(** [listen(2)] returned [ret]. *)
Definition listen (self ret : Z) (a : Acceptor) (l : EventLoop.EventLoop F P E chan_cb)
    : outcome (Acceptor * EventLoop.EventLoop F P E chan_cb) :=
  Socket.listen ret (acceptSocket_ a);;
  '(c, p) ← Channel.enableReading self (acceptChannel_ a) (EventLoop.poller_ l);
  mret (mkAcceptor (loop_ a) (acceptSocket_ a) c (NewConnectionCallback_ a) true,
        EventLoop.set_poller p l).

(** What [handleRead] does with what [accept4] returned. *)
Inductive accepted :=
  | CallNewConnection (cb : NC) (connfd : Z) (peer : InetAddress.InetAddress)
  | CloseFd (connfd : Z)
  | LogAcceptError (limit : bool).

Definition handleRead (connfd errno : Z) (addr : InetAddress.sockaddr_in) (a : Acceptor)
    : accepted :=
  let peerAddr := InetAddress.new_InetAddress 0 (str "127.0.0.1") in
  let '(fd, peer) := Socket.accept connfd addr peerAddr (acceptSocket_ a) in
  if 0 <=? fd then
    match NewConnectionCallback_ a with
    | Some cb => CallNewConnection cb fd peer
    | None => CloseFd fd
    end
  else LogAcceptError (errno =? EMFILE).

End Acceptor.
Arguments Acceptor : clear implicits.

End Acceptor.

Module TcpServer.

(** The callbacks of a connection: the user's, or the server's
    [removeConnection] bound as close callback. *)
Inductive conn_cb (V : Type) :=
  | UserCb (v : V)
  | RemoveConnectionCb.
Arguments UserCb {V} v.
Arguments RemoveConnectionCb {V}.

(** [TcpServer::newConnection] bound in the acceptor. *)
Inductive accept_cb := NewConnectionCb.

Inductive Option_ := kNoReusePort | kReusePort.

Section TcpServer.
(** User callbacks, thread init callbacks, poller, eventfd, socket. *)
Context {V Cb P E S : Type} `{Channel.POLLER P, EVENTFD E, SOCKET S}.

Record TcpServer := mkTcpServer {
  loop_ : Z;
  ipPort_ : bytes;
  name_ : bytes;
  acceptor_ : Acceptor.Acceptor accept_cb;
  threadPool_ : EventLoopThreadPool.EventLoopThreadPool Cb;
  connectionCallback_ : option V;
  messageCallback_ : option V;
  writeCompleteCallback_ : option V;
  threadInitCallback_ : option Cb;
  started_ : Z;
  nextConnId_ : Z;
  connections_ : gmap bytes Z
}.

Definition CheckLoopNotNull (loop : option Z) : outcome Z := deref Aborted loop.

(** The constructor; [sockfd] and [bind_ret] are what the system calls of the
    acceptor returned. *)
Definition new_TcpServer (inet_ntop : Z -> bytes) (loop : option Z)
    (listenAddr : InetAddress.InetAddress) (nameArg : bytes) (option : Option_)
    (sockfd bind_ret : Z) : outcome (TcpServer * list (Z * Socket.sockopt)) :=
  l ← CheckLoopNotNull loop;
  ipPort ← InetAddress.toIpPort inet_ntop listenAddr;
  '(acc, opts) ← Acceptor.new_Acceptor l sockfd bind_ret
                   (match option with kReusePort => true | kNoReusePort => false end);
  mret (mkTcpServer l ipPort nameArg
          (Acceptor.setNewConnectionCallback (Some NewConnectionCb) acc)
          (EventLoopThreadPool.new_EventLoopThreadPool l nameArg)
          None None None None 0 1 ∅, opts).

Definition set_callbacks (ti : option Cb) (cn ms wc : option V) (s : TcpServer) : TcpServer :=
  mkTcpServer (loop_ s) (ipPort_ s) (name_ s) (acceptor_ s) (threadPool_ s) cn ms wc ti
    (started_ s) (nextConnId_ s) (connections_ s).
Definition setThreadInitCallback (cb : option Cb) (s : TcpServer) : TcpServer :=
  set_callbacks cb (connectionCallback_ s) (messageCallback_ s) (writeCompleteCallback_ s) s.
Definition setConnectionCallback (cb : option V) (s : TcpServer) : TcpServer :=
  set_callbacks (threadInitCallback_ s) cb (messageCallback_ s) (writeCompleteCallback_ s) s.
Definition setMessageCallback (cb : option V) (s : TcpServer) : TcpServer :=
  set_callbacks (threadInitCallback_ s) (connectionCallback_ s) cb (writeCompleteCallback_ s) s.
Definition setWriteCompleteCallback (cb : option V) (s : TcpServer) : TcpServer :=
  set_callbacks (threadInitCallback_ s) (connectionCallback_ s) (messageCallback_ s) cb s.

Definition set_pool (acc : Acceptor.Acceptor accept_cb)
    (p : EventLoopThreadPool.EventLoopThreadPool Cb) (started : Z) (s : TcpServer) : TcpServer :=
  mkTcpServer (loop_ s) (ipPort_ s) (name_ s) acc p (connectionCallback_ s) (messageCallback_ s)
    (writeCompleteCallback_ s) (threadInitCallback_ s) started (nextConnId_ s) (connections_ s).

Definition set_connections (next : Z) (m : gmap bytes Z) (s : TcpServer) : TcpServer :=
  mkTcpServer (loop_ s) (ipPort_ s) (name_ s) (acceptor_ s) (threadPool_ s)
    (connectionCallback_ s) (messageCallback_ s) (writeCompleteCallback_ s)
    (threadInitCallback_ s) (started_ s) next m.

Definition setThreadNum (numThreads : Z) (s : TcpServer) : TcpServer :=
  set_pool (acceptor_ s) (EventLoopThreadPool.setThreadNum numThreads (threadPool_ s)) (started_ s) s.

Definition getLoop (s : TcpServer) : Z := loop_ s.
Definition name (s : TcpServer) : bytes := name_ s.
Definition ipPort (s : TcpServer) : bytes := ipPort_ s.

(** ** The world of a server *)

Abbreviation cb := (conn_cb V).
Abbreviation event_loop := (EventLoop.EventLoop (functor cb) P E chan_cb).

Record World := mkWorld {
  server : TcpServer;
  loops : gmap Z event_loop;
  conns : gmap Z (TcpConnection.TcpConnection cb);
  socks : gmap Z S;              (** by the address of the connection *)
  (** the threads of the user that are in a call of a connection, and where *)
  calls : gmap Z (Z * TcpConnection.call_at)
}.

Abbreviation env := (TcpConnection.Env cb P E S World).

Definition set_server (s : TcpServer) (w : World) : World :=
  mkWorld s (loops w) (conns w) (socks w) (calls w).
Definition set_calls (m : gmap Z (Z * TcpConnection.call_at)) (w : World) : World :=
  mkWorld (server w) (loops w) (conns w) (socks w) m.
Definition set_loop (l : Z) (ev : event_loop) (w : World) : World :=
  mkWorld (server w) (<[l := ev]> (loops w)) (conns w) (socks w) (calls w).

(** Working on the connection at [self], in its loop. *)
Definition focus (self : Z) (w : World) : outcome env :=
  c ← deref UseAfterFree (conns w !! self);
  l ← deref UseAfterFree (loops w !! TcpConnection.loop_ c);
  s ← deref UseAfterFree (socks w !! self);
  mret (TcpConnection.mkEnv c l s w).

Definition unfocus (self : Z) (e : env) : World :=
  let w := TcpConnection.rest e in
  mkWorld (server w)
    (<[TcpConnection.loop_ (TcpConnection.conn e) := TcpConnection.loop e]> (loops w))
    (<[self := TcpConnection.conn e]> (conns w))
    (<[self := TcpConnection.sock e]> (socks w)) (calls w).

Definition on_conn (self : Z) (op : env -> outcome env) (w : World) : outcome World :=
  e ← focus self w; e' ← op e; mret (unfocus self e').

(** ** Removing a connection *)

(** [removeConnectionInLoop(conn)] on thread [tid]: [conn->getLoop()] is the
    loop of the focused connection. *)
Definition removeConnectionInLoop (tid self : Z) (e : env) : outcome env :=
  let w := TcpConnection.rest e in
  let s := server w in
  let s' := set_connections (nextConnId_ s)
              (delete (TcpConnection.name (TcpConnection.conn e)) (connections_ s)) s in
  mret (TcpConnection.mkEnv (TcpConnection.conn e)
          (EventLoop.queueInLoop tid (ConnectDestroyed self) (TcpConnection.loop e))
          (TcpConnection.sock e) (set_server s' w)).

(** [removeConnection(conn)] on thread [tid]: [runInLoop] of the base loop,
    which is the connection's own loop when there are no loop threads. *)
Definition removeConnection (tid self : Z) (e : env) : outcome env :=
  let w := TcpConnection.rest e in
  if decide (loop_ (server w) = TcpConnection.loop_ (TcpConnection.conn e)) then
    if EventLoop.isInLoopThread tid (TcpConnection.loop e)
    then removeConnectionInLoop tid self e
    else mret (TcpConnection.mkEnv (TcpConnection.conn e)
                 (EventLoop.queueInLoop tid (RemoveConnectionInLoop self) (TcpConnection.loop e))
                 (TcpConnection.sock e) w)
  else
    main ← deref UseAfterFree (loops w !! loop_ (server w));
    if EventLoop.isInLoopThread tid main
    then removeConnectionInLoop tid self e
    else mret (TcpConnection.mkEnv (TcpConnection.conn e) (TcpConnection.loop e)
                 (TcpConnection.sock e)
                 (set_loop (loop_ (server w))
                    (EventLoop.queueInLoop tid (RemoveConnectionInLoop self) main) w)).

(** What the callbacks of a connection do on thread [tid]; [user] gives the
    meaning of the user's. *)
Definition call_cb (user : V -> TcpConnection.event -> env -> outcome env)
    (tid self : Z) (u : cb) (ev : TcpConnection.event) (e : env) : outcome env :=
  match u with
  | UserCb v => user v ev e
  | RemoveConnectionCb => removeConnection tid self e
  end.

(** ** New connections *)

(** The name of the next connection: [snprintf] into [char buf[64]]. *)
Definition conn_name (s : TcpServer) : bytes :=
  name_ s ++ c_str (snprintf 64 (("-"%char :: c_str (ipPort_ s)) ++
                                 "#"%char :: fmt_d (nextConnId_ s))).

(** The connection object [newConnection] builds for loop [ioLoop]. *)
Definition build_conn (s : TcpServer) (ioLoop sockfd : Z)
    (localAddr peerAddr : InetAddress.InetAddress) : outcome (TcpConnection.TcpConnection cb) :=
  conn ← TcpConnection.new_TcpConnection (Some ioLoop) (conn_name s) sockfd localAddr peerAddr;
  mret (TcpConnection.setCloseCallback (Some RemoveConnectionCb)
         (TcpConnection.setWriteCompleteCallback (UserCb <$> writeCompleteCallback_ s)
           (TcpConnection.setMessageCallback (UserCb <$> messageCallback_ s)
             (TcpConnection.setConnectionCallback (UserCb <$> connectionCallback_ s) conn)))).

(** [newConnection] on thread [tid]: [self] is the address [new] returned,
    [sk] the kernel object of [sockfd], [local] what [getsockname] wrote.
    [runInLoop] runs [connectEstablished] at once when the chosen loop is the
    caller's. *)
Definition newConnection (user : V -> TcpConnection.event -> env -> outcome env)
    (tid self sockfd : Z) (sk : S) (local : InetAddress.sockaddr_in)
    (peerAddr : InetAddress.InetAddress) (w : World) : outcome World :=
  let s := server w in
  '(ioLoop, pool) ← EventLoopThreadPool.getNextLoop (threadPool_ s);
  let connName := conn_name s in
  nextConnId ← incr32 (nextConnId_ s);
  conn ← build_conn s ioLoop sockfd (InetAddress.mkInetAddress local) peerAddr;
  let s' := set_connections nextConnId (<[connName := self]> (connections_ s))
              (set_pool (acceptor_ s) pool (started_ s) s) in
  let w1 := mkWorld s' (loops w) (<[self := conn]> (conns w)) (<[self := sk]> (socks w)) (calls w) in
  l ← deref UseAfterFree (loops w1 !! ioLoop);
  if EventLoop.isInLoopThread tid l
  then on_conn self (TcpConnection.connectEstablished self (call_cb user tid self)) w1
  else mret (set_loop ioLoop (EventLoop.queueInLoop tid (ConnectEstablished self) l) w1).

(** ** Start, shutdown and the functors of a loop *)

(** [started_++ == 0], an atomic counter that wraps; [acc_self] is the address of the accept channel,
    [listen_ret] what [listen(2)] returned. *)
Definition start (startLoop : Z -> EventLoopThread.EventLoopThread Cb ->
                              Z * EventLoopThread.EventLoopThread Cb)
    (numCreated_ tid acc_self listen_ret : Z) (w : World) : outcome (World * Z * option Z) :=
  let s := server w in
  if started_ s =? 0 then
    let '(pool, n, base) := EventLoopThreadPool.start startLoop (threadInitCallback_ s)
                              numCreated_ (threadPool_ s) in
    l ← deref UseAfterFree (loops w !! loop_ s);
    if EventLoop.isInLoopThread tid l then
      '(acc, l') ← Acceptor.listen acc_self listen_ret (acceptor_ s) l;
      mret (set_loop (loop_ s) l' (set_server (set_pool acc pool (i32 (started_ s + 1)) s) w), n, base)
    else
      mret (set_loop (loop_ s) (EventLoop.queueInLoop tid AcceptorListen l)
              (set_server (set_pool (acceptor_ s) pool (i32 (started_ s + 1)) s) w), n, base)
  else mret (set_server (set_pool (acceptor_ s) (threadPool_ s) (i32 (started_ s + 1)) s) w,
             numCreated_, None).

(** One connection of [~TcpServer]'s loop on thread [tid]. *)
Definition destroy_one (user : V -> TcpConnection.event -> env -> outcome env)
    (tid self : Z) (w : World) : outcome World :=
  on_conn self (fun e =>
    if EventLoop.isInLoopThread tid (TcpConnection.loop e)
    then TcpConnection.connectDestroyed self (call_cb user tid self) e
    else mret (TcpConnection.mkEnv (TcpConnection.conn e)
                 (EventLoop.queueInLoop tid (ConnectDestroyed self) (TcpConnection.loop e))
                 (TcpConnection.sock e) (TcpConnection.rest e))) w.

(** [~TcpServer]; [order] is the iteration order of the map. *)
Fixpoint delete_TcpServer (user : V -> TcpConnection.event -> env -> outcome env)
    (tid : Z) (order : list Z) (w : World) : outcome World :=
  match order with
  | [] => mret w
  | self :: order' => w' ← destroy_one user tid self w; delete_TcpServer user tid order' w'
  end.

(** Calling a functor on thread [tid]. *)
Definition exec (user : V -> TcpConnection.event -> env -> outcome env)
    (heap : Z -> option bytes) (acc_self listen_ret tid : Z) (f : functor cb) (w : World)
    : outcome World :=
  match f with
  | RemoveConnectionInLoop c => on_conn c (removeConnectionInLoop tid c) w
  | AcceptorListen =>
      let s := server w in
      l ← deref UseAfterFree (loops w !! loop_ s);
      '(acc, l') ← Acceptor.listen acc_self listen_ret (acceptor_ s) l;
      mret (set_loop (loop_ s) l' (set_server (set_pool acc (threadPool_ s) (started_ s) s) w))
  | WriteComplete _ c | HighWaterMark _ c _ | ConnectEstablished c | ConnectDestroyed c
  | SendInLoopPtr c _ _ | SendInLoopStr c _ | ShutdownInLoop c =>
      on_conn c (TcpConnection.exec_functor c (call_cb user tid c) heap f) w
  end.

End TcpServer.
Arguments TcpServer : clear implicits.
Arguments World : clear implicits.


(** ** Connection names *)

Section Names.
Context {V Cb : Type}.
Implicit Types s : TcpServer V Cb.

(** The name of connection number [k]. *)
Definition name_at s (k : Z) : bytes :=
  name_ s ++ (("-"%char :: c_str (ipPort_ s)) ++ "#"%char :: fmt_d k).

(** The address text fits its buffer: ["255.255.255.255:65535"] has 21
    characters. *)
Definition addr_ok s : Prop := (length (c_str (ipPort_ s)) <= 50)%nat.

(** The map holds connections under the names of numbers already used. *)
Definition names_ok s : Prop :=
  forall n a, connections_ s !! n = Some a -> exists k, 1 <= k < nextConnId_ s /\ n = name_at s k.

(** The buffer does not truncate the name. *)
Lemma conn_name_at s : addr_ok s -> 0 <= nextConnId_ s < 2 ^ 31 ->
  conn_name s = name_at s (nextConnId_ s).
Proof.
  intros Ha Hk. unfold conn_name, name_at, snprintf. f_equal.
  pose proof (fmt_d_length _ Hk). unfold addr_ok in Ha.
  rewrite take_ge by (rewrite length_app; simpl; lia).
  apply c_str_id. rewrite not_elem_of_app, !not_elem_of_cons.
  pose proof (c_str_no_nul (ipPort_ s)). pose proof (fmt_d_no_nul (nextConnId_ s) ltac:(lia)).
  done.
Qed.

Lemma name_at_inj s k k' : 0 <= k -> 0 <= k' -> name_at s k = name_at s k' -> k = k'.
Proof.
  unfold name_at. intros H H' E. do 2 apply app_inv_head in E. injection E as E.
  revert E. unfold fmt_d. destruct (k <? 0) eqn:X; destruct (k' <? 0) eqn:Y; reflect_bools; try lia.
  by apply fmt_u_inj.
Qed.

Lemma conn_name_fresh s : addr_ok s -> names_ok s -> 0 <= nextConnId_ s < 2 ^ 31 ->
  connections_ s !! conn_name s = None.
Proof.
  intros Ha N Hk. rewrite conn_name_at by done.
  destruct (connections_ s !! _) as [a|] eqn:E; [|done].
  apply N in E as (k & ? & Ek). apply name_at_inj in Ek; lia.
Qed.

Lemma names_ok_insert s m self acc p st : addr_ok s -> names_ok s -> 1 <= nextConnId_ s < 2 ^ 31 ->
  m = <[conn_name s := self]> (connections_ s) ->
  names_ok (set_connections (nextConnId_ s + 1) m (set_pool acc p st s)).
Proof.
  intros Ha N Hk -> n a. simpl. rewrite conn_name_at by (done || lia).
  destruct (decide (n = name_at s (nextConnId_ s))) as [->|Hne].
  - intros _. exists (nextConnId_ s). split; [lia|done].
  - rewrite lookup_insert_ne by done. intros (k & ? & ->)%N. exists k. split; [lia|done].
Qed.

Lemma names_ok_delete s n : names_ok s ->
  names_ok (set_connections (nextConnId_ s) (delete n (connections_ s)) s).
Proof. intros N m a X. simpl in X. apply lookup_delete_Some in X as [_ X]. by apply N in X. Qed.

End Names.

(** ** Properties *)

Section Properties.
Context {V Cb P E S : Type} `{Channel.POLLER P, EVENTFD E, SOCKET S}.
Implicit Types w : World V Cb P E S.

(** A world in which [newConnection] can be called: names in order, and the
    loops the pool may choose exist. *)
Definition server_ok w : Prop :=
  addr_ok (server w) /\ names_ok (server w) /\
  1 <= nextConnId_ (server w) < 2 ^ 31.

(** What the server makes of a new connection: its object in the loop
    [ioLoop], with the user's callbacks and its own. *)
Definition made_for (s : TcpServer V Cb) ioLoop sockfd local peer
    (c : TcpConnection.TcpConnection (conn_cb V)) : Prop :=
  TcpConnection.state_ c = TcpConnection.kConnecting /\
  TcpConnection.name_ c = conn_name s /\ TcpConnection.loop_ c = ioLoop /\
  Channel.fd_ (TcpConnection.channel_ c) = sockfd /\
  Socket.sockfd_ (TcpConnection.socket_ c) = sockfd /\
  TcpConnection.localAddr_ c = local /\ TcpConnection.peerAddr_ c = peer /\
  TcpConnection.connectionCallback_ c = UserCb <$> connectionCallback_ s /\
  TcpConnection.messageCallback_ c = UserCb <$> messageCallback_ s /\
  TcpConnection.writeCompleteCallback_ c = UserCb <$> writeCompleteCallback_ s /\
  TcpConnection.highWaterMarkCallback_ c = None /\
  TcpConnection.closeCallback_ c = Some RemoveConnectionCb.

End Properties.

(** C29: accepting a connection on the base thread never replaces an entry of
    the connection map: the new name is fresh, whatever connections came and
    went before.  Unless the counter of connections overflows, the connection
    is stored under that name, in state [kConnecting], with its descriptor and
    addresses, with the connection, message and write-complete callbacks of
    the server and the server's close callback, in the loop the pool chose.
    When that loop runs in another thread exactly its [connectEstablished] is
    queued there, with a wakeup; when it is the caller's,
    [connectEstablished] runs at once. *)
Theorem newConnection_ok {V Cb P E S} `{Channel.POLLER P, EVENTFD_LAWS E, SOCKET S}
  user tid self sockfd (sk : S) local peer (w : World V Cb P E S) ioLoop pool l
  (Hok : server_ok w)
  (Hnext : EventLoopThreadPool.getNextLoop (threadPool_ (server w)) = Ret (ioLoop, pool))
  (Hl : loops w !! ioLoop = Some l) :
  connections_ (server w) !! conn_name (server w) = None /\
  if nextConnId_ (server w) =? 2 ^ 31 - 1
  then newConnection user tid self sockfd sk local peer w = Err Overflow
  else exists c w1,
    made_for (server w) ioLoop sockfd (InetAddress.mkInetAddress local) peer c /\
    connections_ (server w1) = <[conn_name (server w) := self]> (connections_ (server w)) /\
    server_ok w1 /\ nextConnId_ (server w1) = nextConnId_ (server w) + 1 /\
    conns w1 = <[self := c]> (conns w) /\ socks w1 = <[self := sk]> (socks w) /\ loops w1 = loops w /\
    newConnection user tid self sockfd sk local peer w =
      (if EventLoop.isInLoopThread tid l
       then on_conn self (TcpConnection.connectEstablished self (call_cb user tid self)) w1
       else Ret (set_loop ioLoop (EventLoop.queueInLoop tid (ConnectEstablished self) l) w1)) /\
    (EventLoop.isInLoopThread tid l = false ->
       let l' := EventLoop.queueInLoop tid (ConnectEstablished self) l in
       EventLoop.pendingFunctors_ l' = EventLoop.pendingFunctors_ l ++ [ConnectEstablished self] /\
       efd_ready (EventLoop.wakeupFd_ l') = true).
Proof.
  destruct Hok as (Ha & N & Hk). split; [by apply conn_name_fresh; [..|lia]|].
  unfold newConnection. rewrite Hnext. ostep. destruct (_ =? _) eqn:En; reflect_bools.
  { unfold incr32. by rewrite (proj2 (Z.ltb_ge _ _)) by lia. }
  rewrite incr32_small by lia. do 2 eexists. split; [|split; [|split; [|split; [|split; [|split; [|split; [|split]]]]]]].
  8: { simpl. rewrite Hl. simpl. reflexivity. }
  5: reflexivity.
  - by split_and!.
  - reflexivity.
  - split_and!; [done|by eapply names_ok_insert|simpl; lia..].
  - done.
  - done.
  - done.
  - intros Ht. split; [unfold EventLoop.queueInLoop, EventLoop.wakeup_after_enqueue; by destruct (_ || _)|].
    unfold EventLoop.queueInLoop. rewrite EventLoop.wake_other by done. apply EventLoop.wakeup_ready.
Qed.

(** A server with two loop threads, accepting on thread 1. *)
Definition demo_server : TcpServer unit unit :=
  mkTcpServer 0 (str "0.0.0.0:8080") (str "srv")
    (Acceptor.mkAcceptor 0 (Socket.mkSocket 3) (Channel.new_Channel 0 3) None true)
    (EventLoopThreadPool.mkPool 0 (str "srv") true 2 1 [] [10; 20]) None (Some tt) None None 1 7 ∅.

Definition demo_loop {V : Type} (tid : Z) : EventLoop.EventLoop (functor (conn_cb V))
    (EPollPoller.EPollPoller kepoll) N chan_cb :=
  EventLoop.mkEventLoop true false false tid 0
    (EPollPoller.mkEPollPoller (Poller.new_Poller tid) ∅ 16) 0%N (Channel.new_Channel tid 4) [] [].

Definition demo_world : World unit unit (EPollPoller.EPollPoller kepoll) N
    TcpConnection.tcp_socket :=
  mkWorld demo_server {[ 0 := demo_loop 1; 10 := demo_loop 2; 20 := demo_loop 3 ]} ∅ ∅ ∅.

Lemma newConnection_ok_witness :
  let sk := TcpConnection.mkTcpSocket [] false [] [] in
  let addr := InetAddress.new_InetAddress 8080 [] in
  connections_ (server demo_world) !! conn_name (server demo_world) = None /\
  exists c w1, made_for (server demo_world) 20 9 (InetAddress.mkInetAddress (InetAddress.addr_ addr)) addr c /\
    connections_ (server w1) = {[ str "srv-0.0.0.0:8080#7" := 500 ]} /\
    newConnection (fun _ _ e => Ret e) 1 500 9 sk (InetAddress.addr_ addr) addr demo_world =
      Ret (set_loop 20 (EventLoop.queueInLoop 1 (ConnectEstablished 500) (demo_loop 3)) w1).
Proof.
  destruct (newConnection_ok (fun _ _ e => Ret e) 1 500 9
    (TcpConnection.mkTcpSocket [] false [] []) (InetAddress.addr_ (InetAddress.new_InetAddress 8080 []))
    (InetAddress.new_InetAddress 8080 []) demo_world 20
    (EventLoopThreadPool.mkPool 0 (str "srv") true 2 0 [] [10; 20]) (demo_loop 3))
    as (Hf & c & w1 & Hc & Ec & _ & _ & _ & _ & _ & Ew & _).
  - split; [vm_compute; lia|]. split; [|simpl; lia]. intros n a. cbn. by rewrite lookup_empty.
  - vm_compute. reflexivity.
  - vm_compute. reflexivity.
  - split; [exact Hf|]. exists c, w1. split; [exact Hc|]. split; [|exact Ew]. rewrite Ec.
    replace (conn_name (server demo_world)) with (str "srv-0.0.0.0:8080#7") by reflexivity.
    apply insert_empty.
Defined.


End TcpServer.
