(* ===== verification/Lifecycle.v ===== *)
(** * The life of the connections of a server

    Composes [TcpServer], [TcpConnection], [EventLoop], [EPollPoller] and
    [Channel]: a run is a sequence of labels, each one atomic piece of work of
    a thread - accepting a connection on the base loop, dispatching the events
    [epoll_wait] reported for a connection, running the functor at the head of
    a loop's queue, the release of the last [shared_ptr] to a connection, and
    the steps of a call of [send(Buffer* )] or [shutdown] on a thread of the
    user: the check of [state_], the store of [kDisconnecting], the queueing of
    a functor with a raw [this].  No lock is held between the steps of a call,
    so anything may come between them.
    A label that cannot happen in a state leaves it as it is.  The invariant
    says who owns a connection as long as a poller knows its channel or a
    functor points at it; it makes a use after free impossible, in runs in
    which no call of another thread is overtaken by the close of its
    connection ([orderly]); the examples at the end show what happens in the
    others. *)

From S2P Require Import Prelude Buffer Channel Poller EventLoop Socket TcpConnection Threads TcpServer.

Module Lifecycle.

(** What user code does with a connection in one of its callbacks. *)
Inductive action :=
  | Send (d : bytes)
  | Shutdown.

Section Model.
Context {V Cb K E S : Type} `{EPOLL K, EVENTFD E, SOCKET S}.

Abbreviation poller := (EPollPoller.EPollPoller K).
Abbreviation cb := (TcpServer.conn_cb V).
Abbreviation Conn := (TcpConnection.TcpConnection cb).
Abbreviation event_loop := (EventLoop.EventLoop (functor cb) poller E chan_cb).
Abbreviation World := (TcpServer.World V Cb poller E S).
Abbreviation env := (TcpConnection.Env cb poller E S World).

(** The user's callbacks: for an event and the content of the input buffer,
    how many bytes are retrieved and what is then done with the connection. *)
Context (prog : V -> TcpConnection.event -> bytes -> Z * list action).

(** The channels of the loop at an address that belong to no connection
    (wakeup, accept, timer). *)
Context (static : Z -> gmap Z (Channel.Channel chan_cb)).

(** The memory of character arrays, the address of the accept channel and
    what [listen] returned: only [exec] of functors that this model never
    queues depends on them. *)
Context (heap : Z -> option bytes) (acc_self listen_ret : Z).

Definition do_action (self : Z) (a : action) (e : env) : outcome env :=
  let tid := EventLoop.threadId_ (TcpConnection.loop e) in
  match a with
  | Send d => TcpConnection.send self tid 0 d e
  | Shutdown => TcpConnection.shutdown self tid e
  end.

Fixpoint do_actions (self : Z) (acts : list action) (e : env) : outcome env :=
  match acts with
  | [] => mret e
  | a :: acts' => e' ← do_action self a e; do_actions self acts' e'
  end.

Definition user (self : Z) (v : V) (ev : TcpConnection.event) (e : env) : outcome env :=
  let b := TcpConnection.inputBuffer_ (TcpConnection.conn e) in
  let '(n, acts) := prog v ev (Buffer.content b) in
  do_actions self acts
    (TcpConnection.upd_conn (TcpConnection.set_inputBuffer (Buffer.retrieve n b)) e).

(** The callbacks of the connection at [self], on its loop's thread. *)
Definition callbacks (self tid : Z) : cb -> TcpConnection.event -> env -> outcome env :=
  TcpServer.call_cb (user self) tid self.

(** ** Ownership *)

Definition pend (w : World) (l : Z) : list (functor cb) :=
  match TcpServer.loops w !! l with Some ev => EventLoop.pendingFunctors_ ev | None => [] end.

(** A [shared_ptr] to the connection is in the map, bound in a functor, or held
    by a thread that is in a call of the connection. *)
Definition owned (a : Z) (w : World) : Prop :=
  map_Exists (fun _ x => x = a) (TcpServer.connections_ (TcpServer.server w)) \/
  map_Exists (fun _ ev => Exists (fun f => functor_owner f = Some a)
                            (EventLoop.pendingFunctors_ ev)) (TcpServer.loops w) \/
  map_Exists (fun _ x => x.1 = a) (TcpServer.calls w).

#[global] Instance owned_dec a w : Decision (owned a w).
Proof. unfold owned. apply _. Defined.

(** [new] gives an address not in use, [accept] a descriptor not in use. *)
Definition fresh (self sockfd : Z) (w : World) : Prop :=
  TcpServer.conns w !! self = None /\
  map_Forall (fun _ c => Channel.fd_ (TcpConnection.channel_ c) <> sockfd) (TcpServer.conns w) /\
  map_Forall (fun l _ => static l !! self = None /\
                map_Forall (fun _ ch => Channel.fd_ ch <> sockfd) (static l)) (TcpServer.loops w).

#[global] Instance fresh_dec self sockfd w : Decision (fresh self sockfd w).
Proof. unfold fresh. apply _. Defined.

(** The kernel's interest set holds the channel of the connection. *)
Definition reported (a : Z) (c : Conn) (l : event_loop) : bool :=
  match interest (EPollPoller.epollfd_ (EventLoop.poller_ l))
          !! Channel.fd_ (TcpConnection.channel_ c) with
  | Some ev => ev_ptr ev =? a
  | None => false
  end.

(** ** Steps *)

Inductive label :=
  | Accept (self sockfd : Z) (sk : S) (local : InetAddress.sockaddr_in)
      (peer : InetAddress.InetAddress)
  | Event (a revents time : Z)
  | RunFunctor (l : Z)
  | Free (a : Z)
  | Call (a tid : Z) (x : TcpConnection.foreign_call)
  | Continue (tid : Z).

(** [fillActiveChannels] and [handleEvent] for one connection. *)
Definition dispatch (a revents time : Z) (e : env) : outcome env :=
  let tid := EventLoop.threadId_ (TcpConnection.loop e) in
  TcpConnection.handleEvent a (callbacks a tid) time
    (TcpConnection.upd_conn (fun c => TcpConnection.set_channel
       (Channel.set_revents revents (TcpConnection.channel_ c)) c) e).

Definition buffer_ok (x : TcpConnection.foreign_call) : Prop :=
  match x with TcpConnection.SendBuffer b => Buffer.wf b | TcpConnection.CallShutdown => True end.

#[global] Instance buffer_ok_dec x : Decision (buffer_ok x).
Proof. destruct x; unfold buffer_ok, Buffer.wf; apply _. Defined.

(** A functor is owned by the vector of [doPendingFunctors] while it runs. *)
Definition pop (l : Z) (w : World) : World :=
  match TcpServer.loops w !! l with
  | Some ev => TcpServer.set_loop l (EventLoop.set_pending (tail (EventLoop.pendingFunctors_ ev)) ev) w
  | None => w
  end.

Definition run_functor (f : functor cb) (tid : Z) (w : World) : outcome World :=
  TcpServer.exec (user (default 0 (functor_conn f))) heap acc_self listen_ret tid f w.

(** A thread of the user, not the loop's and not in a call, may call. *)
Definition may_call (tid : Z) (x : TcpConnection.foreign_call) (c : Conn) (w : World) : Prop :=
  TcpServer.calls w !! tid = None /\ buffer_ok x /\
  match TcpServer.loops w !! TcpConnection.loop_ c with
  | Some l => EventLoop.isInLoopThread tid l = false
  | None => False
  end.

#[global] Instance may_call_dec tid x c w : Decision (may_call tid x c w).
Proof. unfold may_call. destruct (TcpServer.loops w !! _); apply _. Defined.

(** The check of [state_] with which a call begins: it goes on or is over. *)
Definition call (a tid : Z) (x : TcpConnection.foreign_call) (w : World) : outcome World :=
  e ← TcpServer.focus a w;
  mret (if TcpConnection.call_enter e
        then TcpServer.set_calls (<[tid := (a, TcpConnection.Checked x)]> (TcpServer.calls w)) w
        else w).

(** The next step of the call thread [tid] is in. *)
Definition continue (a tid : Z) (k : TcpConnection.call_at) (w : World) : outcome World :=
  e ← TcpServer.focus a w;
  '(e', k') ← TcpConnection.call_next a tid k e;
  let w' := TcpServer.unfocus a e' in
  mret (TcpServer.set_calls
          (match k' with
           | Some k' => <[tid := (a, k')]> (TcpServer.calls w')
           | None => delete tid (TcpServer.calls w')
           end) w').

Definition step (lb : label) (w : World) : outcome World :=
  match lb with
  | Accept self sockfd sk local peer =>
      if decide (fresh self sockfd w) then
        base ← deref UseAfterFree (TcpServer.loops w !! TcpServer.loop_ (TcpServer.server w));
        TcpServer.newConnection (user self) (EventLoop.threadId_ base) self sockfd sk local peer w
      else mret w
  | Event a revents time =>
      match TcpServer.conns w !! a with
      | Some c =>
          match TcpServer.loops w !! TcpConnection.loop_ c with
          | Some l => if reported a c l then TcpServer.on_conn a (dispatch a revents time) w
                      else mret w
          | None => mret w
          end
      | None => mret w
      end
  | RunFunctor l =>
      match TcpServer.loops w !! l with
      | Some ev =>
          match EventLoop.pendingFunctors_ ev with
          | f :: _ => w' ← run_functor f (EventLoop.threadId_ ev) w; mret (pop l w')
          | [] => mret w
          end
      | None => mret w
      end
  | Free a =>
      if decide (owned a w) then mret w
      else mret (TcpServer.mkWorld (TcpServer.server w) (TcpServer.loops w)
                   (delete a (TcpServer.conns w)) (delete a (TcpServer.socks w)) (TcpServer.calls w))
  | Call a tid x =>
      match TcpServer.conns w !! a with
      | Some c => if decide (may_call tid x c w) then call a tid x w else mret w
      | None => mret w
      end
  | Continue tid =>
      match TcpServer.calls w !! tid with
      | Some (a, k) => continue a tid k w
      | None => mret w
      end
  end.

(** ** Calls overtaken by the close

    A thread goes on with a call whose check of [state_] the close of the
    connection has made stale: it stores [kDisconnecting] in a connection that
    is down, or queues its functor after the server has forgotten the
    connection. *)
Definition overtaken (lb : label) (w : World) : bool :=
  match lb with
  | Continue tid =>
      match TcpServer.calls w !! tid with
      | Some (a, k) =>
          match TcpServer.conns w !! a, k with
          | Some c, TcpConnection.Checked TcpConnection.CallShutdown =>
              bool_decide (TcpConnection.state_ c = TcpConnection.kDisconnected)
          | Some c, _ =>
              negb (bool_decide (TcpServer.connections_ (TcpServer.server w)
                                   !! TcpConnection.name_ c = Some a))
          | None, _ => true
          end
      | None => false
      end
  | _ => false
  end.

Fixpoint run (ls : list label) (w : World) : outcome World :=
  match ls with
  | [] => mret w
  | lb :: ls' => w' ← step lb w; run ls' w'
  end.

(** A run in which no call is overtaken. *)
Fixpoint orderly (ls : list label) (w : World) : bool :=
  match ls with
  | [] => true
  | lb :: ls' =>
      negb (overtaken lb w) && match step lb w with Ret w' => orderly ls' w' | Err _ => true end
  end.

End Model.

(** ** Operations of one connection

    [reg st a e]: the poller of the connection's loop agrees with the channels
    of the loop, [st] being the channels of the others. *)

Section Connection.
Context {V K E S R : Type} `{EPOLL_LAWS K, EVENTFD E, SOCKET S}.

Abbreviation poller := (EPollPoller.EPollPoller K).
Abbreviation cb := (TcpServer.conn_cb V).
Abbreviation Conn := (TcpConnection.TcpConnection cb).
Abbreviation env := (TcpConnection.Env cb poller E S R).
Implicit Types (e : env) (c : Conn) (st : gmap Z (Channel.Channel chan_cb)).

Definition chan e : Channel.Channel chan_cb := TcpConnection.channel_ (TcpConnection.conn e).
Definition index e : Z := Channel.index_ (chan e).
Definition state e : TcpConnection.StateE := TcpConnection.state_ (TcpConnection.conn e).
Definition queue e : list (functor cb) := EventLoop.pendingFunctors_ (TcpConnection.loop e).

Definition reg st (a : Z) e : Prop :=
  EPollPoller.inv (<[a := chan e]> st) (EventLoop.poller_ (TcpConnection.loop e)) /\
  (forall s ch, st !! s = Some ch -> s <> a -> Channel.fd_ ch <> Channel.fd_ (chan e)).

Definition is_user (o : option cb) : Prop := forall u, o = Some u -> exists v, u = TcpServer.UserCb v.

Definition callbacks_ok c : Prop :=
  is_user (TcpConnection.connectionCallback_ c) /\ is_user (TcpConnection.messageCallback_ c) /\
  is_user (TcpConnection.writeCompleteCallback_ c) /\
  is_user (TcpConnection.highWaterMarkCallback_ c) /\
  TcpConnection.closeCallback_ c = Some TcpServer.RemoveConnectionCb.

(** An open connection has its channel in the poller. *)
Definition live e : Prop :=
  state e <> TcpConnection.kConnecting /\
  (state e <> TcpConnection.kDisconnected -> index e <> EPollPoller.kNew).

Definition env_ok st (a : Z) e : Prop := reg st a e /\ live e /\ callbacks_ok (TcpConnection.conn e).

(** What identifies a connection, and its callbacks. *)
Definition frame c c' : Prop :=
  TcpConnection.loop_ c' = TcpConnection.loop_ c /\ TcpConnection.name_ c' = TcpConnection.name_ c /\
  Channel.fd_ (TcpConnection.channel_ c') = Channel.fd_ (TcpConnection.channel_ c) /\
  (callbacks_ok c -> callbacks_ok c').

(** The notifications a connection queues in its own loop. *)
Definition notification (a : Z) (f : functor cb) : Prop :=
  match f with
  | WriteComplete u b | HighWaterMark u b _ => b = a /\ exists v, u = TcpServer.UserCb v
  | _ => False
  end.

(** What sending, receiving and user code may change. *)
Definition quiet (a : Z) e e' : Prop :=
  frame (TcpConnection.conn e) (TcpConnection.conn e') /\
  TcpConnection.rest e' = TcpConnection.rest e /\
  EventLoop.threadId_ (TcpConnection.loop e') = EventLoop.threadId_ (TcpConnection.loop e) /\
  (exists nf, queue e' = queue e ++ nf /\ Forall (notification a) nf) /\
  (state e' = state e \/
     state e = TcpConnection.kConnected /\ state e' = TcpConnection.kDisconnecting) /\
  (index e' = EPollPoller.kNew <-> index e = EPollPoller.kNew).

Definition quietly st a e (r : outcome env) : Prop :=
  post (fun e' => env_ok st a e' /\ quiet a e e') r.

Lemma frame_refl c : frame c c.
Proof. by split_and!. Qed.

Lemma frame_trans c1 c2 c3 : frame c1 c2 -> frame c2 c3 -> frame c1 c3.
Proof. unfold frame. intros (-> & -> & -> & ?) (-> & -> & -> & ?). split_and!; auto. Qed.

Lemma quiet_refl a e : quiet a e e.
Proof.
  split_and!; try done; [|by left]. exists []. by rewrite app_nil_r.
Qed.

Lemma quiet_trans a e1 e2 e3 : quiet a e1 e2 -> quiet a e2 e3 -> quiet a e1 e3.
Proof.
  intros (F1 & R1 & T1 & (n1 & Q1 & A1) & S1 & I1) (F2 & R2 & T2 & (n2 & Q2 & A2) & S2 & I2).
  split_and!; [by eapply frame_trans|congruence|congruence| | |].
  - exists (n1 ++ n2). split; [by rewrite Q2, Q1, app_assoc|]. by apply Forall_app.
  - destruct S1 as [X|[X Y]], S2 as [X'|[X' Y']]; rewrite ?X' in *; naive_solver congruence.
  - by rewrite I2.
Qed.

Lemma quietly_refl st a e : env_ok st a e -> quietly st a e (Ret e).
Proof. intros. split; [done|apply quiet_refl]. Qed.

Lemma quietly_bind st a e (m : outcome env) (k : env -> outcome env) :
  quietly st a e m -> (forall e', env_ok st a e' -> quiet a e e' -> quietly st a e' (k e')) ->
  quietly st a e (m ≫= k).
Proof.
  intros Hm Hk. eapply post_bind; [exact Hm|]. intros e1 [O1 Q1].
  eapply post_mono; [|by apply Hk]. intros e2 [O2 Q2]. split; [done|by eapply quiet_trans].
Qed.

(** Continuing after a change that is itself quiet. *)
Lemma quietly_after st a e e' (r : outcome env) :
  quiet a e e' -> quietly st a e' r -> quietly st a e r.
Proof. intros Q. apply post_mono. intros e2 [O2 Q2]. split; [done|by eapply quiet_trans]. Qed.

(** Descriptors in use are distinct. *)
Lemma reg_fd_free st a e : reg st a e ->
  EPollPoller.fd_free a (chan e) (EventLoop.poller_ (TcpConnection.loop e)).
Proof.
  intros [(_ & I2 & _) Fd]. unfold EPollPoller.fd_free.
  destruct (Poller.channels_ (EPollPoller.base (EventLoop.poller_ (TcpConnection.loop e)))
              !! Channel.fd_ (chan e)) as [s|] eqn:Em; [right|by left].
  apply I2 in Em as (ch' & Hs & Ef). f_equal. destruct (decide (s = a)) as [->|Hne]; [done|].
  rewrite lookup_insert_ne in Hs by done. by destruct (Fd _ _ Hs Hne).
Qed.

(** A channel operation that changes the interest. *)
Lemma on_channel_reg st a e
  (f : Z -> Channel.Channel chan_cb -> poller -> outcome (Channel.Channel chan_cb * poller)) ev :
  (forall ch p, f a ch p = Channel.update a (Channel.set_events (ev (Channel.events_ ch)) ch) p) ->
  reg st a e ->
  post (fun e' => reg st a e' /\ index e' <> EPollPoller.kNew /\
          (exists i m, TcpConnection.conn e' = TcpConnection.set_channel
             (Channel.set_index i (Channel.set_events m (chan e))) (TcpConnection.conn e)) /\
          (exists p, TcpConnection.loop e' = EventLoop.set_poller p (TcpConnection.loop e)) /\
          TcpConnection.sock e' = TcpConnection.sock e /\
          TcpConnection.rest e' = TcpConnection.rest e) (TcpConnection.on_channel a f e).
Proof.
  intros Hf [I Fd]. unfold TcpConnection.on_channel. rewrite Hf.
  destruct (Channel.update _ _ _) as [[ch p]|x] eqn:U; ostep;
    [|unfold Channel.update in U; apply Channel.update_fault in U as ->; discriminate].
  unfold Channel.update in U. simpl in U.
  pose proof (EPollPoller.updateChannel_channel _ _ _ _ _ U) as Ech.
  eapply EPollPoller.updateChannel_inv_step in U; [|exact I|apply lookup_insert_eq|].
  - rewrite insert_insert_eq in U. split_and!; eauto.
    + split; [exact U|]. simpl. rewrite Ech. exact Fd.
    + unfold index, chan. simpl. rewrite Ech. simpl.
      repeat case_match; reflect_bools; done.
    + rewrite Ech. simpl. eauto.
  - exact (reg_fd_free st a e (conj I Fd)).
Qed.

(** Everything but the buffers, the socket and the queue stays. *)
Lemma quietly_frame st a e e' nf :
  env_ok st a e -> chan e' = chan e -> state e' = state e ->
  frame (TcpConnection.conn e) (TcpConnection.conn e') ->
  EventLoop.poller_ (TcpConnection.loop e') = EventLoop.poller_ (TcpConnection.loop e) ->
  EventLoop.threadId_ (TcpConnection.loop e') = EventLoop.threadId_ (TcpConnection.loop e) ->
  TcpConnection.rest e' = TcpConnection.rest e ->
  queue e' = queue e ++ nf -> Forall (notification a) nf ->
  env_ok st a e' /\ quiet a e e'.
Proof.
  unfold env_ok, reg, live, quiet, index. intros (I & L & Cb0) -> -> F -> -> -> ? ?.
  destruct F as (? & ? & ? & ?). split_and!; eauto; try done; try apply I; try apply L.
Qed.

Lemma quiet_set_sock st a e s : env_ok st a e ->
  env_ok st a (TcpConnection.set_sock s e) /\ quiet a e (TcpConnection.set_sock s e).
Proof.
  intros. apply quietly_frame with (nf := []); try done.
  by rewrite app_nil_r.
Qed.

Lemma quiet_set_input st a e b : env_ok st a e ->
  let e' := TcpConnection.upd_conn (TcpConnection.set_inputBuffer b) e in
  env_ok st a e' /\ quiet a e e'.
Proof.
  intros. apply quietly_frame with (nf := []); try done. by rewrite app_nil_r.
Qed.

Lemma quiet_set_output st a e b : env_ok st a e ->
  let e' := TcpConnection.upd_conn (TcpConnection.set_outputBuffer b) e in
  env_ok st a e' /\ quiet a e e'.
Proof.
  intros. apply quietly_frame with (nf := []); try done. by rewrite app_nil_r.
Qed.

Lemma quiet_set_revents st a e r : env_ok st a e ->
  let e' := TcpConnection.upd_conn (fun c => TcpConnection.set_channel
              (Channel.set_revents r (TcpConnection.channel_ c)) c) e in
  env_ok st a e' /\ quiet a e e'.
Proof.
  intros ((I & Fd) & L & Cb0). split.
  - split; [|done]. split; [|done]. simpl.
    pose proof (EPollPoller.inv_same_registration _ _ a (chan e)
      (Channel.set_revents r (chan e)) I (lookup_insert_eq _ _ _) eq_refl eq_refl eq_refl) as X.
    by rewrite insert_insert_eq in X.
  - split_and!; try done; [|by left]. exists []. by rewrite app_nil_r.
Qed.

Lemma queue_functor_same f e :
  let e' := TcpConnection.queue_functor f e in
  TcpConnection.conn e' = TcpConnection.conn e /\ TcpConnection.rest e' = TcpConnection.rest e /\
  TcpConnection.sock e' = TcpConnection.sock e /\
  EventLoop.poller_ (TcpConnection.loop e') = EventLoop.poller_ (TcpConnection.loop e) /\
  EventLoop.threadId_ (TcpConnection.loop e') = EventLoop.threadId_ (TcpConnection.loop e) /\
  queue e' = queue e ++ [f].
Proof.
  unfold TcpConnection.queue_functor, EventLoop.queueInLoop, EventLoop.wakeup_after_enqueue, queue.
  simpl. destruct (_ || _); done.
Qed.

Lemma quiet_queue_opt st a e (o : option cb) (f : cb -> functor cb) :
  env_ok st a e -> is_user o -> (forall v, notification a (f (TcpServer.UserCb v))) ->
  let e' := match o with Some u => TcpConnection.queue_functor (f u) e | None => e end in
  env_ok st a e' /\ quiet a e e'.
Proof.
  intros O U N. destruct o as [u|]; [|by split; [|apply quiet_refl]].
  destruct (U u eq_refl) as [v ->].
  destruct (queue_functor_same (f (TcpServer.UserCb v)) e) as (Ec & Er & _ & Ep & Et & Eq).
  apply quietly_frame with (nf := [f (TcpServer.UserCb v)]); try done; unfold chan, state;
    rewrite ?Ec; try done. by constructor.
Qed.

Lemma quiet_on_channel st a e
  (f : Z -> Channel.Channel chan_cb -> poller -> outcome (Channel.Channel chan_cb * poller)) ev :
  (forall ch p, f a ch p = Channel.update a (Channel.set_events (ev (Channel.events_ ch)) ch) p) ->
  env_ok st a e -> index e <> EPollPoller.kNew -> quietly st a e (TcpConnection.on_channel a f e).
Proof.
  intros Hf (G & L & Cb0) Hi. eapply post_mono; [|by eapply on_channel_reg].
  intros e' (G' & Hi' & (i & m & Ec) & (p & El) & Es & Er).
  unfold env_ok, live, quiet, state, queue. rewrite El, Er, ?Ec. split_and!; try done.
  - apply L.
  - exists []. by rewrite app_nil_r.
  - by left.
Qed.

(** A state change within the open states. *)
Lemma quiet_disconnecting st a e : env_ok st a e -> state e <> TcpConnection.kDisconnected ->
  let e' := TcpConnection.setState TcpConnection.kDisconnecting e in
  env_ok st a e' /\ quiet a e e'.
Proof.
  intros (G & L & Cb0) Hs. split.
  - split_and!; try done. split; [done|]. intros _. by apply L.
  - split_and!; try done; [exists []; by rewrite app_nil_r|].
    destruct L as [L _]. unfold state in *. simpl. destruct (TcpConnection.state_ _); auto; done.
Qed.

(** *** The operations *)

Lemma isWriting_registered st a e : env_ok st a e -> state e <> TcpConnection.kDisconnected ->
  index e <> EPollPoller.kNew.
Proof. intros (_ & L & _). apply L. Qed.

Lemma env_user st a e : env_ok st a e ->
  is_user (TcpConnection.connectionCallback_ (TcpConnection.conn e)) /\
  is_user (TcpConnection.messageCallback_ (TcpConnection.conn e)) /\
  is_user (TcpConnection.writeCompleteCallback_ (TcpConnection.conn e)) /\
  is_user (TcpConnection.highWaterMarkCallback_ (TcpConnection.conn e)).
Proof. unfold env_ok, callbacks_ok. naive_solver. Qed.

Lemma write_now_quiet st a data e n r fault e' : env_ok st a e ->
  TcpConnection.write_now a data e = (n, r, fault, e') -> env_ok st a e' /\ quiet a e e'.
Proof.
  intros O. unfold TcpConnection.write_now.
  destruct (_ && _); [|intros [= _ _ _ <-]; by split; [|apply quiet_refl]].
  destruct (sk_write _ _) as [[x|x] s]; intros [= _ _ _ <-]; [by apply quiet_set_sock|].
  destruct (quiet_set_sock st a e s O) as [O1 Q1].
  destruct (_ =? 0); [|done].
  destruct (quiet_queue_opt st a _ (TcpConnection.writeCompleteCallback_ (TcpConnection.conn e))
    (fun u => WriteComplete u a) O1) as [O2 Q2]; [apply (env_user _ _ _ O)|simpl; eauto|].
  split; [exact O2|]. eapply quiet_trans; [exact Q1|exact Q2].
Qed.

Lemma high_water_quiet st a r e : env_ok st a e ->
  env_ok st a (TcpConnection.high_water a r e) /\ quiet a e (TcpConnection.high_water a r e).
Proof.
  intros O. unfold TcpConnection.high_water.
  destruct (_ && _); [|by split; [|apply quiet_refl]].
  apply (quiet_queue_opt st a e (TcpConnection.highWaterMarkCallback_ (TcpConnection.conn e))
    (fun u => HighWaterMark u a _)); [done|apply (env_user _ _ _ O)|]. simpl. eauto.
Qed.

Lemma buffer_rest_quiet st a data n r e : env_ok st a e -> index e <> EPollPoller.kNew ->
  quietly st a e (TcpConnection.buffer_rest a data n r e).
Proof.
  intros O Hi. unfold TcpConnection.buffer_rest.
  eapply post_bind; [apply post_read_mem|intros d _].
  eapply post_bind; [apply Buffer.post_append|intros b _].
  destruct (quiet_set_output st a e b O) as [O1 Q1].
  eapply quietly_after; [exact Q1|]. destruct (negb _); [|by apply quietly_refl].
  eapply quiet_on_channel with (ev := fun m => Z.lor m Channel.kWriteEvent); [done|done|exact Hi].
Qed.

Lemma sendInLoop_quiet st a data e : env_ok st a e ->
  quietly st a e (TcpConnection.sendInLoop a data e).
Proof.
  intros O. unfold TcpConnection.sendInLoop.
  destruct (decide _) as [|Hs]; [by apply quietly_refl|].
  destruct (TcpConnection.write_now a data e) as [[[n r] fault] e1] eqn:W.
  apply (write_now_quiet st) in W as [O1 Q1]; [|done].
  destruct (_ && _); [|by split].
  destruct (high_water_quiet st a r e1 O1) as [O2 Q2].
  eapply quietly_after; [exact Q1|]. eapply quietly_after; [exact Q2|].
  apply buffer_rest_quiet; [done|].
  pose proof (isWriting_registered st a e O Hs). destruct Q1 as (_ & _ & _ & _ & _ & I1).
  destruct Q2 as (_ & _ & _ & _ & _ & I2). naive_solver.
Qed.

Lemma send_quiet st a ptr data e : env_ok st a e ->
  quietly st a e (TcpConnection.send a (EventLoop.threadId_ (TcpConnection.loop e)) ptr data e).
Proof.
  intros O. unfold TcpConnection.send. destruct (decide _); [|by apply quietly_refl].
  unfold EventLoop.isInLoopThread. rewrite Z.eqb_refl. by apply sendInLoop_quiet.
Qed.

Lemma shutdownInLoop_quiet st a e : env_ok st a e -> quietly st a e (TcpConnection.shutdownInLoop e).
Proof.
  intros O. unfold TcpConnection.shutdownInLoop. destruct (negb _); [|by apply quietly_refl].
  destruct (sk_shutdown _) as [r s]. by apply quiet_set_sock.
Qed.

Lemma shutdown_quiet st a e : env_ok st a e ->
  quietly st a e (TcpConnection.shutdown a (EventLoop.threadId_ (TcpConnection.loop e)) e).
Proof.
  intros O. unfold TcpConnection.shutdown. destruct (decide _) as [Hs|]; [|by apply quietly_refl].
  unfold EventLoop.runInLoop, EventLoop.isInLoopThread. simpl. rewrite Z.eqb_refl.
  destruct (quiet_disconnecting st a e O) as [O1 Q1]; [unfold state; by rewrite Hs|].
  eapply quietly_after; [exact Q1|]. by apply shutdownInLoop_quiet.
Qed.

Lemma handleWrite_quiet st a e : env_ok st a e -> index e <> EPollPoller.kNew ->
  quietly st a e (TcpConnection.handleWrite a e).
Proof.
  intros O Hi. unfold TcpConnection.handleWrite. destruct (TcpConnection.isWriting e);
    [|by apply quietly_refl].
  eapply post_bind; [apply post_read_mem|intros d _].
  destruct (sk_write _ _) as [x s].
  eapply post_bind with (Q := fun _ => True).
  { unfold Buffer.writeFd. eapply post_bind; [apply post_read_mem|done]. }
  intros [n err] _. destruct (quiet_set_sock st a e s O) as [O1 Q1].
  eapply quietly_after; [exact Q1|]. destruct (0 <? n); [|by apply quietly_refl].
  destruct (quiet_set_output st a _ (Buffer.retrieve n (TcpConnection.outputBuffer_
    (TcpConnection.conn (TcpConnection.set_sock s e)))) O1) as [O2 Q2].
  eapply quietly_after; [exact Q2|]. destruct (_ =? 0); [|by apply quietly_refl].
  unfold TcpConnection.write_complete. eapply quietly_bind.
  { eapply quiet_on_channel with (ev := fun m => Z.land m (Z.lnot Channel.kWriteEvent));
      [done|exact O2|exact Hi]. }
  intros e3 O3 Q3. destruct (quiet_queue_opt st a e3
    (TcpConnection.writeCompleteCallback_ (TcpConnection.conn e3))
    (fun u => WriteComplete u a) O3) as [O4 Q4]; [apply (env_user _ _ _ O3)|simpl; eauto|].
  eapply quietly_after; [exact Q4|]. destruct (decide _); [|by apply quietly_refl].
  by apply shutdownInLoop_quiet.
Qed.

End Connection.

(** ** Operations of one connection in the world *)

Section Server.
Context {V Cb K E S : Type} `{EPOLL_LAWS K, EVENTFD E, SOCKET S}.

Abbreviation poller := (EPollPoller.EPollPoller K).
Abbreviation cb := (TcpServer.conn_cb V).
Abbreviation Conn := (TcpConnection.TcpConnection cb).
Abbreviation event_loop := (EventLoop.EventLoop (functor cb) poller E chan_cb).
Abbreviation World := (TcpServer.World V Cb poller E S).
Abbreviation env := (TcpConnection.Env cb poller E S World).
Implicit Types (w : World) (e : env) (c : Conn) (ev : event_loop).

(** *** What a piece of work on a connection does to the world *)

Abbreviation base w := (TcpServer.loop_ (TcpServer.server w)).
Abbreviation conns := TcpServer.conns.
Abbreviation loops := TcpServer.loops.
Abbreviation connections w := (TcpServer.connections_ (TcpServer.server w)).
Abbreviation state_of := TcpConnection.state_.
Abbreviation index_of c := (Channel.index_ (TcpConnection.channel_ c)).

Definition same_server (s s' : TcpServer.TcpServer V Cb) : Prop :=
  s' = TcpServer.set_connections (TcpServer.nextConnId_ s) (TcpServer.connections_ s') s.

(** Where the work on the connection at [a] may queue what. *)
Definition queued (a : Z) c' (b l : Z) (f : functor cb) : Prop :=
  match f with
  | RemoveConnectionInLoop x => x = a /\ state_of c' = TcpConnection.kDisconnected /\ l = b
  | ConnectDestroyed x =>
      x = a /\ state_of c' = TcpConnection.kDisconnected /\ l = TcpConnection.loop_ c'
  | _ => notification a f /\ l = TcpConnection.loop_ c'
  end.

(** The states in the order a connection goes through them. *)
Definition rank (s : TcpConnection.StateE) : Z :=
  match s with
  | TcpConnection.kConnecting => 0
  | TcpConnection.kConnected => 1
  | TcpConnection.kDisconnecting => 2
  | TcpConnection.kDisconnected => 3
  end.

(** The state only advances; only a new connection gets registered. *)
Definition moves c c' : Prop :=
  rank (state_of c) <= rank (state_of c') /\
  state_of c' <> TcpConnection.kConnecting /\
  (index_of c' <> EPollPoller.kNew ->
     index_of c <> EPollPoller.kNew \/ state_of c = TcpConnection.kConnecting).

Lemma rank_closed s s' : rank s <= rank s' ->
  s = TcpConnection.kDisconnected -> s' = TcpConnection.kDisconnected.
Proof. intros Hr ->. destruct s'; simpl in Hr; done || lia. Qed.

Record eff (a : Z) w w' c c' : Prop := mkEff {
  eff_from : conns w !! a = Some c;
  eff_conns : conns w' = <[a := c']> (conns w);
  eff_socks : forall b, is_Some (TcpServer.socks w' !! b) <-> is_Some (TcpServer.socks w !! b);
  eff_others : forall b, b <> a -> TcpServer.socks w' !! b = TcpServer.socks w !! b;
  eff_frame : frame c c';
  eff_moves : moves c c';
  eff_loops : forall l, is_Some (loops w' !! l) <-> is_Some (loops w !! l);
  eff_poller : forall l, l <> TcpConnection.loop_ c ->
    EventLoop.poller_ <$> loops w' !! l = EventLoop.poller_ <$> loops w !! l;
  eff_server : same_server (TcpServer.server w) (TcpServer.server w');
  eff_map : connections w' = connections w \/
    connections w' = delete (TcpConnection.name_ c) (connections w) /\
    state_of c' = TcpConnection.kDisconnected /\
    (exists nf, pend w' (TcpConnection.loop_ c) = pend w (TcpConnection.loop_ c) ++ nf /\
       ConnectDestroyed a ∈ nf);
  eff_pend : forall l, exists nf, pend w' l = pend w l ++ nf /\ Forall (queued a c' (base w) l) nf;
  eff_calls : TcpServer.calls w' = TcpServer.calls w
}.

(** Once a connection is closed, its removal has been requested. *)
Definition requested (a : Z) (n : bytes) w : Prop :=
  connections w !! n = Some a -> RemoveConnectionInLoop a ∈ pend w (base w).

Lemma same_server_base w w' : same_server (TcpServer.server w) (TcpServer.server w') -> base w' = base w.
Proof. unfold same_server. intros X. rewrite X. done. Qed.

Lemma queued_later a c c' b l f : moves c c' -> frame c c' -> queued a c b l f -> queued a c' b l f.
Proof.
  intros (M & _) (F & _). pose proof (rank_closed _ _ M). destruct f; simpl; rewrite ?F; naive_solver.
Qed.

Lemma eff_trans a w1 w2 w3 c1 c2 c2' c3 : eff a w1 w2 c1 c2 -> eff a w2 w3 c2' c3 -> eff a w1 w3 c1 c3.
Proof.
  intros A B. assert (c2' = c2) as ->.
  { pose proof (eff_from _ _ _ _ _ B) as X. rewrite (eff_conns _ _ _ _ _ A) in X. by simplify_map_eq. }
  pose proof (eff_frame _ _ _ _ _ A) as (L1 & N1 & _).
  pose proof (same_server_base _ _ (eff_server _ _ _ _ _ A)) as Eb.
  assert (forall l f, (exists nf, pend w2 l = pend w1 l ++ nf /\ f ∈ nf) \/
    (exists nf, pend w3 l = pend w2 l ++ nf /\ f ∈ nf) -> exists nf, pend w3 l = pend w1 l ++ nf /\ f ∈ nf) as Keep.
  { intros l f. destruct (eff_pend _ _ _ _ _ A l) as (n1 & E1 & _), (eff_pend _ _ _ _ _ B l) as (n2 & E2 & _).
    intros Hc. exists (n1 ++ n2). rewrite E2, E1, app_assoc. split; [done|]. apply elem_of_app.
    destruct Hc as [(nf & Eq & Hf)|(nf & Eq & Hf)]; [left|right].
    - rewrite E1 in Eq. by apply app_inv_head in Eq as ->.
    - rewrite E2 in Eq. by apply app_inv_head in Eq as ->. }
  split.
  - apply A.
  - rewrite (eff_conns _ _ _ _ _ B), (eff_conns _ _ _ _ _ A). apply insert_insert_eq.
  - intros b. by rewrite (eff_socks _ _ _ _ _ B), (eff_socks _ _ _ _ _ A).
  - intros b Hb. by rewrite (eff_others _ _ _ _ _ B), (eff_others _ _ _ _ _ A).
  - eapply frame_trans; [apply A|apply B].
  - destruct (eff_moves _ _ _ _ _ A) as (? & ? & ?), (eff_moves _ _ _ _ _ B) as (? & ? & ?).
    split_and!; [lia|done|naive_solver].
  - intros l. by rewrite (eff_loops _ _ _ _ _ B), (eff_loops _ _ _ _ _ A).
  - intros l Hl. rewrite (eff_poller _ _ _ _ _ B), (eff_poller _ _ _ _ _ A); congruence.
  - pose proof (eff_server _ _ _ _ _ A) as X. pose proof (eff_server _ _ _ _ _ B) as Y.
    unfold same_server in *. rewrite Y, X. done.
  - pose proof (eff_moves _ _ _ _ _ B) as (M0 & _). pose proof (rank_closed _ _ M0) as M.
    destruct (eff_map _ _ _ _ _ A) as [X|(X & ? & ?)], (eff_map _ _ _ _ _ B) as [Y|(Y & ? & ?)];
      rewrite Y, X, ?N1, ?L1 in *; [by left|right..]; (split_and!; [|by auto|apply Keep; by auto]); try done.
    apply delete_delete_eq.
  - intros l. destruct (eff_pend _ _ _ _ _ A l) as (n1 & E1 & F1).
    destruct (eff_pend _ _ _ _ _ B l) as (n2 & E2 & F2).
    exists (n1 ++ n2). rewrite E2, E1, app_assoc. split; [done|]. apply Forall_app. rewrite <- Eb at 2.
    split; [|done]. eapply Forall_impl; [exact F1|]. intros f.
    apply queued_later; [apply B|apply B].
  - by rewrite (eff_calls _ _ _ _ _ B), (eff_calls _ _ _ _ _ A).
Qed.

Lemma requested_mono a n w w' c c' : eff a w w' c c' -> requested a n w -> requested a n w'.
Proof.
  intros A R Hn. rewrite (same_server_base _ _ (eff_server _ _ _ _ _ A)).
  destruct (eff_pend _ _ _ _ _ A (base w)) as (nf & -> & _). apply elem_of_app. left. apply R.
  destruct (eff_map _ _ _ _ _ A) as [X|(X & _)]; rewrite X in Hn; [done|].
  by apply lookup_delete_Some in Hn as [_ ?].
Qed.

(** *** Worlds seen from a connection *)

Abbreviation own e := (TcpConnection.loop_ (TcpConnection.conn e)).

Lemma pend_unfocus a e l : pend (TcpServer.unfocus a e) l =
  if decide (l = own e) then queue e else pend (TcpConnection.rest e) l.
Proof.
  unfold pend. simpl. destruct (decide (l = own e)) as [->|]; by simplify_map_eq.
Qed.

(** Changes of the connection, its loop and its socket only. *)
Lemma local_eff a e e' nf :
  TcpConnection.rest e' = TcpConnection.rest e ->
  frame (TcpConnection.conn e) (TcpConnection.conn e') ->
  moves (TcpConnection.conn e) (TcpConnection.conn e') ->
  queue e' = queue e ++ nf ->
  Forall (queued a (TcpConnection.conn e') (base (TcpConnection.rest e)) (own e)) nf ->
  eff a (TcpServer.unfocus a e) (TcpServer.unfocus a e') (TcpConnection.conn e) (TcpConnection.conn e').
Proof.
  intros Er F M Eq N. pose proof F as (Fl & _). split; simpl; rewrite ?Er, ?Fl.
  - by simplify_map_eq.
  - by rewrite insert_insert_eq.
  - intros b. destruct (decide (b = a)) as [->|]; simplify_map_eq; split; eauto.
  - intros b Hb. by rewrite !lookup_insert_ne by done.
  - done.
  - done.
  - intros l. destruct (decide (l = own e)) as [->|]; simplify_map_eq; split; eauto.
  - intros l Hl. by rewrite !lookup_insert_ne by done.
  - unfold same_server. by destruct (TcpServer.server _).
  - by left.
  - intros l. rewrite !pend_unfocus, Fl, Er. case_decide as Hl.
    + exists nf. by rewrite Hl.
    + exists []. by rewrite app_nil_r.
  - done.
Qed.

Lemma quiet_eff a e e' : quiet a e e' -> state e' <> TcpConnection.kConnecting ->
  eff a (TcpServer.unfocus a e) (TcpServer.unfocus a e') (TcpConnection.conn e) (TcpConnection.conn e').
Proof.
  intros (F & Er & _ & (nf & Eq & N) & St & Ix) Hs. eapply local_eff; eauto.
  - split_and!.
    + unfold state in St. destruct St as [->|[-> ->]]; simpl; lia.
    + done.
    + unfold index, chan in Ix. naive_solver.
  - destruct F as (Fl & _). eapply Forall_impl; [exact N|]. intros f Hf.
    destruct f; simpl in *; rewrite ?Fl; naive_solver.
Qed.

#[local] Arguments EventLoop.queueInLoop : simpl never.

(** *** Closing *)

Lemma queueInLoop_same tid f ev :
  EventLoop.pendingFunctors_ (EventLoop.queueInLoop tid f ev) = EventLoop.pendingFunctors_ ev ++ [f] /\
  EventLoop.poller_ (EventLoop.queueInLoop tid f ev) = EventLoop.poller_ ev /\
  EventLoop.threadId_ (EventLoop.queueInLoop tid f ev) = EventLoop.threadId_ ev.
Proof.
  unfold EventLoop.queueInLoop, EventLoop.wakeup_after_enqueue. by destruct (_ || _).
Qed.

(** The removal of a closed connection from the map. *)
Lemma removeInLoop_eff a tid e e' : state e = TcpConnection.kDisconnected ->
  TcpServer.removeConnectionInLoop tid a e = Ret e' ->
  TcpConnection.conn e' = TcpConnection.conn e /\
  EventLoop.poller_ (TcpConnection.loop e') = EventLoop.poller_ (TcpConnection.loop e) /\
  connections (TcpServer.unfocus a e') !! TcpConnection.name_ (TcpConnection.conn e) = None /\
  eff a (TcpServer.unfocus a e) (TcpServer.unfocus a e') (TcpConnection.conn e) (TcpConnection.conn e').
Proof.
  intros Hs. unfold TcpServer.removeConnectionInLoop. intros [= <-]. simpl.
  destruct (queueInLoop_same tid (ConnectDestroyed a) (TcpConnection.loop e)) as (Eq & Ep & _).
  split_and!; [done|done|apply lookup_delete_eq|]. split; simpl.
  - by simplify_map_eq.
  - by rewrite insert_insert_eq.
  - intros b. destruct (decide (b = a)) as [->|]; simplify_map_eq; split; eauto.
  - intros b Hb. by rewrite !lookup_insert_ne by done.
  - apply frame_refl.
  - split_and!; [done| |by left]. unfold state in Hs. by rewrite Hs.
  - intros l. destruct (decide (l = own e)) as [->|]; simplify_map_eq; split; eauto.
  - intros l Hl. by rewrite !lookup_insert_ne by done.
  - done.
  - right. split_and!; [done|done|]. exists [ConnectDestroyed a]. rewrite !pend_unfocus. simpl.
    rewrite !decide_True by done. unfold queue. simpl. rewrite Eq. split; [done|set_solver].
  - intros l. rewrite !pend_unfocus. simpl. case_decide as Hl.
    + exists [ConnectDestroyed a]. unfold queue. simpl. rewrite Eq. split; [done|]. by constructor.
    + exists []. by rewrite app_nil_r.
  - done.
Qed.

(** Queueing the removal in the base loop. *)
Lemma removeConnection_eff a tid e : state e = TcpConnection.kDisconnected ->
  is_Some (loops (TcpServer.unfocus a e) !! base (TcpConnection.rest e)) ->
  post (fun e' => TcpConnection.conn e' = TcpConnection.conn e /\
      EventLoop.poller_ (TcpConnection.loop e') = EventLoop.poller_ (TcpConnection.loop e) /\
      requested a (TcpConnection.name_ (TcpConnection.conn e)) (TcpServer.unfocus a e') /\
      eff a (TcpServer.unfocus a e) (TcpServer.unfocus a e') (TcpConnection.conn e)
        (TcpConnection.conn e')) (TcpServer.removeConnection tid a e).
Proof.
  intros Hs Hb.
  assert (post (fun e' => TcpConnection.conn e' = TcpConnection.conn e /\
      EventLoop.poller_ (TcpConnection.loop e') = EventLoop.poller_ (TcpConnection.loop e) /\
      requested a (TcpConnection.name_ (TcpConnection.conn e)) (TcpServer.unfocus a e') /\
      eff a (TcpServer.unfocus a e) (TcpServer.unfocus a e') (TcpConnection.conn e)
        (TcpConnection.conn e')) (TcpServer.removeConnectionInLoop tid a e)) as InLoop.
  { destruct (TcpServer.removeConnectionInLoop tid a e) as [e'|] eqn:X; [|done].
    apply removeInLoop_eff in X as (? & ? & Hn & ?); [|done]. split_and!; try done.
    intros Y. by rewrite Hn in Y. }
  unfold TcpServer.removeConnection. destruct (decide _) as [Eb|Nb].
  - destruct (EventLoop.isInLoopThread _ _); [done|]. clear InLoop.
    destruct (queueInLoop_same tid (RemoveConnectionInLoop a) (TcpConnection.loop e)) as (Eq & Ep & _).
    split_and!; [done|done| |].
    + intros _. rewrite pend_unfocus. simpl. rewrite Eb, decide_True by done.
      unfold queue. simpl. rewrite Eq. set_solver.
    + apply local_eff with (nf := [RemoveConnectionInLoop a]); simpl; try done.
      * split_and!; [done| |by left]. unfold state in Hs. by rewrite Hs.
      * by constructor.
  - simpl in Hb. rewrite lookup_insert_ne in Hb by done. destruct Hb as [main Hm]. rewrite Hm. ostep.
    destruct (EventLoop.isInLoopThread _ _); [done|]. clear InLoop.
    destruct (queueInLoop_same tid (RemoveConnectionInLoop a) main) as (Eq & Ep & _).
    split_and!; [done|done| |].
    + intros _. rewrite pend_unfocus. simpl. rewrite decide_False by done.
      unfold pend. simpl. simplify_map_eq. rewrite Eq. set_solver.
    + split; simpl.
      * by simplify_map_eq.
      * by rewrite insert_insert_eq.
      * intros b. destruct (decide (b = a)) as [->|]; simplify_map_eq; split; eauto.
      * intros b Hb. by rewrite !lookup_insert_ne by done.
      * apply frame_refl.
      * split_and!; [done| |by left]. unfold state in Hs. by rewrite Hs.
      * intros l. destruct (decide (l = own e)) as [->|]; [simplify_map_eq; split; eauto|].
        rewrite !(lookup_insert_ne _ (own e)) by done.
        destruct (decide (l = base (TcpConnection.rest e))) as [->|]; simplify_map_eq; split; eauto.
      * intros l Hl. rewrite !(lookup_insert_ne _ (own e)) by done.
        destruct (decide (l = base (TcpConnection.rest e))) as [->|]; simplify_map_eq; [|done].
        simpl. by rewrite Ep.
      * unfold same_server. by destruct (TcpServer.server _).
      * by left.
      * intros l. rewrite !pend_unfocus. simpl. case_decide as Hl.
        -- exists []. by rewrite app_nil_r.
        -- unfold pend. simpl. destruct (decide (l = base (TcpConnection.rest e))) as [->|].
           ++ simplify_map_eq. exists [RemoveConnectionInLoop a]. rewrite Eq. split; [done|].
              by constructor.
           ++ simplify_map_eq. exists []. by rewrite app_nil_r.
      * done.
Qed.

(** *** User code *)

Context (prog : V -> TcpConnection.event -> bytes -> Z * list action).

Lemma do_actions_quiet st a acts e : env_ok st a e -> quietly st a e (do_actions a acts e).
Proof.
  revert e. induction acts as [|x acts IH]; intros e O; simpl; [by apply quietly_refl|].
  eapply quietly_bind; [|auto].
  destruct x; simpl; [by apply send_quiet|by apply shutdown_quiet].
Qed.

Lemma user_quiet st a v t e : env_ok st a e -> quietly st a e (user prog a v t e).
Proof.
  intros O. unfold user. destruct (prog _ _ _) as [n acts].
  edestruct (quiet_set_input st a e) as [O1 Q1]; [done|].
  eapply quietly_after; [exact Q1|]. by apply do_actions_quiet.
Qed.

Lemma call_user_quiet st a tid o t e : env_ok st a e -> is_user o ->
  quietly st a e (TcpConnection.call_user (callbacks prog a tid) o t e).
Proof.
  intros O U. unfold TcpConnection.call_user. destruct o as [u|]; [|done]. ostep.
  destruct (U u eq_refl) as [v ->]. by apply user_quiet.
Qed.

(** *** Dispatching events

    [serving st a w c e]: [e] is reached from the world [w] by work on the
    connection [c] at [a]. *)

Definition serving st (a : Z) w c e : Prop :=
  env_ok st a e /\ index e <> EPollPoller.kNew /\
  eff a w (TcpServer.unfocus a e) c (TcpConnection.conn e) /\
  (state e = TcpConnection.kDisconnected ->
     requested a (TcpConnection.name_ c) (TcpServer.unfocus a e)).

Lemma serving_quiet st a w c e e' : serving st a w c e -> env_ok st a e' -> quiet a e e' ->
  serving st a w c e'.
Proof.
  intros (O & Hi & Ef & Rq) O' Q.
  pose proof (quiet_eff a e e' Q (proj1 (proj1 (proj2 O')))) as Ef'.
  split_and!; [done| | |].
  - destruct Q as (_ & _ & _ & _ & _ & Ix). naive_solver.
  - by eapply eff_trans.
  - intros Hs. eapply requested_mono; [exact Ef'|]. apply Rq.
    destruct Q as (_ & _ & _ & _ & [X|[X Y]] & _); congruence.
Qed.

Lemma serving_quietly st a w c e (r : outcome env) : serving st a w c e -> quietly st a e r ->
  post (serving st a w c) r.
Proof. intros Sv. apply post_mono. intros e' [O Q]. by eapply serving_quiet. Qed.

Lemma disableAll_serving st a e : reg st a e -> callbacks_ok (TcpConnection.conn e) ->
  index e <> EPollPoller.kNew ->
  post (fun e' => env_ok st a e' /\ index e' <> EPollPoller.kNew /\
      state e' = TcpConnection.kDisconnected /\
      TcpConnection.rest e' = TcpConnection.rest e /\
      eff a (TcpServer.unfocus a e) (TcpServer.unfocus a e') (TcpConnection.conn e)
        (TcpConnection.conn e'))
    (TcpConnection.on_channel a Channel.disableAll
       (TcpConnection.setState TcpConnection.kDisconnected e)).
Proof.
  intros G Cb0 Hi. set (e0 := TcpConnection.setState TcpConnection.kDisconnected e).
  assert (reg st a e0) as G0 by exact G.
  eapply post_mono; [|eapply (on_channel_reg st a e0 Channel.disableAll
    (fun m => Z.land m Channel.kNoneEvent)); [done|exact G0]].
  intros e' (G' & Hi' & (i & m & Ec) & (p & El) & Es & Er).
  assert (state e' = TcpConnection.kDisconnected) as Hs by (unfold state; by rewrite Ec).
  assert (callbacks_ok (TcpConnection.conn e')) as Cb' by (by rewrite Ec).
  split_and!; try done.
  - split; [done|]. split; [|done]. split; [by rewrite Hs|done].
  - apply local_eff with (nf := []); try done.
    + by rewrite Ec.
    + unfold moves, state in *. rewrite Hs. split_and!; [by destruct (state_of (TcpConnection.conn e))|done|by left].
    + unfold queue. rewrite El. simpl. by rewrite app_nil_r.
Qed.

Context (w : World) (base_lives : is_Some (loops w !! base w)).

Lemma base_lives_later a w' c c' : eff a w w' c c' -> is_Some (loops w' !! base w').
Proof.
  intros Ef. rewrite (same_server_base _ _ (eff_server _ _ _ _ _ Ef)).
  by apply (eff_loops _ _ _ _ _ Ef).
Qed.

Lemma handleClose_serving st a tid c e : serving st a w c e ->
  post (serving st a w c) (TcpConnection.handleClose a (callbacks prog a tid) e).
Proof.
  intros ((G & L & Cb0) & Hi & Ef & _). unfold TcpConnection.handleClose.
  eapply post_bind; [by eapply disableAll_serving|]. intros e1 (O1 & Hi1 & Hs1 & Er1 & Ef1).
  eapply post_bind; [apply (call_user_quiet st); [done|apply (env_user _ _ _ O1)]|].
  intros e2 [O2 Q2]. pose proof Q2 as (F2 & _ & _ & _ & St2 & Ix2).
  assert (state e2 = TcpConnection.kDisconnected) as Hs2 by (destruct St2 as [|[]]; congruence).
  pose proof (quiet_eff a e1 e2 Q2 (proj1 (proj1 (proj2 O2)))) as Ef2.
  pose proof (eff_trans _ _ _ _ _ _ _ _ Ef (eff_trans _ _ _ _ _ _ _ _ Ef1 Ef2)) as Ef02.
  destruct O2 as (G2 & L2 & (Ca & Cm & Cw & Ch & Cc)). unfold TcpConnection.call_user.
  rewrite Cc. ostep. eapply post_mono; [|eapply removeConnection_eff; [done|]].
  - intros e3 (Ec & Ep & Rq & Ef3). pose proof (eff_trans _ _ _ _ _ _ _ _ Ef02 Ef3) as Ef03.
    assert (TcpConnection.name_ (TcpConnection.conn e2) = TcpConnection.name_ c) as En
      by apply (eff_frame _ _ _ _ _ Ef02).
    split_and!; [|unfold index, chan; rewrite Ec; naive_solver|done|by rewrite <- En].
    unfold env_ok, reg, live, state, index, chan. rewrite Ec, Ep. split_and!; try done; apply G2 || apply L2.
  - exact (base_lives_later _ _ _ _ Ef02).
Qed.

Lemma handleRead_serving st a tid t c e : serving st a w c e ->
  post (serving st a w c) (TcpConnection.handleRead a (callbacks prog a tid) t e).
Proof.
  intros Sv. unfold TcpConnection.handleRead. destruct (sk_readv _ _) as [r s].
  eapply post_bind; [apply Buffer.post_readFd|]. intros [[n err] b] _.
  destruct (quiet_set_input st a e b) as [O1 Q1]; [apply Sv|].
  edestruct (quiet_set_sock st a _ s O1) as [O2 Q2].
  pose proof (serving_quiet _ _ _ _ _ _ (serving_quiet _ _ _ _ _ _ Sv O1 Q1) O2 Q2) as Sv2.
  destruct (0 <? n); [|destruct (n =? 0)].
  - eapply serving_quietly; [exact Sv2|]. apply call_user_quiet; [done|apply (env_user _ _ _ O2)].
  - by apply handleClose_serving.
  - exact Sv2.
Qed.

(** One event dispatch of a registered connection. *)
Lemma dispatch_serving st a r t c e : serving st a w c e ->
  post (serving st a w c) (dispatch prog a r t e).
Proof.
  intros Sv. unfold dispatch, TcpConnection.handleEvent.
  set (tid := EventLoop.threadId_ _). set (e0 := TcpConnection.upd_conn _ e).
  apply Channel.handleEvent_post; [|by eauto|].
  - intros g x t' e' Sv'. destruct x; simpl; try done.
    + by apply handleRead_serving.
    + eapply serving_quietly; [done|]. apply handleWrite_quiet; apply Sv'.
    + by apply handleClose_serving.
  - edestruct (quiet_set_revents st a e r) as [O1 Q1]; [apply Sv|]. by eapply serving_quiet.
Qed.

End Server.

(** ** The invariant *)

Section Invariant.
Context {V Cb K E S : Type} `{EPOLL_LAWS K, EVENTFD E, SOCKET S}.

Abbreviation poller := (EPollPoller.EPollPoller K).
Abbreviation cb := (TcpServer.conn_cb V).
Abbreviation Conn := (TcpConnection.TcpConnection cb).
Abbreviation event_loop := (EventLoop.EventLoop (functor cb) poller E chan_cb).
Abbreviation World := (TcpServer.World V Cb poller E S).
Abbreviation env := (TcpConnection.Env cb poller E S World).
Abbreviation base w := (TcpServer.loop_ (TcpServer.server w)).
Abbreviation conns := TcpServer.conns.
Abbreviation loops := TcpServer.loops.
Abbreviation connections w := (TcpServer.connections_ (TcpServer.server w)).
Abbreviation state_of := TcpConnection.state_.
Abbreviation index_of c := (Channel.index_ (TcpConnection.channel_ c)).
Implicit Types (w : World) (e : env) (c : Conn) (ev : event_loop).

Context (static : Z -> gmap Z (Channel.Channel chan_cb)).

(** The channels of the loop at [l]. *)
Definition store w (l : Z) : gmap Z (Channel.Channel chan_cb) :=
  static l ∪ (TcpConnection.channel_ <$> filter (fun x => TcpConnection.loop_ x.2 = l) (conns w)).

Definition conn_inv w (a : Z) c : Prop :=
  is_Some (loops w !! TcpConnection.loop_ c) /\ is_Some (TcpServer.socks w !! a) /\
  callbacks_ok c /\
  (state_of c = TcpConnection.kConnecting ->
     index_of c = EPollPoller.kNew /\ connections w !! TcpConnection.name_ c = Some a) /\
  (state_of c <> TcpConnection.kConnecting -> state_of c <> TcpConnection.kDisconnected ->
     index_of c <> EPollPoller.kNew) /\
  (** a channel the poller knows belongs to a connection in the map or about
      to be destroyed *)
  (index_of c <> EPollPoller.kNew -> connections w !! TcpConnection.name_ c = Some a \/
     ConnectDestroyed a ∈ pend w (TcpConnection.loop_ c)) /\
  (state_of c = TcpConnection.kDisconnected -> requested a (TcpConnection.name_ c) w).

(** Functors run where they should, on connections that exist. *)
Definition functor_inv w (l : Z) (f : functor cb) : Prop :=
  exists a c, functor_conn f = Some a /\ conns w !! a = Some c /\
  match f with
  | SendInLoopStr _ _ | ShutdownInLoop _ =>
      state_of c <> TcpConnection.kConnecting /\ l = TcpConnection.loop_ c
  | ConnectEstablished _ => state_of c = TcpConnection.kConnecting /\ l = TcpConnection.loop_ c
  | ConnectDestroyed _ => state_of c = TcpConnection.kDisconnected /\ l = TcpConnection.loop_ c
  | RemoveConnectionInLoop _ => state_of c = TcpConnection.kDisconnected /\ l = base w
  | _ => notification a f /\ state_of c <> TcpConnection.kConnecting /\
         l = TcpConnection.loop_ c
  end.

(** Behind a functor with a raw [this] someone still holds the connection:
    the map, or the functor that will destroy it. *)
Definition raw_inv w : Prop := forall l pre f suf a c, pend w l = pre ++ f :: suf ->
  is_raw f = true -> functor_conn f = Some a -> conns w !! a = Some c ->
  connections w !! TcpConnection.name_ c = Some a \/ ConnectDestroyed a ∈ suf.

(** Descriptors and addresses of live channels are distinct. *)
Definition distinct w : Prop :=
  (forall a a' c c', conns w !! a = Some c -> conns w !! a' = Some c' ->
     Channel.fd_ (TcpConnection.channel_ c) = Channel.fd_ (TcpConnection.channel_ c') -> a = a') /\
  (forall a c l, conns w !! a = Some c -> is_Some (loops w !! l) ->
     static l !! a = None /\
     forall s ch, static l !! s = Some ch -> Channel.fd_ ch <> Channel.fd_ (TcpConnection.channel_ c)).

(** Connections are named after distinct numbers already used. *)
Definition names_inv w : Prop :=
  (forall a c, conns w !! a = Some c -> exists k,
     1 <= k < TcpServer.nextConnId_ (TcpServer.server w) /\
     TcpConnection.name_ c = TcpServer.name_at (TcpServer.server w) k) /\
  (forall a a' c c', conns w !! a = Some c -> conns w !! a' = Some c' ->
     TcpConnection.name_ c = TcpConnection.name_ c' -> a = a').

Definition is_established (f : functor cb) : bool :=
  match f with ConnectEstablished _ => true | _ => false end.

(** The loops the pool hands out exist. *)
Definition pool_ok w : Prop :=
  let p := TcpServer.threadPool_ (TcpServer.server w) in
  is_Some (loops w !! EventLoopThreadPool.baseLoop_ p) /\
  Forall (fun l => is_Some (loops w !! l)) (EventLoopThreadPool.loops_ p).

Definition server_inv w : Prop :=
  is_Some (loops w !! base w) /\ pool_ok w /\
  TcpServer.addr_ok (TcpServer.server w) /\ 1 <= TcpServer.nextConnId_ (TcpServer.server w) < 2 ^ 31.

(** A call is of a connection that exists and has been up. *)
Definition call_inv w (x : Z * TcpConnection.call_at) : Prop :=
  (exists c, conns w !! x.1 = Some c /\ state_of c <> TcpConnection.kConnecting) /\
  match x.2 with TcpConnection.Checked y => buffer_ok y | TcpConnection.Stored => True end.

Record Inv w : Prop := mkInv {
  i_poller : forall l ev, loops w !! l = Some ev ->
    EPollPoller.inv (store w l) (EventLoop.poller_ ev);
  i_conn : forall a c, conns w !! a = Some c -> conn_inv w a c;
  i_map : forall n a, connections w !! n = Some a ->
    exists c, conns w !! a = Some c /\ TcpConnection.name_ c = n;
  i_pend : forall l f, f ∈ pend w l -> functor_inv w l f;
  i_raw : raw_inv w;
  i_once : forall l, NoDup (filter (fun f => is_established f = true) (pend w l));
  i_names : names_inv w;
  i_distinct : distinct w;
  i_server : server_inv w;
  i_calls : map_Forall (fun _ x => call_inv w x) (TcpServer.calls w)
}.

(** *** Popping a functor *)

Lemma pend_pop l l' w : pend (pop l w) l' = if decide (l' = l) then tail (pend w l') else pend w l'.
Proof.
  unfold pop, pend. destruct (loops w !! l) as [ev|] eqn:El; simpl.
  - case_decide as Hl; [subst; by simplify_map_eq|by rewrite lookup_insert_ne].
  - case_decide as Hl; [subst; by rewrite El|done].
Qed.

Lemma pop_same l w : TcpServer.server (pop l w) = TcpServer.server w /\
  conns (pop l w) = conns w /\ TcpServer.socks (pop l w) = TcpServer.socks w.
Proof. unfold pop. by destruct (loops w !! l). Qed.

Lemma pop_calls l w : TcpServer.calls (pop l w) = TcpServer.calls w.
Proof. unfold pop. by destruct (loops w !! l). Qed.

Lemma pop_poller l l' w :
  EventLoop.poller_ <$> loops (pop l w) !! l' = EventLoop.poller_ <$> loops w !! l'.
Proof.
  unfold pop. destruct (loops w !! l) as [ev|] eqn:El; [simpl|done].
  destruct (decide (l' = l)) as [->|]; [by simplify_map_eq|by rewrite lookup_insert_ne].
Qed.

Lemma fmap_is_Some_iff {A B} (f : A -> B) (o1 o2 : option A) :
  f <$> o1 = f <$> o2 -> is_Some o1 <-> is_Some o2.
Proof. destruct o1, o2; intros X; split; eauto; try discriminate. Qed.

(** *** The channels of a loop *)

Lemma store_lookup w l s : store w l !! s =
  match static l !! s with
  | Some ch => Some ch
  | None => match conns w !! s with
            | Some c => if decide (TcpConnection.loop_ c = l) then Some (TcpConnection.channel_ c)
                        else None
            | None => None
            end
  end.
Proof.
  unfold store. rewrite lookup_union, lookup_fmap, map_lookup_filter.
  destruct (static l !! s); simpl; [by destruct (_ <$> _)|].
  destruct (conns w !! s) as [c|]; simpl; [|done].
  destruct (decide (TcpConnection.loop_ c = l)) as [Hl|Hl]; simpl.
  - by rewrite option_guard_True.
  - by rewrite option_guard_False.
Qed.

Lemma store_insert w w' a c c' l : conns w !! a = Some c -> conns w' = <[a := c']> (conns w) ->
  TcpConnection.loop_ c' = TcpConnection.loop_ c -> static l !! a = None ->
  store w' l = if decide (TcpConnection.loop_ c = l)
               then <[a := TcpConnection.channel_ c']> (store w l) else store w l.
Proof.
  intros Hc Hw Hl Hs. apply map_eq. intros s. rewrite store_lookup, Hw.
  destruct (decide (s = a)) as [->|Hne].
  - rewrite Hs, lookup_insert_eq, Hl. case_decide; [by rewrite lookup_insert_eq|].
    rewrite store_lookup, Hs, Hc. by rewrite decide_False.
  - rewrite lookup_insert_ne by done. case_decide; rewrite ?lookup_insert_ne by done;
      by rewrite store_lookup.
Qed.

End Invariant.

(** ** Work on a connection preserves the invariant

    [c] at [a] became [c'] when [w] became [w']; [Some l] says that the work
    was the functor at the head of the queue of [l], which is then removed. *)

Section Preserve.
Context {V Cb K E S : Type} `{EPOLL_LAWS K, EVENTFD E, SOCKET S}.

Abbreviation poller := (EPollPoller.EPollPoller K).
Abbreviation cb := (TcpServer.conn_cb V).
Abbreviation Conn := (TcpConnection.TcpConnection cb).
Abbreviation World := (TcpServer.World V Cb poller E S).
Abbreviation base w := (TcpServer.loop_ (TcpServer.server w)).
Abbreviation conns := TcpServer.conns.
Abbreviation loops := TcpServer.loops.
Abbreviation connections w := (TcpServer.connections_ (TcpServer.server w)).
Abbreviation state_of := TcpConnection.state_.
Abbreviation index_of c := (Channel.index_ (TcpConnection.channel_ c)).

Definition popped (o : option Z) (w : World) : World :=
  match o with Some l => pop l w | None => w end.

Lemma popped_same o w' : TcpServer.server (popped o w') = TcpServer.server w' /\
  conns (popped o w') = conns w' /\ TcpServer.socks (popped o w') = TcpServer.socks w'.
Proof. destruct o; [apply pop_same|done]. Qed.

Lemma popped_calls o w' : TcpServer.calls (popped o w') = TcpServer.calls w'.
Proof. destruct o; [apply pop_calls|done]. Qed.

Lemma popped_poller o w' l :
  EventLoop.poller_ <$> loops (popped o w') !! l = EventLoop.poller_ <$> loops w' !! l.
Proof. destruct o; [apply pop_poller|done]. Qed.

(** What the functor [f] of [a] has achieved when it returns. *)
Definition finished (a : Z) (w' : World) (c c' : Conn) (f : functor cb) : Prop :=
  functor_conn f = Some a /\
  (f = ConnectDestroyed a -> index_of c' = EPollPoller.kNew) /\
  (f = RemoveConnectionInLoop a -> connections w' !! TcpConnection.name_ c = None) /\
  (state_of c = TcpConnection.kConnecting -> f = ConnectEstablished a).

Context (static : Z -> gmap Z (Channel.Channel chan_cb)).
Context (w w' : World) (a : Z) (c c' : Conn) (o : option Z).
Context (HI : Inv static w) (Ef : eff a w w' c c').
Context (Hreg : forall ev, loops w' !! TcpConnection.loop_ c = Some ev ->
  EPollPoller.inv (store static w' (TcpConnection.loop_ c)) (EventLoop.poller_ ev)).
Context (Hlive : state_of c' <> TcpConnection.kDisconnected -> index_of c' <> EPollPoller.kNew).
Context (Hclosed : state_of c' = TcpConnection.kDisconnected ->
  requested a (TcpConnection.name_ c) w').
Context (Hpop : match o with
  | Some l => exists f q, pend w l = f :: q /\ finished a w' c c' f
  | None => state_of c = TcpConnection.kConnecting ->
      forall l, ConnectEstablished a ∉ pend w l
  end).

Lemma popped_loops l : is_Some (loops (popped o w') !! l) <-> is_Some (loops w !! l).
Proof. rewrite <- (eff_loops _ _ _ _ _ Ef). eapply fmap_is_Some_iff, popped_poller. Qed.

Lemma popped_base : base (popped o w') = base w.
Proof.
  destruct (popped_same o w') as (-> & _). apply same_server_base, Ef.
Qed.

Lemma popped_pend l : exists nf, Forall (queued a c' (base w) l) nf /\
  pend (popped o w') l = (if decide (o = Some l) then tail (pend w l) else pend w l) ++ nf /\
  pend w' l = pend w l ++ nf.
Proof.
  destruct (eff_pend _ _ _ _ _ Ef l) as (nf & En & Fn). exists nf. split; [done|]. split; [|done].
  destruct o as [l0|]; simpl.
  - rewrite pend_pop, En. destruct (decide (l = l0)) as [->|Hl].
    + rewrite decide_True by done. destruct Hpop as (f & q & -> & _). done.
    + rewrite decide_False by congruence. done.
  - by rewrite En.
Qed.

(** A functor still in the queue was there before, behind the one that ran,
    or has been queued meanwhile. *)
Lemma popped_elem l f : f ∈ pend (popped o w') l ->
  f ∈ pend w l /\ (is_established f = true -> o = Some l -> f ∈ tail (pend w l)) \/
  queued a c' (base w) l f.
Proof.
  destruct (popped_pend l) as (nf & Fn & -> & _). intros [Hf|Hf]%elem_of_app.
  - left. case_decide; [|naive_solver]. split; [|done]. destruct (pend w l); set_solver.
  - right. rewrite Forall_forall in Fn. auto.
Qed.

(** Nothing but the functor that ran is lost. *)
Lemma popped_keeps l f : f ∈ pend w' l -> f ∈ pend (popped o w') l \/ finished a w' c c' f.
Proof.
  destruct (eff_pend _ _ _ _ _ Ef l) as (nf & En & Fn). rewrite En.
  destruct o as [l0|]; simpl; [|rewrite En; auto].
  rewrite pend_pop, En. case_decide as Hl; [|auto]. subst.
  destruct Hpop as (f0 & q & -> & Hf). simpl. intros [->|?]%elem_of_cons; auto.
Qed.

Lemma kept_other b l f : functor_conn f = Some b -> b <> a -> f ∈ pend w l ->
  f ∈ pend (popped o w') l.
Proof.
  intros Ho Hb Hf. destruct (popped_keeps l f) as [?|(X & _)]; [|done|congruence].
  destruct (eff_pend _ _ _ _ _ Ef l) as (nf & -> & _). set_solver.
Qed.

Lemma popped_map n x : connections (popped o w') !! n = Some x -> connections w !! n = Some x.
Proof.
  destruct (popped_same o w') as (-> & _). destruct (eff_map _ _ _ _ _ Ef) as [->|(-> & _)]; [done|].
  by intros [_ ?]%lookup_delete_Some.
Qed.

Lemma popped_map_other n x : n <> TcpConnection.name_ c -> connections w !! n = Some x ->
  connections (popped o w') !! n = Some x.
Proof.
  destruct (popped_same o w') as (-> & _). destruct (eff_map _ _ _ _ _ Ef) as [->|(-> & _)]; [done|].
  intros. by rewrite lookup_delete_ne.
Qed.

Lemma was_connecting : state_of c = TcpConnection.kConnecting ->
  (exists l q, o = Some l /\ pend w l = ConnectEstablished a :: q) \/
  forall l, ConnectEstablished a ∉ pend w l.
Proof.
  intros Hs. destruct o as [l|]; [left|by right; apply Hpop].
  destruct Hpop as (f & q & Ep & (_ & _ & _ & Hf)). exists l, q. split; [done|].
  by rewrite Ep, (Hf Hs).
Qed.

Lemma preserve_self : conn_inv (popped o w') a c'.
Proof.
  destruct (i_conn _ _ HI _ _ (eff_from _ _ _ _ _ Ef)) as (Il & Is & Ic & Icon & Iopen & Ireg & Irq).
  destruct (eff_frame _ _ _ _ _ Ef) as (Fl & Fn & _ & Fc).
  destruct (eff_moves _ _ _ _ _ Ef) as (Mr & Mc & Mi). pose proof (rank_closed _ _ Mr) as Md.
  destruct (popped_same o w') as (Es & _ & Ek). unfold conn_inv. rewrite Fl, Fn, Ek. split_and!.
  - by apply popped_loops.
  - by apply (eff_socks _ _ _ _ _ Ef).
  - auto.
  - done.
  - intros _. apply Hlive.
  - intros Hi.
    assert (connections (popped o w') !! TcpConnection.name_ c = Some a \/
            ConnectDestroyed a ∈ pend w' (TcpConnection.loop_ c)) as [?|Hp]; [|by left|].
    { assert (connections w !! TcpConnection.name_ c = Some a \/
            ConnectDestroyed a ∈ pend w (TcpConnection.loop_ c)) as [Hm|Hp].
      { destruct (Mi Hi) as [?|Hs]; [auto|left; by apply Icon]. }
      - rewrite Es. destruct (eff_map _ _ _ _ _ Ef) as [->|(_ & _ & nf & -> & ?)]; [auto|right; set_solver].
      - right. destruct (eff_pend _ _ _ _ _ Ef (TcpConnection.loop_ c)) as (nf & -> & _). set_solver. }
    right. destruct (popped_keeps _ _ Hp) as [?|(_ & X & _)]; [done|]. by destruct (Hi (X eq_refl)).
  - intros Hs Hm. rewrite popped_base, <- (same_server_base _ _ (eff_server _ _ _ _ _ Ef)).
    rewrite Es in Hm. destruct (popped_keeps _ _ (Hclosed Hs Hm)) as [?|(_ & _ & X & _)]; [done|].
    by rewrite (X eq_refl) in Hm.
Qed.

Lemma preserve_other b c1 : b <> a -> conns w !! b = Some c1 -> conn_inv (popped o w') b c1.
Proof.
  intros Hb Hc. destruct (i_conn _ _ HI _ _ Hc) as (Il & Is & Ic & Icon & Iopen & Ireg & Irq).
  destruct (popped_same o w') as (_ & _ & Ek).
  assert (TcpConnection.name_ c1 <> TcpConnection.name_ c) as Hn.
  { intros X. apply Hb. eapply (i_names _ _ HI); [exact Hc|apply (eff_from _ _ _ _ _ Ef)|done]. }
  unfold conn_inv. rewrite Ek. split_and!; auto.
  - by apply popped_loops.
  - by apply (eff_socks _ _ _ _ _ Ef).
  - intros Hs. split; [by apply Icon|]. apply popped_map_other; [done|by apply Icon].
  - intros Hi. destruct (Ireg Hi) as [?|?]; [left; by apply popped_map_other|right].
    by eapply kept_other.
  - intros Hs Hm. rewrite popped_base. eapply kept_other; [done|done|].
    apply (Irq Hs). by apply popped_map.
Qed.

Lemma preserve_lookup b c1 : conns (popped o w') !! b = Some c1 ->
  (b = a /\ c1 = c') \/ (b <> a /\ conns w !! b = Some c1).
Proof.
  destruct (popped_same o w') as (_ & -> & _). rewrite (eff_conns _ _ _ _ _ Ef).
  destruct (decide (b = a)) as [->|]; intros; simplify_map_eq; auto.
Qed.

Lemma preserve_same_lookup b c1 : conns w !! b = Some c1 -> exists c2,
  conns (popped o w') !! b = Some c2 /\ frame c1 c2 /\ (b = a -> c1 = c /\ c2 = c') /\
  (b <> a -> c2 = c1).
Proof.
  intros Hc. destruct (popped_same o w') as (_ & -> & _). rewrite (eff_conns _ _ _ _ _ Ef).
  pose proof (eff_from _ _ _ _ _ Ef). destruct (decide (b = a)) as [->|].
  - exists c'. simplify_map_eq. split_and!; try done; apply Ef.
  - exists c1. rewrite lookup_insert_ne by done. split_and!; done.
Qed.

Lemma preserve_pend l f : f ∈ pend (popped o w') l -> functor_inv (popped o w') l f.
Proof.
  destruct (eff_frame _ _ _ _ _ Ef) as (Fl & _). destruct (eff_moves _ _ _ _ _ Ef) as (Mr & Mc & _).
  pose proof (rank_closed _ _ Mr) as Md.
  intros [[Hf Ht]|Hq]%popped_elem.
  - destruct (i_pend _ _ HI _ _ Hf) as (b & c1 & Ho & Hc & Hm).
    destruct (preserve_same_lookup _ _ Hc) as (c2 & Hc2 & (F2 & _) & Sa & Sb).
    exists b, c2. split_and!; [done|done|]. rewrite popped_base, F2.
    destruct (decide (b = a)) as [->|Hb]; [destruct (Sa eq_refl) as [-> ->]|rewrite (Sb Hb) in *; done].
    destruct f; try (by destruct Hm as (? & ? & ?); split_and!);
      try (by destruct Hm as [? ?]; split; [apply Md|]);
      try (by destruct Hm as [? ?]; split; [exact Mc|]). destruct Hm as [Hs ->]. exfalso.
    simpl in Ho. injection Ho as ->.
    destruct (was_connecting Hs) as [(l & q & Eo & Ep)|Hno]; [|by apply (Hno _ Hf)].
    pose proof (i_pend _ _ HI l (ConnectEstablished a)) as (b & c1 & Ho & Hc1 & _ & El).
    { rewrite Ep. set_solver. }
    injection Ho as <-. rewrite Hc in Hc1. injection Hc1 as <-. rewrite <- El in *.
    specialize (Ht eq_refl Eo). pose proof (i_once _ _ HI l) as Nd. rewrite Ep in Ht, Nd.
    rewrite filter_cons_True in Nd by done. apply NoDup_cons in Nd as [X _]. apply X.
    by apply list_elem_of_filter.
  - assert (conns (popped o w') !! a = Some c') as Hc.
    { destruct (popped_same o w') as (_ & -> & _). rewrite (eff_conns _ _ _ _ _ Ef). by simplify_map_eq. }
    exists a, c'. rewrite popped_base.
    destruct f; simpl in Hq; try (by destruct Hq as [[] _]);
      [destruct Hq as ((-> & ?) & ->)..|destruct Hq as (-> & ? & ->)|destruct Hq as (-> & ? & ->)];
      by split_and!.
Qed.

(** A functor with a raw [this] was there before, and what is behind it
    has only grown. *)
Lemma preserve_raw : raw_inv (popped o w').
Proof.
  intros l pre f suf b c2 Hp Hr Hf Hc2. destruct (popped_pend l) as (nf & Fn & Ep & En).
  assert (f ∉ nf) as Hn.
  { intros Hin. rewrite Forall_forall in Fn. specialize (Fn _ Hin).
    destruct f; try discriminate Hr; by destruct Fn as [[] _]. }
  rewrite Hp in Ep. destruct (app_cons_not_in _ _ _ _ _ Ep Hn) as (suf' & Eq & ->).
  assert (exists h, pend w l = h ++ f :: suf') as [h Hw].
  { destruct (decide _); [|by exists pre]. destruct (pend w l) as [|x q]; [by destruct pre|].
    exists (x :: pre). simpl in Eq. by rewrite Eq. }
  assert (exists c1, conns w !! b = Some c1 /\ TcpConnection.name_ c2 = TcpConnection.name_ c1) as (c1 & Hc1 & ->).
  { destruct (preserve_lookup _ _ Hc2) as [[-> ->]|[Hb Hc1]]; [|by exists c2].
    exists c. split; [apply Ef|apply (eff_frame _ _ _ _ _ Ef)]. }
  destruct (i_raw _ _ HI l h f suf' b c1 Hw Hr Hf Hc1) as [Hm|?]; [|right; set_solver].
  destruct (decide (b = a)) as [->|Hb].
  - rewrite (eff_from _ _ _ _ _ Ef) in Hc1. injection Hc1 as <-. destruct (popped_same o w') as (-> & _).
    destruct (eff_map _ _ _ _ _ Ef) as [->|(_ & _ & nf' & En' & Hd)]; [by left|right].
    assert (f ∈ pend w l) as Hfw by (rewrite Hw; set_solver).
    destruct (i_pend _ _ HI l f Hfw) as (b & c1 & Hb & Hc1 & Hl). rewrite Hf in Hb. injection Hb as <-.
    rewrite (eff_from _ _ _ _ _ Ef) in Hc1. injection Hc1 as <-.
    assert (l = TcpConnection.loop_ c) as -> by (destruct f; try discriminate Hr; by destruct Hl as (? & ? & ?) || apply Hl).
    rewrite En in En'. apply app_inv_head in En' as ->. set_solver.
  - left. apply popped_map_other; [|done]. intros X. apply Hb.
    eapply (i_names _ _ HI); [exact Hc1|apply (eff_from _ _ _ _ _ Ef)|done].
Qed.

Lemma preserve_once l : NoDup (filter (fun f => is_established f = true) (pend (popped o w') l)).
Proof.
  destruct (popped_pend l) as (nf & Fn & -> & _). rewrite filter_app.
  rewrite (filter_none _ nf), app_nil_r.
  - pose proof (i_once _ _ HI l) as Nd. case_decide; [|done].
    destruct (pend w l) as [|f q]; [done|]. simpl. rewrite filter_cons in Nd.
    case_decide; [by apply NoDup_cons in Nd as [_ ?]|done].
  - eapply Forall_impl; [exact Fn|]. intros f. destruct f; simpl; try (by intros _ [=]).
    by intros [[] _].
Qed.

Lemma preserve_poller l ev : loops (popped o w') !! l = Some ev ->
  EPollPoller.inv (store static (popped o w') l) (EventLoop.poller_ ev).
Proof.
  intros Hl. pose proof (popped_poller o w' l) as Hp. rewrite Hl in Hp. symmetry in Hp.
  apply fmap_Some in Hp as (ev' & Hl' & ->).
  assert (store static (popped o w') l = store static w' l) as ->.
  { unfold store. by destruct (popped_same o w') as (_ & -> & _). }
  destruct (decide (l = TcpConnection.loop_ c)) as [->|Hne]; [by apply Hreg|].
  assert (is_Some (loops w !! l)) as Il by (apply (eff_loops _ _ _ _ _ Ef); eauto).
  destruct (i_distinct _ _ HI) as [_ Ds].
  rewrite (store_insert static w w' a c c'); [|apply Ef|apply Ef|apply Ef|].
  - rewrite decide_False by done. pose proof (eff_poller _ _ _ _ _ Ef l Hne) as Hp.
    rewrite Hl' in Hp. symmetry in Hp. apply fmap_Some in Hp as (ev0 & Hl0 & ->).
    by apply (i_poller _ _ HI).
  - by apply (Ds a c l (eff_from _ _ _ _ _ Ef)).
Qed.

Lemma preserve_back b c2 : conns (popped o w') !! b = Some c2 ->
  exists c1, conns w !! b = Some c1 /\ frame c1 c2.
Proof.
  intros [[-> ->]|[Hb Hc]]%preserve_lookup; [exists c|exists c2].
  - split; apply Ef.
  - split; [done|apply frame_refl].
Qed.

Theorem preserve_inv : Inv static (popped o w').
Proof.
  pose proof (eff_server _ _ _ _ _ Ef) as Sv. unfold same_server in Sv.
  destruct (popped_same o w') as (Es & _). split.
  - apply preserve_poller.
  - intros b c1 [[-> ->]|[Hb Hc]]%preserve_lookup; [apply preserve_self|by apply preserve_other].
  - intros n b Hm. apply popped_map in Hm. destruct (i_map _ _ HI _ _ Hm) as (c1 & Hc & <-).
    destruct (preserve_same_lookup _ _ Hc) as (c2 & Hc2 & (_ & ? & _) & _). eauto.
  - apply preserve_pend.
  - apply preserve_raw.
  - apply preserve_once.
  - destruct (i_names _ _ HI) as [N1 N2]. split.
    + intros b c2 (c1 & Hc & (_ & -> & _))%preserve_back. rewrite Es, Sv. simpl. by apply (N1 b).
    + intros b b' c2 c2' (c1 & Hc & (_ & -> & _))%preserve_back (c1' & Hc' & (_ & -> & _))%preserve_back.
      by apply N2.
  - destruct (i_distinct _ _ HI) as [D1 D2]. split.
    + intros b b' c2 c2' (c1 & Hc & (_ & _ & -> & _))%preserve_back
        (c1' & Hc' & (_ & _ & -> & _))%preserve_back. by apply D1.
    + intros b c2 l (c1 & Hc & (_ & _ & -> & _))%preserve_back Hl. apply popped_loops in Hl.
      by apply (D2 b).
  - destruct (i_server _ _ HI) as (Hb & [P1 P2] & Ha & Hn). unfold server_inv, pool_ok.
    rewrite popped_base, Es, Sv. simpl. split_and!; [by apply popped_loops|by apply popped_loops| |done|apply Hn..].
    eapply Forall_impl; [exact P2|]. intros l Hl. by apply popped_loops.
  - rewrite popped_calls, (eff_calls _ _ _ _ _ Ef). eapply map_Forall_impl; [apply (i_calls _ _ HI)|].
    intros tid [b k] [(c1 & Hc & Hs) Hk]. split; [|done]. simpl in *.
    destruct (preserve_same_lookup _ _ Hc) as (c2 & Hc2 & _ & Sa & Sb). exists c2. split; [done|].
    destruct (decide (b = a)) as [->|Hb]; [|by rewrite Sb].
    destruct (Sa eq_refl) as [-> ->]. apply (eff_moves _ _ _ _ _ Ef).
Qed.

End Preserve.

(** ** Steps preserve the invariant *)

#[local] Existing Instance TcpConnection.env_hasloop.

Section Steps.
Context {V Cb K E S : Type} `{EPOLL_LAWS K, EVENTFD E, SOCKET S}.

Abbreviation poller := (EPollPoller.EPollPoller K).
Abbreviation cb := (TcpServer.conn_cb V).
Abbreviation Conn := (TcpConnection.TcpConnection cb).
Abbreviation event_loop := (EventLoop.EventLoop (functor cb) poller E chan_cb).
Abbreviation World := (TcpServer.World V Cb poller E S).
Abbreviation env := (TcpConnection.Env cb poller E S World).
Abbreviation base w := (TcpServer.loop_ (TcpServer.server w)).
Abbreviation conns := TcpServer.conns.
Abbreviation loops := TcpServer.loops.
Abbreviation connections w := (TcpServer.connections_ (TcpServer.server w)).
Abbreviation state_of := TcpConnection.state_.
Abbreviation index_of c := (Channel.index_ (TcpConnection.channel_ c)).
Abbreviation own e := (TcpConnection.loop_ (TcpConnection.conn e)).
Implicit Types (w : World) (e : env) (c : Conn) (ev : event_loop).

Context (prog : V -> TcpConnection.event -> bytes -> Z * list action).
Context (static : Z -> gmap Z (Channel.Channel chan_cb)).
Context (heap : Z -> option bytes) (acc_self listen_ret : Z).

(** *** Establishing and destroying *)

Lemma established_eff st a tid e :
  reg st a e -> callbacks_ok (TcpConnection.conn e) -> state e = TcpConnection.kConnecting ->
  post (fun e' => env_ok st a e' /\ state e' <> TcpConnection.kDisconnected /\
      eff a (TcpServer.unfocus a e) (TcpServer.unfocus a e') (TcpConnection.conn e)
        (TcpConnection.conn e'))
    (TcpConnection.connectEstablished a (callbacks prog a tid) e).
Proof.
  intros G Cb0 Hs. unfold TcpConnection.connectEstablished.
  set (e0 := TcpConnection.upd_conn _ _).
  assert (reg st a e0) as G0.
  { destruct G as [I Fd]. split; [|done]. simpl.
    pose proof (EPollPoller.inv_same_registration _ _ a (chan e) (Channel.tie a (chan e))
      I (lookup_insert_eq _ _ _) eq_refl eq_refl eq_refl) as X.
    by rewrite insert_insert_eq in X. }
  eapply post_bind; [eapply (on_channel_reg st a e0 Channel.enableReading
    (fun m => Z.lor m Channel.kReadEvent)); done|].
  intros e1 (G1 & Hi1 & (i & m & Ec) & (p & El) & Es & Er).
  assert (state e1 = TcpConnection.kConnected) as Hs1 by (unfold state; by rewrite Ec).
  assert (env_ok st a e1) as O1.
  { split; [done|]. split; [|by rewrite Ec]. split; [by rewrite Hs1|done]. }
  assert (eff a (TcpServer.unfocus a e) (TcpServer.unfocus a e1) (TcpConnection.conn e)
            (TcpConnection.conn e1)) as Ef1.
  { apply local_eff with (nf := []); try done.
    - by rewrite Ec.
    - unfold state in *. split_and!; [by rewrite Hs, Hs1|by rewrite Hs1|by right].
    - unfold queue. rewrite El. simpl. by rewrite app_nil_r. }
  eapply post_mono; [|apply (call_user_quiet prog st); [done|apply (env_user _ _ _ O1)]].
  intros e2 [O2 Q2]. split_and!; [done| |].
  - destruct Q2 as (_ & _ & _ & _ & [X|[_ X]] & _); rewrite X, ?Hs1; done.
  - eapply eff_trans; [exact Ef1|]. exact (quiet_eff a e1 e2 Q2 (proj1 (proj1 (proj2 O2)))).
Qed.

Lemma destroyed_eff st a tid e : env_ok st a e -> state e = TcpConnection.kDisconnected ->
  post (fun e' => env_ok st a e' /\ state e' = TcpConnection.kDisconnected /\
      index e' = EPollPoller.kNew /\
      eff a (TcpServer.unfocus a e) (TcpServer.unfocus a e') (TcpConnection.conn e)
        (TcpConnection.conn e'))
    (TcpConnection.connectDestroyed a (callbacks prog a tid) e).
Proof.
  intros (G & L & Cb0) Hs. unfold TcpConnection.connectDestroyed. unfold state in Hs.
  rewrite Hs. simpl. unfold TcpConnection.on_channel. pose proof (reg_fd_free _ _ _ G) as Fr.
  destruct (Channel.remove a (TcpConnection.channel_ (TcpConnection.conn e))
              (EventLoop.poller_ (TcpConnection.loop e))) as [[ch p]|x] eqn:X; ostep.
  2: { destruct (EPollPoller.removeChannel_ok a (chan e) (EventLoop.poller_ (TcpConnection.loop e)))
         as (p' & Y & _). unfold Channel.remove in X. simpl in X. unfold chan in Y. congruence. }
  destruct G as [I Fd].
  pose proof (EPollPoller.removeChannel_inv_step _ _ a (chan e) ch p I (lookup_insert_eq _ _ _) Fr X)
    as [I' ->]. rewrite insert_insert_eq in I'.
  split_and!; try done.
  - split; [by split|]. split; [|done]. split; [|done]. simpl. unfold state. simpl. by rewrite Hs.
  - apply local_eff with (nf := []); try done.
    + split_and!; [done|simpl; by rewrite Hs|done].
    + by rewrite app_nil_r.
Qed.

(** *** From the world to a connection and back *)

Lemma focus_ok w a c : Inv static w -> conns w !! a = Some c ->
  exists e, TcpServer.focus a w = Ret e /\ TcpConnection.conn e = c /\ TcpServer.unfocus a e = w /\
    loops w !! TcpConnection.loop_ c = Some (TcpConnection.loop e) /\
    reg (store static w (TcpConnection.loop_ c)) a e.
Proof.
  intros I Hc. destruct (i_conn _ _ I _ _ Hc) as ((l & Hl) & (s & Hs) & _).
  unfold TcpServer.focus. rewrite Hc. ostep. rewrite Hl. ostep. rewrite Hs. ostep.
  eexists. split; [done|]. simpl. split_and!; [done| |done|].
  - unfold TcpServer.unfocus. simpl. rewrite !insert_id by done. by destruct w.
  - destruct (i_distinct _ _ I) as [D1 D2]. unfold reg, chan. simpl.
    destruct (D2 a c (TcpConnection.loop_ c) Hc ltac:(eauto)) as [Ds Df].
    assert (store static w (TcpConnection.loop_ c) !! a = Some (TcpConnection.channel_ c)) as Hst.
    { rewrite store_lookup, Ds, Hc. by rewrite decide_True. }
    split; [rewrite insert_id by done; by apply (i_poller _ _ I)|].
    intros s' ch. rewrite store_lookup. destruct (static _ !! s') as [ch'|] eqn:E1.
    + intros [= <-] _. by apply (Df s').
    + destruct (conns w !! s') as [c'|] eqn:E2; [|done]. case_decide; [|done].
      intros [= <-] Hne Hf. by apply Hne, (D1 _ _ _ _ E2 Hc).
Qed.

(** The end of a piece of work. *)
Lemma settle w a c e' o : Inv static w ->
  env_ok (store static w (TcpConnection.loop_ c)) a e' ->
  eff a w (TcpServer.unfocus a e') c (TcpConnection.conn e') ->
  (state e' = TcpConnection.kDisconnected ->
     requested a (TcpConnection.name_ c) (TcpServer.unfocus a e')) ->
  match o with
  | Some l => exists f q, pend w l = f :: q /\
      finished a (TcpServer.unfocus a e') c (TcpConnection.conn e') f
  | None => state_of c = TcpConnection.kConnecting ->
      forall l, ConnectEstablished a ∉ pend w l
  end -> Inv static (popped o (TcpServer.unfocus a e')).
Proof.
  intros I (G & L & Cb0) Ef Rq Hpop. pose proof (eff_frame _ _ _ _ _ Ef) as (Fl & _).
  eapply preserve_inv; try done; [|apply L].
  intros ev. simpl. rewrite Fl, lookup_insert_eq. intros [= <-].
  destruct (i_conn _ _ I _ _ (eff_from _ _ _ _ _ Ef)) as (Il & _).
  destruct (i_distinct _ _ I) as [_ Ds].
  rewrite (store_insert static w (TcpServer.unfocus a e') a c (TcpConnection.conn e'));
    [|apply Ef|apply Ef|done|by apply (Ds a c _ (eff_from _ _ _ _ _ Ef))].
  rewrite decide_True by done. apply G.
Qed.

Lemma requested_now w a c : Inv static w -> conns w !! a = Some c ->
  state_of c = TcpConnection.kDisconnected -> requested a (TcpConnection.name_ c) w.
Proof. intros I Hc. by apply (i_conn _ _ I _ _ Hc). Qed.

Lemma eff_refl a w c : conns w !! a = Some c -> state_of c <> TcpConnection.kConnecting ->
  eff a w w c c.
Proof.
  intros Hc Hs. split; try done.
  - by rewrite insert_id.
  - split_and!; auto using Z.le_refl.
  - unfold same_server. by destruct (TcpServer.server w).
  - by left.
  - intros l. exists []. by rewrite app_nil_r.
Qed.

(** *** How a step moves the world on

    [o = Some l] says that the functor at the head of the queue of [l] has run,
    [s = Some a] that the work was on the connection at [a]. *)

Record advance (o s : option Z) w w' : Prop := mkAdvance {
  adv_pend : forall l, exists nf,
    pend w' l = (if decide (o = Some l) then tail (pend w l) else pend w l) ++ nf;
  adv_conn : forall a c, conns w !! a = Some c -> conns w' !! a = None \/
    exists c', conns w' !! a = Some c' /\ frame c c' /\
      rank (state_of c) <= rank (state_of c') /\
      (state_of c = TcpConnection.kDisconnected -> index_of c = EPollPoller.kNew ->
       index_of c' = EPollPoller.kNew);
  adv_map : forall n a, is_Some (conns w !! a) -> connections w' !! n = Some a ->
    connections w !! n = Some a;
  adv_base : base w' = base w;
  adv_next : TcpServer.nextConnId_ (TcpServer.server w) <=
    TcpServer.nextConnId_ (TcpServer.server w') <= TcpServer.nextConnId_ (TcpServer.server w) + 1;
  adv_others : forall b, s <> Some b ->
    conns w' !! b = conns w !! b /\ TcpServer.socks w' !! b = TcpServer.socks w !! b
}.

(** The functor that has run has done its part. *)
Definition functor_done (o : option Z) w w' : Prop :=
  forall l f q, o = Some l -> pend w l = f :: q ->
    match f with
    | RemoveConnectionInLoop a => exists c', conns w' !! a = Some c' /\
        state_of c' = TcpConnection.kDisconnected /\
        connections w' !! TcpConnection.name_ c' <> Some a
    | ConnectDestroyed a => exists c', conns w' !! a = Some c' /\
        state_of c' = TcpConnection.kDisconnected /\ index_of c' = EPollPoller.kNew
    | _ => True
    end.

(** Functors with a raw [this] come only from a call of another thread
    ([r]). *)
Definition raw_from (r : bool) (s : option Z) w w' : Prop := forall l f, f ∈ pend w' l ->
  is_raw f = true -> f ∈ pend w l \/ r = true /\ functor_conn f = s.

(** So do the calls threads are in. *)
Definition calls_from (r : bool) (s : option Z) w w' : Prop := forall tid a k,
  TcpServer.calls w' !! tid = Some (a, k) ->
  (exists k', TcpServer.calls w !! tid = Some (a, k')) \/ r = true /\ s = Some a.

Definition kept (r : bool) (o s : option Z) w w' : Prop :=
  Inv static w' /\ advance o s w w' /\ functor_done o w w' /\ raw_from r s w w' /\
  calls_from r s w w'.

Lemma calls_from_same r s w w' : TcpServer.calls w' = TcpServer.calls w -> calls_from r s w w'.
Proof. intros E0 tid a k. rewrite E0. eauto. Qed.

Lemma raw_from_same r s w w' : (forall l, pend w' l = pend w l) -> raw_from r s w w'.
Proof. intros Hp l f. rewrite Hp. by left. Qed.

Lemma eff_advance a w w0 c c' o : eff a w w0 c c' ->
  match o with
  | Some l => exists f q, pend w l = f :: q /\ finished a w0 c c' f
  | None => True
  end -> advance o (Some a) w (popped o w0).
Proof.
  intros Ef Hpop. destruct (popped_same o w0) as (Es & Ec & _). split.
  - intros l. destruct (eff_pend _ _ _ _ _ Ef l) as (nf & En & _). exists nf.
    destruct o as [l0|]; simpl; [|done]. rewrite pend_pop, En.
    destruct (decide (l = l0)) as [->|Hl]; [rewrite decide_True by done|by rewrite decide_False by congruence].
    by destruct Hpop as (f & q & -> & _).
  - intros b c1 Hb. right. rewrite Ec, (eff_conns _ _ _ _ _ Ef).
    pose proof (eff_from _ _ _ _ _ Ef). destruct (eff_moves _ _ _ _ _ Ef) as (Mr & _ & Mi).
    destruct (decide (b = a)) as [->|]; [exists c'|exists c1]; simplify_map_eq.
    + split_and!; [done|apply Ef|done|]. intros Hs Hi.
      destruct (decide (index_of c' = EPollPoller.kNew)) as [|Hn]; [done|].
      destruct (Mi Hn); congruence.
    + by split_and!.
  - intros n b _. rewrite Es. destruct (eff_map _ _ _ _ _ Ef) as [->|(-> & _)]; [done|].
    by intros [_ ?]%lookup_delete_Some.
  - rewrite Es. apply same_server_base, Ef.
  - pose proof (eff_server _ _ _ _ _ Ef) as X. unfold same_server in X. rewrite Es, X. simpl. lia.
  - intros b Hb. destruct (popped_same o w0) as (_ & _ & ->).
    assert (b <> a) as Hba by congruence. split; [|by apply (eff_others _ _ _ _ _ Ef)].
    by rewrite Ec, (eff_conns _ _ _ _ _ Ef), lookup_insert_ne.
Qed.

Lemma eff_raw r s a w w' c c' o : eff a w w' c c' -> raw_from r s w (popped o w').
Proof.
  intros Ef l f Hf Hr. left. destruct (eff_pend _ _ _ _ _ Ef l) as (nf & En & Fn).
  assert (f ∈ pend w' l) as Hin.
  { destruct o as [l0|]; [|done]. simpl in Hf. rewrite pend_pop in Hf. case_decide; [|done].
    destruct (pend w' l); [done|set_solver]. }
  rewrite En in Hin. apply elem_of_app in Hin as [?|Hin]; [done|]. rewrite Forall_forall in Fn.
  specialize (Fn _ Hin). destruct f; try discriminate Hr; by destruct Fn as [[] _].
Qed.

Lemma eff_kept r w a c e' o : Inv static w ->
  env_ok (store static w (TcpConnection.loop_ c)) a e' ->
  eff a w (TcpServer.unfocus a e') c (TcpConnection.conn e') ->
  (state e' = TcpConnection.kDisconnected ->
     requested a (TcpConnection.name_ c) (TcpServer.unfocus a e')) ->
  match o with
  | Some l => exists f q, pend w l = f :: q /\
      finished a (TcpServer.unfocus a e') c (TcpConnection.conn e') f
  | None => state_of c = TcpConnection.kConnecting -> forall l, ConnectEstablished a ∉ pend w l
  end -> kept r o (Some a) w (popped o (TcpServer.unfocus a e')).
Proof.
  intros I O Ef Rq Hpop. split_and!.
  - by apply (settle w a c).
  - eapply eff_advance; [exact Ef|]. by destruct o.
  - intros l f q -> Hp. destruct Hpop as (f' & q' & Hp' & Ho & Hd & Hr & _).
    rewrite Hp in Hp'. injection Hp' as <- <-.
    destruct (i_pend _ _ I l f) as (b & c1 & Ho1 & Hc1 & Hm); [rewrite Hp; set_solver|].
    rewrite Ho in Ho1. injection Ho1 as <-. rewrite (eff_from _ _ _ _ _ Ef) in Hc1. injection Hc1 as <-.
    destruct (popped_same (Some l) (TcpServer.unfocus a e')) as (Es & Ec & _).
    destruct (eff_moves _ _ _ _ _ Ef) as (Mr & _).
    pose proof (rank_closed _ _ Mr) as Md. destruct (eff_frame _ _ _ _ _ Ef) as (_ & Fn & _).
    destruct f; simpl in Ho; try done; injection Ho as ->; rewrite Ec, (eff_conns _ _ _ _ _ Ef);
      exists (TcpConnection.conn e'); simplify_map_eq; (split_and!; [done|apply Md, Hm|]).
    + auto.
    + rewrite Es, Fn. by rewrite Hr.
  - by eapply eff_raw.
  - apply calls_from_same. rewrite popped_calls. apply Ef.
Qed.

(** A connection that is reported is in the kernel's interest set. *)
Lemma reported_added w a c l : Inv static w -> conns w !! a = Some c ->
  loops w !! TcpConnection.loop_ c = Some l -> reported a c l = true ->
  index_of c = EPollPoller.kAdded.
Proof.
  intros I Hc Hl Hr. unfold reported in Hr. destruct (interest _ !! _) as [x|] eqn:Ex; [|done]. reflect_bools.
  destruct (i_distinct _ _ I) as [_ D2].
  destruct (D2 a c (TcpConnection.loop_ c) Hc ltac:(eauto)) as [Ds _].
  destruct (i_poller _ _ I _ _ Hl) as (I1 & _).
  assert (store static w (TcpConnection.loop_ c) !! a = Some (TcpConnection.channel_ c)) as Hst.
  { rewrite store_lookup, Ds, Hc. by rewrite decide_True. }
  destruct (I1 _ _ Hst) as [(_ & _ & X)|[(_ & _ & X)|(X & _)]]; [by destruct (X _ Ex)|congruence|done].
Qed.

(** A connection that is reported is registered, and its handler starts with
    the world as it is. *)
Lemma event_serving w a c l : Inv static w -> conns w !! a = Some c ->
  loops w !! TcpConnection.loop_ c = Some l -> reported a c l = true ->
  exists e, TcpServer.focus a w = Ret e /\ TcpConnection.conn e = c /\ TcpServer.unfocus a e = w /\
    state_of c <> TcpConnection.kConnecting /\
    serving (store static w (TcpConnection.loop_ c)) a w c e.
Proof.
  intros I Hc Hl Hr. destruct (i_conn _ _ I _ _ Hc) as (_ & _ & Cb0 & Icon & Iop & _ & Irq).
  assert (index_of c <> EPollPoller.kNew) as Hi by (rewrite (reported_added w a c l); done).
  assert (state_of c <> TcpConnection.kConnecting) as Hs by (intros X; by apply Hi, Icon).
  destruct (focus_ok w a c I Hc) as (e & Ef & Ec & Eu & _ & G).
  exists e. split_and!; try done.
  unfold serving, env_ok, live, state, index, chan. rewrite Ec, Eu. split_and!; auto.
  by apply eff_refl.
Qed.

Lemma event_step w a c r t l : Inv static w -> conns w !! a = Some c ->
  loops w !! TcpConnection.loop_ c = Some l -> reported a c l = true ->
  post (kept false None (Some a) w) (TcpServer.on_conn a (dispatch prog a r t) w).
Proof.
  intros I Hc Hl Hr. destruct (event_serving w a c l I Hc Hl Hr) as (e & Ee & _ & _ & Hs & Sv).
  unfold TcpServer.on_conn. rewrite Ee. ostep. eapply post_bind.
  - by apply (dispatch_serving prog w); [apply (i_server _ _ I)|].
  - intros e' (O & _ & Ef & Rq). by apply (eff_kept false w a c e' None).
Qed.

(** *** Functors *)

Lemma on_conn_settle w a c l f q (op : env -> outcome env) : Inv static w ->
  conns w !! a = Some c -> pend w l = f :: q ->
  (forall e, TcpConnection.conn e = c -> TcpServer.unfocus a e = w ->
     reg (store static w (TcpConnection.loop_ c)) a e ->
     post (fun e' => env_ok (store static w (TcpConnection.loop_ c)) a e' /\
        eff a w (TcpServer.unfocus a e') c (TcpConnection.conn e') /\
        (state e' = TcpConnection.kDisconnected ->
           requested a (TcpConnection.name_ c) (TcpServer.unfocus a e')) /\
        finished a (TcpServer.unfocus a e') c (TcpConnection.conn e') f) (op e)) ->
  post (fun w' => kept false (Some l) (Some a) w (pop l w')) (TcpServer.on_conn a op w).
Proof.
  intros I Hc Hp Hop. unfold TcpServer.on_conn.
  destruct (focus_ok w a c I Hc) as (e & -> & Ec & Eu & _ & G). ostep.
  eapply post_bind; [by apply Hop|]. intros e' (O & Ef & Rq & Fin).
  apply (eff_kept false w a c e' (Some l)); eauto.
Qed.

(** A notification to the user, or a call from another thread. *)
Lemma quiet_step w a c l f q (op : env -> outcome env) : Inv static w -> conns w !! a = Some c ->
  pend w l = f :: q -> functor_conn f = Some a ->
  f <> ConnectDestroyed a -> f <> RemoveConnectionInLoop a ->
  state_of c <> TcpConnection.kConnecting ->
  (forall st e, env_ok st a e -> quietly st a e (op e)) ->
  post (fun w' => kept false (Some l) (Some a) w (pop l w')) (TcpServer.on_conn a op w).
Proof.
  intros I Hc Hp Ho Nd Nr Hs Hop. eapply on_conn_settle; eauto. intros e Ec Eu G.
  destruct (i_conn _ _ I _ _ Hc) as (_ & _ & Cb0 & _ & Iop & _ & _).
  assert (env_ok (store static w (TcpConnection.loop_ c)) a e) as O.
  { unfold env_ok, live, state, index, chan. rewrite Ec. split_and!; auto. }
  eapply post_mono; [|by apply Hop]. intros e' [O' Q].
  pose proof (quiet_eff a e e' Q (proj1 (proj1 (proj2 O')))) as Ef. rewrite Eu, Ec in Ef.
  split_and!; [done|done| |].
  - intros Hd. eapply requested_mono; [exact Ef|]. apply (requested_now w a c); [done|done|].
    destruct Q as (_ & _ & _ & _ & St & _). unfold state in *. rewrite Ec in St.
    destruct St as [X|[_ X]]; congruence.
  - by split_and!.
Qed.

Lemma functor_step w l ev f q : Inv static w -> loops w !! l = Some ev ->
  EventLoop.pendingFunctors_ ev = f :: q ->
  post (fun w' => kept false (Some l) (functor_conn f) w (pop l w'))
    (run_functor prog heap acc_self listen_ret f (EventLoop.threadId_ ev) w).
Proof.
  intros I Hl Hq. assert (pend w l = f :: q) as Hp by (unfold pend; by rewrite Hl).
  destruct (i_pend _ _ I l f) as (a & c & Ho & Hc & Hf); [rewrite Hp; set_solver|].
  destruct (i_conn _ _ I _ _ Hc) as (_ & _ & Cb0 & Icon & _ & _ & _).
  unfold run_functor. rewrite Ho. simpl.
  destruct f; simpl in Ho; try discriminate Ho; injection Ho as ->; simpl.
  - destruct Hf as ([_ [v ->]] & Hs & _). eapply quiet_step; eauto. intros st e. apply user_quiet.
  - destruct Hf as ([_ [v ->]] & Hs & _). eapply quiet_step; eauto. intros st e. apply user_quiet.
  - destruct Hf as (Hs & ->). eapply on_conn_settle; eauto. intros e Ec Eu G.
    eapply post_mono; [|eapply established_eff; [exact G|by rewrite Ec|unfold state; by rewrite Ec]].
    intros e' (O & Hd & Ef). rewrite Eu, Ec in Ef. by split_and!.
  - destruct Hf as (Hs & ->). eapply on_conn_settle; eauto. intros e Ec Eu G.
    assert (env_ok (store static w (TcpConnection.loop_ c)) a e) as O.
    { unfold env_ok, live, state, index, chan. rewrite Ec, Hs. by split_and!. }
    eapply post_mono; [|eapply destroyed_eff; [exact O|unfold state; by rewrite Ec]].
    intros e' (O' & Hd & Hi & Ef). rewrite Eu, Ec in Ef. split_and!; [done|done| |].
    + intros _. eapply requested_mono; [exact Ef|]. by apply (requested_now w a c).
    + split_and!; try done. by rewrite Hs.
  - destruct Hf as (Hs & ->). eapply on_conn_settle; eauto. intros e Ec Eu G.
    destruct (TcpServer.removeConnectionInLoop _ a e) as [e'|] eqn:X; [|done]. simpl.
    apply removeInLoop_eff in X as (Ec' & Ep & Hn & Ef); [|unfold state; by rewrite Ec].
    rewrite Eu, Ec in Ef. rewrite Ec in Hn. split_and!; [|done| |].
    + destruct G as [G1 G2]. unfold env_ok, reg, live, state, index, chan in *.
      rewrite Ec', Ec, Ep, Hs in *. by split_and!.
    + intros _ Y. by rewrite Hn in Y.
    + split_and!; try done. by rewrite Hs.
  - by destruct Hf as [[] _].
  - destruct Hf as [Hs _]. eapply quiet_step; eauto. intros st e. apply sendInLoop_quiet.
  - destruct Hf as [Hs _]. eapply quiet_step; eauto. intros st e. apply shutdownInLoop_quiet.
Qed.

(** *** Releasing a connection *)

Lemma owned_map w n a : connections w !! n = Some a -> owned a w.
Proof. intros Hn. left. by exists n, a. Qed.

Lemma owned_pend w l f a : f ∈ pend w l -> functor_owner f = Some a -> owned a w.
Proof.
  unfold pend. destruct (loops w !! l) as [ev|] eqn:El; [|by intros []%elem_of_nil].
  intros Hf Ho. right. left. exists l, ev. split; [done|]. apply Exists_exists. eauto.
Qed.

Lemma owned_call w tid a k : TcpServer.calls w !! tid = Some (a, k) -> owned a w.
Proof. intros Hc. right. right. by exists tid, (a, k). Qed.

(** A functor's connection is held by someone, even when it has a raw [this]. *)
Lemma pend_owned w l f a : Inv static w -> f ∈ pend w l -> functor_conn f = Some a -> owned a w.
Proof.
  intros I Hf Ho. destruct (is_raw f) eqn:Hr.
  - destruct (i_pend _ _ I l f Hf) as (b & c & Hb & Hc & _). rewrite Ho in Hb. injection Hb as <-.
    destruct (list_elem_of_split _ _ Hf) as (pre & suf & Hp).
    destruct (i_raw _ _ I l pre f suf a c Hp Hr Ho Hc) as [Hm|Hd]; [by eapply owned_map|].
    eapply (owned_pend w l (ConnectDestroyed a)); [|done]. rewrite Hp. set_solver.
  - eapply owned_pend; [exact Hf|]. by destruct f.
Qed.

(** Nobody owns the connection, so no poller knows its channel. *)
Lemma unowned_new w a c : Inv static w -> conns w !! a = Some c -> ~ owned a w ->
  index_of c = EPollPoller.kNew.
Proof.
  intros I Hc Ho. destruct (decide (index_of c = EPollPoller.kNew)) as [|Hi]; [done|].
  destruct (i_conn _ _ I _ _ Hc) as (_ & _ & _ & _ & _ & Ireg & _). destruct Ho.
  destruct (Ireg Hi) as [?|?]; [by eapply owned_map|by eapply owned_pend].
Qed.

Lemma free_inv w a : Inv static w -> ~ owned a w ->
  Inv static (TcpServer.mkWorld (TcpServer.server w) (loops w) (delete a (conns w))
                (delete a (TcpServer.socks w)) (TcpServer.calls w)).
Proof.
  intros I Ho. set (w' := TcpServer.mkWorld _ _ _ _ _).
  assert (forall b c, conns w' !! b = Some c -> b <> a /\ conns w !! b = Some c) as Back.
  { intros b c X. simpl in X. apply lookup_delete_Some in X as [? ?]. auto. }
  split.
  - intros l ev Hl. pose proof (i_poller _ _ I _ _ Hl) as Ip.
    destruct (conns w !! a) as [c|] eqn:Hc.
    + destruct (i_distinct _ _ I) as [_ Ds]. destruct (Ds a c l Hc) as [Dn _]; [simpl in Hl; eauto|].
      assert (store static w' l = delete a (store static w l)) as ->.
      { apply map_eq. intros s. rewrite store_lookup. simpl. destruct (decide (s = a)) as [->|].
        - by rewrite Dn, !lookup_delete_eq.
        - by rewrite !lookup_delete_ne, store_lookup by done. }
      destruct (decide (TcpConnection.loop_ c = l)) as [El|El].
      * eapply EPollPoller.inv_delete_channel; [done| |by eapply unowned_new].
        rewrite store_lookup, Dn, Hc. by rewrite decide_True.
      * rewrite delete_id; [done|]. rewrite store_lookup, Dn, Hc. by rewrite decide_False.
    + assert (store static w' l = store static w l) as ->; [|done].
      unfold store. simpl. by rewrite delete_id.
  - intros b c [Hb Hc]%Back. destruct (i_conn _ _ I _ _ Hc) as (? & ? & ? & ? & ? & ? & ?).
    split_and!; try done. simpl. by rewrite lookup_delete_ne.
  - intros n b Hn. destruct (i_map _ _ I _ _ Hn) as (c & Hc & ?). exists c. split; [|done].
    simpl. rewrite lookup_delete_ne; [done|]. intros ->. apply Ho. by eapply owned_map.
  - intros l f Hf. destruct (i_pend _ _ I l f Hf) as (b & c & Hob & Hc & Hm).
    exists b, c. split_and!; [done| |done]. simpl. rewrite lookup_delete_ne; [done|].
    intros ->. apply Ho. by eapply pend_owned.
  - intros l pre f suf b c Hp Hr Hf [Hb Hc]%Back. by apply (i_raw _ _ I l pre f suf b c).
  - apply (i_once _ _ I).
  - destruct (i_names _ _ I) as [N1 N2]. split.
    + intros b c [_ ?]%Back. by apply (N1 b).
    + intros b b' c c' [_ ?]%Back [_ ?]%Back. by apply N2.
  - destruct (i_distinct _ _ I) as [D1 D2]. split.
    + intros b b' c c' [_ ?]%Back [_ ?]%Back. by apply D1.
    + intros b c l [_ ?]%Back. by apply (D2 b).
  - apply (i_server _ _ I).
  - intros tid [b k] Hb. destruct (i_calls _ _ I tid _ Hb) as [(c & Hc & Hs) Hk]. split; [|done].
    exists c. split; [|done]. simpl in *. rewrite lookup_delete_ne; [done|]. intros ->.
    by eapply Ho, owned_call.
Qed.

(** *** Accepting a connection *)

Lemma build_conn_spec (s : TcpServer.TcpServer V Cb) ioLoop sockfd local peer : exists c : Conn,
  TcpServer.build_conn s ioLoop sockfd local peer = Ret c /\
  TcpConnection.loop_ c = ioLoop /\ TcpConnection.name_ c = TcpServer.conn_name s /\
  Channel.fd_ (TcpConnection.channel_ c) = sockfd /\ state_of c = TcpConnection.kConnecting /\
  index_of c = EPollPoller.kNew /\ callbacks_ok c.
Proof.
  eexists. split; [done|]. unfold callbacks_ok. split_and!; try done.
  all: intros u; simpl; destruct (_ : option V); intros [= <-]; eauto.
Qed.

Lemma pend_in w l f : Inv static w -> f ∈ pend w l -> exists a c,
  functor_conn f = Some a /\ conns w !! a = Some c.
Proof. intros I (a & c & ? & ? & _)%(i_pend _ _ I). eauto. Qed.

(** The world with the connection object made and put into the map. *)
Lemma add_inv w self sockfd sk c pool ioLoop : Inv static w -> fresh static self sockfd w ->
  TcpServer.nextConnId_ (TcpServer.server w) + 1 < 2 ^ 31 ->
  EventLoopThreadPool.getNextLoop (TcpServer.threadPool_ (TcpServer.server w)) = Ret (ioLoop, pool) ->
  TcpConnection.loop_ c = ioLoop ->
  TcpConnection.name_ c = TcpServer.conn_name (TcpServer.server w) ->
  Channel.fd_ (TcpConnection.channel_ c) = sockfd -> state_of c = TcpConnection.kConnecting ->
  index_of c = EPollPoller.kNew -> callbacks_ok c ->
  is_Some (loops w !! ioLoop) /\
  Inv static (TcpServer.mkWorld
    (TcpServer.set_connections (TcpServer.nextConnId_ (TcpServer.server w) + 1)
       (<[TcpServer.conn_name (TcpServer.server w) := self]> (connections w))
       (TcpServer.set_pool (TcpServer.acceptor_ (TcpServer.server w)) pool
          (TcpServer.started_ (TcpServer.server w)) (TcpServer.server w)))
    (loops w) (<[self := c]> (conns w)) (<[self := sk]> (TcpServer.socks w)) (TcpServer.calls w)).
Proof.
  intros I (Fn & Ffd & Fst) Hid Hnext Hl Hname Hfd Hs Hi Cb0. set (w' := TcpServer.mkWorld _ _ _ _ _).
  destruct (i_server _ _ I) as (Hb & [P1 P2] & Ha & Hid1).
  apply EventLoopThreadPool.getNextLoop_in in Hnext as (Hin & Eb & El).
  assert (is_Some (loops w !! ioLoop)) as Hio.
  { destruct Hin as [->|Hin]; [done|]. rewrite Forall_forall in P2. by apply P2. }
  split; [done|].
  rewrite TcpServer.conn_name_at in Hname by (done || lia).
  destruct (i_names _ _ I) as [N1 N2]. destruct (i_distinct _ _ I) as [D1 D2].
  assert (forall b c1, conns w !! b = Some c1 ->
    TcpConnection.name_ c1 <> TcpConnection.name_ c) as Nw.
  { intros b c1 Hc1 X. destruct (N1 _ _ Hc1) as (k & Hk & Ek). rewrite Ek, Hname in X.
    apply TcpServer.name_at_inj in X; lia. }
  assert (forall b c1, conns w' !! b = Some c1 ->
    (b = self /\ c1 = c) \/ (b <> self /\ conns w !! b = Some c1)) as Back.
  { intros b c1. simpl. destruct (decide (b = self)) as [->|]; intros; simplify_map_eq; auto. }
  assert (TcpServer.conn_name (TcpServer.server w) = TcpConnection.name_ c) as En.
  { by rewrite TcpServer.conn_name_at, Hname by (done || lia). }
  split.
  - intros l ev Hlev. pose proof (i_poller _ _ I _ _ Hlev) as Ip. destruct (Fst _ _ Hlev) as [Fs _].
    assert (store static w l !! self = None) as Hnone by by rewrite store_lookup, Fs, Fn.
    assert (store static w' l = if decide (ioLoop = l)
              then <[self := TcpConnection.channel_ c]> (store static w l) else store static w l) as ->.
    { apply map_eq. intros s. rewrite store_lookup. simpl. destruct (decide (s = self)) as [->|Hne].
      - rewrite Fs, lookup_insert_eq, Hl. by case_decide; rewrite ?lookup_insert_eq.
      - rewrite lookup_insert_ne by done. case_decide; rewrite ?lookup_insert_ne by done;
          by rewrite store_lookup. }
    case_decide; [by apply EPollPoller.inv_new_channel|done].
  - intros b c1 [[-> ->]|[Hb1 Hc1]]%Back.
    + unfold conn_inv. rewrite Hl, Hs, Hi. simpl. rewrite En.
      split_and!; try done; try (by rewrite lookup_insert_eq; eauto).
    + destruct (i_conn _ _ I _ _ Hc1) as (? & ? & ? & Icon & ? & Ireg & Irq).
      pose proof (Nw _ _ Hc1) as Hn1. unfold conn_inv, requested. simpl. rewrite En.
      rewrite !lookup_insert_ne by done. by split_and!.
  - intros n b Hn. simpl in Hn. rewrite En in Hn. destruct (decide (n = TcpConnection.name_ c)) as [->|].
    + simplify_map_eq. exists c. by simplify_map_eq.
    + simplify_map_eq. destruct (i_map _ _ I _ _ Hn) as (c1 & Hc1 & ?). exists c1. split; [|done].
      simpl. rewrite lookup_insert_ne; [done|]. congruence.
  - intros l f Hf. destruct (i_pend _ _ I l f Hf) as (b & c1 & Ho & Hc1 & Hm).
    exists b, c1. split_and!; [done| |done]. simpl. rewrite lookup_insert_ne; [done|]. congruence.
  - intros l pre f suf b c1 Hp Hr Hf [[-> ->]|[Hb1 Hc1]]%Back.
    + assert (f ∈ pend w l) as Hfp by (change (pend w l) with (pend w' l); rewrite Hp; apply elem_of_app; right; apply list_elem_of_here).
      destruct (i_pend _ _ I l f Hfp) as (b & c1 & Hfb & Hc1 & _). congruence.
    + destruct (i_raw _ _ I l pre f suf b c1 Hp Hr Hf Hc1) as [Hm|?]; [left|by right].
      simpl. rewrite En, lookup_insert_ne; [done|]. pose proof (Nw _ _ Hc1). congruence.
  - apply (i_once _ _ I).
  - split.
    + intros b c1 [[-> ->]|[_ Hc1]]%Back; simpl.
      * exists (TcpServer.nextConnId_ (TcpServer.server w)). rewrite Hname. split; [lia|done].
      * destruct (N1 _ _ Hc1) as (k & ? & ->). exists k. split; [lia|done].
    + intros b b' c1 c2 [[-> ->]|[_ Hc1]]%Back [[-> ->]|[_ Hc2]]%Back X; [done|..|by eapply N2].
      * by destruct (Nw _ _ Hc2).
      * by destruct (Nw _ _ Hc1).
  - split.
    + intros b b' c1 c2 [[-> ->]|[_ Hc1]]%Back [[-> ->]|[_ Hc2]]%Back X; [done|..|by eapply D1].
      * apply Ffd in Hc2. congruence.
      * apply Ffd in Hc1. congruence.
    + intros b c1 l [[-> ->]|[_ Hc1]]%Back Hlev; [|by apply (D2 b)].
      destruct Hlev as [ev Hlev]. destruct (Fst _ _ Hlev) as [Fs Ff]. split; [done|].
      intros s ch Hch. rewrite Hfd. by apply (Ff s).
  - unfold server_inv, pool_ok. simpl. rewrite Eb, El. split_and!; done || lia.
  - intros tid [b k] Hk. destruct (i_calls _ _ I tid _ Hk) as [(c1 & Hc1 & ?) ?]. split; [|done].
    exists c1. split; [|done]. simpl in *. rewrite lookup_insert_ne; [done|]. congruence.
Qed.

(** Queueing a functor in a loop. *)
Lemma pend_queue w l f ev tid l' : loops w !! l = Some ev ->
  pend (TcpServer.set_loop l (EventLoop.queueInLoop tid f ev) w) l' =
    pend w l' ++ (if decide (l' = l) then [f] else []).
Proof.
  intros Hl. destruct (queueInLoop_same tid f ev) as (Eq & _). unfold pend. simpl. case_decide as X.
  - subst l'. by rewrite lookup_insert_eq, Hl, Eq.
  - by rewrite lookup_insert_ne, app_nil_r.
Qed.

Lemma raw_queue r s w w1 l f ev tid : raw_from r s w w1 -> loops w1 !! l = Some ev ->
  (is_raw f = true -> r = true /\ functor_conn f = s) ->
  raw_from r s w (TcpServer.set_loop l (EventLoop.queueInLoop tid f ev) w1).
Proof.
  intros R Hl Hf l' g. rewrite pend_queue by done. intros [Hg|Hg]%elem_of_app Hr; [by apply R|].
  case_decide; [|by apply elem_of_nil in Hg]. apply list_elem_of_singleton in Hg as ->. auto.
Qed.

Lemma queue_inv w l f ev tid : Inv static w -> loops w !! l = Some ev -> functor_inv w l f ->
  (is_established f = true -> forall l, f ∉ pend w l) ->
  (forall a c, is_raw f = true -> functor_conn f = Some a -> conns w !! a = Some c ->
     connections w !! TcpConnection.name_ c = Some a) ->
  Inv static (TcpServer.set_loop l (EventLoop.queueInLoop tid f ev) w).
Proof.
  intros I Hl Hf Hno Hraw. set (w' := TcpServer.set_loop _ _ _).
  destruct (queueInLoop_same tid f ev) as (_ & Ep & _).
  pose proof (fun l' => pend_queue w l f ev tid l' Hl) as Hp. fold w' in Hp.
  assert (forall l' g, g ∈ pend w l' -> g ∈ pend w' l') as Keep.
  { intros l' g ?. rewrite Hp. set_solver. }
  assert (forall l', is_Some (loops w !! l') -> is_Some (loops w' !! l')) as Ls.
  { intros l' X. simpl. destruct (decide (l' = l)) as [->|]; by simplify_map_eq; eauto. }
  split.
  - intros l' ev' Hev. simpl in Hev. change (store static w' l') with (store static w l').
    destruct (decide (l' = l)) as [->|]; simplify_map_eq; [rewrite Ep|]; by apply (i_poller _ _ I).
  - intros b c1 Hc1. destruct (i_conn _ _ I _ _ Hc1) as (? & ? & ? & ? & ? & Ireg & Irq).
    unfold conn_inv, requested. simpl. split_and!; auto.
    + intros X. destruct (Ireg X); auto.
    + intros X Y. apply Keep. by apply Irq.
  - apply (i_map _ _ I).
  - intros l' g. rewrite Hp. intros [Hg|Hg]%elem_of_app; [by apply (i_pend _ _ I)|].
    case_decide; [|by apply elem_of_nil in Hg]. by apply list_elem_of_singleton in Hg as ->; subst.
  - intros l' pre g suf b c1 Hg Hr Hb Hc1. rewrite Hp in Hg. case_decide.
    + destruct (snoc_split _ _ _ _ _ Hg) as [->|(suf' & Ew & ->)]; [left; by apply (Hraw b)|].
      destruct (i_raw _ _ I l' pre g suf' b c1 Ew Hr Hb Hc1); [by left|right; set_solver].
    + rewrite app_nil_r in Hg. by apply (i_raw _ _ I l' pre g suf b c1).
  - intros l'. rewrite Hp, filter_app. case_decide; [|rewrite app_nil_r; apply (i_once _ _ I)].
    destruct (is_established f) eqn:Ef.
    + apply NoDup_app. split_and!; [apply (i_once _ _ I)| |rewrite filter_cons_True by done; apply NoDup_singleton].
      intros g [_ Hg]%list_elem_of_filter [_ X]%list_elem_of_filter.
      apply list_elem_of_singleton in X as ->. by eapply Hno.
    + rewrite filter_cons_False, app_nil_r by (by rewrite Ef). apply (i_once _ _ I).
  - apply (i_names _ _ I).
  - destruct (i_distinct _ _ I) as [D1 D2]. split; [done|]. intros b c1 l' Hc1 Hlev.
    apply (D2 b c1 l' Hc1). simpl in Hlev. destruct (decide (l' = l)) as [->|];
      [eauto|]. by rewrite lookup_insert_ne in Hlev.
  - destruct (i_server _ _ I) as (? & [? P2] & ? & ? & ?). unfold server_inv, pool_ok.
    split_and!; try done; try (by apply Ls). eapply Forall_impl; [exact P2|]. apply Ls.
  - apply (i_calls _ _ I).
Qed.

Lemma advance_none s w w' w2 : advance None s w w' ->
  (forall a, is_Some (conns w !! a) -> conns w' !! a = conns w !! a) ->
  advance None s w' w2 -> TcpServer.nextConnId_ (TcpServer.server w2) =
    TcpServer.nextConnId_ (TcpServer.server w') -> advance None s w w2.
Proof.
  intros [P1 C1 M1 B1 N1 O1] Hc [P2 C2 M2 B2 N2 O2] Hn. split.
  - intros l. destruct (P1 l) as (n1 & E1), (P2 l) as (n2 & E2). exists (n1 ++ n2).
    rewrite E2, E1. simpl. by rewrite app_assoc.
  - intros a c Ha. apply C2. by rewrite Hc by eauto.
  - intros n a Ha X. apply M1; [done|]. apply M2; [by rewrite Hc|done].
  - congruence.
  - lia.
  - intros b Hb. destruct (O1 b Hb) as [<- <-]. by apply O2.
Qed.

Lemma advance_refl o s w : (forall l, o = Some l -> pend w l = []) -> advance o s w w.
Proof.
  intros Hp. split; [|intros a c Ha; right; exists c; by split_and!|done|done|lia|done].
  intros l. exists []. case_decide; [|by rewrite app_nil_r]. by rewrite Hp.
Qed.

Lemma kept_refl r o s w : Inv static w -> (forall l, o = Some l -> pend w l = []) -> kept r o s w w.
Proof.
  intros I Hp. split_and!; [done|by apply advance_refl| |by apply raw_from_same|by apply calls_from_same].
  intros l f q Eo X. by rewrite Hp in X.
Qed.

Lemma accept_step w self sockfd sk local peer tid : Inv static w -> fresh static self sockfd w ->
  post (kept false None (Some self) w) (TcpServer.newConnection (user prog self) tid self sockfd sk local peer w).
Proof.
  intros I Fr. unfold TcpServer.newConnection.
  destruct (EventLoopThreadPool.getNextLoop _) as [[ioLoop pool]|x] eqn:Hnext; ostep.
  2: { unfold EventLoopThreadPool.getNextLoop in Hnext.
       destruct (EventLoopThreadPool.loops_ _); [done|].
       destruct (_ !! _); [done|]. by injection Hnext as <-. }
  destruct (incr32 _) as [next|f] eqn:Hid; ostep; [|by apply incr32_Err in Hid as [-> _]].
  apply incr32_Ret in Hid as [-> Hid].
  destruct (build_conn_spec (TcpServer.server w) ioLoop sockfd (InetAddress.mkInetAddress local) peer)
    as (c & -> & Hl & Hn & Hfd & Hs & Hi & Cb0). ostep.
  destruct (add_inv w self sockfd sk c pool ioLoop) as [[ev Hev] I1]; try done.
  simpl. rewrite Hev. ostep. set (w1 := TcpServer.mkWorld _ _ _ _ _) in *.
  assert (conns w1 !! self = Some c) as Hc by (simpl; by simplify_map_eq).
  assert (forall l, ConnectEstablished self ∉ pend w1 l) as Hno.
  { intros l Hf. destruct (pend_in w l _ I Hf) as (b & c1 & [= <-] & X). destruct Fr as (Y & _). congruence. }
  assert (forall b, is_Some (conns w !! b) -> b <> self) as Hne.
  { intros b [c1 Hb] ->. destruct Fr as (Y & _). congruence. }
  assert (forall b, is_Some (conns w !! b) -> conns w1 !! b = conns w !! b) as Hold.
  { intros b Hb%Hne. simpl. by rewrite lookup_insert_ne. }
  assert (advance None (Some self) w w1) as A1.
  { split; [|intros b c1 Hb|intros n b Hb%Hne|done|simpl; lia|].
    - intros l. exists []. by rewrite app_nil_r.
    - right. exists c1. rewrite Hold by eauto. by split_and!.
    - simpl. intros [[_ X]|[_ X]]%lookup_insert_Some; congruence.
    - intros b Hb. assert (b <> self) by congruence. simpl. by rewrite !lookup_insert_ne. }
  destruct (EventLoop.isInLoopThread tid ev).
  - unfold TcpServer.on_conn. destruct (focus_ok w1 self c I1 Hc) as (e & -> & Ec & Eu & _ & G). ostep.
    eapply post_bind.
    + eapply established_eff; [exact G|by rewrite Ec|unfold state; by rewrite Ec].
    + intros e' (O & Hd & Ef). rewrite Eu, Ec in Ef. split_and!; [|
        |intros l f q X; discriminate X|by apply (eff_raw _ _ self w1 _ c (TcpConnection.conn e') None)
        |by apply calls_from_same; rewrite (eff_calls _ _ _ _ _ Ef)].
      * by apply (settle w1 self c e' None).
      * eapply advance_none; [exact A1|exact Hold|by apply (eff_advance self w1 _ c (TcpConnection.conn e') None)|].
        pose proof (eff_server _ _ _ _ _ Ef) as Sv. unfold same_server in Sv. by rewrite Sv.
  - rewrite <- Hl. split_and!; [eapply queue_inv; [exact I1|by rewrite Hl|exists self, c; by split_and!|by intros _|done]| |
      intros l f q X; discriminate X|by apply raw_queue; [by apply raw_from_same|by rewrite Hl|]|
      by apply calls_from_same].
    eapply advance_none; [exact A1|exact Hold| |done].
    split; [|intros b c1 Hb|done|done|simpl; lia|done].
    + intros l. eexists. apply pend_queue. by rewrite Hl.
    + right. exists c1. simpl in Hb. simpl. by split_and!.
Qed.

Lemma free_step w a : Inv static w -> ~ owned a w ->
  kept false None (Some a) w (TcpServer.mkWorld (TcpServer.server w) (loops w) (delete a (conns w))
                 (delete a (TcpServer.socks w)) (TcpServer.calls w)).
Proof.
  intros I Ho. split_and!; [by apply free_inv| |intros l f q X; discriminate X|by apply raw_from_same|
    by apply calls_from_same].
  split; [|intros b c Hb|done|done|simpl; lia|].
  - intros l. exists []. by rewrite app_nil_r.
  - simpl. destruct (decide (b = a)) as [->|]; [left; by rewrite lookup_delete_eq|right].
    exists c. rewrite lookup_delete_ne by done. by split_and!.
  - intros b Hb. assert (b <> a) by congruence. simpl. by rewrite !lookup_delete_ne.
Qed.

(** *** Calls from other threads *)

(** A thread enters a call, moves on in it, or leaves it. *)
Lemma kept_calls s a w w1 m : kept true None s w w1 -> s = Some a ->
  (forall tid b k, m !! tid = Some (b, k) -> TcpServer.calls w1 !! tid = Some (b, k) \/
     b = a /\ call_inv w1 (b, k)) ->
  kept true None s w (TcpServer.set_calls m w1).
Proof.
  intros (I & [P1 C1 M1 B1 N1 O1] & D & R & Cf) -> Hm. split_and!; [|by split|done|done|].
  - destruct I as [I1 I2 I3 I4 I5 I6 I7 I8 I9 I10]. split; try assumption.
    intros tid [b k] Hb. destruct (Hm tid b k Hb) as [Hb1|[_ ?]]; [exact (I10 tid _ Hb1)|done].
  - intros tid b k Hb. destruct (Hm tid b k Hb) as [Hb1|[-> _]]; [by eapply Cf|by right].
Qed.

Lemma kept_delete_call s a tid w w1 : kept true None s w w1 -> s = Some a ->
  kept true None s w (TcpServer.set_calls (delete tid (TcpServer.calls w1)) w1).
Proof.
  intros K1 Hs. eapply kept_calls; [done..|]. intros tid' b k Hb.
  apply lookup_delete_Some in Hb as [_ ?]. by left.
Qed.

Lemma kept_insert_call s a tid k w w1 : kept true None s w w1 -> s = Some a -> call_inv w1 (a, k) ->
  kept true None s w (TcpServer.set_calls (<[tid := (a, k)]> (TcpServer.calls w1)) w1).
Proof.
  intros K1 Hs Hk. eapply kept_calls; [done..|]. intros tid' b k' Hb.
  apply lookup_insert_Some in Hb as [[_ [= <- <-]]|[_ ?]]; [by right|by left].
Qed.

(** A functor with a raw [this] queued for a connection in the map. *)
Lemma queue_raw_kept w a c f ev tid : Inv static w -> conns w !! a = Some c ->
  loops w !! TcpConnection.loop_ c = Some ev -> state_of c <> TcpConnection.kConnecting ->
  connections w !! TcpConnection.name_ c = Some a ->
  (exists d, f = SendInLoopStr a d) \/ f = ShutdownInLoop a ->
  kept true None (Some a) w (TcpServer.set_loop (TcpConnection.loop_ c) (EventLoop.queueInLoop tid f ev) w).
Proof.
  intros I Hc Hl Hs Hm Hf.
  assert (functor_conn f = Some a) as Ho by (destruct Hf as [[d ->]| ->]; done).
  split_and!; [| |by intros l g q X|by apply raw_queue; [by apply raw_from_same|done|]|by apply calls_from_same].
  - apply queue_inv; [done|done| | |].
    + exists a, c. destruct Hf as [[d ->]| ->]; by split_and!.
    + by destruct Hf as [[d ->]| ->].
    + intros b c1 _ Hb Hc1. congruence.
  - split; [|intros b c1 Hb|done|done|simpl; lia|done].
    + intros l. eexists. by apply pend_queue.
    + right. exists c1. by split_and!.
Qed.

Definition queue_on tid f e : env :=
  TcpConnection.mkEnv (TcpConnection.conn e) (EventLoop.queueInLoop tid f (TcpConnection.loop e))
    (TcpConnection.sock e) (TcpConnection.rest e).

Lemma unfocus_queue a tid f e : TcpServer.unfocus a (queue_on tid f e) =
  TcpServer.set_loop (own e) (EventLoop.queueInLoop tid f (TcpConnection.loop e)) (TcpServer.unfocus a e).
Proof. unfold TcpServer.unfocus, TcpServer.set_loop. simpl. by rewrite insert_insert_eq. Qed.

Lemma call_step a tid x w c : Inv static w -> conns w !! a = Some c -> may_call tid x c w ->
  post (kept true None (Some a) w) (call a tid x w).
Proof.
  intros I Hc (_ & Hx & _). unfold call. destruct (focus_ok w a c I Hc) as (e & -> & Ec & _). ostep.
  unfold TcpConnection.call_enter. rewrite Ec. case_bool_decide as Hs; [|by apply kept_refl].
  apply (kept_insert_call _ a); [by apply kept_refl|done|]. split; [|done]. exists c. by rewrite Hs.
Qed.

(** Quiet work on a connection that is up. *)
Lemma quiet_kept w a c e e' : Inv static w -> conns w !! a = Some c -> TcpConnection.conn e = c ->
  TcpServer.unfocus a e = w -> state_of c <> TcpConnection.kConnecting ->
  env_ok (store static w (TcpConnection.loop_ c)) a e' -> quiet a e e' ->
  kept true None (Some a) w (TcpServer.unfocus a e').
Proof.
  intros I Hc Ec Eu Hs O Q.
  pose proof (quiet_eff a e e' Q (proj1 (proj1 (proj2 O)))) as Ef. rewrite Eu, Ec in Ef.
  apply (eff_kept true w a c e' None I O Ef); [|done]. intros Hd.
  eapply requested_mono; [exact Ef|]. apply (requested_now w a c); [done|done|].
  destruct Q as (_ & _ & _ & _ & St & _). unfold state in *. rewrite Ec in St.
  destruct St as [X|[_ X]]; congruence.
Qed.

Lemma continue_step a tid k w : Inv static w -> TcpServer.calls w !! tid = Some (a, k) ->
  overtaken (Continue tid : @label S) w = false ->
  post (kept true None (Some a) w) (continue a tid k w).
Proof.
  intros I Hk Ho. destruct (i_calls _ _ I tid _ Hk) as [(c & Hc & Hs) Hx]. simpl in *.
  unfold overtaken in Ho. rewrite Hk, Hc in Ho.
  unfold continue. destruct (focus_ok w a c I Hc) as (e & -> & Ec & Eu & El & G). ostep.
  assert (env_ok (store static w (TcpConnection.loop_ c)) a e) as O.
  { destruct (i_conn _ _ I _ _ Hc) as (_ & _ & Cb0 & _ & Iop & _).
    unfold env_ok, live, state, index, chan. rewrite Ec. split_and!; auto. }
  assert (forall (f : functor cb) op, (exists d, f = SendInLoopStr a d) \/ f = ShutdownInLoop a ->
    negb (bool_decide (connections w !! TcpConnection.name_ c = Some a)) = false ->
    quietly (store static w (TcpConnection.loop_ c)) a e (op e) ->
    post (fun e' => kept true None (Some a) w (TcpServer.unfocus a e'))
      (EventLoop.runInLoop (fun _ => op) tid f e)) as Queue.
  { intros f op Hf Hm Hq. unfold EventLoop.runInLoop. destruct (EventLoop.isInLoopThread _ _).
    - eapply post_mono; [|exact Hq]. intros e' [O' Q']. by apply (quiet_kept w a c e e').
    - change (kept true None (Some a) w (TcpServer.unfocus a (queue_on tid f e))).
      rewrite unfocus_queue, Eu, Ec. apply negb_false_iff, bool_decide_eq_true in Hm.
      by apply queue_raw_kept. }
  destruct k as [[b|]|]; simpl.
  - rewrite Buffer.retrieveAllAsString_ok by done. ostep.
    pose proof (Queue (SendInLoopStr a (Buffer.content b)) (TcpConnection.sendInLoop_string a (Buffer.content b))
      ltac:(eauto) Ho (sendInLoop_quiet _ _ _ _ O)) as X.
    destruct (EventLoop.runInLoop _ _ _ e) as [e'|f]; ostep;
      [exact (kept_delete_call _ a tid _ _ X eq_refl)|exact X].
  - ostep. apply bool_decide_eq_false in Ho. set (e1 := TcpConnection.setState _ e).
    destruct (quiet_disconnecting _ a e O) as [O1 Q1]; [unfold state; by rewrite Ec|].
    refine (kept_insert_call _ a tid TcpConnection.Stored w (TcpServer.unfocus a e1) _ eq_refl _);
      [by apply (quiet_kept w a c e e1)|].
    split; [|done]. exists (TcpConnection.conn e1). split; [simpl; by rewrite lookup_insert_eq|done].
  - pose proof (Queue (ShutdownInLoop a) TcpConnection.shutdownInLoop ltac:(eauto) Ho (shutdownInLoop_quiet _ _ _ O)) as X.
    destruct (EventLoop.runInLoop _ _ _ e) as [e'|f]; ostep;
      [exact (kept_delete_call _ a tid _ _ X eq_refl)|exact X].
Qed.

(** *** All steps *)

(** The queue whose head a label runs. *)
Definition ran (lb : @label S) : option Z := match lb with RunFunctor l => Some l | _ => None end.

Definition is_foreign (lb : @label S) : bool :=
  match lb with Call _ _ _ | Continue _ => true | _ => false end.

(** The connection a label works on. *)
Definition subject (lb : @label S) w : option Z :=
  match lb with
  | Accept self _ _ _ _ => Some self
  | Event a _ _ | Free a | Call a _ _ => Some a
  | RunFunctor l => f ← head (pend w l); functor_conn f
  | Continue tid => fst <$> TcpServer.calls w !! tid
  end.

Lemma step_kept lb w : Inv static w -> overtaken lb w = false ->
  post (kept (is_foreign lb) (ran lb) (subject lb w) w) (step prog static heap acc_self listen_ret lb w).
Proof.
  intros I Ho. destruct lb as [self sockfd sk local peer|a r t|l|a|a tid x|tid]; cbn [step].
  - destruct (decide (fresh static self sockfd w)) as [Fr|]; [|by apply kept_refl].
    destruct (i_server _ _ I) as ([bl Hb] & _). rewrite Hb. ostep. by apply accept_step.
  - destruct (conns w !! a) as [c|] eqn:Hc; [|by apply kept_refl].
    destruct (loops w !! TcpConnection.loop_ c) as [ev|] eqn:Hl; [|by apply kept_refl].
    destruct (reported a c ev) eqn:Hr; [|by apply kept_refl]. by eapply event_step.
  - simpl. destruct (loops w !! l) as [ev|] eqn:Hl.
    + destruct (EventLoop.pendingFunctors_ ev) as [|f q] eqn:Hq.
      * apply kept_refl; [done|]. intros ? [= <-]. unfold pend. by rewrite Hl.
      * assert (pend w l = f :: q) as -> by (unfold pend; by rewrite Hl). simpl.
        eapply post_bind; [by eapply functor_step|]. done.
    + apply kept_refl; [done|]. intros ? [= <-]. unfold pend. by rewrite Hl.
  - case_decide; [by apply kept_refl|]. by apply free_step.
  - destruct (conns w !! a) as [c|] eqn:Hc; [|by apply kept_refl].
    case_decide; [|by apply kept_refl]. by eapply call_step.
  - simpl. destruct (TcpServer.calls w !! tid) as [[a k]|] eqn:Hk; [|by apply kept_refl].
    by apply continue_step.
Qed.

(** *** Runs *)

(** A server on which [start] has run and nothing has been accepted yet. *)
Definition started w : Prop :=
  conns w = ∅ /\ connections w = ∅ /\ TcpServer.calls w = ∅ /\ server_inv w /\
  forall l ev, loops w !! l = Some ev ->
    EventLoop.pendingFunctors_ ev = [] /\ EPollPoller.inv (static l) (EventLoop.poller_ ev).

Lemma started_inv w : started w -> Inv static w.
Proof.
  intros (Hc & Hm & Hk & Hs & Hl). assert (forall l, pend w l = []) as Hp.
  { intros l. unfold pend. destruct (loops w !! l) eqn:E1; [by apply (Hl l)|done]. }
  split; try done.
  - intros l ev Hev. assert (store static w l = static l) as ->; [|by apply (Hl l)].
    unfold store. by rewrite Hc, map_filter_empty, fmap_empty, (right_id_L ∅ (∪)).
  - intros a c. by rewrite Hc.
  - intros n a. by rewrite Hm.
  - intros l f. rewrite Hp. by intros ?%elem_of_nil.
  - intros l pre f suf a c Hq. rewrite Hp in Hq. by destruct pre.
  - intros l. rewrite Hp. constructor.
  - split; intros a; rewrite Hc; intros *; by rewrite lookup_empty.
  - split; intros a; rewrite Hc; intros *; by rewrite lookup_empty.
  - rewrite Hk. apply map_Forall_empty.
Qed.

Abbreviation run_from := (run prog static heap acc_self listen_ret).
Abbreviation orderly := (orderly prog static heap acc_self listen_ret).

Lemma run_labels_app ls1 ls2 w : run_from (ls1 ++ ls2) w = run_from ls1 w ≫= run_from ls2.
Proof.
  revert w. induction ls1 as [|lb ls IH]; intros w; [done|]. simpl.
  destruct (step _ _ _ _ _ lb w); simpl; [apply IH|done].
Qed.

(** A world in which the invariant holds, from which a run goes on orderly. *)
Definition good (ls : list (@label S)) w : Prop := Inv static w /\ orderly ls w = true.

Lemma good_kept lb ls w : good (lb :: ls) w ->
  post (fun w' => kept (is_foreign lb) (ran lb) (subject lb w) w w' /\ good ls w')
    (step prog static heap acc_self listen_ret lb w).
Proof.
  intros [I Ho]. simpl in Ho. apply andb_true_iff in Ho as [Hl Ho]. apply negb_true_iff in Hl.
  pose proof (step_kept lb w I Hl) as X. destruct (step _ _ _ _ _ lb w) as [w'|f]; [|done].
  split; [done|]. split; [apply X|done].
Qed.

Lemma good_step lb ls w w' : good (lb :: ls) w ->
  step prog static heap acc_self listen_ret lb w = Ret w' ->
  kept (is_foreign lb) (ran lb) (subject lb w) w w' /\ good ls w'.
Proof. intros G Hw. pose proof (good_kept lb ls w G) as X. by rewrite Hw in X. Qed.

Lemma good_run ls1 ls2 w w' : good (ls1 ++ ls2) w -> run_from ls1 w = Ret w' -> good ls2 w'.
Proof.
  revert w. induction ls1 as [|lb ls IH]; intros w G; [by intros [= <-]|]. cbn [run].
  destruct (step _ _ _ _ _ lb w) as [w1|] eqn:E1; [|done]. simpl. apply IH. by eapply good_step.
Qed.

Lemma good_head ls1 ls2 w : good (ls1 ++ ls2) w -> good ls1 w.
Proof.
  intros [I Ho]. split; [done|]. clear I. revert w Ho. induction ls1 as [|lb ls IH]; intros w; [done|].
  simpl. intros [Hl Ho]%andb_true_iff. apply andb_true_iff. split; [done|].
  destruct (step _ _ _ _ _ lb w); [by apply IH|done].
Qed.

Lemma run_inv ls w : good ls w -> post (Inv static) (run_from ls w).
Proof.
  revert w. induction ls as [|lb ls IH]; intros w G; [apply G|].
  cbn [run]. eapply post_bind; [by apply good_kept|]. intros w' [_ G']. by apply IH.
Qed.

Lemma run_good ls w w' : started w -> orderly ls w = true -> run_from ls w = Ret w' -> Inv static w'.
Proof.
  intros Hs Ho Hr. eapply (good_run ls []); [|exact Hr]. rewrite app_nil_r.
  split; [by apply started_inv|done].
Qed.

(** What the poller of a loop knows is a static channel or a connection. *)
Lemma known_channel w l ev fd s : Inv static w -> loops w !! l = Some ev ->
  Poller.channels_ (EPollPoller.base (EventLoop.poller_ ev)) !! fd = Some s ->
  is_Some (static l !! s) \/
  exists c, conns w !! s = Some c /\ TcpConnection.loop_ c = l /\
    Channel.fd_ (TcpConnection.channel_ c) = fd /\ index_of c <> EPollPoller.kNew.
Proof.
  intros I Hl Hs. destruct (i_poller _ _ I _ _ Hl) as (I1 & I2 & _).
  destruct (I2 _ _ Hs) as (ch & Hch & Hfd). pose proof (I1 _ _ Hch) as Hreg.
  rewrite store_lookup in Hch. destruct (static l !! s); [eauto|right].
  destruct (conns w !! s) as [c|]; [|done]. case_decide; [|done]. injection Hch as <-.
  exists c. split_and!; try done. intros Hi. rewrite <- Hfd in Hs.
  destruct Hreg as [(_ & X & _)|[(X & _)|(X & _)]]; [done|by rewrite Hi in X..].
Qed.

Lemma registered_owned w a c : Inv static w -> conns w !! a = Some c ->
  index_of c <> EPollPoller.kNew -> owned a w.
Proof. intros I Hc Hi. apply dec_stable. intros X. by apply Hi, (unowned_new w a). Qed.

(** The functors of [l] a run executes. *)
Definition runs (l : Z) (ls : list (@label S)) : nat :=
  length (filter (fun lb => ran lb = Some l) ls).

(** What holds of the connection at [a] until it is released, in runs of
    labels that satisfy [Q]. *)
Definition lasting_on (Q : @label S -> Prop) (a : Z) (P : World -> Prop) : Prop :=
  forall lb w w', Q lb -> Inv static w -> step prog static heap acc_self listen_ret lb w = Ret w' ->
    kept (is_foreign lb) (ran lb) (subject lb w) w w' -> P w -> P w' \/ conns w' !! a = None.

Definition lasting : Z -> (World -> Prop) -> Prop := lasting_on (fun _ => True).

Definition released_in (a : Z) (ls : list (@label S)) w : Prop :=
  exists ls' w', ls' `prefix_of` ls /\ run_from ls' w = Ret w' /\ conns w' !! a = None.

Lemma released_now a ls w : conns w !! a = None -> released_in a ls w.
Proof. exists [], w. split_and!; [apply prefix_nil|done|done]. Qed.

Lemma released_later a ls1 ls2 w w' : run_from ls1 w = Ret w' -> released_in a ls2 w' ->
  released_in a (ls1 ++ ls2) w.
Proof.
  intros Hr (ls & w2 & Hp & Hr2 & Hn). exists (ls1 ++ ls), w2.
  split_and!; [by apply prefix_app|by rewrite run_labels_app, Hr|done].
Qed.

Lemma released_sooner a ls1 ls2 w : released_in a ls1 w -> released_in a (ls1 ++ ls2) w.
Proof. intros (ls & w2 & Hp & X). exists ls, w2. split; [by apply prefix_app_r|done]. Qed.

Lemma lasting_on_run Q a P ls w w' : lasting_on Q a P -> Forall Q ls -> good ls w -> P w ->
  run_from ls w = Ret w' -> P w' \/ released_in a ls w.
Proof.
  intros HP HQ. revert w. induction HQ as [|lb ls Hlb _ IH]; simpl; intros w G Hw; [intros [= <-]; auto|].
  destruct (step _ _ _ _ _ lb w) as [w1|] eqn:E1; [|done]. simpl. intros Hr.
  destruct (good_step _ _ _ _ G E1) as [Hk G1].
  assert (run_from [lb] w = Ret w1) as E2 by (simpl; by rewrite E1).
  destruct (HP _ _ _ Hlb (proj1 G) E1 Hk Hw) as [Hw1|Hn].
  - destruct (IH _ G1 Hw1 Hr); [by left|right]. by apply (released_later a [lb] ls w w1).
  - right. apply (released_later a [lb] ls w w1); [done|]. by apply released_now.
Qed.

Lemma lasting_run a P ls w w' : lasting a P -> good ls w -> P w -> run_from ls w = Ret w' ->
  P w' \/ released_in a ls w.
Proof. intros HP. apply (lasting_on_run _ a P ls w w' HP). by apply Forall_true. Qed.

(** A queued functor gets to the head of its queue and runs. *)
Lemma reaches_head l f ls w w' pre suf : good ls w -> pend w l = pre ++ f :: suf ->
  (length pre < runs l ls)%nat -> run_from ls w = Ret w' ->
  exists ls1 ls2 w1 w2 q, ls = ls1 ++ RunFunctor l :: ls2 /\ run_from ls1 w = Ret w1 /\
    good (RunFunctor l :: ls2) w1 /\ pend w1 l = f :: q /\
    step prog static heap acc_self listen_ret (RunFunctor l) w1 = Ret w2 /\ run_from ls2 w2 = Ret w'.
Proof.
  revert w pre suf. induction ls as [|lb ls IH]; intros w pre suf G Hp Hlen; [by apply Nat.nlt_0_r in Hlen|].
  cbn [run]. destruct (step _ _ _ _ _ lb w) as [w1|] eqn:E1; [|done]. simpl. intros Hr.
  destruct (decide (ran lb = Some l)) as [Hl|Hl].
  - assert (lb = RunFunctor l) as -> by (destruct lb; simplify_eq/=; done).
    destruct pre as [|f0 pre].
    { exists [], ls, w, w1, suf. by split_and!. }
    destruct (good_step _ _ _ _ G E1) as [(_ & A & _) G1].
    destruct (adv_pend _ _ _ _ A l) as (nf & En). simpl in En. rewrite decide_True, Hp in En by done.
    destruct (IH w1 pre (suf ++ nf)) as (ls1 & ls2 & w2 & w3 & q & -> & Hr1 & X); try done.
    + rewrite En. simpl. by rewrite <- app_assoc.
    + unfold runs in *. rewrite filter_cons_True in Hlen by done. simpl in Hlen. lia.
    + exists (RunFunctor l :: ls1), ls2, w2, w3, q. split_and!; [done| |apply X..].
      cbn [run]. by rewrite E1.
  - destruct (good_step _ _ _ _ G E1) as [(_ & A & _) G1].
    destruct (adv_pend _ _ _ _ A l) as (nf & En). rewrite decide_False, Hp in En by done.
    destruct (IH w1 pre (suf ++ nf)) as (ls1 & ls2 & w2 & w3 & q & -> & Hr1 & X); try done.
    + rewrite En. simpl. by rewrite <- app_assoc.
    + unfold runs in *. by rewrite filter_cons_False in Hlen.
    + exists (lb :: ls1), ls2, w2, w3, q. split_and!; [done| |apply X..].
      cbn [run]. by rewrite E1.
Qed.

(** The connection [n] is closed; out of the map; unknown to the poller. *)
Definition closed (a l : Z) (n : bytes) (out unreg : bool) w : Prop :=
  exists c, conns w !! a = Some c /\ TcpConnection.loop_ c = l /\ TcpConnection.name_ c = n /\
    state_of c = TcpConnection.kDisconnected /\
    (out = true -> connections w !! n <> Some a) /\
    (unreg = true -> index_of c = EPollPoller.kNew).

Lemma closed_lasting a l n out unreg : lasting a (closed a l n out unreg).
Proof.
  intros lb w w' _ _ _ (_ & A & _) (c & Hc & Hl & Hn & Hs & Hout & Hun).
  destruct (adv_conn _ _ _ _ A a c Hc) as [?|(c' & Hc' & (Fl & Fn & _) & Hs' & Hi)]; [by right|left].
  apply rank_closed in Hs'; [|done].
  exists c'. split_and!; [done|congruence|congruence|done| |auto].
  intros Ho X. apply (Hout Ho). by eapply adv_map; eauto.
Qed.

Definition advanced (a : Z) c w : Prop :=
  exists c', conns w !! a = Some c' /\ frame c c' /\ rank (state_of c) <= rank (state_of c').

Lemma advanced_lasting a c : lasting a (advanced a c).
Proof.
  intros lb w w' _ _ _ (_ & A & _) (c1 & Hc & F & Hr).
  destruct (adv_conn _ _ _ _ A a c1 Hc) as [?|(c' & Hc' & F' & Hr' & _)]; [by right|left].
  exists c'. split_and!; [done|by eapply frame_trans|lia].
Qed.

(** A queued functor that establishes [Q] for a closed connection. *)
Lemma functor_makes a P Q l f ls w w' : lasting a P -> lasting a Q -> good ls w -> P w ->
  f ∈ pend w l -> (length (pend w l) <= runs l ls)%nat -> run_from ls w = Ret w' ->
  (forall w1 w2 q, pend w1 l = f :: q -> functor_done (Some l) w1 w2 -> P w2 -> Q w2) ->
  Q w' \/ released_in a ls w.
Proof.
  intros LP LQ G HP Hf Hlen Hr Hmake.
  destruct (list_elem_of_split _ _ Hf) as (pre & suf & Hp).
  destruct (reaches_head l f ls w w' pre suf) as (ls1 & ls2 & w1 & w2 & q & -> & Hr1 & G1 & Hp1 & Hst & Hr2);
    [done..| |done|].
  { rewrite Hp, length_app in Hlen. simpl in Hlen. lia. }
  pose proof (good_head _ _ _ G) as G0.
  destruct (lasting_run a P ls1 w w1) as [HP1|Hrel]; [done..| |right; by apply released_sooner].
  destruct (good_step _ _ _ _ G1 Hst) as [Hk G2].
  assert (run_from [RunFunctor l] w1 = Ret w2) as Hst' by (unfold run at 1; by rewrite Hst).
  assert (released_in a (RunFunctor l :: ls2) w1 -> released_in a (ls1 ++ RunFunctor l :: ls2) w) as Back
    by by apply released_later.
  destruct (LP _ _ _ Logic.I (proj1 G1) Hst Hk HP1) as [HP2|Hn].
  - destruct (lasting_run a Q ls2 w2 w') as [?|Hrel]; [done|done| |done|by left|].
    + eapply Hmake; [exact Hp1|apply Hk|done].
    + right. apply Back. by apply (released_later a [RunFunctor l] ls2 w1 w2).
  - right. apply Back. apply (released_later a [RunFunctor l] ls2 w1 w2); [done|].
    by apply released_now.
Qed.

(** [removeConnectionInLoop] takes a closed connection out of the map... *)
Lemma leaves_map a l n ls w w' : good ls w -> closed a l n false false w ->
  (length (pend w (base w)) <= runs (base w) ls)%nat -> run_from ls w = Ret w' ->
  closed a l n true false w' \/ released_in a ls w.
Proof.
  intros G Hc Hlen Hr. destruct (decide (connections w !! n = Some a)) as [Hm|Hm].
  - pose proof G as [I _]. assert (RemoveConnectionInLoop a ∈ pend w (base w)) as Hf.
    { destruct Hc as (c & Hc & _ & <- & Hs & _). by apply (requested_now w a c). }
    eapply functor_makes; [apply (closed_lasting a l n false false)|apply closed_lasting|done..|].
    intros w1 w2 q Hq Hd (c & Hc2 & ? & <- & Hs & _). destruct (Hd _ _ _ eq_refl Hq) as (c' & Hc' & _ & Ho).
    exists c. simplify_map_eq. by split_and!.
  - apply (lasting_run a _ ls w w'); [apply closed_lasting|done| |done].
    destruct Hc as (c & Hc & ? & ? & ? & _). exists c. by split_and!.
Qed.

(** ... and [connectDestroyed] its channel out of the poller. *)
Lemma leaves_poller a l n ls w w' : good ls w -> closed a l n true false w ->
  (length (pend w l) <= runs l ls)%nat -> run_from ls w = Ret w' ->
  closed a l n true true w' \/ released_in a ls w.
Proof.
  intros G (c & Hc & Hl & Hn & Hs & Hout & _) Hlen Hr.
  assert (closed a l n true false w) as Hcl by (exists c; by split_and!).
  destruct (decide (index_of c = EPollPoller.kNew)) as [Hi|Hi].
  - apply (lasting_run a _ ls w w'); [apply closed_lasting|done| |done]. exists c. by split_and!.
  - pose proof G as [I _]. destruct (i_conn _ _ I _ _ Hc) as (_ & _ & _ & _ & _ & Ireg & _).
    assert (ConnectDestroyed a ∈ pend w l) as Hf.
    { destruct (Ireg Hi) as [X|X]; [|by rewrite Hl in X]. rewrite Hn in X. by destruct Hout. }
    eapply functor_makes; [apply (closed_lasting a l n true false)|apply closed_lasting|done..|].
    intros w1 w2 q Hq Hd (c2 & Hc2 & ? & ? & ? & ? & _). destruct (Hd _ _ _ eq_refl Hq) as (c' & Hc' & _ & Ho).
    exists c2. simplify_map_eq. by split_and!.
Qed.

End Steps.

(** ** Properties *)

Section Properties.
Context {V Cb K E S : Type} `{EPOLL_LAWS K, EVENTFD E, SOCKET S}.
Implicit Types w : TcpServer.World V Cb (EPollPoller.EPollPoller K) E S.

Context (prog : V -> TcpConnection.event -> bytes -> Z * list action).
Context (static : Z -> gmap Z (Channel.Channel chan_cb)).
Context (heap : Z -> option bytes) (acc_self listen_ret : Z).

Abbreviation run_from := (run prog static heap acc_self listen_ret).

(** C1: whatever is accepted, reported, queued and released, in any order and
    on any number of loops, and whatever other threads do with connections
    they hold - each [send(Buffer* )] and [shutdown] being a check of [state_],
    in [shutdown] a store, and the queueing of a functor, with anything in
    between - no connection is used after it was destroyed, provided that no
    such call is overtaken by the close of its connection: that [shutdown]
    does not store into a connection which has gone down since the check, and
    that no functor is queued for a connection which the server has forgotten
    since ([orderly]; the code does not ensure this, and both cases happen, see
    [stale_shutdown_dangles]).  A run without calls of other threads is
    always orderly.  In every state every channel a poller's map holds, and
    every pointer in the kernel's interest set, is a static channel or the
    channel of a live connection of that loop to which a [shared_ptr] still
    exists; and so does every functor in a queue point at a connection that is
    still held, even when it has only a raw [this]. *)
Theorem server_never_dangles w ls (Hs : started static w)
  (Ho : orderly prog static heap acc_self listen_ret ls w = true) :
  match run_from ls w with
  | Err f => f <> UseAfterFree
  | Ret w' =>
      (forall l ev fd a, TcpServer.loops w' !! l = Some ev ->
         Poller.channels_ (EPollPoller.base (EventLoop.poller_ ev)) !! fd = Some a \/
         (exists x, interest (EPollPoller.epollfd_ (EventLoop.poller_ ev)) !! fd = Some x /\
                    ev_ptr x = a) ->
         is_Some (static l !! a) \/
         exists c, TcpServer.conns w' !! a = Some c /\ TcpConnection.loop_ c = l /\
           Channel.fd_ (TcpConnection.channel_ c) = fd /\ owned a w') /\
      (forall l f a, f ∈ pend w' l -> functor_conn f = Some a ->
         is_Some (TcpServer.conns w' !! a) /\ owned a w')
  end.
Proof.
  pose proof (run_inv prog static heap acc_self listen_ret ls w (conj (started_inv _ _ Hs) Ho)) as I.
  destruct (run_from ls w) as [w'|f]; [|exact I]. simpl in I. split.
  2: { intros l f a Hf Ha. split; [|by eapply pend_owned].
       destruct (i_pend _ _ I l f Hf) as (b & c & Hb & Hc & _). rewrite Ha in Hb. injection Hb as <-. eauto. }
  intros l ev fd a Hl Hk. destruct (i_poller _ _ I _ _ Hl) as (_ & _ & I3).
  assert (Poller.channels_ (EPollPoller.base (EventLoop.poller_ ev)) !! fd = Some a) as Hm.
  { destruct Hk as [?|(x & Hx & <-)]; [done|by apply I3]. }
  destruct (known_channel static w' l ev fd a I Hl Hm) as [?|(c & Hc & ? & ? & Hi)]; [by left|right].
  exists c. split_and!; try done. by eapply registered_owned.
Qed.

(** C10: a closed connection is not leaked: once the functors that hold it have
    run, and no thread is in a call of it, nothing refers to it - not the
    server's map, no poller, no kernel interest set - so the last [shared_ptr]
    is gone and it is destroyed.  No call of another thread has been overtaken
    by a close. *)
Theorem closed_connection_reclaimed w ls w' a c (Hs : started static w)
  (Ho : orderly prog static heap acc_self listen_ret ls w = true)
  (Hr : run_from ls w = Ret w') (Hc : TcpServer.conns w' !! a = Some c)
  (Hd : TcpConnection.state_ c = TcpConnection.kDisconnected)
  (Hq : forall l f, f ∈ pend w' l -> functor_owner f <> Some a)
  (Hk : forall tid k, TcpServer.calls w' !! tid <> Some (a, k)) :
  ~ owned a w' /\
  (forall l ev fd, TcpServer.loops w' !! l = Some ev ->
     Poller.channels_ (EPollPoller.base (EventLoop.poller_ ev)) !! fd <> Some a /\
     forall x, interest (EPollPoller.epollfd_ (EventLoop.poller_ ev)) !! fd = Some x -> ev_ptr x <> a) /\
  exists w2, step prog static heap acc_self listen_ret (Free a) w' = Ret w2 /\
    TcpServer.conns w2 = delete a (TcpServer.conns w').
Proof.
  pose proof (run_good prog static heap acc_self listen_ret ls w w' Hs Ho Hr) as I. clear Ho.
  assert (~ owned a w') as Ho.
  { intros [(n & x & Hx & ->)|[(l & ev & Hl & (f & Hf & Hfo)%Exists_exists)|(tid & [b k] & Hx & Hb)]].
    3: { simpl in Hb. subst b. by apply (Hk tid k). }
    - destruct (i_map _ _ I _ _ Hx) as (c1 & Hc1 & Hn1). simplify_map_eq.
      by apply (Hq _ _ (requested_now _ _ _ _ I Hc Hd Hx)).
    - apply (Hq l f); [|done]. unfold pend. by rewrite Hl. }
  split; [done|]. split.
  - intros l ev fd Hl.
    assert (Poller.channels_ (EPollPoller.base (EventLoop.poller_ ev)) !! fd <> Some a) as Hm.
    { intros X. destruct (known_channel _ _ _ _ _ _ I Hl X) as [Y|(c1 & Hc1 & _ & _ & Hi)].
      - destruct (i_distinct _ _ I) as [_ D2]. destruct (D2 _ _ l Hc) as [Z _]; [by eexists|].
        rewrite Z in Y. by destruct Y.
      - by eapply Ho, registered_owned. }
    split; [done|]. intros x Hx <-. destruct (i_poller _ _ I _ _ Hl) as (_ & _ & I3). by apply Hm, I3.
  - eexists. cbn [step]. rewrite decide_False by done. done.
Qed.

(** C4: a closed connection is released as soon as the loops get on with their
    queues: when the base loop has run what was queued there, and then the
    connection's loop what was queued in it - in any interleaving with other
    work in which no call of another thread is overtaken by a close - the
    connection has left the server's map and its poller, or is destroyed
    already. *)
Theorem closed_connection_released w ls0 ls1 ls2 w0 w1 w2 a c (Hs : started static w)
  (Ho : orderly prog static heap acc_self listen_ret (ls0 ++ ls1 ++ ls2) w = true)
  (Hr0 : run_from ls0 w = Ret w0) (Hc : TcpServer.conns w0 !! a = Some c)
  (Hd : TcpConnection.state_ c = TcpConnection.kDisconnected)
  (Hr1 : run_from ls1 w0 = Ret w1) (Hr2 : run_from ls2 w1 = Ret w2)
  (Hb : (length (pend w0 (TcpServer.loop_ (TcpServer.server w0))) <=
         runs (TcpServer.loop_ (TcpServer.server w0)) ls1)%nat)
  (Hl : (length (pend w1 (TcpConnection.loop_ c)) <= runs (TcpConnection.loop_ c) ls2)%nat) :
  released_in prog static heap acc_self listen_ret a (ls1 ++ ls2) w0 \/
  exists c', TcpServer.conns w2 !! a = Some c' /\ TcpConnection.name_ c' = TcpConnection.name_ c /\
    TcpServer.connections_ (TcpServer.server w2) !! TcpConnection.name_ c <> Some a /\
    Channel.index_ (TcpConnection.channel_ c') = EPollPoller.kNew.
Proof.
  pose proof (good_run prog static heap acc_self listen_ret ls0 (ls1 ++ ls2) w w0
    (conj (started_inv _ _ Hs) Ho) Hr0) as G.
  pose proof (good_head _ _ _ _ _ _ _ _ G) as G0. pose proof (good_run _ _ _ _ _ _ _ _ _ G Hr1) as G1.
  assert (closed a (TcpConnection.loop_ c) (TcpConnection.name_ c) false false w0) as Cl
    by (exists c; by split_and!).
  destruct (leaves_map prog static heap acc_self listen_ret _ _ _ ls1 w0 w1 G0 Cl Hb Hr1) as [C1|?];
    [|left; by apply released_sooner].
  destruct (leaves_poller prog static heap acc_self listen_ret _ _ _ ls2 w1 w2 G1 C1 Hl Hr2)
    as [(c' & ? & ? & ? & ? & Hout & Hu)|?]; [right; exists c'; split_and!; auto|].
  left. by eapply released_later.
Qed.

(** C9: the states are a one-way road.  Whatever happens to a server in a run
    in which no call of another thread is overtaken by the close of its
    connection (a [shutdown] that is overtaken does take the state back from
    disconnected to disconnecting, see [stale_shutdown_reopens]), as long as a
    connection is not destroyed it keeps its name, its loop and its descriptor
    and its state never goes back in the order connecting, connected,
    disconnecting, disconnected; while it is connecting its poller does not
    know it and the server's map holds it, and while it is connected or
    disconnecting its poller does know it. *)
Theorem connection_typestate w ls0 ls1 w0 w1 a c (Hs : started static w)
  (Ho : orderly prog static heap acc_self listen_ret (ls0 ++ ls1) w = true)
  (Hr0 : run_from ls0 w = Ret w0) (Hc : TcpServer.conns w0 !! a = Some c)
  (Hr1 : run_from ls1 w0 = Ret w1) :
  released_in prog static heap acc_self listen_ret a ls1 w0 \/
  exists c', TcpServer.conns w1 !! a = Some c' /\
    TcpConnection.loop_ c' = TcpConnection.loop_ c /\ TcpConnection.name_ c' = TcpConnection.name_ c /\
    Channel.fd_ (TcpConnection.channel_ c') = Channel.fd_ (TcpConnection.channel_ c) /\
    rank (TcpConnection.state_ c) <= rank (TcpConnection.state_ c') /\
    match TcpConnection.state_ c' with
    | TcpConnection.kConnecting =>
        Channel.index_ (TcpConnection.channel_ c') = EPollPoller.kNew /\
        TcpServer.connections_ (TcpServer.server w1) !! TcpConnection.name_ c' = Some a
    | TcpConnection.kConnected | TcpConnection.kDisconnecting =>
        Channel.index_ (TcpConnection.channel_ c') <> EPollPoller.kNew
    | TcpConnection.kDisconnected => True
    end.
Proof.
  pose proof (good_run prog static heap acc_self listen_ret ls0 ls1 w w0
    (conj (started_inv _ _ Hs) Ho) Hr0) as G0.
  assert (Inv static w1) as I.
  { eapply (good_run _ _ _ _ _ ls1 []); [rewrite app_nil_r; exact G0|exact Hr1]. }
  destruct (lasting_run prog static heap acc_self listen_ret a _ ls1 w0 w1
    (advanced_lasting prog static heap acc_self listen_ret a c) G0) as [(c' & Hc' & (Fl & Fn & Ff & _) & Hk)|?];
    [exists c; split_and!; done|done| |by left].
  right. exists c'. split_and!; try done.
  destruct (i_conn _ _ I _ _ Hc') as (_ & _ & _ & Icon & Iop & _).
  destruct (TcpConnection.state_ c') eqn:Es; try done; (by apply Icon) || (by apply Iop).
Qed.

End Properties.

(** *** A server to evaluate on

    The server of [TcpServer] with an echo service: what a connection
    receives is sent back.  One client sends two bytes and hangs up. *)

Definition echo {V : Type} (v : V) (ev : TcpConnection.event) (b : bytes) : Z * list action :=
  match ev with TcpConnection.OnMessage _ => (zlen b, [Send b]) | _ => (0, []) end.

(** The world of a server with these callbacks. *)
Abbreviation demo_World V := (TcpServer.World V unit (EPollPoller.EPollPoller kepoll) N TcpConnection.tcp_socket).

Definition demo_serving {V : Type} (vc vm : option V) : demo_World V :=
  TcpServer.mkWorld
    (TcpServer.mkTcpServer 0 (str "0.0.0.0:8080") (str "srv")
      (TcpServer.acceptor_ TcpServer.demo_server) (TcpServer.threadPool_ TcpServer.demo_server)
      vc vm None None 1 7 ∅)
    {[ 0 := TcpServer.demo_loop 1; 10 := TcpServer.demo_loop 2; 20 := TcpServer.demo_loop 3 ]} ∅ ∅ ∅.

(** Runs of a concrete world. *)
Section Reach.
Context {V : Type} (prog : V -> TcpConnection.event -> bytes -> Z * list action) (w : demo_World V).

Definition run_of (ls : list label) : outcome (demo_World V) :=
  run prog (fun _ => ∅) (fun _ => None) 300 0 ls w.

Definition reached (ls : list label) : demo_World V := match run_of ls with Ret w' => w' | Err _ => w end.
Definition reaches (ls : list label) : bool := match run_of ls with Ret _ => true | Err _ => false end.

Lemma reached_run ls : reaches ls = true -> run_of ls = Ret (reached ls).
Proof. unfold reaches, reached. by destruct (run_of ls). Qed.

Lemma reached_app ls1 ls2 : reaches ls1 = true -> reaches (ls1 ++ ls2) = true ->
  run prog (fun _ => ∅) (fun _ => None) 300 0 ls2 (reached ls1) = Ret (reached (ls1 ++ ls2)).
Proof.
  intros H1 H2%reached_run. apply reached_run in H1. unfold run_of in *.
  rewrite run_labels_app, H1 in H2. exact H2.
Qed.

Lemma reached_step lb : reaches [lb] = true ->
  step prog (fun _ => ∅) (fun _ => None) 300 0 lb w = Ret (reached [lb]).
Proof.
  intros X%reached_run. unfold run_of in X. cbn [run] in X.
  destruct (step _ _ _ _ _ lb w) as [x|f]; [exact X|discriminate X].
Qed.

End Reach.

Definition demo_world : demo_World unit := demo_serving (Some tt) (Some tt).
Definition demo_run : list label -> outcome (demo_World unit) := run_of echo demo_world.

Definition demo_life : list label :=
  let addr := InetAddress.new_InetAddress 8080 [] in
  [ Accept 500 9 (TcpConnection.mkTcpSocket [] false [100] [Buffer.Done (str "hi"); Buffer.Done []])
      (InetAddress.addr_ addr) addr;
    RunFunctor 20; Event 500 1 7; Event 500 1 8].

Definition after : list label -> demo_World unit := reached echo demo_world.
Definition runs_through : list label -> bool := reaches echo demo_world.

Lemma demo_after ls : runs_through ls = true -> demo_run ls = Ret (after ls).
Proof. apply reached_run. Qed.

Lemma demo_after_app ls1 ls2 : runs_through ls1 = true -> runs_through (ls1 ++ ls2) = true ->
  run echo (fun _ => ∅) (fun _ => None) 300 0 ls2 (after ls1) = Ret (after (ls1 ++ ls2)).
Proof. apply reached_app. Qed.

(** No loop has a functor queued. *)
Definition idle (w : TcpServer.World unit unit (EPollPoller.EPollPoller kepoll) N
    TcpConnection.tcp_socket) : bool :=
  forallb (fun x => match EventLoop.pendingFunctors_ x.2 with [] => true | _ => false end)
    (map_to_list (TcpServer.loops w)).

Lemma idle_owner w a : idle w = true ->
  forall l f, f ∈ pend w l -> functor_owner f <> Some a.
Proof.
  unfold idle, pend. intros Hi l f Hf. exfalso.
  destruct (TcpServer.loops w !! l) as [ev|] eqn:El; [|by apply elem_of_nil in Hf].
  rewrite forallb_forall in Hi. specialize (Hi (l, ev)). simpl in Hi.
  destruct (EventLoop.pendingFunctors_ ev); [by apply elem_of_nil in Hf|].
  discriminate Hi. apply list_elem_of_In. by apply elem_of_map_to_list.
Qed.

Lemma serving_started {V : Type} (vc vm : option V) : started (fun _ => ∅) (demo_serving vc vm).
Proof.
  split_and!; [done|done|done| |].
  - unfold server_inv, pool_ok. split_and!; [by exists (TcpServer.demo_loop 1)|
      by exists (TcpServer.demo_loop 1)| | |done|done].
    + simpl. repeat constructor; vm_compute; eauto.
    + apply Nat.leb_le. vm_compute. reflexivity.
  - intros l ev Hl. unfold demo_serving in Hl. simpl in Hl.
    assert (exists t, ev = TcpServer.demo_loop t) as [t ->].
    { repeat (apply lookup_insert_Some in Hl as [[_ <-]|[_ Hl]]; [eauto|]).
      apply lookup_singleton_Some in Hl as [_ <-]. eauto. }
    split; [done|]. split_and!; intros *; simpl; by rewrite lookup_empty.
Qed.

Lemma demo_started : started (fun _ => ∅) demo_world.
Proof. apply serving_started. Qed.

Definition text_buffer (d : bytes) : Buffer.Buffer :=
  match Buffer.append_string d (Buffer.new_Buffer Buffer.kInitialSize) with
  | Ret b => b | Err _ => Buffer.new_Buffer Buffer.kInitialSize end.

(** The echo, with thread 77 in a call of the connection around it. *)
Definition demo_calls : list label :=
  take 2 demo_life ++
  [Call 500 77 (TcpConnection.SendBuffer (text_buffer (str "yo"))); Event 500 1 7; Continue 77].

(** The poller of the connection's loop points at the connection and the
    functor of thread 77 is in the loop's queue. *)
Lemma server_never_dangles_witness :
  match demo_run demo_calls with
  | Err _ => False
  | Ret w' => exists ev, TcpServer.loops w' !! 20 = Some ev /\
      Poller.channels_ (EPollPoller.base (EventLoop.poller_ ev)) !! 9 = Some 500 /\
      SendInLoopStr 500 (str "yo") ∈ pend w' 20 /\ owned 500 w'
  end.
Proof.
  assert (runs_through demo_calls = true) as Hr by (vm_compute; reflexivity).
  assert (orderly echo (fun _ => ∅) (fun _ => None) 300 0 demo_calls demo_world = true) as Ho by (vm_compute; reflexivity).
  assert (pend (after demo_calls) 20 = [SendInLoopStr 500 (str "yo")]) as Hp by (vm_compute; reflexivity).
  assert ((l ← TcpServer.loops (after demo_calls) !! 20;
           Poller.channels_ (EPollPoller.base (EventLoop.poller_ l)) !! 9) = Some 500) as Hm
    by (vm_compute; reflexivity).
  pose proof (server_never_dangles echo (fun _ => ∅) (fun _ => None) 300 0 demo_world
    demo_calls demo_started Ho) as X.
  change (run _ _ _ _ _ _ _) with (demo_run demo_calls) in X.
  rewrite (demo_after _ Hr) in *.
  destruct (TcpServer.loops (after demo_calls) !! 20) as [ev|] eqn:El; [|discriminate Hm].
  exists ev. split; [done|]. split; [exact Hm|]. rewrite Hp. split; [apply list_elem_of_here|].
  apply (proj2 X 20 (SendInLoopStr 500 (str "yo")) 500); [rewrite Hp; apply list_elem_of_here|reflexivity].
Defined.

Lemma closed_connection_reclaimed_witness :
  ~ owned 500 (after (demo_life ++ [RunFunctor 0; RunFunctor 20])).
Proof.
  set (ls := demo_life ++ [RunFunctor 0; RunFunctor 20]).
  assert (runs_through ls = true) as Hr by (vm_compute; reflexivity).
  assert ((TcpConnection.state_ <$> TcpServer.conns (after ls) !! 500)
    = Some TcpConnection.kDisconnected) as Hc by (vm_compute; reflexivity).
  destruct (TcpServer.conns (after ls) !! 500) as [c|] eqn:Ec; [|discriminate Hc].
  injection Hc as Hc.
  assert (idle (after ls) = true) as Hi by (vm_compute; reflexivity).
  pose proof (idle_owner (after ls) 500 Hi) as Hq.
  apply demo_after in Hr.
  assert (orderly echo (fun _ => ∅) (fun _ => None) 300 0 ls demo_world = true) as Ho by (vm_compute; reflexivity).
  assert (TcpServer.calls (after ls) = ∅) as Hk by (vm_compute; reflexivity).
  exact (proj1 (closed_connection_reclaimed echo (fun _ => ∅) (fun _ => None) 300 0 demo_world ls
    (after ls) 500 c demo_started Ho Hr Ec Hc Hq
    ltac:(intros tid k; rewrite Hk, lookup_empty; discriminate))).
Defined.

(** The loops run the two functors of the hang-up. *)
Lemma closed_connection_released_witness :
  released_in echo (fun _ => ∅) (fun _ => None) 300 0 500 [RunFunctor 0; RunFunctor 20] (after demo_life) \/
  exists c', TcpServer.conns (after (demo_life ++ [RunFunctor 0] ++ [RunFunctor 20])) !! 500 = Some c' /\
    Channel.index_ (TcpConnection.channel_ c') = EPollPoller.kNew.
Proof.
  assert (runs_through demo_life = true) as R0 by (vm_compute; reflexivity).
  assert (runs_through (demo_life ++ [RunFunctor 0]) = true) as R1 by (vm_compute; reflexivity).
  assert (runs_through ((demo_life ++ [RunFunctor 0]) ++ [RunFunctor 20]) = true) as R2
    by (vm_compute; reflexivity).
  assert ((fun c => (TcpConnection.state_ c, TcpConnection.loop_ c)) <$>
      TcpServer.conns (after demo_life) !! 500 = Some (TcpConnection.kDisconnected, 20)) as Hc
    by (vm_compute; reflexivity).
  destruct (TcpServer.conns (after demo_life) !! 500) as [c|] eqn:Ec; [|discriminate Hc].
  injection Hc as Hd Hl.
  destruct (closed_connection_released echo (fun _ => ∅) (fun _ => None) 300 0 demo_world demo_life
    [RunFunctor 0] [RunFunctor 20] (after demo_life) (after (demo_life ++ [RunFunctor 0]))
    (after ((demo_life ++ [RunFunctor 0]) ++ [RunFunctor 20])) 500 c demo_started)
    as [X|(c' & Hc' & _ & _ & Hi)].
  - vm_compute. reflexivity.
  - exact (demo_after _ R0).
  - exact Ec.
  - exact Hd.
  - exact (demo_after_app demo_life [RunFunctor 0] R0 R1).
  - exact (demo_after_app (demo_life ++ [RunFunctor 0]) [RunFunctor 20] R1 R2).
  - apply Nat.leb_le. vm_compute. reflexivity.
  - rewrite Hl. apply Nat.leb_le. vm_compute. reflexivity.
  - left. exact X.
  - right. exists c'. rewrite app_assoc. by split.
Defined.

(** The connection between its establishment and the hang-up of the peer. *)
Lemma connection_typestate_witness :
  released_in echo (fun _ => ∅) (fun _ => None) 300 0 500 (drop 2 demo_life) (after (take 2 demo_life)) \/
  exists c', TcpServer.conns (after demo_life) !! 500 = Some c' /\
    TcpConnection.loop_ c' = 20 /\ 1 <= rank (TcpConnection.state_ c').
Proof.
  assert (runs_through (take 2 demo_life) = true) as R0 by (vm_compute; reflexivity).
  assert (runs_through (take 2 demo_life ++ drop 2 demo_life) = true) as R1 by (vm_compute; reflexivity).
  assert ((fun c => (TcpConnection.state_ c, TcpConnection.loop_ c)) <$>
      TcpServer.conns (after (take 2 demo_life)) !! 500 = Some (TcpConnection.kConnected, 20)) as Hc
    by (vm_compute; reflexivity).
  destruct (TcpServer.conns (after (take 2 demo_life)) !! 500) as [c|] eqn:Ec; [|discriminate Hc].
  injection Hc as Hs Hl.
  assert (orderly echo (fun _ => ∅) (fun _ => None) 300 0 (take 2 demo_life ++ drop 2 demo_life)
    demo_world = true) as Hn
    by (vm_compute; reflexivity).
  destruct (connection_typestate echo (fun _ => ∅) (fun _ => None) 300 0 demo_world (take 2 demo_life)
    (drop 2 demo_life) (after (take 2 demo_life)) (after (take 2 demo_life ++ drop 2 demo_life)) 500 c
    demo_started Hn (demo_after _ R0) Ec (demo_after_app _ _ R0 R1))
    as [X|(c' & Hc' & Hl' & _ & _ & Hr & _)].
  - left. exact X.
  - right. exists c'. rewrite Hs in Hr. rewrite Hl in Hl'. exact (conj Hc' (conj Hl' Hr)).
Defined.

(** *** Calls from other threads, evaluated *)

(** A thread of the user sends; the loop delivers. *)
Example foreign_send_delivered :
  TcpConnection.ts_out <$> TcpServer.socks (after (take 2 demo_life ++
    [Call 500 77 (TcpConnection.SendBuffer (text_buffer (str "yo"))); Continue 77; RunFunctor 20])) !! 500 =
    Some (str "yo").
Proof. vm_compute. reflexivity. Qed.

(** Thread 77 finds the connection connected; then the peer hangs up and the
    server lets go of the connection. *)
Definition demo_overtaken (x : TcpConnection.foreign_call) : list label :=
  take 2 demo_life ++ [Call 500 77 x] ++ drop 2 demo_life ++ [RunFunctor 0; RunFunctor 20].

(** The store of [kDisconnecting] comes last: the state goes back. *)
Example stale_shutdown_reopens :
  let ls := demo_overtaken TcpConnection.CallShutdown in
  TcpConnection.state_ <$> TcpServer.conns (after ls) !! 500 = Some TcpConnection.kDisconnected /\
  TcpConnection.state_ <$> TcpServer.conns (after (ls ++ [Continue 77])) !! 500 =
    Some TcpConnection.kDisconnecting.
Proof. vm_compute. split; reflexivity. Qed.

(** The thread queues its functor and gives up its own [shared_ptr], the last
    one: the raw [this] dangles. *)
Example stale_shutdown_dangles :
  demo_run (demo_overtaken TcpConnection.CallShutdown ++ [Continue 77; Continue 77; Free 500; RunFunctor 20])
    = Err UseAfterFree.
Proof. vm_compute. reflexivity. Qed.

Example stale_send_dangles :
  demo_run (demo_overtaken (TcpConnection.SendBuffer (text_buffer (str "yo"))) ++
    [Continue 77; Free 500; RunFunctor 20]) = Err UseAfterFree.
Proof. vm_compute. reflexivity. Qed.

(** Two threads at once: after the late store of the one the send of the
    other is not given up, and puts the channel of the closed and destroyed
    connection back into the poller. *)
Example stale_store_reregisters :
  let ls := take 2 demo_life ++
    [Call 500 77 TcpConnection.CallShutdown;
     Call 500 78 (TcpConnection.SendBuffer (text_buffer (str "yo")))] ++
    drop 2 demo_life ++ [RunFunctor 0; RunFunctor 20; Continue 77; Continue 78; RunFunctor 20] in
  match TcpServer.loops (after ls) !! 20 with
  | Some ev => Poller.channels_ (EPollPoller.base (EventLoop.poller_ ev)) !! 9 = Some 500
  | None => False
  end.
Proof. vm_compute. reflexivity. Qed.

End Lifecycle.
