(* ===== verification/Session.v ===== *)
(** * Sessions: what a connection of a running server does, as a function of
      what happens to it

    The composition of [Lifecycle] - any number of loops, accepts, events,
    functors and releases in any order - is refined by a sequential machine
    per connection.  Its state is a [session]: the input not yet retrieved,
    the output submitted, and the connection's state; it moves on an
    [occurrence]: the connection comes up, bytes arrive, it goes down, or the
    user is notified.  The user's callbacks are a parameter. *)

From S2P Require Import Prelude Buffer Channel Poller EventLoop Socket TcpConnection Threads TcpServer Lifecycle.

(** Everything the peer sends on the connection, from the first byte not yet
    read. *)
Class SOCKET_INPUT (S : Type) `{SOCKET S} := {
  sk_unread : S -> bytes
}.

(** A read takes what it returns from the front; nothing else takes any. *)
Class SOCKET_INPUT_LAWS (S : Type) `{SOCKET_INPUT S} := {
  sk_unread_done : forall l s d s', sk_readv l s = (Buffer.Done d, s') ->
    sk_unread s = d ++ sk_unread s';
  sk_unread_failed : forall l s e s', sk_readv l s = (Buffer.Failed e, s') ->
    sk_unread s' = sk_unread s;
  sk_unread_write : forall d s r s', sk_write d s = (r, s') -> sk_unread s' = sk_unread s;
  sk_unread_shutdown : forall s r s', sk_shutdown s = (r, s') -> sk_unread s' = sk_unread s
}.

Module Session.
Import Lifecycle.

(** ** The abstract machine *)

Section Spec.
Context {V : Type} (prog : V -> TcpConnection.event -> bytes -> Z * list action).
(** The connection and message callbacks; calling one that is not set throws. *)
Context (vc vm : option V).

Record session := mkSession {
  phase : TcpConnection.StateE;
  input : bytes;
  output : bytes
}.

Definition set_phase p s := mkSession p (input s) (output s).
Definition set_input i s := mkSession (phase s) i (output s).
Definition add_output d s := mkSession (phase s) (input s) (output s ++ d).

(** Only a connected session sends or starts to close. *)
Definition act (s : session) (x : action) : session :=
  match phase s, x with
  | TcpConnection.kConnected, Send d => add_output d s
  | TcpConnection.kConnected, Shutdown => set_phase TcpConnection.kDisconnecting s
  | _, _ => s
  end.

Definition call (v : V) (ev : TcpConnection.event) (s : session) : session :=
  let '(n, acts) := prog v ev (input s) in
  foldl act (set_input (drop (Z.to_nat n) (input s)) s) acts.

Definition call_opt (o : option V) ev s := match o with Some v => call v ev s | None => s end.

Inductive occurrence :=
  | Up
  | Received (t : Z) (d : bytes)
  | Down
  | Notified (v : V) (ev : TcpConnection.event).

Definition occur (s : session) (o : occurrence) : session :=
  match o with
  | Up => call_opt vc TcpConnection.OnConnection (set_phase TcpConnection.kConnected s)
  | Received t d => call_opt vm (TcpConnection.OnMessage t) (set_input (input s ++ d) s)
  | Down => call_opt vc TcpConnection.OnConnection (set_phase TcpConnection.kDisconnected s)
  | Notified v ev => call v ev s
  end.

Definition session_of (tr : list occurrence) : session :=
  foldl occur (mkSession TcpConnection.kConnecting [] []) tr.

Definition data (o : occurrence) : bytes := match o with Received _ d => d | _ => [] end.
Definition received (tr : list occurrence) : bytes := concat (data <$> tr).

(** *** The order of the callbacks

    First up; then messages and notifications; then down, after which only
    notifications still queued arrive.  When [strict] is not asked for, the
    socket may be read and closed after it has been closed. *)

Inductive stage := Before | Open | Closed.

Definition next (strict : bool) (g : option stage) (o : occurrence) : option stage :=
  match g, o with
  | Some Before, Up => Some Open
  | Some Open, (Received _ _ | Notified _ _) => Some Open
  | Some Open, Down => Some Closed
  | Some Closed, Notified _ _ => Some Closed
  | Some Closed, (Received _ _ | Down) => if strict then None else Some Closed
  | _, _ => None
  end.

Definition stage_of (strict : bool) (tr : list occurrence) : option stage :=
  foldl (next strict) (Some Before) tr.

Definition stage_at (p : TcpConnection.StateE) : stage :=
  match p with
  | TcpConnection.kConnecting => Before
  | TcpConnection.kConnected | TcpConnection.kDisconnecting => Open
  | TcpConnection.kDisconnected => Closed
  end.

(** *** Lemmas *)

Lemma session_snoc tr o : session_of (tr ++ [o]) = occur (session_of tr) o.
Proof. unfold session_of. by rewrite foldl_snoc. Qed.

Lemma received_snoc tr o : received (tr ++ [o]) = received tr ++ data o.
Proof. unfold received. rewrite fmap_app, concat_app. simpl. by rewrite app_nil_r. Qed.

Lemma stage_snoc strict tr o : stage_of strict (tr ++ [o]) = next strict (stage_of strict tr) o.
Proof. unfold stage_of. by rewrite foldl_snoc. Qed.

Lemma stage_weaken strict tr g : stage_of strict tr = Some g -> stage_of false tr = Some g.
Proof.
  revert g. induction tr as [|o tr IH] using rev_ind; intros g; [done|]. rewrite !stage_snoc.
  destruct (stage_of strict tr) as [g'|]; [|by destruct o]. rewrite (IH g') by done.
  by destruct g', o, strict.
Qed.

(** Up once, then messages and notifications, then down at most once, then
    notifications. *)
Definition live (o : occurrence) : Prop :=
  match o with Received _ _ | Notified _ _ => True | _ => False end.
Definition late (o : occurrence) : Prop := match o with Notified _ _ => True | _ => False end.

Definition ordered (tr : list occurrence) : Prop :=
  tr = [] \/ exists mid, Forall live mid /\
    (tr = Up :: mid \/ exists post, Forall late post /\ tr = Up :: mid ++ Down :: post).

Lemma stage_ordered tr : is_Some (stage_of true tr) -> ordered tr.
Proof.
  assert (forall g, stage_of true tr = Some g -> match g with
    | Before => tr = []
    | Open => exists mid, Forall live mid /\ tr = Up :: mid
    | Closed => exists mid post, Forall live mid /\ Forall late post /\ tr = Up :: mid ++ Down :: post
    end) as X; [|intros [[] E]; specialize (X _ E); unfold ordered; naive_solver].
  induction tr as [|o tr IH] using rev_ind; intros g; [by intros [= <-]|]. rewrite stage_snoc.
  destruct (stage_of true tr) as [[]|]; simpl; [..|by destruct o]; specialize (IH _ eq_refl); simpl in IH.
  - subst tr. destruct o; try done. intros [= <-]. by exists [].
  - destruct IH as (mid & Hm & ->). destruct o; try done; intros [= <-].
    + exists (mid ++ [Received t d]). split; [apply Forall_app_2; [done|by repeat constructor]|done].
    + exists mid, []. by split_and!.
    + exists (mid ++ [Notified v ev]). split; [apply Forall_app_2; [done|by repeat constructor]|done].
  - destruct IH as (mid & post & Hm & Hp & ->). destruct o; try done. intros [= <-].
    exists mid, (post ++ [Notified v ev]). split_and!; [done|apply Forall_app_2; [done|by repeat constructor]|].
    simpl. by rewrite <- app_assoc.
Qed.

Lemma act_output s x : exists d, output (act s x) = output s ++ d.
Proof.
  unfold act. destruct (phase s), x; simpl; first [by eexists|exists []; by rewrite app_nil_r].
Qed.

Lemma acts_output acts : forall s, exists d, output (foldl act s acts) = output s ++ d.
Proof.
  induction acts as [|x acts IH]; intros s; simpl; [exists []; by rewrite app_nil_r|].
  destruct (IH (act s x)) as [d1 ->], (act_output s x) as [d2 ->]. exists (d2 ++ d1).
  by rewrite app_assoc.
Qed.

Lemma act_input s x : input (act s x) = input s.
Proof. unfold act. by destruct (phase s), x. Qed.

(** Callbacks do not reopen or establish a session. *)
Lemma act_stage s x : stage_at (phase (act s x)) = stage_at (phase s).
Proof. unfold act. destruct (phase s) eqn:Es, x; simpl; by rewrite ?Es. Qed.

Lemma acts_stage acts : forall s, stage_at (phase (foldl act s acts)) = stage_at (phase s).
Proof.
  induction acts as [|x acts IH]; intros s; simpl; [done|]. by rewrite IH, act_stage.
Qed.

Lemma call_stage v ev s : stage_at (phase (call v ev s)) = stage_at (phase s).
Proof. unfold call. destruct (prog v ev (input s)) as [n acts]. by rewrite acts_stage. Qed.

End Spec.
Arguments occurrence : clear implicits.

(** ** One connection *)

Section Connection.
Context {V Cb K E S : Type} `{EPOLL_LAWS K, EVENTFD E, SOCKET_LAWS S, !SOCKET_INPUT S,
  !SOCKET_INPUT_LAWS S}.

Abbreviation poller := (EPollPoller.EPollPoller K).
Abbreviation cb := (TcpServer.conn_cb V).
Abbreviation Conn := (TcpConnection.TcpConnection cb).
Abbreviation World := (TcpServer.World V Cb poller E S).
Abbreviation env := (TcpConnection.Env cb poller E S World).
Abbreviation channel := (Channel.Channel chan_cb).
Implicit Types (e : env) (c : Conn).

(** *** What sending, shutting down and writing leave alone *)

Definition user_callbacks c :=
  (TcpConnection.connectionCallback_ c, TcpConnection.messageCallback_ c,
   TcpConnection.closeCallback_ c).

(** The channel is bound to the connection's members. *)
Definition wiring (ch : channel) :=
  (Channel.readCallback_ ch, Channel.writeCallback_ ch, Channel.closeCallback_ ch,
   Channel.errorCallback_ ch, Channel.revents_ ch).

(** It is in the kernel's interest set, for reading at least. *)
Definition armed (ch : channel) : Prop :=
  Channel.isReading ch = true /\ Channel.index_ ch = EPollPoller.kAdded.

Record calm e e' : Prop := mkCalm {
  k_unread : sk_unread (TcpConnection.sock e') = sk_unread (TcpConnection.sock e);
  k_input : TcpConnection.inputBuffer_ (TcpConnection.conn e') = TcpConnection.inputBuffer_ (TcpConnection.conn e);
  k_callbacks : user_callbacks (TcpConnection.conn e') = user_callbacks (TcpConnection.conn e);
  k_wiring : wiring (chan e') = wiring (chan e);
  k_armed : armed (chan e) -> armed (chan e');
  k_thread : EventLoop.threadId_ (TcpConnection.loop e') = EventLoop.threadId_ (TcpConnection.loop e)
}.

#[local] Instance calm_preorder : PreOrder calm.
Proof. split; [by split|]. intros e1 e2 e3 [] []. split; [congruence..|auto|congruence]. Qed.

(** A change of the connection that keeps its input, callbacks and channel. *)
Lemma calm_same e e' :
  sk_unread (TcpConnection.sock e') = sk_unread (TcpConnection.sock e) ->
  TcpConnection.inputBuffer_ (TcpConnection.conn e') = TcpConnection.inputBuffer_ (TcpConnection.conn e) ->
  user_callbacks (TcpConnection.conn e') = user_callbacks (TcpConnection.conn e) ->
  chan e' = chan e ->
  EventLoop.threadId_ (TcpConnection.loop e') = EventLoop.threadId_ (TcpConnection.loop e) -> calm e e'.
Proof. intros ? ? ? Hc ?. by split; rewrite ?Hc. Qed.

Lemma calm_conn e e' : TcpConnection.conn e' = TcpConnection.conn e ->
  sk_unread (TcpConnection.sock e') = sk_unread (TcpConnection.sock e) ->
  EventLoop.threadId_ (TcpConnection.loop e') = EventLoop.threadId_ (TcpConnection.loop e) -> calm e e'.
Proof. intros Hc Hs ?. apply calm_same; unfold chan; by rewrite ?Hc. Qed.

Lemma calm_queue_opt e (o : option cb) (f : cb -> functor cb) :
  calm e (match o with Some u => TcpConnection.queue_functor (f u) e | None => e end).
Proof. destruct (TcpConnection.queue_opt_frame o f e) as (Qc & Qs & _ & Qt). apply calm_conn; [done|by rewrite Qs|done]. Qed.

(** What [updateChannel] does to the channel. *)
Lemma on_channel_conn a f ev e e' :
  (forall ch (p : poller), f a ch p = Channel.update a (Channel.set_events (ev (Channel.events_ ch)) ch) p) ->
  TcpConnection.on_channel a f e = Ret e' ->
  let ch := Channel.set_events (ev (Channel.events_ (chan e))) (chan e) in
  TcpConnection.sock e' = TcpConnection.sock e /\
  TcpConnection.conn e' = TcpConnection.set_channel (Channel.set_index
    (if (index e =? EPollPoller.kNew) || (index e =? EPollPoller.kDeleted) then EPollPoller.kAdded
     else if Channel.isNoneEvent ch then EPollPoller.kDeleted else index e) ch) (TcpConnection.conn e) /\
  EventLoop.threadId_ (TcpConnection.loop e') = EventLoop.threadId_ (TcpConnection.loop e).
Proof.
  intros Hf Eq. unfold TcpConnection.on_channel in Eq. rewrite Hf in Eq.
  apply bind_Ret in Eq as ([ch p] & Ech & [= <-]). unfold Channel.update in Ech. simpl in Ech.
  apply EPollPoller.updateChannel_channel in Ech as ->. done.
Qed.

Lemma reading_not_none (ch : channel) : Channel.isReading ch = true -> Channel.isNoneEvent ch = false.
Proof.
  unfold Channel.isReading, Channel.isNoneEvent, Channel.has, Channel.kNoneEvent. intros Hr.
  destruct (Channel.events_ ch =? 0) eqn:E0; [|done]. reflect_bools. by rewrite E0, Z.land_0_l in Hr.
Qed.

(** Changing the interest in writing. *)
Lemma calm_writing a f ev e e' :
  (forall ch (p : poller), f a ch p = Channel.update a (Channel.set_events (ev (Channel.events_ ch)) ch) p) ->
  (forall m, Channel.has (ev m) Channel.kReadEvent = Channel.has m Channel.kReadEvent) ->
  TcpConnection.on_channel a f e = Ret e' -> calm e e' /\ TcpConnection.sock e' = TcpConnection.sock e.
Proof.
  intros Hf Hev Eq. destruct (on_channel_conn a f ev e e' Hf Eq) as (Es & Ec & Et). split; [|done].
  split; unfold chan; rewrite ?Es, ?Ec, ?Et; try done. intros [Hr Hi].
  assert (Channel.isReading (Channel.set_events (ev (Channel.events_ (chan e))) (chan e)) = true) as Hr'
    by (unfold Channel.isReading; simpl; by rewrite Hev).
  split; [exact Hr'|]. simpl. rewrite (reading_not_none _ Hr'). unfold index.
  unfold chan in Hi |- *. rewrite Hi. by destruct (_ || _).
Qed.

Lemma enableWriting_calm a e e' : TcpConnection.on_channel a Channel.enableWriting e = Ret e' -> calm e e'.
Proof.
  intros Eq. apply (calm_writing a Channel.enableWriting (fun m => Z.lor m Channel.kWriteEvent)) in Eq as [? _];
    [done|done|]. intros m. by apply Channel.has_lor_disjoint.
Qed.

Lemma disableWriting_calm a e e' : TcpConnection.on_channel a Channel.disableWriting e = Ret e' -> calm e e'.
Proof.
  intros Eq. apply (calm_writing a Channel.disableWriting (fun m => Z.land m (Z.lnot Channel.kWriteEvent))) in Eq
    as [? _]; [done|done|]. intros m. by apply Channel.has_land_disjoint.
Qed.

Lemma write_now_calm a d e n r fault e' : TcpConnection.write_now a d e = (n, r, fault, e') -> calm e e'.
Proof.
  unfold TcpConnection.write_now. destruct (_ && _); [|by intros [= _ _ _ <-]].
  destruct (sk_write _ _) as [x s] eqn:Ew. apply sk_unread_write in Ew.
  assert (calm e (TcpConnection.set_sock s e)) as C1 by by apply calm_conn.
  destruct x as [x|x]; intros [= _ _ _ <-]; [done|]. destruct (_ =? 0); [|done].
  etrans; [exact C1|]. apply (calm_queue_opt _ _ (fun u => WriteComplete u a)).
Qed.

Lemma sendInLoop_calm a d e e' : TcpConnection.sendInLoop a d e = Ret e' -> calm e e'.
Proof.
  unfold TcpConnection.sendInLoop. case_decide; [by intros [= <-]|].
  destruct (TcpConnection.write_now a d e) as [[[n r] fault] e1] eqn:Ew.
  apply write_now_calm in Ew. destruct (_ && _); [|by intros [= <-]].
  unfold TcpConnection.buffer_rest. intros Eq. apply bind_Ret in Eq as (x & _ & Eq).
  apply bind_Ret in Eq as (o & _ & Eq).
  assert (calm e1 (TcpConnection.high_water a r e1)) as C2.
  { unfold TcpConnection.high_water. destruct (_ && _); [|done].
    apply (calm_queue_opt _ _ (fun u => HighWaterMark u a _)). }
  etrans; [exact Ew|]. etrans; [exact C2|]. etrans; [|destruct (negb _);
    [by eapply enableWriting_calm|injection Eq as <-; done]]. by apply calm_same.
Qed.

Lemma send_calm a ptr d e e' :
  TcpConnection.send a (EventLoop.threadId_ (TcpConnection.loop e)) ptr d e = Ret e' -> calm e e'.
Proof.
  unfold TcpConnection.send, EventLoop.isInLoopThread. case_decide; [|by intros [= <-]].
  rewrite Z.eqb_refl. apply sendInLoop_calm.
Qed.

Lemma shutdownInLoop_calm e e' : TcpConnection.shutdownInLoop e = Ret e' -> calm e e'.
Proof.
  unfold TcpConnection.shutdownInLoop. destruct (negb _); [|by intros [= <-]].
  destruct (sk_shutdown _) as [x s] eqn:Ex. apply sk_unread_shutdown in Ex. intros [= <-].
  by apply calm_conn.
Qed.

Lemma shutdown_calm a e e' :
  TcpConnection.shutdown a (EventLoop.threadId_ (TcpConnection.loop e)) e = Ret e' -> calm e e'.
Proof.
  unfold TcpConnection.shutdown, EventLoop.runInLoop, EventLoop.isInLoopThread.
  case_decide; [|by intros [= <-]]. simpl. rewrite Z.eqb_refl. intros Eq%shutdownInLoop_calm.
  etrans; [|exact Eq]. by apply calm_same.
Qed.

Lemma handleWrite_calm a e e' : TcpConnection.handleWrite a e = Ret e' -> calm e e'.
Proof.
  unfold TcpConnection.handleWrite. destruct (TcpConnection.isWriting e); [|by intros [= <-]].
  intros Eq. apply bind_Ret in Eq as (d & _ & Eq).
  destruct (sk_write d (TcpConnection.sock e)) as [r s] eqn:Ew. apply sk_unread_write in Ew.
  apply bind_Ret in Eq as ([n err] & _ & Eq).
  assert (calm e (TcpConnection.set_sock s e)) as C1 by by apply calm_conn.
  destruct (0 <? n); [|by injection Eq as <-]. etrans; [exact C1|].
  destruct (_ =? 0); [|injection Eq as <-; by apply calm_same].
  unfold TcpConnection.write_complete in Eq. apply bind_Ret in Eq as (e1 & E1%disableWriting_calm & Eq).
  etrans; [|etrans; [exact E1|]]; [by apply calm_same|].
  etrans; [apply (calm_queue_opt e1 (TcpConnection.writeCompleteCallback_ (TcpConnection.conn e1))
    (fun u => WriteComplete u a))|].
  revert Eq. destruct (decide _); [apply shutdownInLoop_calm|by intros [= <-]].
Qed.

(** *** A connection and its session *)

Context (prog : V -> TcpConnection.event -> bytes -> Z * list action) (vc vm : option V).
Context (strict : bool) (total : bytes).

Abbreviation session_of := (Session.session_of prog vc vm).
Abbreviation call := (Session.call prog).

Definition wired (ch : channel) : Prop :=
  Channel.readCallback_ ch = Some ConnRead /\ Channel.writeCallback_ ch = Some ConnWrite /\
  Channel.closeCallback_ ch = Some ConnClose /\ Channel.errorCallback_ ch = Some ConnError.

(** [r] has been read of the [total] the peer sends. *)
Record agrees (ss : session) (r : bytes) c (s : S) : Prop := mkAgrees {
  a_phase : TcpConnection.state_ c = phase ss;
  a_input : let i := TcpConnection.inputBuffer_ c in
    Buffer.wf i /\ Buffer.content i = input ss /\ zlen (Buffer.buffer_ i) <= 1032 + zlen r /\
    zlen (input ss) <= zlen r;
  a_output : let o := TcpConnection.outputBuffer_ c in
    Buffer.wf o /\ sk_out s ++ Buffer.content o = output ss;
  a_unread : r ++ sk_unread s = total;
  a_writing : Channel.isWriting (TcpConnection.channel_ c) =
    negb (bool_decide (phase ss = TcpConnection.kDisconnected)) &&
    negb (bool_decide (Buffer.content (TcpConnection.outputBuffer_ c) = []));
  a_shut : phase ss <> TcpConnection.kDisconnected -> sk_shut s =
    bool_decide (phase ss = TcpConnection.kDisconnecting) &&
    bool_decide (Buffer.content (TcpConnection.outputBuffer_ c) = []);
  a_callbacks : user_callbacks c =
    (TcpServer.UserCb <$> vc, TcpServer.UserCb <$> vm, Some TcpServer.RemoveConnectionCb);
  a_wired : wired (TcpConnection.channel_ c);
  a_armed : stage_at (phase ss) = Open -> armed (TcpConnection.channel_ c);
  a_gone : strict = true -> phase ss = TcpConnection.kDisconnected ->
    Channel.index_ (TcpConnection.channel_ c) <> EPollPoller.kAdded;
  a_heard : vm = None -> r = []
}.

Abbreviation agree ss r e := (agrees ss r (TcpConnection.conn e) (TcpConnection.sock e)).

(** An open connection is a pipe that holds the output. *)
Lemma agrees_pipe ss r e : agree ss r e -> stage_at (phase ss) = Open ->
  TcpConnection.refines_pipe (output ss, bool_decide (phase ss = TcpConnection.kDisconnecting)) e.
Proof.
  intros A Hst. destruct (a_output _ _ _ _ A) as (Wo & Ho).
  assert (phase ss <> TcpConnection.kDisconnected) as Hd by (intros X; by rewrite X in Hst).
  unfold TcpConnection.refines_pipe, TcpConnection.out_ok, TcpConnection.interest_ok, TcpConnection.isWriting.
  split_and!; [done| |done| |].
  - rewrite (a_writing _ _ _ _ A). by rewrite bool_decide_eq_false_2.
  - simpl. rewrite (a_phase _ _ _ _ A). by destruct (phase ss).
  - simpl. rewrite (a_shut _ _ _ _ A Hd). f_equal. symmetry. by apply TcpConnection.drained.
Qed.

Lemma pipe_agrees ss ss' r e e' : agree ss r e -> stage_at (phase ss) = Open -> calm e e' ->
  TcpConnection.refines_pipe (output ss', bool_decide (phase ss' = TcpConnection.kDisconnecting)) e' ->
  stage_at (phase ss') = Open -> input ss' = input ss -> agree ss' r e'.
Proof.
  intros A Hst [Cu Ci Cc Cw Ca _] ((Wo & Io) & Ho & Hs & Hsh) Hst' Hi.
  assert (phase ss' <> TcpConnection.kDisconnected) as Hd by (intros X; by rewrite X in Hst').
  unfold TcpConnection.interest_ok, TcpConnection.isWriting, chan in *.
  rewrite (TcpConnection.drained _ _ Ho) in Hsh. injection Cw as R1 R2 R3 R4 _.
  destruct (a_wired _ _ _ _ A) as (W1 & W2 & W3 & W4).
  split; rewrite ?Ci, ?Cu, ?Cc, ?Hi; try done; try apply A.
  - rewrite Hs. simpl. by destruct (phase ss').
  - by rewrite (bool_decide_eq_false_2 _ Hd).
  - split_and!; congruence.
  - intros _. by apply Ca, (a_armed _ _ _ _ A).
Qed.

Context (no_reset : TcpConnection.no_reset (S := S)).

(** The length of a message of 2 GB or more does not fit the [int] of
    [Buffer::makeSpace]. *)
Definition sendable (x : action) : Prop :=
  match x with Send d => zlen d < 2 ^ 31 | Shutdown => True end.

Lemma act_agrees a ss r x e e' : agree ss r e -> phase ss <> TcpConnection.kConnecting ->
  sendable x -> do_action a x e = Ret e' -> agree (act ss x) r e'.
Proof.
  intros A Hp Hl Eq. destruct (decide (phase ss = TcpConnection.kConnected)) as [Hc|Hc].
  - assert (stage_at (phase ss) = Open) as Hst by by rewrite Hc.
    pose proof (agrees_pipe ss r e A Hst) as P. unfold act in *. rewrite Hc in *.
    destruct x as [d|]; simpl in *.
    + pose proof (TcpConnection.send_pipe_any a (output ss, false) 0 d e P Hl) as X.
      rewrite Eq, TcpConnection.not_refused in X by done. destruct X as (X1 & _).
      eapply (pipe_agrees ss); [exact A|by rewrite Hc|by eapply send_calm|..]; try done; simpl; by rewrite Hc.
    + destruct (TcpConnection.shutdown_pipe a (output ss, false) e P) as (e1 & E1 & X1 & _).
      rewrite Eq in E1. injection E1 as <-.
      eapply (pipe_agrees ss); [exact A|by rewrite Hc|by eapply shutdown_calm|..]; done.
  - assert (e' = e /\ act ss x = ss) as [-> ->]; [|done]. unfold act. split.
    + destruct x; simpl in Eq; unfold TcpConnection.send, TcpConnection.shutdown in Eq;
        rewrite decide_False in Eq by (rewrite (a_phase _ _ _ _ A); done); by injection Eq.
    + by destruct (phase ss), x.
Qed.

Lemma acts_agree a r acts : forall ss e e', agree ss r e -> phase ss <> TcpConnection.kConnecting ->
  Forall sendable acts -> do_actions a acts e = Ret e' -> agree (foldl act ss acts) r e'.
Proof.
  induction acts as [|x acts IH]; intros ss e e' A Hp Hl Eq; simpl in *; [by injection Eq as <-|].
  apply bind_Ret in Eq as (e1 & E1 & Eq). apply Forall_cons in Hl as [Hx Hl].
  eapply IH; [by eapply act_agrees| |done|exact Eq].
  intros X. apply Hp. pose proof (act_stage ss x) as Y. rewrite X in Y. by destruct (phase ss).
Qed.

(** Programs do not retrieve a negative number of bytes, and no message they
    send in answer to a part of what the peer sends is as long as 2 GB. *)
Context (Hprog : forall v ev b, zlen b <= zlen total ->
  0 <= (prog v ev b).1 /\ Forall sendable (prog v ev b).2).

(** A user callback is a call of the session. *)
Lemma user_agrees a v ev ss r e e' : agree ss r e -> phase ss <> TcpConnection.kConnecting ->
  user prog a v ev e = Ret e' -> agree (call v ev ss) r e'.
Proof.
  intros A Hp Eq. destruct (a_input _ _ _ _ A) as (Wi & Ci & Li & Lr).
  pose proof (f_equal zlen (a_unread _ _ _ _ A)) as Hl. rewrite zlen_app in Hl.
  pose proof (zlen_nonneg (sk_unread (TcpConnection.sock e))). unfold user, Session.call in *.
  rewrite Ci in Eq. pose proof (Hprog v ev (input ss) ltac:(lia)) as Hn.
  destruct (prog v ev (input ss)) as [n acts]. destruct Hn as [Hn Hs]. simpl in Hn, Hs.
  eapply acts_agree; [|done|exact Hs|exact Eq].
  destruct A. split; try done. simpl. split_and!; [by apply Buffer.wf_retrieve| | |].
  - by rewrite Buffer.content_retrieve, Ci.
  - by rewrite Buffer.buffer_retrieve.
  - etrans; [|exact Lr]. unfold zlen. rewrite length_drop. lia.
Qed.

(** *** The handlers

    What the peer sends would fit a vector. *)
Context (total_len : zlen total < 2 ^ 62).

Abbreviation occurrence := (Session.occurrence V).
Implicit Types (tr : list occurrence).

(** The trace explains the connection. *)
Definition traced tr c (s : S) : Prop :=
  agrees (session_of tr) (received tr) c s /\
  stage_of strict tr = Some (stage_at (phase (session_of tr))).

Abbreviation trace tr e := (traced tr (TcpConnection.conn e) (TcpConnection.sock e)).

Lemma traced_state tr e : trace tr e -> state e = phase (session_of tr).
Proof. intros [A _]. apply A. Qed.

(** A user callback extends the trace. *)
Lemma called a (o : occurrence) v ev ss tr e e' :
  occur prog vc vm (session_of tr) o = call v ev ss -> agree ss (received (tr ++ [o])) e ->
  next strict (stage_of strict tr) o = Some (stage_at (phase ss)) -> phase ss <> TcpConnection.kConnecting ->
  user prog a v ev e = Ret e' -> trace (tr ++ [o]) e'.
Proof.
  intros Ho A Hn Hp Eq.
  assert (stage_of strict (tr ++ [o]) = Some (stage_at (phase ss))) as Hst by by rewrite stage_snoc.
  unfold traced. rewrite Hst, session_snoc, Ho in *. rewrite call_stage. split; [|done].
  by eapply user_agrees.
Qed.

Lemma call_user_user a tid (u : option V) o ev e e' : o = TcpServer.UserCb <$> u ->
  TcpConnection.call_user (callbacks prog a tid) o ev e = Ret e' ->
  exists v, u = Some v /\ user prog a v ev e = Ret e'.
Proof. intros ->. destruct u as [v|]; [|done]. by exists v. Qed.

Lemma removeConnection_same tid a e e' : TcpServer.removeConnection tid a e = Ret e' ->
  TcpConnection.conn e' = TcpConnection.conn e /\ TcpConnection.sock e' = TcpConnection.sock e.
Proof.
  unfold TcpServer.removeConnection, TcpServer.removeConnectionInLoop. destruct (decide _).
  - destruct (EventLoop.isInLoopThread _ _); by intros [= <-].
  - destruct (TcpServer.loops _ !! _); ostep; [|done].
    destruct (EventLoop.isInLoopThread _ _); by intros [= <-].
Qed.

(** A handler that reads or closes runs on a connection that is up, and, when
    the order is strict, not down yet. *)
Definition may_close e : Prop :=
  state e <> TcpConnection.kConnecting /\ (strict = true -> stage_at (state e) = Open).

Lemma may_close_next tr e (o : occurrence) : trace tr e -> may_close e ->
  match o with Received _ _ | Down => True | _ => False end ->
  next strict (stage_of strict tr) o =
    Some (match o with Down => Closed | _ => stage_at (state e) end).
Proof.
  intros T [Hc Hs] Ho. rewrite (proj2 T), <- (traced_state _ _ T).
  destruct (state e), strict, o; simpl in *; try done; by specialize (Hs eq_refl).
Qed.

Lemma disableAll_agrees a ss r e e' : agree ss r e -> (strict = true -> stage_at (phase ss) = Open) ->
  TcpConnection.on_channel a Channel.disableAll
    (TcpConnection.setState TcpConnection.kDisconnected e) = Ret e' ->
  agree (set_phase TcpConnection.kDisconnected ss) r e'.
Proof.
  intros A Hs Eq. apply (on_channel_conn a Channel.disableAll (fun m => Z.land m Channel.kNoneEvent))
    in Eq as (Es & Ec & _); [|done].
  destruct A as [Ap Ai Ao Au Aw Ash Ac Awi Aa Ag Ah].
  split; rewrite ?Es, ?Ec; simpl; try done.
  - unfold Channel.isWriting. simpl. by rewrite Z.land_0_r.
  - intros Hst _. destruct (Aa (Hs Hst)) as [_ Hi]. unfold index, chan, Channel.isNoneEvent. simpl.
    by rewrite Hi, Z.land_0_r.
Qed.

Lemma handleClose_traced a tid tr e e' : trace tr e -> may_close e ->
  TcpConnection.handleClose a (callbacks prog a tid) e = Ret e' -> trace (tr ++ [Down]) e'.
Proof.
  intros T Hm Eq. unfold TcpConnection.handleClose in Eq.
  apply bind_Ret in Eq as (e1 & E1 & Eq). apply bind_Ret in Eq as (e2 & E2 & Eq).
  pose proof (may_close_next tr e Down T Hm Logic.I) as Hn.
  apply (disableAll_agrees _ _ _ _ _ (proj1 T)) in E1;
    [|intros Hs; rewrite <- (traced_state _ _ T); by apply Hm].
  pose proof (a_callbacks _ _ _ _ E1) as Cb1. injection Cb1 as Cc _ _.
  destruct (call_user_user _ _ _ _ _ _ _ Cc E2) as (v & Hv & Eu).
  assert (trace (tr ++ [Down]) e2) as T2.
  { eapply called; [by simpl; rewrite Hv| |exact Hn|done|exact Eu]. rewrite received_snoc, app_nil_r. exact E1. }
  pose proof (a_callbacks _ _ _ _ (proj1 T2)) as Cb2. injection Cb2 as _ _ Cl.
  unfold TcpConnection.call_user in Eq. rewrite Cl in Eq. simpl in Eq.
  by apply removeConnection_same in Eq as [-> ->].
Qed.

(** Reading changes the input only. *)
Lemma read_agrees ss r e b d s : agree ss r e -> Buffer.wf b ->
  zlen (Buffer.buffer_ b) <= zlen (Buffer.buffer_ (TcpConnection.inputBuffer_ (TcpConnection.conn e))) + zlen d ->
  Buffer.content b = Buffer.content (TcpConnection.inputBuffer_ (TcpConnection.conn e)) ++ d ->
  sk_unread (TcpConnection.sock e) = d ++ sk_unread s ->
  sk_out s = sk_out (TcpConnection.sock e) -> sk_shut s = sk_shut (TcpConnection.sock e) ->
  (vm = None -> d = []) ->
  agree (set_input (input ss ++ d) ss) (r ++ d)
    (TcpConnection.set_sock s (TcpConnection.upd_conn (TcpConnection.set_inputBuffer b) e)).
Proof.
  intros [Ap (Wi & Ci & Li & Lr) Ao Au Aw Ash Ac Awi Aa Ag Ah] Wb Lb Cb0 Hu Ho Hs Hd.
  split; simpl; rewrite ?Ho, ?Hs; try done.
  - rewrite Cb0, Ci, !zlen_app. split_and!; [done|done|lia..].
  - by rewrite <- app_assoc, <- Hu.
  - intros Hv. by rewrite (Ah Hv), (Hd Hv).
Qed.

Lemma handleRead_traced a tid t tr e e' : trace tr e -> may_close e ->
  TcpConnection.handleRead a (callbacks prog a tid) t e = Ret e' -> exists suf, trace (tr ++ suf) e'.
Proof.
  intros T Hm Eq. pose proof (proj1 T) as A. destruct (a_input _ _ _ _ A) as (Wi & Ci & Li & _).
  pose proof (f_equal zlen (a_unread _ _ _ _ A)) as Hl. rewrite zlen_app in Hl.
  pose proof (zlen_nonneg (sk_unread (TcpConnection.sock e))).
  pose proof (TcpConnection.handleRead_ok a (callbacks prog a tid) t e Wi) as X.
  specialize (X ltac:(unfold Buffer.max_size, Buffer.extrabuf_size; lia)).
  destruct (sk_readv _ _) as [r s] eqn:Er. destruct (sk_readv_frame _ _ _ _ Er) as [Eo Esh].
  destruct r as [x|d]; [rewrite Eq in X; injection X as ->|].
  - apply sk_unread_failed in Er as Eu. exists []. rewrite app_nil_r. destruct T as [_ Hst]. split; [|done].
    destruct A. split; simpl; rewrite ?Eo, ?Esh, ?Eu; done.
  - apply sk_unread_done in Er as Eu. destruct X as (b & Wb & Lb & Cb0 & X). cbv zeta in X.
    pose proof (read_agrees _ _ _ b d s A Wb Lb Cb0 Eu Eo Esh) as A1.
    set (e1 := TcpConnection.set_sock s _) in *. rewrite Eq in X. symmetry in X.
    case_bool_decide as Hd; [specialize (A1 (fun _ => Hd))|].
    + subst d. exists [Down]. apply (handleClose_traced a tid tr e1); [|exact Hm|exact X].
      rewrite !app_nil_r in A1. destruct T as [_ Hst]. split; [|done].
      destruct (session_of tr). exact A1.
    + exists [Received t d]. pose proof (a_callbacks _ _ _ _ A) as Cb1. injection Cb1 as _ Cm _.
      destruct (call_user_user _ _ _ _ _ _ _ Cm X) as (v & Hv & Ev).
      specialize (A1 ltac:(by rewrite Hv)).
      eapply called; [by simpl; rewrite Hv|by rewrite received_snoc| | |exact Ev].
      * rewrite (may_close_next tr e) by done. simpl. by rewrite (traced_state _ _ T).
      * simpl. rewrite <- (traced_state _ _ T). apply Hm.
Qed.

Lemma handleWrite_traced a tr e e' : trace tr e -> state e <> TcpConnection.kConnecting ->
  TcpConnection.handleWrite a e = Ret e' -> trace tr e'.
Proof.
  intros T Hc Eq. pose proof (proj1 T) as A. rewrite (traced_state _ _ T) in Hc.
  split; [|apply T]. destruct (decide (phase (session_of tr) = TcpConnection.kDisconnected)) as [Hd|Hd].
  - unfold TcpConnection.handleWrite, TcpConnection.isWriting in Eq.
    rewrite (a_writing _ _ _ _ A), Hd in Eq. by injection Eq as <-.
  - assert (stage_at (phase (session_of tr)) = Open) as Hst by by destruct (phase (session_of tr)).
    pose proof (TcpConnection.handleWrite_pipe a _ e (agrees_pipe _ _ _ A Hst)) as X. rewrite Eq in X.
    eapply pipe_agrees; [exact A|done|by eapply handleWrite_calm|apply X|done|done].
Qed.

Lemma notified_traced a v ev tr e e' : trace tr e -> state e <> TcpConnection.kConnecting ->
  user prog a v ev e = Ret e' -> trace (tr ++ [Notified v ev]) e'.
Proof.
  intros T Hc Eq. rewrite (traced_state _ _ T) in Hc.
  eapply called; [done|rewrite received_snoc, app_nil_r; apply T| |exact Hc|exact Eq].
  rewrite (proj2 T). by destruct (phase (session_of tr)).
Qed.

Lemma established_traced a tid tr e e' : trace tr e -> state e = TcpConnection.kConnecting ->
  index e = EPollPoller.kNew ->
  TcpConnection.connectEstablished a (callbacks prog a tid) e = Ret e' -> trace (tr ++ [Up]) e'.
Proof.
  intros T Hc Hi Eq. rewrite (traced_state _ _ T) in Hc. unfold TcpConnection.connectEstablished in Eq.
  apply bind_Ret in Eq as (e1 & E1 & Eq).
  apply (on_channel_conn a Channel.enableReading (fun m => Z.lor m Channel.kReadEvent)) in E1 as (Es & Ec & _);
    [|done]. unfold index, chan in Ec, Hi. simpl in Ec. rewrite Hi in Ec. simpl in Ec.
  assert (agree (set_phase TcpConnection.kConnected (session_of tr)) (received tr) e1) as A1.
  { destruct (proj1 T) as [Ap Ai Ao Au Aw Ash Ac Awi Aa Ag Ah]. rewrite Hc in *.
    split; rewrite ?Es, ?Ec; simpl; try done.
    - unfold Channel.isWriting in *. simpl. rewrite Channel.has_lor_disjoint by done. by rewrite Aw.
    - intros _. by apply Ash.
    - intros _. split; [|done]. unfold Channel.isReading. simpl. by rewrite Channel.has_lor. }
  pose proof (a_callbacks _ _ _ _ A1) as Cb1. injection Cb1 as Cc _ _.
  destruct (call_user_user _ _ _ _ _ _ _ Cc Eq) as (v & Hv & Eu).
  eapply called; [by simpl; rewrite Hv|by rewrite received_snoc, app_nil_r| |done|exact Eu].
  by rewrite (proj2 T), Hc.
Qed.

Lemma destroyed_traced a tid tr e e' : trace tr e -> state e = TcpConnection.kDisconnected ->
  TcpConnection.connectDestroyed a (callbacks prog a tid) e = Ret e' -> trace tr e'.
Proof.
  intros T Hs Eq. rewrite (traced_state _ _ T) in Hs. unfold TcpConnection.connectDestroyed in Eq.
  rewrite (a_phase _ _ _ _ (proj1 T)), Hs in Eq. simpl in Eq.
  unfold TcpConnection.on_channel, Channel.remove in Eq.
  apply bind_Ret in Eq as ([ch p] & E1 & [= <-]). simpl in E1. unfold EPollPoller.removeChannel in E1.
  apply bind_Ret in E1 as (p2 & _ & [= <- _]).
  destruct T as [[] Hst]. split; [|done]. rewrite Hs in *. split; simpl; rewrite ?Hs; done.
Qed.

(** *** Dispatching events *)

Lemma stage_before tr : stage_of strict tr = Some Before -> tr = [].
Proof.
  destruct tr as [|o tr _] using rev_ind; [done|]. rewrite stage_snoc.
  destruct (stage_of strict tr) as [[]|], o; simpl; by destruct strict.
Qed.

Lemma traced_up tr e : trace tr e -> tr <> [] -> state e <> TcpConnection.kConnecting.
Proof.
  intros T Hn Hs. apply Hn, stage_before. rewrite (proj2 T), <- (traced_state _ _ T). by rewrite Hs.
Qed.

Lemma acts_calm a acts : forall e e', do_actions a acts e = Ret e' -> calm e e'.
Proof.
  induction acts as [|x acts IH]; intros e e' Eq; simpl in Eq; [by injection Eq as <-|].
  apply bind_Ret in Eq as (e1 & E1 & Eq). etrans; [|by apply IH].
  destruct x; [by eapply send_calm|by eapply shutdown_calm].
Qed.

Lemma handleClose_revents a tid tr e e' : trace tr e -> may_close e ->
  TcpConnection.handleClose a (callbacks prog a tid) e = Ret e' ->
  Channel.revents_ (chan e') = Channel.revents_ (chan e).
Proof.
  intros T Hm Eq. unfold TcpConnection.handleClose in Eq.
  apply bind_Ret in Eq as (e1 & E1 & Eq). apply bind_Ret in Eq as (e2 & E2 & Eq).
  pose proof (disableAll_agrees _ _ _ _ _ (proj1 T)
    ltac:(intros Hs; rewrite <- (traced_state _ _ T); by apply Hm) E1) as A1.
  pose proof (a_callbacks _ _ _ _ A1) as Cb1. injection Cb1 as Cc _ Cl.
  apply (call_user_user _ _ _ _ _ _ _ Cc) in E2 as (v & _ & E2). unfold user in E2.
  destruct (prog _ _ _) as [n acts]. apply acts_calm in E2 as [_ _ Kc Kw _ _].
  injection Kw as _ _ _ _ Kr. injection Kc as _ _ Kl.
  unfold TcpConnection.call_user in Eq. rewrite Kl, Cl in Eq. simpl in Eq.
  apply removeConnection_same in Eq as [Ec _].
  apply (on_channel_conn a Channel.disableAll (fun m => Z.land m Channel.kNoneEvent)) in E1 as (_ & E1 & _); [|done].
  unfold chan in *. rewrite Ec, Kr. simpl. by rewrite E1.
Qed.

(** The kernel reports a hang-up together with urgent data only when there is
    input to read. *)
Definition kernel_ok (r : Z) : bool :=
  negb (Channel.has r Channel.EPOLLHUP && negb (Channel.has r Channel.EPOLLIN) &&
        Channel.has r Channel.EPOLLPRI).

Lemma has_or r b d : Channel.has r (Z.lor b d) = Channel.has r b || Channel.has r d.
Proof.
  unfold Channel.has. rewrite Z.land_lor_distr_r, <- negb_andb. f_equal.
  apply eq_true_iff_eq. rewrite andb_true_iff, !Z.eqb_eq. apply Z.lor_eq_0_iff.
Qed.

Lemma dispatch_traced a r t tr e e' : trace tr e -> tr <> [] ->
  (strict = true -> kernel_ok r = true /\ stage_at (state e) = Open) ->
  dispatch prog a r t e = Ret e' -> exists suf, trace (tr ++ suf) e'.
Proof.
  intros T Hn Hstrict. unfold dispatch, TcpConnection.handleEvent.
  set (tid := EventLoop.threadId_ _). set (e0 := TcpConnection.upd_conn _ e). intros Eq.
  assert (trace tr e0) as T0 by (destruct T as [[] Hst]; split; [by split|exact Hst]).
  assert (may_close e0) as Hm0 by (split; [by apply (traced_up tr)|naive_solver]).
  set (run := TcpConnection.run_cb a (callbacks prog a tid)) in Eq.
  assert (exists g, Channel.handleEventWithGuard (fun w : env => Some (TcpConnection.channel_ (TcpConnection.conn w)))
    run g t e0 = Ret e' \/ e' = e0) as (g & [Eg| ->]); [|clear Eq|by (exists []; rewrite app_nil_r)].
  { unfold Channel.handleEvent in Eq. ostep. simpl in Eq.
    destruct (Channel.tied_ _); [destruct (Channel.tie_ _) as [o|]|]; [exists (Some o); by left| |exists None; by left].
    exists None. right. by injection Eq. }
  unfold Channel.handleEventWithGuard, Channel.call in Eg. cbn [mbind mret outcome_bind outcome_ret deref] in Eg.
  apply bind_Ret in Eg as (e1 & E1 & Eg). apply bind_Ret in Eg as (e2 & E2 & Eg).
  apply bind_Ret in Eg as (e3 & E3 & Eg).
  change (Channel.revents_ (TcpConnection.channel_ (TcpConnection.conn e0))) with r in E1.
  assert (exists suf, trace (tr ++ suf) e1 /\ Channel.revents_ (chan e1) = r /\
    (Channel.has r (Z.lor Channel.EPOLLIN Channel.EPOLLPRI) = true -> may_close e1)) as (s1 & T1 & R1 & M1).
  { destruct (a_wired _ _ _ _ (proj1 T0)) as (_ & _ & Wc & _). rewrite Wc in E1.
    destruct (_ && _) eqn:Eb.
    - assert (trace (tr ++ [Down]) e1) as T1 by by eapply handleClose_traced.
      exists [Down]. split_and!; [done|etrans; [eapply handleClose_revents; [exact T0|exact Hm0|exact E1]|done]|].
      intros Hr. rewrite has_or in Hr. split; [apply (traced_up (tr ++ [Down])); [done|by destruct tr]|].
      intros Hs. destruct (Hstrict Hs) as [Hk _]. unfold kernel_ok in Hk. exfalso.
      destruct (Channel.has r Channel.EPOLLHUP), (Channel.has r Channel.EPOLLIN), (Channel.has r Channel.EPOLLPRI); done.
    - injection E1 as <-. exists []. by rewrite app_nil_r. }
  assert (tr ++ s1 <> []) as Hn1 by by destruct tr.
  assert (e2 = e1) as ->.
  { destruct (a_wired _ _ _ _ (proj1 T1)) as (_ & _ & _ & We). rewrite We in E2.
    revert E2. generalize (Channel.has (Channel.revents_ (TcpConnection.channel_ (TcpConnection.conn e1))) Channel.EPOLLERR).
    intros []; simpl; intros [= ->]; done. }
  change (TcpConnection.channel_ (TcpConnection.conn e1)) with (chan e1) in E3. rewrite R1 in E3.
  assert (exists s2, trace (tr ++ s2) e3 /\ tr ++ s2 <> []) as (s2 & T2 & Hn2).
  { destruct (a_wired _ _ _ _ (proj1 T1)) as (Wr & _). unfold chan in E3. rewrite Wr in E3.
    destruct (Channel.has r (Z.lor Channel.EPOLLIN Channel.EPOLLPRI)); [|injection E3 as <-; by exists s1].
    destruct (handleRead_traced a tid t (tr ++ s1) e1 e3 T1 (M1 eq_refl) E3) as [s2 T2].
    exists (s1 ++ s2). rewrite app_assoc. split; [done|]. intros [X _]%app_eq_nil. done. }
  exists s2. destruct (a_wired _ _ _ _ (proj1 T2)) as (_ & Ww & _). rewrite Ww in Eg.
  destruct (Channel.has _ Channel.EPOLLOUT); [|by injection Eg as <-].
  apply (handleWrite_traced a (tr ++ s2) e3); [done|by apply (traced_up (tr ++ s2))|exact Eg].
Qed.

(** ** The server

    Steps of [Lifecycle] keep every connection explained by a trace. *)

Context (static : Z -> gmap Z (Channel.Channel chan_cb)).
Context (heap : Z -> option bytes) (acc_self listen_ret : Z).

Abbreviation step := (Lifecycle.step prog static heap acc_self listen_ret).

Definition running (a : Z) (w : World) : Prop :=
  exists c s tr, TcpServer.conns w !! a = Some c /\ TcpServer.socks w !! a = Some s /\ traced tr c s.

Lemma focus_traced a w e : running a w -> TcpServer.focus a w = Ret e -> exists tr, trace tr e.
Proof.
  intros (c & s & tr & Hc & Hs & T). unfold TcpServer.focus. rewrite Hc, Hs. ostep.
  destruct (TcpServer.loops w !! _); ostep; [|done]. intros [= <-]. by exists tr.
Qed.

Lemma unfocus_traced a tr e : trace tr e -> running a (TcpServer.unfocus a e).
Proof.
  intros T. exists (TcpConnection.conn e), (TcpConnection.sock e), tr. simpl. by simplify_map_eq.
Qed.

(** Work on a connection through [on_conn]. *)
Lemma on_conn_traced a w w' c (op : env -> outcome env) : Inv static w -> running a w ->
  TcpServer.conns w !! a = Some c -> TcpServer.on_conn a op w = Ret w' ->
  (forall tr e e', TcpConnection.conn e = c -> trace tr e -> op e = Ret e' -> exists tr', trace tr' e') ->
  running a w'.
Proof.
  intros I He Hc Eq Hop. unfold TcpServer.on_conn in Eq. apply bind_Ret in Eq as (e & Ee & Eq).
  apply bind_Ret in Eq as (e' & Eop & [= <-]).
  destruct (focus_traced a w e He Ee) as [tr T].
  destruct (focus_ok static w a c I Hc) as (e0 & Ee0 & Ec & _). rewrite Ee in Ee0. injection Ee0 as ->.
  destruct (Hop tr e0 e' Ec T Eop) as [tr' T']. by eapply unfocus_traced.
Qed.

Lemma functor_traced a w w' l ev f q : Inv static w -> running a w -> TcpServer.loops w !! l = Some ev ->
  EventLoop.pendingFunctors_ ev = f :: q -> functor_conn f = Some a -> is_raw f = false ->
  run_functor prog heap acc_self listen_ret f (EventLoop.threadId_ ev) w = Ret w' -> running a w'.
Proof.
  intros I He Hl Hq Ho Hraw Eq.
  destruct (i_pend _ _ I l f) as (a' & c & Ho' & Hc & Hf); [unfold pend; rewrite Hl, Hq; set_solver|].
  rewrite Ho in Ho'. injection Ho' as <-. unfold run_functor in Eq. rewrite Ho in Eq. simpl in Eq.
  destruct (i_conn _ _ I _ _ Hc) as (_ & _ & _ & Hnew & _).
  destruct f; try discriminate Hraw; simpl in Ho; try discriminate Ho; injection Ho as ->; simpl in Eq;
    (eapply on_conn_traced; [exact I|exact He|exact Hc|exact Eq|]); intros tr e e' Ec T Eop; simpl in Eop;
    try (destruct Hf as ([_ [v ->]] & Hs & _); eexists;
         eapply notified_traced; [exact T|by unfold state; rewrite Ec|exact Eop]).
  - destruct Hf as [Hs _]. eexists. eapply established_traced; [exact T|by unfold state; rewrite Ec| |exact Eop].
    unfold index, chan. rewrite Ec. by apply Hnew.
  - eexists. eapply destroyed_traced; [exact T|unfold state; rewrite Ec; apply Hf|exact Eop].
  - unfold TcpServer.removeConnectionInLoop in Eop. injection Eop as <-. by exists tr.
Qed.

Lemma pop_running a l w : running a w -> running a (pop l w).
Proof.
  intros (c & s & tr & Hc & Hs & T). destruct (pop_same l w) as (_ & Ec & Es).
  exists c, s, tr. by rewrite Ec, Es.
Qed.

(** Epoll does not report what it is not asked for, and [kernel_ok]. *)
Definition label_ok (lb : @label S) : bool :=
  match lb with Event _ r _ => kernel_ok r | _ => true end.

(** No other thread calls the connection at [a]. *)
Definition own_thread (a : Z) (lb : @label S) : bool :=
  match lb with Call b _ _ => negb (b =? a) | _ => true end.

Definition uncalled (a : Z) (w : World) : Prop :=
  (forall l f, f ∈ pend w l -> is_raw f = true -> functor_conn f <> Some a) /\
  forall tid k, TcpServer.calls w !! tid <> Some (a, k).

Lemma uncalled_subject a lb w : own_thread a lb = true -> uncalled a w -> is_foreign lb = true ->
  subject lb w <> Some a.
Proof.
  intros Hq [_ U] Hl. destruct lb as [| | | |b tid x|tid]; try discriminate Hl; simpl in *.
  - reflect_bools. congruence.
  - destruct (TcpServer.calls w !! tid) as [[b k]|] eqn:E1; [|done]. intros [= ->]. by apply (U tid k).
Qed.

Lemma uncalled_step a lb w w' : own_thread a lb = true ->
  raw_from (is_foreign lb) (subject lb w) w w' -> calls_from (is_foreign lb) (subject lb w) w w' ->
  uncalled a w -> uncalled a w'.
Proof.
  intros Hq Rf Cf U. pose proof (uncalled_subject a lb w Hq U) as Hs. split.
  - intros l f Hf Hr Ha. destruct (Rf l f Hf Hr) as [?|[Hl X]]; [by eapply (proj1 U)|]. apply Hs; congruence.
  - intros tid k Hk. destruct (Cf tid a k Hk) as [[k' ?]|[Hl X]]; [by eapply (proj2 U)|by apply Hs].
Qed.

Lemma running_lasting a : lasting_on prog static heap acc_self listen_ret
  (fun lb => own_thread a lb = true /\ (strict = true -> label_ok lb = true)) a
  (fun w => running a w /\ uncalled a w).
Proof.
  intros lb w w' [Hown Hok] I Hst (_ & A & _ & Rf & Cf) [He U].
  assert (running a w' \/ TcpServer.conns w' !! a = None) as [?|?]; [|left|by right];
    [|by eauto using uncalled_step].
  destruct (decide (subject lb w = Some a)) as [Hs|Hs].
  2: { left. destruct (adv_others _ _ _ _ A a Hs) as [Ec Es].
       destruct He as (c & s & tr & Hc & Hk). exists c, s, tr. by rewrite Ec, Es. }
  destruct lb as [b fd sk local peer|b r t|l|b|b tid x|tid];
    [..|by apply (uncalled_subject a _ w Hown U) in Hs|by apply (uncalled_subject a _ w Hown U) in Hs];
    simpl in Hs, Hst.
  - injection Hs as ->. destruct (decide _) as [(Hn & _)|_]; [|injection Hst as <-; by left].
    destruct He as (c & s & tr & Hc & _). congruence.
  - injection Hs as ->. left. destruct (TcpServer.conns w !! a) as [c|] eqn:Hc; [|by injection Hst as <-].
    destruct (TcpServer.loops w !! TcpConnection.loop_ c) as [ev|] eqn:Hl; [|by injection Hst as <-].
    destruct (reported a c ev) eqn:Hr; [|by injection Hst as <-].
    destruct (event_serving static w a c ev I Hc Hl Hr) as (_ & _ & _ & _ & Hup & _).
    pose proof (reported_added static w a c ev I Hc Hl Hr) as Hadd.
    eapply on_conn_traced; [exact I|exact He|exact Hc|exact Hst|]. intros tr e e' Ec T Eop.
    rewrite <- Ec in Hup, Hadd.
    destruct (dispatch_traced a r t tr e e' T) as [suf T']; [| |exact Eop|by eauto].
    + intros ->. apply Hup. exact (traced_state [] e T).
    + intros Hstr. split; [by apply Hok|]. pose proof (a_gone _ _ _ _ (proj1 T) Hstr) as Hg.
      pose proof (traced_state _ _ T) as Hph. unfold state in Hph. rewrite <- Hph in Hg.
      unfold state. destruct (TcpConnection.state_ _); try done. by destruct (Hg eq_refl).
  - left. unfold pend in Hs. destruct (TcpServer.loops w !! l) as [ev|] eqn:Hl; [|by injection Hst as <-].
    destruct (EventLoop.pendingFunctors_ ev) as [|f q] eqn:Hq; [by injection Hst as <-|].
    simpl in Hs. apply bind_Ret in Hst as (w0 & E0 & [= <-]). apply pop_running.
    eapply functor_traced; [exact I|exact He|exact Hl|exact Hq|exact Hs| |exact E0].
    destruct (is_raw f) eqn:Hf; [|done]. destruct (proj1 U l f); [|done..]. unfold pend. rewrite Hl, Hq. set_solver.
  - injection Hs as ->. destruct (decide _); [injection Hst as <-; by left|].
    injection Hst as <-. right. simpl. apply lookup_delete_eq.
Qed.

(** A new connection has everything before it. *)
Lemma build_conn_traced (s : TcpServer.TcpServer V Cb) ioLoop fd local peer c sk :
  TcpServer.build_conn s ioLoop fd local peer = Ret c ->
  TcpServer.connectionCallback_ s = vc -> TcpServer.messageCallback_ s = vm ->
  sk_out sk = [] -> sk_shut sk = false -> sk_unread sk = total -> traced [] c sk.
Proof.
  intros Eq Hvc Hvm Ho Hs Hu.
  unfold TcpServer.build_conn, TcpConnection.new_TcpConnection in Eq. injection Eq as <-.
  assert (Buffer.wf (Buffer.new_Buffer Buffer.kInitialSize)) as W.
  { apply Buffer.wf_new. unfold Buffer.kInitialSize, Buffer.max_size, Buffer.kCheapPrepend. lia. }
  split; [|done]. split; simpl; rewrite ?Ho, ?Hs, ?Hu; try done.
  by rewrite <- Hvc, <- Hvm.
Qed.

Lemma accept_running w w' a fd sk local peer : Inv static w -> fresh static a fd w ->
  TcpServer.connectionCallback_ (TcpServer.server w) = vc ->
  TcpServer.messageCallback_ (TcpServer.server w) = vm ->
  sk_out sk = [] -> sk_shut sk = false -> sk_unread sk = total ->
  step (Accept a fd sk local peer) w = Ret w' -> running a w'.
Proof.
  intros I Fr Hvc Hvm Ho Hs Hu Hst. simpl in Hst. rewrite decide_True in Hst by done.
  destruct (i_server _ _ I) as ([bl Hb] & _). rewrite Hb in Hst. simpl in Hst.
  unfold TcpServer.newConnection in Hst. apply bind_Ret in Hst as ([ioLoop pool] & Hnext & Hst).
  apply bind_Ret in Hst as (next & [-> Hid]%incr32_Ret & Hst).
  apply bind_Ret in Hst as (c & Hc & Hst).
  pose proof (build_conn_traced _ _ _ _ _ _ sk Hc Hvc Hvm Ho Hs Hu) as T.
  destruct (build_conn_spec (TcpServer.server w) ioLoop fd (InetAddress.mkInetAddress local) peer)
    as (c' & E' & Hl & Hn & Hfd & St & Hi & Cb0). rewrite Hc in E'. injection E' as <-.
  destruct (add_inv static w a fd sk c pool ioLoop) as [_ I1]; try done.
  apply bind_Ret in Hst as (ev & Hev & Hst). set (w1 := TcpServer.mkWorld _ _ _ _ _) in *.
  assert (running a w1) as He.
  { exists c, sk, []. unfold w1. simpl. by rewrite !lookup_insert_eq. }
  destruct (EventLoop.isInLoopThread _ ev).
  - eapply (on_conn_traced a w1 w' c); [done|done| |exact Hst|].
    + unfold w1. simpl. by rewrite lookup_insert_eq.
    + intros tr e e' Ec Te Eop. eexists.
      eapply established_traced; [exact Te|by unfold state; rewrite Ec|by unfold index, chan; rewrite Ec|exact Eop].
  - injection Hst as <-. destruct He as (c1 & s1 & tr & ? & ? & ?). by exists c1, s1, tr.
Qed.

End Connection.

(** ** The echo program *)

Section Echo.
Context {V : Type} (vc vm : option V).

Lemma echo_call v ev s : let s' := call (V := V) echo v ev s in
  phase s <> TcpConnection.kDisconnecting ->
  phase s' = phase s /\ (input s = [] -> input s' = []) /\
  (match ev with TcpConnection.OnMessage _ => input s' = [] | _ => True end) /\
  if bool_decide (phase s = TcpConnection.kConnected) then output s' ++ input s' = output s ++ input s
  else output s' = output s.
Proof.
  destruct s as [p i o]. unfold call, echo, act. simpl. intros Hp.
  destruct ev as [|t| | |n]; simpl; rewrite ?drop_0; [by case_bool_decide| |by case_bool_decide..].
  unfold zlen. rewrite Nat2Z.id, drop_all. case_bool_decide as Hc; [subst p|by destruct p].
  simpl. by rewrite app_nil_r.
Qed.

Lemma echo_call_opt o ev s : let s' := call_opt (V := V) echo o ev s in
  phase s <> TcpConnection.kDisconnecting ->
  phase s' = phase s /\ (input s = [] -> input s' = []) /\
  (match ev with TcpConnection.OnMessage _ => is_Some o -> input s' = [] | _ => True end) /\
  if bool_decide (phase s = TcpConnection.kConnected) then output s' ++ input s' = output s ++ input s
  else output s' = output s.
Proof.
  intros s' Hp. unfold s'. destruct o as [v|]; simpl.
  - destruct (echo_call v ev s Hp) as (? & ? & ? & ?). split_and!; [done|done|by destruct ev|done].
  - split_and!; try done; [destruct ev; try done; by intros [? ?]|by case_bool_decide].
Qed.

(** What the echo program sends is what it has received, until it is closed. *)
Lemma echo_session tr g : let s := session_of (V := V) echo vc vm tr in stage_of false tr = Some g ->
  (is_Some vm -> input s = []) /\
  match g with
  | Before => s = mkSession TcpConnection.kConnecting [] [] /\ received tr = []
  | Open => phase s = TcpConnection.kConnected /\ output s ++ input s = received tr
  | Closed => phase s = TcpConnection.kDisconnected /\ output s `prefix_of` received tr
  end.
Proof.
  revert g. induction tr as [|o tr IH] using rev_ind; intros g; simpl; [by intros [= <-]|].
  rewrite stage_snoc, session_snoc, received_snoc.
  destruct (stage_of false tr) as [g0|]; [|by destruct o]. destruct (IH _ eq_refl) as [Hi Hg]. clear IH.
  revert Hi Hg. generalize (session_of (V := V) echo vc vm tr) (received tr). intros s r Hi Hg.
  destruct g0, o as [|t d| |v ev]; try done; intros [= <-]; simpl; rewrite ?app_nil_r.
  - destruct Hg as [-> ->]. destruct (echo_call_opt vc TcpConnection.OnConnection
      (mkSession TcpConnection.kConnected [] [])) as (X1 & X2 & _ & X3); [done|]. auto.
  - destruct Hg as [Hp <-]. destruct (echo_call_opt vm (TcpConnection.OnMessage t)
      (set_input (input s ++ d) s)) as (X1 & _ & X2 & X3); [simpl; by rewrite Hp|].
    simpl in *. rewrite Hp in *. rewrite bool_decide_eq_true_2 in X3 by done. by rewrite X3, app_assoc.
  - destruct Hg as [Hp <-]. destruct (echo_call_opt vc TcpConnection.OnConnection
      (set_phase TcpConnection.kDisconnected s)) as (X1 & X2 & _ & X3); [done|]. simpl in *.
    split; [auto|]. split; [done|]. rewrite X3. by apply prefix_app_r.
  - destruct Hg as [Hp <-]. destruct (echo_call v ev s) as (X1 & X2 & _ & X3); [by rewrite Hp|].
    rewrite Hp in *. split; [auto|]. by rewrite bool_decide_eq_true_2 in X3 by done.
  - destruct Hg as [Hp Ho]. destruct (echo_call_opt vm (TcpConnection.OnMessage t)
      (set_input (input s ++ d) s)) as (X1 & _ & X2 & X3); [simpl; by rewrite Hp|].
    simpl in *. rewrite Hp in *. simpl in X3. rewrite X3. split; [done|]. split; [done|].
    by apply prefix_app_r.
  - destruct Hg as [Hp Ho]. destruct (echo_call_opt vc TcpConnection.OnConnection
      (set_phase TcpConnection.kDisconnected s)) as (X1 & X2 & _ & X3); [done|]. simpl in *.
    split; [auto|]. split; [done|]. by rewrite X3.
  - destruct Hg as [Hp Ho]. destruct (echo_call v ev s) as (X1 & X2 & _ & X3); [by rewrite Hp|].
    rewrite Hp in *. simpl in X3. split; [auto|]. by rewrite X3.
Qed.

Lemma echo_output tr : is_Some (stage_of false tr) ->
  output (session_of (V := V) echo vc vm tr) `prefix_of` received tr.
Proof.
  intros [g Hg]. destruct (echo_session tr g Hg) as [_ X]. destruct g.
  - destruct X as [-> _]. apply prefix_nil.
  - destruct X as [_ <-]. by apply prefix_app_r.
  - apply X.
Qed.

End Echo.

(** ** Properties *)

Section Server.
Context {V Cb K E S : Type} `{EPOLL_LAWS K, EVENTFD E, SOCKET_LAWS S, !SOCKET_INPUT S,
  !SOCKET_INPUT_LAWS S}.
Abbreviation World := (TcpServer.World V Cb (EPollPoller.EPollPoller K) E S).
Context (prog : V -> TcpConnection.event -> bytes -> Z * list action).
Context (static : Z -> gmap Z (Channel.Channel chan_cb)) (heap : Z -> option bytes) (acc_self listen_ret : Z).

Abbreviation step := (Lifecycle.step prog static heap acc_self listen_ret).
Abbreviation run := (Lifecycle.run prog static heap acc_self listen_ret).

(** A connection accepted at any moment of the server's life is explained by
    a trace ever after. *)
Lemma accepted_traced strict (w w1 w2 w3 : World) ls1 ls2 a fd sk local peer :
  let vc := TcpServer.connectionCallback_ (TcpServer.server w1) in
  let vm := TcpServer.messageCallback_ (TcpServer.server w1) in
  started static w ->
  orderly prog static heap acc_self listen_ret (ls1 ++ Accept a fd sk local peer :: ls2) w = true ->
  TcpConnection.no_reset (S := S) ->
  (forall v ev b, zlen b <= zlen (sk_unread sk) ->
     0 <= (prog v ev b).1 /\ Forall sendable (prog v ev b).2) ->
  zlen (sk_unread sk) < 2 ^ 62 ->
  run ls1 w = Ret w1 -> fresh static a fd w1 -> sk_out sk = [] -> sk_shut sk = false ->
  step (Accept a fd sk local peer) w1 = Ret w2 -> run ls2 w2 = Ret w3 ->
  forallb (own_thread a) ls2 = true ->
  (strict = true -> forallb label_ok ls2 = true) ->
  released_in prog static heap acc_self listen_ret a ls2 w2 \/
  running prog vc vm strict (sk_unread sk) a w3.
Proof.
  intros vc vm Hs Hord Hreset Hprog Hl Hr1 Hf Ho Hsh Hr2 Hr3 Hown Hok.
  assert (Forall (fun lb => own_thread a lb = true /\ (strict = true -> label_ok lb = true)) ls2) as Hls.
  { apply Forall_forall. intros lb Hlb%list_elem_of_In. rewrite forallb_forall in Hown. split; [auto|].
    intros Hst. specialize (Hok Hst). rewrite forallb_forall in Hok. auto. }
  pose proof (good_run prog static heap acc_self listen_ret _ _ _ _ (conj (started_inv _ _ Hs) Hord) Hr1) as G1.
  destruct (good_step prog static heap acc_self listen_ret _ _ _ _ G1 Hr2) as [(_ & _ & _ & R2 & C2) G2].
  destruct G1 as [I1 _].
  assert (uncalled a w2) as Hu2.
  { split.
    - intros l f Hfl Hr Hfa. destruct (R2 l f Hfl Hr) as [Hfl1|[? _]]; [|done].
      destruct (i_pend _ _ I1 l f Hfl1) as (b & c & Hb & Hc & _). destruct Hf as [Hnone _]. congruence.
    - intros tid k Hk. destruct (C2 tid a k Hk) as [[k' Hk']|[? _]]; [|done].
      destruct (i_calls _ _ I1 tid _ Hk') as [(c & Hc & _) _]. destruct Hf as [Hnone _]. simpl in Hc. congruence. }
  assert (running prog vc vm strict (sk_unread sk) a w2) as He2
    by (eapply accept_running; [exact Hreset|exact Hprog|exact I1|exact Hf|done..|exact Hr2]).
  destruct (lasting_on_run prog static heap acc_self listen_ret _ a _ ls2 w2 w3
    (running_lasting prog vc vm strict (sk_unread sk) Hreset Hprog Hl static heap acc_self listen_ret a)
    Hls G2 (conj He2 Hu2) Hr3) as [[? _]|?]; [by right|by left].
Qed.

End Server.

(** C2: every connection of a running server is a sequential session of the
    user's program.  A connection is accepted at any moment of the server's
    life, and then the loops accept, dispatch, run functors and release in any
    order, while other threads call other connections but not this one, and no
    such call is overtaken by the close of its connection ([orderly]).  The
    callbacks are any that never retrieve a negative count and, given no more
    bytes than the peer sends, pass no single message of 2 GB or more to
    [send]; the peer sends less than 2^62 bytes, and no write fails because it
    has reset the connection.  Unless the connection has been destroyed, a sequence of occurrences explains it: the chunks
    received, in order, followed by what is unread are all the peer sends;
    what was sent and what the output buffer holds are exactly what the
    program answered to those occurrences; and the connection's state and its
    input buffer are the session's.  When the kernel reports no hang-up with
    urgent data alone, the callbacks come in order: up once, messages and
    notifications, down at most once, and then only notifications that were
    already queued. *)
Theorem server_sessions {V Cb K E S} `{EPOLL_LAWS K, EVENTFD E, SOCKET_LAWS S,
    !SOCKET_INPUT S, !SOCKET_INPUT_LAWS S}
  (prog : V -> TcpConnection.event -> bytes -> Z * list action)
  (static : Z -> gmap Z (Channel.Channel chan_cb)) heap acc_self listen_ret
  (w w1 w2 w3 : TcpServer.World V Cb (EPollPoller.EPollPoller K) E S) ls1 ls2 a fd sk local peer
  (vc := TcpServer.connectionCallback_ (TcpServer.server w1))
  (vm := TcpServer.messageCallback_ (TcpServer.server w1))
  (Hs : started static w)
  (Hord : orderly prog static heap acc_self listen_ret (ls1 ++ Accept a fd sk local peer :: ls2) w = true)
  (Hreset : TcpConnection.no_reset (S := S))
  (Hprog : forall v ev b, zlen b <= zlen (sk_unread sk) ->
     0 <= (prog v ev b).1 /\ Forall sendable (prog v ev b).2)
  (Hl : zlen (sk_unread sk) < 2 ^ 62)
  (Hr1 : run prog static heap acc_self listen_ret ls1 w = Ret w1)
  (Hf : fresh static a fd w1) (Ho : sk_out sk = []) (Hsh : sk_shut sk = false)
  (Hr2 : step prog static heap acc_self listen_ret (Accept a fd sk local peer) w1 = Ret w2)
  (Hr3 : run prog static heap acc_self listen_ret ls2 w2 = Ret w3)
  (Hown : forallb (own_thread a) ls2 = true) :
  released_in prog static heap acc_self listen_ret a ls2 w2 \/
  exists c s tr, TcpServer.conns w3 !! a = Some c /\ TcpServer.socks w3 !! a = Some s /\
    let ss := session_of prog vc vm tr in
    received tr ++ sk_unread s = sk_unread sk /\
    sk_out s ++ Buffer.content (TcpConnection.outputBuffer_ c) = output ss /\
    Buffer.content (TcpConnection.inputBuffer_ c) = input ss /\
    TcpConnection.state_ c = phase ss /\
    (forallb label_ok ls2 = true -> ordered tr).
Proof.
  destruct (accepted_traced prog static heap acc_self listen_ret (forallb label_ok ls2)
    w w1 w2 w3 ls1 ls2 a fd sk local peer) as [X|(c & s & tr & Hc & Hs3 & A & Hst)]; [done..|by left|right].
  exists c, s, tr. cbv zeta. split_and!; [done|done|apply A..|].
  intros Hall. rewrite Hall in Hst. apply stage_ordered. eexists. exact Hst.
Qed.

(** The input of the concrete socket: the chunks it will give. *)
#[export] Instance tcp_socket_input : SOCKET_INPUT TcpConnection.tcp_socket := {|
  sk_unread s := concat ((fun r => match r with Buffer.Done d => d | Buffer.Failed _ => [] end)
                           <$> TcpConnection.ts_in s)
|}.

#[export] Instance tcp_socket_input_laws : SOCKET_INPUT_LAWS TcpConnection.tcp_socket.
Proof.
  split; simpl.
  - intros l s d s'. destruct (_ <? 0); [done|].
    destruct (TcpConnection.ts_in s) as [|[e|x] ins]; [done..|]. intros [= <- <-]. simpl.
    case_bool_decide as Hd; simpl.
    + by rewrite <- (take_drop (Z.to_nat (foldr Z.add 0 l)) x) at 1; rewrite Hd, app_nil_r.
    + by rewrite app_assoc, take_drop.
  - intros l s e s'. destruct (_ <? 0); [by intros [= _ <-]|].
    destruct (TcpConnection.ts_in s) as [|[x|x] ins] eqn:Ei; intros Eq; simplify_eq; simpl; by rewrite ?Ei.
  - intros d s r s'. destruct (TcpConnection.ts_room s); by intros [= _ <-].
  - intros s r s' [= _ <-]. done.
Qed.

(** A program that acknowledges every message with the same two bytes and
    keeps nothing of it. *)
Definition acknowledge (v : unit) (ev : TcpConnection.event) (b : bytes) : Z * list action :=
  match ev with TcpConnection.OnMessage _ => (zlen b, [Send (str "OK")]) | _ => (0, []) end.

Definition demo_client : TcpConnection.tcp_socket :=
  TcpConnection.mkTcpSocket [] false [100] [Buffer.Done (str "hi"); Buffer.Done []].
Definition demo_accept : @label TcpConnection.tcp_socket :=
  let ad := InetAddress.new_InetAddress 8080 [] in Accept 500 9 demo_client (InetAddress.addr_ ad) ad.
Definition demo_events : list (@label TcpConnection.tcp_socket) := [RunFunctor 20; Event 500 1 7].

(** A client that sends two bytes, up to the answer. *)
Lemma server_sessions_witness :
  released_in acknowledge (fun _ => ∅) (fun _ => None) 300 0 500 demo_events
    (reached acknowledge demo_world [demo_accept]) \/
  exists c s tr,
    TcpServer.conns (reached acknowledge demo_world ([demo_accept] ++ demo_events)) !! 500 = Some c /\
    received tr ++ sk_unread s = str "hi" /\
    TcpConnection.ts_out s ++ Buffer.content (TcpConnection.outputBuffer_ c) =
      output (session_of acknowledge (Some tt) (Some tt) tr) /\ ordered tr.
Proof.
  assert (reaches acknowledge demo_world [demo_accept] = true) as R1 by (vm_compute; reflexivity).
  assert (reaches acknowledge demo_world ([demo_accept] ++ demo_events) = true) as R2
    by (vm_compute; reflexivity).
  pose proof (reached_step acknowledge demo_world _ R1) as S1.
  pose proof (reached_app acknowledge demo_world _ _ R1 R2) as S2.
  assert (orderly acknowledge (fun _ => ∅) (fun _ => None) 300 0 (demo_accept :: demo_events) demo_world = true)
    as Hord by (vm_compute; reflexivity).
  assert (fresh (fun _ => ∅) 500 9 demo_world) as Hf
    by (apply (bool_decide_eq_true_1 _); vm_compute; reflexivity).
  assert (zlen (sk_unread demo_client) < 2 ^ 62) as Hl by (vm_compute; reflexivity).
  assert (forall v ev b, zlen b <= zlen (sk_unread demo_client) ->
    0 <= (acknowledge v ev b).1 /\ Forall sendable (acknowledge v ev b).2) as Hprog.
  { intros v ev b _. pose proof (zlen_nonneg b). destruct ev; simpl; (split; [lia|]); repeat constructor. }
  set (w2 := reached acknowledge demo_world [demo_accept]) in *. clearbody w2.
  set (w3 := reached acknowledge demo_world _) in *. clearbody w3.
  set (ad := InetAddress.new_InetAddress 8080 []).
  destruct (server_sessions acknowledge (fun _ => ∅) (fun _ => None) 300 0 demo_world demo_world w2 w3 []
    demo_events 500 9 demo_client (InetAddress.addr_ ad) ad demo_started Hord
    TcpConnection.tcp_no_reset Hprog Hl eq_refl Hf eq_refl eq_refl S1 S2 eq_refl)
    as [X|(c & s & tr & Hc & _ & Hr & Ho & _ & _ & Hordered)].
  - left. exact X.
  - right. exists c, s, tr. exact (conj Hc (conj Hr (conj Ho (Hordered eq_refl)))).
Defined.

(** What that client gets. *)
Example acknowledged :
  TcpConnection.ts_out <$> TcpServer.socks (reached acknowledge demo_world ([demo_accept] ++ demo_events)) !! 500 =
  Some (str "OK").
Proof. vm_compute. reflexivity. Qed.

End Session.
