(* ===== verification/Http.v ===== *)
(** * HTTP requests, their parser and responses ([src/http/HttpRequest.h],
    [HttpContext.*], [HttpResponse.*])

    The parser works on a [Buffer], line by line, as a state machine; the
    specification is a parser of byte strings and a printer of requests.  An
    [unordered_map] of headers is a [gmap]; where its iteration order matters
    the order is a parameter. *)

From S2P Require Import Prelude Buffer.

(** [isspace] in the C locale. *)
Definition isspace (c : ascii) : bool :=
  (ord c =? 32) || ((9 <=? ord c) && (ord c <=? 13)).

Definition SP : ascii := " "%char.
Definition QUESTION : ascii := "?"%char.
Definition COLON : ascii := ":"%char.

Module HttpRequest.

Inductive Method := kInvalid | kGet | kPost | kHead | kPut | kDelete.
Inductive Version := kUnknown | kHttp10 | kHttp11.

#[export] Instance Method_eq_dec : EqDecision Method.
Proof. solve_decision. Defined.
#[export] Instance Version_eq_dec : EqDecision Version.
Proof. solve_decision. Defined.

(** [receiveTime_] is a [Timestamp] in microseconds. *)
Record HttpRequest := mkRequest {
  method_ : Method;
  version_ : Version;
  path_ : bytes;
  query_ : bytes;
  receiveTime_ : Z;
  headers_ : gmap bytes bytes
}.

Definition new_HttpRequest : HttpRequest := mkRequest kInvalid kUnknown [] [] 0 ∅.

Definition setVersion (v : Version) (r : HttpRequest) : HttpRequest :=
  mkRequest (method_ r) v (path_ r) (query_ r) (receiveTime_ r) (headers_ r).

Definition method_of (m : bytes) : Method :=
  if decide (m = str "GET") then kGet
  else if decide (m = str "POST") then kPost
  else if decide (m = str "HEAD") then kHead
  else if decide (m = str "PUT") then kPut
  else if decide (m = str "DELETE") then kDelete
  else kInvalid.

(** [setMethod(start, end)] on the characters between the pointers. *)
Definition setMethod (m : bytes) (r : HttpRequest) : bool * HttpRequest :=
  let method := method_of m in
  (negb (bool_decide (method = kInvalid)),
   mkRequest method (version_ r) (path_ r) (query_ r) (receiveTime_ r) (headers_ r)).

Definition methodString (r : HttpRequest) : bytes :=
  match method_ r with
  | kGet => str "GET"
  | kPost => str "POST"
  | kHead => str "HEAD"
  | kPut => str "PUT"
  | kDelete => str "DELETE"
  | kInvalid => str "UNKNOWN"
  end.

Definition setPath (p : bytes) (r : HttpRequest) : HttpRequest :=
  mkRequest (method_ r) (version_ r) p (query_ r) (receiveTime_ r) (headers_ r).
Definition setQuery (q : bytes) (r : HttpRequest) : HttpRequest :=
  mkRequest (method_ r) (version_ r) (path_ r) q (receiveTime_ r) (headers_ r).
Definition setReceiveTime (t : Z) (r : HttpRequest) : HttpRequest :=
  mkRequest (method_ r) (version_ r) (path_ r) (query_ r) t (headers_ r).

Fixpoint skip_spaces (l : bytes) : bytes :=
  match l with
  | [] => []
  | c :: l' => if isspace c then skip_spaces l' else l
  end.

(** Dropping trailing whitespace, one [resize] at a time. *)
Definition trim_end (l : bytes) : bytes := rev (skip_spaces (rev l)).

(** [addHeader(start, colon, end)]: [line] is [start, end), the colon at
    offset [colon]. *)
Definition addHeader (line : bytes) (colon : nat) (r : HttpRequest) : HttpRequest :=
  let field := take colon line in
  let value := trim_end (skip_spaces (drop (S colon) line)) in
  mkRequest (method_ r) (version_ r) (path_ r) (query_ r) (receiveTime_ r)
    (<[field := value]> (headers_ r)).

Definition getHeader (field : bytes) (r : HttpRequest) : bytes :=
  match headers_ r !! field with
  | Some v => v
  | None => []
  end.

Definition headers (r : HttpRequest) : gmap bytes bytes := headers_ r.
Definition version (r : HttpRequest) : Version := version_ r.
Definition path (r : HttpRequest) : bytes := path_ r.

(** [swap]: both objects. *)
Definition swap (a b : HttpRequest) : HttpRequest * HttpRequest := (b, a).

End HttpRequest.

Module HttpContext.
Import HttpRequest.

Inductive HttpRequestParseState :=
  | kExpectRequestLine
  | kExpectHeaders
  | kExpectBody
  | kGotAll.

#[export] Instance ParseState_eq_dec : EqDecision HttpRequestParseState.
Proof. solve_decision. Defined.

Record HttpContext := mkContext {
  state_ : HttpRequestParseState;
  request_ : HttpRequest
}.

Definition new_HttpContext : HttpContext := mkContext kExpectRequestLine new_HttpRequest.

Definition gotAll (c : HttpContext) : bool := bool_decide (state_ c = kGotAll).

Definition reset (c : HttpContext) : HttpContext :=
  let dummy := new_HttpRequest in
  mkContext kExpectRequestLine (fst (swap (request_ c) dummy)).

(** ["HTTP/1."]. *)
Definition http1 : bytes := str "HTTP/1.".

(** The version field: eight characters, the last of them the minor version. *)
Definition process_version (v : bytes) (r : HttpRequest) : bool * HttpRequest :=
  if (length v =? 8)%nat && bool_decide (take 7 v = http1) then
    if decide (drop 7 v = str "1") then (true, setVersion kHttp11 r)
    else if decide (drop 7 v = str "0") then (true, setVersion kHttp10 r)
    else (false, r)
  else (false, r).

(** [processRequestLine(begin, end)] on the characters of the line. *)
Definition processRequestLine (line : bytes) (r : HttpRequest) : bool * HttpRequest :=
  let space := find_index SP line in
  if (space =? length line)%nat then (false, r)
  else
    let '(ok, r1) := setMethod (take space line) r in
    if ok then
      let start := drop (S space) line in
      let space2 := find_index SP start in
      if (space2 =? length start)%nat then (false, r1)
      else
        let uri := take space2 start in
        let question := find_index QUESTION uri in
        let r2 := if (question =? length uri)%nat then setPath uri r1
                  else setQuery (drop question uri) (setPath (take question uri) r1) in
        process_version (drop (S space2) start) r2
    else (false, r1).

(** One turn of the loop of [parseRequest]: the context, the buffer, [ok] and
    [hasMore]. *)
Definition parse_step (receiveTime : Z) (c : HttpContext) (buf : Buffer.Buffer) (ok : bool)
    : outcome (HttpContext * Buffer.Buffer * bool * bool) :=
  match state_ c with
  | kExpectRequestLine =>
      crlf ← Buffer.findCRLF buf;
      match crlf with
      | Some p =>
          line ← read_mem (Buffer.buffer_ buf) (Buffer.peek buf) (p - Buffer.peek buf);
          let '(ok', r) := processRequestLine line (request_ c) in
          if ok' then
            mret (mkContext kExpectHeaders (setReceiveTime receiveTime r),
                  Buffer.retrieveUntil (p + 2) buf, true, true)
          else mret (mkContext kExpectRequestLine r, buf, false, false)
      | None => mret (c, buf, ok, false)
      end
  | kExpectHeaders =>
      crlf ← Buffer.findCRLF buf;
      match crlf with
      | Some p =>
          line ← read_mem (Buffer.buffer_ buf) (Buffer.peek buf) (p - Buffer.peek buf);
          let colon := find_index COLON line in
          if (colon =? length line)%nat
          then mret (mkContext kGotAll (request_ c), Buffer.retrieveUntil (p + 2) buf, ok, false)
          else mret (mkContext kExpectHeaders (addHeader line colon (request_ c)),
                     Buffer.retrieveUntil (p + 2) buf, ok, true)
      | None => mret (c, buf, ok, false)
      end
  | kExpectBody => mret (c, buf, ok, true)
  | kGotAll => mret (c, buf, ok, true)
  end.

(** [while (hasMore)], for at most [fuel] turns. *)
Fixpoint parse_loop (fuel : nat) (receiveTime : Z) (c : HttpContext) (buf : Buffer.Buffer)
    (ok : bool) : outcome (option (HttpContext * Buffer.Buffer * bool)) :=
  match fuel with
  | O => mret None
  | S fuel' =>
      '(c1, buf1, ok1, hasMore) ← parse_step receiveTime c buf ok;
      if (hasMore : bool) then parse_loop fuel' receiveTime c1 buf1 ok1
      else mret (Some (c1, buf1, ok1))
  end.

Definition parseRequest (fuel : nat) (receiveTime : Z) (c : HttpContext) (buf : Buffer.Buffer)
    : outcome (option (HttpContext * Buffer.Buffer * bool)) :=
  parse_loop fuel receiveTime c buf false.

(** ** Specification: a parser of byte strings *)

Fixpoint parse_headers (fuel : nat) (r : HttpRequest) (s : bytes) : bool * HttpRequest * bytes :=
  match fuel with
  | O => (false, r, s)
  | S fuel' =>
      let i := search_index Buffer.kCRLF s in
      if (i =? length s)%nat then (false, r, s)
      else
        let line := take i s in
        let rest := drop (i + 2) s in
        let colon := find_index COLON line in
        if (colon =? length line)%nat then (true, r, rest)
        else parse_headers fuel' (addHeader line colon r) rest
  end.

(** The result of parsing a message: not even a request line, a bad request
    line, a request line whose headers are not complete, or a request. *)
Inductive parsed :=
  | NoLine
  | BadLine (r : HttpRequest)
  | Partial (r : HttpRequest) (rest : bytes)
  | Complete (r : HttpRequest) (rest : bytes).

Definition parse_message (receiveTime : Z) (s : bytes) : parsed :=
  let i := search_index Buffer.kCRLF s in
  if (i =? length s)%nat then NoLine
  else
    match processRequestLine (take i s) new_HttpRequest with
    | (false, r) => BadLine r
    | (true, r) =>
        let rest := drop (i + 2) s in
        match parse_headers (S (length rest)) (setReceiveTime receiveTime r) rest with
        | (true, r', rest') => Complete r' rest'
        | (false, r', rest') => Partial r' rest'
        end
    end.

(** ** Specification: printed requests *)

Definition print_line (m : bytes) (path query : bytes) (v : bytes) : bytes :=
  m ++ SP :: path ++ query ++ SP :: http1 ++ v.

Definition print_header (h : bytes * bytes) : bytes := fst h ++ COLON :: SP :: snd h.

Fixpoint print_headers (hs : list (bytes * bytes)) : bytes :=
  match hs with
  | [] => Buffer.kCRLF
  | h :: hs' => print_header h ++ Buffer.kCRLF ++ print_headers hs'
  end.

Definition print_request (m path query v : bytes) (hs : list (bytes * bytes)) : bytes :=
  print_line m path query v ++ Buffer.kCRLF ++ print_headers hs.

Definition version_of (v : bytes) : option Version :=
  if decide (v = str "1") then Some kHttp11
  else if decide (v = str "0") then Some kHttp10 else None.

(** What a client may put in a request line and in a header. *)
Definition line_ok (m path query v : bytes) : Prop :=
  method_of m <> kInvalid /\ is_Some (version_of v) /\
  SP ∉ path ++ query /\ CR ∉ path ++ query /\ QUESTION ∉ path /\
  (query = [] \/ exists q, query = QUESTION :: q).

Definition no_space_ends (v : bytes) : Prop := skip_spaces v = v /\ trim_end v = v.

Definition header_ok (h : bytes * bytes) : Prop :=
  COLON ∉ fst h /\ CR ∉ fst h /\ CR ∉ snd h /\ no_space_ends (snd h).

Definition add_headers (hs : list (bytes * bytes)) (m : gmap bytes bytes) : gmap bytes bytes :=
  fold_left (fun m h => <[fst h := snd h]> m) hs m.

(** ** Lemmas *)

Lemma search_line line rest : CR ∉ line ->
  search_index Buffer.kCRLF (line ++ Buffer.kCRLF ++ rest) = length line.
Proof.
  intros Hcr. apply search_index_app; [done|]. intros n Hn.
  destruct (lookup_lt_is_Some_2 line n Hn) as [x Hx].
  rewrite drop_app_le by lia. rewrite (drop_S line x n Hx).
  apply list_elem_of_lookup_2 in Hx.
  change (Ascii.eqb CR x && is_prefix [LF] ((drop (S n) line) ++ Buffer.kCRLF ++ rest) = false).
  destruct (Ascii.eqb CR x) eqn:E; [|done]. apply Ascii.eqb_eq in E. congruence.
Qed.

Lemma search_index_room s :
  (search_index Buffer.kCRLF s =? length s)%nat = false ->
  (search_index Buffer.kCRLF s + 2 <= length s)%nat.
Proof.
  intros E%Nat.eqb_neq. pose proof (search_index_le Buffer.kCRLF s).
  destruct (search_index_hit Buffer.kCRLF s) as [k Hk]; [lia|].
  apply (f_equal (@length _)) in Hk. revert Hk.
  rewrite !length_app, length_take. simpl. lia.
Qed.

(** The line [parseRequest] takes off the buffer. *)
Lemma take_line buf : Buffer.wf buf ->
  let s := Buffer.content buf in
  let i := search_index Buffer.kCRLF s in
  (i =? length s)%nat = false ->
  let p := Buffer.peek buf + Z.of_nat i in
  read_mem (Buffer.buffer_ buf) (Buffer.peek buf) (p - Buffer.peek buf) = Ret (take i s) /\
  Buffer.wf (Buffer.retrieveUntil (p + 2) buf) /\
  Buffer.content (Buffer.retrieveUntil (p + 2) buf) = drop (i + 2) s.
Proof.
  intros W s i Hi p. pose proof (search_index_room s Hi) as Hr. fold i in Hr.
  pose proof (Buffer.zlen_content buf W) as L. fold s in L.
  pose proof W as W0. unfold Buffer.wf, Buffer.kCheapPrepend, Buffer.max_size in W0.
  unfold zlen in L. split.
  - replace (p - Buffer.peek buf) with (Z.of_nat i) by (unfold p; lia).
    rewrite read_mem_in by (unfold Buffer.peek; lia). f_equal.
    unfold s, Buffer.content. rewrite <- (Nat2Z.id i) at 2. rewrite take_slice by lia. done.
  - unfold Buffer.retrieveUntil.
    replace (p + 2 - Buffer.peek buf) with (Z.of_nat i + 2) by (unfold p; lia).
    rewrite u64_small by lia. split; [by apply Buffer.wf_retrieve; [|lia]|].
    rewrite Buffer.content_retrieve by (done || lia). f_equal. lia.
Qed.

Lemma parse_loop_headers fuel t r buf :
  Buffer.wf buf -> (length (Buffer.content buf) < 2 * fuel)%nat ->
  exists buf', parse_loop fuel t (mkContext kExpectHeaders r) buf true =
    Ret (Some (mkContext (if (parse_headers fuel r (Buffer.content buf)).1.1
                          then kGotAll else kExpectHeaders)
                 (parse_headers fuel r (Buffer.content buf)).1.2, buf', true)) /\
    Buffer.wf buf' /\ Buffer.content buf' = (parse_headers fuel r (Buffer.content buf)).2.
Proof.
  revert r buf. induction fuel as [|fuel IH]; intros r buf W Hf; [lia|].
  cbn [parse_loop parse_headers]. unfold parse_step. cbn [state_ request_].
  rewrite Buffer.findCRLF_run by done. ostep. cbv zeta.
  destruct (_ =? length (Buffer.content buf))%nat eqn:E; [by exists buf|].
  pose proof (search_index_room _ E) as Hr.
  destruct (take_line buf W E) as (-> & W1 & C1). ostep.
  destruct (_ =? length (take _ _))%nat eqn:Ec; ostep.
  - eexists. split; [done|]. done.
  - rewrite <- C1 in *. apply IH; [done|]. rewrite C1, length_drop. lia.
Qed.

(** Once the request line is accepted [ok] stays true. *)
Lemma parse_loop_true fuel : forall t c buf c' buf' ok,
  state_ c = kExpectHeaders -> parse_loop fuel t c buf true = Ret (Some (c', buf', ok)) -> ok = true.
Proof.
  induction fuel as [|fuel IH]; intros t c buf c' buf' ok Hs; [done|]. cbn [parse_loop].
  unfold parse_step. rewrite Hs. destruct (Buffer.findCRLF buf) as [[p|]|]; ostep; [|by intros [=]|done].
  destruct (read_mem _ _ _) as [line|]; ostep; [|done].
  destruct (_ =? _)%nat; ostep; [by intros [=]|]. by apply IH.
Qed.

(** Half as much fuel as there are bytes, and one more, gives the result. *)
Lemma parse_headers_fuel fuel fuel' r s :
  (length s < 2 * fuel)%nat -> (length s < 2 * fuel')%nat ->
  parse_headers fuel r s = parse_headers fuel' r s.
Proof.
  revert fuel' r s. induction fuel as [|fuel IH]; intros [|fuel'] r s H H'; try lia.
  cbn [parse_headers]. destruct (_ =? length s)%nat eqn:E; [done|].
  apply search_index_room in E. destruct (_ =? length (take _ _))%nat; [done|].
  apply IH; rewrite length_drop; lia.
Qed.

(** What a run of [parseRequest] on a fresh context leaves. *)
Definition outcome_of (p : parsed) (c : HttpContext) (rest : bytes) (ok : bool) : Prop :=
  match p with
  | NoLine => c = new_HttpContext /\ ok = false
  | BadLine r => c = mkContext kExpectRequestLine r /\ ok = false
  | Partial r s => c = mkContext kExpectHeaders r /\ rest = s /\ ok = true
  | Complete r s => c = mkContext kGotAll r /\ rest = s /\ ok = true
  end.

Lemma parseRequest_ok fuel t buf :
  Buffer.wf buf -> (length (Buffer.content buf) < 2 * fuel)%nat ->
  exists c buf' ok, parseRequest fuel t new_HttpContext buf = Ret (Some (c, buf', ok)) /\
    Buffer.wf buf' /\ outcome_of (parse_message t (Buffer.content buf)) c (Buffer.content buf') ok.
Proof.
  intros W Hf. unfold parseRequest. destruct fuel as [|fuel]; [lia|].
  cbn [parse_loop]. unfold parse_step, parse_message. cbn [state_ request_ new_HttpContext].
  rewrite Buffer.findCRLF_run by done. ostep. cbv zeta.
  destruct (_ =? length (Buffer.content buf))%nat eqn:E; [by do 3 eexists|].
  pose proof (search_index_room _ E) as Hr.
  destruct (take_line buf W E) as (-> & W1 & C1). ostep.
  destruct (processRequestLine _ _) as [[|] r]; ostep; [|by do 3 eexists].
  pose proof (f_equal (@length _) C1) as L.
  pose proof (length_drop (Buffer.content buf) (search_index Buffer.kCRLF (Buffer.content buf) + 2)) as L'.
  destruct (parse_loop_headers fuel t (setReceiveTime t r) _ W1 ltac:(lia))
    as (buf' & -> & W' & C'). do 3 eexists. split; [done|]. split; [done|].
  rewrite C', C1. remember (drop _ (Buffer.content buf)) as rest.
  rewrite (parse_headers_fuel fuel (S (length rest))) by lia.
  by destruct (parse_headers (S (length rest)) (setReceiveTime t r) rest) as [[[|] r'] s'].
Qed.

(** A failing call takes nothing off the buffer. *)
Lemma parseRequest_false fuel t buf c buf' :
  parseRequest fuel t new_HttpContext buf = Ret (Some (c, buf', false)) -> buf' = buf.
Proof.
  unfold parseRequest. destruct fuel as [|fuel]; [done|]. cbn [parse_loop].
  unfold parse_step. cbn [state_ new_HttpContext].
  destruct (Buffer.findCRLF buf) as [[p|]|]; ostep; [|by intros [=]|done].
  destruct (read_mem _ _ _) as [line|]; ostep; [|done].
  destruct (processRequestLine _ _) as [[|] r]; ostep; [|by intros [=]].
  intros X. by apply parse_loop_true in X.
Qed.

(** A line is retrieved with its end. *)
Lemma take_line_retrieve buf : Buffer.wf buf ->
  let s := Buffer.content buf in
  let i := search_index Buffer.kCRLF s in
  (i =? length s)%nat = false ->
  Buffer.retrieveUntil (Buffer.peek buf + Z.of_nat i + 2) buf = Buffer.retrieve (Z.of_nat i + 2) buf /\
  Z.of_nat i + 2 <= zlen s.
Proof.
  intros W s i Hi. pose proof (search_index_room s Hi) as Hr. fold i in Hr.
  pose proof (Buffer.zlen_content buf W) as L. fold s in L. unfold zlen in *.
  revert W. unfold Buffer.wf, Buffer.kCheapPrepend, Buffer.max_size. intros W.
  unfold Buffer.retrieveUntil. split; [|lia]. f_equal.
  replace (Buffer.peek buf + Z.of_nat i + 2 - Buffer.peek buf) with (Z.of_nat i + 2) by lia.
  by rewrite u64_small by lia.
Qed.

(** Parsing takes bytes off the front of the buffer, or leaves it alone. *)
Definition taken (buf buf' : Buffer.Buffer) : Prop :=
  buf' = buf \/ exists k, 0 <= k <= zlen (Buffer.content buf) /\ buf' = Buffer.retrieve k buf.

Lemma taken_trans b1 b2 b3 : Buffer.wf b1 -> taken b1 b2 -> taken b2 b3 -> taken b1 b3.
Proof.
  intros W [->|(k & Hk & ->)]; [done|]. intros [->|(k' & Hk' & ->)]; [right; eauto|]. right.
  rewrite Buffer.content_retrieve in Hk' by (done || lia). unfold zlen in *. rewrite length_drop in Hk'.
  exists (k + k'). split; [lia|]. apply Buffer.retrieve_retrieve; unfold zlen; done || lia.
Qed.

Lemma taken_wf b b' : Buffer.wf b -> taken b b' -> Buffer.wf b'.
Proof. intros W [->|(k & Hk & ->)]; [done|]. apply Buffer.wf_retrieve; [done|lia]. Qed.

Lemma parse_step_taken t c buf ok c' buf' ok' more : Buffer.wf buf ->
  parse_step t c buf ok = Ret (c', buf', ok', more) -> taken buf buf'.
Proof.
  intros W. unfold parse_step.
  destruct (state_ c); [..|by intros [= _ <- _ _]; left|by intros [= _ <- _ _]; left];
    rewrite Buffer.findCRLF_run by done; ostep; cbv zeta;
    (destruct (_ =? length (Buffer.content buf))%nat eqn:E; [by intros [= _ <- _ _]; left|]);
    destruct (take_line buf W E) as (-> & _); ostep;
    destruct (take_line_retrieve buf W E) as [-> Hk].
  - destruct (processRequestLine _ _) as [[|] r]; intros [= _ <- _ _]; [|by left].
    right. eexists. split; [|done]. lia.
  - destruct (_ =? length (take _ _))%nat; intros [= _ <- _ _]; right; (eexists; split; [|done]; lia).
Qed.

Lemma parse_loop_taken fuel t : forall c buf ok c' buf' ok', Buffer.wf buf ->
  parse_loop fuel t c buf ok = Ret (Some (c', buf', ok')) -> taken buf buf'.
Proof.
  induction fuel as [|fuel IH]; intros c buf ok c' buf' ok' W; [done|]. cbn [parse_loop].
  destruct (parse_step t c buf ok) as [[[[c1 b1] ok1] more]|] eqn:E1; ostep; [|done].
  apply parse_step_taken in E1 as T; [|done]. destruct more; [|by intros [= _ <- _]].
  intros E2%IH; [|by eapply taken_wf]. by eapply taken_trans.
Qed.

(** So the buffer left is told by its content. *)
Lemma parseRequest_buffer fuel t c buf c' buf' ok : Buffer.wf buf -> Buffer.content buf <> [] ->
  parseRequest fuel t c buf = Ret (Some (c', buf', ok)) ->
  buf' = Buffer.retrieve (zlen (Buffer.content buf) - zlen (Buffer.content buf')) buf.
Proof.
  intros W Hn Hp. apply parse_loop_taken in Hp as [->|(k & Hk & ->)]; [| |done].
  - rewrite Z.sub_diag. symmetry. by apply Buffer.retrieve_nothing.
  - f_equal. rewrite Buffer.content_retrieve by (done || lia). unfold zlen in *. rewrite length_drop. lia.
Qed.

(** What is left is the end of the message. *)
Lemma parse_headers_suffix fuel : forall r s, (parse_headers fuel r s).2 `suffix_of` s.
Proof.
  induction fuel as [|fuel IH]; intros r s; simpl; [done|].
  destruct (_ =? length s)%nat; [done|]. destruct (_ =? length (take _ _))%nat; [apply suffix_drop|].
  etrans; [apply IH|apply suffix_drop].
Qed.

Lemma parse_message_rest t s r rest : parse_message t s = Partial r rest \/ parse_message t s = Complete r rest ->
  rest `suffix_of` s /\ zlen rest < zlen s.
Proof.
  unfold parse_message. destruct (_ =? length s)%nat eqn:E; [by intros [?|?]|].
  pose proof (search_index_room s E) as Hr. destruct (processRequestLine _ _) as [[|] r1]; [|by intros [?|?]].
  set (i := search_index Buffer.kCRLF s) in *.
  pose proof (parse_headers_suffix (S (length (drop (i + 2) s))) (setReceiveTime t r1) (drop (i + 2) s)) as Hs.
  destruct (parse_headers _ _ _) as [[[|] r2] rest2]; intros [|]; simplify_eq; simpl in Hs;
    (split; [etrans; [exact Hs|apply suffix_drop]|]); apply suffix_length in Hs; rewrite length_drop in Hs;
    unfold zlen; lia.
Qed.

(** *** The printed request *)

Lemma skip_spaces_nil l : skip_spaces l = [] <-> Forall (fun c => isspace c = true) l.
Proof.
  induction l as [|c l IH]; simpl; [done|]. rewrite Forall_cons.
  destruct (isspace c); naive_solver.
Qed.

Lemma method_chars m : method_of m <> kInvalid -> SP ∉ m /\ CR ∉ m.
Proof.
  unfold method_of. repeat case_decide; subst; intros; try done;
    split; apply (bool_decide_unpack _); vm_compute; done.
Qed.

Lemma process_version_ok v ver r : version_of v = Some ver ->
  process_version (http1 ++ v) r = (true, setVersion ver r) /\ SP ∉ v /\ CR ∉ v.
Proof.
  unfold version_of. repeat case_decide; subst; intros; simplify_eq; split_and!;
    try done; apply (bool_decide_unpack _); vm_compute; done.
Qed.

(** Cutting a string at the first occurrence of a character. *)
Lemma cut_at c u k : c ∉ u ->
  (find_index c (u ++ c :: k) =? length (u ++ c :: k))%nat = false /\
  take (find_index c (u ++ c :: k)) (u ++ c :: k) = u /\
  drop (find_index c (u ++ c :: k)) (u ++ c :: k) = c :: k /\
  drop (S (find_index c (u ++ c :: k))) (u ++ c :: k) = k.
Proof.
  intros Hc. rewrite find_index_app by done. split_and!.
  - apply Nat.eqb_neq. rewrite length_app. simpl. lia.
  - apply take_app_length.
  - apply drop_app_length.
  - apply drop_past.
Qed.

Lemma cut_uri path query :
  QUESTION ∉ path -> (query = [] \/ exists q, query = QUESTION :: q) -> forall r,
  query_ r = [] ->
  (if (find_index QUESTION (path ++ query) =? length (path ++ query))%nat then setPath (path ++ query) r
   else setQuery (drop (find_index QUESTION (path ++ query)) (path ++ query))
          (setPath (take (find_index QUESTION (path ++ query)) (path ++ query)) r))
  = setQuery query (setPath path r).
Proof.
  intros Hq [->|[q ->]] r Hr.
  - rewrite app_nil_r, find_index_notin, Nat.eqb_refl by done. destruct r. simpl in *. by subst.
  - by destruct (cut_at QUESTION path q Hq) as (-> & -> & -> & _).
Qed.

Lemma processRequestLine_print m path query v ver :
  line_ok m path query v -> version_of v = Some ver ->
  processRequestLine (print_line m path query v) new_HttpRequest =
    (true, mkRequest (method_of m) ver path query 0 ∅).
Proof.
  intros (Hm & _ & Hsp & _ & Hq & Hquery) Hv. destruct (method_chars m Hm) as [Hms _].
  unfold processRequestLine, print_line.
  destruct (cut_at SP m (path ++ query ++ SP :: http1 ++ v) Hms) as (-> & -> & _ & ->).
  unfold setMethod. rewrite bool_decide_eq_false_2 by done. cbn [negb].
  rewrite (app_assoc path).
  destruct (cut_at SP (path ++ query) (http1 ++ v) Hsp) as (-> & -> & _ & ->).
  rewrite cut_uri by done.
  destruct (process_version_ok v ver (setQuery query (setPath path
    (mkRequest (method_of m) (version_ new_HttpRequest) (path_ new_HttpRequest)
      (query_ new_HttpRequest) (receiveTime_ new_HttpRequest) (headers_ new_HttpRequest)))) Hv) as [-> _].
  done.
Qed.

Lemma addHeader_print h r :
  header_ok h ->
  addHeader (print_header h) (length (fst h)) r =
    mkRequest (method_ r) (version_ r) (path_ r) (query_ r) (receiveTime_ r)
      (<[fst h := snd h]> (headers_ r)).
Proof.
  destruct h as [f v]. intros (_ & _ & _ & Hs & Ht). simpl in *.
  unfold addHeader, print_header. simpl. rewrite take_app_length, drop_past.
  change (skip_spaces (SP :: v)) with (skip_spaces v). by rewrite Hs, Ht.
Qed.

Lemma print_header_chars h : header_ok h -> CR ∉ print_header h.
Proof.
  intros (_ & H1 & H2 & _). unfold print_header.
  rewrite not_elem_of_app, !not_elem_of_cons. done.
Qed.

Lemma header_colon h : COLON ∉ fst h ->
  find_index COLON (print_header h) = length (fst h) /\
  (length (fst h) =? length (print_header h))%nat = false.
Proof.
  intros Hc. unfold print_header. rewrite find_index_app by done. split; [done|].
  apply Nat.eqb_neq. rewrite length_app. simpl. lia.
Qed.

Lemma parse_headers_print hs : forall fuel r rest,
  Forall header_ok hs -> (length (print_headers hs ++ rest) < fuel)%nat ->
  parse_headers fuel r (print_headers hs ++ rest) =
    (true, mkRequest (method_ r) (version_ r) (path_ r) (query_ r) (receiveTime_ r)
             (add_headers hs (headers_ r)), rest).
Proof.
  induction hs as [|h hs IH]; intros [|fuel] r rest Hh Hf; try lia; cbn [parse_headers print_headers].
  - pose proof (search_line [] rest ltac:(set_solver)) as X. cbn [app length] in X.
    cbn [app]. rewrite X. by destruct r.
  - apply Forall_cons in Hh as [Hh Hhs]. rewrite <- !app_assoc.
    rewrite search_line by (by apply print_header_chars).
    replace (_ =? _)%nat with false
      by (symmetry; apply Nat.eqb_neq; rewrite !length_app; simpl; lia).
    rewrite take_app_length.
    destruct (header_colon h (proj1 Hh)) as [-> ->]. rewrite addHeader_print by done.
    replace (drop (length (print_header h) + 2) _) with (print_headers hs ++ rest).
    + rewrite IH; [done|done|]. revert Hf. cbn [print_headers]. rewrite !length_app. simpl. lia.
    + rewrite app_assoc, drop_app_length'; [done|]. rewrite length_app. done.
Qed.

(** *** The initial request line of a printed request *)
Lemma print_line_chars m path query v :
  line_ok m path query v -> CR ∉ print_line m path query v.
Proof.
  intros (Hm & [ver Hv] & _ & Hcr & _). destruct (method_chars m Hm) as [_ Hmc].
  destruct (process_version_ok v ver new_HttpRequest Hv) as (_ & _ & Hvc).
  unfold print_line. rewrite app_assoc in *.
  rewrite !not_elem_of_app, !not_elem_of_cons, !not_elem_of_app, !not_elem_of_cons,
    !not_elem_of_app in *.
  assert (CR ∉ http1) by (apply (bool_decide_unpack _); vm_compute; exact I).
  naive_solver.
Qed.

Lemma parse_message_print t m path query v ver hs rest :
  line_ok m path query v -> version_of v = Some ver -> Forall header_ok hs ->
  parse_message t (print_request m path query v hs ++ rest) =
    Complete (mkRequest (method_of m) ver path query t (add_headers hs ∅)) rest.
Proof.
  intros Hl Hv Hh. unfold parse_message, print_request. rewrite <- !app_assoc.
  rewrite search_line by (by apply print_line_chars).
  replace (_ =? _)%nat with false
    by (symmetry; apply Nat.eqb_neq; rewrite !length_app; simpl; lia).
  rewrite take_app_length, (processRequestLine_print _ _ _ _ _ Hl Hv).
  replace (drop (length (print_line m path query v) + 2) _) with (print_headers hs ++ rest).
  - by rewrite parse_headers_print by (done || lia).
  - rewrite app_assoc, drop_app_length'; [done|]. rewrite length_app. done.
Qed.

(** The request line alone, and the rest alone. *)
Lemma parse_line_only t m path query v : line_ok m path query v ->
  exists r, parse_message t (print_line m path query v ++ Buffer.kCRLF) = Partial r [].
Proof.
  intros Hl. pose proof Hl as (_ & [ver Hv] & _).
  unfold parse_message. rewrite <- (app_nil_r (print_line _ _ _ _ ++ _)), <- app_assoc.
  rewrite search_line by (by apply print_line_chars).
  replace (_ =? _)%nat with false by (symmetry; apply Nat.eqb_neq; rewrite !length_app; simpl; lia).
  rewrite take_app_length, (processRequestLine_print _ _ _ _ _ Hl Hv).
  rewrite app_assoc, drop_app_length' by (rewrite length_app; done). by eexists.
Qed.

Lemma method_colon f : method_of (f ++ [COLON]) = kInvalid.
Proof.
  unfold method_of. repeat (destruct (decide _) as [X|_];
    [apply (f_equal last) in X; rewrite last_snoc in X; vm_compute in X; discriminate|]).
  done.
Qed.

(** A header line is no request line. *)
Lemma processRequestLine_header h r : SP ∉ fst h ->
  (processRequestLine (print_header h) r).1 = false.
Proof.
  intros Hs. unfold processRequestLine, print_header. rewrite cons_middle, app_assoc.
  destruct (cut_at SP (fst h ++ [COLON]) (snd h)) as (-> & -> & _ & _).
  { rewrite not_elem_of_app. split; [done|]. apply (bool_decide_unpack _). vm_compute. exact I. }
  unfold setMethod. by rewrite method_colon.
Qed.

Lemma parse_headers_only t hs :
  Forall (fun h => header_ok h /\ SP ∉ fst h) hs ->
  exists r, parse_message t (print_headers hs) = BadLine r.
Proof.
  intros Hh. unfold parse_message. destruct hs as [|h hs]; cbn [print_headers].
  - pose proof (search_line [] [] ltac:(set_solver)) as X. cbn [app length] in X.
    rewrite app_nil_r in X. rewrite X. by eexists.
  - apply Forall_cons in Hh as [[Hh Hs] _]. rewrite search_line by (by apply print_header_chars).
    replace (_ =? _)%nat with false by (symmetry; apply Nat.eqb_neq; rewrite !length_app; simpl; lia).
    rewrite take_app_length. pose proof (processRequestLine_header h new_HttpRequest Hs) as X.
    destruct (processRequestLine _ _) as [[|] r]; [done|by eexists].
Qed.

(** ** Properties *)

(** C24: a request printed by a client - any method, path and query, HTTP/1.0
    or 1.1, any headers - and followed by anything is parsed in one call:
    [parseRequest] returns true in state [kGotAll] with exactly the method,
    version, path, query (its question mark included), receive time and
    headers that were printed (the last of several with one name), and leaves
    what follows in the buffer. *)
Theorem parse_print_roundtrip t m path query v ver hs rest buf fuel
  (Hl : line_ok m path query v) (Hv : version_of v = Some ver) (Hh : Forall header_ok hs)
  (W : Buffer.wf buf) (Hc : Buffer.content buf = print_request m path query v hs ++ rest)
  (Hf : (length (Buffer.content buf) + 1 < fuel)%nat) :
  exists buf', parseRequest fuel t new_HttpContext buf =
    Ret (Some (mkContext kGotAll (mkRequest (method_of m) ver path query t (add_headers hs ∅)),
               buf', true)) /\
    Buffer.wf buf' /\ Buffer.content buf' = rest.
Proof.
  destruct (parseRequest_ok fuel t buf W ltac:(lia)) as (c & buf' & ok & E & W' & O).
  rewrite Hc, (parse_message_print _ _ _ _ _ _ _ _ Hl Hv Hh) in O.
  destruct O as (-> & <- & ->). eauto.
Qed.

Lemma parse_print_roundtrip_witness :
  let buf := Buffer.mkBuffer (str "........" ++
      print_request (str "GET") (str "/hello") (str "?a=1") (str "1")
        [(str "Host", str "localhost"); (str "Connection", str "close")] ++ str "tail") 8 75 in
  exists buf', parseRequest 200 5 new_HttpContext buf =
    Ret (Some (mkContext kGotAll (mkRequest kGet kHttp11 (str "/hello") (str "?a=1") 5
                 (add_headers [(str "Host", str "localhost"); (str "Connection", str "close")] ∅)),
               buf', true)) /\
    Buffer.wf buf' /\ Buffer.content buf' = str "tail".
Proof.
  intros buf. apply (parse_print_roundtrip 5 (str "GET") (str "/hello") (str "?a=1") (str "1") kHttp11
    [(str "Host", str "localhost"); (str "Connection", str "close")] (str "tail") buf 200).
  - unfold line_ok. split_and!; try (apply (bool_decide_unpack _); vm_compute; exact I).
    right. exists (str "a=1"). reflexivity.
  - reflexivity.
  - apply (bool_decide_unpack _). vm_compute. exact I.
  - vm_compute. split_and!; discriminate.
  - vm_compute. reflexivity.
  - vm_compute. lia.
Defined.

(** C23: on any bytes whatsoever [parseRequest] on a fresh context terminates
    without a fault, in at most one turn for every two bytes and one more,
    and classifies the message as the specification does: without a complete line or with a bad
    request line it returns false and takes nothing off the buffer; with a
    good request line and incomplete headers it returns true but not
    [kGotAll]; otherwise it delivers the request and leaves the rest. *)
Theorem parseRequest_classifies fuel t buf
  (W : Buffer.wf buf) (Hf : (length (Buffer.content buf) / 2 + 1 <= fuel)%nat) :
  exists c buf' ok, parseRequest fuel t new_HttpContext buf = Ret (Some (c, buf', ok)) /\
    Buffer.wf buf' /\
    match parse_message t (Buffer.content buf) with
    | NoLine => c = new_HttpContext /\ ok = false /\ buf' = buf
    | BadLine r => c = mkContext kExpectRequestLine r /\ ok = false /\ buf' = buf
    | Partial r s => c = mkContext kExpectHeaders r /\ ok = true /\ Buffer.content buf' = s
    | Complete r s => c = mkContext kGotAll r /\ ok = true /\ Buffer.content buf' = s
    end.
Proof.
  assert (length (Buffer.content buf) < 2 * fuel)%nat as Hl.
  { pose proof (Nat.div_mod_eq (length (Buffer.content buf)) 2) as X.
    pose proof (Nat.mod_upper_bound (length (Buffer.content buf)) 2 ltac:(done)). lia. }
  destruct (parseRequest_ok fuel t buf W Hl) as (c & buf' & ok & Er & W' & O).
  exists c, buf', ok. split; [done|]. split; [done|].
  destruct (parse_message t (Buffer.content buf)) eqn:Em; simpl in O; try naive_solver.
  - destruct O as [-> ->]. split_and!; try done. by eapply parseRequest_false.
  - destruct O as [-> ->]. split_and!; try done. by eapply parseRequest_false.
Qed.

Lemma parseRequest_classifies_witness :
  let buf := Buffer.mkBuffer (str "........nonsense" ++ Buffer.kCRLF) 8 18 in
  exists c buf' ok, parseRequest 6 5 new_HttpContext buf = Ret (Some (c, buf', ok)) /\
    Buffer.wf buf' /\
    match parse_message 5 (Buffer.content buf) with
    | NoLine => c = new_HttpContext /\ ok = false /\ buf' = buf
    | BadLine r => c = mkContext kExpectRequestLine r /\ ok = false /\ buf' = buf
    | Partial r s => c = mkContext kExpectHeaders r /\ ok = true /\ Buffer.content buf' = s
    | Complete r s => c = mkContext kGotAll r /\ ok = true /\ Buffer.content buf' = s
    end.
Proof.
  intros buf. apply (parseRequest_classifies 6 5 buf).
  - vm_compute. split_and!; discriminate.
  - vm_compute. lia.
Defined.

End HttpContext.

#[export] Existing Instance HttpRequest.Method_eq_dec.
#[export] Existing Instance HttpRequest.Version_eq_dec.
#[export] Existing Instance HttpContext.ParseState_eq_dec.
