(* ===== verification/HttpServer.v ===== *)
(** * HTTP responses, the HTTP server and its program
    ([src/http/HttpResponse.*], [HttpServer.*], [main.cc])

    A response is printed into a [Buffer]; [HttpServer]'s callbacks run on the
    connection of the message, whose output is the byte pipe specified with
    [TcpConnection]. *)

From S2P Require Import Prelude Buffer Channel Poller EventLoop Socket TcpConnection Threads TcpServer Http.

(** Appending several strings in turn. *)
Fixpoint append_all (ds : list bytes) (out : Buffer.Buffer) : outcome Buffer.Buffer :=
  match ds with
  | [] => mret out
  | d :: ds' => out' ← Buffer.append_string d out; append_all ds' out'
  end.

Module HttpResponse.

Inductive HttpStatusCode :=
  | kUnknown
  | k200Ok
  | k301MovedPermanently
  | k400BadRequest
  | k404NotFound.

Definition code (c : HttpStatusCode) : Z :=
  match c with
  | kUnknown => 0
  | k200Ok => 200
  | k301MovedPermanently => 301
  | k400BadRequest => 400
  | k404NotFound => 404
  end.

Record HttpResponse := mkResponse {
  headers_ : gmap bytes bytes;
  statusCode_ : HttpStatusCode;
  statusMessage_ : bytes;
  closeConnection_ : bool;
  body_ : bytes
}.

Definition new_HttpResponse (close : bool) : HttpResponse := mkResponse ∅ kUnknown [] close [].

Definition setStatusCode (c : HttpStatusCode) (r : HttpResponse) : HttpResponse :=
  mkResponse (headers_ r) c (statusMessage_ r) (closeConnection_ r) (body_ r).
Definition setStatusMessage (m : bytes) (r : HttpResponse) : HttpResponse :=
  mkResponse (headers_ r) (statusCode_ r) m (closeConnection_ r) (body_ r).
Definition setCloseConnection (on : bool) (r : HttpResponse) : HttpResponse :=
  mkResponse (headers_ r) (statusCode_ r) (statusMessage_ r) on (body_ r).
Definition closeConnection (r : HttpResponse) : bool := closeConnection_ r.
Definition addHeader (key value : bytes) (r : HttpResponse) : HttpResponse :=
  mkResponse (<[key := value]> (headers_ r)) (statusCode_ r) (statusMessage_ r)
    (closeConnection_ r) (body_ r).
Definition setContentType (contentType : bytes) (r : HttpResponse) : HttpResponse :=
  addHeader (str "Content-Type") contentType r.
Definition setBody (body : bytes) (r : HttpResponse) : HttpResponse :=
  mkResponse (headers_ r) (statusCode_ r) (statusMessage_ r) (closeConnection_ r) body.

(** A string literal, and a text [snprintf]ed into [char buf[32]]. *)
Definition CRLF : bytes := Buffer.kCRLF.
Definition in_buf (s : bytes) : bytes := c_str (snprintf 32 s).

Section Order.
(** The iteration order of an [unordered_map]. *)
Context (order : gmap bytes bytes -> list (bytes * bytes)).

Definition append_headers (hs : list (bytes * bytes)) (output : Buffer.Buffer)
    : outcome Buffer.Buffer :=
  append_all (concat (map (fun h => [fst h; str ": "; snd h; CRLF]) hs)) output.

Definition appendToBuffer (r : HttpResponse) (output : Buffer.Buffer) : outcome Buffer.Buffer :=
  o1 ← append_all [in_buf (str "HTTP/1.1 " ++ fmt_d (code (statusCode_ r)) ++ str " ");
                   statusMessage_ r; CRLF] output;
  o2 ← (if closeConnection_ r
        then append_all [str "Connection: close" ++ CRLF] o1
        else append_all [in_buf (str "Content-Length: " ++ fmt_d (zlen (body_ r)) ++ CRLF);
                         str "Connection: Keep-Alive" ++ CRLF] o1);
  o3 ← append_headers (order (headers_ r)) o2;
  append_all [CRLF; body_ r] o3.

(** ** Specification: the text of a response *)

Definition render_headers (hs : list (bytes * bytes)) : bytes :=
  concat (map (fun h => fst h ++ str ": " ++ snd h ++ CRLF) hs).

Definition render (r : HttpResponse) : bytes :=
  str "HTTP/1.1 " ++ fmt_d (code (statusCode_ r)) ++ str " " ++ statusMessage_ r ++ CRLF ++
  (if closeConnection_ r then str "Connection: close" ++ CRLF
   else str "Content-Length: " ++ fmt_d (zlen (body_ r)) ++ CRLF ++
        str "Connection: Keep-Alive" ++ CRLF) ++
  render_headers (order (headers_ r)) ++ CRLF ++ body_ r.

End Order.

(** ** Lemmas *)

Lemma append_all_ok ds : forall out,
  Buffer.wf out -> zlen (concat ds) < 2 ^ 31 ->
  zlen (Buffer.buffer_ out) + zlen (concat ds) <= Buffer.max_size ->
  exists out', append_all ds out = Ret out' /\ Buffer.wf out' /\
    Buffer.content out' = Buffer.content out ++ concat ds /\
    zlen (Buffer.buffer_ out') <= zlen (Buffer.buffer_ out) + zlen (concat ds).
Proof.
  induction ds as [|d ds IH]; intros out W Hl Hm; cbn [append_all concat] in *.
  - exists out. rewrite app_nil_r. split_and!; try done. rewrite zlen_nil. lia.
  - rewrite zlen_app in *. pose proof (zlen_nonneg d). pose proof (zlen_nonneg (concat ds)).
    destruct (Buffer.append_ok d out W) as (o1 & E1 & W1 & C1 & L1); [lia..|].
    unfold Buffer.append_string. rewrite E1. ostep.
    destruct (IH o1 W1) as (o2 & -> & W2 & C2 & L2); [lia..|].
    exists o2. rewrite C2, C1, <- app_assoc. split_and!; done || lia.
Qed.

(** A text that fits [buf] is appended whole. *)
Lemma in_buf_id u : (length u <= 31)%nat -> NUL ∉ u -> in_buf u = u.
Proof. intros. unfold in_buf, snprintf. rewrite take_ge by lia. by apply c_str_id. Qed.

Lemma concat_map_headers hs :
  concat (concat (map (fun h : bytes * bytes => [fst h; str ": "; snd h; CRLF]) hs)) = render_headers hs.
Proof.
  unfold render_headers. induction hs as [|h hs IH]; [done|]. cbn [map concat].
  rewrite concat_app, IH. cbn [concat]. by rewrite app_nil_r, <- !app_assoc.
Qed.

Lemma status_in_buf c : in_buf (str "HTTP/1.1 " ++ fmt_d (code c) ++ str " ") =
  str "HTTP/1.1 " ++ fmt_d (code c) ++ str " ".
Proof. destruct c; vm_compute; reflexivity. Qed.

Lemma length_in_buf n : 0 <= n < 2 ^ 31 ->
  in_buf (str "Content-Length: " ++ fmt_d n ++ CRLF) = str "Content-Length: " ++ fmt_d n ++ CRLF.
Proof.
  intros Hn. apply in_buf_id.
  - pose proof (fmt_d_length n Hn). rewrite !length_app.
    change (length (str "Content-Length: ")) with 16%nat.
    change (length CRLF) with 2%nat. lia.
  - rewrite !not_elem_of_app. split_and!.
    + apply (bool_decide_unpack _). vm_compute. exact I.
    + apply fmt_d_no_nul. lia.
    + apply (bool_decide_unpack _). vm_compute. exact I.
Qed.

Lemma append_all_app ds1 ds2 o :
  append_all (ds1 ++ ds2) o = (o' ← append_all ds1 o; append_all ds2 o').
Proof.
  revert o. induction ds1 as [|d ds1 IH]; intros o; [done|]. cbn [app append_all].
  destruct (Buffer.append_string d o); [apply IH|done].
Qed.

(** The strings [appendToBuffer] appends. *)
Definition pieces order r : list bytes :=
  [in_buf (str "HTTP/1.1 " ++ fmt_d (code (statusCode_ r)) ++ str " "); statusMessage_ r; CRLF] ++
  (if closeConnection_ r then [str "Connection: close" ++ CRLF]
   else [in_buf (str "Content-Length: " ++ fmt_d (zlen (body_ r)) ++ CRLF);
         str "Connection: Keep-Alive" ++ CRLF]) ++
  concat (map (fun h : bytes * bytes => [fst h; str ": "; snd h; CRLF]) (order (headers_ r))) ++
  [CRLF; body_ r].

Lemma appendToBuffer_flat order r out :
  appendToBuffer order r out = append_all (pieces order r) out.
Proof.
  unfold appendToBuffer, append_headers, pieces. rewrite append_all_app.
  destruct (append_all _ out) as [o1|]; [|done]. ostep. rewrite append_all_app.
  destruct (closeConnection_ r);
    (destruct (append_all _ o1) as [o2|]; [|done]; ostep; by rewrite append_all_app).
Qed.

Lemma pieces_render order r :
  0 <= zlen (body_ r) < 2 ^ 31 -> concat (pieces order r) = render order r.
Proof.
  intros Hb. unfold pieces, render.
  rewrite !concat_app, concat_map_headers, status_in_buf, length_in_buf by done.
  destruct (closeConnection_ r); cbn [concat]; by rewrite ?app_nil_r, <- ?app_assoc.
Qed.

Lemma appendToBuffer_ok order r out :
  Buffer.wf out -> zlen (render order r) < 2 ^ 31 ->
  zlen (Buffer.buffer_ out) + zlen (render order r) <= Buffer.max_size ->
  exists out', appendToBuffer order r out = Ret out' /\ Buffer.wf out' /\
    Buffer.content out' = Buffer.content out ++ render order r.
Proof.
  intros W Hl Hm. assert (0 <= zlen (body_ r) < 2 ^ 31) as Hb.
  { split; [apply zlen_nonneg|]. eapply Z.le_lt_trans; [|exact Hl].
    unfold render. rewrite !zlen_app. repeat match goal with |- context [zlen ?l] =>
      lazymatch goal with _ : 0 <= zlen l |- _ => fail | _ => pose proof (zlen_nonneg l) end end. lia. }
  rewrite appendToBuffer_flat. rewrite <- (pieces_render order r Hb) in *.
  destruct (append_all_ok _ out W Hl Hm) as (o & E & W' & C' & _). eauto.
Qed.

(** ** Properties *)

(** C33: [appendToBuffer] appends exactly the text of the response - status
    line, [Connection: close] or the decimal length of the body with
    [Keep-Alive], every header once, an empty line, the body - without
    truncating anything in its 32-byte scratch buffer. *)
Theorem appendToBuffer_renders order r out
  (Horder : forall m, Permutation (order m) (map_to_list m))
  (W : Buffer.wf out) (Hl : zlen (render order r) < 2 ^ 31)
  (Hm : zlen (Buffer.buffer_ out) + zlen (render order r) <= Buffer.max_size) :
  exists out' hs, appendToBuffer order r out = Ret out' /\ Buffer.wf out' /\
    Permutation hs (map_to_list (headers_ r)) /\
    Buffer.content out' = Buffer.content out ++
      str "HTTP/1.1 " ++ fmt_d (code (statusCode_ r)) ++ str " " ++ statusMessage_ r ++ CRLF ++
      (if closeConnection_ r then str "Connection: close" ++ CRLF
       else str "Content-Length: " ++ fmt_d (zlen (body_ r)) ++ CRLF ++
            str "Connection: Keep-Alive" ++ CRLF) ++
      render_headers hs ++ CRLF ++ body_ r.
Proof.
  destruct (appendToBuffer_ok order r out W Hl Hm) as (o & E & W' & C').
  exists o, (order (headers_ r)). split_and!; try done. 
Qed.

Lemma appendToBuffer_renders_witness :
  let r := setBody (str "hello") (setContentType (str "text/plain") (new_HttpResponse false)) in
  exists out' hs, appendToBuffer map_to_list r (Buffer.new_Buffer 64) = Ret out' /\
    Buffer.wf out' /\ Permutation hs (map_to_list (headers_ r)) /\
    Buffer.content out' = Buffer.content (Buffer.new_Buffer 64) ++
      str "HTTP/1.1 " ++ fmt_d (code (statusCode_ r)) ++ str " " ++ statusMessage_ r ++ CRLF ++
      (if closeConnection_ r then str "Connection: close" ++ CRLF
       else str "Content-Length: " ++ fmt_d (zlen (body_ r)) ++ CRLF ++
            str "Connection: Keep-Alive" ++ CRLF) ++
      render_headers hs ++ CRLF ++ body_ r.
Proof.
  intros r. apply (appendToBuffer_renders map_to_list r (Buffer.new_Buffer 64)).
  - intros m. apply Permutation_refl.
  - vm_compute. split_and!; discriminate.
  - vm_compute. reflexivity.
  - vm_compute. discriminate.
Defined.

End HttpResponse.

Module HttpServer.
Import HttpResponse.

(** The callbacks [HttpServer] gives to its [TcpServer]. *)
Inductive http_cb := OnConnectionCb | OnMessageCb.

(** [HttpCallback]: what it makes of the response. *)
Abbreviation HttpCallback := (HttpRequest.HttpRequest -> HttpResponse -> HttpResponse).

Definition defaultHttpCallback : HttpCallback := fun _ resp =>
  setCloseConnection true (setStatusMessage (str "Not Found") (setStatusCode k404NotFound resp)).

Record HttpServer (Cb : Type) := mkHttpServer {
  server_ : TcpServer.TcpServer http_cb Cb;
  httpCallback_ : HttpCallback
}.
Arguments mkHttpServer {Cb}.
Arguments server_ {Cb}.
Arguments httpCallback_ {Cb}.

Section Construct.
Context {Cb : Type}.

Definition new_HttpServer (inet_ntop : Z -> bytes) (loop : option Z)
    (listenAddr : InetAddress.InetAddress) (name : bytes) (option : TcpServer.Option_)
    (sockfd bind_ret : Z) : outcome (HttpServer Cb) :=
  '(s, _) ← TcpServer.new_TcpServer inet_ntop loop listenAddr name option sockfd bind_ret;
  mret (mkHttpServer
          (TcpServer.setThreadNum 4
            (TcpServer.setMessageCallback (Some OnMessageCb)
              (TcpServer.setConnectionCallback (Some OnConnectionCb) s)))
          defaultHttpCallback).

Definition setHttpCallback (cb : HttpCallback) (h : HttpServer Cb) : HttpServer Cb :=
  mkHttpServer (server_ h) cb.
Definition getLoop (h : HttpServer Cb) : Z := TcpServer.getLoop (server_ h).

(** [start]: the [TcpServer] of [h] is the server of the world. *)
Definition start {P E S} `{Channel.POLLER P, EVENTFD E}
    (startLoop : Z -> EventLoopThread.EventLoopThread Cb -> Z * EventLoopThread.EventLoopThread Cb)
    (numCreated_ tid acc_self listen_ret : Z) (h : HttpServer Cb)
    (w : TcpServer.World http_cb Cb P E S) :=
  TcpServer.start startLoop numCreated_ tid acc_self listen_ret
    (TcpServer.set_server (server_ h) w).

End Construct.

Section Serve.
Context {U P E S R : Type} `{Channel.POLLER P, EVENTFD E, SOCKET S}.
Implicit Types e : TcpConnection.Env U P E S R.
Context (order : gmap bytes bytes -> list (bytes * bytes)).
Context (httpCallback : HttpCallback).
(** The connection, and the thread its callbacks run on. *)
Context (self tid : Z).

(** [onConnection] only logs. *)
Definition onConnection e : bytes :=
  if TcpConnection.connected (TcpConnection.conn e)
  then str "new Connection arrived" else str "Connection closed".

Definition bad_request : bytes := str "HTTP/1.1 400 Bad Request" ++ CRLF ++ CRLF.

(** What the request asks for; the code then overwrites it with [true]. *)
Definition wants_close (req : HttpRequest.HttpRequest) : bool :=
  let connection := HttpRequest.getHeader (str "Connection") req in
  bool_decide (connection = str "close") ||
  (bool_decide (HttpRequest.version req = HttpRequest.kHttp10) &&
   negb (bool_decide (connection = str "Keep-Alive"))).

Definition response_to (req : HttpRequest.HttpRequest) : HttpResponse :=
  let close := wants_close req in
  let close := true in
  httpCallback req (new_HttpResponse close).

Definition onRequest (req : HttpRequest.HttpRequest) e
    : outcome (TcpConnection.Env U P E S R) :=
  let response := response_to req in
  buf ← appendToBuffer order response (Buffer.new_Buffer Buffer.kInitialSize);
  '(_, e1) ← TcpConnection.send_Buffer self tid buf e;
  if closeConnection response then TcpConnection.shutdown self tid e1 else mret e1.

(** [onMessage(conn, &inputBuffer_, receiveTime)]; [ptr] is the address of
    the temporary string of the 400 response. *)
Definition onMessage (fuel : nat) (ptr receiveTime : Z) e
    : outcome (option (TcpConnection.Env U P E S R)) :=
  r ← HttpContext.parseRequest fuel receiveTime HttpContext.new_HttpContext
        (TcpConnection.inputBuffer_ (TcpConnection.conn e));
  match r with
  | None => mret None
  | Some (context, buf, ok) =>
      let e1 := TcpConnection.upd_conn (TcpConnection.set_inputBuffer buf) e in
      e2 ← (if (ok : bool) then mret e1
            else e' ← TcpConnection.send self tid ptr bad_request e1;
                 TcpConnection.shutdown self tid e');
      e3 ← (if HttpContext.gotAll context
            then onRequest (HttpContext.request_ context) e2 else mret e2);
      mret (Some e3)
  end.

End Serve.

(** ** Lemmas *)

Section Lemmas.
Context {U P E S R : Type} `{Channel.POLLER_LAWS P, EVENTFD E, SOCKET_LAWS S}.
Implicit Types e : TcpConnection.Env U P E S R.
Context (order : gmap bytes bytes -> list (bytes * bytes)) (httpCallback : HttpCallback).
Context (self : Z).

(** What the connection's loop thread is. *)
Definition thread_of e : Z := EventLoop.threadId_ (TcpConnection.loop e).

Definition input_of e : Buffer.Buffer := TcpConnection.inputBuffer_ (TcpConnection.conn e).

(** There is room for [n] more bytes of output. *)
Definition room (n : Z) e : Prop :=
  n < 2 ^ 31 /\ zlen (Buffer.buffer_ (TcpConnection.outputBuffer_ (TcpConnection.conn e))) + n <= Buffer.max_size.

Lemma bad_request_pipe a ptr e :
  TcpConnection.no_reset (S := S) -> TcpConnection.refines_pipe (a, false) e ->
  room (zlen bad_request) e ->
  match (e' ← TcpConnection.send self (thread_of e) ptr bad_request e;
         TcpConnection.shutdown self (thread_of e) e') with
  | Err f => TcpConnection.aborts (P := P) f
  | Ret e' => TcpConnection.refines_pipe (a ++ bad_request, true) e' /\ input_of e' = input_of e
  end.
Proof.
  intros Hr Href [Hl Hm].
  pose proof (TcpConnection.send_pipe self (a, false) ptr bad_request e Hr Href Hl Hm) as X.
  unfold thread_of. destruct (TcpConnection.send _ _ _ _ _) as [e1|f]; ostep; [|done].
  destruct X as (X1 & X2 & _ & X3).
  destruct (TcpConnection.shutdown_pipe self _ e1 X1) as (e2 & Y & Y1 & _ & _ & Y2).
  rewrite <- X2, Y. split; [done|]. unfold input_of. congruence.
Qed.

Lemma onRequest_pipe a req e :
  TcpConnection.no_reset (S := S) -> TcpConnection.refines_pipe (a, false) e ->
  room (zlen (render order (response_to httpCallback req))) e ->
  match onRequest order httpCallback self (thread_of e) req e with
  | Err f => TcpConnection.aborts (P := P) f
  | Ret e' =>
      TcpConnection.refines_pipe (a ++ render order (response_to httpCallback req),
        closeConnection (response_to httpCallback req)) e' /\
      input_of e' = input_of e
  end.
Proof.
  intros Hr Href [Hl Hm]. unfold onRequest, thread_of.
  set (resp := response_to httpCallback req) in *.
  assert (Buffer.wf (Buffer.new_Buffer Buffer.kInitialSize)) as W0.
  { apply Buffer.wf_new. vm_compute. split; discriminate. }
  destruct (appendToBuffer_ok order resp _ W0 Hl) as (buf & -> & W & C).
  { assert (zlen (Buffer.buffer_ (Buffer.new_Buffer Buffer.kInitialSize)) = 1032) as -> by
      (vm_compute; reflexivity). unfold Buffer.max_size. lia. }
  ostep. rewrite Buffer.content_new in C. cbn [app] in C.
  pose proof (TcpConnection.send_Buffer_pipe self (a, false) buf e Hr Href W) as X.
  rewrite C in X. specialize (X Hl eq_refl Hm).
  destruct (TcpConnection.send_Buffer _ _ _ _) as [[b1 e1]|f]; ostep; [|done].
  destruct X as (_ & X1 & X2 & X3). destruct (closeConnection resp); [|done].
  destruct (TcpConnection.shutdown_pipe self _ e1 X1) as (e2 & Y & Y1 & _ & _ & Y2).
  rewrite <- X2, Y. split; [done|]. unfold input_of. congruence.
Qed.

(** The output and the closing of a connection after a message [s], and the
    input left. *)
Definition reply (a : bytes) (t : Z) (s : bytes) : bytes * bool * bytes :=
  match HttpContext.parse_message t s with
  | HttpContext.NoLine | HttpContext.BadLine _ => (a ++ bad_request, true, s)
  | HttpContext.Partial _ rest => (a, false, rest)
  | HttpContext.Complete req rest =>
      (a ++ render order (response_to httpCallback req),
       closeConnection (response_to httpCallback req), rest)
  end.

(** The bytes the reply adds fit. *)
Definition reply_room (t : Z) e : Prop :=
  room (zlen (reply [] t (Buffer.content (input_of e))).1.1) e.

Lemma onMessage_reply fuel ptr t a e :
  TcpConnection.no_reset (S := S) -> TcpConnection.refines_pipe (a, false) e ->
  Buffer.wf (input_of e) -> (length (Buffer.content (input_of e)) + 1 < fuel)%nat ->
  reply_room t e ->
  match onMessage order httpCallback self (thread_of e) fuel ptr t e with
  | Err f => TcpConnection.aborts (P := P) f
  | Ret None => False
  | Ret (Some e') =>
      let '(out, closing, rest) := reply a t (Buffer.content (input_of e)) in
      TcpConnection.refines_pipe (out, closing) e' /\
      Buffer.wf (input_of e') /\ Buffer.content (input_of e') = rest
  end.
Proof.
  intros Hr Href W Hf Hroom. unfold onMessage. fold (input_of e).
  destruct (HttpContext.parseRequest_ok fuel t (input_of e) W ltac:(lia)) as (c & buf & ok & Ep & Wb & O).
  rewrite Ep. ostep. set (e1 := TcpConnection.upd_conn _ e).
  unfold reply_room, reply in *.
  assert (ok = false -> buf = input_of e) as Hfalse.
  { intros ->. by apply HttpContext.parseRequest_false in Ep. }
  destruct (HttpContext.parse_message t _) as [|r|r rest|r rest]; simpl in O.
  1,2: destruct O as [-> ->]; rewrite (Hfalse eq_refl) in *;
    pose proof (bad_request_pipe a ptr e1 Hr Href Hroom) as X;
    change (thread_of e1) with (thread_of e) in X;
    destruct (_ ≫= _) as [e2|f]; ostep; [|done]; destruct X as [X1 X2];
    change (HttpContext.gotAll _) with false; ostep; rewrite X2;
    change (input_of e1) with buf; by rewrite (Hfalse eq_refl).
  - destruct O as (-> & <- & ->). ostep. done.
  - destruct O as (-> & <- & ->). ostep.
    pose proof (onRequest_pipe a r e1 Hr Href Hroom) as X. change (thread_of e1) with (thread_of e) in X.
    change (HttpContext.gotAll _) with true. cbn [HttpContext.request_].
    destruct (onRequest _ _ _ _ _ _) as [e2|f]; ostep; [|done].
    destruct X as [X1 X2]. rewrite X2. done.
Qed.

End Lemmas.

(** ** Properties *)

(** C32: the server's reaction to the bytes in the input buffer of an open
    connection whose output has room for the reply and whose peer does not
    reset it, on every branch: an unparsable or incomplete request line is answered with
    one 400 response and the connection is closed after it; a complete
    request is answered with exactly the response the user's callback made,
    followed by the close when that response says so, and the bytes after the
    request stay in the input buffer; incomplete headers send nothing. *)
Theorem onMessage_responds {U P E S R} `{Channel.POLLER_LAWS P, EVENTFD E, SOCKET_LAWS S}
  order httpCallback self fuel ptr t a (e : TcpConnection.Env U P E S R)
  (Hreset : TcpConnection.no_reset (S := S)) (Href : TcpConnection.refines_pipe (a, false) e)
  (W : Buffer.wf (input_of e)) (Hf : (length (Buffer.content (input_of e)) + 1 < fuel)%nat)
  (Hroom : reply_room order httpCallback t e) :
  match onMessage order httpCallback self (thread_of e) fuel ptr t e with
  | Err f => TcpConnection.aborts (P := P) f
  | Ret None => False
  | Ret (Some e') =>
      match HttpContext.parse_message t (Buffer.content (input_of e)) with
      | HttpContext.NoLine | HttpContext.BadLine _ =>
          TcpConnection.refines_pipe (a ++ bad_request, true) e' /\
          Buffer.content (input_of e') = Buffer.content (input_of e)
      | HttpContext.Partial _ rest =>
          TcpConnection.refines_pipe (a, false) e' /\ Buffer.content (input_of e') = rest
      | HttpContext.Complete req rest =>
          TcpConnection.refines_pipe (a ++ render order (response_to httpCallback req),
            closeConnection (response_to httpCallback req)) e' /\
          Buffer.content (input_of e') = rest
      end
  end.
Proof.
  pose proof (onMessage_reply order httpCallback self fuel ptr t a e Hreset Href W Hf Hroom) as X.
  destruct (onMessage _ _ _ _ _ _ _ _) as [[e'|]|f]; [|done..]. unfold reply in X.
  destruct (HttpContext.parse_message t _); naive_solver.
Qed.

(** C40: a request whose bytes arrive in two messages, cut after the request
    line, is refused although it is the same request that is parsed when it comes in one piece: the first
    message is taken off the buffer and forgotten with its [HttpContext], and
    the second, which starts at a header, is answered with a 400. *)
Theorem fragmented_request_refused {U P E S R} `{Channel.POLLER_LAWS P, EVENTFD E, SOCKET_LAWS S}
  order httpCallback self fuel ptr t t' a m path query v hs (e e2 : TcpConnection.Env U P E S R)
  (Hreset : TcpConnection.no_reset (S := S))
  (Hl : HttpContext.line_ok m path query v)
  (Hh : Forall (fun h => HttpContext.header_ok h /\ SP ∉ fst h) hs)
  (Href : TcpConnection.refines_pipe (a, false) e) (W : Buffer.wf (input_of e))
  (Hc : Buffer.content (input_of e) = HttpContext.print_line m path query v ++ CRLF)
  (Href2 : TcpConnection.refines_pipe (a, false) e2) (W2 : Buffer.wf (input_of e2))
  (Hc2 : Buffer.content (input_of e2) = HttpContext.print_headers hs)
  (Hf : (length (Buffer.content (input_of e)) + length (Buffer.content (input_of e2)) + 1 < fuel)%nat)
  (Hroom : room (zlen bad_request) e) (Hroom2 : room (zlen bad_request) e2) :
  match onMessage order httpCallback self (thread_of e) fuel ptr t e with
  | Err f => TcpConnection.aborts (P := P) f
  | Ret None => False
  | Ret (Some e') => TcpConnection.refines_pipe (a, false) e' /\ Buffer.content (input_of e') = []
  end /\
  match onMessage order httpCallback self (thread_of e2) fuel ptr t' e2 with
  | Err f => TcpConnection.aborts (P := P) f
  | Ret None => False
  | Ret (Some e') => TcpConnection.refines_pipe (a ++ bad_request, true) e'
  end.
Proof.
  destruct (HttpContext.parse_line_only t m path query v Hl) as [r Hp].
  destruct (HttpContext.parse_headers_only t' hs Hh) as [r' Hp'].
  split.
  - pose proof (onMessage_reply order httpCallback self fuel ptr t a e Hreset Href W ltac:(lia)) as X.
    unfold reply_room, reply in X. unfold CRLF in Hc. rewrite Hc, Hp in X.
    assert (room 0 e) as R0.
    { destruct Hroom. pose proof (zlen_nonneg bad_request). split; lia. }
    specialize (X R0). destruct (onMessage _ _ _ _ _ _ _ _) as [[e'|]|f]; [|done..].
    split; apply X.
  - pose proof (onMessage_reply order httpCallback self fuel ptr t' a e2 Hreset Href2 W2 ltac:(lia)) as X.
    unfold reply_room, reply in X. rewrite Hc2, Hp' in X. specialize (X Hroom2).
    destruct (onMessage _ _ _ _ _ _ _ _) as [[e'|]|f]; naive_solver.
Qed.

(** A connection of a server with one message in its input buffer. *)
Definition demo_e (message : bytes) : TcpConnection.demo_env :=
  TcpConnection.set_sock (TcpConnection.mkTcpSocket [] false [1000; 1000] [])
    (TcpConnection.upd_conn
       (TcpConnection.set_inputBuffer
          (Buffer.mkBuffer (str "........" ++ message) 8 (8 + zlen message)))
       TcpConnection.demo_w).

Lemma demo_e_refines message : TcpConnection.refines_pipe ([], false) (demo_e message).
Proof. split_and!; try reflexivity; vm_compute; split_and!; reflexivity || discriminate. Qed.

Definition demo_message : bytes :=
  HttpContext.print_request (str "GET") (str "/hello") [] (str "1") [(str "Host", str "localhost")].

Lemma onMessage_responds_witness :
  match onMessage map_to_list defaultHttpCallback 5 1 100 0 7 (demo_e demo_message) with
  | Ret (Some e') =>
      TcpConnection.refines_pipe
        (str "HTTP/1.1 404 Not Found" ++ CRLF ++ str "Connection: close" ++ CRLF ++ CRLF, true) e'
  | _ => False
  end.
Proof.
  assert (exists e', onMessage map_to_list defaultHttpCallback 5 1 100 0 7 (demo_e demo_message)
            = Ret (Some e')) as [e' Ee] by (vm_compute; eexists; reflexivity).
  rewrite Ee.
  pose proof (onMessage_responds map_to_list defaultHttpCallback 5 100 0 7 [] (demo_e demo_message)
    TcpConnection.tcp_no_reset (demo_e_refines demo_message)) as X.
  change (thread_of (demo_e demo_message)) with 1 in X. rewrite Ee in X.
  assert (exists r, HttpContext.parse_message 7 (Buffer.content (input_of (demo_e demo_message))) =
            HttpContext.Complete r []) as [r Er] by (vm_compute; eexists; reflexivity).
  rewrite Er in X. apply X.
  - vm_compute. split_and!; discriminate.
  - vm_compute. lia.
  - unfold reply_room, room. vm_compute. split; [reflexivity|discriminate].
Defined.

Lemma fragmented_request_refused_witness :
  let e := demo_e (HttpContext.print_line (str "GET") (str "/hello") [] (str "1") ++ CRLF) in
  let e2 := demo_e (HttpContext.print_headers [(str "Host", str "localhost")]) in
  match onMessage map_to_list defaultHttpCallback 5 (thread_of e) 100 0 7 e with
  | Err f => TcpConnection.aborts (P := EPollPoller.EPollPoller kepoll) f
  | Ret None => False
  | Ret (Some e') => TcpConnection.refines_pipe ([], false) e' /\ Buffer.content (input_of e') = []
  end /\
  match onMessage map_to_list defaultHttpCallback 5 (thread_of e2) 100 0 8 e2 with
  | Err f => TcpConnection.aborts (P := EPollPoller.EPollPoller kepoll) f
  | Ret None => False
  | Ret (Some e') => TcpConnection.refines_pipe ([] ++ bad_request, true) e'
  end.
Proof.
  intros e e2.
  apply (fragmented_request_refused map_to_list defaultHttpCallback 5 100 0 7 8 []
    (str "GET") (str "/hello") [] (str "1") [(str "Host", str "localhost")] e e2).
  - exact TcpConnection.tcp_no_reset.
  - split_and!; try (apply (bool_decide_unpack _); vm_compute; exact I). left. reflexivity.
  - apply (bool_decide_unpack _). vm_compute. exact I.
  - apply demo_e_refines.
  - vm_compute. split_and!; discriminate.
  - vm_compute. reflexivity.
  - apply demo_e_refines.
  - vm_compute. split_and!; discriminate.
  - vm_compute. reflexivity.
  - vm_compute. lia.
  - split; vm_compute; [reflexivity|discriminate].
  - split; vm_compute; [reflexivity|discriminate].
Defined.

End HttpServer.

(** ** The program of [main.cc] *)

Module HttpMain.
Import HttpResponse.

Definition favicon : bytes := map chr [
   137; 80; 78; 71; 13; 10; 26; 10;
   0; 0; 0; 13; 73; 72; 68; 82;
   0; 0; 0; 16; 0; 0; 0; 16;
   8; 6; 0; 0; 0; 31; 243; 255;
   97; 0; 0; 0; 25; 116; 69; 88;
   116; 83; 111; 102; 116; 119; 97; 114;
   101; 0; 65; 100; 111; 98; 101; 32;
   73; 109; 97; 103; 101; 82; 101; 97;
   100; 121; 113; 201; 101; 60; 0; 0;
   1; 205; 73; 68; 65; 84; 120; 218;
   148; 147; 57; 72; 3; 65; 20; 134;
   255; 93; 98; 167; 4; 82; 196; 109;
   34; 30; 160; 70; 36; 8; 22; 22;
   118; 10; 54; 186; 74; 154; 128; 8;
   65; 180; 113; 133; 88; 137; 71; 176;
   73; 169; 81; 36; 205; 166; 8; 164;
   72; 99; 145; 66; 11; 175; 86; 193;
   70; 180; 21; 207; 34; 88; 152; 11;
   84; 72; 138; 100; 147; 141; 251; 70;
   103; 201; 26; 20; 125; 240; 102; 118;
   102; 223; 124; 239; 231; 103; 70; 168;
   213; 106; 72; 36; 18; 42; 0; 5;
   191; 71; 212; 239; 247; 47; 54; 236;
   18; 32; 30; 143; 215; 170; 213; 234;
   175; 73; 53; 70; 170; 84; 95; 159;
   34; 65; 42; 149; 10; 131; 229; 114;
   57; 100; 179; 89; 150; 153; 76; 6;
   233; 116; 154; 37; 133; 44; 203; 84;
   167; 196; 98; 49; 181; 94; 0; 3;
   104; 154; 198; 22; 130; 32; 88; 82;
   20; 69; 54; 83; 148; 203; 101; 120;
   189; 94; 170; 85; 84; 35; 76; 192;
   224; 226; 193; 143; 0; 158; 188; 9;
   65; 124; 62; 31; 131; 68; 34; 17;
   213; 84; 64; 63; 56; 128; 119; 229;
   51; 7; 184; 92; 46; 72; 146; 4;
   135; 195; 129; 64; 32; 64; 103; 152;
   233; 54; 26; 166; 103; 21; 4; 227;
   215; 200; 189; 21; 225; 105; 183; 67;
   171; 234; 120; 47; 106; 88; 146; 187;
   24; 32; 159; 207; 51; 195; 184; 233;
   78; 167; 211; 108; 74; 0; 105; 54;
   124; 142; 225; 254; 86; 132; 231; 60;
   159; 114; 43; 58; 66; 123; 55; 102;
   119; 174; 142; 14; 243; 189; 82; 169;
   100; 2; 66; 175; 133; 50; 102; 70;
   186; 12; 217; 159; 29; 154; 108; 34;
   230; 199; 58; 44; 128; 239; 193; 21;
   144; 7; 147; 162; 40; 160; 83; 106;
   177; 184; 223; 41; 53; 67; 14; 63;
   88; 252; 152; 218; 121; 106; 80; 64;
   0; 135; 174; 27; 23; 66; 180; 58;
   63; 190; 121; 199; 10; 38; 182; 238;
   217; 154; 96; 20; 147; 219; 143; 13;
   10; 46; 233; 35; 149; 41; 88; 0;
   39; 235; 110; 86; 112; 188; 214; 203;
   214; 71; 171; 61; 108; 125; 184; 210;
   221; 160; 96; 131; 186; 239; 95; 164;
   234; 204; 2; 78; 174; 94; 112; 26;
   236; 179; 64; 57; 172; 254; 242; 145;
   137; 103; 145; 133; 33; 168; 135; 183;
   88; 126; 126; 133; 187; 205; 78; 78;
   98; 116; 64; 250; 147; 137; 236; 30;
   236; 134; 2; 72; 38; 147; 208; 117;
   29; 127; 9; 50; 149; 191; 31; 219;
   215; 99; 138; 26; 247; 92; 193; 255;
   34; 74; 195; 135; 0; 3; 0; 75;
   187; 248; 214; 42; 118; 152; 73; 0;
   0; 0; 0; 73; 69; 78; 68; 174;
   66; 96; 130].

Section Main.
Context (order : gmap bytes bytes -> list (bytes * bytes)).

(** [onRequest]: what it prints, and the response; [now] is
    [Timestamp::now().toFormattedString()]. *)
Definition printed (benchmark : bool) (req : HttpRequest.HttpRequest) : list bytes :=
  (str "Headers " ++ HttpRequest.methodString req ++ str " " ++ HttpRequest.path req) ::
  if benchmark then []
  else map (fun h => fst h ++ str ": " ++ snd h) (order (HttpRequest.headers req)).

Definition onRequest (now : bytes) (req : HttpRequest.HttpRequest) (resp : HttpResponse)
    : HttpResponse :=
  let path := HttpRequest.path req in
  if decide (path = str "/") then
    setBody (str "<html><head><title>This is title</title></head>" ++
             str "<body><h1>Hello</h1>Now is " ++ now ++ str "</body></html>")
      (addHeader (str "Server") (str "Muduo")
        (setContentType (str "text/html") (setStatusMessage (str "OK") (setStatusCode k200Ok resp))))
  else if decide (path = str "/favicon.ico") then
    setBody favicon
      (setContentType (str "image/png") (setStatusMessage (str "OK") (setStatusCode k200Ok resp)))
  else if decide (path = str "/hello") then
    setBody (str "hello, world!" ++ [LF])
      (addHeader (str "Server") (str "Muduo")
        (setContentType (str "text/plain") (setStatusMessage (str "OK") (setStatusCode k200Ok resp))))
  else setCloseConnection true
         (setStatusMessage (str "Not Found") (setStatusCode k404NotFound resp)).

(** [main] up to [loop.loop()]: the server on the base loop. *)
Definition main_server {Cb} (inet_ntop : Z -> bytes) (now : bytes) (loop sockfd bind_ret : Z)
    : outcome (HttpServer.HttpServer Cb) :=
  h ← HttpServer.new_HttpServer inet_ntop (Some loop)
        (InetAddress.new_InetAddress 8080 (str "127.0.0.1")) (str "http-server")
        TcpServer.kNoReusePort sockfd bind_ret;
  mret (HttpServer.setHttpCallback (onRequest now) h).

End Main.
End HttpMain.
