(* ===== verification/Timer.v ===== *)
(** * Timestamps and timers ([src/base/Timestamp.*], [src/timer/Timer.*], the
    data of [src/timer/TimerQueue.*])

    A [Timestamp] is a count of microseconds in an [int64_t]; intervals are
    [double]s, as IEEE 754 binary64 values of [SpecFloat].  The timer queue is
    a strictly sorted list of (expiration, address) pairs, the [std::set] of
    the code, over a heap of timer objects; [TIMERFD] is the kernel's timerfd.
    What the queue does in its loop is in [TimerLoop]. *)

From Stdlib Require Import SpecFloat Sorted.
From S2P Require Import Prelude Channel.

Module Timestamp.

Definition kMicroSecondsPerSecond : Z := 1000 * 1000.

(** ** Doubles *)

Abbreviation double := spec_float.

Definition mul (x y : double) : double := SFmul 53 1024 x y.
Definition of_int (n : Z) : double := binary_normalize 53 1024 n 0 false.
Definition positive (x : double) : bool := SFltb (S754_zero false) x.

(** [static_cast<int64_t>]: truncation; undefined out of range. *)
Definition trunc (x : double) : option Z :=
  match x with
  | S754_zero _ => Some 0
  | S754_finite s m e =>
      let a := if 0 <=? e then Zpos m * 2 ^ e else Zpos m / 2 ^ (- e) in
      Some (if s then - a else a)
  | _ => None
  end.

Definition in_i64 (n : Z) : bool := (- 2 ^ 63 <=? n) && (n <? 2 ^ 63).

Definition to_i64 (x : double) : outcome Z :=
  n ← deref BadConversion (trunc x);
  check (in_i64 n) BadConversion;;
  mret n.

(** ** Operations *)

Record Timestamp := mkTimestamp { microSecondsSinceEpoch_ : Z }.

Definition new_Timestamp : Timestamp := mkTimestamp 0.
Definition invalid : Timestamp := new_Timestamp.
Definition microSecondsSinceEpoch (t : Timestamp) : Z := microSecondsSinceEpoch_ t.
Definition secondsSinceEpoch (t : Timestamp) : Z :=
  Z.quot (microSecondsSinceEpoch_ t) kMicroSecondsPerSecond.

(** [gettimeofday] wrote [tv_sec] and [tv_usec]. *)
Definition now (tv_sec tv_usec : Z) : Timestamp :=
  mkTimestamp (tv_sec * kMicroSecondsPerSecond + tv_usec).

Definition lt (a b : Timestamp) : bool := microSecondsSinceEpoch a <? microSecondsSinceEpoch b.
Definition eq (a b : Timestamp) : bool := microSecondsSinceEpoch a =? microSecondsSinceEpoch b.

Definition addTime (t : Timestamp) (seconds : double) : outcome Timestamp :=
  delta ← to_i64 (mul seconds (of_int kMicroSecondsPerSecond));
  check (in_i64 (microSecondsSinceEpoch t + delta)) Overflow;;
  mret (mkTimestamp (microSecondsSinceEpoch t + delta)).

(** [struct tm], as [localtime] fills it. *)
Record tm := mkTm {
  tm_year : Z; tm_mon : Z; tm_mday : Z; tm_hour : Z; tm_min : Z; tm_sec : Z
}.

(** [%4d] pads with spaces, [%02d] and [%06d] with zeros. *)
Definition date_text (t : tm) : bytes :=
  fmt_pad " " 4 (fmt_d (tm_year t + 1900)) ++ str "/" ++
  fmt_pad "0" 2 (fmt_d (tm_mon t + 1)) ++ str "/" ++
  fmt_pad "0" 2 (fmt_d (tm_mday t)) ++ str " " ++
  fmt_pad "0" 2 (fmt_d (tm_hour t)) ++ str ":" ++
  fmt_pad "0" 2 (fmt_d (tm_min t)) ++ str ":" ++
  fmt_pad "0" 2 (fmt_d (tm_sec t)).

Definition toFormattedString (localtime : Z -> tm) (showMicroseconds : bool) (t : Timestamp)
    : bytes :=
  let seconds := Z.quot (microSecondsSinceEpoch_ t) kMicroSecondsPerSecond in
  let tm_time := localtime seconds in
  let microseconds := i32 (Z.rem (microSecondsSinceEpoch_ t) kMicroSecondsPerSecond) in
  c_str (snprintf 64
    (if showMicroseconds
     then date_text tm_time ++ str "." ++ fmt_pad "0" 6 (fmt_d microseconds)
     else date_text tm_time)).

End Timestamp.

Module Timer.
Import Timestamp.

Section Timer.
Context {F : Type}.

Record Timer := mkTimer {
  callback_ : F;
  expiration_ : Timestamp;
  interval_ : double;
  repeat_ : bool
}.

Definition new_Timer (cb : F) (when : Timestamp) (interval : double) : Timer :=
  mkTimer cb when interval (positive interval).

Definition expiration (t : Timer) : Timestamp := expiration_ t.
Definition repeat (t : Timer) : bool := repeat_ t.

Definition restart (now : Timestamp) (t : Timer) : outcome Timer :=
  if repeat_ t then
    e ← addTime now (interval_ t);
    mret (mkTimer (callback_ t) e (interval_ t) (repeat_ t))
  else mret (mkTimer (callback_ t) new_Timestamp (interval_ t) (repeat_ t)).

End Timer.
Arguments Timer : clear implicits.

End Timer.

(** ** timerfd(2)

    [tfd_settime now (sec, nsec)] arms the one-shot alarm of a descriptor of
    [CLOCK_MONOTONIC] for [sec] seconds and [nsec] nanoseconds after [now]
    and says whether it succeeded; [tfd_read] gives the byte count or -1;
    [tfd_ready] is what [epoll_wait] sees.  The clock is in microseconds. *)
Class TIMERFD (T : Type) := {
  tfd_settime : Z -> Z * Z -> T -> bool * T;
  tfd_read : Z -> T -> Z * T;
  tfd_ready : Z -> T -> bool
}.

Definition timespec_ok (ts : Z * Z) : Prop :=
  0 <= fst ts < 2 ^ 63 /\ 0 <= snd ts < 10 ^ 9 /\ ts <> (0, 0).

(** The length of a [timespec] in nanoseconds. *)
Definition nanoseconds (ts : Z * Z) : Z := fst ts * 10 ^ 9 + snd ts.

(** A valid value arms the alarm; reading an alarm that has gone off
    disarms it, reading one that has not fails. *)
Class TIMERFD_LAWS (T : Type) `{TIMERFD T} := {
  settime_ok now ts fd : timespec_ok ts -> fst (tfd_settime now ts fd) = true;
  settime_ready now ts fd t : timespec_ok ts -> now <= t ->
    tfd_ready t (snd (tfd_settime now ts fd)) = (nanoseconds ts <=? 1000 * (t - now));
  read_disarms now fd t : tfd_ready now fd = true -> tfd_ready t (snd (tfd_read now fd)) = false;
  read_keeps now fd : tfd_ready now fd = false -> snd (tfd_read now fd) = fd
}.

(** The moment the alarm goes off, in nanoseconds. *)
#[export] Instance alarm_timerfd : TIMERFD (option Z) := {|
  tfd_settime now ts a :=
    if (0 <=? fst ts) && (0 <=? snd ts) && (snd ts <? 10 ^ 9)
    then (true, if nanoseconds ts =? 0 then None else Some (1000 * now + nanoseconds ts))
    else (false, a);
  tfd_read now a :=
    match a with
    | Some m => if m <=? 1000 * now then (8, None) else (-1, a)
    | None => (-1, a)
    end;
  tfd_ready now a := match a with Some m => m <=? 1000 * now | None => false end
|}.

Module TimerQueue.
Import Timestamp.

(** [UINTPTR_MAX]. *)
Definition ptr_max : Z := 2 ^ 64 - 1.

(** [std::pair<Timestamp, Timer *>] and its [operator<]. *)
Abbreviation Entry := (Timestamp * Z)%type.

Definition entry_ltb (a b : Entry) : bool :=
  lt (fst a) (fst b) || (negb (lt (fst b) (fst a)) && (snd a <? snd b)).

(** [std::set::insert]. *)
Fixpoint set_insert (e : Entry) (l : list Entry) : list Entry :=
  match l with
  | [] => [e]
  | x :: l' => if entry_ltb e x then e :: l
               else if entry_ltb x e then x :: set_insert e l' else l
  end.

(** What precedes [lower_bound(k)], and the rest. *)
Fixpoint split_lower (k : Entry) (l : list Entry) : list Entry * list Entry :=
  match l with
  | [] => ([], [])
  | x :: l' => if entry_ltb x k
               then let '(a, b) := split_lower k l' in (x :: a, b)
               else ([], l)
  end.

Section TimerQueue.
(** What timer callbacks are, the kernel object behind the descriptor, and
    the callbacks of channels. *)
Context {F T C : Type}.

(** [heap_] holds the live [Timer] objects. *)
Record TimerQueue := mkTimerQueue {
  heap_ : gmap Z (Timer.Timer F);
  timerfd_ : T;
  timerfdChannel_ : Channel.Channel C;
  timers_ : list Entry;
  callingExpiredTimers_ : bool
}.

Definition set_heap h q := mkTimerQueue h (timerfd_ q) (timerfdChannel_ q) (timers_ q) (callingExpiredTimers_ q).
Definition set_timerfd a q := mkTimerQueue (heap_ q) a (timerfdChannel_ q) (timers_ q) (callingExpiredTimers_ q).
Definition set_timerfdChannel c q := mkTimerQueue (heap_ q) (timerfd_ q) c (timers_ q) (callingExpiredTimers_ q).
Definition set_timers l q := mkTimerQueue (heap_ q) (timerfd_ q) (timerfdChannel_ q) l (callingExpiredTimers_ q).
Definition set_calling b q := mkTimerQueue (heap_ q) (timerfd_ q) (timerfdChannel_ q) (timers_ q) b.

(** A failing [timerfd_create] is only logged. *)
Definition createTimerfd (timerfd : Z) : Z := timerfd.

Section Construct.
Context {P : Type} `{Channel.POLLER P}.

(** [timerfd_create] gave the descriptor [timerfd] of the kernel object
    [alarm]; the channel at address [self] is registered at once. *)
Definition new_TimerQueue (loop timerfd self : Z) (alarm : T) (cb : C) (p : P)
    : outcome (TimerQueue * P) :=
  '(c, p') ← Channel.enableReading self
               (Channel.setReadCallback cb (Channel.new_Channel loop (createTimerfd timerfd))) p;
  mret (mkTimerQueue ∅ alarm c [] false, p').

(** [~TimerQueue]: the channel goes, then every timer of the set. *)
Definition delete_TimerQueue (self : Z) (p : P) (q : TimerQueue) : outcome (TimerQueue * P) :=
  '(c1, p1) ← Channel.disableAll self (timerfdChannel_ q) p;
  '(c2, p2) ← Channel.remove self c1 p1;
  mret (set_timerfdChannel c2
          (set_heap (foldr (fun e h => delete (snd e) h) (heap_ q) (timers_ q)) q), p2).

End Construct.

(** The [timespec] of [resetTimerfd] at time [now]. *)
Definition alarm_for (expiration now : Timestamp) : Z * Z :=
  let dif := microSecondsSinceEpoch expiration - microSecondsSinceEpoch now in
  let dif := if dif <? 100 then 100 else dif in
  (Z.quot dif kMicroSecondsPerSecond, Z.rem dif kMicroSecondsPerSecond * 1000).

Definition insert (p : Z) (q : TimerQueue) : outcome (bool * TimerQueue) :=
  timer ← deref UseAfterFree (heap_ q !! p);
  let when := Timer.expiration timer in
  let earliestChanged :=
    match timers_ q with
    | [] => true
    | it :: _ => lt when (fst it)
    end in
  mret (earliestChanged, set_timers (set_insert (when, p) (timers_ q)) q).

Definition getExpired (now : Timestamp) (q : TimerQueue) : list Entry * TimerQueue :=
  let sentry := (now, ptr_max) in
  let '(expired, rest) := split_lower sentry (timers_ q) in
  (expired, set_timers rest q).

End TimerQueue.
Arguments TimerQueue : clear implicits.

(** ** The order of entries *)

Definition us (e : Entry) : Z := microSecondsSinceEpoch (fst e).

Lemma entry_ltb_spec a b :
  entry_ltb a b = true <-> us a < us b \/ us a = us b /\ snd a < snd b.
Proof.
  unfold entry_ltb, lt, us. rewrite orb_true_iff, andb_true_iff, negb_true_iff.
  rewrite !Z.ltb_lt, Z.ltb_ge. lia.
Qed.

Lemma entry_eq a b : us a = us b -> snd a = snd b -> a = b.
Proof. destruct a as [[t] p], b as [[t'] p']. unfold us. simpl. by intros -> ->. Qed.

Definition entry_lt (a b : Entry) : Prop := entry_ltb a b = true.
Abbreviation sorted := (StronglySorted entry_lt).

(** Move order facts to arithmetic. *)
Ltac order_lia := unfold entry_lt in *; repeat match goal with
  | H : entry_ltb _ _ = true |- _ => apply entry_ltb_spec in H
  | H : entry_ltb _ _ = false |- _ => apply not_true_iff_false in H; rewrite entry_ltb_spec in H
  | |- entry_ltb _ _ = true => apply entry_ltb_spec
  end; lia.

Lemma set_insert_perm e l : e ∉ l -> Permutation (set_insert e l) (e :: l).
Proof.
  induction l as [|x l IH]; intros Hn; simpl; [done|]. apply not_elem_of_cons in Hn as [Hx Hl].
  destruct (entry_ltb e x) eqn:E1; [done|]. destruct (entry_ltb x e) eqn:E2.
  - rewrite IH by done. apply Permutation_swap.
  - exfalso. apply Hx, entry_eq; order_lia.
Qed.

Lemma set_insert_elem e y l : y ∈ set_insert e l -> y = e \/ y ∈ l.
Proof.
  induction l as [|x l IH]; simpl; [set_solver|].
  destruct (entry_ltb e x); [set_solver|]. destruct (entry_ltb x e); set_solver.
Qed.

Lemma set_insert_sorted e l : sorted l -> sorted (set_insert e l).
Proof.
  induction l as [|x l IH]; simpl; intros Hs; [repeat constructor|].
  apply StronglySorted_inv in Hs as [Hs Hx].
  destruct (entry_ltb e x) eqn:E1; [|destruct (entry_ltb x e) eqn:E2].
  - constructor; [by constructor|]. constructor; [done|].
    eapply Forall_impl; [exact Hx|]. intros y Hy. order_lia.
  - constructor; [by apply IH|]. rewrite Forall_forall in *. intros y Hy.
    apply set_insert_elem in Hy as [->|Hy]; [done|by apply Hx].
  - by constructor.
Qed.

Lemma split_lower_app k l : (split_lower k l).1 ++ (split_lower k l).2 = l.
Proof.
  induction l as [|x l IH]; simpl; [done|]. destruct (entry_ltb x k); [|done].
  destruct (split_lower k l). simpl in *. by rewrite IH.
Qed.

Lemma split_lower_spec k l : sorted l ->
  Forall (fun x => entry_ltb x k = true) (split_lower k l).1 /\
  Forall (fun x => entry_ltb x k = false) (split_lower k l).2.
Proof.
  induction l as [|x l IH]; simpl; intros Hs; [split; constructor|].
  apply StronglySorted_inv in Hs as [Hs Hx]. destruct (IH Hs) as [H1 H2].
  destruct (entry_ltb x k) eqn:E.
  - destruct (split_lower k l). simpl in *. split; [by constructor|done].
  - simpl. split; [constructor|]. constructor; [done|]. eapply Forall_impl; [exact Hx|].
    intros y Hy. apply not_true_iff_false. intros Hk. apply not_true_iff_false in E. apply E. order_lia.
Qed.

Lemma sorted_app_r l1 l2 : sorted (l1 ++ l2) -> sorted l2.
Proof. induction l1; simpl; [done|]. intros [? _]%StronglySorted_inv. eauto. Qed.

(** ** What has expired *)

(** The entry has expired at time [now]. *)
Definition due (now : Timestamp) (e : Entry) : Prop := us e <= microSecondsSinceEpoch now.

#[export] Instance due_dec now e : Decision (due now e).
Proof. unfold due. apply _. Defined.

Definition addresses_ok (l : list Entry) : Prop := Forall (fun e => snd e < ptr_max) l.

Lemma split_lower_due now l : sorted l -> addresses_ok l ->
  Forall (due now) (split_lower (now, ptr_max) l).1 /\
  Forall (fun e => ~ due now e) (split_lower (now, ptr_max) l).2.
Proof.
  intros Hs Ha. destruct (split_lower_spec (now, ptr_max) l Hs) as [H1 H2].
  unfold addresses_ok in Ha. rewrite <- (split_lower_app (now, ptr_max) l) in Ha.
  apply Forall_app in Ha as [Ha1 Ha2]. rewrite !Forall_forall in *. unfold due.
  split; intros e He.
  - specialize (H1 e He). apply entry_ltb_spec in H1. unfold us in *. simpl in H1. lia.
  - specialize (H2 e He). apply not_true_iff_false in H2. rewrite entry_ltb_spec in H2.
    specialize (Ha2 e He). unfold us in *. simpl in *. lia.
Qed.

Lemma getExpired_filter {F T C} now (q : TimerQueue F T C) :
  sorted (timers_ q) -> addresses_ok (timers_ q) ->
  fst (getExpired now q) = filter (due now) (timers_ q).
Proof.
  intros Hs Ha. destruct (split_lower_due now _ Hs Ha) as [H1 H2].
  unfold getExpired. pose proof (split_lower_app (now, ptr_max) (timers_ q)) as E.
  destruct (split_lower _ _) as [a b]. simpl in *. rewrite <- E, filter_app.
  by rewrite (filter_all _ a), (filter_none _ b), app_nil_r.
Qed.

(** ** The alarm *)

#[export] Instance alarm_timerfd_laws : TIMERFD_LAWS (option Z).
Proof.
  split; unfold timespec_ok, nanoseconds.
  - intros now [s n] a (Hs & Hn & _). simpl in *.
    by rewrite (proj2 (Z.leb_le _ _) (proj1 Hs)), (proj2 (Z.leb_le _ _) (proj1 Hn)), (proj2 (Z.ltb_lt _ _) (proj2 Hn)).
  - intros now [s n] a t (Hs & Hn & H0) Ht. cbn [tfd_ready tfd_settime alarm_timerfd fst snd] in *.
    rewrite (proj2 (Z.leb_le _ _) (proj1 Hs)), (proj2 (Z.leb_le _ _) (proj1 Hn)), (proj2 (Z.ltb_lt _ _) (proj2 Hn)).
    unfold nanoseconds. cbn [fst snd andb]. destruct (s * 10 ^ 9 + n =? 0) eqn:E; reflect_bools; cbn [snd].
    + destruct H0. replace n with 0 by lia. by replace s with 0 by lia.
    + apply eq_true_iff_eq. rewrite !Z.leb_le. lia.
  - intros now [m|] t; simpl; [|done]. intros Hm. by rewrite Hm.
  - intros now [m|]; simpl; [|done]. intros Hm. by rewrite Hm.
Qed.

(** The alarm [resetTimerfd] sets is a valid [timespec], never zero (a zero
    value would disarm the timer), never earlier than the expiration and at
    most 100 microseconds later than it or than now. *)
Lemma alarm_for_bounds expiration now
  (Hdif : microSecondsSinceEpoch expiration - microSecondsSinceEpoch now < 2 ^ 63) :
  let '(sec, nsec) := alarm_for expiration now in
  let dif := microSecondsSinceEpoch expiration - microSecondsSinceEpoch now in
  0 <= sec < 2 ^ 63 /\ 0 <= nsec < 1000000000 /\
  sec * 1000000000 + nsec = 1000 * Z.max 100 dif.
Proof.
  unfold alarm_for. set (dif := microSecondsSinceEpoch expiration - _) in *.
  assert ((if dif <? 100 then 100 else dif) = Z.max 100 dif) as -> by
    (destruct (dif <? 100) eqn:X; reflect_bools; lia).
  unfold kMicroSecondsPerSecond. set (d := Z.max 100 dif). assert (0 < d < 2 ^ 63) by lia.
  rewrite Z.quot_div_nonneg, Z.rem_mod_nonneg by lia.
  pose proof (Z.div_mod d (1000 * 1000) ltac:(lia)).
  pose proof (Z.mod_pos_bound d (1000 * 1000) ltac:(lia)).
  assert (0 <= d / (1000 * 1000)) by (apply Z.div_pos; lia). lia.
Qed.

End TimerQueue.
