(* ===== verification/TimerLoop.v ===== *)
(** * Timers in their event loop ([src/timer/TimerQueue.cc], the timer members
    of [src/net/EventLoop.h])

    A [TimerQueue] belongs to an [EventLoop]: timers are added through
    [runInLoop], the timerfd's channel is dispatched by the loop, and the
    callbacks run on its thread.  An [Env] is a loop with its queue, the
    clocks and the rest of the program, which is given by what each of its
    functions does ([user]): any number of [action]s on the loop.  [step]
    interleaves the turns of the loop with other threads and with time, which
    passes also inside an operation: before a reading of the clock, and
    between it and the system call that comes after it. *)

From Stdlib Require Import SpecFloat Sorted.
From S2P Require Import Prelude Channel EventLoop Timer.

Module TimerLoop.
Import Timestamp TimerQueue.

(** [std::bind(&TimerQueue::addTimerInLoop, this, timer)], or a function of
    the program. *)
Inductive Functor (F : Type) :=
  | addTimerInLoop_ (timer : Z)
  | user_ (f : F).
Arguments addTimerInLoop_ {F} timer.
Arguments user_ {F} f.

(** What the channels of the loop are bound to. *)
Inductive Callback := TimerQueue_handleRead | EventLoop_handleRead.

(** What the program does with a loop. *)
Inductive action (F : Type) :=
  | RunAt (time : Timestamp) (cb : F)
  | RunAfter (waitTime : double) (cb : F)
  | RunEvery (interval : double) (cb : F)
  | QueueInLoop (f : F)
  | Quit.
Arguments RunAt {F} time cb.
Arguments RunAfter {F} waitTime cb.
Arguments RunEvery {F} interval cb.
Arguments QueueInLoop {F} f.
Arguments Quit {F}.

Section TimerLoop.
(** The program's functions and its own state, the kernel's timerfd and
    eventfd, the poller. *)
Context {F U T P E : Type} `{TIMERFD T, Channel.POLLER P, EVENTFD E}.

Abbreviation Loop := (EventLoop.EventLoop (Functor F) P E Callback).
Abbreviation Queue := (TimerQueue F T Callback).

(** [clock] is the monotonic clock in microseconds, [offset] what the wall
    clock adds to it, [delays] the time that passes before each of the
    following readings of the wall clock, [lags] the time that passes between
    a reading and the system call on the timerfd that comes after it.
    [added], [ran] and [swallowed] are histories, which nothing reads: the
    timers constructed, with their address; the timers run, as they were then
    and with the time; and whether an alarm has been read from the timerfd
    when there were timers but none was found due. *)
Record Env := mkEnv {
  loop : Loop;
  queue : Queue;
  clock : Z;
  offset : Z;
  delays : list N;
  lags : list N;
  state : U;
  added : list (Z * Timer.Timer F);
  ran : list (Z * Timer.Timer F * Z);
  swallowed : bool
}.

Definition set_loop l e := mkEnv l (queue e) (clock e) (offset e) (delays e) (lags e) (state e) (added e) (ran e) (swallowed e).
Definition set_queue q e := mkEnv (loop e) q (clock e) (offset e) (delays e) (lags e) (state e) (added e) (ran e) (swallowed e).
Definition set_clocks c o d e := mkEnv (loop e) (queue e) c o d (lags e) (state e) (added e) (ran e) (swallowed e).
Definition set_lags l e := mkEnv (loop e) (queue e) (clock e) (offset e) (delays e) l (state e) (added e) (ran e) (swallowed e).
Definition set_state u e := mkEnv (loop e) (queue e) (clock e) (offset e) (delays e) (lags e) u (added e) (ran e) (swallowed e).
Definition add_added x e := mkEnv (loop e) (queue e) (clock e) (offset e) (delays e) (lags e) (state e) (added e ++ [x]) (ran e) (swallowed e).
Definition add_ran x e := mkEnv (loop e) (queue e) (clock e) (offset e) (delays e) (lags e) (state e) (added e) (ran e ++ [x]) (swallowed e).
Definition add_swallowed b e := mkEnv (loop e) (queue e) (clock e) (offset e) (delays e) (lags e) (state e) (added e) (ran e) (swallowed e || b).
Definition on_queue f e := set_queue (f (queue e)) e.

#[export] Instance Env_loop : EventLoop.HASLOOP Env (Functor F) P E Callback := {|
  EventLoop.get_loop := loop;
  EventLoop.set_loop := set_loop;
  EventLoop.get_set_loop _ _ := eq_refl
|}.

(** ** Clocks *)

(** The wall clock. *)
Definition wall e : Z := clock e + offset e.

Definition elapse (d : Z) e : Env := set_clocks (clock e + d) (offset e) (delays e) e.

(** [Timestamp::now()], some time after it was called. *)
Definition now e : Timestamp * Env :=
  let e1 := set_clocks (clock e + Z.of_N (default 0%N (head (delays e)))) (offset e) (tail (delays e)) e in
  (Timestamp.now (wall e1 / kMicroSecondsPerSecond) (wall e1 mod kMicroSecondsPerSecond), e1).

(** The time between a reading of the clock and the system call after it. *)
Definition lag e : Z := Z.of_N (default 0%N (head (lags e))).
Definition lapse e : Env := set_lags (tail (lags e)) (elapse (lag e) e).

(** ** Adding timers *)

(** A failing [timerfd_settime] is only logged; the difference of the
    timestamps may overflow. *)
Definition resetTimerfd (expiration : Timestamp) e : outcome Env :=
  let '(t, e1) := now e in
  check (in_i64 (microSecondsSinceEpoch expiration - microSecondsSinceEpoch t)) Overflow;;
  let e2 := lapse e1 in
  mret (on_queue (fun q => set_timerfd
          (snd (tfd_settime (clock e2) (alarm_for expiration t) (timerfd_ q))) q) e2).

Definition addTimerInLoop (timer : Z) e : outcome Env :=
  '(earliestChanged, q1) ← insert timer (queue e);
  let e1 := set_queue q1 e in
  if (earliestChanged : bool) then
    tm ← deref UseAfterFree (heap_ (queue e1) !! timer);
    resetTimerfd (Timer.expiration tm) e1
  else mret e1.

(** [operator new] gives an address that is not in use, if any. *)
Context (alloc : gmap Z (Timer.Timer F) -> option Z).

(** [addTimer] called on the thread [tid]. *)
Definition addTimer (tid : Z) (cb : F) (when : Timestamp) (interval : double) e : outcome Env :=
  timer ← deref BadAlloc (alloc (heap_ (queue e)));
  let tm := Timer.new_Timer cb when interval in
  let e1 := add_added (timer, tm) (on_queue (fun q => set_heap (<[timer := tm]> (heap_ q)) q) e) in
  EventLoop.runInLoop (fun _ => addTimerInLoop timer) tid (addTimerInLoop_ timer) e1.

(** [EventLoop::runAt], [runAfter] and [runEvery]. *)
Definition runAt tid (timestamp : Timestamp) (cb : F) e : outcome Env :=
  addTimer tid cb timestamp (S754_zero false) e.
Definition runAfter tid (waitTime : double) (cb : F) e : outcome Env :=
  let '(t, e1) := now e in time ← addTime t waitTime; runAt tid time cb e1.
Definition runEvery tid (interval : double) (cb : F) e : outcome Env :=
  let '(t, e1) := now e in timestamp ← addTime t interval; addTimer tid cb timestamp interval e1.

(** ** The program *)

(** What a function of the program does, given the program's state. *)
Context (user : F -> U -> list (action F) * U).

Definition act (tid : Z) (a : action F) e : outcome Env :=
  match a with
  | RunAt time cb => runAt tid time cb e
  | RunAfter waitTime cb => runAfter tid waitTime cb e
  | RunEvery interval cb => runEvery tid interval cb e
  | QueueInLoop f => mret (EventLoop.on_loop (EventLoop.queueInLoop tid (user_ f)) e)
  | Quit => mret (EventLoop.on_loop (EventLoop.quit tid) e)
  end.

Fixpoint acts (tid : Z) (l : list (action F)) e : outcome Env :=
  match l with
  | [] => mret e
  | a :: l' => e1 ← act tid a e; acts tid l' e1
  end.

(** Calling it on the loop's thread. *)
Definition call (f : F) e : outcome Env :=
  let '(l, u) := user f (state e) in
  acts (EventLoop.threadId_ (loop e)) l (set_state u e).

Definition exec (f : Functor F) e : outcome Env :=
  match f with
  | addTimerInLoop_ timer => addTimerInLoop timer e
  | user_ f => call f e
  end.

(** ** Expiry *)

Definition ReadTimerFd e : Env :=
  on_queue (fun q => set_timerfd (snd (tfd_read (clock e) (timerfd_ q))) q) e.

(** [Timer::run] of the timer at address [p]. *)
Definition run (p : Z) (timer : Timer.Timer F) e : outcome Env :=
  call (Timer.callback_ timer) (add_ran (p, timer, wall e) e).

Fixpoint run_expired (expired : list Entry) e : outcome Env :=
  match expired with
  | [] => mret e
  | it :: expired' =>
      timer ← deref UseAfterFree (heap_ (queue e) !! snd it);
      e1 ← run (snd it) timer e;
      run_expired expired' e1
  end.

(** One turn of the loop of [reset]. *)
Definition reset_one (it : Entry) e : outcome Env :=
  timer ← deref UseAfterFree (heap_ (queue e) !! snd it);
  e1 ← (if Timer.repeat timer then
          let '(t, e0) := now e in
          timer' ← Timer.restart t timer;
          '(_, q) ← insert (snd it) (set_heap (<[snd it := timer']> (heap_ (queue e0))) (queue e0));
          mret (set_queue q e0)
        else mret (on_queue (fun q => set_heap (delete (snd it) (heap_ q)) q) e));
  match timers_ (queue e1) with
  | [] => mret e1
  | first :: _ =>
      t ← deref UseAfterFree (heap_ (queue e1) !! snd first);
      resetTimerfd (Timer.expiration t) e1
  end.

Fixpoint reset (expired : list Entry) e : outcome Env :=
  match expired with
  | [] => mret e
  | it :: expired' => e1 ← reset_one it e; reset expired' e1
  end.

(** An alarm is read, there are timers and none is due at [t]. *)
Definition swallows (t : Timestamp) e : bool :=
  tfd_ready (clock e) (timerfd_ (queue e)) &&
  match timers_ (queue e), fst (getExpired t (queue e)) with _ :: _, [] => true | _, _ => false end.

Definition handleRead e : outcome Env :=
  let '(t, e0) := now e in
  let e1 := lapse e0 in
  let e2 := ReadTimerFd (add_swallowed (swallows t e1) e1) in
  let '(expired, q) := getExpired t (queue e2) in
  e3 ← run_expired expired (set_queue (set_calling true q) e2);
  reset expired (on_queue (set_calling false) e3).

(** ** The loop *)

(** The addresses of the two channels; what is dispatched for any other
    channel of the loop. *)
Context (timer_ch wakeup_ch : Z) (on_event : Z -> F).

Definition run_cb (cb : Callback) e : outcome Env :=
  match cb with
  | TimerQueue_handleRead => handleRead e
  | EventLoop_handleRead => mret (EventLoop.on_loop EventLoop.handleRead e)
  end.

Definition handleEvent (t c : Z) e : outcome Env :=
  if c =? timer_ch then
    Channel.handleEvent (fun e => Some (timerfdChannel_ (queue e))) (fun _ _ => true)
      (fun _ cb _ => run_cb cb) t e
  else if c =? wakeup_ch then
    Channel.handleEvent (fun e => Some (EventLoop.wakeupChannel_ (loop e))) (fun _ _ => true)
      (fun _ cb _ => run_cb cb) t e
  else call (on_event c) e.

(** What the kernel has to report for a channel. *)
Definition ready e (c : Z) : bool :=
  if c =? timer_ch then tfd_ready (clock e) (timerfd_ (queue e))
  else if c =? wakeup_ch then efd_ready (EventLoop.wakeupFd_ (loop e))
  else true.

(** [fillActiveChannels], for a readable channel. *)
Definition report (c : Z) e : Env :=
  if c =? timer_ch then
    on_queue (fun q => set_timerfdChannel (Channel.set_revents EPOLLIN (timerfdChannel_ q)) q) e
  else if c =? wakeup_ch then
    EventLoop.on_loop (fun l => EventLoop.set_wakeupChannel
      (Channel.set_revents EPOLLIN (EventLoop.wakeupChannel_ l)) l) e
  else e.

(** [Poller::poll] reports those channels of [cs] that are ready. *)
Definition poll (cs : list Z) (timeoutMs : Z) e : outcome (Env * Z * list Z) :=
  let active := filter (fun c => ready e c = true) cs in
  mret (foldr report e active, wall e, active).

(** [EventLoop::EventLoop]: the poller, then the timer queue, then the
    eventfd. *)
Definition new_Env (tid timerfd evfd : Z) (alarm : T) (efd : E) (poller : option P)
    (t_loopInThisThread : option Z) (clock offset : Z) (delays lags : list N) (u : U) : outcome Env :=
  p ← deref NullDeref poller;
  '(q, p1) ← new_TimerQueue tid timerfd timer_ch alarm TimerQueue_handleRead p;
  l ← EventLoop.new_EventLoop tid (Some p1) evfd efd wakeup_ch EventLoop_handleRead t_loopInThisThread;
  mret (mkEnv l q clock offset delays lags u [] [] false).

(** Time passes; the wall clock is set; another thread acts on the loop; the
    loop makes a turn, in which it finds out about the channels [cs].  The
    parts of a turn are labels of their own, so that other threads can get
    between them: the dispatch of a channel, which may have been reported a
    while ago, and the call of the functor at the head of the queue. *)
Inductive label :=
  | Elapse (d : N)
  | Adjust (d : Z)
  | Foreign (tid : Z) (a : action F)
  | Turn (cs : list Z)
  | Dispatch (c : Z)
  | RunFunctor.

Definition run_functor e : outcome Env :=
  match EventLoop.pendingFunctors_ (loop e) with
  | [] => mret e
  | f :: fs => exec f (EventLoop.on_loop (EventLoop.set_pending fs) e)
  end.

Definition step (lb : label) e : outcome Env :=
  match lb with
  | Elapse d => mret (elapse (Z.of_N d) e)
  | Adjust d => mret (set_clocks (clock e) (offset e + d) (delays e) e)
  | Foreign tid a => if EventLoop.isInLoopThread tid (loop e) then mret e else act tid a e
  | Turn cs => if EventLoop.quit_ (loop e) then mret e
               else EventLoop.loop_body exec (poll cs) handleEvent e
  | Dispatch c => handleEvent (wall e) c (report c e)
  | RunFunctor => run_functor e
  end.

Fixpoint steps (ls : list label) e : outcome Env :=
  match ls with
  | [] => mret e
  | lb :: ls' => e1 ← step lb e; steps ls' e1
  end.

End TimerLoop.
Arguments Env : clear implicits.
Arguments label : clear implicits.


(** ** What the queue keeps, whatever happens

    [dn] are the addresses of the timers [handleRead] has run and not yet
    reset, [td] the entries it has still to run, [pend] the timers of the
    [addTimerInLoop] functors that have still to run; [w] is the wall clock. *)

Section Kept.
Context {F : Type}.

Abbreviation Timer := (Timer.Timer F).
Implicit Types (h : gmap Z Timer) (tm : Timer) (dn pend : list Z) (td ts : list Entry)
  (ad : list (Z * Timer)) (rn : list (Z * Timer * Z)).

Definition due_at tm : Z := microSecondsSinceEpoch (Timer.expiration_ tm).

(** What [restart] adds to the time. *)
Definition period tm : Z :=
  default 0 (trunc (mul (Timer.interval_ tm) (of_int kMicroSecondsPerSecond))).

Definition oneshot (x : Z * Timer) : Prop := Timer.repeat_ (snd x) = false.

#[export] Instance oneshot_dec x : Decision (oneshot x).
Proof. unfold oneshot. apply _. Defined.

(** The one-shot timers that have still to run. *)
Definition waiting dn h : gmap Z Timer :=
  filter (fun x => oneshot x /\ fst x ∉ dn) h.

(** The same timer, possibly restarted. *)
Definition same_timer tm tm' : Prop :=
  Timer.callback_ tm' = Timer.callback_ tm /\ Timer.interval_ tm' = Timer.interval_ tm /\
  Timer.repeat_ tm' = Timer.repeat_ tm.

(** Two runs of a repeating timer are at least an interval apart. *)
Definition apart (x y : Z * Timer * Z) : Prop :=
  x.1.1 = y.1.1 -> Timer.repeat_ x.1.2 = true -> Timer.repeat_ y.1.2 = true ->
  x.2 + period x.1.2 <= y.2.

Definition addresses dn td ts pend : list Z := dn ++ map snd td ++ map snd ts ++ pend.

Record kept dn td pend (w : Z) h ts ad rn : Prop := mkKept {
  k_sorted : sorted ts;
  k_nodup : NoDup (addresses dn td ts pend);
  k_entry t p : (t, p) ∈ td ++ ts -> exists tm, h !! p = Some tm /\ Timer.expiration_ tm = t;
  k_used p : p ∈ dn ++ pend -> is_Some (h !! p);
  k_live p tm : h !! p = Some tm -> p ∈ addresses dn td ts pend /\ 0 < p < ptr_max /\
    Timer.repeat_ tm = positive (Timer.interval_ tm);
  k_once : filter oneshot ad ≡ₚ filter oneshot (map fst rn) ++ map_to_list (waiting dn h);
  k_repeat p tm : (p, tm) ∈ ad -> Timer.repeat_ tm = true ->
    exists tm', h !! p = Some tm' /\ same_timer tm tm';
  k_last p tm t : (p, tm, t) ∈ rn -> Timer.repeat_ tm = true ->
    exists tm', h !! p = Some tm' /\ same_timer tm tm' /\
      (if decide (p ∈ dn) then t <= w else t + period tm <= due_at tm');
  k_early : Forall (fun x => due_at x.1.2 <= x.2) rn;
  k_apart : StronglySorted apart rn
}.

Lemma kept_wall dn td pend w w' h ts ad rn : w <= w' ->
  kept dn td pend w h ts ad rn -> kept dn td pend w' h ts ad rn.
Proof.
  intros Hw []. split; try done. intros p tm t Hin Hr.
  destruct (k_last0 p tm t Hin Hr) as (tm' & ? & ? & ?). exists tm'. split_and!; [done..|].
  case_decide; lia.
Qed.

(** Between turns the clock may be set. *)
Lemma kept_adjust td pend w w' h ts ad rn :
  kept [] td pend w h ts ad rn -> kept [] td pend w' h ts ad rn.
Proof. intros []. split; try done. Qed.

Lemma addresses_pend dn td ts pend pend' : pend ≡ₚ pend' ->
  addresses dn td ts pend ≡ₚ addresses dn td ts pend'.
Proof. unfold addresses. by intros ->. Qed.

Lemma kept_pend dn td pend pend' w h ts ad rn : pend ≡ₚ pend' ->
  kept dn td pend w h ts ad rn -> kept dn td pend' w h ts ad rn.
Proof.
  intros Hp []. pose proof (addresses_pend dn td ts _ _ Hp) as Ha. split; try done.
  - by rewrite <- Ha.
  - intros p. rewrite <- Hp. apply k_used0.
  - intros p tm Hh. rewrite <- Ha. by apply k_live0.
Qed.

(** *** Adding a timer *)

Lemma waiting_insert dn p tm h : h !! p = None -> p ∉ dn ->
  map_to_list (waiting dn (<[p := tm]> h)) ≡ₚ filter oneshot [(p, tm)] ++ map_to_list (waiting dn h).
Proof.
  intros Hh Hp. unfold waiting. rewrite filter_cons, filter_nil. case_decide as Ho.
  - rewrite map_filter_insert_True by done. simpl. apply map_to_list_insert.
    apply map_lookup_filter_None_2. by left.
  - rewrite map_filter_insert_False by naive_solver. by rewrite delete_id by done.
Qed.

Lemma fresh_address dn td pend w h ts ad rn p :
  kept dn td pend w h ts ad rn -> h !! p = None -> p ∉ addresses dn td ts pend.
Proof.
  intros [] Hh. unfold addresses. rewrite (app_assoc (map snd td)), <- map_app.
  intros [X|[X|X]%elem_of_app]%elem_of_app.
  - destruct (k_used0 p) as [? ?]; [set_solver|congruence].
  - apply list_elem_of_fmap in X as ([t p'] & -> & (tm & ? & _)%k_entry0). simpl in *. congruence.
  - destruct (k_used0 p) as [? ?]; [set_solver|congruence].
Qed.

Lemma kept_new dn td pend w h ts ad rn p tm :
  h !! p = None -> 0 < p < ptr_max -> Timer.repeat_ tm = positive (Timer.interval_ tm) ->
  kept dn td pend w h ts ad rn ->
  kept dn td (pend ++ [p]) w (<[p := tm]> h) ts (ad ++ [(p, tm)]) rn.
Proof.
  intros Hh Hp Ht K. pose proof (fresh_address _ _ _ _ _ _ _ _ p K Hh) as Hn. destruct K.
  assert (forall p' tm', h !! p' = Some tm' -> <[p := tm]> h !! p' = Some tm') as Hkeep
    by (intros; rewrite lookup_insert_ne; congruence).
  assert (addresses dn td ts (pend ++ [p]) = addresses dn td ts pend ++ [p]) as Ha
    by (unfold addresses; by rewrite !app_assoc).
  split; try done.
  - rewrite Ha. apply NoDup_app. split_and!; [done| |apply NoDup_singleton]. set_solver.
  - intros t p' (tm' & ? & ?)%k_entry0. eauto.
  - intros p'. rewrite app_assoc, elem_of_app, list_elem_of_singleton.
    intros [[? ?%Hkeep]%k_used0| ->]; [eauto|]. rewrite lookup_insert_eq. eauto.
  - intros p' tm'. rewrite Ha. destruct (decide (p = p')) as [<-|Hne].
    + rewrite lookup_insert_eq. intros [= <-]. rewrite elem_of_app. split_and!; [right; by left|lia..|done].
    + rewrite lookup_insert_ne by done. intros (? & ? & ?)%k_live0. rewrite elem_of_app.
      split_and!; [by left|lia..|done].
  - rewrite filter_app, waiting_insert, k_once0 by (done || unfold addresses in Hn; set_solver).
    rewrite <- !app_assoc. apply Permutation_app_head, Permutation_app_comm.
  - intros p' tm' [Hin|[= -> ->]%list_elem_of_singleton]%elem_of_app Hr.
    + destruct (k_repeat0 p' tm' Hin Hr) as (? & ? & ?). eauto.
    + exists tm. by rewrite lookup_insert_eq.
  - intros p' tm' t Hin Hr. destruct (k_last0 p' tm' t Hin Hr) as (? & ? & ?). eauto.
Qed.

(** *** From a queued functor into the set *)

Lemma kept_insert dn td pend w h ts ad rn p tm :
  h !! p = Some tm -> kept dn td (p :: pend) w h ts ad rn ->
  kept dn td pend w h (set_insert (Timer.expiration_ tm, p) ts) ad rn /\
  set_insert (Timer.expiration_ tm, p) ts ≡ₚ (Timer.expiration_ tm, p) :: ts.
Proof.
  intros Hh []. assert ((Timer.expiration_ tm, p) ∉ ts) as He.
  { intros Hin%(list_elem_of_fmap_2 snd). simpl in Hin.
    unfold addresses in k_nodup0. rewrite !NoDup_app in k_nodup0. set_solver. }
  pose proof (set_insert_perm _ _ He) as Hperm. split; [|done].
  assert (addresses dn td ts (p :: pend) ≡ₚ
    addresses dn td (set_insert (Timer.expiration_ tm, p) ts) pend) as Ha.
  { unfold addresses. rewrite Hperm. simpl. by rewrite <- Permutation_middle. }
  split; try done.
  - by apply set_insert_sorted.
  - by rewrite <- Ha.
  - intros t p'. rewrite Hperm, elem_of_app, elem_of_cons.
    intros [X|[[= -> ->]|X]]; [apply k_entry0; set_solver|eauto|apply k_entry0; set_solver].
  - intros p' X. apply k_used0. set_solver.
  - intros p' tm'. rewrite <- Ha. apply k_live0.
Qed.

(** *** Expiry *)

Lemma kept_extract pend w h a b ad rn :
  kept [] [] pend w h (a ++ b) ad rn -> kept [] a pend w h b ad rn.
Proof.
  intros []. split; try done; try (by eapply sorted_app_r);
    unfold addresses in *; simpl in *; by rewrite map_app, <- app_assoc in *.
Qed.

Lemma waiting_run dn p tm h : h !! p = Some tm -> p ∉ dn ->
  map_to_list (waiting dn h) ≡ₚ filter oneshot [(p, tm)] ++ map_to_list (waiting (dn ++ [p]) h).
Proof.
  intros Hh Hp. rewrite filter_cons, filter_nil. case_decide as Ho.
  - replace (waiting (dn ++ [p]) h) with (delete p (waiting dn h)).
    + symmetry. apply map_to_list_delete. by apply map_lookup_filter_Some.
    + unfold waiting. rewrite <- map_filter_delete. apply map_filter_strong_ext. intros i x. simpl.
      rewrite lookup_delete_Some. set_solver.
  - simpl. replace (waiting dn h) with (waiting (dn ++ [p]) h); [done|]. apply map_filter_ext.
    intros i x Hi. simpl. split; [set_solver|]. intros [Hx Hn].
    split; [done|]. rewrite elem_of_app, list_elem_of_singleton.
    intros [?| ->]; [done|]. rewrite Hh in Hi. by injection Hi as ->.
Qed.

Lemma same_period tm tm' : same_timer tm tm' -> period tm' = period tm.
Proof. unfold period. by intros (_ & -> & _). Qed.

Lemma sorted_snoc {A} (R : A -> A -> Prop) l x :
  StronglySorted R l -> Forall (fun y => R y x) l -> StronglySorted R (l ++ [x]).
Proof.
  induction 1 as [|y l Hs IH Hy]; intros Hx; simpl; [repeat constructor|].
  apply Forall_cons in Hx as [Hyx Hx]. constructor; [by apply IH|]. apply Forall_app. by repeat constructor.
Qed.

(** Rounding keeps the sign. *)
Lemma trunc_round_nonneg m e l d :
  trunc (binary_round_aux 53 1024 false m e l) = Some d -> 0 <= d.
Proof.
  unfold binary_round_aux. destruct (shr_fexp _ _ _ _ _) as [r1 e1].
  destruct (shr_fexp _ _ _ _ _) as [r2 e2]. destruct (shr_m r2) as [|k|k]; simpl; [by intros [= <-]| |done].
  destruct (_ <=? _); [|done]. simpl. destruct (0 <=? e2) eqn:E; reflect_bools; intros [= <-].
  - apply Z.mul_nonneg_nonneg; [lia|]. apply Z.pow_nonneg. lia.
  - apply Z.div_pos; [lia|]. apply Z.pow_pos_nonneg; lia.
Qed.

Lemma period_nonneg tm : Timer.repeat_ tm = positive (Timer.interval_ tm) ->
  Timer.repeat_ tm = true -> 0 <= period tm.
Proof.
  intros -> Hp. unfold period. destruct (trunc _) as [d|] eqn:E; [|done]. simpl. revert Hp E.
  destruct (Timer.interval_ tm) as [s|s| |s m e]; [by destruct s|by destruct s|done|].
  destruct s; [done|]. intros _. unfold mul.
  replace (of_int kMicroSecondsPerSecond) with (S754_finite false 8589934592000000 (-33)) by reflexivity.
  apply trunc_round_nonneg.
Qed.

Lemma kept_run dn it td pend w h ts ad rn tm :
  h !! snd it = Some tm -> due_at tm <= w -> kept dn (it :: td) pend w h ts ad rn ->
  kept (dn ++ [snd it]) td pend w h ts ad (rn ++ [(snd it, tm, w)]).
Proof.
  intros Hh Hw []. destruct it as [t p]. simpl in *.
  assert (addresses dn ((t, p) :: td) ts pend = addresses (dn ++ [p]) td ts pend) as Ha
    by (unfold addresses; simpl; by rewrite <- app_assoc).
  assert (p ∉ dn) as Hn.
  { intros X. unfold addresses in k_nodup0. rewrite !NoDup_app in k_nodup0. set_solver. }
  destruct (k_live0 p tm Hh) as (_ & _ & Hrep).
  assert (forall tm0 t0, (p, tm0, t0) ∈ rn -> Timer.repeat_ tm0 = true ->
    same_timer tm0 tm /\ 0 <= period tm0 /\ t0 + period tm0 <= due_at tm) as Hlast.
  { intros tm0 t0 Hin Hr. destruct (k_last0 p tm0 t0 Hin Hr) as (tm' & E & Hs & Ht).
    rewrite Hh in E. injection E as <-. rewrite decide_False in Ht by done.
    split_and!; [done| |done]. rewrite <- (same_period _ _ Hs). apply period_nonneg; [done|].
    destruct Hs as (_ & _ & ->). done. }
  split; try done.
  - by rewrite <- Ha.
  - intros t' p' X. apply k_entry0. set_solver.
  - intros p'. rewrite !elem_of_app, list_elem_of_singleton.
    intros [[X| ->]|X]; [apply k_used0; set_solver|eauto|apply k_used0; set_solver].
  - intros p' tm'. rewrite <- Ha. apply k_live0.
  - rewrite k_once0, map_app, filter_app, <- app_assoc. simpl.
    apply Permutation_app_head. by apply waiting_run.
  - intros p' tm' t' [Hin|[= -> -> ->]%list_elem_of_singleton]%elem_of_app Hr.
    + destruct (k_last0 p' tm' t' Hin Hr) as (tm'' & Hh' & Hs & Ht). exists tm''. split_and!; [done..|].
      destruct (decide (p' = p)) as [->|Hne].
      * rewrite decide_True by set_solver. destruct (Hlast tm' t' Hin Hr) as (_ & ? & ?). lia.
      * repeat case_decide; try done; set_solver.
    + exists tm. split_and!; [done|by split_and!|]. rewrite decide_True by set_solver. lia.
  - apply Forall_app. by repeat constructor.
  - apply sorted_snoc; [done|]. apply Forall_forall. intros [[p' tm'] t'] Hin Hp Hr _. simpl in *. subst p'.
    destruct (Hlast tm' t' Hin Hr) as (_ & ? & ?). lia.
Qed.

(** *** Resetting a timer that has run *)

Lemma kept_free p dn pend w h ts ad rn tm :
  h !! p = Some tm -> Timer.repeat_ tm = false -> kept (p :: dn) [] pend w h ts ad rn ->
  kept dn [] pend w (delete p h) ts ad rn.
Proof.
  intros Hh Hr [].
  assert (p ∉ addresses dn [] ts pend /\ NoDup (addresses dn [] ts pend)) as [Hn Hnd]
    by (by apply NoDup_cons in k_nodup0).
  assert (forall p' tm' tm'', h !! p' = Some tm'' -> Timer.repeat_ tm' = true -> same_timer tm' tm'' -> p' <> p) as Hne.
  { intros p' tm' tm'' E Hr' (_ & _ & X) ->. congruence. }
  split; try done.
  - intros t p' Hin. destruct (k_entry0 t p' Hin) as (tm' & ? & ?). exists tm'. split; [|done].
    rewrite lookup_delete_ne; [done|]. intros ->. apply Hn. apply (list_elem_of_fmap_2 snd) in Hin.
    unfold addresses. simpl in *. set_solver.
  - intros p' Hin. rewrite lookup_delete_ne; [apply k_used0; set_solver|]. intros ->. apply Hn.
    unfold addresses. simpl. set_solver.
  - intros p' tm' [Hp' X]%lookup_delete_Some. apply k_live0 in X as (X & ? & ?).
    split_and!; [|lia..|done]. unfold addresses in *. simpl in *. set_solver.
  - rewrite k_once0. replace (waiting dn (delete p h)) with (waiting (p :: dn) h); [done|].
    apply map_filter_strong_ext. intros i x. simpl. rewrite lookup_delete_Some. set_solver.
  - intros p' tm' Hin Hr'. destruct (k_repeat0 p' tm' Hin Hr') as (tm'' & E & Hs). exists tm''. split; [|done].
    rewrite lookup_delete_ne; [done|]. by apply not_eq_sym, (Hne p' tm' tm'').
  - intros p' tm' t' Hin Hr'. destruct (k_last0 p' tm' t' Hin Hr') as (tm'' & E & Hs & Ht).
    assert (p' <> p) as Hp' by by apply (Hne p' tm' tm''). exists tm''.
    rewrite lookup_delete_ne by done. split_and!; [done..|].
    repeat case_decide; try done; set_solver.
Qed.

Lemma kept_renew p dn pend w h ts ad rn tm tm' :
  h !! p = Some tm -> Timer.repeat_ tm = true -> Timer.restart (mkTimestamp w) tm = Ret tm' ->
  kept (p :: dn) [] pend w h ts ad rn ->
  kept dn [] (p :: pend) w (<[p := tm']> h) ts ad rn /\ due_at tm' = w + period tm.
Proof.
  intros Hh Hr Hs [].
  assert (p ∉ addresses dn [] ts pend /\ NoDup (addresses dn [] ts pend)) as [Hn Hnd]
    by (by apply NoDup_cons in k_nodup0).
  unfold Timer.restart in Hs. rewrite Hr in Hs. apply bind_Ret in Hs as (t1 & Ht1 & [= <-]).
  assert (microSecondsSinceEpoch t1 = w + period tm) as Hdue.
  { unfold addTime, to_i64 in Ht1. unfold period. destruct (trunc _) as [d|]; [|done]. simpl in *.
    apply bind_Ret in Ht1 as (d' & Hd & Ht1). apply bind_Ret in Hd as ([] & _ & [= <-]).
    apply bind_Ret in Ht1 as ([] & _ & [= <-]). done. }
  set (tm' := Timer.mkTimer _ _ _ _). assert (same_timer tm tm') as Hsame by by split_and!.
  assert (addresses (p :: dn) [] ts pend ≡ₚ addresses dn [] ts (p :: pend)) as Ha.
  { unfold addresses. simpl. by rewrite <- !Permutation_middle. }
  assert (forall p' tm0, (exists tm1, h !! p' = Some tm1 /\ same_timer tm0 tm1) ->
    exists tm1, <[p := tm']> h !! p' = Some tm1 /\ same_timer tm0 tm1) as Hkeep.
  { intros p' tm0 (tm1 & E & X). destruct (decide (p' = p)) as [->|Hne]; [|exists tm1; by rewrite lookup_insert_ne].
    rewrite Hh in E. injection E as <-. exists tm'. rewrite lookup_insert_eq. split; [done|].
    destruct X as (? & ? & ?), Hsame as (? & ? & ?). split_and!; congruence. }
  split; [|done]. split; try done.
  - by rewrite <- Ha.
  - intros t p' Hin. destruct (k_entry0 t p' Hin) as (tm0 & ? & ?). exists tm0. split; [|done].
    rewrite lookup_insert_ne; [done|]. intros ->. apply Hn. apply (list_elem_of_fmap_2 snd) in Hin.
    unfold addresses. simpl in *. set_solver.
  - intros p' X. destruct (decide (p = p')) as [->|Hne]; [rewrite lookup_insert_eq; eauto|].
    rewrite lookup_insert_ne by done. apply k_used0. set_solver.
  - intros p' tm0. rewrite <- Ha. destruct (decide (p = p')) as [->|Hne].
    + rewrite lookup_insert_eq. intros [= <-]. destruct (k_live0 p' tm Hh) as (? & ? & ?).
      split_and!; [done|lia..|]. simpl. congruence.
    + rewrite lookup_insert_ne by done. apply k_live0.
  - rewrite k_once0. replace (waiting dn (<[p:=tm']> h)) with (waiting (p :: dn) h); [done|].
    apply map_filter_strong_ext. intros i x. simpl. unfold oneshot. simpl.
    destruct (decide (p = i)) as [->|Hne].
    + rewrite lookup_insert_eq. split; [set_solver|]. intros [[Ho _] [= <-]]. simpl in Ho. congruence.
    + rewrite lookup_insert_ne by done. set_solver.
  - intros p' tm0 Hin Hr0. by apply Hkeep, k_repeat0.
  - intros p' tm0 t0 Hin Hr0. destruct (k_last0 p' tm0 t0 Hin Hr0) as (tm1 & E & Hs1 & Ht).
    destruct (decide (p' = p)) as [->|Hne].
    + rewrite Hh in E. injection E as <-. exists tm'. rewrite lookup_insert_eq. split_and!; [done| |].
      * destruct Hs1 as (? & ? & ?), Hsame as (? & ? & ?). split_and!; congruence.
      * rewrite decide_True in Ht by set_solver. rewrite decide_False by (unfold addresses in Hn; set_solver).
        unfold due_at. simpl. rewrite Hdue, (same_period _ _ Hs1). lia.
    + exists tm1. rewrite lookup_insert_ne by done. split_and!; [done..|].
      repeat case_decide; try done; set_solver.
Qed.

End Kept.

(** ** The steps of an environment *)

(** The faults a timer operation can end in: an interval that does not fit a
    timestamp, two timestamps too far apart, no memory. *)
Definition timer_fault (f : fault) : Prop := f = BadConversion \/ f = Overflow \/ f = BadAlloc.

Definition safe {A} (Q : A -> Prop) (r : outcome A) : Prop :=
  match r with Ret a => Q a | Err f => timer_fault f end.

Lemma safe_bind {A B} (Q : A -> Prop) (R : B -> Prop) (m : outcome A) (k : A -> outcome B) :
  safe Q m -> (forall a, Q a -> safe R (k a)) -> safe R (m ≫= k).
Proof. destruct m; simpl; auto. Qed.

Lemma safe_mono {A} (Q R : A -> Prop) (m : outcome A) :
  safe Q m -> (forall a, Q a -> R a) -> safe R m.
Proof. destruct m; simpl; auto. Qed.

Lemma safe_addTime t x : safe (fun _ => True) (addTime t x).
Proof.
  unfold addTime, to_i64. destruct (trunc _); simpl; [|by left]. destruct (in_i64 _); simpl; [|by left].
  destruct (in_i64 _); simpl; [done|by right; left].
Qed.

Section Steps.
Context {F U T P E : Type} `{TIMERFD_LAWS T, Channel.POLLER P, EVENTFD E}.
Abbreviation env := (Env F U T P E).
Implicit Types (e : env) (dn pend : list Z) (td : list Entry).

(** A bound on the lags. *)
Context (D : N).

Definition prompt e : Prop := Forall (fun x => (x <= D)%N) (lags e).

Definition timers e := timers_ (queue e).
Definition heap e := heap_ (queue e).
Definition pending e := EventLoop.pendingFunctors_ (loop e).

Definition adding (fs : list (Functor F)) : list Z :=
  omap (fun f => match f with addTimerInLoop_ p => Some p | user_ _ => None end) fs.

(** [pend] are the timers of functors that are no longer queued. *)
Definition good dn td pend e : Prop :=
  kept dn td (pend ++ adding (pending e)) (wall e) (heap e) (timers e) (added e) (ran e).

(** The alarm will go off for the first timer of the set, not before it is
    due, and later by [D] at most, or by 100 microseconds from now. *)
Definition alarmed e : Prop :=
  match timers e with
  | [] => True
  | first :: _ => exists m,
      (forall t, clock e <= t -> tfd_ready t (timerfd_ (queue e)) = (m <=? t)) /\
      us first - offset e <= m <= Z.max (us first - offset e + Z.of_N D) (clock e + 100)
  end.

Definition alert e : Prop := prompt e /\ alarmed e.

(** What the functions of the program leave alone. *)
Record stays e e' : Prop := mkStays {
  s_ran : ran e' = ran e;
  s_timers x : x ∈ timers e -> x ∈ timers e';
  s_heap : heap e ⊆ heap e';
  s_offset : offset e' = offset e;
  s_clock : clock e <= clock e';
  s_thread : EventLoop.threadId_ (loop e') = EventLoop.threadId_ (loop e);
  s_channel : timerfdChannel_ (queue e') = timerfdChannel_ (queue e);
  s_pending : exists new, pending e' = pending e ++ new;
  s_alarm : alert e -> alert e';
  s_lags : lags e' `suffix_of` lags e;
  s_swallowed : swallowed e' = swallowed e
}.

#[export] Instance stays_preorder : PreOrder stays.
Proof.
  split.
  - intros e. split; try done. exists []. by rewrite app_nil_r.
  - intros e1 e2 e3 [] []. split; try congruence; auto; [by etrans|lia| |by etrans].
    destruct s_pending0 as [n1 E1], s_pending1 as [n2 E2]. exists (n1 ++ n2). by rewrite E2, E1, app_assoc.
Qed.

Lemma stays_wall e e' : stays e e' -> wall e <= wall e'.
Proof. intros []. unfold wall. lia. Qed.

(** *** Clocks *)

Lemma prompt_suffix e e' : lags e' `suffix_of` lags e -> prompt e -> prompt e'.
Proof. unfold prompt. intros [l ->] [_ ?]%Forall_app. done. Qed.

Lemma prompt_lag e : prompt e -> lag e <= Z.of_N D.
Proof. unfold prompt, lag. destruct (lags e); [simpl; lia|]. intros [? _]%Forall_cons. simpl. lia. Qed.

Lemma lag_nonneg e : 0 <= lag e.
Proof. unfold lag. lia. Qed.

Lemma tail_suffix {A} (l : list A) : tail l `suffix_of` l.
Proof. destruct l as [|x l]; [done|]. by apply suffix_cons_r. Qed.

Lemma alarmed_later e e' : queue e' = queue e -> offset e' = offset e -> clock e <= clock e' ->
  alarmed e -> alarmed e'.
Proof.
  unfold alarmed, timers. intros -> -> Hc. destruct (timers_ _) as [|first l]; [done|].
  intros (m & Hm & ?). exists m. split; [intros; apply Hm; lia|lia].
Qed.

Lemma now_spec e : exists d, 0 <= d /\
  now e = (mkTimestamp (wall e + d), set_clocks (clock e + d) (offset e) (tail (delays e)) e).
Proof.
  unfold now. set (d := Z.of_N _). exists d. split; [lia|]. f_equal. unfold wall. simpl.
  unfold Timestamp.now, kMicroSecondsPerSecond. f_equal.
  pose proof (Z.div_mod (clock e + d + offset e) (1000 * 1000) ltac:(lia)). lia.
Qed.

Lemma stays_clocks e d ds : 0 <= d -> stays e (set_clocks (clock e + d) (offset e) ds e).
Proof.
  intros Hd. split; try done; simpl; [lia|exists []; by rewrite app_nil_r|].
  intros [Hp Ha]. split; [done|]. revert Ha. apply alarmed_later; simpl; try done. lia.
Qed.

Lemma good_later dn td pend e d ds : 0 <= d -> good dn td pend e ->
  good dn td pend (set_clocks (clock e + d) (offset e) ds e).
Proof. intros Hd. apply kept_wall. unfold wall. simpl. lia. Qed.

(** *** The alarm *)

Lemma alarm_for_ok x t : microSecondsSinceEpoch x - microSecondsSinceEpoch t < 2 ^ 63 ->
  timespec_ok (alarm_for x t) /\
  nanoseconds (alarm_for x t) =
    1000 * Z.max 100 (microSecondsSinceEpoch x - microSecondsSinceEpoch t).
Proof.
  intros Hd. pose proof (alarm_for_bounds x t Hd) as A. unfold timespec_ok, nanoseconds.
  destruct (alarm_for x t) as [s n]. simpl. destruct A as (Hs & Hn & Ha).
  split; [|lia]. split_and!; try lia. intros [= -> ->]. lia.
Qed.

Lemma resetTimerfd_spec x e : safe (fun e' => exists d fd, 0 <= d /\
    e' = on_queue (set_timerfd fd)
      (set_lags (tail (lags e)) (set_clocks (clock e + d) (offset e) (tail (delays e)) e)) /\
    forall t, clock e' <= t -> tfd_ready t fd =
      (Z.max (clock e' + 100) (microSecondsSinceEpoch x - offset e + lag e) <=? t))
  (resetTimerfd x e).
Proof.
  unfold resetTimerfd. destruct (now_spec e) as (d & Hd & ->).
  destruct (in_i64 _) eqn:Hi; simpl; [|by right; left].
  unfold in_i64, microSecondsSinceEpoch in Hi. simpl in Hi. reflect_bools.
  destruct (alarm_for_ok x (mkTimestamp (wall e + d))) as [Hok Hns];
    [unfold microSecondsSinceEpoch; simpl; lia|].
  exists (d + lag e). eexists. pose proof (lag_nonneg e). split_and!; [lia|by rewrite Z.add_assoc|].
  simpl. intros t Ht. change (lag (set_clocks _ _ _ e)) with (lag e). rewrite settime_ready by (done || lia).
  rewrite Hns. unfold microSecondsSinceEpoch, wall. simpl. apply eq_true_iff_eq. rewrite !Z.leb_le. lia.
Qed.

(** *** Adding timers *)

(** What [insert] makes of the first entry. *)
Lemma set_insert_first x l :
  if match l with [] => true | it :: _ => lt (fst x) (fst it) end
  then set_insert x l = x :: l
  else exists it l' first l'', l = it :: l' /\ set_insert x l = first :: l'' /\ us first = us it.
Proof.
  destruct l as [|it l]; simpl; [done|]. destruct (lt (fst x) (fst it)) eqn:Hlt.
  - unfold entry_ltb. by rewrite Hlt.
  - exists it, l. destruct (entry_ltb x it) eqn:E1.
    + do 2 eexists. split_and!; [done..|]. unfold lt in Hlt. unfold us in *. apply entry_ltb_spec in E1.
      unfold us in E1. reflect_bools. lia.
    + destruct (entry_ltb it x); eauto 6.
Qed.

Lemma alarmed_first e e' : clock e' = clock e -> offset e' = offset e ->
  timerfd_ (queue e') = timerfd_ (queue e) ->
  (exists it l first l', timers e = it :: l /\ timers e' = first :: l' /\ us first = us it) ->
  alarmed e -> alarmed e'.
Proof.
  unfold alarmed. intros -> -> -> (it & l & first & l' & -> & -> & Hus). by rewrite Hus.
Qed.

Lemma addTimerInLoop_safe dn td pend p e : good dn td (p :: pend) e ->
  safe (fun e' => good dn td pend e' /\ stays e e' /\ pending e' = pending e /\
    exists t, (t, p) ∈ timers e') (addTimerInLoop p e).
Proof.
  intros G. unfold addTimerInLoop, insert, Timer.expiration. destruct (k_used _ _ _ _ _ _ _ _ G p) as [tm Hp]; [set_solver|].
  unfold heap in Hp. rewrite Hp. ostep. cbn [queue set_queue set_timers heap_].
  destruct (kept_insert _ _ _ _ _ _ _ _ p tm Hp G) as [K Hperm]. set (ts := set_insert _ (timers e)) in *.
  change (set_insert (Timer.expiration_ tm, p) (timers_ (queue e))) with ts.
  set (e1 := set_queue (set_timers ts (queue e)) e). assert (good dn td pend e1) as G1 by exact K.
  assert (forall x, x ∈ timers e -> x ∈ ts) as Hin by (intros x Hx; rewrite Hperm; by apply elem_of_cons; right).
  assert ((Timer.expiration_ tm, p) ∈ ts) as Hts by (rewrite Hperm; by apply elem_of_cons; left).
  pose proof (set_insert_first (Timer.expiration_ tm, p) (timers e)) as Hfirst. cbn [fst] in Hfirst.
  change (timers_ (queue e)) with (timers e).
  destruct (match timers e with [] => true | _ => _ end).
  - rewrite Hp. ostep. eapply safe_mono; [apply resetTimerfd_spec|].
    intros e' (d & fd & Hd & -> & Hfd). split_and!; [by apply (good_later _ _ _ e1)| |done|eauto].
    split; try done; simpl; [lia|exists []; by rewrite app_nil_r| |by apply tail_suffix].
    intros [Hpr _]. split; [by eapply prompt_suffix; [apply tail_suffix|]|]. apply prompt_lag in Hpr.
    pose proof (lag_nonneg e1). unfold alarmed, timers. simpl.
    unfold ts. rewrite Hfirst. eexists. split; [exact Hfd|].
    change (lag e1) with (lag e) in *. simpl. unfold us, Timer.expiration. simpl. lia.
  - simpl. split_and!; [done| |done|eauto]. split; try done; [exists []; by rewrite app_nil_r|].
    intros [Hpr Ha]. split; [done|]. revert Ha. by apply alarmed_first.
Qed.

(** *** What functions of the program do *)

Context (alloc : gmap Z (Timer.Timer F) -> option Z).

(** An allocated object is off the other ones, and not at the last address. *)
Definition alloc_law : Prop := forall h p, alloc h = Some p -> h !! p = None /\ 0 < p < ptr_max.

Context (Halloc : alloc_law).

Lemma adding_app fs gs : adding (fs ++ gs) = adding fs ++ adding gs.
Proof. apply omap_app. Qed.

Lemma stays_new e p tm : heap e !! p = None ->
  stays e (add_added (p, tm) (on_queue (fun q => set_heap (<[p := tm]> (heap_ q)) q) e)).
Proof. intros Hp. split; try done; [by apply insert_subseteq|exists []; by rewrite app_nil_r]. Qed.

Lemma stays_loop e (f : EventLoop.EventLoop (Functor F) P E Callback -> _) :
  EventLoop.threadId_ (f (loop e)) = EventLoop.threadId_ (loop e) ->
  (exists new, EventLoop.pendingFunctors_ (f (loop e)) = pending e ++ new) ->
  stays e (EventLoop.on_loop f e).
Proof. intros Ht Hn. by split. Qed.

Lemma queued tid (f : Functor F) e : let e' := EventLoop.on_loop (EventLoop.queueInLoop tid f) e in
  pending e' = pending e ++ [f] /\ stays e e'.
Proof.
  assert (pending (EventLoop.on_loop (EventLoop.queueInLoop tid f) e) = pending e ++ [f] /\
    EventLoop.threadId_ (EventLoop.queueInLoop tid f (loop e)) = EventLoop.threadId_ (loop e)) as [Hp Ht]
    by (unfold pending, EventLoop.on_loop, EventLoop.queueInLoop, EventLoop.wakeup_after_enqueue;
        simpl; by destruct (_ || _)).
  split; [exact Hp|]. apply stays_loop; [done|]. by exists [f].
Qed.

Lemma addTimer_safe tid dn td pend cb when interval e : good dn td pend e ->
  safe (fun e' => good dn td pend e' /\ stays e e') (addTimer alloc tid cb when interval e).
Proof.
  intros G. unfold addTimer. destruct (alloc _) as [p|] eqn:Ea; [|by right; right].
  apply Halloc in Ea as [Hp Hb]. ostep. set (tm := Timer.new_Timer cb when interval).
  set (e1 := add_added _ _). pose proof (stays_new e p tm Hp) as S1.
  assert (kept dn td ((pend ++ adding (pending e)) ++ [p]) (wall e1) (heap e1) (timers e1) (added e1) (ran e1)) as K
    by by apply kept_new.
  unfold EventLoop.runInLoop. destruct (EventLoop.isInLoopThread _ _).
  - assert (good dn td (p :: pend) e1) as G1
      by (eapply kept_pend; [|exact K]; symmetry; apply Permutation_cons_append).
    eapply safe_mono; [by apply addTimerInLoop_safe|]. intros e' (? & ? & _). split; [done|by etrans].
  - destruct (queued tid (addTimerInLoop_ p) e1) as [Q1 Q2]. split; [|by etrans].
    unfold good. rewrite Q1, adding_app. rewrite <- app_assoc in K. exact K.
Qed.

Lemma act_safe tid a dn td pend e : good dn td pend e ->
  safe (fun e' => good dn td pend e' /\ stays e e') (act alloc tid a e).
Proof.
  assert (forall e cb interval t (r : outcome Timestamp), safe (fun _ => True) r ->
    good dn td pend e -> forall e1, stays e1 e ->
    safe (fun e' => good dn td pend e' /\ stays e1 e')
      (x ← r; addTimer alloc tid cb (t x) interval e)) as Hlater.
  { intros e0 cb interval t r Hr G e1 S1. eapply safe_bind; [exact Hr|]. intros x _.
    eapply safe_mono; [by apply addTimer_safe|]. intros e2 [? ?]. split; [done|by etrans]. }
  intros G. destruct a as [time cb|d cb|d cb|f|]; cbn [act safe mret outcome_ret].
  - by apply addTimer_safe.
  - unfold runAfter. destruct (now_spec e) as (k & Hk & ->).
    apply (Hlater _ cb (S754_zero false) (fun x => x));
      [apply safe_addTime|by apply good_later|by apply stays_clocks].
  - unfold runEvery. destruct (now_spec e) as (k & Hk & ->).
    apply (Hlater _ cb d (fun x => x)); [apply safe_addTime|by apply good_later|by apply stays_clocks].
  - destruct (queued tid (user_ f) e) as [Q1 Q2]. split; [|exact Q2].
    unfold good. rewrite Q1, adding_app. simpl. by rewrite app_nil_r.
  - assert (pending (EventLoop.on_loop (EventLoop.quit tid) e) = pending e) as Q
      by (unfold pending, EventLoop.on_loop, EventLoop.quit; simpl; by case_match).
    split; [unfold good; by rewrite Q|]. apply stays_loop.
    + unfold EventLoop.quit. simpl. by case_match.
    + exists []. by rewrite app_nil_r.
Qed.

Context (user : F -> U -> list (action F) * U).

Lemma acts_safe tid l dn td pend : forall e, good dn td pend e ->
  safe (fun e' => good dn td pend e' /\ stays e e') (acts alloc tid l e).
Proof.
  induction l as [|a l IH]; intros e G; simpl; [done|].
  eapply safe_bind; [by apply act_safe|]. intros e1 [G1 S1].
  eapply safe_mono; [by apply IH|]. intros e2 [G2 S2]. split; [done|by etrans].
Qed.

Lemma call_safe f dn td pend e : good dn td pend e ->
  safe (fun e' => good dn td pend e' /\ stays e e') (call alloc user f e).
Proof.
  intros G. unfold call. destruct (user f (state e)) as [l u].
  eapply safe_mono; [apply (acts_safe _ l dn td pend (set_state u e)); exact G|].
  intros e' [? S]. split; [done|]. etrans; [|exact S]. split; try done. exists []. by rewrite app_nil_r.
Qed.

(** Running a functor takes its timer out of [pend]. *)
Lemma exec_safe f dn td pend e : good dn td (adding [f] ++ pend) e ->
  safe (fun e' => good dn td pend e' /\ stays e e' /\
    forall p, p ∈ adding [f] -> exists t, (t, p) ∈ timers e') (exec alloc user f e).
Proof.
  intros G. destruct f as [p|f]; simpl in *.
  - eapply safe_mono; [by apply addTimerInLoop_safe|]. intros e' (? & ? & _ & ?). split_and!; [done..|].
    by intros p' ->%list_elem_of_singleton.
  - eapply safe_mono; [by apply call_safe|]. intros e' [? ?]. split_and!; [done..|].
    by intros p' ?%elem_of_nil.
Qed.

(** *** Running and resetting the timers that are due *)

(** What every step of the loop's thread keeps. *)
Record goes e e' : Prop := mkGoes {
  g_offset : offset e' = offset e;
  g_clock : clock e <= clock e';
  g_thread : EventLoop.threadId_ (loop e') = EventLoop.threadId_ (loop e);
  g_channel : timerfdChannel_ (queue e') = timerfdChannel_ (queue e);
  g_pending : exists new, pending e' = pending e ++ new;
  g_ran : exists new, ran e' = ran e ++ new;
  g_lags : lags e' `suffix_of` lags e;
  g_swallowed : swallowed e' = false -> swallowed e = false
}.

#[export] Instance goes_preorder : PreOrder goes.
Proof.
  split.
  - intros e. split; try done; exists []; by rewrite app_nil_r.
  - intros e1 e2 e3 [] []. split; try congruence; [lia|..|by etrans|auto].
    + destruct g_pending0 as [n1 E1], g_pending1 as [n2 E2]. exists (n1 ++ n2). by rewrite E2, E1, app_assoc.
    + destruct g_ran0 as [n1 E1], g_ran1 as [n2 E2]. exists (n1 ++ n2). by rewrite E2, E1, app_assoc.
Qed.

Lemma stays_goes e e' : stays e e' -> goes e e'.
Proof. intros []. split; try done; [exists []; by rewrite app_nil_r|congruence]. Qed.

Lemma goes_prompt e e' : goes e e' -> prompt e -> prompt e'.
Proof. intros []. by apply prompt_suffix. Qed.

Lemma goes_wall e e' : goes e e' -> wall e <= wall e'.
Proof. intros []. unfold wall. lia. Qed.

(** The timers of [ex], as they were in [e], have been run. *)
Definition run_of e (ex : list Entry) (new : list (Z * Timer.Timer F * Z)) : Prop :=
  Forall2 (fun it x => x.1.1 = snd it /\ heap e !! snd it = Some x.1.2) ex new.

Lemma run_expired_safe td : forall dn pend e,
  good dn td pend e -> Forall (fun it => us it <= wall e) td ->
  safe (fun e' => good (dn ++ map snd td) [] pend e' /\ goes e e' /\ heap e ⊆ heap e' /\
      (forall x, x ∈ timers e -> x ∈ timers e') /\
      exists new, ran e' = ran e ++ new /\ run_of e td new)
    (run_expired alloc user td e).
Proof.
  induction td as [|it td IH]; intros dn pend e G Hd; simpl.
  - rewrite app_nil_r. split_and!; try done. exists []. rewrite app_nil_r. split; [done|constructor].
  - apply Forall_cons in Hd as [Hit Hd]. destruct it as [t p].
    destruct (k_entry _ _ _ _ _ _ _ _ G t p) as (tm & Hp & Ht); [by apply elem_of_app; left; left|].
    change (heap_ (queue e)) with (heap e). simpl. rewrite Hp. ostep. unfold run.
    set (e1 := add_ran (p, tm, wall e) e).
    assert (good (dn ++ [p]) td pend e1) as G1.
    { apply (kept_run dn (t, p)); [done| |exact G]. unfold due_at. by rewrite Ht. }
    eapply safe_bind; [by apply call_safe|]. intros e2 [G2 S2].
    eapply safe_mono.
    + apply IH; [exact G2|]. eapply Forall_impl; [exact Hd|]. intros x Hx.
      etrans; [exact Hx|exact (stays_wall _ _ S2)].
    + intros e3 (G3 & S3 & Hh & Ht3 & new & Hr & Hnew). rewrite <- app_assoc in G3. split_and!; [done| |..].
      * etrans; [|etrans; [by apply stays_goes|exact S3]].
        split; try done; [exists []; by rewrite app_nil_r|by eexists].
      * etrans; [exact (s_heap _ _ S2)|exact Hh].
      * intros x Hx. by apply Ht3, (s_timers _ _ S2).
      * exists ((p, tm, wall e) :: new). rewrite Hr, (s_ran _ _ S2). simpl. rewrite <- app_assoc. split; [done|].
        constructor; [done|]. unfold run_of in *. rewrite Forall2_lookup in *. intros i.
        specialize (Hnew i). inversion Hnew as [x y [Hx Hy] E1 E2|E1 E2]; constructor. split; [done|].
        destruct x as [t' p']. simpl in *.
        destruct (k_entry _ _ _ _ _ _ _ _ G t' p') as (tm' & Hp' & _).
        { apply elem_of_app; left; right. by eapply list_elem_of_lookup_2. }
        pose proof (lookup_weaken _ _ _ _ Hp' (s_heap _ _ S2)) as Hw. congruence.
Qed.

(** What [reset] makes of a timer that was run: a one-shot one is freed, a
    repeating one is in the set again, an interval after some time between
    [e] and [e']. *)
Definition renewed (p : Z) (tm : Timer.Timer F) e e' : Prop :=
  if Timer.repeat_ tm
  then exists tm', heap e' !! p = Some tm' /\ same_timer tm tm' /\
         (Timer.expiration_ tm', p) ∈ timers e' /\
         wall e + period tm <= due_at tm' <= wall e' + period tm
  else heap e' !! p = None.

Lemma rearm_safe dn pend e : good dn [] pend e ->
  safe (fun e' => good dn [] pend e' /\ goes e e' /\ ran e' = ran e /\ heap e' = heap e /\
      timers e' = timers e /\ (prompt e -> alarmed e'))
    match timers_ (queue e) with
    | [] => mret e
    | first :: _ =>
        t ← deref UseAfterFree (heap_ (queue e) !! snd first);
        resetTimerfd (Timer.expiration t) e
    end.
Proof.
  intros G. destruct (timers_ (queue e)) as [|[t p] l] eqn:El.
  - split_and!; try done. unfold alarmed, timers. by rewrite El.
  - destruct (k_entry _ _ _ _ _ _ _ _ G t p) as (tm & Hp & Ht); [unfold timers; rewrite El; by left|].
    unfold heap in Hp. simpl. rewrite Hp. ostep. eapply safe_mono; [apply resetTimerfd_spec|].
    intros e' (d & fd & Hd & -> & Hfd). split_and!; try done; [by apply good_later| |].
    + split; try done; simpl; [lia|exists []; by rewrite app_nil_r..|by apply tail_suffix].
    + intros Hpr%prompt_lag. pose proof (lag_nonneg e). unfold alarmed, timers. simpl. rewrite El.
      eexists. split; [exact Hfd|]. simpl. unfold us, Timer.expiration. simpl. rewrite Ht. lia.
Qed.

Lemma renewed_later p tm e0 e e' e1 : renewed p tm e e' ->
  wall e0 <= wall e -> wall e' <= wall e1 -> heap e1 !! p = heap e' !! p ->
  (forall x, x ∈ timers e' -> x ∈ timers e1) -> renewed p tm e0 e1.
Proof.
  unfold renewed. intros Hr Hw0 Hw1 Hh Ht. destruct (Timer.repeat_ tm); [|congruence].
  destruct Hr as (tm' & ? & ? & ? & ?). exists tm'. split_and!; [congruence|done|auto|lia..].
Qed.

Lemma reset_one_safe it dn pend tm e : good (snd it :: dn) [] pend e ->
  heap e !! snd it = Some tm ->
  safe (fun e' => good dn [] pend e' /\ goes e e' /\ ran e' = ran e /\
      (forall x, x ∈ timers e -> x ∈ timers e') /\
      (forall p, p <> snd it -> heap e' !! p = heap e !! p) /\
      renewed (snd it) tm e e' /\ (prompt e -> alarmed e'))
    (reset_one it e).
Proof.
  intros G Hp. destruct it as [t0 p]. unfold reset_one, Timer.repeat. cbn [snd] in *.
  change (heap_ (queue e)) with (heap e). rewrite Hp. ostep.
  apply (safe_bind (fun e1 => good dn [] pend e1 /\ goes e e1 /\ ran e1 = ran e /\
      (forall x, x ∈ timers e -> x ∈ timers e1) /\
      (forall p', p' <> p -> heap e1 !! p' = heap e !! p') /\ renewed p tm e e1)).
  - destruct (Timer.repeat_ tm) eqn:Er.
    + destruct (now_spec e) as (d & Hd & ->). set (e0 := set_clocks _ _ _ _).
      assert (good (p :: dn) [] pend e0) as G0 by by apply good_later.
      destruct (Timer.restart (mkTimestamp (wall e + d)) tm) as [tm'|f] eqn:Et; ostep.
      2: { unfold Timer.restart in Et. rewrite Er in Et. pose proof (safe_addTime (mkTimestamp (wall e + d))
             (Timer.interval_ tm)) as X. destruct (addTime _ _); [done|]. injection Et as <-. exact X. }
      assert (wall e0 = wall e + d) as Hw by (unfold wall; simpl; lia). rewrite <- Hw in Et.
      destruct (kept_renew _ _ _ _ _ _ _ _ _ _ Hp Er Et G0) as [K Hdue].
      destruct (kept_insert _ _ _ _ _ _ _ _ p tm' (lookup_insert_eq _ _ _) K) as [K' Hperm].
      unfold insert. cbn [heap_ set_heap queue e0 set_clocks]. change (heap_ (queue e)) with (heap e).
      rewrite lookup_insert_eq. ostep. split_and!; [exact K'|..].
      * split; try done; simpl; [lia|exists []; by rewrite app_nil_r..].
      * done.
      * intros x Hx. unfold timers. simpl. change (timers e0) with (timers e) in Hperm.
        rewrite Hperm. by apply elem_of_cons; right.
      * intros p' Hne. unfold heap. simpl. by rewrite lookup_insert_ne.
      * unfold renewed. rewrite Er. exists tm'. unfold heap, timers, wall in *. simpl in *.
        rewrite lookup_insert_eq. split_and!; [done| |by rewrite Hperm; apply elem_of_cons; left|lia..].
        unfold Timer.restart in Et. rewrite Er in Et. apply bind_Ret in Et as (? & _ & [= <-]). by split_and!.
    + split_and!; try done.
      * apply (kept_free p _ _ _ _ _ _ _ tm Hp Er G).
      * split; try done; exists []; by rewrite app_nil_r.
      * intros p' Hne. unfold heap. simpl. by rewrite lookup_delete_ne.
      * unfold renewed. rewrite Er. unfold heap. simpl. apply lookup_delete_eq.
  - intros e1 (G1 & S1 & Hr1 & Ht1 & Hh1 & Hren). eapply safe_mono; [by apply rearm_safe|].
    intros e2 (G2 & S2 & Hr2 & Hh2 & Ht2 & Ha). rewrite Hr2, Hh2, Ht2. split_and!; try done; [by etrans|..].
    + eapply renewed_later; [exact Hren|done|by apply goes_wall|by rewrite Hh2|by rewrite Ht2].
    + intros Hpr. apply Ha. by apply (goes_prompt e).
Qed.

Lemma reset_safe pend ex : forall e, good (map snd ex) [] pend e ->
  safe (fun e' => good [] [] pend e' /\ goes e e' /\ ran e' = ran e /\
      (forall x, x ∈ timers e -> x ∈ timers e') /\
      (forall p, p ∉ map snd ex -> heap e' !! p = heap e !! p) /\
      (forall it tm, it ∈ ex -> heap e !! snd it = Some tm -> renewed (snd it) tm e e') /\
      (if ex is [] then e' = e else prompt e -> alarmed e'))
    (reset ex e).
Proof.
  induction ex as [|it ex IH]; intros e G; simpl.
  - split_and!; try done. intros ? ? X. by apply elem_of_nil in X.
  - destruct (k_used _ _ _ _ _ _ _ _ G (snd it)) as [tm Hp]; [by left|].
    assert (snd it ∉ map snd ex) as Hn.
    { pose proof (k_nodup _ _ _ _ _ _ _ _ G) as X. unfold addresses in X. simpl in X.
      apply NoDup_cons in X as [X _]. set_solver. }
    eapply safe_bind; [by apply reset_one_safe|]. intros e1 (G1 & S1 & Hr1 & Ht1 & Hh1 & Hren & Ha).
    eapply safe_mono; [by apply IH|]. intros e2 (G2 & S2 & Hr2 & Ht2 & Hh2 & Hren2 & Ha2).
    split_and!; [done|by etrans|congruence|by auto| | |].
    + intros p [Hp1 Hp2]%not_elem_of_cons. rewrite Hh2 by done. by apply Hh1.
    + intros it' tm' [->|Hin]%elem_of_cons Hp'.
      * rewrite Hp in Hp'. injection Hp' as <-.
        eapply renewed_later; [exact Hren|done|by apply goes_wall|by apply Hh2|done].
      * assert (snd it' <> snd it) as Hne by (intros Heq; apply Hn; rewrite <- Heq; by apply list_elem_of_fmap_2).
        eapply (renewed_later _ _ _ e1); [apply Hren2; [done|by rewrite Hh1]|by apply goes_wall|done..].
    + intros Hpr. destruct ex; [rewrite Ha2; by apply Ha|]. apply Ha2. by apply (goes_prompt e).
Qed.

Lemma good_addresses dn td pend e : good dn td pend e -> addresses_ok (timers e).
Proof.
  intros G. apply Forall_forall. intros [t0 p] Hin.
  destruct (k_entry _ _ _ _ _ _ _ _ G t0 p) as (tm & Hp & _); [by apply elem_of_app; right|].
  apply (k_live _ _ _ _ _ _ _ _ G) in Hp as (_ & ? & _). simpl. lia.
Qed.

(** [handleRead] when the clock reads [t]. *)
Lemma handleRead_safe pend e : good [] [] pend e ->
  let t := fst (now e) in
  let ex := filter (due t) (timers e) in
  safe (fun e' => good [] [] pend e' /\ goes e e' /\
      (exists new, ran e' = ran e ++ new /\ run_of e ex new) /\
      (forall it tm, it ∈ timers e -> heap e !! snd it = Some tm ->
         if decide (due t it) then renewed (snd it) tm e e'
         else it ∈ timers e' /\ heap e' !! snd it = Some tm) /\
      (prompt e -> ex <> [] \/ alarmed e /\ swallowed e' = false -> alarmed e'))
    (handleRead alloc user e).
Proof.
  intros G. unfold handleRead. destruct (now_spec e) as (d & Hd & ->). cbn [fst].
  set (t := mkTimestamp (wall e + d)). set (e1 := lapse _). pose proof (lag_nonneg e).
  assert (good [] [] pend e1) as G1 by (apply (good_later [] [] pend (set_clocks _ _ _ e)); [done|by apply good_later]).
  pose proof (good_addresses _ _ _ _ G) as Ha.
  pose proof (split_lower_due t (timers e) (k_sorted _ _ _ _ _ _ _ _ G) Ha) as [D1 D2].
  pose proof (getExpired_filter t (queue e) (k_sorted _ _ _ _ _ _ _ _ G) Ha) as Hf.
  pose proof (split_lower_app (t, ptr_max) (timers e)) as Happ.
  set (b := swallows t e1).
  assert (b = tfd_ready (clock e1) (timerfd_ (queue e)) &&
    match timers e, fst (getExpired t (queue e)) with _ :: _, [] => true | _, _ => false end) as Hb by done.
  clearbody b. unfold getExpired in *. change (timers_ (queue (ReadTimerFd (add_swallowed b e1)))) with (timers e).
  change (timers_ (queue e)) with (timers e) in *.
  destruct (split_lower (t, ptr_max) (timers e)) as [ex rest]. cbn [fst snd] in *. rewrite <- Hf. clear Hf.
  set (e2 := set_queue _ (ReadTimerFd _)).
  assert (good [] ex pend e2) as G2 by (apply (kept_extract _ _ _ ex rest); rewrite Happ; exact G1).
  assert (goes e e2) as S2.
  { split; try done; simpl; [change (clock e <= clock e + d + lag e); lia|exists []; by rewrite app_nil_r..|apply tail_suffix|].
    by destruct (swallowed e). }
  apply (safe_bind (fun e3 => good (map snd ex) [] pend e3 /\ goes e2 e3 /\ heap e2 ⊆ heap e3 /\
    (forall x, x ∈ rest -> x ∈ timers e3) /\ exists new, ran e3 = ran e ++ new /\ run_of e ex new /\
    (ex = [] -> e3 = e2))).
  - destruct ex as [|it ex]; [split_and!; try done; exists []; rewrite app_nil_r; by repeat constructor|].
    eapply safe_mono; [apply (run_expired_safe (it :: ex) [] pend e2 G2)|].
    { eapply Forall_impl; [exact D1|]. intros x Hx. unfold due in Hx. simpl in Hx. unfold wall in Hx. simpl in Hx.
      change (us x <= clock e + d + lag e + offset e). lia. }
    intros e3 (G3 & S3 & Hh3 & Ht3 & new & Hr3 & Hnew). split_and!; try done. by exists new.
  - intros e3 (G3 & S3 & Hh3 & Ht3 & new & Hr3 & Hnew & Hnil).
    set (e4 := on_queue (set_calling false) e3).
    assert (good (map snd ex) [] pend e4) as G4 by exact G3.
    eapply safe_mono; [by apply reset_safe|]. intros e5 (G5 & S5 & Hr5 & Ht5 & Hh5 & Hren & Hend).
    assert (goes e e4) as S4 by (etrans; [exact S2|]; etrans; [exact S3|];
      split; try done; exists []; by rewrite app_nil_r).
    split_and!; [done|by etrans|exists new; by rewrite Hr5| |].
    + intros it tm Hit Hp. assert (heap e4 !! snd it = Some tm) as Hp4 by by eapply lookup_weaken.
      rewrite <- Happ in Hit. rewrite !Forall_forall in *. apply elem_of_app in Hit as [Hit|Hit].
      * rewrite decide_True by by apply D1.
        eapply (renewed_later _ _ _ e4); [by apply Hren|by apply goes_wall|done..].
      * rewrite decide_False by by apply D2. split; [by apply Ht5, Ht3|]. rewrite Hh5; [done|].
        intros Hex. pose proof (k_nodup _ _ _ _ _ _ _ _ G2) as X. unfold addresses in X.
        change (timers e2) with rest in X. apply NoDup_app in X as (_ & _ & X). apply NoDup_app in X as (_ & X & _).
        apply (X _ Hex). apply elem_of_app; left. by apply list_elem_of_fmap_2.
    + intros Hpr Hor. destruct ex as [|it ex]; [|apply Hend; by apply (goes_prompt e)].
      destruct Hor as [?|[Hal Hsw]]; [done|].
      rewrite Hend in Hsw |- *. specialize (Hnil eq_refl). subst e3. simpl in Happ. subst rest.
      unfold alarmed. change (timers e4) with (timers e). unfold alarmed in Hal.
      destruct (timers e) as [|first l]; [done|]. destruct Hal as (m & Hm & Hbd). exists m.
      assert (clock e <= clock e1) as Hc1 by (change (clock e <= clock e + d + lag e); lia).
      change (clock e4) with (clock e1). change (offset e4) with (offset e).
      assert (tfd_ready (clock e1) (timerfd_ (queue e)) = false) as Er.
      { change (swallowed e4) with (swallowed e || b) in Hsw. rewrite Hb in Hsw.
        destruct (swallowed e), (tfd_ready _ _); done. }
      change (timerfd_ (queue e4)) with (snd (tfd_read (clock e1) (timerfd_ (queue e)))).
      rewrite read_keeps by done. split; [intros; apply Hm; lia|lia].
Qed.

(** *** Dispatching a channel *)

(** The timer at [p] was run between [e] and [e'], being [tm]. *)
Definition ran_between e e' (p : Z) (tm : Timer.Timer F) : Prop :=
  exists new t, ran e' = ran e ++ new /\ (p, tm, t) ∈ new.

(** What the dispatch of an event does: a timer in the set is run or stays
    there. *)
Record moves e e' : Prop := mkMoves {
  m_goes : goes e e';
  m_alarm : swallowed e' = false -> alert e -> alert e';
  m_timers it tm : it ∈ timers e -> heap e !! snd it = Some tm ->
    ran_between e e' (snd it) tm \/ (it ∈ timers e' /\ heap e' !! snd it = Some tm)
}.

Lemma ran_between_after e1 e2 e3 p tm : goes e1 e2 -> ran_between e2 e3 p tm -> ran_between e1 e3 p tm.
Proof.
  intros [] (new & t & Hr & Hin). destruct g_ran0 as [n1 E1]. exists (n1 ++ new), t.
  split; [by rewrite Hr, E1, app_assoc|]. apply elem_of_app. by right.
Qed.

Lemma ran_between_before e1 e2 e3 p tm : ran_between e1 e2 p tm ->
  (exists new, ran e3 = ran e2 ++ new) -> ran_between e1 e3 p tm.
Proof.
  intros (new & t & Hr & Hin) [n2 E2]. exists (new ++ n2), t.
  split; [by rewrite E2, Hr, app_assoc|]. apply elem_of_app. by left.
Qed.

#[export] Instance moves_preorder : PreOrder moves.
Proof.
  split; [by split; auto|]. intros e1 e2 e3 [S1 A1 T1] [S2 A2 T2].
  split; [by etrans|intros Hs Ha; apply A2, A1; [done|by apply (g_swallowed _ _ S2)|done]|].
  intros it tm Hit Hp. destruct (T1 it tm Hit Hp) as [Hr|[Hit2 Hp2]].
  - left. by eapply ran_between_before; [|destruct S2].
  - destruct (T2 it tm Hit2 Hp2) as [Hr|?]; [left|by right]. by eapply ran_between_after.
Qed.

Lemma stays_moves e e' : stays e e' -> moves e e'.
Proof.
  intros S. split; [by apply stays_goes|intros _; apply S|]. intros it tm Hit Hp. right. destruct S. split; [auto|].
  by eapply lookup_weaken.
Qed.

Lemma run_of_in e ex new it tm : run_of e ex new -> it ∈ ex -> heap e !! snd it = Some tm ->
  exists t, (snd it, tm, t) ∈ new.
Proof.
  intros Hnew Hit Hp. apply list_elem_of_lookup in Hit as [i Hi].
  destruct (Forall2_lookup_l _ _ _ _ _ Hnew Hi) as ([[p' tm'] t] & Hx & Hp' & Htm). simpl in *. subst p'.
  exists t. rewrite Hp in Htm. injection Htm as <-. by eapply list_elem_of_lookup_2.
Qed.

Lemma handleRead_moves pend e : good [] [] pend e ->
  safe (fun e' => good [] [] pend e' /\ moves e e' /\
      forall it tm, it ∈ timers e -> us it <= wall e -> heap e !! snd it = Some tm ->
        ran_between e e' (snd it) tm)
    (handleRead alloc user e).
Proof.
  intros G. eapply safe_mono; [by apply handleRead_safe|].
  intros e' (G' & S & (new & Hr & Hnew) & Hkeep & Ha).
  assert (forall it tm, it ∈ timers e -> due (fst (now e)) it -> heap e !! snd it = Some tm ->
    ran_between e e' (snd it) tm) as Hran.
  { intros it tm Hit Hdue Hp. destruct (run_of_in _ _ _ it tm Hnew) as [t Ht];
      [by apply list_elem_of_filter|done|]. by exists new, t. }
  split_and!; [done| |].
  - split; [done|intros Hs [Hpr Hal]; split; [by apply (goes_prompt e)|auto]|].
    intros it tm Hit Hp. specialize (Hkeep it tm Hit Hp).
    destruct (decide (due (fst (now e)) it)); [left; by apply Hran|by right].
  - intros it tm Hit Hus Hp. apply Hran; [done| |done]. destruct (now_spec e) as (d & Hd & ->).
    unfold due. simpl. lia.
Qed.

Context (timer_ch wakeup_ch : Z) (on_event : Z -> F).

Lemma run_cb_safe cb pend e : good [] [] pend e ->
  safe (fun e' => good [] [] pend e' /\ moves e e') (run_cb alloc user cb e).
Proof.
  intros G. destruct cb; simpl.
  - eapply safe_mono; [by apply handleRead_moves|]. naive_solver.
  - split; [exact G|]. apply stays_moves, stays_loop; [done|]. exists []. by rewrite app_nil_r.
Qed.

(** A dispatch to callbacks of the loop. *)
Lemma dispatch_safe this alive t pend e : (forall e, is_Some (this e)) -> good [] [] pend e ->
  safe (fun e' => good [] [] pend e' /\ moves e e')
    (Channel.handleEvent this alive (fun _ cb _ => run_cb alloc user cb) t e).
Proof.
  intros Hthis. set (R := fun e r => safe (fun e' => good [] [] pend e' /\ moves e e') r).
  assert (forall e1 m k, good [] [] pend e1 -> R e1 m ->
    (forall e2, good [] [] pend e2 -> R e2 (k e2)) -> R e1 (m ≫= k)) as Hbind.
  { intros e1 m k G Hm Hk. eapply safe_bind; [exact Hm|]. intros e2 [G2 M2].
    eapply safe_mono; [by apply Hk|]. intros e3 [? ?]. split; [done|by etrans]. }
  assert (forall (b : bool) guard sel e1, good [] [] pend e1 ->
    R e1 (if b then Channel.call this (fun _ cb _ => run_cb alloc user cb) guard sel t e1 else mret e1)) as Hcall.
  { intros b guard sel e1 G. destruct b; [|by split]. unfold Channel.call.
    destruct (Hthis e1) as [c ->]. ostep. destruct (sel c); [by apply run_cb_safe|by split]. }
  assert (forall guard e1, good [] [] pend e1 ->
    R e1 (Channel.handleEventWithGuard this (fun _ cb _ => run_cb alloc user cb) guard t e1)) as Hguard.
  { intros guard e1 G. unfold Channel.handleEventWithGuard. destruct (Hthis e1) as [c1 ->]. ostep.
    apply Hbind; [done|by apply Hcall|]. intros e2 G2. destruct (Hthis e2) as [c2 ->]. ostep.
    apply Hbind; [done|by apply Hcall|]. intros e3 G3. destruct (Hthis e3) as [c3 ->]. ostep.
    apply Hbind; [done|by apply Hcall|]. intros e4 G4. destruct (Hthis e4) as [c4 ->]. ostep.
    by apply Hcall. }
  intros G. unfold Channel.handleEvent. destruct (Hthis e) as [c ->]. ostep.
  destruct (Channel.tied_ c); [|by apply Hguard]. destruct (Channel.tie_ c) as [obj|]; [|by split].
  destruct (alive obj e); [by apply Hguard|by split].
Qed.

Lemma handleEvent_safe t c pend e : good [] [] pend e ->
  safe (fun e' => good [] [] pend e' /\ moves e e') (handleEvent alloc user timer_ch wakeup_ch on_event t c e).
Proof.
  intros G. unfold handleEvent. destruct (c =? timer_ch); [by apply dispatch_safe|].
  destruct (c =? wakeup_ch); [by apply dispatch_safe|].
  eapply safe_mono; [by apply call_safe|]. intros e' [? ?]. split; [done|by apply stays_moves].
Qed.

(** *** A turn of the loop *)

(** Changes of flags and reported events. *)
Record alike e e' : Prop := mkAlike {
  l_heap : heap e' = heap e;
  l_timers : timers e' = timers e;
  l_timerfd : timerfd_ (queue e') = timerfd_ (queue e);
  l_clock : clock e' = clock e;
  l_offset : offset e' = offset e;
  l_added : added e' = added e;
  l_ran : ran e' = ran e;
  l_pending : pending e' = pending e;
  l_lags : lags e' = lags e;
  l_swallowed : swallowed e' = swallowed e
}.

#[export] Instance alike_preorder : PreOrder alike.
Proof. split; [by split|]. intros e1 e2 e3 [] []. split; congruence. Qed.

Lemma alike_good dn td pend e e' : alike e e' -> good dn td pend e -> good dn td pend e'.
Proof. intros []. unfold good, wall. congruence. Qed.

Lemma alike_alert e e' : alike e e' -> alert e -> alert e'.
Proof.
  intros []. unfold alert, prompt, alarmed. by rewrite l_lags0, l_timers0, l_timerfd0, l_clock0, l_offset0.
Qed.

Lemma alike_report cs e : alike e (foldr (report timer_ch wakeup_ch) e cs).
Proof.
  induction cs as [|c cs IH]; simpl; [done|]. etrans; [exact IH|]. unfold report. by repeat case_match.
Qed.

(** The channel of the timerfd is bound to [handleRead]. *)
Definition wired (c : Channel.Channel Callback) : Prop :=
  Channel.readCallback_ c = Some TimerQueue_handleRead /\ Channel.tied_ c = false.

Lemma report_wired cs e : wired (timerfdChannel_ (queue e)) ->
  let c := timerfdChannel_ (queue (foldr (report timer_ch wakeup_ch) e cs)) in
  wired c /\ (timer_ch ∈ cs -> Channel.revents_ c = EPOLLIN).
Proof.
  intros Hw. induction cs as [|x cs [IH1 IH2]]; simpl; [split; [done|]; by intros ?%elem_of_nil|].
  unfold report at 1 3. destruct (x =? timer_ch) eqn:Ex; reflect_bools; simpl.
  - split; [exact IH1|done].
  - assert (timer_ch ∈ x :: cs -> timer_ch ∈ cs) as Hin by (intros [->|?]%elem_of_cons; done).
    destruct (x =? wakeup_ch); simpl; auto.
Qed.

Lemma handleEvent_timer t e : wired (timerfdChannel_ (queue e)) ->
  Channel.revents_ (timerfdChannel_ (queue e)) = EPOLLIN ->
  (forall e', handleRead alloc user e = Ret e' -> timerfdChannel_ (queue e') = timerfdChannel_ (queue e)) ->
  handleEvent alloc user timer_ch wakeup_ch on_event t timer_ch e = handleRead alloc user e.
Proof.
  intros [Hr Ht] Hev Hsame. unfold handleEvent. rewrite Z.eqb_refl. unfold Channel.handleEvent. ostep.
  rewrite Ht. unfold Channel.handleEventWithGuard. ostep. rewrite Hev.
  change (Channel.has EPOLLIN EPOLLHUP && negb (Channel.has EPOLLIN EPOLLIN)) with false. ostep. rewrite Hev.
  change (Channel.has EPOLLIN EPOLLERR) with false. ostep. rewrite Hev.
  change (Channel.has EPOLLIN (Z.lor EPOLLIN EPOLLPRI)) with true. unfold Channel.call. ostep. rewrite Hr. cbn [run_cb].
  destruct (handleRead alloc user e) as [e'|f] eqn:E1; [|done]. ostep. by rewrite Hsame, Hev by done.
Qed.

Abbreviation handle := (handleEvent alloc user timer_ch wakeup_ch on_event).

Lemma handle_active_safe t cs pend : forall e, good [] [] pend e ->
  safe (fun e' => good [] [] pend e' /\ moves e e') (EventLoop.handle_active handle t cs e).
Proof.
  induction cs as [|c cs IH]; intros e G; simpl; [by split|].
  eapply safe_bind; [by apply handleEvent_safe|]. intros e1 [G1 M1].
  eapply safe_mono; [by apply IH|]. intros e2 [? ?]. split; [done|by etrans].
Qed.

(** When the timerfd is among the channels, what is due is run. *)
Lemma handle_active_timer t cs pend it tm : forall e, good [] [] pend e ->
  wired (timerfdChannel_ (queue e)) -> Channel.revents_ (timerfdChannel_ (queue e)) = EPOLLIN ->
  timer_ch ∈ cs -> it ∈ timers e -> us it <= wall e -> heap e !! snd it = Some tm ->
  safe (fun e' => good [] [] pend e' /\ ran_between e e' (snd it) tm)
    (EventLoop.handle_active handle t cs e).
Proof.
  induction cs as [|c cs IH]; intros e G Hw Hev Hin Hit Hus Hp; [by apply elem_of_nil in Hin|].
  cbn [EventLoop.handle_active].
  assert (forall e1, good [] [] pend e1 -> ran_between e e1 (snd it) tm ->
    safe (fun e' => good [] [] pend e' /\ ran_between e e' (snd it) tm) (EventLoop.handle_active handle t cs e1))
    as Hrest.
  { intros e1 G1 Hr. eapply safe_mono; [by apply handle_active_safe|]. intros e2 [G2 [[] _ _]].
    split; [done|]. by eapply ran_between_before. }
  pose proof (handleRead_moves pend e G) as Hrd. destruct (decide (c = timer_ch)) as [->|Hne].
  - rewrite handleEvent_timer; [|done..|].
    + eapply safe_bind; [exact Hrd|]. intros e1 (G1 & _ & Hr). by apply Hrest, Hr.
    + intros e' Heq. rewrite Heq in Hrd. destruct Hrd as (_ & [[] _ _] & _). done.
  - eapply safe_bind; [by apply handleEvent_safe|]. intros e1 [G1 M1].
    destruct (m_timers _ _ M1 it tm Hit Hp) as [Hr|[Hit1 Hp1]]; [by apply Hrest|].
    pose proof (m_goes _ _ M1) as S1. eapply safe_mono.
    + apply IH; try done; [by rewrite (g_channel _ _ S1)..|by apply elem_of_cons in Hin as [?|?]|].
      etrans; [exact Hus|by apply goes_wall].
    + intros e2 [? ?]. split; [done|]. by eapply ran_between_after.
Qed.

(** The functors that were queued have run, and their timers are in the set. *)
Lemma run_functors_safe fs : forall e, good [] [] (adding fs) e ->
  safe (fun e' => good [] [] [] e' /\ stays e e' /\
      forall p, p ∈ adding fs -> exists t, (t, p) ∈ timers e')
    (EventLoop.run_functors (exec alloc user) fs e).
Proof.
  induction fs as [|f fs IH]; intros e G; [split_and!; try done; by intros p ?%elem_of_nil|].
  cbn [EventLoop.run_functors]. change (f :: fs) with ([f] ++ fs) in *. rewrite adding_app in *.
  eapply safe_bind; [by apply exec_safe|]. intros e1 (G1 & S1 & H1f).
  eapply safe_mono; [by apply IH|]. intros e2 (G2 & S2 & H2f). split_and!; [done|by etrans|].
  intros p [Hp|Hp]%elem_of_app; [|by apply H2f].
  destruct (H1f p Hp) as [t Ht]. exists t. by apply (s_timers _ _ S2).
Qed.

Abbreviation turn cs := (EventLoop.loop_body (exec alloc user) (poll timer_ch wakeup_ch cs) handle).

Lemma doPendingFunctors_safe e : good [] [] [] e ->
  safe (fun e' => good [] [] [] e' /\ timerfdChannel_ (queue e') = timerfdChannel_ (queue e) /\
      (alert e -> alert e') /\ (ran e' = ran e /\ swallowed e' = swallowed e) /\
      forall p, p ∈ adding (pending e) -> exists t, (t, p) ∈ timers e')
    (EventLoop.doPendingFunctors (exec alloc user) e).
Proof.
  intros G.
  set (e1 := set_loop (EventLoop.set_pending [] (EventLoop.set_calling true (loop e)))
               (set_loop (EventLoop.set_calling true (loop e)) e)).
  assert (good [] [] (adding (pending e)) e1) as G1.
  { unfold good in *. simpl in *. by rewrite app_nil_r. }
  refine (safe_bind _ _ _ _ (run_functors_safe (pending e) e1 G1) _).
  intros e2 (G2 & S2 & Hin). simpl. set (e' := EventLoop.on_loop (EventLoop.set_calling false) e2).
  assert (alike e2 e') as A by by split.
  split; [by eapply alike_good|]. split; [by rewrite (s_channel _ _ S2)|]. split; [|split; [|done]].
  - intros Ha. eapply alike_alert; [exact A|]. apply (s_alarm _ _ S2). exact Ha.
  - change (ran e2 = ran e /\ swallowed e2 = swallowed e). by rewrite (s_ran _ _ S2), (s_swallowed _ _ S2).
Qed.

(** The part of a turn before the functors. *)
Lemma turn_dispatch cs e : wired (timerfdChannel_ (queue e)) -> exists e1 t,
  let active := filter (fun c => ready timer_ch wakeup_ch e c = true) cs in
  turn cs e = (e2 ← EventLoop.handle_active handle t active e1;
               EventLoop.doPendingFunctors (exec alloc user) e2) /\
  alike e e1 /\ wired (timerfdChannel_ (queue e1)) /\
  (timer_ch ∈ active -> Channel.revents_ (timerfdChannel_ (queue e1)) = EPOLLIN).
Proof.
  intros Hw. unfold EventLoop.loop_body, poll. cbn [mbind outcome_bind mret outcome_ret].
  set (e0 := EventLoop.on_loop _ e). set (active := filter _ cs).
  pose proof (alike_report active e0) as A. pose proof (report_wired active e0 Hw) as [W R].
  do 2 eexists. split_and!; [reflexivity| |exact W|exact R]. etrans; [|etrans; [exact A|]]; by split.
Qed.

Lemma ready_timer e : ready timer_ch wakeup_ch e timer_ch = tfd_ready (clock e) (timerfd_ (queue e)).
Proof. unfold ready. by rewrite Z.eqb_refl. Qed.

Lemma turn_safe cs e : good [] [] [] e -> wired (timerfdChannel_ (queue e)) ->
  safe (fun e' => good [] [] [] e' /\ wired (timerfdChannel_ (queue e')) /\
      ((swallowed e' = false -> swallowed e = false) /\ (swallowed e' = false -> alert e -> alert e')) /\
      (forall p, p ∈ adding (pending e) -> exists t, (t, p) ∈ timers e') /\
      (timer_ch ∈ cs -> tfd_ready (clock e) (timerfd_ (queue e)) = true ->
       forall it tm, it ∈ timers e -> us it <= wall e -> heap e !! snd it = Some tm ->
         ran_between e e' (snd it) tm))
    (turn cs e).
Proof.
  intros G Hw. destruct (turn_dispatch cs e Hw) as (e1 & t & -> & A & Hw1 & Hev).
  set (active := filter _ cs) in *. pose proof (alike_good _ _ _ _ _ A G) as G1.
  apply (safe_bind (fun e2 => (good [] [] [] e2 /\ moves e1 e2) /\
    (timer_ch ∈ active -> forall it tm, it ∈ timers e -> us it <= wall e -> heap e !! snd it = Some tm ->
       ran_between e e2 (snd it) tm))).
  - pose proof (handle_active_safe t active [] e1 G1) as X.
    destruct (EventLoop.handle_active _ _ _ _) as [e2|f] eqn:Ea; [|exact X]. split; [exact X|].
    intros Hin it tm Hit Hus Hp. destruct A.
    pose proof (handle_active_timer t active [] it tm e1 G1 Hw1 (Hev Hin) Hin) as Y. rewrite Ea in Y.
    destruct Y as [_ (new & t' & Hr & Hn)]; [by rewrite l_timers0|unfold wall in *; by rewrite l_clock0, l_offset0|
      by rewrite l_heap0|]. exists new, t'. by rewrite Hr, l_ran0.
  - intros e2 [[G2 [S2 A2 _]] Hran]. eapply safe_mono; [by apply doPendingFunctors_safe|].
    intros e' (G' & Hc & Ha & [Hr Hsw] & Hin). split; [done|]. split; [|split; [|split]].
    + by rewrite Hc, (g_channel _ _ S2).
    + rewrite Hsw. split; [intros X%(g_swallowed _ _ S2); by rewrite (l_swallowed _ _ A) in X|].
      intros X Hal. apply Ha, A2; [done|]. by eapply alike_alert.
    + intros p Hp. apply Hin. destruct (g_pending _ _ S2) as [new ->]. rewrite (l_pending _ _ A), adding_app.
      apply elem_of_app. by left.
    + intros Hcs Hready it tm Hit Hus Hp. apply (ran_between_before e e2 e'); [|exists []; by rewrite app_nil_r, Hr].
      apply Hran; [|done..]. apply list_elem_of_filter. by rewrite ready_timer.
Qed.

(** *** Any sequence of steps *)

Definition sound e : Prop := good [] [] [] e /\ wired (timerfdChannel_ (queue e)).

(** The wall clock is not set. *)
Definition steady (lb : label F) : bool := match lb with Adjust _ => false | _ => true end.

Abbreviation run_step := (step alloc user timer_ch wakeup_ch on_event).
Abbreviation run_steps := (steps alloc user timer_ch wakeup_ch on_event).

Lemma moves_sound e e' : good [] [] [] e' -> moves e e' -> sound e -> sound e'.
Proof. intros G [[] _ _] [_ W]. split; [done|]. congruence. Qed.

(** Nothing has been swallowed before, and the alarm is still set. *)
Definition watchful (b : bool) e e' : Prop :=
  (swallowed e' = false -> swallowed e = false) /\ (b = true -> swallowed e' = false -> alert e -> alert e').

Lemma watchful_trans b1 b2 e1 e2 e3 : watchful b1 e1 e2 -> watchful b2 e2 e3 -> watchful (b1 && b2) e1 e3.
Proof. intros [S1 A1] [S2 A2]. split; [auto|]. intros [? ?]%andb_true_iff. auto. Qed.

Lemma moves_watchful b e e' : moves e e' -> watchful b e e'.
Proof. intros [S A _]. split; [apply S|auto]. Qed.

Lemma step_safe lb e : sound e ->
  safe (fun e' => sound e' /\ watchful (steady lb) e e') (run_step lb e).
Proof.
  intros [G W]. destruct lb as [d|d|tid a|cs|c|]; cbn [step].
  - pose proof (stays_clocks e (Z.of_N d) (delays e) ltac:(lia)) as S.
    split; [|by apply moves_watchful, stays_moves].
    split; [apply good_later; [lia|done]|exact W].
  - split; [|by split]. split; [|exact W]. revert G. apply kept_adjust.
  - destruct (EventLoop.isInLoopThread tid (loop e)); [by split|].
    eapply safe_mono; [by apply act_safe|]. intros e' [G' S%stays_moves]. split; [|by apply moves_watchful].
    by apply (moves_sound e); [..|by split].
  - destruct (EventLoop.quit_ (loop e)); [by split|].
    eapply safe_mono; [by apply turn_safe|]. intros e' (G' & W' & [? ?] & _). split; [by split|]. split; [done|]. by intros _.
  - pose proof (alike_report [c] e) as A. pose proof (report_wired [c] e W) as [W1 _].
    eapply safe_mono; [apply handleEvent_safe; exact (alike_good _ _ _ _ _ A G)|].
    intros e' [G' M]. split.
    + apply (moves_sound _ _ G' M). split; [exact (alike_good _ _ _ _ _ A G)|exact W1].
    + destruct (moves_watchful true _ _ M) as [X Y]. change (swallowed (report timer_ch wakeup_ch c e)) with
        (swallowed (foldr (report timer_ch wakeup_ch) e [c])) in X. rewrite (l_swallowed _ _ A) in X.
      split; [done|]. intros _ Hs Ha. apply Y; [done..|]. exact (alike_alert _ _ A Ha).
  - unfold run_functor. destruct (EventLoop.pendingFunctors_ (loop e)) as [|f fs] eqn:Ef; [by split|].
    set (e1 := EventLoop.on_loop _ e). assert (good [] [] (adding [f] ++ []) e1) as G1.
    { unfold good, pending in *. rewrite Ef in G. change (f :: fs) with ([f] ++ fs) in G.
      rewrite adding_app in G. simpl in *. by rewrite app_nil_r. }
    eapply safe_mono; [by apply exec_safe|]. intros e' (G' & S & _).
    split; [|by apply (moves_watchful _ e1), stays_moves].
    split; [done|]. by rewrite (s_channel _ _ S).
Qed.

Lemma steps_safe ls : forall e, sound e ->
  safe (fun e' => sound e' /\ watchful (forallb steady ls) e e') (run_steps ls e).
Proof.
  induction ls as [|lb ls IH]; intros e Hs; simpl; [by split|].
  eapply safe_bind; [by apply step_safe|]. intros e1 [Hs1 Ha1].
  eapply safe_mono; [by apply IH|]. intros e2 [Hs2 Ha2]. split; [done|]. by eapply watchful_trans.
Qed.

Lemma new_sound `{!Channel.POLLER_LAWS P} tid timerfd evfd alarm efd poller tl c o ds lg u e :
  new_Env timer_ch wakeup_ch tid timerfd evfd alarm efd poller tl c o ds lg u = Ret e ->
  sound e /\ alarmed e /\ lags e = lg.
Proof.
  unfold new_Env, new_TimerQueue, Channel.enableReading, Channel.update. intros Hn.
  apply bind_Ret in Hn as (p & _ & Hn). apply bind_Ret in Hn as ([q p1] & Hq & Hn).
  apply bind_Ret in Hq as ([ch p2] & Hch & [= <- <-]). apply bind_Ret in Hn as (l & Hl & [= <-]).
  apply Channel.update_frame in Hch as [i ->]. assert (EventLoop.pendingFunctors_ l = []) as Hpend.
  { unfold EventLoop.new_EventLoop in Hl. apply bind_Ret in Hl as (? & _ & Hl).
    apply bind_Ret in Hl as (? & _ & Hl). apply bind_Ret in Hl as ([] & _ & Hl).
    by apply bind_Ret in Hl as ([] & _ & [= <-]). }
  split; [|done]. split; [|done]. unfold good, pending. simpl. rewrite Hpend. simpl.
  split; try done; try constructor; try (intros *; by rewrite ?elem_of_nil).
Qed.

End Steps.

(** ** Properties *)

Lemma waiting_nil {F} (h : gmap Z (Timer.Timer F)) : waiting [] h = filter oneshot h.
Proof. apply map_filter_ext. intros i x _. simpl. split; [naive_solver|]. intros ?. split; [done|]. by intros ?%elem_of_nil. Qed.

(** The timer at [p] is in the set, or the functor that will put it there is
    queued. *)
Definition queued_timer {F U T P E} (e : Env F U T P E) (p : Z) : Prop :=
  p ∈ map snd (timers e) \/ p ∈ adding (pending e).

(** C20: no timer is lost, none runs twice or early.  Whatever the program's
    functions do, from whatever threads timers are added, in whatever order
    events are dispatched and functors run, however late, and even if the
    wall clock is set: the one-shot timers ever added are, each once, those
    that have run and those that are waiting; a repeating timer is always
    still there; every timer that exists is in the set or about to be put
    there, so none leaks; no timer has run before its expiration; and two runs
    of the same repeating timer are at least its interval apart.  The only
    faults are an interval or a time out of range and the lack of memory. *)
Theorem timers_conserved {F U T P E} `{TIMERFD_LAWS T, Channel.POLLER_LAWS P, EVENTFD E}
  alloc (user : F -> U -> list (action F) * U) timer_ch wakeup_ch on_event
  tid timerfd evfd alarm (efd : E) poller tl c o ds lg u (e0 : Env F U T P E) ls
  (Halloc : alloc_law alloc)
  (Hnew : new_Env timer_ch wakeup_ch tid timerfd evfd alarm efd poller tl c o ds lg u = Ret e0) :
  match steps alloc user timer_ch wakeup_ch on_event ls e0 with
  | Err f => timer_fault f
  | Ret e =>
      filter oneshot (added e) ≡ₚ
        filter oneshot (map fst (ran e)) ++ map_to_list (filter oneshot (heap e)) /\
      (forall p tm, (p, tm) ∈ added e -> Timer.repeat_ tm = true ->
         exists tm', heap e !! p = Some tm' /\ same_timer tm tm') /\
      (forall p, is_Some (heap e !! p) -> queued_timer e p) /\
      Forall (fun x => due_at x.1.2 <= x.2) (ran e) /\
      StronglySorted apart (ran e)
  end.
Proof.
  destruct (new_sound 0 timer_ch wakeup_ch _ _ _ _ _ _ _ _ _ _ _ _ _ Hnew) as [Hs _].
  pose proof (steps_safe 0 alloc Halloc user timer_ch wakeup_ch on_event ls e0 Hs) as X.
  destruct (steps _ _ _ _ _ _ _) as [e|f]; [|exact X]. destruct X as [[[] _] _].
  rewrite waiting_nil in k_once0. split_and!; try done.
  intros p [tm Hp]. apply k_live0 in Hp as [Hp _]. unfold addresses in Hp. simpl in Hp. by apply elem_of_app in Hp.
Qed.

(** C21: timers are punctual, up to the time that passes between reading the
    clock and setting the timerfd.  Let at most [D] microseconds pass between
    a reading of the clock, in [resetTimerfd] and in [handleRead], and the
    system call on the timerfd after it; let the wall clock not be set; and
    let no [handleRead] have read an alarm from the timerfd without finding a
    timer due, which loses the alarm (see [swallowed_alarm]).  Then a timer
    that is in the set has, whatever else has happened before, an alarm that
    is set early enough: when it is [D] microseconds past its expiration, and
    100 microseconds from now have gone by, a turn of the loop that looks at
    the timerfd finds it readable and runs the timer - even if events
    dispatched before it in the same turn add timers and set the alarm
    anew. *)
Theorem timer_punctual {F U T P E} `{TIMERFD_LAWS T, Channel.POLLER_LAWS P, EVENTFD E}
  alloc (user : F -> U -> list (action F) * U) timer_ch wakeup_ch on_event
  tid timerfd evfd alarm (efd : E) poller tl c o ds lg u (e0 e : Env F U T P E) ls t p tm d cs D
  (Halloc : alloc_law alloc)
  (Hnew : new_Env timer_ch wakeup_ch tid timerfd evfd alarm efd poller tl c o ds lg u = Ret e0)
  (Hrun : steps alloc user timer_ch wakeup_ch on_event ls e0 = Ret e)
  (Hlags : Forall (fun x => (x <= D)%N) lg)
  (Hsteady : forallb steady ls = true) (Hswallowed : swallowed e = false)
  (Hin : (t, p) ∈ timers e) (Htm : heap e !! p = Some tm)
  (Hd : Z.max (microSecondsSinceEpoch t + Z.of_N D) (wall e + 100) <= wall e + Z.of_N d)
  (Hquit : EventLoop.quit_ (loop e) = false) (Hcs : timer_ch ∈ cs) :
  match steps alloc user timer_ch wakeup_ch on_event [Elapse d; Turn cs] e with
  | Err f => timer_fault f
  | Ret e' => ran_between e e' p tm
  end.
Proof.
  destruct (new_sound D timer_ch wakeup_ch _ _ _ _ _ _ _ _ _ _ _ _ _ Hnew) as (Hs & Ha & Hlg).
  pose proof (steps_safe D alloc Halloc user timer_ch wakeup_ch on_event ls e0 Hs) as X.
  rewrite Hrun in X. destruct X as [[G W] [_ X]].
  destruct (X Hsteady Hswallowed) as [_ Ha']; [split; [unfold prompt; by rewrite Hlg|done]|].
  clear X Hrun Hsteady Hnew.
  set (e1 := elapse (Z.of_N d) e). assert (good [] [] [] e1) as G1 by (apply good_later; [lia|done]).
  assert (us (t, p) <= wall e1) as Hus by (unfold us, wall in *; simpl; lia).
  assert (tfd_ready (clock e1) (timerfd_ (queue e1)) = true) as Hready.
  { pose proof (k_sorted _ _ _ _ _ _ _ _ G) as Hsort. unfold alarmed in Ha'.
    destruct (timers e) as [|first l]; [by apply elem_of_nil in Hin|]. destruct Ha' as (m & Hm & Hb).
    assert (us first <= us (t, p)) as Hfirst.
    { apply StronglySorted_inv in Hsort as [_ Hsort]. rewrite Forall_forall in Hsort.
      apply elem_of_cons in Hin as [->|Hin]; [done|]. specialize (Hsort _ Hin). order_lia. }
    simpl. rewrite Hm by lia. apply Z.leb_le. unfold us, wall in *. simpl in *. lia. }
  change (steps alloc user timer_ch wakeup_ch on_event [Elapse d; Turn cs] e) with
    (e2 ← step alloc user timer_ch wakeup_ch on_event (Turn cs) e1; mret e2).
  cbn [step]. change (EventLoop.quit_ (loop e1)) with (EventLoop.quit_ (loop e)). rewrite Hquit.
  pose proof (turn_safe D alloc Halloc user timer_ch wakeup_ch on_event cs e1 G1 W) as X.
  destruct (EventLoop.loop_body _ _ _ _) as [e2|f]; [|exact X].
  destruct X as (_ & _ & _ & _ & X). exact (X Hcs Hready (t, p) tm Hin Hus Htm).
Qed.

(** C22: when [handleRead] is called, at any moment of any run, exactly the
    timers that are due run, in the order of their expirations; afterwards a
    one-shot timer that ran has been freed and a repeating one is in the set
    again, an interval later; the timers that are not due are untouched,
    whatever the callbacks did; and if any timer was due, the alarm is set
    for the earliest one left: it goes off when that one is due, or later by
    at most [D] microseconds when no more than that passes between a reading
    of the clock and the system call after it, or in 100 microseconds. *)
Theorem handleRead_expires {F U T P E} `{TIMERFD_LAWS T, Channel.POLLER_LAWS P, EVENTFD E}
  alloc (user : F -> U -> list (action F) * U) timer_ch wakeup_ch on_event
  tid timerfd evfd alarm (efd : E) poller tl c o ds lg u (e0 e : Env F U T P E) ls
  (Halloc : alloc_law alloc)
  (Hnew : new_Env timer_ch wakeup_ch tid timerfd evfd alarm efd poller tl c o ds lg u = Ret e0)
  (Hrun : steps alloc user timer_ch wakeup_ch on_event ls e0 = Ret e) :
  let t := fst (now e) in
  match handleRead alloc user e with
  | Err f => timer_fault f
  | Ret e' =>
      (exists new, ran e' = ran e ++ new /\ run_of e (filter (due t) (timers e)) new) /\
      (forall it tm, it ∈ timers e -> heap e !! snd it = Some tm ->
         if decide (due t it) then renewed (snd it) tm e e'
         else it ∈ timers e' /\ heap e' !! snd it = Some tm) /\
      (forall D, prompt D e -> filter (due t) (timers e) <> [] -> alarmed D e')
  end.
Proof.
  destruct (new_sound 0 timer_ch wakeup_ch _ _ _ _ _ _ _ _ _ _ _ _ _ Hnew) as [Hs _].
  pose proof (steps_safe 0 alloc Halloc user timer_ch wakeup_ch on_event ls e0 Hs) as X.
  rewrite Hrun in X. destruct X as [[G _] _].
  pose proof (fun D => handleRead_safe D alloc Halloc user [] e G) as X.
  destruct (handleRead _ _ _) as [e'|f]; [|exact (X 0%N)].
  destruct (X 0%N) as (_ & _ & X1 & X2 & _). split_and!; [done..|].
  intros D Hp Hne. destruct (X D) as (_ & _ & _ & _ & X3). auto.
Qed.

(** C34: what [resetTimerfd] sets: the [timespec] is valid and never zero (a
    zero value would disarm the timer), and the alarm goes off exactly when
    the wall clock has reached the expiration - later by the time that passes
    between the reading of the clock and [timerfd_settime] - and 100
    microseconds have gone by.  The only fault is the overflow of the
    difference of the times. *)
Theorem resetTimerfd_bounds {F U T P E} `{TIMERFD_LAWS T, EVENTFD E} x (e : Env F U T P E) :
  let '(t, e1) := now e in
  match resetTimerfd x e with
  | Err f => f = Overflow
  | Ret e' =>
      timespec_ok (alarm_for x t) /\
      fst (tfd_settime (clock (lapse e1)) (alarm_for x t) (timerfd_ (queue e1))) = true /\
      forall k, 0 <= k -> tfd_ready (clock e' + k) (timerfd_ (queue e')) =
        (microSecondsSinceEpoch x + lag e <=? wall e' + k) && (100 <=? k)
  end.
Proof.
  pose proof (resetTimerfd_spec x e) as X. unfold resetTimerfd in *. destruct (now_spec e) as (d & Hd & En).
  rewrite En in *. destruct (in_i64 _) eqn:Hi; [|done]. simpl in X |- *.
  assert (timespec_ok (alarm_for x (mkTimestamp (wall e + d)))) as Hok.
  { apply alarm_for_ok. unfold in_i64 in Hi. reflect_bools. done. }
  destruct (alarm_for_ok x (mkTimestamp (wall e + d))) as [_ Hns].
  { unfold in_i64 in Hi. reflect_bools. done. }
  split_and!; [done|by apply settime_ok|]. intros k Hk.
  rewrite settime_ready by (done || lia).
  rewrite Hns. unfold microSecondsSinceEpoch, wall. simpl. apply eq_true_iff_eq.
  pose proof (lag_nonneg e). change (lag (set_clocks _ _ _ e)) with (lag e). rewrite andb_true_iff, !Z.leb_le. lia.
Qed.

(** A timerfd that fires before its timer is due by the wall clock
    ([Timestamp::now] is not the clock the timerfd runs on) is never armed
    again: nothing has expired, so [reset] does not reach [resetTimerfd], and
    the timers stay in the set with no alarm. *)
Theorem early_expiry_disarms {F U T P E} `{TIMERFD_LAWS T, EVENTFD E} alloc
  (user : F -> U -> list (action F) * U) (e : Env F U T P E)
  (Hgood : good [] [] [] e) (Hfired : forall t, clock e <= t -> tfd_ready t (timerfd_ (queue e)) = true)
  (Hearly : filter (due (fst (now e))) (timers e) = []) :
  exists e', handleRead alloc user e = Ret e' /\ timers e' = timers e /\
    forall t, tfd_ready t (timerfd_ (queue e')) = false.
Proof.
  assert (addresses_ok (timers e)) as Ha by by eapply good_addresses.
  pose proof (getExpired_filter (fst (now e)) (queue e) (k_sorted _ _ _ _ _ _ _ _ Hgood) Ha) as Hf.
  pose proof (split_lower_app (fst (now e), ptr_max) (timers e)) as Happ.
  unfold handleRead, getExpired in *. destruct (now_spec e) as (d & Hd & En). rewrite En in *. cbn [fst] in *.
  change (timers_ (queue (ReadTimerFd _))) with (timers e).
  change (timers_ (queue e)) with (timers e) in Hf.
  destruct (split_lower _ (timers e)) as [ex rest]. cbn [fst snd] in *. rewrite Hf, Hearly in *.
  eexists. split; [done|]. split; [done|]. intros t. simpl. apply read_disarms, Hfired.
  pose proof (lag_nonneg e). change (clock e <= clock e + d + lag e). lia.
Qed.

(** *** A loop to evaluate on: thread 1, the timerfd's channel at address 1
    and the eventfd's at 2, a poller that accepts everything; the function
    [true] adds a timer that is due at 900. *)

#[local] Instance unit_poller : Channel.POLLER unit := {|
  Channel.updateChannel C s c p := Ret (c, p);
  Channel.removeChannel C s c p := Ret (c, p);
  Channel.hasChannel C s c p := false
|}.

#[local] Instance unit_poller_laws : Channel.POLLER_LAWS unit.
Proof.
  split; simpl; [|done|].
  - intros C s c c' p p' [= <- <-]. exists (Channel.index_ c). by destruct c.
  - intros C s c p. exists (Channel.index_ c), p. by destruct c.
Qed.

Definition demo_alloc (h : gmap Z (Timer.Timer bool)) : option Z :=
  head (filter (fun p => h !! p = None) [8; 16; 24; 32]).

Lemma demo_alloc_law : alloc_law demo_alloc.
Proof.
  intros h p Hp. apply head_Some_elem_of, list_elem_of_filter in Hp as [Hp Hin]. split; [done|].
  unfold ptr_max. repeat (apply elem_of_cons in Hin as [->|Hin]; [lia|]). by apply elem_of_nil in Hin.
Qed.

Definition demo_user (f : bool) (u : unit) : list (action bool) * unit :=
  (if f then [RunAt (mkTimestamp 900) false] else [], u).

Definition half : double := S754_finite false 4503599627370496 (-53).

Definition demo_new : outcome (Env bool unit (option Z) unit N) :=
  new_Env 1 2 1 3 4 None 0%N (Some tt) None 0 0 [1%N; 0%N; 2%N] [3%N; 0%N; 5%N] tt.

Definition demo_steps ls (e : Env bool unit (option Z) unit N) : outcome (Env bool unit (option Z) unit N) :=
  steps demo_alloc demo_user 1 2 (fun _ => false) ls e.

(** Another thread adds a one-shot timer for 500 and one for every half
    second; the loop wakes up, and again at 600 and at 1100. *)
Definition demo_run : list (label bool) :=
  [Foreign 2 (RunAt (mkTimestamp 500) true); Foreign 2 (RunEvery half false); Turn [2]; Elapse 600; Turn [1; 2];
   Elapse 500; Turn [1]; Elapse 600000; Turn [1]].

Example demo_runs :
  match demo_new ≫= demo_steps demo_run with
  | Ret e => (timers e, map (fun x => (x.1.1, x.2)) (ran e), size (heap e), timerfd_ (queue e)) =
      ([(mkTimestamp 1101111, 16)], [(8, 606); (24, 1111); (16, 601111)], 1%nat, Some 1101111000)
  | Err _ => False
  end.
Proof. vm_compute. reflexivity. Qed.

(** When the wall clock is set back while a timer waits, the alarm goes off
    too early and is the last one. *)
Example clock_set_back :
  match demo_new ≫= demo_steps [Foreign 2 (RunAt (mkTimestamp 500) false); Turn [2]; Adjust (-1000);
                               Elapse 600; Turn [1]; Elapse 1000000; Turn [1]] with
  | Ret e => (timers e, ran e, timerfd_ (queue e)) = ([(mkTimestamp 500, 8)], [], None)
  | Err _ => False
  end.
Proof. vm_compute. reflexivity. Qed.

(** An alarm is lost although the wall clock is never set and the loop looks
    at the timerfd only when it is readable.  The function [t] adds a timer
    for the time [t]; the channels 5 and 6 call 400 and 910.  At 600 the
    timerfd is readable, but channel 5 comes first and sets the alarm anew,
    so that the two timers run and the alarm remains.  It goes off; channel 6
    comes first and adds a timer; and that one is due, and its alarm read,
    between [Timestamp::now] and [ReadTimerFd] of [handleRead], which finds
    nothing due.  The timer stays in the set without an alarm. *)
Definition late_user (t : Z) (u : unit) : list (action Z) * unit :=
  (if 0 <? t then [RunAt (mkTimestamp t) 0] else [], u).

Definition late_alloc (h : gmap Z (Timer.Timer Z)) : option Z :=
  head (filter (fun p => h !! p = None) [8; 16; 24; 32]).

Definition late_run : list (label Z) :=
  [Foreign 2 (RunAt (mkTimestamp 500) 0); Turn [2]; Elapse 600; Turn [5; 1]; Elapse 200; Turn [6; 1];
   Elapse 1000000; Turn [1]].

Example swallowed_alarm :
  match new_Env 1 2 1 3 4 None 0%N (Some tt) None 0 0 [0%N; 0%N; 0%N; 0%N; 105%N]
          [0%N; 0%N; 0%N; 0%N; 10%N] tt
        ≫= steps late_alloc late_user 1 2 (fun c => if c =? 5 then 400 else if c =? 6 then 910 else 0) late_run with
  | Ret e => (timers e, map (fun x => (x.1.1, x.2)) (ran e), timerfd_ (queue e) : option Z, swallowed e) =
      ([(mkTimestamp 910, 8)], [(16, 600); (8, 600)], None, true)
  | Err _ => False
  end.
Proof. vm_compute. reflexivity. Qed.

Lemma timers_conserved_witness : exists e0 e, demo_new = Ret e0 /\ demo_steps demo_run e0 = Ret e /\
  filter oneshot (added e) ≡ₚ
    filter oneshot (map fst (ran e)) ++ map_to_list (filter oneshot (heap e)) /\
  StronglySorted apart (ran e) /\ ran e <> [].
Proof.
  destruct demo_new as [e0|] eqn:Hnew; [|vm_compute in Hnew; discriminate Hnew]. exists e0.
  pose proof (timers_conserved demo_alloc demo_user 1 2 (fun _ => false) 1 3 4 None 0%N (Some tt) None 0 0
    [1%N; 0%N; 2%N] [3%N; 0%N; 5%N] tt e0 demo_run demo_alloc_law Hnew) as X. fold (demo_steps demo_run e0) in X.
  destruct (demo_steps demo_run e0) as [e|f] eqn:Hrun.
  - exists e. destruct X as (X1 & _ & _ & _ & X2). split_and!; [done|done|done|done|].
    pose proof demo_runs as D. rewrite Hnew in D. cbn [mbind outcome_bind] in D. rewrite Hrun in D.
    intros E0. rewrite E0 in D. discriminate D.
  - pose proof demo_runs as D. rewrite Hnew in D. cbn [mbind outcome_bind] in D. rewrite Hrun in D. destruct D.
Defined.

Definition demo_waits : list (label bool) := [Foreign 2 (RunAt (mkTimestamp 500) true); Turn [2]].

Lemma timer_punctual_witness : exists e0 e e' tm, demo_new = Ret e0 /\ demo_steps demo_waits e0 = Ret e /\
  demo_steps [Elapse 600; Turn [1]] e = Ret e' /\ ran_between e e' 8 tm.
Proof.
  destruct demo_new as [e0|] eqn:Hnew; [|vm_compute in Hnew; discriminate Hnew].
  destruct (demo_steps demo_waits e0) as [e|] eqn:Hrun;
    [|vm_compute in Hnew; injection Hnew as <-; vm_compute in Hrun; discriminate Hrun].
  destruct (demo_steps [Elapse 600; Turn [1]] e) as [e'|] eqn:Hlast;
    [|vm_compute in Hnew; injection Hnew as <-; vm_compute in Hrun; injection Hrun as <-;
      vm_compute in Hlast; discriminate Hlast].
  set (tm := Timer.new_Timer true (mkTimestamp 500) (S754_zero false)).
  exists e0, e, e', tm. split_and!; [done..|].
  pose proof (timer_punctual demo_alloc demo_user 1 2 (fun _ => false) 1 3 4 None 0%N (Some tt) None 0 0
    [1%N; 0%N; 2%N] [3%N; 0%N; 5%N] tt e0 e demo_waits (mkTimestamp 500) 8 tm 600 [1] 5%N demo_alloc_law Hnew Hrun
    ltac:(repeat constructor; discriminate) eq_refl) as X.
  fold (demo_steps [Elapse 600; Turn [1]] e) in X. rewrite Hlast in X.
  vm_compute in Hnew; injection Hnew as <-; vm_compute in Hrun; injection Hrun as <-.
  apply X; clear; [reflexivity|by left|reflexivity|vm_compute; discriminate|reflexivity|by left].
Defined.

Lemma handleRead_expires_witness : exists e0 e e', demo_new = Ret e0 /\
  demo_steps (demo_waits ++ [Elapse 600]) e0 = Ret e /\ handleRead demo_alloc demo_user e = Ret e' /\
  map (fun x => x.1.1) (ran e') = [8] /\ heap e' !! 8 = None /\ alarmed 5 e'.
Proof.
  destruct demo_new as [e0|] eqn:Hnew; [|vm_compute in Hnew; discriminate Hnew].
  destruct (demo_steps (demo_waits ++ [Elapse 600]) e0) as [e|] eqn:Hrun;
    [|vm_compute in Hnew; injection Hnew as <-; vm_compute in Hrun; discriminate Hrun].
  destruct (handleRead demo_alloc demo_user e) as [e'|] eqn:Hlast;
    [|vm_compute in Hnew; injection Hnew as <-; vm_compute in Hrun; injection Hrun as <-;
      vm_compute in Hlast; discriminate Hlast].
  exists e0, e, e'. split_and!; [done..| | |].
  3: { pose proof (handleRead_expires demo_alloc demo_user 1 2 (fun _ => false) 1 3 4 None 0%N (Some tt) None 0 0
    [1%N; 0%N; 2%N] [3%N; 0%N; 5%N] tt e0 e (demo_waits ++ [Elapse 600]) demo_alloc_law Hnew Hrun) as X.
    rewrite Hlast in X. destruct X as (_ & _ & X). apply X; [|clear X].
    1: { vm_compute in Hnew; injection Hnew as <-; vm_compute in Hrun; injection Hrun as <-. clear.
         repeat constructor; discriminate. }
    vm_compute in Hnew; injection Hnew as <-; vm_compute in Hrun; injection Hrun as <-. clear.
    vm_compute. discriminate. }
  all: vm_compute in Hnew; injection Hnew as <-; vm_compute in Hrun; injection Hrun as <-;
    vm_compute in Hlast; injection Hlast as <-; reflexivity.
Defined.

Lemma resetTimerfd_bounds_witness : exists e e', demo_new = Ret e /\
  resetTimerfd (mkTimestamp 2500000) e = Ret e' /\
  forall k, 0 <= k -> tfd_ready (clock e' + k) (timerfd_ (queue e')) =
    (2500000 + 3 <=? wall e' + k) && (100 <=? k).
Proof.
  destruct demo_new as [e|] eqn:Hnew; [|vm_compute in Hnew; discriminate Hnew].
  destruct (resetTimerfd (mkTimestamp 2500000) e) as [e'|] eqn:Hr;
    [|vm_compute in Hnew; injection Hnew as <-; vm_compute in Hr; discriminate Hr].
  exists e, e'. split_and!; [done..|]. pose proof (resetTimerfd_bounds (mkTimestamp 2500000) e) as X.
  assert (lag e = 3) as Hlag by (vm_compute in Hnew; injection Hnew as <-; reflexivity).
  rewrite Hr, Hlag in X. destruct (now e). by destruct X as (_ & _ & X).
Defined.

End TimerLoop.
