(* ===== verification/MemoryPool.v ===== *)
(** * The memory pool ([src/memory/MemoryPool.h], [MemoryPool.cc])

    The pool is a chain of 4096-byte blocks, each starting with a [SmallNode]
    (the first block starts with the [Pool] object), and a list of large
    allocations.  The C heap is the map [live_] from the address to the size
    of every live allocation; the headers inside blocks are maps by address.
    [posix_memalign] is a parameter, and so is what fresh memory contains. *)

From S2P Require Import Prelude.

Module MemoryPool.

Definition PAGE_SIZE : Z := 4096.
Definition MP_ALIGNMENT : Z := 16.
Definition sizeof_Pool : Z := 24.
Definition sizeof_SmallNode : Z := 32.
Definition sizeof_LargeNode : Z := 24.

(** [((n) + (alignment - 1)) & ~(alignment - 1)] *)
Definition mp_align (n alignment : Z) : Z := Z.land (n + (alignment - 1)) (Z.lnot (alignment - 1)).

Record SmallNode := mkSmall {
  end_ : Z;
  last_ : Z;
  quote_ : Z;          (** [unsigned int] *)
  failed_ : Z;         (** [unsigned int] *)
  next_ : option Z
}.

Record LargeNode := mkLarge {
  address_ : option Z;
  size_ : Z;           (** [unsigned int] *)
  lnext_ : option Z
}.

Record Pool := mkPool {
  largeList_ : option Z;
  head_ : Z;
  current_ : Z
}.

(** The program's memory, as far as the pool uses it. *)
Record Mem := mkMem {
  live_ : gmap Z Z;
  smalls_ : gmap Z SmallNode;
  larges_ : gmap Z LargeNode;
  pool_ : option (Z * Pool)      (** the address and content of [*pool_] *)
}.

Definition set_live l m := mkMem l (smalls_ m) (larges_ m) (pool_ m).
Definition set_smalls s m := mkMem (live_ m) s (larges_ m) (pool_ m).
Definition set_larges l m := mkMem (live_ m) (smalls_ m) l (pool_ m).
Definition set_pool p m := mkMem (live_ m) (smalls_ m) (larges_ m) p.

Definition upd_small (a : Z) (n : SmallNode) (m : Mem) : Mem := set_smalls (<[a := n]> (smalls_ m)) m.
Definition upd_large (a : Z) (n : LargeNode) (m : Mem) : Mem := set_larges (<[a := n]> (larges_ m)) m.
Definition upd_pool (f : Pool -> Pool) (m : Mem) : Mem :=
  set_pool (match pool_ m with Some (a, p) => Some (a, f p) | None => None end) m.
Definition the_pool (m : Mem) : outcome (Z * Pool) := deref NullDeref (pool_ m).
Definition small_at (a : Z) (m : Mem) : outcome SmallNode := deref UseAfterFree (smalls_ m !! a).
Definition large_at (a : Z) (m : Mem) : outcome LargeNode := deref UseAfterFree (larges_ m !! a).

Definition with_last n last := mkSmall (end_ n) last (quote_ n) (failed_ n) (next_ n).
Definition with_quote n q := mkSmall (end_ n) (last_ n) q (failed_ n) (next_ n).
Definition with_failed n f := mkSmall (end_ n) (last_ n) (quote_ n) f (next_ n).
Definition with_next n x := mkSmall (end_ n) (last_ n) (quote_ n) (failed_ n) x.

Section MemoryPool.
(** [posix_memalign] and the content of the fresh memory, read as a
    [SmallNode]. *)
Context (memalign : gmap Z Z -> Z -> option Z).
Context (junk : Z -> SmallNode).

(** [free(a)]: the block and every header inside it are gone. *)
Definition free (a : option Z) (m : Mem) : outcome Mem :=
  match a with
  | None => mret m
  | Some a =>
      n ← deref DoubleFree (live_ m !! a);
      mret (mkMem (delete a (live_ m)) (filter (fun kv => ~ (a <= fst kv < a + n)) (smalls_ m))
              (filter (fun kv => ~ (a <= fst kv < a + n)) (larges_ m)) (pool_ m))
  end.

(** [next_] and [quote_] of the first node are not set. *)
Definition createPool (m : Mem) : Mem :=
  match memalign (live_ m) PAGE_SIZE with
  | None => m
  | Some p =>
      let head := p + sizeof_Pool in
      let n := mkSmall (p + PAGE_SIZE) (p + sizeof_Pool + sizeof_SmallNode)
                 (quote_ (junk head)) 0 (next_ (junk head)) in
      upd_small head n
        (set_pool (Some (p, mkPool None head head)) (set_live (<[p := PAGE_SIZE]> (live_ m)) m))
  end.

(** *** Small allocations *)

(** The search of [malloc] from [cur]: the block with room, and the address. *)
Fixpoint find_small (fuel : nat) (cur : option Z) (size : Z) (m : Mem) : outcome (option (Z * Z)) :=
  match cur with
  | None => mret None
  | Some c =>
      match fuel with
      | O => Err OutOfFuel
      | S fuel' =>
          n ← small_at c m;
          let addr := mp_align (last_ n) MP_ALIGNMENT in
          if size <=? u64 (end_ n - addr) then mret (Some (c, addr))
          else find_small fuel' (next_ n) size m
      end
  end.

(** The walk of [mallocSmallNode] to the last block, counting failures:
    the last block, the new [current] and the memory. *)
Fixpoint walk_failed (fuel : nat) (cur current : Z) (m : Mem) : outcome (Z * Z * Mem) :=
  match fuel with
  | O => Err OutOfFuel
  | S fuel' =>
      n ← small_at cur m;
      match next_ n with
      | None => mret (cur, current, m)
      | Some nx =>
          let current' := if 5 <=? failed_ n then nx else current in
          walk_failed fuel' nx current' (upd_small cur (with_failed n (u32 (failed_ n + 1))) m)
      end
  end.

Definition mallocSmallNode (fuel : nat) (size : Z) (m : Mem) : outcome (option Z * Mem) :=
  match memalign (live_ m) PAGE_SIZE with
  | None => mret (None, m)
  | Some block =>
      let addr := mp_align (block + sizeof_SmallNode) MP_ALIGNMENT in
      let n := mkSmall (block + PAGE_SIZE) (addr + size) (u32 (quote_ (junk block) + 1))
                 (failed_ (junk block)) None in
      let m1 := upd_small block n (set_live (<[block := PAGE_SIZE]> (live_ m)) m) in
      '(_, p) ← the_pool m1;
      '(cur, current, m2) ← walk_failed fuel (current_ p) (current_ p) m1;
      last ← small_at cur m2;
      let m3 := upd_small cur (with_next last (Some block)) m2 in
      mret (Some addr, upd_pool (fun p => mkPool (largeList_ p) (head_ p) current) m3)
  end.

(** [malloc] for a size of at most a page. *)
Definition malloc_small (fuel : nat) (size : Z) (m : Mem) : outcome (option Z * Mem) :=
  '(_, p) ← the_pool m;
  r ← find_small fuel (Some (current_ p)) size m;
  match r with
  | Some (c, addr) =>
      n ← small_at c m;
      mret (Some addr, upd_small c (with_last (with_quote n (u32 (quote_ n + 1))) (addr + size)) m)
  | None => mallocSmallNode fuel size m
  end.

(** *** Large allocations *)

(** The first of at most five list nodes whose address is null. *)
Fixpoint find_free_large (count : nat) (node : option Z) (m : Mem) : outcome (option Z) :=
  match node with
  | None => mret None
  | Some a =>
      n ← large_at a m;
      match address_ n with
      | None => mret (Some a)
      | Some _ => match count with
                  | O => mret None
                  | S count' => find_free_large count' (lnext_ n) m
                  end
      end
  end.

Definition mallocLargeNode (fuel : nat) (size : Z) (m : Mem) : outcome (option Z * Mem) :=
  match memalign (live_ m) size with
  | None => mret (None, m)
  | Some addr =>
      let m1 := set_live (<[addr := size]> (live_ m)) m in
      '(_, p) ← the_pool m1;
      r ← find_free_large 4 (largeList_ p) m1;
      match r with
      | Some a =>
          n ← large_at a m1;
          mret (Some addr, upd_large a (mkLarge (Some addr) (u32 size) (lnext_ n)) m1)
      | None =>
          '(node, m2) ← malloc_small fuel sizeof_LargeNode m1;
          match node with
          | None => m3 ← free (Some addr) m2; mret (None, m3)
          | Some a =>
              '(_, p2) ← the_pool m2;
              let m3 := upd_large a (mkLarge (Some addr) (u32 size) (largeList_ p2)) m2 in
              mret (Some addr, upd_pool (fun p => mkPool (Some a) (head_ p) (current_ p)) m3)
          end
      end
  end.

Definition malloc (fuel : nat) (size : Z) (m : Mem) : outcome (option Z * Mem) :=
  if size <=? 0 then mret (None, m)
  else if PAGE_SIZE - sizeof_SmallNode <? size then mallocLargeNode fuel size m
  else malloc_small fuel size m.

(** The address and how many bytes are zeroed there. *)
Definition calloc (fuel : nat) (size : Z) (m : Mem) : outcome (option (Z * Z) * Mem) :=
  '(addr, m') ← malloc fuel size m;
  mret (match addr with Some a => Some (a, size) | None => None end, m').

(** *** Freeing *)

Fixpoint free_large (fuel : nat) (p : Z) (node : option Z) (m : Mem) : outcome (option Mem) :=
  match node with
  | None => mret None
  | Some a =>
      match fuel with
      | O => Err OutOfFuel
      | S fuel' =>
          n ← large_at a m;
          if decide (address_ n = Some p) then
            m1 ← free (address_ n) m;
            mret (Some (upd_large a (mkLarge None 0 (lnext_ n)) m1))
          else free_large fuel' p (lnext_ n) m
      end
  end.

Fixpoint free_small (fuel : nat) (p : Z) (node : option Z) (m : Mem) : outcome Mem :=
  match node with
  | None => mret m
  | Some a =>
      match fuel with
      | O => Err OutOfFuel
      | S fuel' =>
          n ← small_at a m;
          if (a <=? p) && (p <=? end_ n) then
            let q := u32 (quote_ n - 1) in
            if q =? 0 then
              '(pa, pl) ← the_pool m;
              let last := if decide (a = head_ pl) then pa + sizeof_Pool + sizeof_SmallNode
                          else a + sizeof_SmallNode in
              mret (upd_pool (fun p => mkPool (largeList_ p) (head_ p) (head_ p))
                      (upd_small a (with_failed (with_last (with_quote n q) last) 0) m))
            else mret (upd_small a (with_quote n q) m)
          else free_small fuel' p (next_ n) m
      end
  end.

Definition freeMemory (fuel : nat) (p : Z) (m : Mem) : outcome Mem :=
  '(_, pl) ← the_pool m;
  r ← free_large fuel p (largeList_ pl) m;
  match r with
  | Some m' => mret m'
  | None => free_small fuel p (Some (head_ pl)) m
  end.

(** The loop over the large list in [destroyPool] and [resetPool]; [clear]
    says whether the address is set to null. *)
Fixpoint free_all_large (fuel : nat) (clear : bool) (node : option Z) (m : Mem) : outcome Mem :=
  match node with
  | None => mret m
  | Some a =>
      match fuel with
      | O => Err OutOfFuel
      | S fuel' =>
          n ← large_at a m;
          m1 ← free (address_ n) m;
          free_all_large fuel' clear (lnext_ n)
            (if clear then upd_large a (mkLarge None (size_ n) (lnext_ n)) m1 else m1)
      end
  end.

(** The loop over the blocks: [cur->next_] is read after [free(cur)]. *)
Fixpoint free_blocks (fuel : nat) (cur : option Z) (m : Mem) : outcome Mem :=
  match cur with
  | None => mret m
  | Some c =>
      match fuel with
      | O => Err OutOfFuel
      | S fuel' =>
          n ← small_at c m;
          let next := next_ n in
          m1 ← free (Some c) m;
          n1 ← small_at c m1;
          free_blocks fuel' (next_ n1) m1
      end
  end.

Definition destroyPool (fuel : nat) (m : Mem) : outcome Mem :=
  '(pa, pl) ← the_pool m;
  m1 ← free_all_large fuel true (largeList_ pl) m;
  h ← small_at (head_ pl) m1;
  m2 ← free_blocks fuel (next_ h) m1;
  free (Some pa) m2.

Fixpoint reset_blocks (fuel : nat) (small : option Z) (m : Mem) : outcome Mem :=
  match small with
  | None => mret m
  | Some a =>
      match fuel with
      | O => Err OutOfFuel
      | S fuel' =>
          n ← small_at a m;
          reset_blocks fuel' (next_ n)
            (upd_small a (mkSmall (end_ n) (a + sizeof_SmallNode) 0 0 (next_ n)) m)
      end
  end.

Definition resetPool (fuel : nat) (m : Mem) : outcome Mem :=
  '(_, pl) ← the_pool m;
  m1 ← free_all_large fuel false (largeList_ pl) m;
  reset_blocks fuel (Some (head_ pl))
    (upd_pool (fun p => mkPool None (head_ p) (head_ p)) m1).

Definition getPool (m : Mem) : option (Z * Pool) := pool_ m.

End MemoryPool.

(** ** The pool's invariant *)

(** What the invariant looks at in a block header. *)
Definition view (n : SmallNode) : Z * Z * option Z := (end_ n, last_ n, next_ n).
Definition sm (m : Mem) (c : Z) : option (Z * Z * option Z) := view <$> smalls_ m !! c.

(** The first block starts at the pool object, before its header. *)
Definition base (p c : Z) : Z := if decide (c = p + sizeof_Pool) then p else c.

(** The address is in the page of the block. *)
Definition in_block (p c a : Z) : Prop := base p c <= a < base p c + PAGE_SIZE.

(** A block: its bounds, the part in use, and the C allocation it is. *)
Definition blk (m : Mem) (p c : Z) : Prop := c <> p /\ exists l nx,
  sm m c = Some (base p c + PAGE_SIZE, l, nx) /\
  c + sizeof_SmallNode <= l <= base p c + PAGE_SIZE /\
  (MP_ALIGNMENT | base p c) /\ 0 < base p c /\ base p c + PAGE_SIZE < 2 ^ 64 /\
  live_ m !! base p c = Some PAGE_SIZE.

(** The blocks reached from [cur]. *)
Fixpoint path (m : Mem) (cur : option Z) (chain : list Z) : Prop :=
  match chain with
  | [] => cur = None
  | c :: chain' => cur = Some c /\ exists e l nx, sm m c = Some (e, l, nx) /\ path m nx chain'
  end.

Fixpoint lpath (larges : gmap Z LargeNode) (cur : option Z) (chain : list Z) : Prop :=
  match chain with
  | [] => cur = None
  | c :: chain' => cur = Some c /\ exists n, larges !! c = Some n /\ lpath larges (lnext_ n) chain'
  end.

Definition disj (x y : Z * Z) : Prop := fst x + snd x <= fst y \/ fst y + snd y <= fst x.

Definition live_disj (live : gmap Z Z) : Prop := forall a n b k,
  live !! a = Some n -> live !! b = Some k -> a <> b -> disj (a, n) (b, k).

(** A range handed out: in the used part of a block, or an allocation of its
    own. *)
Definition alloc_ok (m : Mem) (p : Z) (chain : list Z) (x : Z * Z) : Prop :=
  (MP_ALIGNMENT | fst x) /\ 0 < snd x /\
  ((exists c e l nx, c ∈ chain /\ sm m c = Some (e, l, nx) /\
      c + sizeof_SmallNode <= fst x /\ fst x + snd x <= l) \/
   (live_ m !! fst x = Some (snd x) /\ forall c, c ∈ chain -> base p c <> fst x)).

Fixpoint pairwise (l : list (Z * Z)) : Prop :=
  match l with
  | [] => True
  | x :: l' => Forall (disj x) l' /\ pairwise l'
  end.

Definition pinv (m : Mem) (p : Z) (pl : Pool) (chain lchain : list Z) (allocs : list (Z * Z)) : Prop :=
  pool_ m = Some (p, pl) /\ head_ pl = p + sizeof_Pool /\
  path m (Some (head_ pl)) chain /\ (forall c, c ∈ chain -> blk m p c) /\
  current_ pl ∈ chain /\
  (lpath (larges_ m) (largeList_ pl) lchain /\
   forall c, c ∈ lchain -> (c, sizeof_LargeNode) ∈ allocs) /\
  live_disj (live_ m) /\ Forall (alloc_ok m p chain) allocs /\ pairwise allocs.

(** What [posix_memalign] promises. *)
Definition memalign_law (memalign : gmap Z Z -> Z -> option Z) : Prop :=
  forall live n a, memalign live n = Some a ->
    (MP_ALIGNMENT | a) /\ 0 < a /\ a + n < 2 ^ 64 /\ live !! a = None /\
    forall b k, live !! b = Some k -> disj (a, n) (b, k).

(** ** Lemmas *)

Lemma mp_align_spec n : 0 <= n ->
  (MP_ALIGNMENT | mp_align n MP_ALIGNMENT) /\ n <= mp_align n MP_ALIGNMENT < n + MP_ALIGNMENT.
Proof.
  intros Hn. unfold mp_align, MP_ALIGNMENT.
  change (16 - 1) with 15. assert (Z.land (n + 15) (Z.lnot 15) = (n + 15) / 16 * 16) as ->.
  { change 15 with (Z.ones 4) at 2. rewrite <- Z.ldiff_land, Z.ldiff_ones_r by lia.
    rewrite Z.shiftl_mul_pow2, Z.shiftr_div_pow2 by lia. done. }
  split; [by exists ((n + 15) / 16)|].
  pose proof (Z.div_mod (n + 15) 16 ltac:(lia)). pose proof (Z.mod_pos_bound (n + 15) 16 ltac:(lia)). lia.
Qed.

(** An aligned bound above a number is above its alignment. *)
Lemma mp_align_le n e : 0 <= n <= e -> (MP_ALIGNMENT | e) -> mp_align n MP_ALIGNMENT <= e.
Proof.
  intros Hn [k ->]. destruct (mp_align_spec n) as [[j Hj] Hb]; [lia|].
  rewrite Hj in *. unfold MP_ALIGNMENT in *. lia.
Qed.

Lemma path_suffix m cur chain c : path m cur chain -> c ∈ chain ->
  exists l1 l2, chain = l1 ++ c :: l2 /\ path m (Some c) (c :: l2).
Proof.
  revert cur. induction chain as [|x chain IH]; intros cur; simpl; [by intros _ ?%elem_of_nil|].
  intros (-> & e & l & nx & Hx & Hp) [->|Hin]%elem_of_cons.
  - exists [], chain. split; [done|]. simpl. eauto 10.
  - destruct (IH nx Hp Hin) as (l1 & l2 & -> & Hp2). by exists (x :: l1), l2.
Qed.

Lemma path_det m cur c1 c2 : path m cur c1 -> path m cur c2 -> c1 = c2.
Proof.
  revert cur c2. induction c1 as [|x c1 IH]; intros cur [|y c2]; simpl; [done|..].
  1: by intros -> [? _]. 1: by intros [-> _] ?.
  intros (-> & e & l & nx & Hx & Hp) ([= <-] & e' & l' & nx' & Hx' & Hp').
  rewrite Hx in Hx'. injection Hx' as <- <- <-. f_equal. by eapply IH.
Qed.

(** The reference count of a block. *)
Definition quote (m : Mem) (c : Z) : option Z := quote_ <$> smalls_ m !! c.

(** Headers that agree up to [failed_]. *)
Definition same (m m' : Mem) : Prop :=
  live_ m' = live_ m /\ larges_ m' = larges_ m /\ pool_ m' = pool_ m /\
  forall c, sm m' c = sm m c /\ quote m' c = quote m c.

Lemma same_refl m : same m m.
Proof. done. Qed.

Lemma same_trans m1 m2 m3 : same m1 m2 -> same m2 m3 -> same m1 m3.
Proof.
  intros (? & ? & ? & S1) (? & ? & ? & S2). split_and!; try congruence.
  intros c. destruct (S1 c) as [<- <-]. apply S2.
Qed.

Lemma path_ext m m' cur chain : (forall c, c ∈ chain -> snd <$> sm m' c = snd <$> sm m c) ->
  path m cur chain -> path m' cur chain.
Proof.
  revert cur. induction chain as [|c chain IH]; intros cur Hs; simpl; [done|].
  intros (-> & e & l & nx & Hc & Hp). split; [done|].
  pose proof (Hs c ltac:(set_solver)) as X. rewrite Hc in X.
  destruct (sm m' c) as [[[e' l'] nx']|] eqn:Ec; [|done]. injection X as ->.
  exists e', l', nx. split; [done|]. apply IH; [set_solver|done].
Qed.

Lemma path_last m cur l1 last : path m cur (l1 ++ [last]) ->
  exists e l, sm m last = Some (e, l, None).
Proof.
  revert cur. induction l1 as [|c l1 IH]; intros cur; simpl.
  - intros (-> & e & l & nx & Hc & ->). eauto.
  - intros (-> & e & l & nx & Hc & Hp). eauto.
Qed.

(** Linking a new block behind the last one. *)
Lemma path_snoc m m' b e1 l1 e2 l2 : forall l cur last,
  path m cur (l ++ [last]) ->
  (forall c, c ∈ l -> c <> last -> snd <$> sm m' c = snd <$> sm m c) ->
  sm m' last = Some (e1, l1, Some b) -> sm m' b = Some (e2, l2, None) ->
  path m' cur (l ++ [last; b]).
Proof.
  induction l as [|c l IH]; intros cur last Hp Hs Hlast Hb; simpl in *.
  - destruct Hp as (-> & _). split; [done|]. exists e1, l1, (Some b). split; [done|]. eauto 10.
  - destruct Hp as (-> & e & la & nx & Hc & Hp). split; [done|].
    assert (c <> last) as Hne.
    { intros ->. destruct (path_last _ _ _ _ Hp) as (? & ? & X). rewrite Hc in X.
      injection X as -> -> ->. destruct l; simpl in Hp; by destruct Hp. }
    pose proof (Hs c ltac:(set_solver) Hne) as X. rewrite Hc in X.
    destruct (sm m' c) as [[[e' l'] nx']|] eqn:Ec; [|done]. injection X as ->.
    exists e', l', nx. split; [done|]. apply IH; [done|set_solver|done|done].
Qed.

Lemma blk_ext m m' p c : fst <$> sm m' c = fst <$> sm m c -> live_ m ⊆ live_ m' ->
  blk m p c -> blk m' p c.
Proof.
  intros Hs Hl (Hne & l & nx & Hc & ? & ? & ? & ? & Hlive). split; [done|].
  rewrite Hc in Hs. destruct (sm m' c) as [[[e' l'] nx']|] eqn:Ec; [|done]. injection Hs as -> ->.
  exists l, nx'. split_and!; try done; try lia. by eapply lookup_weaken.
Qed.

Section Search.
Context (m : Mem) (p : Z).

Lemma find_small_ok size : forall chain fuel cur,
  path m cur chain -> (forall c, c ∈ chain -> blk m p c) -> (length chain < fuel)%nat ->
  exists r, find_small fuel cur size m = Ret r /\
    match r with
    | None => True
    | Some (c, addr) => c ∈ chain /\ exists n, smalls_ m !! c = Some n /\
        addr = mp_align (last_ n) MP_ALIGNMENT /\ addr + size <= end_ n
    end.
Proof.
  induction chain as [|c chain IH]; intros [|fuel] cur Hp Hb Hf; simpl in *; try lia.
  - subst. by exists None.
  - destruct Hp as (-> & e & l & nx & Hc & Hp).
    destruct (Hb c) as (_ & l' & nx' & Hc' & Hl & Hdiv & Hpos & Hmax & _); [set_solver|].
    rewrite Hc in Hc'. injection Hc' as -> <- <-.
    unfold sm in Hc. destruct (smalls_ m !! c) as [n|] eqn:En; [|done].
    unfold small_at. rewrite En. ostep. injection Hc as He Hla Hnx.
    unfold sizeof_SmallNode, PAGE_SIZE in *.
    assert (0 < c) by (unfold base in *; destruct (decide _); unfold sizeof_Pool in *; lia).
    destruct (mp_align_spec (last_ n)) as [_ Hal]; [lia|].
    assert (mp_align (last_ n) MP_ALIGNMENT <= end_ n) as Hle.
    { apply mp_align_le; [lia|]. rewrite He. unfold MP_ALIGNMENT in *.
      apply Z.divide_add_r; [done|by exists 256]. }
    rewrite u64_small by lia. destruct (_ <=? _) eqn:Es; reflect_bools.
    + eexists. split; [done|]. split; [set_solver|]. exists n. split_and!; [done|done|lia].
    + rewrite Hnx. destruct (IH fuel nx Hp) as (r & Er & Hr); [set_solver|lia|].
      exists r. split; [done|]. destruct r as [[c' a']|]; [|done].
      destruct Hr as [? ?]. split; [set_solver|done].
Qed.

End Search.

(** The walk changes only failure counts, and ends at the last block. *)
Lemma walk_failed_ok chain : forall fuel c current m,
  path m (Some c) (c :: chain) -> (length chain < fuel)%nat -> 
  exists last current' m', walk_failed fuel c current m = Ret (last, current', m') /\
    same m m' /\ (exists l1, c :: chain = l1 ++ [last]) /\
    (current' = current \/ current' ∈ c :: chain).
Proof.
  induction chain as [|c' chain IH]; intros [|fuel] c current m Hp Hf; simpl in *; try lia;
    destruct Hp as (_ & e & l & nx & Hc & Hp);
    unfold sm in Hc; destruct (smalls_ m !! c) as [n|] eqn:En; try done;
    unfold small_at; rewrite En; ostep; injection Hc as He Hla Hnx; rewrite Hnx.
  - subst nx. rewrite Hp. exists c, current, m. split_and!; [done..| |by left]. by exists [].
  - destruct Hp as (-> & Hp).
    set (m1 := upd_small c (with_failed n (u32 (failed_ n + 1))) m).
    assert (same m m1) as S1.
    { split_and!; try done. intros x. unfold m1, sm, quote. simpl.
      destruct (decide (x = c)) as [->|]; [by rewrite lookup_insert_eq, En|by rewrite lookup_insert_ne]. }
    edestruct (IH fuel c' (if 5 <=? failed_ n then c' else current) m1)
      as (last & cur' & m' & -> & S2 & [l1 Hl1] & Hcur); [|lia|].
    { split; [done|]. destruct Hp as (e' & l' & nx' & Hc' & Hp'). exists e', l', nx'.
      split; [by rewrite (proj1 (proj2 (proj2 (proj2 S1)) c'))|].
      eapply path_ext; [|exact Hp']. intros x _. f_equal. apply S1. }
    exists last, cur', m'. split_and!; [done|by eapply same_trans|exists (c :: l1); by rewrite Hl1|].
    destruct Hcur as [->|Hcur]; [destruct (5 <=? failed_ n); [right|left]|right]; set_solver.
Qed.

Lemma base_inj m p c c' : blk m p c -> blk m p c' -> base p c = base p c' -> c = c'.
Proof.
  intros [H1 _] [H2 _]. unfold base. repeat case_decide; congruence.
Qed.

Lemma lpath_ext l l' cur chain : (forall c, c ∈ chain -> l' !! c = l !! c) ->
  lpath l cur chain -> lpath l' cur chain.
Proof.
  revert cur. induction chain as [|c chain IH]; intros cur Hs; simpl; [done|].
  intros (-> & n & Hn & Hp). split; [done|]. exists n. rewrite Hs by set_solver.
  split; [done|]. apply IH; [set_solver|done].
Qed.

Lemma lpath_lookup l cur chain c : lpath l cur chain -> c ∈ chain -> exists n, l !! c = Some n.
Proof.
  revert cur. induction chain as [|x chain IH]; intros cur; simpl; [by intros _ ?%elem_of_nil|].
  intros (-> & n & Hn & Hp) [->|Hin]%elem_of_cons; eauto.
Qed.

(** Rewriting a node without its link. *)
Lemma lpath_update l cur chain c n n' : l !! c = Some n -> lnext_ n' = lnext_ n ->
  lpath l cur chain -> lpath (<[c := n']> l) cur chain.
Proof.
  intros Hc Hn. revert cur. induction chain as [|x chain IH]; intros cur; simpl; [done|].
  intros (-> & k & Hk & Hp). split; [done|]. destruct (decide (x = c)) as [->|Hne].
  - exists n'. rewrite lookup_insert_eq, Hn. split; [done|]. apply IH. congruence.
  - exists k. rewrite lookup_insert_ne by done. split; [done|]. by apply IH.
Qed.

(** A range handed out lies in one live allocation. *)
Lemma alloc_region m p chain x :
  (forall c, c ∈ chain -> blk m p c) -> alloc_ok m p chain x ->
  exists r k, live_ m !! r = Some k /\ r <= fst x /\ fst x + snd x <= r + k /\
    ((exists c e l nx, c ∈ chain /\ r = base p c /\ sm m c = Some (e, l, nx) /\ fst x + snd x <= l) \/
     (forall c, c ∈ chain -> base p c <> r)).
Proof.
  intros Hb (_ & Hs & [(c & e & l & nx & Hc & Hsm & Hlo & Hhi)|[Hl Hn]]).
  - destruct (Hb c Hc) as (_ & l' & nx' & Hsm' & Hl & _ & _ & _ & Hlive).
    rewrite Hsm in Hsm'. injection Hsm' as -> <- <-.
    exists (base p c), PAGE_SIZE. unfold sizeof_SmallNode in *.
    split_and!; [done| |lia|left; by eauto 10].
    unfold base in *. destruct (decide _); unfold sizeof_Pool in *; lia.
  - exists (fst x), (snd x). split_and!; done || lia || eauto.
Qed.

(** A range behind the used part of a block, or in a fresh allocation, meets
    nothing handed out before. *)
Lemma alloc_disj m p chain x c e l nx y :
  (forall c, c ∈ chain -> blk m p c) -> live_disj (live_ m) -> alloc_ok m p chain y ->
  c ∈ chain -> sm m c = Some (e, l, nx) -> l <= fst x -> fst x + snd x <= e ->
  disj x y.
Proof.
  intros Hb Hd Hy Hc Hsm Hlo Hhi. destruct (alloc_region _ _ _ _ Hb Hy) as (r & k & Hr & H1 & H2 & Hcase).
  destruct (Hb c Hc) as (Hnc & l' & nx' & Hsm' & Hl & Hdv & Hp0 & Hmx & Hlive).
  rewrite Hsm in Hsm'. injection Hsm' as -> <- <-.
  destruct (decide (r = base p c)) as [->|Hne].
  - destruct Hcase as [(c' & e' & l' & nx' & Hc' & Hbase & Hsm' & Hend)|Hn]; [|by destruct (Hn c Hc)].
    apply (base_inj m) in Hbase; [|by apply Hb..]. subst c'.
    rewrite Hsm in Hsm'. injection Hsm' as _ <- _. right. lia.
  - destruct (Hd _ _ _ _ Hr Hlive Hne) as [X|X]; simpl in X; unfold sizeof_SmallNode in *; 
      [right|left]; [|lia].
    assert (base p c <= c) by (unfold base; destruct (decide _); unfold sizeof_Pool in *; lia). lia.
Qed.

Lemma fresh_disj m p chain a n y :
  (forall c, c ∈ chain -> blk m p c) -> alloc_ok m p chain y ->
  (forall b k, live_ m !! b = Some k -> disj (a, n) (b, k)) ->
  disj (a, n) y.
Proof.
  intros Hb Hy Hf. destruct (alloc_region _ _ _ _ Hb Hy) as (r & k & Hr & H1 & H2 & _).
  destruct (Hf _ _ Hr) as [X|X]; simpl in X; [left|right]; simpl; lia.
Qed.

(** Memory changes that keep every range handed out. *)
Lemma alloc_ok_mono m m' p chain chain' x :
  (forall c, c ∈ chain -> c ∈ chain') -> live_ m ⊆ live_ m' ->
  (forall c e l nx, c ∈ chain -> sm m c = Some (e, l, nx) ->
     exists l' nx', sm m' c = Some (e, l', nx') /\ l <= l') ->
  (forall c, c ∈ chain' -> c ∈ chain \/ live_ m !! base p c = None) ->
  alloc_ok m p chain x -> alloc_ok m' p chain' x.
Proof.
  intros Hsub Hl Hs Hnew (Hd & H0 & Hx). split; [done|]. split; [done|].
  destruct Hx as [(c & e & l & nx & Hc & Hsm & Hlo & Hhi)|[Hx Hn]].
  - left. destruct (Hs _ _ _ _ Hc Hsm) as (l' & nx' & Hsm' & Hle).
    exists c, e, l', nx'. split_and!; [by apply Hsub|done|done|lia].
  - right. split; [by eapply lookup_weaken|]. intros c Hc. destruct (Hnew c Hc) as [Ho|Ho]; [by apply Hn|].
    intros E. rewrite E in Ho. congruence.
Qed.

Lemma live_disj_insert live a n : live_disj live ->
  (forall b k, live !! b = Some k -> disj (a, n) (b, k)) -> live_disj (<[a := n]> live).
Proof.
  intros Hd Hf x i y j Hx Hy Hne. rewrite lookup_insert_Some in Hx, Hy.
  destruct Hx as [[<- <-]|[_ Hx]], Hy as [[<- <-]|[_ Hy]]; [done|by apply Hf| |by apply Hd].
  destruct (Hf _ _ Hx); [by right|by left].
Qed.

(** The page of the pool object is live. *)
Lemma path_head m p cur (chain : list Z) : path m (Some cur) chain -> cur = p + sizeof_Pool ->
  (forall c, c ∈ chain -> blk m p c) -> live_ m !! p = Some PAGE_SIZE.
Proof.
  intros Hp -> Hb. destruct chain as [|c chain]; [done|]. destruct Hp as [[= <-] _].
  destruct (Hb (p + sizeof_Pool)) as (_ & ? & ? & _ & _ & _ & _ & _ & Hl); [set_solver|].
  unfold base in Hl. by rewrite decide_True in Hl.
Qed.

(** A fresh block is not the first one. *)
Lemma base_fresh m p cur chain a n : 0 < n ->
  path m (Some cur) chain -> cur = p + sizeof_Pool -> (forall c, c ∈ chain -> blk m p c) ->
  (forall b k, live_ m !! b = Some k -> disj (a, n) (b, k)) -> base p a = a.
Proof.
  intros Hn Hp Hh Hb Hf. unfold base. destruct (decide _) as [->|]; [|done].
  destruct (Hf _ _ (path_head _ _ _ _ Hp Hh Hb)) as [Y|Y]; simpl in Y;
    unfold sizeof_Pool, PAGE_SIZE in *; lia.
Qed.

Lemma disj_sub a n x y : disj (a, n) y -> a <= fst x -> fst x + snd x <= a + n -> disj x y.
Proof. intros [X|X] ? ?; [left|right]; simpl in *; lia. Qed.

(** A fresh block is none of the chain's. *)
Lemma fresh_not_in m p (chain : list Z) a n : 0 < n ->
  (forall c, c ∈ chain -> blk m p c) -> a <> p ->
  (forall b k, live_ m !! b = Some k -> disj (a, n) (b, k)) -> live_ m !! a = None -> 
  a ∉ chain /\ (forall c, c ∈ chain -> base p c <> a).
Proof.
  intros Hn Hb Hp Hf Hl. assert (forall c, c ∈ chain -> base p c <> a) as H2.
  { intros c Hc E. destruct (Hb c Hc) as (_ & ? & ? & _ & _ & _ & _ & _ & X).
    rewrite E in X. congruence. }
  split; [|done]. intros Hin. pose proof (H2 a Hin) as X. unfold base in X.
  destruct (decide (a = p + sizeof_Pool)) as [->|]; [|done].
  destruct (Hb _ Hin) as (_ & ? & ? & _ & _ & _ & _ & _ & Hlive). unfold base in Hlive.
  rewrite decide_True in Hlive by done. destruct (Hf _ _ Hlive) as [Y|Y]; simpl in Y;
    unfold sizeof_Pool, PAGE_SIZE in *; lia.
Qed.

(** *** Changes of the invariant *)

Lemma pairwise_perm l k : l ≡ₚ k -> pairwise l -> pairwise k.
Proof.
  induction 1 as [|x l k Hp IH|x y l|l k j _ IH1 _ IH2]; simpl; [done|..].
  - intros [Hx Hl]. split; [by rewrite <- Hp|by apply IH].
  - intros (Hy & Hx & Hl). apply Forall_cons in Hy as [[Hxy|Hxy] Hy]; split_and!; try done;
      apply Forall_cons; (split; [|done]); [by right|by left].
  - auto.
Qed.

Lemma pinv_perm m p pl chain lchain l k : l ≡ₚ k ->
  pinv m p pl chain lchain l -> pinv m p pl chain lchain k.
Proof.
  intros Hp (? & ? & ? & ? & ? & [? Hla] & ? & Ha & Hpw). split_and!; try done.
  - intros c Hc. rewrite <- Hp. by apply Hla.
  - by rewrite <- Hp.
  - by eapply pairwise_perm.
Qed.

Lemma find_free_large_ok m count : forall lchain node,
  lpath (larges_ m) node lchain ->
  exists r, find_free_large count node m = Ret r /\
    match r with
    | Some a => a ∈ lchain /\ exists n, larges_ m !! a = Some n /\ address_ n = None
    | None => True
    end.
Proof.
  induction count as [|count IH]; intros [|c lchain] node Hp; simpl in Hp;
    try (subst; by exists None); destruct Hp as (-> & n & Hn & Hp); simpl; unfold large_at;
    rewrite Hn; ostep; destruct (address_ n) eqn:Ea.
  - by exists None.
  - exists (Some c). split; [done|]. split; [set_solver|eauto].
  - destruct (IH lchain (lnext_ n) Hp) as (r & -> & Hr). exists r. split; [done|].
    destruct r; [|done]. destruct Hr as [? ?]. split; [set_solver|done].
  - exists (Some c). split; [done|]. split; [set_solver|eauto].
Qed.

(** Freeing an allocation of its own. *)
Lemma drop_alloc m p pl chain lchain allocs x :
  pinv m p pl chain lchain (x :: allocs) -> live_ m !! fst x = Some (snd x) ->
  (forall c, c ∈ chain -> base p c <> fst x) ->
  (forall c, c ∈ lchain -> (c, sizeof_LargeNode) ∈ allocs) ->
  exists m', free (Some (fst x)) m = Ret m' /\ pinv m' p pl chain lchain allocs /\
    live_ m' = delete (fst x) (live_ m) /\
    (forall c, c ∈ chain -> smalls_ m' !! c = smalls_ m !! c) /\
    (forall c, c ∈ lchain -> larges_ m' !! c = larges_ m !! c).
Proof.
  intros (Hpool & Hh & Hp & Hb & Hcur & [Hlp _] & Hd & Hax & Hxd & Hpw) Hx Hbase Hla.
  apply Forall_cons in Hax as [(_ & Hx0 & _) Ha]. simpl. rewrite Hx. ostep. eexists. split; [done|].
  set (m' := mkMem _ _ _ _). rewrite Forall_forall in Hxd.
  assert (forall c, c ∈ chain -> smalls_ m' !! c = smalls_ m !! c) as Hsm.
  { intros c Hc. unfold m'. simpl. rewrite map_lookup_filter.
    destruct (smalls_ m !! c) as [n|] eqn:En; [|done]. simpl. rewrite option_guard_True; [done|].
    destruct (Hb c Hc) as (_ & l & nx & _ & Hl & _ & _ & _ & Hlv).
    destruct (Hd _ _ _ _ Hx Hlv) as [X|X]; simpl in *; [by apply not_eq_sym, Hbase|..];
      unfold base, sizeof_SmallNode, sizeof_Pool, PAGE_SIZE in *; destruct (decide _); lia. }
  assert (forall c, c ∈ lchain -> larges_ m' !! c = larges_ m !! c) as Hlm.
  { intros c Hc. unfold m'. simpl. rewrite map_lookup_filter.
    destruct (larges_ m !! c) as [n|]; [|done]. simpl. apply option_guard_True.
    destruct (Hxd _ (Hla c Hc)) as [X|X]; simpl in X; unfold sizeof_LargeNode in X; lia. }
  split; [|by split_and!]. split_and!; try done.
  - eapply path_ext; [|exact Hp]. intros c Hc. unfold sm. by rewrite Hsm.
  - intros c Hc. destruct (Hb c Hc) as (Hne & l & nx & Hs & Hl & ? & ? & ? & Hlv). split; [done|].
    exists l, nx. unfold sm. rewrite Hsm by done. split_and!; try done; try lia. simpl.
    rewrite lookup_delete_ne; [done|]. by apply not_eq_sym, Hbase.
  - by eapply lpath_ext.
  - intros a n b k Ha' Hb'. simpl in Ha', Hb'. apply lookup_delete_Some in Ha' as [_ ?], Hb' as [_ ?]. by apply Hd.
  - rewrite Forall_forall in *. intros y Hy. destruct (Ha y Hy) as (? & Hy0 & Hcase).
    split; [done|]. split; [done|]. destruct Hcase as [(c & e & l & nx & Hc & Hs & ? & ?)|[Hl Hn]].
    + left. exists c, e, l, nx. unfold sm. rewrite Hsm by done. by split_and!.
    + right. split; [|done]. simpl. rewrite lookup_delete_ne; [done|]. intros E.
      destruct (Hxd _ Hy) as [X|X]; lia.
Qed.

(** Changes to the list of large allocations only. *)
Lemma pinv_frame m m' p pl pl' chain lchain lchain' allocs :
  pinv m p pl chain lchain allocs ->
  smalls_ m' = smalls_ m -> live_ m' = live_ m -> pool_ m' = Some (p, pl') ->
  head_ pl' = head_ pl -> current_ pl' = current_ pl ->
  lpath (larges_ m') (largeList_ pl') lchain' ->
  (forall c, c ∈ lchain' -> (c, sizeof_LargeNode) ∈ allocs) ->
  pinv m' p pl' chain lchain' allocs.
Proof.
  intros (Hpool & Hh & Hp & Hb & Hcur & _ & Hd & Ha & Hpw) Es El Epool Eh Ec Hl Hla.
  assert (forall c, sm m' c = sm m c) as Hsm by (intros; unfold sm; by rewrite Es).
  split_and!; try done; rewrite ?Eh, ?Ec, ?El; try done.
  - eapply path_ext; [|exact Hp]. intros c _. by rewrite Hsm.
  - intros c Hc. apply (blk_ext m m'); [by rewrite Hsm|by rewrite El|by apply Hb].
  - eapply Forall_impl; [exact Ha|]. intros y Hy. eapply alloc_ok_mono; [..|exact Hy];
      [done|by rewrite El| |by left].
    intros c e l nx _ Hsc. exists l, nx. rewrite Hsm. split; [done|lia].
Qed.

(** A node for a large allocation in front of the list. *)
Lemma new_node m p pl chain lchain allocs x node size :
  pinv m p pl chain lchain ((node, sizeof_LargeNode) :: x :: allocs) ->
  (forall c, c ∈ lchain -> (c, sizeof_LargeNode) ∈ x :: allocs) ->
  pinv (upd_pool (fun pl => mkPool (Some node) (head_ pl) (current_ pl))
          (upd_large node (mkLarge (Some (fst x)) (u32 size) (largeList_ pl)) m))
    p (mkPool (Some node) (head_ pl) (current_ pl)) chain (node :: lchain)
    (x :: (node, sizeof_LargeNode) :: allocs).
Proof.
  intros I Hla. pose proof I as (Hpool & _ & _ & _ & _ & [Hlp _] & _ & _ & Hpw & _).
  eapply pinv_perm; [apply Permutation_swap|].
  eapply (pinv_frame m _ p pl (mkPool (Some node) (head_ pl) (current_ pl)) chain lchain
    (node :: lchain)); try done.
  - simpl. by rewrite Hpool.
  - split; [done|]. eexists. split; [apply lookup_insert_eq|]. simpl.
    eapply lpath_ext; [|exact Hlp]. intros c Hc. rewrite lookup_insert_ne; [done|].
    intros ->. rewrite Forall_forall in Hpw.
    destruct (Hpw _ (Hla c Hc)) as [X|X]; simpl in X; unfold sizeof_LargeNode in X; lia.
  - intros c [->|Hc]%elem_of_cons; [set_solver|]. specialize (Hla c Hc). set_solver.
Qed.

Section Malloc.
Context (memalign : gmap Z Z -> Z -> option Z) (junk : Z -> SmallNode).
Context (Halign : memalign_law memalign).

(** Taking [size] bytes in a block that has room for them. *)
Lemma take_small m p pl chain lchain allocs size c n :
  pinv m p pl chain lchain allocs -> 0 < size -> c ∈ chain -> smalls_ m !! c = Some n ->
  let addr := mp_align (last_ n) MP_ALIGNMENT in
  addr + size <= end_ n ->
  pinv (upd_small c (with_last (with_quote n (u32 (quote_ n + 1))) (addr + size)) m)
    p pl chain lchain ((addr, size) :: allocs).
Proof.
  intros (Hpool & Hh & Hp & Hb & Hcur & Hlp & Hd & Ha & Hpw) Hs Hc Hn addr Hend.
  set (m' := upd_small _ _ m).
  assert (sm m c = Some (end_ n, last_ n, next_ n)) as Hsm by (unfold sm; by rewrite Hn).
  destruct (Hb c Hc) as (Hnp & l' & nx' & Hsm' & Hl & Hdv & Hp0 & Hmx & Hlive).
  rewrite Hsm in Hsm'. injection Hsm' as He <- <-. unfold sizeof_SmallNode, PAGE_SIZE in *.
  assert (0 < c) by (unfold base in *; destruct (decide _); unfold sizeof_Pool in *; lia).
  destruct (mp_align_spec (last_ n)) as [Hda Hal]; [lia|]. fold addr in Hda, Hal.
  assert (sm m' c = Some (end_ n, addr + size, next_ n)) as Hc'
    by (unfold m', sm; simpl; by rewrite lookup_insert_eq).
  assert (forall x, x <> c -> sm m' x = sm m x) as Hx
    by (intros; unfold m', sm; simpl; by rewrite lookup_insert_ne).
  split_and!; try done; [..|by apply Hlp|intros x Hxl; apply elem_of_cons; right; by apply Hlp| |].
  - eapply path_ext; [|exact Hp]. intros x _. destruct (decide (x = c)) as [->|];
      [by rewrite Hc', Hsm|by rewrite Hx].
  - intros x Hxc. destruct (decide (x = c)) as [->|Hne].
    + split; [done|]. exists (addr + size), (next_ n). rewrite Hc', He.
      split_and!; try done; unfold PAGE_SIZE, sizeof_SmallNode; lia.
    + apply (blk_ext m m'); [by rewrite Hx|done|by apply Hb].
  - constructor.
    + split; [done|]. split; [done|]. left. exists c, (end_ n), (addr + size), (next_ n).
      split_and!; try done; unfold sizeof_SmallNode; simpl; lia.
    + eapply Forall_impl; [exact Ha|]. intros y Hy.
      eapply alloc_ok_mono; [..|exact Hy]; [done|done| |by left].
      intros x e l nx Hxc Hxs. destruct (decide (x = c)) as [->|Hne].
      * rewrite Hsm in Hxs. injection Hxs as <- <- <-. exists (addr + size), (next_ n). split; [done|lia].
      * exists l, nx. rewrite Hx by done. split; [done|lia].
  - simpl. split; [|done]. rewrite Forall_forall in *. intros y Hy.
    eapply (alloc_disj m p chain (addr, size)); try done; [by apply Ha|simpl; lia].
Qed.

(** A new block at the end of the chain. *)
Lemma link_block m p pl chain lchain allocs size block last e l current' m2 n0 nl :
  pinv m p pl chain lchain allocs -> 0 < size <= PAGE_SIZE - sizeof_SmallNode ->
  memalign (live_ m) PAGE_SIZE = Some block ->
  last ∈ chain -> (exists l1, chain = l1 ++ [last]) -> current' ∈ chain ->
  sm m last = Some (e, l, None) -> view n0 = (block + PAGE_SIZE, block + 32 + size, None) ->
  same (upd_small block n0 (set_live (<[block := PAGE_SIZE]> (live_ m)) m)) m2 ->
  smalls_ m2 !! last = Some nl ->
  pinv (upd_pool (fun p => mkPool (largeList_ p) (head_ p) current')
          (upd_small last (with_next nl (Some block)) m2))
    p (mkPool (largeList_ pl) (head_ pl) current') (chain ++ [block]) lchain
    ((block + 32, size) :: allocs).
Proof.
  intros (Hpool & Hh & Hp & Hb & Hcur & Hlp & Hd & Ha & Hpw) Hs Hal Hlast [l1 Hl1] Hcur' Hsl Hv
    (S1 & S2 & S3 & S4) Hnl.
  destruct (Halign _ _ _ Hal) as (Hdv & Hpos & Hmax & Hfree & Hdisj).
  assert (block <> p) as Hbp.
  { intros ->. rewrite (path_head _ _ _ _ Hp Hh Hb) in Hfree. done. }
  destruct (fresh_not_in m p chain block PAGE_SIZE ltac:(done) Hb Hbp Hdisj Hfree) as [Hnin Hbase].
  set (m' := upd_pool _ _).
  assert (forall c, c <> block -> sm m2 c = sm m c) as Hold.
  { intros c Hne. rewrite (proj1 (S4 c)). unfold sm. simpl. by rewrite lookup_insert_ne. }
  assert (last <> block) as Hlb by (intros ->; done).
  assert (sm m' last = Some (e, l, Some block)) as Hlast'.
  { unfold m', sm. simpl. rewrite lookup_insert_eq. simpl. unfold view. simpl.
    pose proof (Hold last Hlb) as X. rewrite Hsl in X. unfold sm in X. rewrite Hnl in X.
    injection X as -> -> _. done. }
  assert (sm m' block = Some (block + PAGE_SIZE, block + 32 + size, None)) as Hblock'.
  { unfold m', sm. simpl. rewrite lookup_insert_ne by done. rewrite <- Hv.
    change (sm m2 block = Some (view n0)). rewrite (proj1 (S4 block)). unfold sm. simpl. by rewrite lookup_insert_eq. }
  assert (forall c, c <> block -> c <> last -> sm m' c = sm m c) as Hother.
  { intros c Hc1 Hc2. rewrite <- Hold by done. unfold m', sm. simpl. by rewrite lookup_insert_ne. }
  assert (live_ m' = <[block := PAGE_SIZE]> (live_ m)) as Hlive by (unfold m'; simpl; by rewrite S1).
  assert (live_ m ⊆ live_ m') as Hsub by (rewrite Hlive; by apply insert_subseteq).
  split_and!; try done.
  - unfold m'. simpl. rewrite S3. simpl. by rewrite Hpool.
  - rewrite Hl1, <- app_assoc. simpl. simpl head_. rewrite Hl1 in Hp.
    eapply path_snoc; [exact Hp| |exact Hlast'|exact Hblock'].
    intros c Hc Hne. rewrite Hother; [done| |done]. intros ->. apply Hnin. rewrite Hl1. set_solver.
  - intros c [Hc|Hc]%elem_of_app; [|apply list_elem_of_singleton in Hc as ->].
    + apply (blk_ext m m'); [|exact Hsub|by apply Hb]. destruct (decide (c = last)) as [->|Hne];
        [by rewrite Hlast', Hsl|]. rewrite Hother; [done| |done]. by intros ->.
    + split; [done|]. exists (block + 32 + size), None.
      rewrite (base_fresh m p _ chain block PAGE_SIZE ltac:(done) Hp Hh Hb Hdisj).
      rewrite Hblock', Hlive, lookup_insert_eq. unfold sizeof_SmallNode, PAGE_SIZE in *.
      split_and!; try done; lia.
  - simpl. set_solver.
  - unfold m'. simpl. rewrite S2. apply Hlp.
  - intros x Hx. apply elem_of_cons; right. by apply Hlp.
  - rewrite Hlive. by apply live_disj_insert.
  - constructor.
    + split; [|split; [simpl; lia|left]].
      * simpl. apply Z.divide_add_r; [done|by exists 2].
      * exists block, (block + PAGE_SIZE), (block + 32 + size), None.
        split_and!; [set_solver|done|simpl; unfold sizeof_SmallNode; lia|simpl; lia].
    + eapply Forall_impl; [exact Ha|]. intros y Hy. eapply alloc_ok_mono; [..|exact Hy].
      * set_solver.
      * done.
      * intros c e' l' nx' Hc Hsc. destruct (decide (c = last)) as [->|Hne].
        -- rewrite Hsl in Hsc. injection Hsc as <- <- <-. exists l, (Some block). split; [done|lia].
        -- exists l', nx'. rewrite Hother; [split; [done|lia]| |done]. by intros ->.
      * intros c [Hc|Hc]%elem_of_app; [by left|apply list_elem_of_singleton in Hc as ->; right].
        by rewrite (base_fresh m p _ chain block PAGE_SIZE ltac:(done) Hp Hh Hb Hdisj).
  - split; [|done]. rewrite Forall_forall in *. intros y Hy.
    eapply (disj_sub block PAGE_SIZE); [|simpl; lia|simpl; unfold sizeof_SmallNode in *; lia].
    eapply fresh_disj; [exact Hb|by apply Ha|exact Hdisj].
Qed.

(** The reference counts when [a] is taken from a block of the chain or from
    a new one. *)
Definition took m m' p (chain chain' : list Z) (a : Z) : Prop :=
  (chain' = chain /\ live_ m' = live_ m /\ exists c, c ∈ chain /\ in_block p c a /\
     forall x, x ∈ chain ->
       quote m' x = (fun n => if decide (x = c) then u32 (n + 1) else n) <$> quote m x) \/
  (exists b, chain' = chain ++ [b] /\ b ∉ chain /\ live_ m !! b = None /\
     live_ m' = <[b := PAGE_SIZE]> (live_ m) /\ base p b = b /\ in_block p b a /\
     quote m' b = Some (u32 (quote_ (junk b) + 1)) /\
     forall x, x ∈ chain -> quote m' x = quote m x).

(** What an allocation of [size] bytes gives: nothing when the C heap is
    exhausted, or a range that extends the invariant. *)
Definition malloc_post m p (pl : Pool) (chain lchain : list Z) allocs size (r : option Z) m' : Prop :=
  match r with
  | None => m' = m
  | Some a => exists pl' chain', pinv m' p pl' chain' lchain ((a, size) :: allocs) /\
      (length chain' <= S (length chain))%nat /\ largeList_ pl' = largeList_ pl /\
      larges_ m' = larges_ m /\ live_ m ⊆ live_ m' /\ took m m' p chain chain' a
  end.

Lemma mallocSmallNode_ok fuel m p pl chain lchain allocs size :
  pinv m p pl chain lchain allocs -> 0 < size <= PAGE_SIZE - sizeof_SmallNode ->
  (length chain < fuel)%nat ->
  exists r m', mallocSmallNode memalign junk fuel size m = Ret (r, m') /\
    malloc_post m p pl chain lchain allocs size r m'.
Proof.
  intros I Hs Hf. pose proof I as (Hpool & Hh & Hp & Hb & Hcur & Hlp & Hd & Ha & Hpw).
  unfold mallocSmallNode. destruct (memalign (live_ m) PAGE_SIZE) as [block|] eqn:Eal; [|by exists None, m].
  destruct (Halign _ _ _ Eal) as (Hdv & Hpos & Hmax & Hfree & Hdisj).
  assert (mp_align (block + sizeof_SmallNode) MP_ALIGNMENT = block + 32) as ->.
  { unfold sizeof_SmallNode. destruct (mp_align_spec (block + 32)) as [[k Hk] Hb2]; [lia|].
    destruct Hdv as [j Hj]. unfold MP_ALIGNMENT in *. lia. }
  set (n0 := mkSmall _ _ _ _ None). set (m1 := upd_small block n0 _).
  assert (the_pool m1 = Ret (p, pl)) as -> by (unfold the_pool, m1; simpl; by rewrite Hpool). ostep.
  assert (block <> p) as Hbp.
  { intros ->. rewrite (path_head _ _ _ _ Hp Hh Hb) in Hfree. done. }
  destruct (fresh_not_in m p chain block PAGE_SIZE ltac:(done) Hb Hbp Hdisj Hfree) as [Hnin _].
  assert (forall c, c ∈ chain -> sm m1 c = sm m c) as Hold.
  { intros c Hc. unfold m1, sm. simpl. rewrite lookup_insert_ne; [done|]. by intros ->. }
  destruct (path_suffix _ _ _ _ Hp Hcur) as (l1 & l2 & Hl & Hp2).
  destruct (walk_failed_ok l2 fuel (current_ pl) (current_ pl) m1)
    as (last & current' & m2 & -> & S & [l3 Hl3] & Hc').
  { eapply path_ext; [|exact Hp2]. intros c Hc. rewrite Hold; [done|]. rewrite Hl. set_solver. }
  { rewrite Hl, length_app in Hf. simpl in Hf. lia. }
  ostep. rewrite Hl3 in Hl. rewrite app_assoc in Hl.
  assert (last ∈ chain) as Hlast by (rewrite Hl; set_solver).
  rewrite Hl in Hp. destruct (path_last _ _ _ _ Hp) as (e & l & Hsl). rewrite <- Hl in Hp.
  assert (sm m2 last = Some (e, l, None)) as Hsl2.
  { destruct S as (_ & _ & _ & S4). by rewrite (proj1 (S4 last)), Hold. }
  unfold sm in Hsl2. destruct (smalls_ m2 !! last) as [nl|] eqn:En; [|done].
  unfold small_at. rewrite En. ostep. do 2 eexists. split; [done|].
  exists (mkPool (largeList_ pl) (head_ pl) current'), (chain ++ [block]).
  pose proof (link_block m p pl chain lchain allocs size block last e l current' m2 n0 nl) as X.
  split.
  { apply X; try done; [by eexists|]. destruct Hc' as [->|Hc']; [done|].
    rewrite Hl3 in Hc'. rewrite Hl. set_solver. }
  split_and!; [rewrite length_app; simpl; lia|done|simpl; apply S| |].
  { simpl. destruct S as (-> & _). unfold m1. simpl. by apply insert_subseteq. }
  right. exists block. destruct S as (Slive & _ & _ & S4).
  assert (forall c, quote (upd_pool (fun p => mkPool (largeList_ p) (head_ p) current')
    (upd_small last (with_next nl (Some block)) m2)) c = quote m1 c) as Hq.
  { intros c. rewrite <- (proj2 (S4 c)). unfold quote. simpl. destruct (decide (c = last)) as [->|];
      [by rewrite lookup_insert_eq, En|by rewrite lookup_insert_ne]. }
  pose proof (base_fresh m p _ chain block PAGE_SIZE ltac:(done) Hp Hh Hb Hdisj) as Hbb.
  split_and!; try done.
  - unfold in_block. rewrite Hbb. unfold PAGE_SIZE, sizeof_SmallNode in *. lia.
  - rewrite Hq. unfold quote, m1. simpl. by rewrite lookup_insert_eq.
  - intros x Hx. rewrite Hq. unfold quote, m1. simpl. rewrite lookup_insert_ne; [done|]. by intros ->.
Qed.

Lemma malloc_small_ok fuel m p pl chain lchain allocs size :
  pinv m p pl chain lchain allocs -> 0 < size <= PAGE_SIZE - sizeof_SmallNode ->
  (length chain < fuel)%nat ->
  exists r m', malloc_small memalign junk fuel size m = Ret (r, m') /\
    malloc_post m p pl chain lchain allocs size r m'.
Proof.
  intros I Hs Hf. pose proof I as (Hpool & Hh & Hp & Hb & Hcur & Hlp & Hd & Ha & Hpw).
  unfold malloc_small, the_pool. rewrite Hpool. ostep.
  destruct (path_suffix _ _ _ _ Hp Hcur) as (l1 & l2 & Hl & Hp2).
  destruct (find_small_ok m p size (current_ pl :: l2) fuel (Some (current_ pl)) Hp2)
    as (r & -> & Hr); [intros c Hc; apply Hb; rewrite Hl; set_solver|
                       rewrite Hl, length_app in Hf; simpl in *; lia|].
  ostep. destruct r as [[c addr]|].
  - destruct Hr as (Hc & n & Hn & -> & Hend). unfold small_at. rewrite Hn. ostep.
    do 2 eexists. split; [done|]. exists pl, chain.
    assert (c ∈ chain) as Hcc by (rewrite Hl; set_solver).
    assert (pinv (upd_small c (with_last (with_quote n (u32 (quote_ n + 1)))
      (mp_align (last_ n) MP_ALIGNMENT + size)) m) p pl chain lchain
      ((mp_align (last_ n) MP_ALIGNMENT, size) :: allocs)) as I'
      by (by apply (take_small m p pl chain lchain allocs size c n); try done; lia).
    split_and!; try done; [lia|]. left. split; [done|]. split; [done|]. exists c. split_and!; [done| |].
    + destruct (Hb c Hcc) as (_ & l' & nx' & Hsm' & Hll & Hdv & Hp0 & _). unfold sm in Hsm'.
      rewrite Hn in Hsm'. injection Hsm' as He <- <-. unfold in_block, sizeof_SmallNode, PAGE_SIZE in *.
      assert (base p c <= c) by (unfold base; destruct (decide _); unfold sizeof_Pool in *; lia).
      destruct (mp_align_spec (last_ n)) as [_ ?]; lia.
    + intros x Hx. unfold quote. simpl. case_decide as Hxc; [subst x|rewrite lookup_insert_ne by done; by destruct (_ !! x)].
      by rewrite lookup_insert_eq, Hn.
  - by apply (mallocSmallNode_ok fuel m p pl chain lchain allocs size).
Qed.

(** *** Large allocations *)

(** An allocation of its own. *)
Lemma add_large m p pl chain lchain allocs size addr :
  pinv m p pl chain lchain allocs -> 0 < size -> memalign (live_ m) size = Some addr ->
  pinv (set_live (<[addr := size]> (live_ m)) m) p pl chain lchain ((addr, size) :: allocs).
Proof.
  intros (Hpool & Hh & Hp & Hb & Hcur & Hlp & Hd & Ha & Hpw) Hs Hal.
  destruct (Halign _ _ _ Hal) as (Hdv & Hpos & Hmax & Hfree & Hdisj).
  assert (addr <> p) as Hbp.
  { intros ->. rewrite (path_head _ _ _ _ Hp Hh Hb) in Hfree. done. }
  destruct (fresh_not_in m p chain addr size Hs Hb Hbp Hdisj Hfree) as [_ Hbase].
  set (m' := set_live _ m). assert (live_ m ⊆ live_ m') as Hsub by (by apply insert_subseteq).
  split_and!; try done; [by eapply path_ext; [|exact Hp]| |by apply Hlp|
    intros x Hxl; apply elem_of_cons; right; by apply Hlp|..].
  - intros c Hc. apply (blk_ext m m'); [done|done|by apply Hb].
  - by apply live_disj_insert.
  - constructor.
    + split; [done|]. split; [done|]. right. simpl. by rewrite lookup_insert_eq.
    + eapply Forall_impl; [exact Ha|]. intros y Hy. eapply alloc_ok_mono; [..|exact Hy]; [done|done| |by left].
      intros c e l nx _ Hsc. exists l, nx. split; [done|lia].
  - split; [|done]. rewrite Forall_forall in *. intros y Hy.
    eapply fresh_disj; [exact Hb|by apply Ha|done].
Qed.

Lemma drop_large m p pl chain lchain allocs size addr :
  pinv m p pl chain lchain allocs -> 0 < size -> memalign (live_ m) size = Some addr ->
  exists m', free (Some addr) (set_live (<[addr := size]> (live_ m)) m) = Ret m' /\
    pinv m' p pl chain lchain allocs /\ live_ m' = live_ m /\
    (forall c, c ∈ chain -> smalls_ m' !! c = smalls_ m !! c) /\
    (forall c, c ∈ lchain -> larges_ m' !! c = larges_ m !! c).
Proof.
  intros I Hs Hal. pose proof (add_large _ _ _ _ _ _ _ _ I Hs Hal) as I1.
  destruct I as (_ & Hh & Hp & Hb & _ & [_ Hla] & _).
  destruct (Halign _ _ _ Hal) as (_ & _ & _ & Hfree & Hdisj).
  assert (addr <> p) as Hbp by (intros ->; by rewrite (path_head _ _ _ _ Hp Hh Hb) in Hfree).
  destruct (fresh_not_in m p chain addr size Hs Hb Hbp Hdisj Hfree) as [_ Hbase].
  destruct (drop_alloc _ _ _ _ _ _ _ I1) as (m' & Em & I' & El & Hsm & Hlm); [|done|done|].
  - simpl. by rewrite lookup_insert_eq.
  - exists m'. split_and!; try done. rewrite El. simpl. by rewrite delete_insert_eq, delete_id.
Qed.

(** What [malloc] guarantees: besides the range returned, at most one range
    for a list node was taken. *)
Definition malloc_post_all p allocs size (n : nat) (r : option Z) m' : Prop :=
  exists pl' chain' lchain', (length chain' <= S n)%nat /\
  match r with
  | None => pinv m' p pl' chain' lchain' allocs
  | Some a => exists extra, pinv m' p pl' chain' lchain' ((a, size) :: extra ++ allocs)
  end.

Lemma mallocLargeNode_ok fuel m p pl chain lchain allocs size :
  pinv m p pl chain lchain allocs -> 0 < size -> (length chain < fuel)%nat ->
  exists r m', mallocLargeNode memalign junk fuel size m = Ret (r, m') /\
    malloc_post_all p allocs size (length chain) r m'.
Proof.
  intros I Hs Hf. unfold mallocLargeNode.
  destruct (memalign (live_ m) size) as [addr|] eqn:Eal.
  2:{ exists None, m. split; [done|]. exists pl, chain, lchain. by split; [lia|]. }
  pose proof (add_large m p pl chain lchain allocs size addr I Hs Eal) as I1.
  set (m1 := set_live _ m) in *. pose proof I1 as (Hpool & _ & _ & _ & _ & [Hlp Hla] & _).
  assert (the_pool m1 = Ret (p, pl)) as -> by (unfold the_pool; by rewrite Hpool). ostep.
  destruct (find_free_large_ok m1 4 lchain _ Hlp) as (r & -> & Hr). ostep. destruct r as [a|].
  - destruct Hr as (_ & n & Hn & _). unfold large_at. rewrite Hn. ostep.
    do 2 eexists. split; [done|]. exists pl, chain, lchain. split; [lia|]. exists [].
    eapply (pinv_frame m1); try done. simpl. by eapply lpath_update.
  - destruct (malloc_small_ok fuel m1 p pl chain lchain _ sizeof_LargeNode I1 ltac:(done) Hf)
      as (r & m2 & -> & Hpost). ostep. destruct r as [node|]; simpl in Hpost.
    + destruct Hpost as (pl2 & chain2 & I2 & Hlen & Hll & Hlarges & _).
      pose proof I2 as (Hpool2 & _ & _ & _ & _ & [Hlp2 Hla2] & _ & _ & Hpw2 & _).
      assert (the_pool m2 = Ret (p, pl2)) as -> by (unfold the_pool; by rewrite Hpool2).
      ostep. do 2 eexists. split; [done|].
      do 3 eexists. split; [exact Hlen|]. exists [(node, sizeof_LargeNode)]. simpl.
      eapply (new_node m2 p pl2 chain2 lchain allocs (addr, size)); [exact I2|].
      intros c Hc. by apply Hla.
    + subst m2. destruct (drop_large m p pl chain lchain allocs size addr I Hs Eal) as (m3 & E3 & I3 & _).
      fold m1 in E3. rewrite E3. ostep. exists None, m3. split; [done|]. exists pl, chain, lchain. by split; [lia|].
Qed.

Lemma malloc_ok fuel m p pl chain lchain allocs size :
  pinv m p pl chain lchain allocs -> (length chain < fuel)%nat ->
  exists r m', malloc memalign junk fuel size m = Ret (r, m') /\
    malloc_post_all p allocs size (length chain) r m'.
Proof.
  intros I Hf. unfold malloc. destruct (size <=? 0) eqn:E0; reflect_bools.
  - exists None, m. split; [done|]. exists pl, chain, lchain. by split; [lia|].
  - destruct (_ <? size) eqn:E1; reflect_bools; [by eapply mallocLargeNode_ok|].
    destruct (malloc_small_ok fuel m p pl chain lchain allocs size I) as (r & m' & -> & Hp); [lia..|].
    do 2 eexists. split; [done|]. destruct r as [a|]; simpl in Hp.
    + destruct Hp as (pl' & chain' & I' & Hl & _). exists pl', chain', lchain. split; [done|].
      by exists [].
    + subst m'. exists pl, chain, lchain. by split; [lia|].
Qed.

End Malloc.

(** ** Properties *)

(** Several requests; the ranges obtained, newest first. *)
Fixpoint mallocs memalign junk (fuel : nat) (sizes : list Z) (acc : list (Z * Z)) (m : Mem)
    : outcome (list (Z * Z) * Mem) :=
  match sizes with
  | [] => mret (acc, m)
  | size :: sizes' =>
      '(r, m') ← malloc memalign junk fuel size m;
      mallocs memalign junk fuel sizes'
        (match r with Some a => (a, size) :: acc | None => acc end) m'
  end.

Lemma pairwise_sublist l k : sublist l k -> pairwise k -> pairwise l.
Proof.
  induction 1 as [|x l k Hs IH|x l k Hs IH]; simpl; [done| |by intros [_ ?]; eauto].
  intros [Hx Hk]. split; [|by eauto]. rewrite Forall_forall in *. intros y Hy.
  apply Hx. by eapply sublist_subseteq.
Qed.

Lemma mallocs_ok memalign junk (Halign : memalign_law memalign) sizes :
  forall fuel acc m p pl chain lchain allocs,
  pinv m p pl chain lchain allocs -> sublist acc allocs ->
  (length chain + length sizes < fuel)%nat ->
  exists rs m' pl' chain' lchain' allocs', mallocs memalign junk fuel sizes acc m = Ret (rs, m') /\
    pinv m' p pl' chain' lchain' allocs' /\ sublist rs allocs'.
Proof.
  induction sizes as [|size sizes IH]; intros fuel acc m p pl chain lchain allocs I Hs Hf; simpl.
  - by do 6 eexists.
  - simpl in Hf. destruct (malloc_ok memalign junk Halign fuel m p pl chain lchain allocs size I)
      as (r & m' & -> & pl' & chain' & lchain' & Hl & Hp); [lia|].
    ostep. destruct r as [a|].
    + destruct Hp as [extra Hp]. eapply IH; [exact Hp| |lia].
      by apply sublist_skip, sublist_inserts_l.
    + by eapply IH; [exact Hp| |lia].
Qed.

Lemma createPool_inv memalign junk (Halign : memalign_law memalign) m a :
  live_disj (live_ m) -> memalign (live_ m) PAGE_SIZE = Some a ->
  next_ (junk (a + sizeof_Pool)) = None ->
  pinv (createPool memalign junk m) a (mkPool None (a + sizeof_Pool) (a + sizeof_Pool))
    [a + sizeof_Pool] [] [].
Proof.
  intros Hd Hal Hj. destruct (Halign _ _ _ Hal) as (Hdv & Hpos & Hmax & Hfree & Hdisj).
  unfold createPool. rewrite Hal. set (m' := upd_small _ _ _).
  assert (sm m' (a + sizeof_Pool) =
    Some (a + PAGE_SIZE, a + sizeof_Pool + sizeof_SmallNode, None)) as Hsm.
  { unfold m', sm. simpl. rewrite lookup_insert_eq. simpl. unfold view. simpl. by rewrite Hj. }
  split_and!; try done.
  - simpl. split; [done|]. eauto 10.
  - intros c Hc. apply list_elem_of_singleton in Hc as ->. split; [unfold sizeof_Pool; lia|].
    exists (a + sizeof_Pool + sizeof_SmallNode), None. unfold base. rewrite decide_True by done.
    simpl live_. rewrite lookup_insert_eq. unfold PAGE_SIZE, sizeof_SmallNode, sizeof_Pool in *.
    split_and!; try done; lia.
  - simpl. set_solver.
  - intros c Hc. by apply elem_of_nil in Hc.
  - by apply live_disj_insert.
Qed.

(** After [createPool], whatever sizes are requested, small or large, and
    whenever the C heap runs out, [malloc] never faults or loops; the ranges
    it returns are aligned to 16 bytes, inside live allocations, and pairwise
    disjoint.  (The first block's [next_], which [createPool] leaves as it
    finds it, is taken to be null.) *)
Theorem mallocs_disjoint memalign junk (Halign : memalign_law memalign) m a sizes fuel
  (Hd : live_disj (live_ m)) (Hal : memalign (live_ m) PAGE_SIZE = Some a)
  (Hjunk : next_ (junk (a + sizeof_Pool)) = None) (Hf : (length sizes + 1 < fuel)%nat) :
  exists rs m', mallocs memalign junk fuel sizes [] (createPool memalign junk m) = Ret (rs, m') /\
    pairwise rs /\
    Forall (fun x => (MP_ALIGNMENT | fst x) /\ 0 < snd x /\
      exists r k, live_ m' !! r = Some k /\ r <= fst x /\ fst x + snd x <= r + k) rs.
Proof.
  pose proof (createPool_inv memalign junk Halign m a Hd Hal Hjunk) as I.
  destruct (mallocs_ok memalign junk Halign sizes fuel [] _ _ _ _ _ _ I)
    as (rs & m' & pl' & chain' & lchain' & allocs' & E & I' & Hs); [done|simpl; lia|].
  destruct I' as (_ & _ & _ & Hb & _ & _ & _ & Ha & Hp).
  exists rs, m'. split; [done|]. split; [by eapply pairwise_sublist|].
  rewrite Forall_forall in *. intros x Hx. assert (alloc_ok m' a chain' x) as Hx'.
  { apply Ha. by eapply sublist_subseteq. }
  split; [apply Hx'|]. split; [apply Hx'|].
  destruct (alloc_region _ _ _ _ Hb Hx') as (r & k & ? & ? & ? & _). eauto.
Qed.

(** The second loop of [destroyPool] on a chain of more than one block. *)
Lemma free_blocks_second fuel m p pl chain c lchain allocs h :
  pinv m p pl (head_ pl :: c :: chain) lchain allocs -> (1 < fuel)%nat ->
  smalls_ m !! head_ pl = Some h -> free_blocks fuel (next_ h) m = Err UseAfterFree.
Proof.
  intros (Hpool & Hh & Hp & Hb & _) Hf Eh. destruct fuel as [|[|fuel]]; [lia..|].
  pose proof Hp as Hp0. simpl in Hp. destruct Hp as (_ & e & l & nx & Hhd & Hp1).
  pose proof Hp1 as (-> & e' & l' & nx' & Hc & _).
  unfold sm in Hhd, Hc. rewrite Eh in Hhd. injection Hhd as _ _ Hhn. rewrite Hhn. cbn [free_blocks].
  destruct (smalls_ m !! c) as [n|] eqn:Ec; [|done]. unfold small_at. rewrite Ec. ostep.
  assert (c <> head_ pl) as Hch.
  { intros ->. pose proof (path_det m (Some (head_ pl)) _ (head_ pl :: chain) Hp0 Hp1) as X.
    apply (f_equal length) in X. simpl in X. lia. }
  destruct (Hb c) as (Hne & _ & _ & _ & _ & _ & _ & _ & Hlive); [set_solver|].
  unfold base in Hlive. rewrite decide_False in Hlive by congruence.
  cbn [free]. rewrite Hlive. ostep. cbn [smalls_].
  rewrite (proj2 (map_lookup_filter_None _ _ _)); [done|]. right. intros n' _ X. apply X. simpl.
  unfold PAGE_SIZE. lia.
Qed.

(** [destroyPool] on a pool with a second block and no large allocation: the
    loop reads [cur->next_] from the block it has just freed. *)
Theorem destroyPool_reads_freed_block fuel m p pl chain c lchain allocs
  (I : pinv m p pl (head_ pl :: c :: chain) lchain allocs)
  (Hlarge : largeList_ pl = None) (Hf : (1 < fuel)%nat) :
  destroyPool fuel m = Err UseAfterFree.
Proof.
  pose proof I as (Hpool & _ & (_ & e & l & nx & Hhd & _) & _). unfold destroyPool, the_pool.
  rewrite Hpool. ostep. rewrite Hlarge. destruct fuel as [|fuel]; [lia|]. cbn [free_all_large]. ostep.
  unfold sm in Hhd. destruct (smalls_ m !! head_ pl) as [h|] eqn:Eh; [|done].
  unfold small_at. rewrite Eh. ostep. by rewrite (free_blocks_second _ _ _ _ _ _ _ _ h I Hf Eh).
Qed.

(** *** A bump allocator to evaluate with *)

Definition heap_top (live : gmap Z Z) : Z :=
  map_fold (fun b k t => Z.max t (b + Z.max 1 k)) 4096 live.

Definition bump (live : gmap Z Z) (n : Z) : option Z :=
  let a := mp_align (heap_top live) MP_ALIGNMENT in
  if (0 <=? n) && (a + n <? 2 ^ 64) then Some a else None.

Lemma heap_top_spec live :
  4096 <= heap_top live /\ forall b k, live !! b = Some k -> b + Z.max 1 k <= heap_top live.
Proof.
  unfold heap_top.
  apply (map_fold_weak_ind (fun t m => 4096 <= t /\ forall b k, m !! b = Some k -> b + Z.max 1 k <= t)).
  - split; [lia|done].
  - intros i x m r Hi [IH1 IH2]. split; [lia|]. intros b k Hb.
    apply lookup_insert_Some in Hb as [[<- <-]|[_ Hb]]; [lia|]. specialize (IH2 _ _ Hb). lia.
Qed.

Lemma bump_law : memalign_law bump.
Proof.
  intros live n a. unfold bump. destruct (_ && _) eqn:E; [|done]. reflect_bools. intros [= <-].
  destruct (heap_top_spec live) as [H1 H2]. destruct (mp_align_spec (heap_top live)) as [Hd Hb]; [lia|].
  split_and!; [done|lia|lia| |].
  - destruct (live !! _) as [k|] eqn:El; [|done]. specialize (H2 _ _ El). lia.
  - intros b k Hk. specialize (H2 _ _ Hk). right. simpl. lia.
Qed.

Definition demo_junk : Z -> SmallNode := fun _ => mkSmall 0 0 0 0 None.
Definition demo_mem : Mem := mkMem ∅ ∅ ∅ None.
Definition demo_sizes : list Z := [1; 100; 4000; 5000; 16; 0; 4064].

Lemma mallocs_disjoint_witness :
  exists rs m', mallocs bump demo_junk 20 demo_sizes [] (createPool bump demo_junk demo_mem)
      = Ret (rs, m') /\ pairwise rs /\ map snd rs = [4064; 16; 5000; 4000; 100; 1].
Proof.
  destruct (mallocs_disjoint bump demo_junk bump_law demo_mem 4096 demo_sizes 20)
    as (rs & m' & E & Hp & _).
  - intros a n b k H. simpl in H. rewrite lookup_empty in H. discriminate.
  - vm_compute. reflexivity.
  - reflexivity.
  - vm_compute. lia.
  - exists rs, m'. split; [exact E|]. split; [exact Hp|].
    vm_compute in E. injection E as <- _. reflexivity.
Defined.

(** The pool after two requests of 4000 bytes. *)
Definition demo_pool : Mem :=
  mkMem {[ 4096 := 4096; 8192 := 4096 ]}
    {[ 4120 := mkSmall 8192 8160 1 0 (Some 8192); 8192 := mkSmall 12288 12224 1 0 None ]}
    ∅ (Some (4096, mkPool None 4120 4120)).

Lemma demo_pool_reached :
  snd <$> match mallocs bump demo_junk 20 [4000; 4000] [] (createPool bump demo_junk demo_mem) with
          | Ret r => Some r | Err _ => None end = Some demo_pool.
Proof. vm_compute. reflexivity. Qed.

Lemma destroyPool_reads_freed_block_witness :
  destroyPool 20 demo_pool = Err UseAfterFree.
Proof.
  apply (destroyPool_reads_freed_block 20 demo_pool 4096 (mkPool None 4120 4120) [] 8192 [] []);
    [|reflexivity|lia].
  split; [reflexivity|]. split; [reflexivity|].
  split. { split; [reflexivity|]. exists 8192, 8160, (Some 8192). split; [reflexivity|].
    split; [reflexivity|]. exists 12288, 12224, None. split; reflexivity. }
  split. { intros c Hc. apply elem_of_cons in Hc as [->|Hc];
      [|apply list_elem_of_singleton in Hc as ->]; (split; [discriminate|]).
    - exists 8160, (Some 8192). split; [reflexivity|]. split; [vm_compute; split; discriminate|].
      split; [by exists 256|]. split; [reflexivity|]. split; reflexivity.
    - exists 12224, None. split; [reflexivity|]. split; [vm_compute; split; discriminate|].
      split; [by exists 512|]. split; [reflexivity|]. split; reflexivity. }
  split; [apply elem_of_cons; left; reflexivity|].
  split. { split; [reflexivity|]. intros c Hc. apply elem_of_nil in Hc. destruct Hc. }
  split; [|split; [constructor|exact Logic.I]].
  intros a n b k Ha Hb. simpl in Ha, Hb. revert Ha Hb.
  rewrite !lookup_insert_Some, !lookup_singleton_Some. unfold disj. simpl. lia.
Defined.

End MemoryPool.
