(* ===== verification/MemoryFree.v ===== *)
(** * Freeing into the memory pool ([src/memory/MemoryPool.cc])

    The bookkeeping that makes [freeMemory] and [resetPool] safe: the
    reference count of a block is the number of ranges in it, and the list of
    large allocations records exactly the live ones.  With it, any program of
    [malloc], [freeMemory] and [resetPool] runs on disjoint ranges; the C heap
    holds the pages and the recorded allocations and nothing else of the
    pool's, which says what [destroyPool] gives back. *)

From S2P Require Import Prelude MemoryPool.

Module MemoryFree.
Import MemoryPool.

#[export] Instance in_block_dec p c a : Decision (in_block p c a) := _.

(** How many of the ranges start in the block. *)
Definition count (p c : Z) (l : list (Z * Z)) : nat :=
  length (filter (fun x => in_block p c (fst x)) l).

(** The ranges of the list nodes. *)
Definition nodes (lchain : list Z) : list (Z * Z) := (fun c => (c, sizeof_LargeNode)) <$> lchain.

(** A large allocation the list knows. *)
Definition recorded (m : Mem) (lchain : list Z) (a : Z) : Prop :=
  exists c n, c ∈ lchain /\ larges_ m !! c = Some n /\ address_ n = Some a.

Lemma recorded_omap m lchain a :
  a ∈ omap (fun c => larges_ m !! c ≫= address_) lchain <-> recorded m lchain a.
Proof.
  rewrite list_elem_of_omap. split.
  - intros (c & Hc & (n & Hn & Ha)%bind_Some). by exists c, n.
  - intros (c & n & Hc & Hn & Ha). exists c. split; [done|]. apply bind_Some. by exists n.
Qed.

#[export] Instance recorded_dec m lchain a : Decision (recorded m lchain a).
Proof. refine (cast_if (decide (a ∈ omap (fun c => larges_ m !! c ≫= address_) lchain))); by rewrite <- recorded_omap. Defined.

(** [freeMemory] can find the range. *)
Definition served (m : Mem) (p : Z) (chain lchain : list Z) (x : Z * Z) : Prop :=
  (exists c, c ∈ chain /\ in_block p c (fst x)) \/ recorded m lchain (fst x).

(** A C allocation outside the blocks. *)
Definition own (m : Mem) (p : Z) (chain : list Z) (x : Z * Z) : Prop :=
  live_ m !! fst x = Some (snd x) /\ forall c, c ∈ chain -> base p c <> fst x.

(** The pool, with the ranges its user holds. *)
Record finv (m : Mem) (p : Z) (pl : Pool) (chain lchain : list Z) (user : list (Z * Z)) : Prop := mkFinv {
  f_pinv : pinv m p pl chain lchain (user ++ nodes lchain);
  (** the reference count of a block *)
  f_quote : forall c, c ∈ chain -> quote m c = Some (Z.of_nat (count p c (user ++ nodes lchain)));
  (** a recorded large allocation is held, and is a C allocation of its own *)
  f_addr : forall a, recorded m lchain a -> exists sz, (a, sz) ∈ user /\ own m p chain (a, sz);
  (** and is recorded once *)
  f_once : forall c c' n n' a, c ∈ lchain -> c' ∈ lchain ->
    larges_ m !! c = Some n -> larges_ m !! c' = Some n' ->
    address_ n = Some a -> address_ n' = Some a -> c = c'
}.

Lemma nodes_in lchain c : c ∈ lchain -> (c, sizeof_LargeNode) ∈ nodes lchain.
Proof. intros Hc. apply list_elem_of_fmap. by exists c. Qed.

(** ** Permutations *)

Lemma count_perm p c l k : l ≡ₚ k -> count p c l = count p c k.
Proof. intros Hp. unfold count. by rewrite Hp. Qed.

Lemma finv_perm m p pl chain lchain l k : l ≡ₚ k ->
  finv m p pl chain lchain l -> finv m p pl chain lchain k.
Proof.
  intros Hp [I Q A O]. constructor; [|intros c Hc|intros a Ha|done].
  - eapply pinv_perm; [|exact I]. by rewrite Hp.
  - rewrite Q by done. do 2 f_equal. apply count_perm. by rewrite Hp.
  - destruct (A a Ha) as (sz & Hin & ?). exists sz. by rewrite <- Hp.
Qed.

(** ** Counting *)

Lemma count_range_cons p c x l :
  count p c (x :: l) = (if decide (in_block p c (fst x)) then S (count p c l) else count p c l).
Proof. unfold count. rewrite filter_cons. by case_decide. Qed.

Lemma count_le p c l : (count p c l <= length l)%nat.
Proof. apply length_filter. Qed.

Lemma count_none p c l : (forall x, x ∈ l -> ~ in_block p c (fst x)) -> count p c l = O.
Proof.
  induction l as [|x l IH]; intros H; [done|]. rewrite count_range_cons, decide_False by (apply H; set_solver).
  apply IH. set_solver.
Qed.

Lemma count_zero p c l x : count p c l = O -> x ∈ l -> ~ in_block p c (fst x).
Proof.
  induction l as [|y l IH]; [by intros _ ?%elem_of_nil|].
  rewrite count_range_cons. case_decide; [done|]. intros Hz [->|Hx]%elem_of_cons; auto.
Qed.

(** ** Pages *)

Section Pages.
Context (m : Mem) (p : Z) (pl : Pool) (chain lchain : list Z) (allocs : list (Z * Z)).
Context (I : pinv m p pl chain lchain allocs).

(** An address is in the page of one block only. *)
Lemma in_block_inj c c' a : c ∈ chain -> c' ∈ chain -> in_block p c a -> in_block p c' a -> c = c'.
Proof.
  destruct I as (_ & _ & _ & Hb & _ & _ & Hd & _). intros Hc Hc' H1 H2.
  destruct (Hb c Hc) as (_ & ? & ? & _ & _ & _ & _ & _ & L1), (Hb c' Hc') as (_ & ? & ? & _ & _ & _ & _ & _ & L2).
  eapply base_inj; [by apply Hb..|]. destruct (decide (base p c = base p c')) as [|Hne]; [done|].
  unfold in_block in *. destruct (Hd _ _ _ _ L1 L2 Hne) as [X|X]; simpl in X; lia.
Qed.

(** A C allocation of its own is in no page. *)
Lemma own_not_in_block c a n : c ∈ chain -> live_ m !! a = Some n -> base p c <> a -> 0 < n ->
  ~ in_block p c a.
Proof.
  destruct I as (_ & _ & _ & Hb & _ & _ & Hd & _). intros Hc Ha Hne Hn H.
  destruct (Hb c Hc) as (_ & ? & ? & _ & _ & _ & _ & _ & L).
  unfold in_block in *. destruct (Hd _ _ _ _ L Ha Hne) as [X|X]; simpl in X; lia.
Qed.

(** A range in a page is in its used part. *)
Lemma in_block_used x c : x ∈ allocs -> c ∈ chain -> in_block p c (fst x) ->
  exists e l nx, sm m c = Some (e, l, nx) /\ e = base p c + PAGE_SIZE /\
    c + sizeof_SmallNode <= fst x /\ fst x + snd x <= l <= e /\ 0 < snd x.
Proof.
  intros Hx Hc Hin. pose proof I as (_ & _ & _ & Hb & _ & _ & Hd & Ha & _).
  rewrite Forall_forall in Ha. destruct (Ha x Hx) as (_ & H0 & [(c' & e & l & nx & Hc' & Hs & Hlo & Hhi)|[Hl Hn]]).
  - destruct (Hb c' Hc') as (_ & l' & nx' & Hs' & Hll & _). rewrite Hs in Hs'. injection Hs' as -> <- <-.
    assert (c = c') as ->.
    { apply (in_block_inj c c' (fst x)); [done..|]. unfold in_block, sizeof_SmallNode in *.
      unfold base in *. destruct (decide (c' = _)); unfold sizeof_Pool in *; lia. }
    exists (base p c' + PAGE_SIZE), l, nx. split_and!; try done; lia.
  - exfalso. by eapply own_not_in_block; [..|exact Hin]; [done|exact Hl|apply Hn|].
Qed.

(** A range outside the pages is a C allocation. *)
Lemma unique_range x y : x ∈ allocs -> y ∈ allocs -> fst x = fst y -> x = y.
Proof.
  destruct I as (_ & _ & _ & _ & _ & _ & _ & Ha & Hpw). intros Hx Hy E.
  apply list_elem_of_lookup in Hx as [i Hi], Hy as [j Hj].
  destruct (decide (i = j)) as [->|Hne]; [congruence|exfalso].
  assert (forall z k, allocs !! k = Some z -> 0 < snd z) as Hpos.
  { intros z k Hz. rewrite Forall_forall in Ha. apply (Ha z). by eapply list_elem_of_lookup_2. }
  apply Hpos in Hi as Hxp. apply Hpos in Hj as Hyp. clear I Ha Hpos. revert i j Hi Hj Hne.
  induction allocs as [|z l IH]; intros [|i] [|j] Hi Hj Hne; simpl in *; try done.
  - injection Hi as ->. destruct Hpw as [Hf _]. rewrite Forall_forall in Hf.
    destruct (Hf y) as [X|X]; [by eapply list_elem_of_lookup_2|lia..].
  - injection Hj as ->. destruct Hpw as [Hf _]. rewrite Forall_forall in Hf.
    destruct (Hf x) as [X|X]; [by eapply list_elem_of_lookup_2|lia..].
  - eapply IH; [apply Hpw|exact Hi|exact Hj|congruence].
Qed.

End Pages.

(** ** The C heap

    [live] is the heap [live0] the pool was created in and what [H] names. *)
Definition accounted (live0 live : gmap Z Z) (H : Z -> Prop) : Prop :=
  forall b, (H b -> live0 !! b = None) /\ (live !! b = live0 !! b \/ H b).

(** The pages of the blocks. *)
Definition page (p : Z) (chain : list Z) (b : Z) : Prop := exists c, c ∈ chain /\ base p c = b.

Lemma acc_iff live0 live H H' : (forall b, H b <-> H' b) -> accounted live0 live H -> accounted live0 live H'.
Proof. intros E A b. destruct (A b). rewrite <- E. done. Qed.

Lemma acc_add live0 live H a k : accounted live0 live H -> live !! a = None ->
  accounted live0 (<[a := k]> live) (fun b => H b \/ b = a).
Proof.
  intros A Ha b. destruct (A b) as [A1 A2]. split.
  - intros [Hb| ->]; [auto|]. destruct A2 as [<-|]; auto.
  - destruct (decide (b = a)) as [->|Hne]; [by right; right|].
    rewrite lookup_insert_ne by done. naive_solver.
Qed.

Lemma acc_drop live0 live H a : accounted live0 live (fun b => H b \/ b = a) ->
  accounted live0 (delete a live) H.
Proof.
  intros A b. destruct (A b) as [A1 A2]. split; [auto|].
  destruct (decide (b = a)) as [->|Hne].
  - left. rewrite lookup_delete_eq. symmetry. auto.
  - rewrite lookup_delete_ne by done. naive_solver.
Qed.

Lemma acc_none live0 live : accounted live0 live (fun _ => False) -> live = live0.
Proof. intros A. apply map_eq. intros b. by destruct (A b) as [_ [|]]. Qed.

(** ** Allocating *)

Section Malloc.
Context (memalign : gmap Z Z -> Z -> option Z) (junk : Z -> SmallNode).
Context (Halign : memalign_law memalign).
Context (Hzero : forall b, quote_ (junk b) = 0).

(** A fresh block holds none of the ranges. *)
Lemma fresh_page m m' p pl pl' chain chain' lchain lchain' allocs allocs' b y :
  pinv m p pl chain lchain allocs -> pinv m' p pl' chain' lchain' allocs' ->
  live_ m ⊆ live_ m' -> live_ m !! b = None -> base p b = b -> b ∈ chain' ->
  y ∈ allocs -> ~ in_block p b (fst y).
Proof.
  intros I I' Hsub Hb Hbb Hin Hy H. destruct I as (_ & _ & _ & Hblk & _ & _ & _ & Ha & _).
  rewrite Forall_forall in Ha. pose proof (Ha y Hy) as Hy'. assert (0 < snd y) by apply Hy'.
  destruct (alloc_region _ _ _ _ Hblk Hy') as (r & k & Hr & H1 & H2 & _).
  destruct I' as (_ & _ & _ & Hb' & _ & _ & Hd & _).
  destruct (Hb' b Hin) as (_ & ? & ? & _ & _ & _ & _ & _ & L). rewrite Hbb in L.
  unfold in_block in H. rewrite Hbb in H.
  destruct (Hd r k b PAGE_SIZE) as [X|X]; simpl in *; [by eapply lookup_weaken|done|congruence|lia..].
Qed.

(** The counts follow a small allocation. *)
Lemma took_quote m m' p pl pl' chain chain' lchain lchain' allocs a size :
  pinv m p pl chain lchain allocs ->
  pinv m' p pl' chain' lchain' ((a, size) :: allocs) -> live_ m ⊆ live_ m' ->
  took junk m m' p chain chain' a -> Z.of_nat (length allocs) + 1 < 2 ^ 32 ->
  (forall c, c ∈ chain -> quote m c = Some (Z.of_nat (count p c allocs))) ->
  (forall c, c ∈ chain' -> quote m' c = Some (Z.of_nat (count p c ((a, size) :: allocs)))) /\
  (exists c, c ∈ chain' /\ in_block p c a) /\
  (forall c, c ∈ chain' -> c ∈ chain \/ live_ m !! c = None /\ base p c = c).
Proof.
  intros I I' Hsub Ht Hlen Q.
  assert (forall c, u32 (Z.of_nat (count p c allocs) + 1) = Z.of_nat (S (count p c allocs))) as Hu.
  { intros c. pose proof (count_le p c allocs). unfold u32. rewrite Z.mod_small; lia. }
  destruct Ht as [(-> & _ & c & Hc & Hin & Hq)|(b & -> & Hb & Hlb & _ & Hbb & Hin & Hqb & Hq)].
  - split_and!; [|by exists c|by left]. intros x Hx. rewrite Hq, Q, count_range_cons by done. simpl.
    destruct (decide (x = c)) as [->|Hne]; [by rewrite decide_True, Hu|].
    rewrite decide_False; [done|]. intros Hx2. apply Hne. by eapply in_block_inj.
  - assert (b ∈ chain ++ [b]) as Hbin by set_solver. split_and!; [|by exists b|].
    + intros x Hx. rewrite count_range_cons. simpl. apply elem_of_app in Hx as [Hx|Hx].
      * rewrite Hq, Q by done. rewrite decide_False; [done|]. intros Hx2.
        assert (x = b) as ->; [|done]. eapply (in_block_inj m'); [exact I'|set_solver|done..].
      * apply list_elem_of_singleton in Hx as ->. rewrite decide_True by done.
        rewrite Hqb, Hzero, count_none; [done|]. intros y Hy. by eapply (fresh_page m m').
    + intros x [Hx|Hx]%elem_of_app; [by left|]. apply list_elem_of_singleton in Hx as ->. by right.
Qed.

Lemma took_accounted m m' p chain chain' a live0 R : took junk m m' p chain chain' a ->
  accounted live0 (live_ m) (fun x => page p chain x \/ R x) ->
  accounted live0 (live_ m') (fun x => page p chain' x \/ R x).
Proof.
  intros [(-> & -> & _)|(b & -> & _ & Hlb & -> & Hbb & _)] A; [done|].
  eapply acc_iff; [|by apply acc_add]. intros x. simpl. unfold page. setoid_rewrite elem_of_app.
  setoid_rewrite list_elem_of_singleton. naive_solver congruence.
Qed.

Lemma finv_small m m' p pl chain lchain user size a :
  finv m p pl chain lchain user -> Z.of_nat (length (user ++ nodes lchain)) + 1 < 2 ^ 32 ->
  malloc_post junk m p pl chain lchain (user ++ nodes lchain) size (Some a) m' ->
  exists pl' chain', finv m' p pl' chain' lchain ((a, size) :: user) /\
    (length chain' <= S (length chain))%nat /\ (forall c, c ∈ chain -> c ∈ chain') /\
    (exists c, c ∈ chain' /\ in_block p c a) /\ larges_ m' = larges_ m /\
    (forall x, own m p chain x -> own m' p chain' x) /\
    (forall live0 R, accounted live0 (live_ m) (fun x => page p chain x \/ R x) ->
       accounted live0 (live_ m') (fun x => page p chain' x \/ R x)).
Proof.
  intros [I Q A O] Hlen (pl' & chain' & I' & Hl & Hll & Hlm & Hsub & Ht).
  destruct (took_quote m m' p pl pl' chain chain' lchain lchain (user ++ nodes lchain) a size) as (Q' & Hin & Hnew); try done.
  assert (forall x, own m p chain x -> own m' p chain' x) as Ho.
  { intros x [Hx Hb]. split; [by eapply lookup_weaken|]. intros c Hc.
    destruct (Hnew c Hc) as [|[Hn Hbc]]; [by apply Hb|]. congruence. }
  exists pl', chain'. split_and!; try done.
  - constructor; [done..| |by rewrite Hlm].
    intros a' Ha. unfold recorded in Ha. rewrite Hlm in Ha. destruct (A a' Ha) as (sz & Hu & Hx).
    exists sz. split; [set_solver|by apply Ho].
  - destruct Ht as [(-> & _)|(b & -> & _)]; [done|]. set_solver.
  - intros live0 R. by eapply took_accounted.
Qed.

(** A C allocation for a large request, not yet recorded. *)
Lemma finv_own m p pl chain lchain user size addr :
  finv m p pl chain lchain user -> 0 < size -> memalign (live_ m) size = Some addr ->
  let m1 := set_live (<[addr := size]> (live_ m)) m in
  finv m1 p pl chain lchain ((addr, size) :: user) /\ own m1 p chain (addr, size) /\
  ~ recorded m lchain addr.
Proof.
  intros [I Q A O] Hs Hal. pose proof (add_large memalign Halign _ _ _ _ _ _ _ _ I Hs Hal) as I1.
  destruct (Halign _ _ _ Hal) as (_ & _ & _ & Hfree & Hdisj).
  assert (own (set_live (<[addr := size]> (live_ m)) m) p chain (addr, size)) as Hown.
  { split; [apply lookup_insert_eq|]. destruct I as (_ & _ & _ & Hb & _). simpl. intros c Hc E.
    destruct (Hb c Hc) as (_ & ? & ? & _ & _ & _ & _ & _ & L). rewrite E in L. congruence. }
  simpl. split_and!; [constructor; [done| | |done]|apply Hown..|].
  - intros c Hc. simpl. rewrite count_range_cons, decide_False; [by apply Q|]. simpl. destruct Hown as [H1 H2].
    by eapply (own_not_in_block _ _ _ _ _ _ I1 c addr size); auto.
  - intros a Ha. destruct (A a Ha) as (sz & Hu & Hlv & Hb). simpl in *. exists sz.
    split; [set_solver|]. split; [|done]. simpl. rewrite lookup_insert_ne; [done|]. congruence.
  - intros Ha. destruct (A _ Ha) as (sz & _ & Hlv & _). simpl in Hlv. congruence.
Qed.

(** Recording it in a node of the list whose address is null. *)
Lemma finv_reuse m p pl chain lchain user x c n :
  finv m p pl chain lchain (x :: user) -> own m p chain x -> ~ recorded m lchain (fst x) ->
  c ∈ lchain -> larges_ m !! c = Some n -> address_ n = None ->
  let m' := upd_large c (mkLarge (Some (fst x)) (u32 (snd x)) (lnext_ n)) m in
  finv m' p pl chain lchain (x :: user) /\
  forall a, recorded m' lchain a <-> a = fst x \/ recorded m lchain a.
Proof.
  intros [I Q A O] Hown Hnr Hc Hn Hna m'. pose proof I as (Hpool & _ & _ & _ & _ & [Hlp Hla] & _).
  assert (forall a, recorded m' lchain a <-> a = fst x \/ recorded m lchain a) as Hrec.
  { intros a. unfold recorded, m'. simpl. split.
    - intros (c' & n' & Hc' & Hn' & Ha). apply lookup_insert_Some in Hn' as [[<- <-]|[_ Hn']]; [|eauto 10].
      injection Ha as <-. by left.
    - intros [->|(c' & n' & Hc' & Hn' & Ha)].
      + exists c. eexists. split_and!; [done|apply lookup_insert_eq|done].
      + exists c', n'. rewrite lookup_insert_ne; [done|]. intros ->. congruence. }
  split; [|done]. constructor.
  - eapply (pinv_frame m m'); [exact I|done..| |done]. by eapply lpath_update.
  - done.
  - intros a [->|Ha]%Hrec; [|by apply A]. exists (snd x). destruct x. split; [set_solver|done].
  - intros c1 c2 n1 n2 a H1 H2 E1 E2 A1 A2. simpl in E1, E2.
    apply lookup_insert_Some in E1 as [[<- <-]|[? E1]], E2 as [[<- <-]|[? E2]]; [done|..].
    + injection A1 as <-. destruct Hnr. by exists c2, n2.
    + injection A2 as <-. destruct Hnr. by exists c1, n1.
    + by eapply O.
Qed.

(** Recording it in a new node. *)
Lemma finv_node m p pl chain lchain user x node :
  finv m p pl chain lchain ((node, sizeof_LargeNode) :: x :: user) ->
  own m p chain x -> ~ recorded m lchain (fst x) -> (exists c, c ∈ chain /\ in_block p c node) ->
  let m' := upd_pool (fun pl => mkPool (Some node) (head_ pl) (current_ pl))
    (upd_large node (mkLarge (Some (fst x)) (u32 (snd x)) (largeList_ pl)) m) in
  finv m' p (mkPool (Some node) (head_ pl) (current_ pl)) chain (node :: lchain) (x :: user) /\
  forall a, recorded m' (node :: lchain) a <-> a = fst x \/ recorded m lchain a.
Proof.
  intros [I Q A O] Hown Hnr (cb & Hcb & Hin) m'. assert (node ∉ lchain) as Hnode.
  { intros Hnl. destruct I as (_ & _ & _ & _ & _ & _ & _ & _ & Hf & _). rewrite Forall_forall in Hf.
    destruct (Hf (node, sizeof_LargeNode)) as [X|X]; [|simpl in X; unfold sizeof_LargeNode in X; lia..].
    simpl. apply elem_of_cons; right. apply elem_of_app; right. by apply nodes_in. }
  assert (forall a, recorded m' (node :: lchain) a <-> a = fst x \/ recorded m lchain a) as Hrec.
  { intros a. unfold recorded, m'. simpl. split.
    - intros (c' & n' & Hc' & Hn' & Ha). apply lookup_insert_Some in Hn' as [[<- <-]|[? Hn']].
      + injection Ha as <-. by left.
      + apply elem_of_cons in Hc' as [->|Hc']; [done|eauto 10].
    - intros [->|(c' & n' & Hc' & Hn' & Ha)].
      + exists node. eexists. split_and!; [set_solver|apply lookup_insert_eq|done].
      + exists c', n'. rewrite lookup_insert_ne; [|by intros ->]. split_and!; [set_solver|done..]. }
  assert ((x :: (node, sizeof_LargeNode) :: user ++ nodes lchain)
    ≡ₚ ((x :: user) ++ nodes (node :: lchain))) as Hperm.
  { simpl. by rewrite Permutation_middle. }
  split; [|done]. constructor.
  - eapply pinv_perm; [exact Hperm|]. apply new_node; [exact I|]. intros c Hc.
    apply elem_of_cons; right. apply elem_of_app; right. by apply nodes_in.
  - intros c Hc. rewrite <- (count_perm _ _ _ _ Hperm). rewrite <- (count_perm p c
      ((node, sizeof_LargeNode) :: x :: user ++ nodes lchain)); [by apply Q|]. apply Permutation_swap.
  - intros a [->|Ha]%Hrec; [exists (snd x); destruct x; split; [set_solver|done]|].
    destruct (A a Ha) as (sz & Hu & Ho). exists sz. split; [|done].
    apply elem_of_cons in Hu as [[= -> ->]|Hu]; [|done]. exfalso.
    destruct Ho as [H1 H2]. by eapply (own_not_in_block _ _ _ _ _ _ I cb node); auto.
  - intros c1 c2 n1 n2 a H1 H2 E1 E2 A1 A2. simpl in E1, E2.
    apply lookup_insert_Some in E1 as [[<- <-]|[? E1]], E2 as [[<- <-]|[? E2]]; [done|..].
    + injection A1 as <-. destruct Hnr. exists c2, n2. split; [set_solver|done].
    + injection A2 as <-. destruct Hnr. exists c1, n1. split; [set_solver|done].
    + eapply O; [set_solver..|exact E1|exact E2|exact A1|exact A2].
Qed.

(** The invariant looks only at the blocks and nodes of the pool. *)
Lemma recorded_ext m m' lchain a : (forall c, c ∈ lchain -> larges_ m' !! c = larges_ m !! c) ->
  recorded m' lchain a <-> recorded m lchain a.
Proof.
  intros H. unfold recorded. split; intros (c & n & Hc & Hn & Ha); exists c, n; split_and!; try done;
    specialize (H c Hc); congruence.
Qed.

Lemma finv_ext m m' p pl pl' chain lchain user :
  finv m p pl chain lchain user -> pinv m' p pl' chain lchain (user ++ nodes lchain) ->
  (forall c, c ∈ chain -> smalls_ m' !! c = smalls_ m !! c) ->
  (forall c, c ∈ lchain -> larges_ m' !! c = larges_ m !! c) -> live_ m ⊆ live_ m' ->
  finv m' p pl' chain lchain user.
Proof.
  intros [I Q A O] I' Hs Hl Hsub. constructor; [done|..].
  - intros c Hc. unfold quote. rewrite Hs by done. by apply Q.
  - intros a Ha. rewrite (recorded_ext _ _ _ _ Hl) in Ha. destruct (A a Ha) as (sz & Hu & Hlv & Hb).
    exists sz. split; [done|]. split; [by eapply lookup_weaken|done].
  - intros c c' n n' a Hc Hc' Hn Hn'. rewrite Hl in Hn by done. rewrite Hl in Hn' by done. eauto.
Qed.

Lemma served_mono m m' p chain chain' lchain lchain' user :
  (forall c, c ∈ chain -> c ∈ chain') -> (forall a, recorded m lchain a -> recorded m' lchain' a) ->
  Forall (served m p chain lchain) user -> Forall (served m' p chain' lchain') user.
Proof.
  intros Hc Hr Hu. eapply Forall_impl; [exact Hu|]. intros x [(c & ? & ?)|Hx]; [left|right]; eauto.
Qed.

(** The heap holds the pages and the recorded allocations. *)
Definition tidy (live0 : gmap Z Z) (m : Mem) (p : Z) (chain lchain : list Z) : Prop :=
  accounted live0 (live_ m) (fun b => page p chain b \/ recorded m lchain b).

Lemma tidy_ext live0 m m' p chain lchain :
  live_ m' = live_ m -> (forall c, c ∈ lchain -> larges_ m' !! c = larges_ m !! c) ->
  tidy live0 m p chain lchain -> tidy live0 m' p chain lchain.
Proof.
  unfold tidy. intros -> Hl. apply acc_iff. intros b. by rewrite (recorded_ext m m').
Qed.

Context (live0 : gmap Z Z).

(** The pool after a call that grew it by at most a block and a node. *)
Definition grown (m : Mem) (p : Z) (chain lchain : list Z) (user : list (Z * Z)) : Prop :=
  exists pl chain' lchain', finv m p pl chain' lchain' user /\ tidy live0 m p chain' lchain' /\
    Forall (served m p chain' lchain') user /\
    (length chain' <= S (length chain))%nat /\ (length lchain' <= S (length lchain))%nat.

Definition hold (r : option Z) (size : Z) (user : list (Z * Z)) : list (Z * Z) :=
  match r with Some a => (a, size) :: user | None => user end.

Lemma finv_grown m p pl chain lchain user :
  finv m p pl chain lchain user -> tidy live0 m p chain lchain ->
  Forall (served m p chain lchain) user -> grown m p chain lchain user.
Proof. intros. exists pl, chain, lchain. split_and!; [done..|lia|lia]. Qed.

Lemma mallocLargeNode_finv fuel m p pl chain lchain user size :
  finv m p pl chain lchain user -> tidy live0 m p chain lchain ->
  Forall (served m p chain lchain) user -> 0 < size ->
  (length chain < fuel)%nat -> Z.of_nat (length (user ++ nodes lchain)) + 2 < 2 ^ 32 ->
  exists r m', mallocLargeNode memalign junk fuel size m = Ret (r, m') /\
    grown m' p chain lchain (hold r size user).
Proof.
  intros F T Hu Hs Hf Hlen. unfold mallocLargeNode. destruct (memalign (live_ m) size) as [addr|] eqn:Eal.
  2:{ do 2 eexists. split; [done|]. by eapply finv_grown. }
  destruct (finv_own m p pl chain lchain user size addr F Hs Eal) as (F1 & Hown & Hnr).
  destruct (Halign _ _ _ Eal) as (_ & _ & _ & Hfree & _).
  assert (accounted live0 (<[addr := size]> (live_ m))
    (fun b => page p chain b \/ (recorded m lchain b \/ b = addr))) as T1.
  { eapply acc_iff; [|by eapply acc_add; [exact T|]]. intros b. simpl. tauto. }
  set (m1 := set_live _ m) in *. pose proof (f_pinv _ _ _ _ _ _ F1) as I1.
  pose proof I1 as (Hpool & _ & _ & _ & _ & [Hlp Hla] & _).
  assert (the_pool m1 = Ret (p, pl)) as -> by (unfold the_pool; by rewrite Hpool). ostep.
  destruct (find_free_large_ok m1 4 lchain _ Hlp) as (r & -> & Hr). ostep. destruct r as [c|].
  - destruct Hr as (Hc & n & Hn & Hna). unfold large_at. rewrite Hn. ostep. do 2 eexists. split; [done|].
    destruct (finv_reuse m1 p pl chain lchain user (addr, size) c n) as [F2 Hrec]; try done.
    eapply finv_grown; [exact F2|eapply acc_iff; [|exact T1]; intros b; rewrite Hrec; simpl; tauto|].
    constructor; [right; apply Hrec; by left|].
    eapply served_mono; [..|exact Hu]; [done|]. intros a Ha. apply Hrec. by right.
  - destruct (malloc_small_ok memalign junk Halign fuel m1 p pl chain lchain _ sizeof_LargeNode I1 ltac:(done) Hf)
      as (r & m2 & -> & Hpost). ostep. destruct r as [node|].
    + destruct (finv_small m1 m2 p pl chain lchain ((addr, size) :: user) sizeof_LargeNode node F1) as
        (pl2 & chain2 & F2 & Hl2 & Hsub2 & Hin & Hlm & Ho & Hacc); [cbn [length app]; lia|done|].
      destruct (f_pinv _ _ _ _ _ _ F2) as (Hpool2 & _).
      assert (the_pool m2 = Ret (p, pl2)) as -> by (unfold the_pool; by rewrite Hpool2). ostep.
      do 2 eexists. split; [done|].
      destruct (finv_node m2 p pl2 chain2 lchain user (addr, size) node F2) as [F3 Hrec]; [by apply Ho| |done|].
      * intros Hx. apply Hnr. revert Hx. apply recorded_ext. intros. by rewrite Hlm.
      * exists (mkPool (Some node) (head_ pl2) (current_ pl2)), chain2, (node :: lchain).
        split_and!; [done|eapply acc_iff; [|exact (Hacc _ _ T1)]| |done|done].
        { intros b. rewrite Hrec, (recorded_ext m m2) by (intros; by rewrite Hlm). simpl. tauto. }
        constructor; [right; apply Hrec; by left|].
        eapply served_mono; [..|exact Hu]; [done|]. intros a Ha. apply Hrec. right.
        revert Ha. apply recorded_ext. intros. by rewrite Hlm.
    + simpl in Hpost. subst m2.
      destruct (drop_large memalign Halign m p pl chain lchain _ size addr (f_pinv _ _ _ _ _ _ F) Hs Eal)
        as (m3 & E3 & I3 & El & Hsm & Hlm). fold m1 in E3. rewrite E3. ostep. do 2 eexists. split; [done|].
      eapply finv_grown; [eapply (finv_ext m m3); try done; by rewrite El|by eapply (tidy_ext _ m)|].
      eapply served_mono; [..|exact Hu]; [done|]. intros a. by apply recorded_ext.
Qed.

Lemma malloc_finv fuel m p pl chain lchain user size :
  finv m p pl chain lchain user -> tidy live0 m p chain lchain ->
  Forall (served m p chain lchain) user ->
  (length chain < fuel)%nat -> Z.of_nat (length (user ++ nodes lchain)) + 2 < 2 ^ 32 ->
  exists r m', malloc memalign junk fuel size m = Ret (r, m') /\
    grown m' p chain lchain (hold r size user).
Proof.
  intros F T Hu Hf Hlen. unfold malloc. destruct (size <=? 0) eqn:E0; reflect_bools.
  - do 2 eexists. split; [done|]. by eapply finv_grown.
  - destruct (_ <? size) eqn:E1; reflect_bools; [by eapply mallocLargeNode_finv|].
    destruct (malloc_small_ok memalign junk Halign fuel m p pl chain lchain _ size (f_pinv _ _ _ _ _ _ F))
      as (r & m' & -> & Hp); [lia..|]. do 2 eexists. split; [done|]. destruct r as [a|].
    + destruct (finv_small m m' p pl chain lchain user size a F) as
        (pl2 & chain2 & F2 & Hl2 & Hsub2 & Hin & Hlm & Ho & Hacc); [cbn [length app]; lia|done|].
      exists pl2, chain2, lchain. split_and!; [done| | |done|lia].
      { eapply acc_iff; [|exact (Hacc _ _ T)]. intros b. simpl. by rewrite (recorded_ext m m') by (intros; by rewrite Hlm). }
      constructor; [by left|].
      eapply served_mono; [..|exact Hu]; [done|]. intros x. apply recorded_ext. intros. by rewrite Hlm.
    + simpl in Hp. subst m'. by eapply finv_grown.
Qed.

End Malloc.

(** ** Freeing *)

(** [x] is no longer counted in any page. *)
Lemma count_own m p pl chain lchain x allocs c :
  pinv m p pl chain lchain (x :: allocs) -> own m p chain x -> c ∈ chain ->
  count p c (x :: allocs) = count p c allocs.
Proof.
  intros I [Hl Hb] Hc. rewrite count_range_cons, decide_False; [done|].
  eapply own_not_in_block; [exact I|done..|by apply Hb|].
  destruct I as (_ & _ & _ & _ & _ & _ & _ & Ha & _). apply Forall_cons in Ha as [Hx _]. apply Hx.
Qed.

(** A recorded address names the range of the user that starts there. *)
Lemma recorded_own m p pl chain lchain user x :
  finv m p pl chain lchain (x :: user) -> recorded m lchain (fst x) -> own m p chain x.
Proof.
  intros [I Q A O] Hr. destruct (A _ Hr) as (sz & Hin & Ho).
  assert ((fst x, sz) = x) as E; [|by rewrite E in Ho].
  eapply (unique_range _ _ _ _ _ _ I); [| |done]; apply elem_of_app; left; [done|set_solver].
Qed.

(** Two ranges do not start at the same address. *)
Lemma held_once m p pl chain lchain x user sz :
  pinv m p pl chain lchain (x :: user) -> (fst x, sz) ∉ user.
Proof.
  intros (_ & _ & _ & _ & _ & _ & _ & Ha & Hx & _) Hin. apply Forall_cons in Ha as [(_ & H0 & _) Ha].
  rewrite Forall_forall in Ha, Hx. destruct (Ha _ Hin) as (_ & H1 & _).
  destruct (Hx _ Hin) as [X|X]; simpl in *; lia.
Qed.

(** The first loop of [freeMemory] finds a recorded address... *)
Lemma free_large_some m a : forall lchain fuel cur,
  lpath (larges_ m) cur lchain -> (length lchain < fuel)%nat -> recorded m lchain a ->
  exists c n, c ∈ lchain /\ larges_ m !! c = Some n /\ address_ n = Some a /\
    free_large fuel a cur m =
      (m1 ← free (Some a) m; mret (Some (upd_large c (mkLarge None 0 (lnext_ n)) m1))).
Proof.
  induction lchain as [|c lchain IH]; intros [|fuel] cur Hp Hf (c' & n' & Hc' & Hn' & Ha); simpl in *; try lia.
  - by apply elem_of_nil in Hc'.
  - destruct Hp as (-> & n & Hn & Hp). unfold large_at. rewrite Hn. ostep.
    destruct (decide (address_ n = Some a)) as [E|E].
    + exists c, n. split_and!; [set_solver|done..|]. by rewrite E.
    + destruct (IH fuel (lnext_ n) Hp) as (c2 & n2 & Hc2 & ?); [lia| |exists c2, n2; split; [set_solver|done]].
      exists c', n'. split; [|done]. apply elem_of_cons in Hc' as [->|]; [|done]. congruence.
Qed.

(** ...and passes over any other. *)
Lemma free_large_none m a : forall lchain fuel cur,
  lpath (larges_ m) cur lchain -> (length lchain < fuel)%nat -> ~ recorded m lchain a ->
  free_large fuel a cur m = Ret None.
Proof.
  induction lchain as [|c lchain IH]; intros [|fuel] cur Hp Hf Hr; simpl in *; try lia; [by subst|].
  destruct Hp as (-> & n & Hn & Hp). unfold large_at. rewrite Hn. ostep.
  rewrite decide_False; [apply IH; [done|lia|]|].
  - intros (c' & n' & Hc' & ?). apply Hr. exists c', n'. split; [set_solver|done].
  - intros Ha. apply Hr. exists c, n. split; [set_solver|done].
Qed.

(** Removing a C allocation of the user, recorded at most once. *)
Lemma finv_drop_own m p pl chain lchain x user m' :
  finv m p pl chain lchain (x :: user) -> own m p chain x ->
  pinv m' p pl chain lchain (user ++ nodes lchain) ->
  (forall c, c ∈ chain -> smalls_ m' !! c = smalls_ m !! c) ->
  live_ m' = delete (fst x) (live_ m) ->
  (forall c n', c ∈ lchain -> larges_ m' !! c = Some n' -> address_ n' <> Some (fst x) /\
     (address_ n' <> None -> larges_ m !! c = Some n')) ->
  finv m' p pl chain lchain user /\
  forall a, recorded m' lchain a -> recorded m lchain a /\ a <> fst x.
Proof.
  intros [I Q A O] Hown I' Hsm Hlive Hlar.
  assert (forall a, recorded m' lchain a -> recorded m lchain a /\ a <> fst x) as Hrec.
  { intros a (c & n & Hc & Hn & Ha). destruct (Hlar c n Hc Hn) as [H1 H2]. split; [|congruence].
    exists c, n. split_and!; [done|apply H2; congruence|done]. }
  split; [|done]. constructor; [done|..].
  - intros c Hc. unfold quote. rewrite Hsm by done. fold (quote m c). rewrite Q by done.
    do 2 f_equal. by apply (count_own m p pl chain lchain x).
  - intros a Ha. apply Hrec in Ha as [Ha Hne]. destruct (A a Ha) as (sz & Hin & Hl & Hb).
    exists sz. split; [|split; [|done]].
    + apply elem_of_cons in Hin as [<-|]; done.
    + rewrite Hlive. simpl. rewrite lookup_delete_ne; [done|]. congruence.
  - intros c c' n n' a Hc Hc' Hn Hn' Ha Ha'.
    eapply O; [exact Hc|exact Hc'|apply (Hlar c n Hc Hn); congruence|
      apply (Hlar c' n' Hc' Hn'); congruence|done|done].
Qed.

(** [freeMemory] of a large allocation. *)
Lemma free_recorded live0 fuel m p pl chain lchain x user :
  finv m p pl chain lchain (x :: user) -> tidy live0 m p chain lchain ->
  Forall (served m p chain lchain) user ->
  recorded m lchain (fst x) -> (length lchain < fuel)%nat ->
  exists m', freeMemory fuel (fst x) m = Ret m' /\ finv m' p pl chain lchain user /\
    tidy live0 m' p chain lchain /\ Forall (served m' p chain lchain) user.
Proof.
  intros F T Hu Hr Hf. pose proof (recorded_own _ _ _ _ _ _ _ F Hr) as [Hl Hb].
  pose proof (f_pinv _ _ _ _ _ _ F) as I. pose proof I as (Hpool & _ & _ & _ & _ & [Hlp _] & _).
  unfold freeMemory, the_pool. rewrite Hpool. ostep.
  destruct (free_large_some m (fst x) lchain fuel _ Hlp Hf Hr) as (c & n & Hc & Hn & Ha & ->).
  destruct (drop_alloc m p pl chain lchain (user ++ nodes lchain) x I Hl Hb) as (m1 & E & I1 & El & Hsm & Hlm).
  { intros c' Hc'. apply elem_of_app; right. by apply nodes_in. }
  rewrite E. ostep. eexists. split; [done|]. set (m' := upd_large _ _ _).
  pose proof I1 as (Hpool1 & _ & _ & _ & _ & [Hlp1 Hla1] & _).
  assert (forall b, recorded m lchain b -> b <> fst x -> recorded m' lchain b) as Hback.
  { intros b (c' & n' & Hc' & Hn' & Ha') Hne. exists c', n'. split_and!; [done| |done]. simpl.
    rewrite lookup_insert_ne; [by rewrite Hlm|]. congruence. }
  edestruct (finv_drop_own m p pl chain lchain x user m' F) as [F' Hrec];
    [done| |done|done| |split; [exact F'|split]].
  - eapply (pinv_frame m1 m'); [exact I1|done..| |done].
    eapply lpath_update; [rewrite Hlm by done; exact Hn|done|done].
  - intros c' n' Hc' Hn'. simpl in Hn'. apply lookup_insert_Some in Hn' as [[<- <-]|[Hne Hn']]; [done|].
    rewrite Hlm in Hn' by done. split; [|done]. intros Ha'. apply Hne.
    by eapply (f_once _ _ _ _ _ _ F c c').
  - unfold tidy. change (live_ m') with (live_ m1). rewrite El. apply acc_drop.
    eapply acc_iff; [|exact T]. intros b. simpl. specialize (Hback b). specialize (Hrec b).
    destruct (decide (b = fst x)) as [->|]; [tauto|]. tauto.
  - rewrite Forall_forall in *. intros y Hy. destruct (Hu y Hy) as [Hin|Hy']; [by left|].
    right. apply Hback; [done|]. intros E'. eapply (held_once _ _ _ _ _ x _ (snd y) I).
    apply elem_of_app; left. destruct y as [ya yn]. simpl in *. by rewrite <- E'.
Qed.

(** What [free_small] does to the block it finds. *)
Definition release (c : Z) (n : SmallNode) (m : Mem) : outcome Mem :=
  let q := u32 (quote_ n - 1) in
  if q =? 0 then
    '(pa, pl) ← the_pool m;
    let last := if decide (c = head_ pl) then pa + sizeof_Pool + sizeof_SmallNode
                else c + sizeof_SmallNode in
    mret (upd_pool (fun p => mkPool (largeList_ p) (head_ p) (head_ p))
            (upd_small c (with_failed (with_last (with_quote n q) last) 0) m))
  else mret (upd_small c (with_quote n q) m).

(** The second loop of [freeMemory] finds the block. *)
Lemma free_small_at m a c n : forall chain fuel cur,
  path m cur chain -> (length chain < fuel)%nat -> c ∈ chain -> smalls_ m !! c = Some n ->
  (forall c' n', c' ∈ chain -> smalls_ m !! c' = Some n' ->
     (c' <=? a) && (a <=? end_ n') = bool_decide (c' = c)) ->
  free_small fuel a cur m = release c n m.
Proof.
  induction chain as [|c' chain IH]; intros [|fuel] cur Hp Hf Hc Hn Htest; simpl in *; try lia.
  - by apply elem_of_nil in Hc.
  - destruct Hp as (-> & e & l & nx & Hs & Hp). unfold sm in Hs.
    destruct (smalls_ m !! c') as [n'|] eqn:En; [|done]. injection Hs as He Hl Hnx.
    unfold small_at. rewrite En. ostep. rewrite (Htest c' n') by (done || set_solver).
    case_bool_decide as E.
    + subst c'. rewrite Hn in En. by injection En as <-.
    + rewrite Hnx. apply IH; [done|lia| |done|].
      * by apply elem_of_cons in Hc as [->|].
      * intros c2 n2 Hc2. apply Htest. set_solver.
Qed.

(** The test of that loop singles out the block of a range. *)
Lemma free_small_test m p pl chain lchain allocs x c c' n' :
  pinv m p pl chain lchain allocs -> x ∈ allocs -> c ∈ chain -> in_block p c (fst x) ->
  c' ∈ chain -> smalls_ m !! c' = Some n' ->
  (c' <=? fst x) && (fst x <=? end_ n') = bool_decide (c' = c).
Proof.
  intros I Hx Hc Hin Hc' Hn'. pose proof I as (_ & _ & _ & Hb & _).
  destruct (in_block_used _ _ _ _ _ _ I x c Hx Hc Hin) as (e & l & nx & Hs & -> & Hlo & Hhi & H0).
  destruct (Hb c' Hc') as (_ & l' & nx' & Hs' & Hl' & _). unfold sm in Hs'. rewrite Hn' in Hs'.
  injection Hs' as He _ _. rewrite He. case_bool_decide as E.
  - subst c'. unfold sizeof_SmallNode in *. lia.
  - destruct (_ && _) eqn:T; [|done]. reflect_bools. exfalso.
    assert (base p c' <= c') as Hbc by (unfold base; case_decide; unfold sizeof_Pool in *; lia).
    assert (base p c <= c) as Hbc2 by (unfold base; case_decide; unfold sizeof_Pool in *; lia).
    pose proof I as (_ & _ & _ & _ & _ & _ & Hd & _).
    destruct (Hb c Hc) as (_ & ? & ? & _ & _ & _ & _ & _ & L1), (Hb c' Hc') as (_ & ? & ? & _ & _ & _ & _ & _ & L2).
    unfold in_block, sizeof_SmallNode in *. destruct (Hd _ _ _ _ L1 L2) as [X|X]; simpl in *; [|lia..].
    intros Eb. apply E. by eapply base_inj; [apply Hb..|].
Qed.

Lemma pinv_tail m p pl chain lchain x allocs :
  pinv m p pl chain lchain (x :: allocs) ->
  (forall c, c ∈ lchain -> (c, sizeof_LargeNode) ∈ allocs) -> pinv m p pl chain lchain allocs.
Proof.
  intros (? & ? & ? & ? & ? & [? _] & ? & Ha & _ & Hpw) Hla. apply Forall_cons in Ha as [_ Ha].
  by split_and!.
Qed.

(** A block may start anew when it holds nothing. *)
Lemma pinv_release m m' p pl pl' chain lchain allocs c n n' :
  pinv m p pl chain lchain allocs -> c ∈ chain -> smalls_ m !! c = Some n ->
  smalls_ m' = <[c := n']> (smalls_ m) -> end_ n' = end_ n -> next_ n' = next_ n ->
  (last_ n' = last_ n \/
   last_ n' = c + sizeof_SmallNode /\ forall y, y ∈ allocs -> ~ in_block p c (fst y)) ->
  live_ m' = live_ m -> larges_ m' = larges_ m ->
  pool_ m' = Some (p, pl') -> head_ pl' = head_ pl -> largeList_ pl' = largeList_ pl ->
  current_ pl' ∈ chain ->
  pinv m' p pl' chain lchain allocs.
Proof.
  intros I Hc Hn Es He Hx Hlast El Elg Ep Eh Ell Hcur.
  pose proof I as (_ & Hh & Hp & Hb & _ & Hlp & Hd & Ha & Hpw).
  assert (sm m c = Some (end_ n, last_ n, next_ n)) as Hs by (unfold sm; by rewrite Hn).
  assert (sm m' c = Some (end_ n, last_ n', next_ n)) as Hs'
    by (unfold sm; rewrite Es, lookup_insert_eq; unfold view; simpl; by rewrite He, Hx).
  assert (forall x, x <> c -> sm m' x = sm m x) as Hother
    by (intros; unfold sm; by rewrite Es, lookup_insert_ne).
  split_and!; rewrite ?El, ?Elg, ?Ell; try done; [congruence| | |apply Hlp|apply Hlp|].
  - rewrite Eh. eapply path_ext; [|exact Hp]. intros x _.
    destruct (decide (x = c)) as [->|]; [by rewrite Hs', Hs|by rewrite Hother].
  - intros x Hxc. destruct (decide (x = c)) as [->|]; [|apply (blk_ext m m'); [by rewrite Hother|by rewrite El|by apply Hb]].
    destruct (Hb c Hc) as (Hne & l & nx & Hsc & Hl & ? & ? & ? & Hlv). rewrite Hs in Hsc.
    injection Hsc as Hen <- <-. split; [done|]. exists (last_ n'), (next_ n). rewrite El, <- Hen.
    split_and!; try done; destruct Hlast as [Hlast|[Hlast _]]; lia.
  - rewrite Forall_forall in *. intros y Hy. destruct (Ha y Hy) as (Hdv & H0 & [(c' & e & l & nx & Hc' & Hs2 & Hlo & Hhi)|Hy2]);
      (split; [done|]; split; [done|]); [left|right; by rewrite El].
    destruct (decide (c' = c)) as [->|Hne]; [|exists c', e, l, nx; by rewrite Hother].
    rewrite Hs in Hs2. injection Hs2 as <- <- <-. exists c, (end_ n), (last_ n'), (next_ n).
    split_and!; try done. destruct Hlast as [->|[_ Hno]]; [done|]. destruct (Hno y Hy).
    destruct (Hb c Hc) as (_ & l & nx & Hsc & Hl & _). rewrite Hs in Hsc. injection Hsc as Hen <- <-.
    unfold in_block, base, sizeof_SmallNode, sizeof_Pool in *. case_decide; lia.
Qed.

Lemma quote_count m p pl chain lchain user c n :
  finv m p pl chain lchain user -> c ∈ chain -> smalls_ m !! c = Some n ->
  quote_ n = Z.of_nat (count p c (user ++ nodes lchain)).
Proof.
  intros F Hc Hn. pose proof (f_quote _ _ _ _ _ _ F c Hc) as Q. unfold quote in Q.
  rewrite Hn in Q. by injection Q.
Qed.

(** Dropping a range of a block, given the block's new header. *)
Lemma finv_release m m' p pl pl' chain lchain x user c n n' :
  finv m p pl chain lchain (x :: user) -> pinv m' p pl' chain lchain (user ++ nodes lchain) ->
  c ∈ chain -> in_block p c (fst x) -> smalls_ m !! c = Some n ->
  smalls_ m' = <[c := n']> (smalls_ m) -> live_ m' = live_ m -> larges_ m' = larges_ m ->
  quote_ n' = quote_ n - 1 ->
  finv m' p pl' chain lchain user.
Proof.
  intros F I' Hc Hin Hn Es El Elg Hq. pose proof F as [I Q A O]. constructor; [done|..].
  - intros y Hy. unfold quote. rewrite Es. destruct (decide (y = c)) as [->|Hne].
    + rewrite lookup_insert_eq. simpl. rewrite Hq, (quote_count _ _ _ _ _ _ _ _ F Hc Hn).
      simpl. rewrite count_range_cons, decide_True by done. f_equal. lia.
    + rewrite lookup_insert_ne by done. fold (quote m y). rewrite Q by done. simpl.
      rewrite count_range_cons, decide_False; [done|]. intros Hin2. apply Hne. by eapply in_block_inj.
  - intros a Ha. unfold recorded in Ha. rewrite Elg in Ha. destruct (A a Ha) as (sz & Hu & Hl & Hb).
    exists sz. split; [|split; [by rewrite El|done]]. apply elem_of_cons in Hu as [<-|]; [|done].
    exfalso. eapply (own_not_in_block _ _ _ _ _ _ I c _ sz Hc Hl); [by apply Hb| |done].
    destruct I as (_ & _ & _ & _ & _ & _ & _ & Hall & _). by apply Forall_cons in Hall as [(_ & ? & _) _].
  - by rewrite Elg.
Qed.

Lemma release_ok m p pl chain lchain x user c n :
  finv m p pl chain lchain (x :: user) -> c ∈ chain -> in_block p c (fst x) ->
  smalls_ m !! c = Some n -> Z.of_nat (length (user ++ nodes lchain)) + 1 < 2 ^ 32 ->
  exists m' pl', release c n m = Ret m' /\ finv m' p pl' chain lchain user /\ larges_ m' = larges_ m /\
    live_ m' = live_ m.
Proof.
  intros F Hc Hin Hn Hlen. pose proof (f_pinv _ _ _ _ _ _ F) as I.
  pose proof I as (Hpool & Hh & Hp & Hb & Hcur & _).
  assert (pinv m p pl chain lchain (user ++ nodes lchain)) as I0.
  { eapply pinv_tail; [exact I|]. intros y Hy. apply elem_of_app; right. by apply nodes_in. }
  pose proof (quote_count _ _ _ _ _ _ _ _ F Hc Hn) as Hq. simpl in Hq.
  rewrite count_range_cons, decide_True in Hq by done.
  pose proof (count_le p c (user ++ nodes lchain)) as Hle.
  assert (u32 (quote_ n - 1) = quote_ n - 1) as Hu by (unfold u32; apply Z.mod_small; lia).
  unfold release. rewrite Hu. destruct (_ =? 0) eqn:E; reflect_bools.
  - unfold the_pool. rewrite Hpool. ostep. do 2 eexists. split; [done|]. split; [|by split].
    eapply finv_release; [exact F| |exact Hc|exact Hin|exact Hn|done..].
    eapply (pinv_release m _ p pl (mkPool (largeList_ pl) (head_ pl) (head_ pl))); [exact I0|exact Hc|exact Hn|done|done|done| |done|done| |done|done|].
    + right. split; [|intros y; apply count_zero; lia]. simpl. case_decide; [lia|done].
    + simpl. by rewrite Hpool.
    + destruct chain as [|c0 chain]; [done|]. destruct Hp as [[= ->] _]. simpl. set_solver.
  - do 2 eexists. split; [done|]. split; [|by split].
    eapply finv_release; [exact F| |exact Hc|exact Hin|exact Hn|done..].
    eapply (pinv_release m _ p pl pl); [exact I0|exact Hc|exact Hn|done|done|done| |done..].
    by left.
Qed.

Lemma freeMemory_finv live0 fuel m p pl chain lchain x user :
  finv m p pl chain lchain (x :: user) -> tidy live0 m p chain lchain ->
  Forall (served m p chain lchain) (x :: user) ->
  (length chain < fuel)%nat -> (length lchain < fuel)%nat ->
  Z.of_nat (length (user ++ nodes lchain)) + 1 < 2 ^ 32 ->
  exists m' pl', freeMemory fuel (fst x) m = Ret m' /\ finv m' p pl' chain lchain user /\
    tidy live0 m' p chain lchain /\ Forall (served m' p chain lchain) user.
Proof.
  intros F T [Hx Hu]%Forall_cons Hf Hfl Hlen. pose proof (f_pinv _ _ _ _ _ _ F) as I.
  destruct (decide (recorded m lchain (fst x))) as [Hr|Hr].
  - destruct (free_recorded live0 fuel m p pl chain lchain x user F T Hu Hr Hfl) as (m' & ? & ? & ? & ?). by exists m', pl.
  - destruct Hx as [(c & Hc & Hin)|]; [|done]. pose proof I as (Hpool & _ & Hp & Hb & _ & [Hlp _] & _).
    unfold freeMemory, the_pool. rewrite Hpool. ostep.
    rewrite (free_large_none m (fst x) lchain) by done. ostep.
    destruct (Hb c Hc) as (_ & l & nx & Hs & _). unfold sm in Hs.
    destruct (smalls_ m !! c) as [n|] eqn:Hn; [|done].
    rewrite (free_small_at m (fst x) c n chain) by (done || intros; eapply free_small_test; eauto; set_solver).
    destruct (release_ok m p pl chain lchain x user c n F Hc Hin Hn Hlen) as (m' & pl' & E & F' & Elg & El).
    exists m', pl'. split_and!; [done..|eapply tidy_ext; [done| |exact T]; intros; by rewrite Elg|].
    eapply served_mono; [..|exact Hu]; [done|].
    intros a. apply recorded_ext. intros. by rewrite Elg.
Qed.

(** ** Resetting *)

Lemma pairwise_nodup lchain : pairwise (nodes lchain) -> NoDup lchain.
Proof.
  induction lchain as [|c lchain IH]; simpl; [constructor|]. intros [Hf Hp].
  constructor; [|by apply IH]. intros Hc. rewrite Forall_forall in Hf.
  destruct (Hf _ (nodes_in _ _ Hc)) as [X|X]; simpl in X; unfold sizeof_LargeNode in X; lia.
Qed.

Lemma recorded_cons m c lc n b : larges_ m !! c = Some n ->
  recorded m (c :: lc) b <-> recorded m lc b \/ address_ n = Some b.
Proof.
  intros Hn. split.
  - intros (c' & n' & [->|Hc']%elem_of_cons & Hn' & Ha); [right; congruence|left; by exists c', n'].
  - intros [(c' & n' & Hc' & ?)|Ha]; [exists c', n'|exists c, n]; (split; [set_solver|done]).
Qed.

(** The node after its allocation is freed. *)
Lemma clear_node_ok (clear : bool) m p pl chain lchain allocs c n (lc : list Z) :
  larges_ m !! c = Some n -> pinv m p pl chain lchain allocs -> c ∉ lc ->
  let m' := if clear then upd_large c (mkLarge None (size_ n) (lnext_ n)) m else m in
  pinv m' p pl chain lchain allocs /\ live_ m' = live_ m /\
  forall c', c' ∈ lc -> larges_ m' !! c' = larges_ m !! c'.
Proof.
  intros Hn I Hc. destruct clear; [|done]. split_and!; [|done|].
  - pose proof I as (Hpool & _ & _ & _ & _ & [Hlp Hla] & _).
    eapply (pinv_frame m); [exact I|done..| |done]. by eapply lpath_update.
  - intros c' Hc'. simpl. rewrite lookup_insert_ne; [done|]. by intros ->.
Qed.

(** The loop over the large allocations frees each of them once. *)
Lemma free_all_large_ok live0 clear p pl chain lchain : forall lc fuel cur m user,
  lpath (larges_ m) cur lc -> (forall c, c ∈ lc -> c ∈ lchain) -> NoDup lc -> (length lc < fuel)%nat ->
  pinv m p pl chain lchain (user ++ nodes lchain) ->
  accounted live0 (live_ m) (fun b => page p chain b \/ recorded m lc b) ->
  (forall a, recorded m lc a -> exists sz, (a, sz) ∈ user /\ own m p chain (a, sz)) ->
  (forall c c' n n' a, c ∈ lc -> c' ∈ lc -> larges_ m !! c = Some n -> larges_ m !! c' = Some n' ->
     address_ n = Some a -> address_ n' = Some a -> c = c') ->
  exists m' user', free_all_large fuel clear cur m = Ret m' /\
    pinv m' p pl chain lchain (user' ++ nodes lchain) /\
    accounted live0 (live_ m') (page p chain).
Proof.
  induction lc as [|c lc IH]; intros [|fuel] cur m user Hp Hsub Hnd Hf I T A O; simpl in *; try lia.
  { subst. exists m, user. split_and!; [done..|]. eapply acc_iff; [|exact T]. intros b. simpl.
    split; [|by left]. intros [|(c & n & Hc & _)]; [done|]. by apply elem_of_nil in Hc. }
  destruct Hp as (-> & n & Hn & Hp). unfold large_at. rewrite Hn. ostep.
  apply NoDup_cons in Hnd as [Hc Hnd].
  assert (forall m2 user2, (forall c', c' ∈ lc -> larges_ m2 !! c' = larges_ m !! c') ->
    pinv m2 p pl chain lchain (user2 ++ nodes lchain) ->
    accounted live0 (live_ m2) (fun b => page p chain b \/ recorded m2 lc b) ->
    (forall a, recorded m2 lc a -> exists sz, (a, sz) ∈ user2 /\ own m2 p chain (a, sz)) ->
    exists m' user', free_all_large fuel clear (lnext_ n) m2 = Ret m' /\
      pinv m' p pl chain lchain (user' ++ nodes lchain) /\ accounted live0 (live_ m') (page p chain)) as Hrest.
  { intros m2 user2 Hm2 I2 T2 A2. apply (IH _ _ _ user2); try done; [by eapply lpath_ext|set_solver|lia|].
    intros c1 c2 n1 n2 a' H1 H2 E1 E2. rewrite Hm2 in E1 by done. rewrite Hm2 in E2 by done.
    eapply O; [set_solver..|exact E1|exact E2]. }
  destruct (address_ n) as [a|] eqn:Ea.
  - destruct (A a) as (sz & Hin & Hown); [by exists c, n; split; [set_solver|]|].
    apply elem_of_Permutation in Hin as [user1 Hperm].
    assert (pinv m p pl chain lchain ((a, sz) :: user1 ++ nodes lchain)) as I1
      by (eapply pinv_perm; [|exact I]; by rewrite Hperm).
    destruct (drop_alloc _ _ _ _ _ _ _ I1) as (m1 & E & I' & El & Hsm & Hlm); [apply Hown..| |].
    { intros c' Hc'. apply elem_of_app; right. by apply nodes_in. }
    cbn [fst] in E. rewrite E. ostep. 
    destruct (clear_node_ok clear m1 p pl chain lchain (user1 ++ nodes lchain) c n lc)
      as (I2 & El2 & Hl2); [rewrite Hlm; [done|set_solver]|done|done|].
    set (m2 := if clear then _ else _) in *.
    assert (forall c', c' ∈ lc -> larges_ m2 !! c' = larges_ m !! c') as Hm2
      by (intros c' Hc'; rewrite Hl2 by done; apply Hlm, Hsub; set_solver).
    apply (Hrest m2 user1); [done..| |].
    + rewrite El2, El. apply acc_drop. eapply acc_iff; [|exact T]. intros b. simpl.
      rewrite (recorded_cons _ _ _ _ _ Hn), (recorded_ext m m2) by done. naive_solver.
    + intros a' Ha. apply (recorded_ext m m2) in Ha; [|done]. destruct Ha as (c' & n' & Hc' & Hn' & Ha).
      assert (a' <> a) as Hne by (intros ->; apply Hc; rewrite (O c c' n n' a); set_solver).
      destruct (A a') as (sz' & Hin & Hl & Hb); [exists c', n'; split; [set_solver|done]|].
      exists sz'. split.
      * rewrite Hperm in Hin. apply elem_of_cons in Hin as [[= -> _]|]; done.
      * split; [|done]. rewrite El2, El. simpl. by rewrite lookup_delete_ne.
  - cbn [free]. ostep. destruct (clear_node_ok clear m p pl chain lchain (user ++ nodes lchain) c n lc)
      as (I2 & El2 & Hl2); [done..|]. set (m2 := if clear then _ else _) in *.
    apply (Hrest m2 user); [done..| |].
    + rewrite El2. eapply acc_iff; [|exact T]. intros b. simpl.
      rewrite (recorded_cons _ _ _ _ _ Hn), (recorded_ext m m2) by done. naive_solver.
    + intros a Ha. apply (recorded_ext m m2) in Ha; [|done].
      destruct (A a) as (sz & Hin & Hl & Hb); [apply (recorded_cons _ _ _ _ _ Hn); by left|].
      exists sz. split; [done|]. split; [by rewrite El2|done].
Qed.

Lemma free_all_finv live0 clear fuel m p pl chain lchain user :
  finv m p pl chain lchain user -> tidy live0 m p chain lchain -> (length lchain < fuel)%nat ->
  exists m' user', free_all_large fuel clear (largeList_ pl) m = Ret m' /\
    pinv m' p pl chain lchain (user' ++ nodes lchain) /\ accounted live0 (live_ m') (page p chain).
Proof.
  intros [I Q A O] T Hf. pose proof I as (_ & _ & _ & _ & _ & [Hlp _] & _ & _ & Hpw).
  eapply (free_all_large_ok live0 clear p pl chain lchain lchain); try done.
  apply pairwise_nodup. eapply pairwise_sublist; [|exact Hpw]. by apply sublist_inserts_l.
Qed.

Definition reset_node (c : Z) (n : SmallNode) : SmallNode :=
  mkSmall (end_ n) (c + sizeof_SmallNode) 0 0 (next_ n).

(** The loop over the blocks. *)
Lemma reset_blocks_ok : forall chain fuel small m,
  path m small chain -> (length chain < fuel)%nat ->
  exists m', reset_blocks fuel small m = Ret m' /\
    live_ m' = live_ m /\ larges_ m' = larges_ m /\ pool_ m' = pool_ m /\
    forall c, smalls_ m' !! c = (if decide (c ∈ chain) then reset_node c else id) <$> smalls_ m !! c.
Proof.
  induction chain as [|c chain IH]; intros [|fuel] small m Hp Hf;
    cbn [length path reset_blocks] in *; try lia.
  - subst. exists m. split_and!; try done. intros c. rewrite decide_False by (by apply not_elem_of_nil).
    by destruct (_ !! c).
  - destruct Hp as (-> & e & l & nx & Hs & Hp). unfold sm in Hs.
    destruct (smalls_ m !! c) as [n|] eqn:Hn; [|done]. injection Hs as _ _ Hnx.
    unfold small_at. rewrite Hn. ostep. fold (reset_node c n).
    destruct (IH fuel (next_ n) (upd_small c (reset_node c n) m)) as (m' & -> & El & Elg & Ep & Hm);
      [|lia|].
    { rewrite Hnx. eapply path_ext; [|exact Hp]. intros x _. unfold sm. simpl.
      destruct (decide (x = c)) as [->|]; [|by rewrite lookup_insert_ne].
      by rewrite lookup_insert_eq, Hn. }
    exists m'. split_and!; try done. intros x. rewrite Hm. cbn [upd_small set_smalls smalls_]. destruct (decide (x = c)) as [->|Hne].
    + rewrite lookup_insert_eq, Hn. destruct (decide (c ∈ c :: chain)); [|set_solver]. simpl. by case_decide.
    + rewrite lookup_insert_ne by done. f_equal.
      destruct (decide (x ∈ chain)), (decide (x ∈ c :: chain)); set_solver.
Qed.

Lemma resetPool_finv live0 fuel m p pl chain lchain user :
  finv m p pl chain lchain user -> tidy live0 m p chain lchain -> (length chain < fuel)%nat -> (length lchain < fuel)%nat ->
  exists m' pl', resetPool fuel m = Ret m' /\ finv m' p pl' chain [] [] /\ tidy live0 m' p chain [].
Proof.
  intros F T Hf Hfl. pose proof (f_pinv _ _ _ _ _ _ F) as (Hpool & _).
  unfold resetPool, the_pool. rewrite Hpool. ostep.
  destruct (free_all_finv live0 false fuel m p pl chain lchain user F T Hfl) as (m1 & user1 & -> & I1 & T1).
  ostep. destruct I1 as (Hpool1 & Hh & Hp & Hb & Hcur & _ & Hd & _).
  set (pl' := mkPool None (head_ pl) (head_ pl)). set (m2 := upd_pool _ m1).
  destruct (reset_blocks_ok chain fuel (Some (head_ pl)) m2) as (m' & E & El & Elg & Ep & Hm).
  { eapply path_ext; [|exact Hp]. done. } { done. }
  exists m', pl'. split; [done|].
  assert (forall c, c ∈ chain -> smalls_ m' !! c = reset_node c <$> smalls_ m1 !! c) as Hmc
    by (intros c Hc; by rewrite Hm, decide_True).
  split; [|unfold tidy; rewrite El; eapply acc_iff; [|exact T1]; intros b; split; [by left|];
    intros [|(c & n & Hc & _)]; [done|by apply elem_of_nil in Hc]].
  constructor.
  - split_and!; try done.
    + rewrite Ep. simpl. by rewrite Hpool1.
    + eapply path_ext; [|exact Hp]. intros c Hc. unfold sm. rewrite Hmc by done. by destruct (_ !! c).
    + intros c Hc. destruct (Hb c Hc) as (Hne & l & nx & Hs & Hl & ? & ? & ? & Hlv). split; [done|].
      unfold sm in *. rewrite Hmc by done. destruct (smalls_ m1 !! c) as [n|] eqn:Hn; [|done].
      injection Hs as He _ _. exists (c + sizeof_SmallNode), (next_ n). simpl. rewrite El, <- He.
      split_and!; try done; lia.
    + destruct chain as [|c0 chain]; [done|]. destruct Hp as [[= E0] _]. unfold pl'. simpl. rewrite E0. set_solver.
    + by intros c ?%elem_of_nil.
    + by rewrite El.
  - intros c Hc. unfold quote. rewrite Hmc by done.
    destruct (Hb c Hc) as (_ & l & nx & Hs & _). unfold sm in Hs. by destruct (smalls_ m1 !! c).
  - intros a (c & n & Hc & _). by apply elem_of_nil in Hc.
  - by intros c c' n n' a ?%elem_of_nil.
Qed.

(** ** Destroying *)

(** A pool of one block gives back all it took; a longer chain faults. *)
Lemma destroyPool_finv live0 fuel m p pl chain lchain user :
  finv m p pl chain lchain user -> tidy live0 m p chain lchain ->
  (1 < fuel)%nat -> (length lchain < fuel)%nat ->
  match chain with
  | [_] => exists m', destroyPool fuel m = Ret m' /\ live_ m' = live0
  | _ => destroyPool fuel m = Err UseAfterFree
  end.
Proof.
  intros F T Hf Hfl. pose proof (f_pinv _ _ _ _ _ _ F) as (Hpool & _).
  unfold destroyPool, the_pool. rewrite Hpool. ostep.
  destruct (free_all_finv live0 true fuel m p pl chain lchain user F T Hfl) as (m1 & user1 & -> & I & T1).
  ostep. pose proof I as (_ & Hh & Hp & Hb & _).
  destruct chain as [|c0 chain]; [done|]. pose proof Hp as Hp0. destruct Hp as ([= E0] & e & l & nx & Hs & Hp).
  rewrite <- E0 in *. unfold sm in Hs. destruct (smalls_ m1 !! head_ pl) as [h|] eqn:Eh; [|done].
  unfold small_at. rewrite Eh. ostep. injection Hs as _ _ Hnx. destruct chain as [|c chain].
  - simpl in Hp. rewrite Hnx, Hp. destruct fuel as [|fuel]; [lia|]. cbn [free_blocks]. ostep.
    cbn [free]. rewrite (path_head _ _ _ _ Hp0 Hh Hb). ostep. eexists. split; [done|]. simpl.
    apply acc_none, acc_drop. eapply acc_iff; [|exact T1]. intros b. unfold page, base.
    setoid_rewrite list_elem_of_singleton. split.
    + intros (x & -> & <-). right. by rewrite decide_True.
    + intros [[]| ->]. exists (head_ pl). by rewrite decide_True.
  - by rewrite (free_blocks_second _ _ _ _ _ _ _ _ h I Hf Eh).
Qed.

(** ** Programs *)

Inductive op :=
  | Malloc (size : Z)
  | Calloc (size : Z)
  | Free (k : nat)     (** [freeMemory] of the [k]-th range held *)
  | Reset.

(** The ranges held, and the memory. *)
Notation state := (list (Z * Z) * Mem)%type.

Section Run.
Context (memalign : gmap Z Z -> Z -> option Z) (junk : Z -> SmallNode).

Definition step (fuel : nat) (o : op) (s : state) : outcome state :=
  let '(user, m) := s in
  match o with
  | Malloc size => '(r, m') ← malloc memalign junk fuel size m; mret (hold r size user, m')
  | Calloc size =>
      '(r, m') ← calloc memalign junk fuel size m;
      mret (match r with Some x => x :: user | None => user end, m')
  | Free k =>
      match user !! k with
      | None => mret s
      | Some x => m' ← freeMemory fuel (fst x) m; mret (delete k user, m')
      end
  | Reset => m' ← resetPool fuel m; mret ([], m')
  end.

Fixpoint run (fuel : nat) (ops : list op) (s : state) : outcome state :=
  match ops with
  | [] => mret s
  | o :: ops' => s' ← step fuel o s; run fuel ops' s'
  end.

(** The state after [n] operations on a pool created in the heap [live0]. *)
Definition sound (live0 : gmap Z Z) (p : Z) (n : nat) (s : state) : Prop :=
  exists pl chain lchain, finv (snd s) p pl chain lchain (fst s) /\
    tidy live0 (snd s) p chain lchain /\ Forall (served (snd s) p chain lchain) (fst s) /\
    (length chain <= S n)%nat /\ (length lchain <= n)%nat /\ (length (fst s) <= n)%nat.

Context (Halign : memalign_law memalign) (Hzero : forall b, quote_ (junk b) = 0).

Lemma length_nodes user lchain : length (user ++ nodes lchain) = (length user + length lchain)%nat.
Proof. unfold nodes. by rewrite length_app, length_fmap. Qed.

Lemma step_sound live0 fuel p n o s : sound live0 p n s -> (S n < fuel)%nat -> 2 * Z.of_nat n + 2 < 2 ^ 32 ->
  exists s', step fuel o s = Ret s' /\ sound live0 p (S n) s'.
Proof.
  destruct s as [user m]. intros (pl & chain & lchain & F & T & Hu & Hc & Hl & Hn) Hf Hlen. simpl in *.
  assert (forall size, exists r m', malloc memalign junk fuel size m = Ret (r, m') /\
    sound live0 p (S n) (hold r size user, m')) as Hmal.
  { intros size. destruct (malloc_finv memalign junk Halign Hzero live0 fuel m p pl chain lchain user size)
      as (r & m' & E & pl' & chain' & lchain' & F' & T' & Hu' & Hc' & Hl'); [done|done|done|lia|rewrite length_nodes; lia|].
    exists r, m'. split; [done|]. exists pl', chain', lchain'. simpl. split_and!; [done..|lia|lia|].
    destruct r; simpl; lia. }
  destruct o as [size|size|k|].
  - destruct (Hmal size) as (r & m' & -> & Hs). ostep. by eexists.
  - unfold calloc. destruct (Hmal size) as (r & m' & -> & Hs). ostep. eexists. split; [done|]. by destruct r.
  - destruct (user !! k) as [x|] eqn:Ek.
    2:{ eexists. split; [done|]. exists pl, chain, lchain. simpl. split_and!; done || lia. }
    pose proof (delete_Permutation _ _ _ Ek) as Hperm.
    destruct (freeMemory_finv live0 fuel m p pl chain lchain x (delete k user)) as (m' & pl' & -> & F' & T' & Hu').
    { by eapply finv_perm. } { done. } { by rewrite <- Hperm. } { lia. } { lia. }
    { rewrite length_nodes. pose proof (Permutation_length Hperm). simpl in *. lia. }
    ostep. eexists. split; [done|]. exists pl', chain, lchain. simpl. split_and!; [done..|lia|lia|].
    pose proof (Permutation_length Hperm). simpl in *. lia.
  - destruct (resetPool_finv live0 fuel m p pl chain lchain user F T) as (m' & pl' & -> & F' & T'); [lia..|].
    ostep. eexists. split; [done|]. exists pl', chain, []. simpl. split_and!; [done|done|constructor|lia..].
Qed.

Lemma run_sound live0 fuel p : forall ops n s, sound live0 p n s -> (S n + length ops <= fuel)%nat ->
  2 * Z.of_nat (n + length ops) < 2 ^ 32 ->
  exists s', run fuel ops s = Ret s' /\ sound live0 p (n + length ops) s'.
Proof.
  induction ops as [|o ops IH]; intros n s Hs Hf Hlen; simpl in *.
  - exists s. by rewrite Nat.add_0_r.
  - destruct (step_sound live0 fuel p n o s Hs) as (s1 & -> & Hs1); [lia..|]. ostep.
    rewrite <- Nat.add_succ_comm. apply IH; [done|lia..].
Qed.

End Run.

(** What the pool keeps of its own: the pool object, the block headers and
    the list nodes. *)
Definition metadata (p : Z) (chain lchain : list Z) : list (Z * Z) :=
  (p, sizeof_Pool) :: ((fun c => (c, sizeof_SmallNode)) <$> chain) ++ nodes lchain.

(** A range keeps off the first bytes of every page, up to the end of the
    block's header. *)
Lemma header_disj m p pl chain lchain allocs x c :
  pinv m p pl chain lchain allocs -> x ∈ allocs -> c ∈ chain ->
  disj x (base p c, c + sizeof_SmallNode - base p c).
Proof.
  intros I Hx Hc. pose proof I as (_ & _ & _ & Hb & _ & _ & Hd & Ha & _).
  rewrite Forall_forall in Ha. destruct (Hb c Hc) as (_ & l0 & nx0 & _ & Hl0 & _ & _ & _ & L0).
  destruct (alloc_region m p chain x Hb (Ha x Hx)) as (r & k & Hr & H1 & H2 & Hcase).
  destruct (decide (in_block p c (fst x))) as [Hin|Hout].
  - destruct (in_block_used _ _ _ _ _ _ I x c Hx Hc Hin) as (e & l & nx & _ & _ & Hlo & _). right. simpl. lia.
  - assert (0 < snd x) by apply (Ha x Hx). unfold in_block in Hout.
    destruct (decide (r = base p c)) as [->|Hne].
    + exfalso. rewrite L0 in Hr. injection Hr as <-. lia.
    + destruct (Hd _ _ _ _ Hr L0 Hne) as [X|X]; simpl in X; [left|right]; simpl; lia.
Qed.

Lemma disj_sub_r x a n y : disj x (a, n) -> a <= fst y -> fst y + snd y <= a + n -> disj x y.
Proof. intros [X|X] ? ?; [left|right]; simpl in *; lia. Qed.

Lemma pairwise_app l k : pairwise (l ++ k) -> pairwise l /\ Forall (fun x => Forall (disj x) k) l.
Proof.
  induction l as [|x l IH]; simpl; [by split|]. intros [[Hl Hk]%Forall_app Hp].
  destruct (IH Hp). by split; [|constructor].
Qed.

Lemma metadata_disj m p pl chain lchain user :
  pinv m p pl chain lchain (user ++ nodes lchain) ->
  Forall (fun x => Forall (disj x) (metadata p chain lchain)) user.
Proof.
  intros I. pose proof I as (_ & Hh & Hp & _ & _ & _ & _ & _ & Hpw).
  apply pairwise_app in Hpw as [_ Hn]. rewrite Forall_forall in Hn |- *. intros x Hx.
  assert (x ∈ user ++ nodes lchain) as Hx' by (apply elem_of_app; by left).
  apply Forall_cons. split; [|apply Forall_app; split; [|by apply Hn]].
  - destruct chain as [|c chain]; [done|]. destruct Hp as [[= <-] _].
    eapply disj_sub_r; [eapply (header_disj _ _ _ _ _ _ x (head_ pl) I); [done|set_solver]|..];
      unfold base; rewrite decide_True by done; simpl; unfold sizeof_Pool, sizeof_SmallNode in *; lia.
  - apply Forall_forall. intros y Hy. apply list_elem_of_fmap in Hy as (c & -> & Hc).
    eapply disj_sub_r; [by eapply (header_disj _ _ _ _ _ _ x c I)|..]; simpl;
      unfold base; case_decide; unfold sizeof_Pool in *; lia.
Qed.

Lemma createPool_sound memalign junk (Halign : memalign_law memalign) m a :
  live_disj (live_ m) -> memalign (live_ m) PAGE_SIZE = Some a ->
  next_ (junk (a + sizeof_Pool)) = None -> (forall b, quote_ (junk b) = 0) ->
  sound (live_ m) a 0 ([], createPool memalign junk m).
Proof.
  intros Hd Hal Hnext Hzero. destruct (Halign _ _ _ Hal) as (_ & _ & _ & Hfree & _).
  do 3 eexists. simpl.
  split_and!; [constructor; [exact (createPool_inv memalign junk Halign m a Hd Hal Hnext)|..]| |constructor|simpl; lia..].
  - intros c Hc. apply list_elem_of_singleton in Hc as ->. unfold quote, createPool. rewrite Hal. simpl.
    rewrite lookup_insert_eq. simpl. by rewrite Hzero.
  - intros x (c & n & Hc & _). by apply elem_of_nil in Hc.
  - by intros c c' n n' x ?%elem_of_nil.
  - unfold tidy, createPool. rewrite Hal. simpl.
    eapply acc_iff; [|apply (acc_add _ (live_ m) (fun _ => False)); [|done]]; [|intros b; split; [done|by left]].
    intros b. unfold page, base. setoid_rewrite list_elem_of_singleton. split.
    + intros [[]| ->]. left. exists (a + sizeof_Pool). by rewrite decide_True.
    + intros [(x & -> & <-)|(c & n & Hc & _)]; [right; by rewrite decide_True|by apply elem_of_nil in Hc].
Qed.

(** C16: after [createPool], every program of [malloc], [calloc],
    [freeMemory] (of ranges it holds) and [resetPool], whatever the sizes and
    whenever the C heap runs out, runs without a fault, a double free or an
    endless loop; the ranges it holds are aligned to 16 bytes, inside live
    allocations, pairwise disjoint, and never over the pool's own headers and
    list nodes, although blocks are recycled.  (Fresh memory is taken to be
    zero where [createPool] and [mallocSmallNode] leave it as they find it.) *)
Theorem pool_programs_sound memalign junk (Halign : memalign_law memalign) m a ops fuel
  (Hd : live_disj (live_ m)) (Hal : memalign (live_ m) PAGE_SIZE = Some a)
  (Hnext : next_ (junk (a + sizeof_Pool)) = None) (Hzero : forall b, quote_ (junk b) = 0)
  (Hf : (length ops < fuel)%nat) (Hlen : 2 * Z.of_nat (length ops) < 2 ^ 32) :
  exists user m', run memalign junk fuel ops ([], createPool memalign junk m) = Ret (user, m') /\
    pairwise user /\
    Forall (fun x => (MP_ALIGNMENT | fst x) /\ 0 < snd x /\
      exists r k, live_ m' !! r = Some k /\ r <= fst x /\ fst x + snd x <= r + k) user /\
    exists pl chain lchain, pool_ m' = Some (a, pl) /\ path m' (Some (head_ pl)) chain /\
      lpath (larges_ m') (largeList_ pl) lchain /\
      Forall (fun x => Forall (disj x) (metadata a chain lchain)) user.
Proof.
  pose proof (createPool_sound memalign junk Halign m a Hd Hal Hnext Hzero) as S0.
  destruct (run_sound memalign junk Halign Hzero (live_ m) fuel a ops 0 _ S0) as ([user m'] & E & S1); [lia..|].
  destruct S1 as (pl & chain & lchain & F & _). simpl in F. apply f_pinv in F as I1.
  exists user, m'. split; [done|]. pose proof I1 as (Hpool & _ & Hp & Hb & _ & [Hlp _] & _ & Ha & Hpw).
  split; [by eapply pairwise_app|]. apply Forall_app in Ha as [Ha _]. split.
  - eapply Forall_impl; [exact Ha|]. intros x Hx. split; [apply Hx|]. split; [apply Hx|].
    destruct (alloc_region _ _ _ _ Hb Hx) as (r & k & ? & ? & ? & _). eauto.
  - exists pl, chain, lchain. split_and!; [done..|by eapply metadata_disj].
Qed.

(** C35: after any such program [destroyPool] is right only if the pool has
    still its first block alone: then it frees every large allocation and the
    block exactly once, and the C heap is what it was before [createPool].
    With a second block, the loop reads [cur->next_] from the block it has
    just freed. *)
Theorem destroyPool_after_program memalign junk (Halign : memalign_law memalign) m a ops fuel
  (Hd : live_disj (live_ m)) (Hal : memalign (live_ m) PAGE_SIZE = Some a)
  (Hnext : next_ (junk (a + sizeof_Pool)) = None) (Hzero : forall b, quote_ (junk b) = 0)
  (Hf : (S (length ops) < fuel)%nat) (Hlen : 2 * Z.of_nat (length ops) < 2 ^ 32) :
  exists user m' pl chain, run memalign junk fuel ops ([], createPool memalign junk m) = Ret (user, m') /\
    pool_ m' = Some (a, pl) /\ path m' (Some (head_ pl)) chain /\
    match chain with
    | [_] => exists m'', destroyPool fuel m' = Ret m'' /\ live_ m'' = live_ m
    | _ => destroyPool fuel m' = Err UseAfterFree
    end.
Proof.
  pose proof (createPool_sound memalign junk Halign m a Hd Hal Hnext Hzero) as S0.
  destruct (run_sound memalign junk Halign Hzero (live_ m) fuel a ops 0 _ S0) as ([user m'] & E & S1); [lia..|].
  destruct S1 as (pl & chain & lchain & F & T & _ & _ & Hl & _). simpl in *.
  pose proof (f_pinv _ _ _ _ _ _ F) as (Hpool & _ & Hp & _).
  exists user, m', pl, chain. split_and!; [done..|]. eapply destroyPool_finv; [exact F|exact T|lia..].
Qed.

(** The block of the range given back is used again, and so is the node of
    the large allocation. *)
Definition demo_ops : list op :=
  [Malloc 4000; Malloc 5000; Calloc 100; Malloc 4000; Free 0; Free 1; Malloc 4000; Malloc 6000].

Lemma pool_programs_sound_witness :
  exists user m', run bump demo_junk 20 demo_ops ([], createPool bump demo_junk demo_mem)
      = Ret (user, m') /\ pairwise user /\ user = [(21392, 6000); (17328, 4000); (13232, 100); (4160, 4000)].
Proof.
  destruct (pool_programs_sound bump demo_junk bump_law demo_mem 4096 demo_ops 20)
    as (user & m' & E & Hp & _).
  - intros a n b k H. simpl in H. rewrite lookup_empty in H. discriminate.
  - vm_compute. reflexivity.
  - reflexivity.
  - intros b. reflexivity.
  - vm_compute. lia.
  - vm_compute. reflexivity.
  - exists user, m'. split; [exact E|]. split; [exact Hp|].
    vm_compute in E. injection E as <- _. reflexivity.
Defined.

(** A pool of one block, with a large allocation still held and one freed,
    leaves the heap as it was. *)
Lemma destroyPool_after_program_witness :
  exists user m' m'', run bump demo_junk 20 [Malloc 100; Malloc 5000; Malloc 8000; Free 1]
      ([], createPool bump demo_junk demo_mem) = Ret (user, m') /\
    user = [(13200, 8000); (4160, 100)] /\ destroyPool 20 m' = Ret m'' /\ live_ m'' = ∅.
Proof.
  destruct (destroyPool_after_program bump demo_junk bump_law demo_mem 4096
    [Malloc 100; Malloc 5000; Malloc 8000; Free 1] 20) as (user & m' & pl & chain & E & _ & _ & H).
  - intros a n b k X. simpl in X. rewrite lookup_empty in X. discriminate.
  - vm_compute. reflexivity.
  - reflexivity.
  - intros b. reflexivity.
  - vm_compute. lia.
  - vm_compute. reflexivity.
  - destruct chain as [|c [|c' chain]].
    + vm_compute in E. injection E as <- <-. vm_compute in H. discriminate.
    + destruct H as (m'' & H & Hl). exists user, m', m''. split; [exact E|].
      split; [vm_compute in E; injection E as <- _; reflexivity|]. split; [exact H|exact Hl].
    + vm_compute in E. injection E as <- <-. vm_compute in H. discriminate.
Defined.

(** Fresh memory that is not zero breaks this: with [quote_] of the first
    block at [UINT_MAX], giving back one of two ranges recycles the block, and
    the next request gets the range still held. *)
Lemma garbage_quote_overlaps :
  let junk := fun _ => mkSmall 0 0 (2 ^ 32 - 1) 0 None in
  exists x user m', run bump junk 20 [Malloc 16; Malloc 16; Free 0; Malloc 16]
    ([], createPool bump junk demo_mem) = Ret (x :: x :: user, m').
Proof. vm_compute. eauto. Qed.

End MemoryFree.
