(* ===== verification/Logger.v ===== *)
(** * The logging front end ([src/logger/FixedBuffer.h], [LogStream.*],
    [Logging.*])

    A log statement builds a [Logger], whose constructor writes the time and
    the level into a 4000-byte [FixedBuffer], streams its arguments into it,
    and whose destructor appends the source position and hands the buffer to
    [g_output].  Memory handed to a stream is a byte list; a read past its
    end, or a write past the end of the buffer, is [OutOfBounds]. *)

From S2P Require Import Prelude Timer.

Definition kSmallBuffer : Z := 4000.
Definition kLargeBuffer : Z := 4000 * 1000.

Module FixedBuffer.

Section FixedBuffer.
(** The template argument. *)
Variable SIZE : Z.

Record FixedBuffer := mkFixedBuffer { data_ : bytes; cur_ : Z }.

(** The constructor leaves [data_] as the storage happens to be. *)
Definition new_FixedBuffer (storage : bytes) : FixedBuffer := mkFixedBuffer storage 0.

(** [end() - data_] and the pointers relative to [data_]. *)
Definition end_ : Z := SIZE.
Definition data (b : FixedBuffer) : bytes := data_ b.
Definition length (b : FixedBuffer) : Z := i32 end_.
Definition current (b : FixedBuffer) : Z := cur_ b.
Definition avail (b : FixedBuffer) : Z := i32 (end_ - cur_ b).
Definition add (len : Z) (b : FixedBuffer) : FixedBuffer := mkFixedBuffer (data_ b) (cur_ b + len).
Definition reset (b : FixedBuffer) : FixedBuffer := mkFixedBuffer (data_ b) 0.
Definition bzero (b : FixedBuffer) : FixedBuffer :=
  mkFixedBuffer (replicate (Z.to_nat SIZE) NUL) (cur_ b).
Definition toString (b : FixedBuffer) : outcome bytes := read_mem (data b) 0 (length b).

Definition append (buf : bytes) (len : Z) (b : FixedBuffer) : outcome FixedBuffer :=
  if len <? u64 (avail b) then
    src ← read_mem buf 0 len;
    d ← write_mem (data_ b) (cur_ b) src;
    mret (mkFixedBuffer d (cur_ b + len))
  else mret b.

End FixedBuffer.
#[global] Arguments length _ _ : simpl never.
#[global] Arguments avail _ _ : simpl never.

(** The buffer holding [t], followed by [rest] up to its end. *)
Definition buf (t rest : bytes) : FixedBuffer := mkFixedBuffer (t ++ rest) (zlen t).

End FixedBuffer.

Module LogStream.
Import FixedBuffer.

(** [GeneralTemplate]: memory and the length to take of it. *)
Record GeneralTemplate := mkGeneralTemplate { tdata_ : bytes; len_ : Z }.

Record LogStream := mkLogStream { buffer_ : FixedBuffer }.

(** [stream_()]: value-initialisation zeroes the buffer's storage. *)
Definition new_LogStream : LogStream :=
  mkLogStream (new_FixedBuffer (replicate (Z.to_nat kSmallBuffer) NUL)).

Definition on_buffer (f : FixedBuffer -> outcome FixedBuffer) (s : LogStream)
    : outcome LogStream :=
  b ← f (buffer_ s); mret (mkLogStream b).

Definition append (data : bytes) (len : Z) : LogStream -> outcome LogStream :=
  on_buffer (FixedBuffer.append kSmallBuffer data (u64 len)).
Definition buffer (s : LogStream) : FixedBuffer := buffer_ s.
Definition resetBuffer (s : LogStream) : LogStream := mkLogStream (reset (buffer_ s)).

(** ** Integers *)

Definition kMaxNumericSize : Z := 48.

Definition digits : bytes := str "9876543210123456789".

(** [*(p++) = c]. *)
Definition put (c : ascii) (m : bytes * Z) : outcome (bytes * Z) :=
  d ← write_mem (fst m) (snd m) [c];
  mret (d, snd m + 1).

(** The [do] loop; [zero = digits + 9]. *)
Fixpoint digit_loop (fuel : nat) (num : Z) (m : bytes * Z) : outcome (bytes * Z) :=
  match fuel with
  | O => Err OutOfFuel
  | S fuel =>
      let remainder := Z.rem num 10 in
      c ← deref OutOfBounds (digits !! Z.to_nat (9 + remainder));
      m ← put c m;
      let num := Z.quot num 10 in
      if num =? 0 then mret m else digit_loop fuel num m
  end.

(** [std::reverse(data + from, data + to)]. *)
Definition reverse_range (from to : Z) (d : bytes) : bytes :=
  splice from (rev (slice from (to - from) d)) d.

Definition formatInteger (num : Z) : LogStream -> outcome LogStream :=
  on_buffer (fun b =>
    if kMaxNumericSize <=? avail kSmallBuffer b then
      let start := current b in
      let negative := num <? 0 in
      m ← digit_loop (digit_fuel (Z.abs num)) num (data_ b, start);
      m ← (if negative then put "-"%char m else mret m);
      let cur := snd m in
      m ← put NUL m;
      let d := reverse_range start cur (fst m) in
      mret (add (cur - start) (mkFixedBuffer d start))
    else mret b).

(** ** [operator<<] *)

Definition shl_int (v : Z) : LogStream -> outcome LogStream := formatInteger v.
Definition shl_unsigned (v : Z) : LogStream -> outcome LogStream := formatInteger v.
Definition shl_short (v : Z) : LogStream -> outcome LogStream := shl_int v.
Definition shl_ushort (v : Z) : LogStream -> outcome LogStream := shl_unsigned v.
Definition shl_long (v : Z) : LogStream -> outcome LogStream := formatInteger v.
Definition shl_ulong (v : Z) : LogStream -> outcome LogStream := formatInteger v.
Definition shl_longlong (v : Z) : LogStream -> outcome LogStream := formatInteger v.
Definition shl_ulonglong (v : Z) : LogStream -> outcome LogStream := formatInteger v.

(** [text] is what ["%.12g"] prints for the argument; there is no [return]
    when the space is short. *)
Definition shl_double (text : bytes) : LogStream -> outcome LogStream :=
  on_buffer (fun b =>
    if kMaxNumericSize <=? avail kSmallBuffer b then
      d ← write_mem (data_ b) (cur_ b) (snprintf (Z.to_nat kMaxNumericSize) text ++ [NUL]);
      mret (add (zlen text) (mkFixedBuffer d (cur_ b)))
    else Err MissingReturn).
Definition shl_float (text : bytes) : LogStream -> outcome LogStream := shl_double text.

Definition shl_char (c : ascii) : LogStream -> outcome LogStream :=
  on_buffer (FixedBuffer.append kSmallBuffer [c] 1).

(** A pointer to memory, or null; [strlen] needs a NUL in the memory. *)
Definition shl_cstr (p : option bytes) : LogStream -> outcome LogStream :=
  match p with
  | Some m => fun s =>
      check (bool_decide (NUL ∈ m)) OutOfBounds;;
      on_buffer (FixedBuffer.append kSmallBuffer m (zlen (c_str m))) s
  | None => on_buffer (FixedBuffer.append kSmallBuffer (str "(null)") 6)
  end.
Definition shl_ptr (p : option bytes) : LogStream -> outcome LogStream := shl_cstr p.
Definition shl_ucstr (p : option bytes) : LogStream -> outcome LogStream := shl_cstr p.

Definition shl_string (v : bytes) : LogStream -> outcome LogStream :=
  on_buffer (FixedBuffer.append kSmallBuffer v (zlen v)).

Definition shl_buffer (v : FixedBuffer) (s : LogStream) : outcome LogStream :=
  v ← toString kSmallBuffer v; shl_string v s.

Definition shl_template (g : GeneralTemplate) : LogStream -> outcome LogStream :=
  on_buffer (FixedBuffer.append kSmallBuffer (tdata_ g) (u64 (len_ g))).

(** The C string literal [l]. *)
Definition lit (l : String.string) : option bytes := Some (str l ++ [NUL]).

(** The stream holding [t], followed by [rest] up to the end of its buffer. *)
Definition stream (t rest : bytes) : LogStream := mkLogStream (buf t rest).

End LogStream.

Module LogStreamLemmas.
Import FixedBuffer(FixedBuffer, mkFixedBuffer, data_, cur_, avail, end_, buf).
Import LogStream.

(** ** The buffer as text followed by unused storage *)

Section FB.
Variable SIZE : Z.
Hypothesis HS : 0 <= SIZE < 2 ^ 31.

Lemma avail_buf t rest : zlen t + zlen rest = SIZE -> avail SIZE (buf t rest) = zlen rest.
Proof.
  intros. unfold avail, end_, buf. cbn [cur_].
  pose proof (zlen_nonneg t). pose proof (zlen_nonneg rest). rewrite i32_small; lia.
Qed.

Lemma splice_app (t d rest : bytes) :
  zlen d <= zlen rest -> splice (zlen t) d (t ++ rest) = t ++ d ++ drop (length d) rest.
Proof.
  unfold splice, zlen. intros. rewrite Nat2Z.id, take_app_length.
  rewrite <- drop_drop, drop_app_length. done.
Qed.

Lemma append_fits t rest m len :
  zlen t + zlen rest = SIZE -> 0 <= len <= zlen m -> len < zlen rest ->
  FixedBuffer.append SIZE m len (buf t rest) =
    Ret (buf (t ++ slice 0 len m) (drop (Z.to_nat len) rest)).
Proof.
  intros Hs Hm Hr. unfold FixedBuffer.append. pose proof (zlen_nonneg t).
  rewrite avail_buf, u64_small by lia. if_true.
  rewrite read_mem_in by lia. ostep. unfold buf. cbn [data_ cur_].
  rewrite write_mem_in by (rewrite ?zlen_app, ?zlen_slice; lia). ostep.
  rewrite splice_app by (rewrite zlen_slice; lia).
  do 2 f_equal.
  - rewrite <- app_assoc. do 3 f_equal. pose proof (zlen_slice 0 len m).
    unfold zlen in *. lia.
  - rewrite zlen_app, zlen_slice; lia.
Qed.

Lemma append_full t rest m len :
  zlen t + zlen rest = SIZE -> zlen rest <= len ->
  FixedBuffer.append SIZE m len (buf t rest) = Ret (buf t rest).
Proof.
  intros Hs Hr. unfold FixedBuffer.append. pose proof (zlen_nonneg t). pose proof (zlen_nonneg rest).
  rewrite avail_buf, u64_small by lia. by if_false.
Qed.

End FB.

(** ** Integers *)

Lemma put_ok c t rest :
  0 < zlen rest -> put c (t ++ rest, zlen t) = Ret ((t ++ [c]) ++ drop 1 rest, zlen (t ++ [c])).
Proof.
  intros. unfold put. cbn [fst snd].
  rewrite write_mem_in by (zlen_lia || (pose proof (zlen_nonneg t); zlen_lia)). ostep.
  rewrite splice_app by zlen_lia. do 2 f_equal; [by rewrite <- app_assoc | zlen_lia].
Qed.

(** The digit table maps a remainder of either sign to its digit. *)
Lemma digits_lookup n : digits !! Z.to_nat (9 + Z.rem n 10) = Some (digit (Z.abs n mod 10)).
Proof.
  assert (Z.abs n mod 10 = Z.abs (Z.rem n 10)) as ->.
  { rewrite <- Z.rem_mod_nonneg by lia. rewrite <- (Z.rem_abs n 10); [done|lia]. }
  assert (-10 < Z.rem n 10 < 10) as Hr.
  { pose proof (Z.rem_bound_abs n 10 ltac:(lia)). lia. }
  remember (Z.rem n 10) as r eqn:E. clear E.
  assert (r = -9 \/ r = -8 \/ r = -7 \/ r = -6 \/ r = -5 \/ r = -4 \/ r = -3 \/ r = -2 \/ r = -1
    \/ r = 0 \/ r = 1 \/ r = 2 \/ r = 3 \/ r = 4 \/ r = 5 \/ r = 6 \/ r = 7 \/ r = 8 \/ r = 9)
    as H by lia.
  by repeat destruct H as [->|H]; [..|subst r].
Qed.

Lemma digits_rev_S f n : digits_rev (S f) n =
  digit (n mod 10) :: (if n / 10 =? 0 then [] else digits_rev f (n / 10)).
Proof. done. Qed.

Lemma digit_loop_ok fuel n t rest :
  let k := digits_rev fuel (Z.abs n) in
  (digit_fuel (Z.abs n) <= fuel)%nat -> zlen k <= zlen rest ->
  digit_loop fuel n (t ++ rest, zlen t) =
    Ret ((t ++ k) ++ drop (length k) rest, zlen (t ++ k)).
Proof.
  revert n t rest. induction fuel as [|fuel IH]; intros n t rest k Hf Hk;
    [unfold digit_fuel in Hf; lia|].
  subst k. rewrite digits_rev_S in *. cbn [digit_loop]. rewrite digits_lookup. ostep.
  rewrite zlen_cons in Hk.
  rewrite put_ok by (pose proof (zlen_nonneg (if Z.abs n / 10 =? 0 then []
    else digits_rev fuel (Z.abs n / 10))); lia). ostep.
  assert (Z.abs n / 10 = Z.abs (Z.quot n 10)) as E.
  { rewrite <- Z.quot_div_nonneg by lia. by rewrite <- (Z.quot_abs n 10) by lia. }
  rewrite E in *.
  assert ((Z.abs (Z.quot n 10) =? 0) = (Z.quot n 10 =? 0)) as E0.
  { destruct (Z.eqb_spec (Z.quot n 10) 0) as [->|]; [done|]. apply Z.eqb_neq. lia. }
  rewrite E0 in *. destruct (Z.quot n 10 =? 0) eqn:E1.
  - done.
  - reflect_bools. rewrite IH.
    + f_equal. rewrite drop_drop, <- !app_assoc. done.
    + pose proof (digit_fuel_div (Z.abs n)). rewrite <- E. lia.
    + zlen_lia.
Qed.

Lemma reverse_range_ok t d rest :
  reverse_range (zlen t) (zlen (t ++ d)) (t ++ d ++ rest) = t ++ rev d ++ rest.
Proof.
  unfold reverse_range. rewrite zlen_app.
  replace (zlen t + zlen d - zlen t) with (zlen d) by lia.
  assert (slice (zlen t) (zlen d) (t ++ d ++ rest) = d) as ->.
  { unfold slice, zlen. rewrite !Nat2Z.id, drop_app_length, take_app_length. done. }
  assert (zlen (rev d) = zlen d) as Hr by (unfold zlen; by rewrite length_rev).
  rewrite splice_app by (rewrite Hr, zlen_app; pose proof (zlen_nonneg rest); lia).
  rewrite length_rev, drop_app_length. done.
Qed.

Lemma fmt_d_length64 n : - 2 ^ 64 < n < 2 ^ 64 -> zlen (fmt_d n) <= 21.
Proof.
  intros H. unfold fmt_d, zlen. destruct (n <? 0) eqn:E; reflect_bools.
  - simpl. pose proof (fmt_u_length 20 (- n)). change (10 ^ Z.of_nat 20) with (10 ^ 20) in *. lia.
  - pose proof (fmt_u_length 20 n). change (10 ^ Z.of_nat 20) with (10 ^ 20) in *. lia.
Qed.

(** The digits with the sign, as the loop leaves them in the buffer. *)
Definition signed_rev (n : Z) : bytes :=
  digits_rev (digit_fuel (Z.abs n)) (Z.abs n) ++ (if n <? 0 then ["-"%char] else []).

Lemma rev_signed n : rev (signed_rev n) = fmt_d n.
Proof.
  unfold signed_rev, fmt_d, fmt_u. rewrite rev_app_distr.
  destruct (n <? 0) eqn:E; reflect_bools; simpl.
  - by replace (Z.abs n) with (- n) by lia.
  - by replace (Z.abs n) with n by lia.
Qed.

Lemma signed_loop_ok n t rest :
  zlen (signed_rev n) <= zlen rest ->
  (m ← digit_loop (digit_fuel (Z.abs n)) n (t ++ rest, zlen t);
   if n <? 0 then put "-"%char m else mret m) =
  Ret ((t ++ signed_rev n) ++ drop (length (signed_rev n)) rest, zlen (t ++ signed_rev n)).
Proof.
  unfold signed_rev. rewrite zlen_app. intros H.
  rewrite digit_loop_ok by (pose proof (zlen_nonneg (if n <? 0 then ["-"%char] else [])); lia).
  ostep. destruct (n <? 0).
  - rewrite put_ok by (unfold zlen in *; rewrite length_drop;
      cbn [length] in H; lia).
    f_equal. rewrite drop_drop, length_app. by rewrite <- !app_assoc.
  - ostep. by rewrite !app_nil_r.
Qed.

Definition in_range64 (n : Z) : Prop := - 2 ^ 63 <= n < 2 ^ 64.

Lemma formatInteger_ok n t rest :
  zlen t + zlen rest = kSmallBuffer -> in_range64 n -> kMaxNumericSize <= zlen rest ->
  formatInteger n (stream t rest) =
    Ret (stream (t ++ fmt_d n) (NUL :: drop (S (length (fmt_d n))) rest)).
Proof.
  unfold in_range64, kMaxNumericSize. intros Hs Hn Hr. unfold formatInteger, on_buffer, stream, kMaxNumericSize.
  cbn [buffer_]. rewrite avail_buf by (unfold kSmallBuffer in *; lia). if_true.
  pose proof (fmt_d_length64 n ltac:(lia)) as Hl. rewrite <- rev_signed in *.
  assert (zlen (rev (signed_rev n)) = zlen (signed_rev n)) as Hrev
    by (unfold zlen; by rewrite length_rev).
  pose proof (signed_loop_ok n t rest ltac:(lia)) as L. unfold FixedBuffer.current, buf.
  cbn [data_ cur_]. destruct (digit_loop _ _ _) as [m|] eqn:E; [|done].
  revert L. ostep. intros ->. ostep.
  rewrite put_ok by (unfold zlen in *; rewrite length_drop; lia). ostep.
  cbn [fst snd]. do 2 f_equal.
  unfold FixedBuffer.add. cbn [data_ cur_]. f_equal.
  - rewrite <- (app_assoc (t ++ _)), <- (app_assoc t), reverse_range_ok.
    rewrite <- (app_assoc t), drop_drop, length_rev, Nat.add_comm. done.
  - rewrite !zlen_app. lia.
Qed.

Lemma formatInteger_full n t rest :
  zlen t + zlen rest = kSmallBuffer -> zlen rest < kMaxNumericSize ->
  formatInteger n (stream t rest) = Ret (stream t rest).
Proof.
  unfold kMaxNumericSize. intros Hs Hr. unfold formatInteger, on_buffer, stream, kMaxNumericSize.
  cbn [buffer_]. rewrite avail_buf by (unfold kSmallBuffer in *; lia). by if_false.
Qed.

(** ** A fresh stream is all zeros, and stays so behind its text *)

Definition clean (t : bytes) : LogStream :=
  stream t (replicate (Z.to_nat (kSmallBuffer - zlen t)) NUL).

Lemma new_LogStream_clean : new_LogStream = clean [].
Proof. done. Qed.

Lemma zlen_pad (t : bytes) : zlen t <= kSmallBuffer ->
  zlen t + zlen (replicate (Z.to_nat (kSmallBuffer - zlen t)) NUL) = kSmallBuffer.
Proof. rewrite zlen_replicate. lia. Qed.

Lemma drop_pad (t d : bytes) n :
  length d = n -> drop n (replicate (Z.to_nat (kSmallBuffer - zlen t)) NUL) =
  replicate (Z.to_nat (kSmallBuffer - zlen (t ++ d))) NUL.
Proof. intros <-. rewrite drop_replicate, zlen_app. f_equal. unfold zlen. lia. Qed.

Lemma append_clean t m len :
  0 <= len <= zlen m -> zlen t + len < kSmallBuffer ->
  on_buffer (FixedBuffer.append kSmallBuffer m len) (clean t) = Ret (clean (t ++ slice 0 len m)).
Proof.
  intros Hm Hl. unfold on_buffer, clean, stream. cbn [buffer_].
  rewrite append_fits; [ostep|unfold kSmallBuffer; lia|apply zlen_pad; lia|lia|
    rewrite zlen_replicate; lia].
  do 3 f_equal. apply drop_pad. pose proof (zlen_slice 0 len m). unfold zlen in *. lia.
Qed.

Lemma shl_string_clean t v :
  zlen t + zlen v < kSmallBuffer -> shl_string v (clean t) = Ret (clean (t ++ v)).
Proof.
  intros H. unfold shl_string. rewrite append_clean by (pose proof (zlen_nonneg v); lia).
  by rewrite slice_all.
Qed.

Lemma shl_template_clean t m len :
  0 <= len <= zlen m -> zlen t + len < kSmallBuffer ->
  shl_template (mkGeneralTemplate m len) (clean t) = Ret (clean (t ++ slice 0 len m)).
Proof.
  intros. unfold shl_template. cbn [tdata_ len_]. pose proof (zlen_nonneg t).
  rewrite u64_small by (unfold kSmallBuffer in *; lia). by apply append_clean.
Qed.

Lemma shl_char_clean t c :
  zlen t + 1 < kSmallBuffer -> shl_char c (clean t) = Ret (clean (t ++ [c])).
Proof. intros. unfold shl_char. by rewrite append_clean by zlen_lia. Qed.

Lemma c_str_terminated v : NUL ∉ v -> c_str (v ++ [NUL]) = v.
Proof.
  intros. unfold c_str. rewrite find_index_app by done. by rewrite take_app_length.
Qed.

Lemma shl_cstr_clean t v :
  NUL ∉ v -> zlen t + zlen v < kSmallBuffer ->
  shl_cstr (Some (v ++ [NUL])) (clean t) = Ret (clean (t ++ v)).
Proof.
  intros Hn H. unfold shl_cstr.
  rewrite bool_decide_eq_true_2 by (rewrite elem_of_app; right; by apply list_elem_of_here).
  ostep. rewrite c_str_terminated by done.
  rewrite append_clean by (pose proof (zlen_nonneg v); zlen_lia).
  do 3 f_equal. rewrite <- (slice_all v) at 3. apply slice_app_l; zlen_lia || auto with wf lia.
Qed.

Lemma shl_int_clean t n :
  in_range64 n -> zlen t + kMaxNumericSize <= kSmallBuffer ->
  shl_int n (clean t) = Ret (clean (t ++ fmt_d n)).
Proof.
  intros Hn H. unfold shl_int, clean.
  rewrite formatInteger_ok; [|apply zlen_pad; unfold kMaxNumericSize in *; lia|done|
    rewrite zlen_replicate; lia].
  do 2 f_equal. pose proof (fmt_d_length64 n ltac:(unfold in_range64 in *; lia)).
  rewrite zlen_app. unfold kMaxNumericSize in *.
  rewrite drop_replicate. change (NUL :: replicate ?k NUL) with (replicate (S k) NUL).
  f_equal. unfold zlen in *. lia.
Qed.

End LogStreamLemmas.

Module Logging.
Import LogStream.
Import Timestamp(Timestamp, tm, mkTm, now, date_text, microSecondsSinceEpoch,
  kMicroSecondsPerSecond).

(** ** [SourceFile] *)

(** [strrchr], as the offset of the last [c]. *)
Fixpoint strrchr (c : ascii) (l : bytes) : option nat :=
  match l with
  | [] => None
  | x :: l' => match strrchr c l' with
               | Some i => Some (S i)
               | None => if Ascii.eqb x c then Some 0%nat else None
               end
  end.

Record SourceFile := mkSourceFile { fdata_ : bytes; size_ : Z }.

(** [filename] is the C string, without its terminator. *)
Definition new_SourceFile (filename : bytes) : SourceFile :=
  let data := match strrchr "/"%char filename with
              | Some slash => drop (slash + 1) filename
              | None => filename
              end in
  mkSourceFile data (i32 (zlen data)).

(** ** Levels *)

Inductive LogLevel := TRACE | DEBUG | INFO | WARN | ERROR | FATAL | LEVEL_COUNT.

Definition level_num (l : LogLevel) : Z :=
  match l with
  | TRACE => 0 | DEBUG => 1 | INFO => 2 | WARN => 3 | ERROR => 4 | FATAL => 5
  | LEVEL_COUNT => 6
  end.

Definition getLevelName : list bytes :=
  [str "TRACE "; str "DEBUG "; str "INFO  "; str "WARN  "; str "ERROR "; str "FATAL "].

Definition initLogLevel : LogLevel := INFO.

(** ** Thread-local buffers *)

Record ThreadInfo := mkThreadInfo {
  t_errnobuf : bytes;
  t_time : bytes;
  t_lastSecond : Z
}.

Definition new_ThreadInfo : ThreadInfo :=
  mkThreadInfo (replicate 512 NUL) (replicate 64 NUL) 0.

(** [snprintf(buf, sizeof(buf), ...)] into the array [b]. *)
Definition sprint (b text : bytes) : bytes := splice 0 (snprintf (length b) text ++ [NUL]) b.

(** What the C library is asked for: [localtime], [strerror_r], and the two
    readings of [gettimeofday] a record takes. *)
Record Clock := mkClock {
  localtime : Z -> tm;
  strerror : Z -> bytes;
  tv1 : Z * Z;
  tv2 : Z * Z
}.

(** GNU [strerror_r] returns its own string. *)
Definition getErrnoMsg (c : Clock) (savedErrno : Z) : bytes := strerror c savedErrno.

(** ** [Logger::Impl] *)

Record Impl := mkImpl {
  time_ : Timestamp;
  stream_ : LogStream;
  level_ : LogLevel;
  line_ : Z;
  basename_ : SourceFile
}.

Definition set_stream (s : LogStream) (i : Impl) : Impl :=
  mkImpl (time_ i) s (level_ i) (line_ i) (basename_ i).

Definition formatTime (c : Clock) (th : ThreadInfo) (i : Impl) : outcome (ThreadInfo * Impl) :=
  let now := now (fst (tv2 c)) (snd (tv2 c)) in
  let seconds := Z.quot (microSecondsSinceEpoch now) kMicroSecondsPerSecond in
  let microseconds := i32 (Z.rem (microSecondsSinceEpoch now) kMicroSecondsPerSecond) in
  let tm_time := localtime c seconds in
  let th := mkThreadInfo (t_errnobuf th) (sprint (t_time th) (date_text tm_time)) seconds in
  let buf := sprint (replicate 32 NUL) (fmt_pad "0" 6 (fmt_d microseconds) ++ str " ") in
  s ← shl_template (mkGeneralTemplate (t_time th) 17) (stream_ i);
  s ← shl_template (mkGeneralTemplate buf 7) s;
  mret (th, set_stream s i).

Definition new_Impl (c : Clock) (th : ThreadInfo) (level : LogLevel) (savedErrno : Z)
    (file : bytes) (line : Z) : outcome (ThreadInfo * Impl) :=
  let i := mkImpl (now (fst (tv1 c)) (snd (tv1 c))) new_LogStream level line
    (new_SourceFile file) in
  r ← formatTime c th i;
  let '(th, i) := r in
  name ← deref OutOfBounds (getLevelName !! Z.to_nat (level_num level));
  s ← shl_template (mkGeneralTemplate (name ++ [NUL]) 6) (stream_ i);
  s ← (if negb (savedErrno =? 0) then
         s ← shl_cstr (Some (getErrnoMsg c savedErrno ++ [NUL])) s;
         s ← shl_cstr (lit " (errno=") s;
         s ← shl_int savedErrno s;
         shl_cstr (lit ") ") s
       else mret s);
  mret (th, set_stream s i).

Definition finish (i : Impl) : outcome Impl :=
  s ← shl_cstr (lit " - ") (stream_ i);
  s ← shl_template (mkGeneralTemplate (fdata_ (basename_ i)) (size_ (basename_ i))) s;
  s ← shl_char ":"%char s;
  s ← shl_int (line_ i) s;
  s ← shl_char LF s;
  mret (set_stream s i).

(** ** [Logger] *)

(** [W] is the state the output functions work on. *)
Section Logger.
Context {W : Type}.

Definition OutputFunc : Type := bytes -> Z -> W -> outcome W.
Definition FlushFunc : Type := W -> outcome W.

Record Globals := mkGlobals {
  g_logLevel : LogLevel;
  g_output : OutputFunc;
  g_flush : FlushFunc;
  world : W
}.

Definition logLevel (g : Globals) : LogLevel := g_logLevel g.
Definition setLogLevel (level : LogLevel) (g : Globals) : Globals :=
  mkGlobals level (g_output g) (g_flush g) (world g).
Definition setOutput (out : OutputFunc) (g : Globals) : Globals :=
  mkGlobals (g_logLevel g) out (g_flush g) (world g).
Definition setFlush (flush : FlushFunc) (g : Globals) : Globals :=
  mkGlobals (g_logLevel g) (g_output g) flush (world g).

Definition Logger2 (c : Clock) (th : ThreadInfo) (file : bytes) (line : Z) :=
  new_Impl c th INFO 0 file line.
Definition Logger3 (c : Clock) (th : ThreadInfo) (file : bytes) (line : Z) (level : LogLevel) :=
  new_Impl c th level 0 file line.
Definition Logger4 (c : Clock) (th : ThreadInfo) (file : bytes) (line : Z) (level : LogLevel)
    (func : bytes) : outcome (ThreadInfo * Impl) :=
  r ← new_Impl c th level 0 file line;
  let '(th, i) := r in
  s ← shl_cstr (Some (func ++ [NUL])) (stream_ i);
  s ← shl_char " "%char s;
  mret (th, set_stream s i).

(** [~Logger]; the flag is whether it ends in [abort()]. *)
Definition delete_Logger (i : Impl) (g : Globals) : outcome (Globals * bool) :=
  i ← finish i;
  let buf := buffer (stream_ i) in
  w ← g_output g (FixedBuffer.data buf) (FixedBuffer.length kSmallBuffer buf) (world g);
  let g := mkGlobals (g_logLevel g) (g_output g) (g_flush g) w in
  if level_num (level_ i) =? level_num FATAL then
    w ← g_flush g (world g);
    mret (mkGlobals (g_logLevel g) (g_output g) (g_flush g) w, true)
  else mret (g, false).

(** A statement [LOG_X << ...]: the constructor, the operands in order, and
    the destructor at the end of the full expression. *)
Definition statement (ctor : outcome (ThreadInfo * Impl)) (operands : LogStream -> outcome LogStream)
    (g : Globals) : outcome (ThreadInfo * (Globals * bool)) :=
  r ← ctor;
  let '(th, i) := r in
  s ← operands (stream_ i);
  g ← delete_Logger (set_stream s i) g;
  mret (th, g).

(** The macros, at the position [file]:[line] of the function [func]. *)
Definition LOG_DEBUG (c : Clock) (th : ThreadInfo) (file : bytes) (line : Z) (func : bytes)
    (operands : LogStream -> outcome LogStream) (g : Globals) :=
  if level_num (logLevel g) <=? level_num DEBUG
  then statement (Logger4 c th file line DEBUG func) operands g else mret (th, (g, false)).
Definition LOG_INFO (c : Clock) (th : ThreadInfo) (file : bytes) (line : Z)
    (operands : LogStream -> outcome LogStream) (g : Globals) :=
  if level_num (logLevel g) <=? level_num INFO
  then statement (Logger2 c th file line) operands g else mret (th, (g, false)).
Definition LOG_WARN (c : Clock) (th : ThreadInfo) (file : bytes) (line : Z)
    (operands : LogStream -> outcome LogStream) :=
  statement (Logger3 c th file line WARN) operands.
Definition LOG_ERROR (c : Clock) (th : ThreadInfo) (file : bytes) (line : Z)
    (operands : LogStream -> outcome LogStream) :=
  statement (Logger3 c th file line ERROR) operands.
Definition LOG_FATAL (c : Clock) (th : ThreadInfo) (file : bytes) (line : Z)
    (operands : LogStream -> outcome LogStream) :=
  statement (Logger3 c th file line FATAL) operands.

End Logger.

(** The default output: [fwrite] to [stdout], a byte sequence here. *)
Definition defaultOutput (data : bytes) (len : Z) (out : bytes) : outcome bytes :=
  d ← read_mem data 0 len; mret (out ++ d).
Definition defaultFlush (out : bytes) : outcome bytes := mret out.

Definition initial_globals : Globals := mkGlobals initLogLevel defaultOutput defaultFlush [].

End Logging.

Module LoggingLemmas.
Import LogStream LogStreamLemmas Logging.
Import Timestamp(Timestamp, tm, tm_year, tm_mon, tm_mday, tm_hour, tm_min, tm_sec, date_text).

(** ** Source file names *)

Lemma strrchr_none c l : c ∉ l -> strrchr c l = None.
Proof.
  induction l as [|x l IH]; simpl; intros H; [done|]. rewrite IH by set_solver.
  destruct (Ascii.eqb x c) eqn:E; [|done]. apply Ascii.eqb_eq in E. set_solver.
Qed.

Lemma strrchr_last c u l : c ∉ l -> strrchr c (u ++ c :: l) = Some (length u).
Proof.
  intros H. induction u as [|x u IH]; simpl.
  - by rewrite strrchr_none, Ascii.eqb_refl.
  - by rewrite IH.
Qed.

Lemma new_SourceFile_base dir base :
  "/"%char ∉ base -> zlen base < 2 ^ 31 ->
  new_SourceFile (dir ++ "/"%char :: base) = mkSourceFile base (zlen base).
Proof.
  intros H Hl. unfold new_SourceFile. rewrite strrchr_last by done.
  rewrite Nat.add_1_r, drop_past, i32_small; [done|]. pose proof (zlen_nonneg base). lia.
Qed.

(** ** Times *)

(** What [localtime] returns for a year of four digits. *)
Record tm_valid (t : tm) : Prop := {
  valid_year : 0 <= tm_year t + 1900 <= 9999;
  valid_mon : 0 <= tm_mon t <= 11;
  valid_mday : 1 <= tm_mday t <= 31;
  valid_hour : 0 <= tm_hour t <= 23;
  valid_min : 0 <= tm_min t <= 59;
  valid_sec : 0 <= tm_sec t <= 60
}.

Lemma fmt_pad_length pad w n :
  0 <= n < 10 ^ Z.of_nat w -> (0 < w)%nat -> length (fmt_pad pad w (fmt_d n)) = w.
Proof.
  intros H Hw. unfold fmt_pad, fmt_d. destruct (n <? 0) eqn:E; reflect_bools; [lia|].
  pose proof (fmt_u_length w n H Hw). rewrite length_app, length_replicate. lia.
Qed.

(** The date down to the minute. *)
Definition minute_text (t : tm) : bytes :=
  fmt_pad " " 4 (fmt_d (tm_year t + 1900)) ++ str "/" ++
  fmt_pad "0" 2 (fmt_d (tm_mon t + 1)) ++ str "/" ++
  fmt_pad "0" 2 (fmt_d (tm_mday t)) ++ str " " ++
  fmt_pad "0" 2 (fmt_d (tm_hour t)) ++ str ":" ++
  fmt_pad "0" 2 (fmt_d (tm_min t)) ++ str ":".

Definition second_text (t : tm) : bytes := fmt_pad "0" 2 (fmt_d (tm_sec t)).

Lemma date_text_split t : date_text t = minute_text t ++ second_text t.
Proof. unfold date_text, minute_text, second_text. by rewrite <- !app_assoc. Qed.

Lemma minute_text_length t : tm_valid t -> length (minute_text t) = 17%nat.
Proof.
  intros []. unfold minute_text. rewrite !length_app, !fmt_pad_length by lia. done.
Qed.

Lemma second_text_length t : tm_valid t -> length (second_text t) = 2%nat.
Proof. intros []. unfold second_text. by rewrite fmt_pad_length by lia. Qed.

(** An array begins with what was printed into it. *)
Lemma sprint_prefix b text :
  (length text < length b)%nat -> exists k, sprint b text = text ++ NUL :: k.
Proof.
  intros H. unfold sprint, snprintf, splice. rewrite (firstn_all2 text) by lia.
  simpl. rewrite <- app_assoc. eauto.
Qed.

Lemma sprint_length b text : (length text < length b)%nat -> length (sprint b text) = length b.
Proof.
  intros H. unfold sprint, snprintf, splice. rewrite (firstn_all2 text) by lia.
  rewrite !length_app, length_drop, length_take. cbn [length]. lia.
Qed.

Lemma slice_prefix (t k : bytes) n : zlen t = n -> slice 0 n (t ++ k) = t.
Proof. intros <-. unfold slice, zlen. rewrite Nat2Z.id. simpl. apply take_app_length. Qed.

(** ** Records *)

(** [gettimeofday] at [usec] microseconds after [sec]. *)
Definition reading_valid (tv : Z * Z) : Prop := 0 <= fst tv < 2 ^ 40 /\ 0 <= snd tv < 10 ^ 6.

Definition micros_text (usec : Z) : bytes := fmt_pad "0" 6 (fmt_d usec) ++ str " ".

Definition stamp (c : Clock) : bytes :=
  minute_text (localtime c (fst (tv2 c))) ++ micros_text (snd (tv2 c)).

Record clock_valid (c : Clock) : Prop := {
  valid_tv2 : reading_valid (tv2 c);
  valid_tm : tm_valid (localtime c (fst (tv2 c)))
}.

Lemma micros_text_length usec : 0 <= usec < 10 ^ 6 -> length (micros_text usec) = 7%nat.
Proof. intros. unfold micros_text. rewrite length_app, fmt_pad_length by lia. done. Qed.

Lemma stamp_length c : clock_valid c -> length (stamp c) = 24%nat.
Proof.
  intros [[_ H] ?]. unfold stamp.
  by rewrite length_app, minute_text_length, micros_text_length.
Qed.

Lemma reading_split sec usec : reading_valid (sec, usec) ->
  let us := Timestamp.microSecondsSinceEpoch_ (Timestamp.now sec usec) in
  Z.quot us Timestamp.kMicroSecondsPerSecond = sec /\
  i32 (Z.rem us Timestamp.kMicroSecondsPerSecond) = usec.
Proof.
  intros [Hs Hu]. cbn in Hs, Hu. cbn. unfold Timestamp.kMicroSecondsPerSecond.
  rewrite Z.quot_div_nonneg, Z.rem_mod_nonneg by lia.
  split; [symmetry; apply (Z.div_unique _ _ _ usec); lia|].
  rewrite <- (Z.mod_unique _ _ sec usec) by lia. apply i32_small. lia.
Qed.

Lemma shl_template_prefix t d k n :
  zlen d = n -> zlen t + n < kSmallBuffer ->
  shl_template (mkGeneralTemplate (d ++ k) n) (clean t) = Ret (clean (t ++ d)).
Proof.
  intros <- H. rewrite shl_template_clean; [by rewrite slice_prefix| |done].
  rewrite zlen_app. pose proof (zlen_nonneg d). pose proof (zlen_nonneg k). lia.
Qed.

(** The thread's time buffer after a record. *)
Definition after_time (c : Clock) (th : ThreadInfo) : ThreadInfo :=
  mkThreadInfo (t_errnobuf th) (sprint (t_time th) (date_text (localtime c (fst (tv2 c)))))
    (fst (tv2 c)).

Lemma formatTime_ok c th i :
  clock_valid c -> length (t_time th) = 64%nat -> stream_ i = clean [] ->
  formatTime c th i = Ret (after_time c th, set_stream (clean (stamp c)) i).
Proof.
  intros Hc Hth Hi. pose proof Hc as [Hr Htm]. unfold formatTime.
  destruct (tv2 c) as [sec usec] eqn:E. cbn [fst snd] in *.
  destruct (reading_split sec usec Hr) as [Hsec Hus]. unfold Timestamp.microSecondsSinceEpoch.
  rewrite Hsec, Hus, Hi. destruct Hr as [_ Hu]. cbn [snd] in Hu.
  pose proof (minute_text_length _ Htm) as Hm. pose proof (second_text_length _ Htm) as Hs2.
  pose proof (micros_text_length _ Hu) as Hm7.
  destruct (sprint_prefix (t_time th) (date_text (localtime c sec))) as [k Hk].
  { rewrite date_text_split, length_app. lia. }
  destruct (sprint_prefix (replicate 32 NUL) (micros_text usec)) as [k' Hk'].
  { rewrite length_replicate. lia. }
  unfold micros_text in Hk'. rewrite Hk'. fold (micros_text usec).
  unfold after_time. rewrite E. cbn [fst t_time]. rewrite Hk.
  assert (zlen (minute_text (localtime c sec)) = 17) by (unfold zlen; lia).
  rewrite date_text_split, <- (app_assoc (minute_text _)).
  rewrite shl_template_prefix by (done || (rewrite zlen_nil; unfold kSmallBuffer; lia)). ostep.
  rewrite shl_template_prefix by
    (unfold kSmallBuffer; rewrite ?app_nil_l; unfold zlen in *; lia). ostep.
  unfold stamp. by rewrite E.
Qed.

Definition level_name (l : LogLevel) : bytes :=
  default [] (getLevelName !! Z.to_nat (level_num l)).

Definition fresh_Impl (c : Clock) (l : LogLevel) (line : Z) (src : SourceFile) : Impl :=
  mkImpl (Timestamp.now (fst (tv1 c)) (snd (tv1 c))) (clean (stamp c ++ level_name l)) l line src.

Lemma new_Impl_ok c th l file line :
  clock_valid c -> length (t_time th) = 64%nat -> l <> LEVEL_COUNT ->
  new_Impl c th l 0 file line =
    Ret (after_time c th, fresh_Impl c l line (new_SourceFile file)).
Proof.
  intros Hc Hth Hl. unfold new_Impl. rewrite formatTime_ok by done. ostep.
  assert (zlen (stamp c) = 24) by (unfold zlen; by rewrite stamp_length).
  assert (getLevelName !! Z.to_nat (level_num l) = Some (level_name l)) as -> by (by destruct l).
  ostep. cbn [stream_ set_stream].
  rewrite shl_template_prefix by (by destruct l) || (unfold kSmallBuffer; lia).
  done.
Qed.

Definition source_text (base : bytes) (line : Z) : bytes :=
  str " - " ++ base ++ ":"%char :: fmt_d line ++ [LF].

Lemma finish_ok i t base :
  stream_ i = clean t -> basename_ i = mkSourceFile base (zlen base) -> in_range64 (line_ i) ->
  zlen t + zlen base + 52 <= kSmallBuffer ->
  finish i = Ret (set_stream (clean (t ++ source_text base (line_ i))) i).
Proof.
  intros Hs Hb Hl Hf. unfold finish. rewrite Hs, Hb. cbn [fdata_ size_].
  pose proof (zlen_nonneg base) as H0. pose proof (fmt_d_length64 (line_ i)) as Hd.
  unfold in_range64 in *. unfold lit.
  rewrite shl_cstr_clean by (apply (bool_decide_unpack _); vm_compute; exact Logic.I) ||
    (change (zlen (str " - ")) with 3; lia). ostep.
  rewrite <- (app_nil_r base) at 1.
  rewrite shl_template_prefix by (done || (rewrite zlen_app; change (zlen (str " - ")) with 3; lia)).
  ostep.
  rewrite shl_char_clean by (rewrite !zlen_app; change (zlen (str " - ")) with 3; lia). ostep.
  rewrite shl_int_clean by (done || (unfold kMaxNumericSize; rewrite !zlen_app, zlen_cons, zlen_nil;
    change (zlen (str " - ")) with 3; lia)). ostep.
  rewrite shl_char_clean by (rewrite !zlen_app, zlen_cons, zlen_nil;
    change (zlen (str " - ")) with 3; lia). ostep.
  unfold source_text. rewrite <- !app_assoc. done.
Qed.

(** A record: time stamp, level, operands, source position. *)
Definition record_text (c : Clock) (l : LogLevel) (d base : bytes) (line : Z) : bytes :=
  stamp c ++ level_name l ++ d ++ source_text base line.

(** What the output function is handed: the whole buffer. *)
Definition padded (t : bytes) : bytes :=
  t ++ replicate (Z.to_nat (kSmallBuffer - zlen t)) NUL.

Lemma delete_Logger_ok {W} i t base (g : @Globals W) :
  stream_ i = clean t -> basename_ i = mkSourceFile base (zlen base) -> in_range64 (line_ i) ->
  zlen t + zlen base + 52 <= kSmallBuffer ->
  delete_Logger i g =
    (w ← g_output g (padded (t ++ source_text base (line_ i))) kSmallBuffer (world g);
     w ← (if level_num (level_ i) =? level_num FATAL then g_flush g w else mret w);
     mret (mkGlobals (g_logLevel g) (g_output g) (g_flush g) w,
       level_num (level_ i) =? level_num FATAL)).
Proof.
  intros Hs Hb Hl Hf. unfold delete_Logger.
  rewrite (finish_ok i t base) by done. ostep. unfold set_stream.
  cbn [stream_ level_ buffer_ clean stream].
  unfold FixedBuffer.length, FixedBuffer.end_, FixedBuffer.data, FixedBuffer.buf.
  change (i32 kSmallBuffer) with kSmallBuffer. unfold buffer. cbn [buffer_ FixedBuffer.data_ clean stream].
  unfold padded. destruct (g_output _ _ _ _) as [w|]; [|done]. ostep.
  cbn [g_flush world g_logLevel g_output].
  destruct (_ =? _); [|done]. by destruct (g_flush g w).
Qed.

(** The operands of a statement write [d]: they take the stream holding the
    record so far to the one that also holds [d]. *)
Definition writes (operands : LogStream -> outcome LogStream) (t d : bytes) : Prop :=
  operands (clean t) = Ret (clean (t ++ d)).

Lemma statement_ok {W} c th l file line operands d base dir (g : @Globals W) :
  clock_valid c -> length (t_time th) = 64%nat -> l <> LEVEL_COUNT ->
  file = dir ++ "/"%char :: base -> "/"%char ∉ base -> in_range64 line ->
  writes operands (stamp c ++ level_name l) d ->
  zlen d + zlen base + 82 <= kSmallBuffer ->
  statement (new_Impl c th l 0 file line) operands g =
    (w ← g_output g (padded (record_text c l d base line)) kSmallBuffer (world g);
     w ← (if level_num l =? level_num FATAL then g_flush g w else mret w);
     mret (after_time c th, (mkGlobals (g_logLevel g) (g_output g) (g_flush g) w,
       level_num l =? level_num FATAL))).
Proof.
  intros Hc Hth Hl -> Hb Hline Ho Hf. unfold statement.
  pose proof (zlen_nonneg d). unfold kSmallBuffer in Hf.
  rewrite new_Impl_ok, new_SourceFile_base by (done || lia). ostep.
  cbn [stream_ fresh_Impl]. rewrite Ho. ostep.
  rewrite (delete_Logger_ok _ ((stamp c ++ level_name l) ++ d) base).
  - unfold fresh_Impl, set_stream. cbn [line_ level_]. unfold record_text. rewrite <- !app_assoc.
    destruct (g_output _ _ _ _) as [w|]; [|done]. ostep.
    destruct (_ =? _); [|done]. by destruct (g_flush g w).
  - done.
  - done.
  - done.
  - assert (zlen (stamp c) = 24) by (unfold zlen; by rewrite stamp_length).
    assert (zlen (level_name l) = 6) by (by destruct l).
    rewrite !zlen_app. unfold kSmallBuffer. lia.
Qed.

End LoggingLemmas.

Module LoggerProps.
Import LogStream LogStreamLemmas Logging LoggingLemmas.

(** C37: a log statement whose operands write [d], at most 4000 bytes
    together with the rest of the record, hands [g_output] one record: the date to the minute, the microseconds, the level, [d], the base
    name of the source file and the line, and then zeros up to all 4000 bytes
    of the buffer, since [length()] is the size of the buffer; the seconds are
    cut off by the length 17 of the time.  [LOG_INFO] does so only up to the
    level set, and exactly [LOG_FATAL] flushes and aborts. *)
Theorem log_record_emitted {W} (c : Clock) (th : ThreadInfo) (file dir base : bytes) (line : Z)
    (operands : LogStream -> outcome LogStream) (d : bytes) (g : @Globals W) :
  clock_valid c -> length (t_time th) = 64%nat ->
  file = dir ++ "/"%char :: base -> "/"%char ∉ base -> in_range64 line ->
  (forall l, l <> LEVEL_COUNT -> writes operands (stamp c ++ level_name l) d) ->
  zlen d + zlen base + 82 <= kSmallBuffer ->
  let emit l after :=
    w ← g_output g (padded (record_text c l d base line)) kSmallBuffer (world g);
    w ← after w;
    mret (after_time c th, (mkGlobals (g_logLevel g) (g_output g) (g_flush g) w,
      level_num l =? level_num FATAL)) in
  LOG_INFO c th file line operands g =
    (if level_num (g_logLevel g) <=? level_num INFO
     then emit INFO mret else Ret (th, (g, false))) /\
  LOG_WARN c th file line operands g = emit WARN mret /\
  LOG_ERROR c th file line operands g = emit ERROR mret /\
  LOG_FATAL c th file line operands g = emit FATAL (g_flush g).
Proof.
  intros Hc Hth Hfile Hb Hl Ho Hf emit. subst emit.
  assert (forall l, l <> LEVEL_COUNT -> _) as S
    by (intros l Hn; exact (statement_ok c th l file line operands d base dir g
      Hc Hth Hn Hfile Hb Hl (Ho l Hn) Hf)).
  unfold LOG_INFO, LOG_WARN, LOG_ERROR, LOG_FATAL, Logger2, Logger3, logLevel.
  rewrite !S by done. split_and!; [|done..]. by destruct (_ <=? _).
Qed.

(** C38: [formatInteger] appends the decimal text of its argument, for every
    value of every integer type the stream takes, [INT64_MIN] included, and
    terminates it; with less than [kMaxNumericSize] bytes left it appends
    nothing.  The text before it is kept in both cases. *)
Theorem formatInteger_prints (n : Z) (t rest : bytes) :
  zlen t + zlen rest = kSmallBuffer -> - 2 ^ 63 <= n < 2 ^ 64 ->
  formatInteger n (stream t rest) =
    Ret (if kMaxNumericSize <=? zlen rest
         then stream (t ++ fmt_d n) (NUL :: drop (S (length (fmt_d n))) rest)
         else stream t rest).
Proof.
  intros Hs Hn. destruct (kMaxNumericSize <=? zlen rest) eqn:E; reflect_bools.
  - by apply formatInteger_ok.
  - by apply formatInteger_full.
Qed.

(** ** Witnesses *)

Definition demo_tm : Timestamp.tm := Timestamp.mkTm 122 9 26 21 30 59.
Definition demo_clock : Clock :=
  mkClock (fun _ => demo_tm) (fun _ => []) (1666791059, 123) (1666791059, 456).
Definition demo_operands (s : LogStream) : outcome LogStream :=
  s ← shl_cstr (lit "pid = ") s; shl_int (-42) s.
Definition demo_file : bytes := str "/srv/net/echo.cc".

Lemma demo_clock_valid : clock_valid demo_clock.
Proof. repeat constructor; cbn; lia. Qed.

Lemma demo_writes l : l <> LEVEL_COUNT ->
  writes demo_operands (stamp demo_clock ++ level_name l) (str "pid = -42").
Proof. intros. by destruct l; vm_compute. Qed.

Definition demo_record (l : LogLevel) : bytes :=
  record_text demo_clock l (str "pid = -42") (str "echo.cc") 60.

Lemma demo_record_text : demo_record INFO =
  str "2022/10/26 21:30:000456 INFO  pid = -42 - echo.cc:60" ++ [LF].
Proof. reflexivity. Qed.

Lemma log_record_emitted_witness :
  exists th g b,
    LOG_FATAL demo_clock new_ThreadInfo demo_file 60 demo_operands initial_globals =
      Ret (th, (g, b)) /\
    world g = padded (demo_record FATAL) /\ zlen (world g) = 4000 /\ b = true.
Proof.
  destruct (log_record_emitted demo_clock new_ThreadInfo demo_file (str "/srv/net") (str "echo.cc")
    60 demo_operands (str "pid = -42") initial_globals) as (_ & _ & _ & E).
  - exact demo_clock_valid.
  - reflexivity.
  - reflexivity.
  - apply (bool_decide_unpack _). vm_compute. exact Logic.I.
  - unfold in_range64. lia.
  - exact demo_writes.
  - vm_compute. discriminate.
  - rewrite E. vm_compute. do 3 eexists. split_and!; reflexivity.
Defined.

Lemma formatInteger_prints_witness :
  formatInteger (- 2 ^ 63) new_LogStream =
    Ret (clean (str "-9223372036854775808")) /\
  formatInteger 7 (stream (replicate 3990 "x"%char) (replicate 10 NUL)) =
    Ret (stream (replicate 3990 "x"%char) (replicate 10 NUL)).
Proof.
  split.
  - exact (formatInteger_prints (- 2 ^ 63) [] (replicate 4000 NUL) eq_refl ltac:(lia)).
  - exact (formatInteger_prints 7 (replicate 3990 "x"%char) (replicate 10 NUL)
      eq_refl ltac:(lia)).
Defined.

End LoggerProps.
