(* ===== verification/AsyncLogging.v ===== *)
(** * The logging back end ([src/logger/FileUtil.*], [LogFile.*],
    [AsyncLogging.*])

    A [FILE] is the bytes [fwrite] has accepted and how many of them the last
    [fflush] or [fclose] put on disk; how many bytes an [fwrite] accepts, and
    what [time] returns, come from the environment.  [LOG_SINK] is what
    [AsyncLogging] asks of its output file; [LogFile] provides it. *)

From S2P Require Import Prelude Timer Logger.

(** ** The sink interface *)

Class LOG_SINK (O : Type) := {
  sink_append : bytes -> Z -> O -> outcome O;
  sink_flush : O -> outcome O;
  sink_contents : O -> bytes;
  sink_ok : O -> Prop
}.

Class LOG_SINK_LAWS (O : Type) `{LOG_SINK O} := {
  sink_append_ok : forall d o, sink_ok o -> zlen d < 2 ^ 31 ->
    zlen (sink_contents o) < 2 ^ 62 -> exists o',
    sink_append d (zlen d) o = Ret o' /\ sink_ok o' /\ sink_contents o' = sink_contents o ++ d;
  sink_flush_ok : forall o, sink_ok o -> exists o',
    sink_flush o = Ret o' /\ sink_ok o' /\ sink_contents o' = sink_contents o
}.

Module FileUtil.

(** A stream opened for appending. *)
Record FILE := mkFILE { path : bytes; file_bytes : bytes; on_disk : Z }.

Definition fflush (f : FILE) : FILE := mkFILE (path f) (file_bytes f) (zlen (file_bytes f)).

(** The C library: what the [i]-th [fwrite] of [r] bytes returns, whether
    [fopen] succeeds, the [i]-th reading of [time], and [localtime_r]. *)
Record Env := mkEnv {
  fwrite_ret : nat -> Z -> Z;
  fopen_ok : bytes -> bool;
  time : nat -> Z;
  localtime_r : Z -> Timestamp.tm
}.

(** Counters of the calls made, and the streams closed, oldest first. *)
Record IO := mkIO { writes : nat; times : nat; closed : list FILE }.

Definition new_IO : IO := mkIO 0 0 [].

Record FileUtil := mkFileUtil { fp_ : FILE; writtenBytes_ : Z }.

(** [setbuffer] dereferences the stream. *)
Definition new_FileUtil (e : Env) (fileName : bytes) : outcome FileUtil :=
  check (fopen_ok e fileName) NullDeref;;
  mret (mkFileUtil (mkFILE fileName [] 0) 0).

Definition delete_FileUtil (f : FileUtil) (io : IO) : IO :=
  mkIO (writes io) (times io) (closed io ++ [fflush (fp_ f)]).

Definition writtenBytes (f : FileUtil) : Z := writtenBytes_ f.

Definition flush (f : FileUtil) : FileUtil := mkFileUtil (fflush (fp_ f)) (writtenBytes_ f).

(** [fwrite_unlocked] of the bytes [d]. *)
Definition write (e : Env) (d : bytes) (f : FILE) (io : IO) : Z * (FILE * IO) :=
  let n := fwrite_ret e (writes io) (zlen d) in
  (n, (mkFILE (path f) (file_bytes f ++ slice 0 n d) (on_disk f),
       mkIO (S (writes io)) (times io) (closed io))).

(** The [while (written != len)] loop; a short count only prints a message
    to [stderr] when the error indicator is set. *)
Fixpoint append_loop (fuel : nat) (e : Env) (data : bytes) (len written : Z) (f : FILE) (io : IO)
    : outcome (FILE * IO) :=
  match fuel with
  | O => Err OutOfFuel
  | S fuel =>
      if written =? len then mret (f, io)
      else
        let remain := u64 (len - written) in
        d ← read_mem data written remain;
        let '(n, (f, io)) := write e d f io in
        append_loop fuel e data len (u64 (written + n)) f io
  end.

Definition append (e : Env) (data : bytes) (len : Z) (f : FileUtil) (io : IO)
    : outcome (FileUtil * IO) :=
  r ← append_loop (S (Z.to_nat len)) e data len 0 (fp_ f) io;
  mret (mkFileUtil (fst r) (i64 (writtenBytes_ f + len)), snd r).

End FileUtil.

Module LogFile.
Import FileUtil.
Import Timestamp(tm, tm_year, tm_mon, tm_mday, tm_hour, tm_min, tm_sec).

Definition kRollPerSeconds_ : Z := 60 * 60 * 24.

Record LogFile := mkLogFile {
  basename_ : bytes;
  rollSize_ : Z;
  flushInterval_ : Z;
  checkEveryN_ : Z;
  count_ : Z;
  startOfPeriod_ : Z;
  lastRoll_ : Z;
  lastFlush_ : Z;
  file_ : option FileUtil
}.

Definition set_count (n : Z) (l : LogFile) : LogFile :=
  mkLogFile (basename_ l) (rollSize_ l) (flushInterval_ l) (checkEveryN_ l) n
    (startOfPeriod_ l) (lastRoll_ l) (lastFlush_ l) (file_ l).
Definition set_lastFlush (now : Z) (l : LogFile) : LogFile :=
  mkLogFile (basename_ l) (rollSize_ l) (flushInterval_ l) (checkEveryN_ l) (count_ l)
    (startOfPeriod_ l) (lastRoll_ l) now (file_ l).
Definition set_file (f : FileUtil) (l : LogFile) : LogFile :=
  mkLogFile (basename_ l) (rollSize_ l) (flushInterval_ l) (checkEveryN_ l) (count_ l)
    (startOfPeriod_ l) (lastRoll_ l) (lastFlush_ l) (Some f).

(** [time(NULL)]. *)
Definition read_time (e : Env) (io : IO) : Z * IO :=
  (time e (times io), mkIO (writes io) (S (times io)) (closed io)).

(** [strftime] of [".%Y%m%d-%H%M%S"]. *)
Definition timebuf (t : tm) : bytes :=
  str "." ++ fmt_d (tm_year t + 1900) ++ fmt_pad "0" 2 (fmt_d (tm_mon t + 1)) ++
  fmt_pad "0" 2 (fmt_d (tm_mday t)) ++ str "-" ++ fmt_pad "0" 2 (fmt_d (tm_hour t)) ++
  fmt_pad "0" 2 (fmt_d (tm_min t)) ++ fmt_pad "0" 2 (fmt_d (tm_sec t)).

Definition getLogFileName (e : Env) (basename : bytes) (io : IO) : bytes * (Z * IO) :=
  let '(now, io) := read_time e io in
  (basename ++ timebuf (localtime_r e now) ++ str ".log", (now, io)).

(** The midnight before [now]. *)
Definition period (now : Z) : Z := Z.quot now kRollPerSeconds_ * kRollPerSeconds_.

(** [file_.reset(new FileUtil(filename))] opens the new file before it closes
    the old one. *)
Definition rollFile (e : Env) (l : LogFile) (io : IO) : outcome (bool * (LogFile * IO)) :=
  let '(filename, (now, io)) := getLogFileName e (basename_ l) io in
  let start := period now in
  if lastRoll_ l <? now then
    f ← new_FileUtil e filename;
    let io := match file_ l with Some old => delete_FileUtil old io | None => io end in
    mret (true, (mkLogFile (basename_ l) (rollSize_ l) (flushInterval_ l) (checkEveryN_ l)
      (count_ l) start now now (Some f), io))
  else mret (false, (l, io)).

Definition new_LogFile (e : Env) (basename : bytes) (rollSize flushInterval checkEveryN : Z)
    (io : IO) : outcome (LogFile * IO) :=
  r ← rollFile e (mkLogFile basename rollSize flushInterval checkEveryN 0 0 0 0 None) io;
  mret (snd r).

Definition flush (l : LogFile) : outcome LogFile :=
  f ← deref NullDeref (file_ l);
  mret (set_file (FileUtil.flush f) l).

Definition appendInLock (e : Env) (data : bytes) (len : Z) (l : LogFile) (io : IO)
    : outcome (LogFile * IO) :=
  f ← deref NullDeref (file_ l);
  r ← FileUtil.append e data (u64 len) f io;
  let '(f, io) := r in
  let l := set_file f l in
  if rollSize_ l <? writtenBytes f then
    r ← rollFile e l io; mret (snd r)
  else
    let l := set_count (count_ l + 1) l in
    if checkEveryN_ l <=? count_ l then
      let l := set_count 0 l in
      let '(now, io) := read_time e io in
      if negb (period now =? startOfPeriod_ l) then
        r ← rollFile e l io; mret (snd r)
      else if flushInterval_ l <? now - lastFlush_ l then
        l ← flush (set_lastFlush now l); mret (l, io)
      else mret (l, io)
    else mret (l, io).

(** [append] holds the mutex for the whole of [appendInLock]. *)
Definition append (e : Env) (data : bytes) (len : Z) (s : LogFile * IO) : outcome (LogFile * IO) :=
  appendInLock e data len (fst s) (snd s).

End LogFile.

Module LogFileLemmas.
Import FileUtil LogFile.

(** [fwrite] takes no more than it is given, and the clock is past the
    epoch. *)
Record io_ok (e : Env) : Prop := {
  fwrite_count : forall i r, 0 < r -> 0 <= fwrite_ret e i r <= r;
  time_positive : forall i, 0 < time e i
}.

(** Moreover [fwrite] takes at least one byte, and every [fopen] succeeds. *)
Record env_ok (e : Env) : Prop := {
  env_io : io_ok e;
  fwrite_progress : forall i r, 0 < r -> 0 < fwrite_ret e i r;
  fopen_succeeds : forall p, fopen_ok e p = true
}.

(** What stops a [LogFile]: an [fwrite] that takes nothing, which [append] may
    retry for ever, and an [fopen] that fails. *)
Definition stalled (e : Env) : Prop := exists i r, 0 < r /\ fwrite_ret e i r = 0.
Definition stuck (e : Env) (f : fault) : Prop :=
  f = OutOfFuel /\ stalled e \/ f = NullDeref /\ exists p, fopen_ok e p = false.
Definition works {A} (e : Env) (Q : A -> Prop) (r : outcome A) : Prop :=
  match r with Ret a => Q a | Err f => stuck e f end.

Lemma works_bind {A B} e (Q : A -> Prop) (Q' : B -> Prop) (m : outcome A) (k : A -> outcome B) :
  works e Q m -> (forall a, Q a -> works e Q' (k a)) -> works e Q' (m ≫= k).
Proof. destruct m; simpl; auto. Qed.

Lemma never_stuck e f : env_ok e -> ~ stuck e f.
Proof.
  intros He [[_ (i & r & Hr & X)]|[_ (p & X)]].
  - pose proof (fwrite_progress e He i r Hr). lia.
  - by rewrite (fopen_succeeds e He) in X.
Qed.

Lemma works_ok {A} e (Q : A -> Prop) (m : outcome A) : env_ok e -> works e Q m -> exists a, m = Ret a /\ Q a.
Proof. intros He. destruct m as [a|f]; simpl; [eauto|]. by intros ?%never_stuck. Qed.

Lemma append_loop_works fuel e data len written f io :
  io_ok e -> 0 <= written <= len -> len <= zlen data -> len < 2 ^ 63 ->
  match append_loop fuel e data len written f io with
  | Ret (f', io') => times io' = times io /\ closed io' = closed io /\
      path f' = path f /\ file_bytes f' = file_bytes f ++ slice written (len - written) data /\
      on_disk f' = on_disk f
  | Err x => x = OutOfFuel /\ (len - written < Z.of_nat fuel -> stalled e)
  end.
Proof.
  intros He. revert written f io.
  induction fuel as [|fuel IH]; intros written f io Hw Hl Hb; [split; [done|lia]|].
  cbn [append_loop]. destruct (written =? len) eqn:E; reflect_bools.
  - subst. rewrite Z.sub_diag, slice_0, app_nil_r. done.
  - rewrite u64_small, read_mem_in by lia. ostep. unfold write.
    rewrite zlen_slice by lia.
    pose proof (fwrite_count e He (writes io) (len - written) ltac:(lia)) as Hn.
    remember (fwrite_ret e (writes io) (len - written)) as n eqn:En.
    rewrite u64_small by lia.
    specialize (IH (written + n) (mkFILE (path f) (file_bytes f ++ slice 0 n
      (slice written (len - written) data)) (on_disk f))
      (mkIO (S (writes io)) (times io) (closed io)) ltac:(lia) Hl Hb).
    destruct (append_loop _ _ _ _ _ _ _) as [[f' io']|x].
    + destruct IH as (Ht & Hc & Hp & Ha & Hd). split_and!; [done..| |done]. rewrite Ha. cbn [file_bytes].
      rewrite <- app_assoc. f_equal.
      replace (slice 0 n (slice written (len - written) data)) with (slice written n data)
        by (symmetry; apply take_slice; lia).
      replace (len - (written + n)) with (len - written - n) by lia.
      rewrite <- slice_app by lia. f_equal. lia.
    + destruct IH as [-> IH]. split; [done|]. intros Hf. destruct (decide (n = 0)) as [->|Hne].
      * by exists (writes io), (len - written); split; [lia|].
      * apply IH. lia.
Qed.

(** With a disk that accepts nothing, [append] retries for ever. *)
Lemma append_loop_spins fuel e data len f io :
  (forall i r, fwrite_ret e i r = 0) -> 0 < len <= zlen data -> len < 2 ^ 63 ->
  append_loop fuel e data len 0 f io = Err OutOfFuel.
Proof.
  intros He Hl Hb. revert f io. induction fuel as [|fuel IH]; intros f io; [done|].
  cbn [append_loop]. if_false. rewrite Z.sub_0_r, u64_small, read_mem_in by lia. ostep.
  unfold write. rewrite He. change (u64 (0 + 0)) with 0. apply IH.
Qed.

(** ** What the files hold *)

(** The bytes file_bytes so far, over all files in the order of creation. *)
Definition contents (l : LogFile) (io : IO) : bytes :=
  concat (file_bytes <$> closed io) ++
  match file_ l with Some f => file_bytes (fp_ f) | None => [] end.

Definition synced (f : FILE) : Prop := on_disk f = zlen (file_bytes f).

(** The open file exists, its byte count is the bytes it file_bytes, and every
    closed file is on disk in full. *)
Record wf (l : LogFile) (io : IO) : Prop := {
  wf_file : exists f, file_ l = Some f /\ writtenBytes_ f = zlen (file_bytes (fp_ f));
  wf_closed : Forall synced (closed io);
  wf_size : 0 <= rollSize_ l < 2 ^ 62
}.

(** The open file has outgrown the roll size only within the second, by the
    last reading of the clock, of the last roll. *)
Definition size_bound (e : Env) (l : LogFile) (io : IO) : Prop :=
  forall f, file_ l = Some f -> rollSize_ l < writtenBytes_ f ->
    time e (pred (times io)) <= lastRoll_ l.

Lemma rollFile_works e l io : wf l io ->
  works e (fun '(_, (l', io')) => wf l' io' /\ contents l' io' = contents l io /\
    rollSize_ l' = rollSize_ l /\ size_bound e l' io') (rollFile e l io).
Proof.
  intros [(f & Hf & Hw) Hc Hs]. unfold rollFile, getLogFileName, read_time. ostep.
  cbn [times closed writes]. destruct (lastRoll_ l <? time e (times io)) eqn:E; reflect_bools.
  - unfold new_FileUtil, check. destruct (fopen_ok e _) eqn:Ho; [|right; eauto]. ostep. rewrite Hf.
    split_and!; cbn.
    + split; [by eexists| |done].
      apply Forall_app_2; [done|]. constructor; [done|constructor].
    + unfold contents. cbn. rewrite Hf, fmap_app, concat_app. cbn. by rewrite !app_nil_r.
    + done.
    + intros f' [= <-]. cbn. lia.
  - split_and!; [split; eauto|done|done|].
    intros f' _ _. cbn. lia.
Qed.

Lemma new_LogFile_works e basename rollSize flushInterval checkEveryN io :
  io_ok e -> 0 <= rollSize < 2 ^ 62 -> closed io = [] ->
  works e (fun '(l, io') => wf l io' /\ contents l io' = [] /\ rollSize_ l = rollSize)
    (new_LogFile e basename rollSize flushInterval checkEveryN io).
Proof.
  intros He Hs Hc. unfold new_LogFile, rollFile, getLogFileName, read_time.
  pose proof (time_positive e He (times io)). cbn [lastRoll_]. if_true.
  unfold new_FileUtil, check. destruct (fopen_ok e _) eqn:Ho; [|right; eauto]. ostep. cbn [snd file_].
  split_and!.
  - split; cbn; [by eexists|by rewrite Hc|done].
  - unfold contents. cbn. by rewrite Hc.
  - done.
Qed.

Lemma flush_wf l io l' :
  wf l io -> flush l = Ret l' ->
  wf l' io /\ contents l' io = contents l io /\ rollSize_ l' = rollSize_ l.
Proof.
  intros [(f & Hf & Hw) Hc Hs]. unfold flush. rewrite Hf. ostep. intros [= <-].
  split_and!; [|by unfold contents; cbn; rewrite Hf|done].
  split; [by eexists|done|done].
Qed.

Lemma flush_ok l io : wf l io -> exists l', flush l = Ret l' /\ wf l' io /\
  contents l' io = contents l io /\ rollSize_ l' = rollSize_ l.
Proof.
  intros H. destruct (flush l) as [l'|er] eqn:E.
  - exists l'. split; [done|]. by apply flush_wf.
  - destruct H as [(f & Hf & _) _ _]. unfold flush in E. rewrite Hf in E. done.
Qed.

Lemma new_LogFile_ok e basename rollSize flushInterval checkEveryN io :
  env_ok e -> 0 <= rollSize < 2 ^ 62 -> closed io = [] -> exists l io',
    new_LogFile e basename rollSize flushInterval checkEveryN io = Ret (l, io') /\
    wf l io' /\ contents l io' = [] /\ rollSize_ l = rollSize.
Proof.
  intros He Hs Hc. pose proof (new_LogFile_works e basename rollSize flushInterval checkEveryN io
    (env_io e He) Hs Hc) as X. apply (works_ok e _ _ He) in X as ([l io'] & E & X). by exists l, io'.
Qed.

(** The open file after the data went in. *)
Lemma FileUtil_append_works e data len l io f :
  io_ok e -> wf l io -> file_ l = Some f -> 0 <= len <= zlen data -> len < 2 ^ 31 ->
  zlen (contents l io) < 2 ^ 62 ->
  works e (fun '(f', io') => wf (set_file f' l) io' /\
    contents (set_file f' l) io' = contents l io ++ slice 0 len data) (FileUtil.append e data len f io).
Proof.
  intros He [(f0 & Hf & Hw) Hc Hs] Hf0 Hl Hb Hsz. rewrite Hf in Hf0. injection Hf0 as ->.
  unfold FileUtil.append.
  pose proof (append_loop_works (S (Z.to_nat len)) e data len 0 (fp_ f) io He ltac:(lia) ltac:(lia) ltac:(lia)) as X.
  destruct (append_loop _ _ _ _ _ _ _) as [[f' io']|x]; [|left; destruct X as [-> X]; split; [done|apply X; lia]].
  destruct X as (_ & Hc' & _ & Ha & _). ostep. cbn [fst snd]. rewrite Z.sub_0_r in Ha.
  split; [|unfold contents; cbn; rewrite Hf, Ha, Hc'; by rewrite app_assoc].
  split; [|by rewrite Hc'|done]. eexists. split; [done|]. cbn. rewrite Ha, zlen_app, zlen_slice by lia.
  rewrite Hw. apply i64_small. unfold contents in Hsz. rewrite Hf, zlen_app in Hsz.
  pose proof (zlen_nonneg (concat (file_bytes <$> closed io))).
  pose proof (zlen_nonneg (file_bytes (fp_ f))). lia.
Qed.

Lemma wf_set_count n l io : wf l io -> wf (set_count n l) io.
Proof. intros []. by split. Qed.

Lemma wf_set_lastFlush n l io : wf l io -> wf (set_lastFlush n l) io.
Proof. intros []. by split. Qed.

Lemma wf_read_time e l io : wf l io -> wf l (snd (read_time e io)).
Proof. intros []. by split. Qed.

(** After the data went in: roll, flush or neither. *)
Lemma after_append_works e l io : wf l io ->
  works e (fun '(l', io') => wf l' io' /\ contents l' io' = contents l io /\ rollSize_ l' = rollSize_ l /\
      size_bound e l' io')
    (if rollSize_ l <? default 0 (writtenBytes_ <$> file_ l) then
       r ← rollFile e l io; mret (snd r)
     else
       let l := set_count (count_ l + 1) l in
       if checkEveryN_ l <=? count_ l then
         let l := set_count 0 l in
         let '(now, io) := read_time e io in
         if negb (period now =? startOfPeriod_ l) then
           r ← rollFile e l io; mret (snd r)
         else if flushInterval_ l <? now - lastFlush_ l then
           l ← flush (set_lastFlush now l); mret (l, io)
         else mret (l, io)
       else mret (l, io)).
Proof.
  intros Hw. pose proof Hw as [(f & Hf & _) _ _]. cbv zeta.
  destruct (_ <? _) eqn:E; reflect_bools.
  - eapply works_bind; [by apply rollFile_works|]. by intros [b [l' io']].
  - assert (Hsz : forall l' io', (forall f', file_ l' = Some f' -> writtenBytes_ f' = writtenBytes_ f) ->
      rollSize_ l' = rollSize_ l -> size_bound e l' io').
    { intros l' io' H1 H2 f' Hf' Hlt. rewrite (H1 f' Hf'), H2 in Hlt. rewrite Hf in E. cbn in E. lia. }
    destruct (_ <=? _).
    2:{ split_and!; [by apply wf_set_count|done|done|].
        apply Hsz; [|done]. cbn. rewrite Hf. by intros f' [= <-]. }
    pose proof (wf_read_time e (set_count 0 (set_count (count_ l + 1) l)) io
      (wf_set_count 0 _ _ (wf_set_count (count_ l + 1) l io Hw))) as Hw1.
    unfold read_time in *. cbn [snd] in Hw1. destruct (negb _).
    + eapply works_bind; [by apply rollFile_works|]. by intros [b [l' io']].
    + destruct (_ <? _).
      * destruct (flush_ok _ _ (wf_set_lastFlush (time e (times io)) _ _ Hw1))
          as (l' & Hfl & Hw' & Hc' & Hr'). rewrite Hfl. ostep.
        split_and!; [done|done|done|]. apply Hsz; [|done].
        unfold flush in Hfl. cbn in Hfl. rewrite Hf in Hfl. cbn in Hfl. injection Hfl as <-.
        cbn. by intros f' [= <-].
      * split_and!; [done|done|done|]. apply Hsz; [|done].
        cbn. rewrite Hf. by intros f' [= <-].
Qed.

Lemma LogFile_append_works e data len l io :
  io_ok e -> wf l io -> 0 <= len <= zlen data -> len < 2 ^ 31 ->
  zlen (contents l io) < 2 ^ 62 ->
  works e (fun '(l', io') => wf l' io' /\ contents l' io' = contents l io ++ slice 0 len data /\
    rollSize_ l' = rollSize_ l /\ size_bound e l' io') (append e data len (l, io)).
Proof.
  intros He Hw Hl Hb Hsz. pose proof Hw as [(f & Hf & _) _ _].
  unfold append, appendInLock. cbn [fst snd]. rewrite Hf. ostep. rewrite u64_small by lia.
  pose proof (FileUtil_append_works e data len l io f He Hw Hf Hl Hb Hsz) as X.
  destruct (FileUtil.append _ _ _ _ _) as [[f' io1]|x]; [|exact X]. destruct X as [Hw1 Hc1]. ostep.
  pose proof (after_append_works e _ _ Hw1) as X.
  cbn [file_ set_file fmap option_fmap option_map default id] in X. unfold writtenBytes.
  rewrite Hc1 in X. exact X.
Qed.

Lemma LogFile_append_ok e data len l io :
  env_ok e -> wf l io -> 0 <= len <= zlen data -> len < 2 ^ 31 ->
  zlen (contents l io) < 2 ^ 62 -> exists l' io',
    append e data len (l, io) = Ret (l', io') /\ wf l' io' /\
    contents l' io' = contents l io ++ slice 0 len data /\
    rollSize_ l' = rollSize_ l /\ size_bound e l' io'.
Proof.
  intros He Hw Hl Hb Hsz. pose proof (LogFile_append_works e data len l io (env_io e He) Hw Hl Hb Hsz) as X.
  apply (works_ok e _ _ He) in X as ([l' io'] & E & X). by exists l', io'.
Qed.

End LogFileLemmas.

(** [LogFile] is a sink. *)
Module LogFileSink.
Import FileUtil LogFile LogFileLemmas.

Section LogFileSink.
Variable e : Env.

#[global] Instance LogFile_sink : LOG_SINK (LogFile * IO) := {
  sink_append := LogFile.append e;
  sink_flush s := l ← LogFile.flush (fst s); mret (l, snd s);
  sink_contents s := contents (fst s) (snd s);
  sink_ok s := wf (fst s) (snd s)
}.

Lemma LogFile_sink_laws : env_ok e -> LOG_SINK_LAWS (LogFile * IO).
Proof.
  intros He. split.
  - intros d [l io] Hw Hd Hs. cbn in *.
    destruct (LogFile_append_ok e d (zlen d) l io) as (l' & io' & -> & ? & Hc & _);
      [done|done|pose proof (zlen_nonneg d); lia|done|done|].
    exists (l', io'). split_and!; [done|done|]. cbn. by rewrite Hc, slice_all.
  - intros [l io] Hw. cbn in *. destruct (flush_ok l io Hw) as (l' & -> & ? & Hc & _).
    by exists (l', io).
Qed.

End LogFileSink.

End LogFileSink.

Module AsyncLogging.
Import FixedBuffer(FixedBuffer, mkFixedBuffer, new_FixedBuffer, data_, cur_, avail, bzero, reset).

Section AsyncLogging.
(** [kLargeBuffer], and the file. *)
Variable SIZE : Z.
Context {O : Type} `{LOG_SINK O}.

(** The members the mutex protects; a [BufferPtr] may be null. *)
Record AsyncLogging := mkAsyncLogging {
  running_ : bool;
  currentBuffer_ : option FixedBuffer;
  nextBuffer_ : option FixedBuffer;
  buffers_ : list (option FixedBuffer)
}.

(** The storage [new Buffer] finds, before [bzero]. *)
Definition new_AsyncLogging (storage1 storage2 : bytes) : AsyncLogging :=
  mkAsyncLogging false (Some (bzero SIZE (new_FixedBuffer storage1)))
    (Some (bzero SIZE (new_FixedBuffer storage2))) [].

(** [storage] is what a [new Buffer] finds, if this call makes one. *)
Definition append (storage logline : bytes) (len : Z) (a : AsyncLogging) : outcome AsyncLogging :=
  cur ← deref NullDeref (currentBuffer_ a);
  if len <? avail SIZE cur then
    cur ← FixedBuffer.append SIZE logline (u64 len) cur;
    mret (mkAsyncLogging (running_ a) (Some cur) (nextBuffer_ a) (buffers_ a))
  else
    let buffers := buffers_ a ++ [currentBuffer_ a] in
    let '(cur, next) :=
      match nextBuffer_ a with
      | Some b => (b, None)
      | None => (new_FixedBuffer storage, None)
      end in
    cur ← FixedBuffer.append SIZE logline (u64 len) cur;
    mret (mkAsyncLogging (running_ a) (Some cur) next buffers).

Definition set_running (b : bool) (a : AsyncLogging) : AsyncLogging :=
  mkAsyncLogging b (currentBuffer_ a) (nextBuffer_ a) (buffers_ a).

(** ** The back-end thread *)

(** Where [threadFunc] is: before the thread starts, at [while (running_)],
    about to lock, in [wait_for], past the critical section, returned. *)
Inductive Pc := NotStarted | Test | Lock | Waiting | Writing | Done.

#[global] Instance Pc_eq_dec : EqDecision Pc.
Proof. solve_decision. Defined.

(** The locals of [threadFunc]. *)
Record Back := mkBack {
  pc : Pc;
  newBuffer1 : option FixedBuffer;
  newBuffer2 : option FixedBuffer;
  buffersToWrite : list (option FixedBuffer);
  output : O
}.

Definition set_pc (p : Pc) (b : Back) : Back :=
  mkBack p (newBuffer1 b) (newBuffer2 b) (buffersToWrite b) (output b).

(** The locals before the loop. *)
Definition enter (storage1 storage2 : bytes) (b : Back) : Back :=
  mkBack Test (Some (bzero SIZE (new_FixedBuffer storage1)))
    (Some (bzero SIZE (new_FixedBuffer storage2))) [] (output b).

(** The critical section after the wait. *)
Definition swap_buffers (a : AsyncLogging) (b : Back) : AsyncLogging * Back :=
  let buffers := buffers_ a ++ [currentBuffer_ a] in
  let cur := newBuffer1 b in
  let '(next, new2) :=
    match nextBuffer_ a with
    | Some n => (Some n, newBuffer2 b)
    | None => (newBuffer2 b, None)
    end in
  (mkAsyncLogging (running_ a) cur next (buffersToWrite b),
   mkBack Writing None new2 buffers (output b)).

(** [for (const auto& buffer : buffersToWrite) output.append(...)]. *)
Fixpoint write_all (l : list (option FixedBuffer)) (o : O) : outcome O :=
  match l with
  | [] => mret o
  | p :: l =>
      buffer ← deref NullDeref p;
      o ← sink_append (FixedBuffer.data buffer) (FixedBuffer.length SIZE buffer) o;
      write_all l o
  end.

(** [newBuffer = move(buffersToWrite.back()); pop_back(); newBuffer->reset()],
    when it is null. *)
Definition give_back (n : option FixedBuffer) (l : list (option FixedBuffer))
    : outcome (option FixedBuffer * list (option FixedBuffer)) :=
  match n with
  | Some _ => mret (n, l)
  | None =>
      p ← deref OutOfBounds (last l);
      b ← deref NullDeref p;
      mret (Some (reset b), removelast l)
  end.

(** From the end of the critical section to the next test. *)
Definition write_out (b : Back) : outcome Back :=
  o ← write_all (buffersToWrite b) (output b);
  let l := if (2 <? length (buffersToWrite b))%nat
           then take 2 (buffersToWrite b) else buffersToWrite b in
  r ← give_back (newBuffer1 b) l;
  let '(new1, l) := r in
  r ← give_back (newBuffer2 b) l;
  let '(new2, _) := r in
  o ← sink_flush o;
  mret (mkBack Test new1 new2 [] o).

(** The back end runs to its next blocking or observable point. *)
Definition tick (a : AsyncLogging) (b : Back) : outcome (AsyncLogging * Back) :=
  match pc b with
  | NotStarted | Done => mret (a, b)
  | Test =>
      if running_ a then mret (a, set_pc Lock b)
      else o ← sink_flush (output b);
           mret (a, mkBack Done (newBuffer1 b) (newBuffer2 b) (buffersToWrite b) o)
  | Lock =>
      if decide (buffers_ a = []) then mret (a, set_pc Waiting b)
      else mret (swap_buffers a b)
  | Waiting => mret (swap_buffers a b)
  | Writing => b ← write_out b; mret (a, b)
  end.

(** ** The system: front end, back end, and what was accepted and written *)

Record Sys := mkSys {
  front : AsyncLogging;
  back : Back;
  accepted : bytes;           (** every record [append] took, in order *)
  written : list FixedBuffer  (** the buffers handed to the file *)
}.

Inductive label :=
  | Append (storage logline : bytes)
  | Start (storage1 storage2 : bytes)
  | Stop
  | Tick.

Definition is_start (l : label) : bool := match l with Start _ _ => true | _ => false end.

(** A record as long as a buffer is dropped. *)
Definition taken (logline : bytes) : bytes := if zlen logline <? SIZE then logline else [].

Definition step (l : label) (s : Sys) : outcome Sys :=
  match l with
  | Append storage logline =>
      a ← append storage logline (zlen logline) (front s);
      mret (mkSys a (back s) (accepted s ++ taken logline) (written s))
  | Start storage1 storage2 =>
      check (bool_decide (pc (back s) = NotStarted)) Aborted;;
      mret (mkSys (set_running true (front s)) (enter storage1 storage2 (back s))
        (accepted s) (written s))
  | Stop => mret (mkSys (set_running false (front s)) (back s) (accepted s) (written s))
  | Tick =>
      r ← tick (front s) (back s);
      let bufs := if decide (pc (back s) = Writing) then omap id (buffersToWrite (back s)) else [] in
      mret (mkSys (fst r) (snd r) (accepted s) (written s ++ bufs))
  end.

(** Any interleaving of the threads. *)
Fixpoint run (ls : list label) (s : Sys) : outcome Sys :=
  match ls with
  | [] => mret s
  | l :: ls => s ← step l s; run ls s
  end.

Definition initial (storage1 storage2 : bytes) (o : O) : Sys :=
  mkSys (new_AsyncLogging storage1 storage2) (mkBack NotStarted None None [] o) [] [].

End AsyncLogging.
End AsyncLogging.

Module AsyncLemmas.
Import FixedBuffer(FixedBuffer, mkFixedBuffer, new_FixedBuffer, data_, cur_, avail, bzero, reset, buf).
Import AsyncLogging.

Section AsyncLemmas.
Variable SIZE : Z.
Hypothesis SIZE_range : 0 < SIZE < 2 ^ 31.
Context {O : Type} `{LOG_SINK_LAWS O}.

(** ** Buffers *)

Definition text (b : FixedBuffer) : bytes := take (Z.to_nat (cur_ b)) (data_ b).

Definition buf_ok (b : FixedBuffer) : Prop := zlen (data_ b) = SIZE /\ 0 <= cur_ b <= SIZE.

Definition empty_buf (b : FixedBuffer) : Prop := zlen (data_ b) = SIZE /\ cur_ b = 0.

Lemma empty_ok b : empty_buf b -> buf_ok b.
Proof. intros [? E]. split; [done|rewrite E; lia]. Qed.

Lemma empty_text b : empty_buf b -> text b = [].
Proof. intros [_ E]. unfold text. by rewrite E. Qed.

Lemma reset_empty b : buf_ok b -> empty_buf (reset b).
Proof. by intros [? _]. Qed.

Lemma bzero_empty storage : empty_buf (bzero SIZE (new_FixedBuffer storage)).
Proof. split; [|done]. cbn. rewrite zlen_replicate. lia. Qed.

Lemma buf_split b : buf_ok b ->
  b = buf (text b) (drop (Z.to_nat (cur_ b)) (data_ b)) /\
  zlen (text b) = cur_ b /\ zlen (drop (Z.to_nat (cur_ b)) (data_ b)) = SIZE - cur_ b.
Proof.
  intros [Hd Hc]. unfold buf, text. rewrite take_drop.
  assert (zlen (take (Z.to_nat (cur_ b)) (data_ b)) = cur_ b) as E by (rewrite zlen_take; lia).
  rewrite E. split_and!; [by destruct b|done|rewrite zlen_drop; lia].
Qed.

Lemma text_buf t rest : text (buf t rest) = t.
Proof. unfold text, buf, zlen. cbn. by rewrite Nat2Z.id, take_app_length. Qed.

Lemma avail_ok b : buf_ok b -> avail SIZE b = SIZE - cur_ b.
Proof. intros [Hd Hc]. unfold avail, FixedBuffer.end_. rewrite i32_small; lia. Qed.

(** [FixedBuffer::append] of a whole record. *)
Lemma append_text b m : buf_ok b -> zlen m < 2 ^ 31 -> exists b',
  FixedBuffer.append SIZE m (u64 (zlen m)) b = Ret b' /\ buf_ok b' /\
  text b' = text b ++ (if zlen m <? SIZE - cur_ b then m else []).
Proof.
  intros Hb Hm. destruct (buf_split b Hb) as (E & Ht & Hr). pose proof (zlen_nonneg m).
  rewrite u64_small by lia. destruct (zlen m <? SIZE - cur_ b) eqn:Hl; reflect_bools.
  - rewrite E, LogStreamLemmas.append_fits by (rewrite ?Ht, ?Hr; destruct Hb; lia).
    rewrite slice_all. eexists. split; [done|]. split; [|by rewrite !text_buf].
    split; cbn; rewrite ?zlen_app, ?zlen_drop, ?Ht, ?Hr; destruct Hb; lia.
  - exists b. rewrite app_nil_r. split_and!; [|done|done].
    rewrite E. apply LogStreamLemmas.append_full; rewrite ?Ht, ?Hr; destruct Hb; lia.
Qed.

Lemma append_fresh storage m : zlen m < SIZE ->
  FixedBuffer.append SIZE m (zlen m) (bzero SIZE (new_FixedBuffer storage)) =
    Ret (buf m (replicate (Z.to_nat (SIZE - zlen m)) NUL)).
Proof.
  intros Hm. pose proof (zlen_nonneg m).
  change (bzero SIZE (new_FixedBuffer storage)) with (buf [] (replicate (Z.to_nat SIZE) NUL)).
  rewrite LogStreamLemmas.append_fits; rewrite ?zlen_replicate, ?zlen_nil; try lia.
  rewrite slice_all, app_nil_l, drop_replicate. do 3 f_equal. lia.
Qed.

(** ** Vectors of buffers *)

Definition some_ok (p : option FixedBuffer) : Prop := exists b, p = Some b /\ buf_ok b.
Definition some_empty (p : option FixedBuffer) : Prop := exists b, p = Some b /\ empty_buf b.

Definition texts (l : list (option FixedBuffer)) : bytes := concat (text <$> omap id l).

Lemma texts_app l k : texts (l ++ k) = texts l ++ texts k.
Proof. unfold texts. by rewrite omap_app, fmap_app, concat_app. Qed.

Lemma texts_one b : texts [Some b] = text b.
Proof. unfold texts. cbn. by rewrite app_nil_r. Qed.

Definition datas (l : list FixedBuffer) : bytes := concat (data_ <$> l).

Lemma datas_app l k : datas (l ++ k) = datas l ++ datas k.
Proof. unfold datas. by rewrite fmap_app, concat_app. Qed.

Lemma zlen_datas l : Forall buf_ok l -> zlen (datas l) = SIZE * Z.of_nat (length l).
Proof.
  induction 1 as [|b l [Hd _] _ IH]; [unfold zlen; cbn; lia|].
  unfold datas in *. cbn [fmap list_fmap concat length]. rewrite zlen_app, IH, Hd. lia.
Qed.

Lemma some_ok_omap l : Forall some_ok l ->
  Forall buf_ok (omap id l) /\ length (omap id l) = length l.
Proof.
  induction 1 as [|p l (b & -> & Hb) _ [IH1 IH2]]; [by split|].
  cbn. split; [by constructor|by f_equal].
Qed.

(** The loop hands every buffer to the file whole, in order. *)
Lemma write_all_ok l o :
  Forall some_ok l -> sink_ok o ->
  zlen (sink_contents o) + SIZE * Z.of_nat (length l) < 2 ^ 62 -> exists o',
    write_all SIZE l o = Ret o' /\ sink_ok o' /\
    sink_contents o' = sink_contents o ++ datas (omap id l).
Proof.
  intros Hl. revert o. induction Hl as [|p l (b & -> & Hb) _ IH]; intros o Ho Hs.
  - exists o. cbn. by rewrite app_nil_r.
  - cbn [write_all]. ostep.
    assert (FixedBuffer.length SIZE b = zlen (data_ b)) as ->.
    { unfold FixedBuffer.length, FixedBuffer.end_. destruct Hb as [-> _]. apply i32_small. lia. }
    unfold FixedBuffer.data. cbn [length] in Hs.
    destruct (sink_append_ok (data_ b) o) as (o1 & -> & Ho1 & Hc1); [done|
      destruct Hb as [-> _]; lia|lia|]. ostep.
    destruct (IH o1) as (o2 & E2 & Ho2 & Hc2); [done| |].
    { rewrite Hc1, zlen_app. destruct Hb as [-> _]. lia. }
    exists o2. split_and!; [done|done|]. rewrite Hc2, Hc1. cbn. unfold datas. cbn.
    by rewrite <- app_assoc.
Qed.

(** Taking a buffer back from a vector that has one. *)
Lemma give_back_ok n l :
  Forall some_ok l -> (forall b, n = Some b -> empty_buf b) -> (n = None -> l <> []) ->
  exists b l', give_back n l = Ret (Some b, l') /\ empty_buf b /\ Forall some_ok l' /\
    l' = match n with Some _ => l | None => removelast l end.
Proof.
  intros Hl Hn Hne. unfold give_back. destruct n as [b|]; [exists b, l; by eauto|].
  destruct l as [|p l] using rev_ind; [by destruct Hne|]. clear IHl.
  rewrite last_snoc. ostep. apply Forall_app in Hl as [Hl (b & -> & Hb)%Forall_singleton].
  ostep. exists (reset b), l. rewrite removelast_last.
  split_and!; [done|by apply reset_empty|done|done].
Qed.

(** ** The invariant *)

(** The front end: it always has a current buffer; the spare one is missing
    only when a full one waits for the back end. *)
Record front_ok (a : AsyncLogging) : Prop := {
  fo_current : some_ok (currentBuffer_ a);
  fo_next : forall b, nextBuffer_ a = Some b -> empty_buf b;
  fo_spare : nextBuffer_ a = None -> buffers_ a <> [];
  fo_buffers : Forall some_ok (buffers_ a)
}.

(** The back end holds two spare buffers outside of its turn, and inside it
    enough buffers to make up for those it gave away. *)
Definition back_ok (b : @Back O) : Prop :=
  match pc b with
  | NotStarted | Done => buffersToWrite b = []
  | Test | Lock | Waiting =>
      some_empty (newBuffer1 b) /\ some_empty (newBuffer2 b) /\ buffersToWrite b = []
  | Writing =>
      newBuffer1 b = None /\ Forall some_ok (buffersToWrite b) /\
      (forall n, newBuffer2 b = Some n -> empty_buf n) /\ buffersToWrite b <> [] /\
      (newBuffer2 b = None -> (2 <= length (buffersToWrite b))%nat)
  end.

(** Every record accepted is, in order, in a buffer written, in one about to
    be, in one queued or in the current one; the file holds the storage of the
    buffers written. *)
Record inv (n : nat) (s : @Sys O) : Prop := {
  inv_front : front_ok (front s);
  inv_back : back_ok (back s);
  inv_sink : sink_ok (output (back s));
  inv_accepted : accepted s =
    concat (text <$> written s) ++ texts (buffersToWrite (back s)) ++
    texts (buffers_ (front s)) ++ texts [currentBuffer_ (front s)];
  inv_contents : sink_contents (output (back s)) = datas (written s);
  inv_written : Forall buf_ok (written s);
  inv_count : (length (written s) + length (buffersToWrite (back s)) +
    length (buffers_ (front s)) <= n)%nat
}.

Lemma front_append_ok storage m a :
  front_ok a -> zlen storage = SIZE -> zlen m < 2 ^ 31 -> exists a',
    append SIZE storage m (zlen m) a = Ret a' /\ front_ok a' /\
    texts (buffers_ a') ++ texts [currentBuffer_ a'] =
      texts (buffers_ a) ++ texts [currentBuffer_ a] ++ taken SIZE m /\
    (length (buffers_ a') <= S (length (buffers_ a)))%nat.
Proof.
  intros [(cur & Hcur & Hok) Hn Hs Hb] Hst Hm. unfold append, taken. rewrite Hcur. ostep.
  rewrite avail_ok by done. destruct (zlen m <? SIZE - cur_ cur) eqn:El.
  - destruct (append_text cur m Hok Hm) as (cur' & -> & Hok' & Ht). ostep.
    rewrite El in Ht. reflect_bools. destruct Hok as [? ?]. if_true.
    eexists. split; [done|]. split; [split; cbn; [eexists; eauto|done..]|].
    cbn [buffers_ currentBuffer_]. rewrite !texts_one, Ht. split; [done|lia].
  - set (b := match nextBuffer_ a with Some b => b | None => new_FixedBuffer storage end).
    assert (empty_buf b) as Hbe by (subst b; destruct (nextBuffer_ a); [by apply Hn|by split]).
    destruct (append_text b m (empty_ok _ Hbe) Hm) as (b' & E & Hok' & Ht).
    destruct Hbe as [Hbd Hb0]. rewrite Hb0, Z.sub_0_r in Ht.
    exists (mkAsyncLogging (running_ a) (Some b') None (buffers_ a ++ [Some cur])). split.
    { subst b. destruct (nextBuffer_ a); by rewrite E. }
    split; [split; cbn; [by eexists|done|by destruct (buffers_ a)|]|].
    { apply Forall_app. split; [done|]. constructor; [by eexists|constructor]. }
    cbn [buffers_ currentBuffer_]. rewrite texts_app, !texts_one, Ht, length_app. cbn [length].
    rewrite (empty_text b) by done. rewrite <- app_assoc. split; [done|lia].
Qed.

Lemma some_empty_ok p : some_empty p -> some_ok p.
Proof. intros (b & -> & ?). exists b. split; [done|]. by apply empty_ok. Qed.

Lemma swap_ok n s :
  inv n s -> pc (back s) = Lock /\ buffers_ (front s) <> [] \/ pc (back s) = Waiting ->
  let r := swap_buffers (front s) (back s) in
  inv (S n) (mkSys (fst r) (snd r) (accepted s) (written s)).
Proof.
  intros [[Hcur Hn Hs Hb] Hk Ho Ha Hc Hw Hl] Hpc r.
  assert (some_empty (newBuffer1 (back s)) /\ some_empty (newBuffer2 (back s)) /\
    buffersToWrite (back s) = []) as (Hn1 & Hn2 & Hbw).
  { unfold back_ok in Hk. by destruct Hpc as [[Hpc _]|Hpc]; rewrite Hpc in Hk. }
  rewrite Hbw in Ha, Hl. cbn [length] in Hl. subst r. unfold swap_buffers.
  destruct (nextBuffer_ (front s)) as [nx|] eqn:En; cbn [fst snd].
  - split; cbn [front back written output accepted buffersToWrite buffers_ currentBuffer_]; try done.
    + split; cbn; [by apply some_empty_ok|intros b [= <-]; by apply Hn|done|by rewrite Hbw; constructor].
    + unfold back_ok. cbn. split_and!; [done| | |by destruct (buffers_ (front s))|].
      * apply Forall_app. split; [done|]. by constructor.
      * destruct Hn2 as (b2 & -> & ?). by intros ? [= <-].
      * by destruct Hn2 as (b2 & -> & ?).
    + rewrite Ha, Hbw, texts_app. destruct Hn1 as (b1 & -> & ?).
      rewrite texts_one, empty_text, app_nil_r by done. done.
    + rewrite Hbw, length_app. cbn [length]. lia.
  - specialize (Hs eq_refl).
    split; cbn [front back written output accepted buffersToWrite buffers_ currentBuffer_]; try done.
    + destruct Hn2 as (b2 & E2 & ?).
      split; cbn; [by apply some_empty_ok|by intros b Eb; simplify_eq| |by rewrite Hbw; constructor].
      by rewrite E2.
    + unfold back_ok. cbn. split_and!; [done| |done|by destruct (buffers_ (front s))|].
      * apply Forall_app. split; [done|]. by constructor.
      * intros _. destruct (buffers_ (front s)); [done|]. cbn. rewrite length_app. cbn. lia.
    + rewrite Ha, Hbw, texts_app. destruct Hn1 as (b1 & -> & ?).
      rewrite texts_one, empty_text, app_nil_r by done. done.
    + rewrite Hbw, length_app. cbn [length]. lia.
Qed.

Lemma inv_mono n m s : (n <= m)%nat -> inv n s -> inv m s.
Proof. intros ? []. split; try done. lia. Qed.

(** The two buffers kept after a turn. *)
Lemma kept_ok (l : list (option FixedBuffer)) : Forall some_ok l ->
  let k := if (2 <? length l)%nat then take 2 l else l in
  Forall some_ok k /\ (l <> [] -> k <> []) /\ ((2 <= length l)%nat -> length k = 2%nat).
Proof.
  intros Hl. cbv zeta. destruct (2 <? length l)%nat eqn:E.
  - apply Nat.ltb_lt in E. split_and!; [by apply Forall_take|by destruct l|].
    intros. rewrite length_take. lia.
  - apply Nat.ltb_ge in E. split_and!; [done|done|lia].
Qed.

Lemma write_out_ok n s :
  inv n s -> pc (back s) = Writing -> SIZE * Z.of_nat n < 2 ^ 62 -> exists b',
    write_out SIZE (back s) = Ret b' /\ pc b' = Test /\
    inv n (mkSys (front s) b' (accepted s) (written s ++ omap id (buffersToWrite (back s)))).
Proof.
  intros [Hf Hk Ho Ha Hc Hw Hl] Hpc Hn. unfold back_ok in Hk. rewrite Hpc in Hk.
  destruct Hk as (Hn1 & Hbw & Hn2 & Hne & H2).
  destruct (some_ok_omap _ Hbw) as [Hbo Hbl]. unfold write_out.
  destruct (write_all_ok (buffersToWrite (back s)) (output (back s))) as (o1 & -> & Ho1 & Hc1);
    [done|done|rewrite Hc, zlen_datas by done; nia|]. ostep.
  destruct (kept_ok _ Hbw) as (Hk1 & Hk2 & Hk3).
  remember (if (2 <? length (buffersToWrite (back s)))%nat
    then take 2 (buffersToWrite (back s)) else buffersToWrite (back s)) as k eqn:Ek. clear Ek.
  destruct (give_back_ok (newBuffer1 (back s)) k) as (b1 & l1 & -> & Hb1 & Hl1 & El1);
    [done|by rewrite Hn1|by intros _; apply Hk2|]. ostep. rewrite Hn1 in El1. subst l1.
  destruct (give_back_ok (newBuffer2 (back s)) (removelast k)) as (b2 & l2 & -> & Hb2 & _);
    [done|done| |].
  { intros E. specialize (Hk3 (H2 E)). destruct k as [|? [|? []]]; try done. }
  ostep. destruct (sink_flush_ok o1 Ho1) as (o2 & -> & Ho2 & Hc2). ostep.
  eexists. split; [done|]. split; [done|].
  split; cbn [front back written output accepted buffersToWrite buffers_ currentBuffer_]; try done.
  - split_and!; [by eexists|by eexists|done].
  - rewrite Ha, fmap_app, concat_app, <- app_assoc. done.
  - by rewrite Hc2, Hc1, Hc, datas_app.
  - by apply Forall_app.
  - rewrite length_app, Hbl. cbn [length]. lia.
Qed.

Lemma tick_ok n s :
  inv n s -> SIZE * Z.of_nat n < 2 ^ 62 -> exists s',
    step SIZE Tick s = Ret s' /\ inv (S n) s' /\
    (pc (back s') = NotStarted -> pc (back s) = NotStarted).
Proof.
  intros Hi Hn. pose proof Hi as [Hf Hk Ho Ha Hc Hw Hl]. unfold step, tick. unfold back_ok in Hk.
  destruct (pc (back s)) eqn:Hpc; ostep; cbn [fst snd]; rewrite ?app_nil_r.
  - eexists. split; [done|]. destruct s. by split; [apply (inv_mono n); [lia|]|].
  - destruct (running_ (front s)) eqn:Er; ostep; cbn [fst snd].
    + eexists. split; [done|]. split; [|done]. split; try done. cbn. lia.
    + destruct (sink_flush_ok _ Ho) as (o2 & -> & Ho2 & Hc2). ostep.
      eexists. split; [done|]. split; [|done].
      split; cbn [front back written output accepted buffersToWrite fst snd]; try done; [by destruct Hk as (_ & _ & ?)|by rewrite Hc2|lia].
  - destruct (decide _) as [Eb|Eb]; ostep; cbn [fst snd].
    + eexists. split; [done|]. split; [|done]. split; try done. cbn. lia.
    + eexists. split; [done|]. split; [apply swap_ok; eauto|].
      unfold swap_buffers. by destruct (nextBuffer_ (front s)).
  - eexists. split; [done|]. split; [apply swap_ok; eauto|].
    unfold swap_buffers. by destruct (nextBuffer_ (front s)).
  - destruct (write_out_ok n s Hi Hpc Hn) as (b' & E & Hpc' & Hi').
    rewrite E. ostep. cbn [fst snd]. eexists. split; [done|].
    split; [by apply (inv_mono n); [lia|]|].
    cbn [back]. by rewrite Hpc'.
  - eexists. split; [done|]. destruct s. cbn [back] in *. rewrite Hpc.
    by split; [apply (inv_mono n); [lia|]|].
Qed.

(** The labels of a run: storage of the right size, records an [int] can
    measure. *)
Definition label_ok (l : label) : Prop :=
  match l with
  | Append storage m => zlen storage = SIZE /\ zlen m < 2 ^ 31
  | _ => True
  end.

Lemma step_ok n l s :
  inv n s -> label_ok l -> (is_start l = true -> pc (back s) = NotStarted) ->
  SIZE * Z.of_nat n < 2 ^ 62 -> exists s',
    step SIZE l s = Ret s' /\ inv (S n) s' /\
    (is_start l = false -> pc (back s) = NotStarted -> pc (back s') = NotStarted).
Proof.
  intros Hi Hl Hst Hn. destruct l as [storage m|st1 st2| |]; cbn [label_ok is_start] in *.
  - pose proof Hi as [Hf Hk Ho Ha Hc Hw Hc']. destruct Hl as [Hst' Hm].
    destruct (front_append_ok storage m _ Hf Hst' Hm) as (a' & E & Hf' & Ht & Hlen).
    cbn [step]. rewrite E. ostep. eexists. split; [done|]. split; [|done].
    split; cbn [front back written output accepted buffersToWrite]; try done; [|lia].
    rewrite Ht, Ha, !app_assoc. done.
  - pose proof Hi as [Hf Hk Ho Ha Hc Hw Hc']. specialize (Hst eq_refl). cbn [step].
    rewrite bool_decide_eq_true_2 by done. ostep. eexists. split; [done|]. split; [|done].
    assert (buffersToWrite (back s) = []) as Hbw by (unfold back_ok in Hk; by rewrite Hst in Hk).
    rewrite Hbw in *. split; cbn [front back written output accepted buffersToWrite enter]; try done.
    + by destruct Hf; split.
    + unfold back_ok. cbn. split_and!; [| |done]; eexists; split; try done; apply bzero_empty.
    + cbn in *. lia.
  - cbn [step]. eexists. split; [done|]. split; [|done].
    destruct Hi as [[] ? ? ? ? ? ?]. split; try done. cbn. lia.
  - destruct (tick_ok n s Hi Hn) as (s' & E & Hi' & Hp). exists s'. split_and!; [done|done|].
    intros _ Hp'. revert E. cbn [step]. unfold tick. rewrite Hp'. ostep. by intros [= <-].
Qed.

Lemma run_ok ls n s :
  inv n s -> Forall label_ok ls ->
  (length (filter (fun l => is_start l = true) ls) <=
    if decide (pc (back s) = NotStarted) then 1 else 0)%nat ->
  SIZE * Z.of_nat (n + length ls) < 2 ^ 62 -> exists s',
    run SIZE ls s = Ret s' /\ inv (n + length ls) s'.
Proof.
  revert n s. induction ls as [|l ls IH]; intros n s Hi Hl Hst Hn.
  - exists s. cbn. by rewrite Nat.add_0_r.
  - apply Forall_cons in Hl as [Hl Hls]. cbn [run length] in *. rewrite filter_cons in Hst.
    destruct (step_ok n l s) as (s1 & -> & Hi1 & Hp); [done|done| |nia|].
    { intros E. rewrite decide_True in Hst by done. cbn [length] in Hst.
      by destruct (decide (pc (back s) = NotStarted)); [|lia]. }
    ostep. rewrite Nat.add_succ_r in *. destruct (IH (S n) s1) as (s' & E & Hi'); [done|done| |done|].
    { destruct (is_start l) eqn:Es.
      - rewrite decide_True in Hst by done. cbn [length] in Hst.
        destruct (decide (pc (back s) = NotStarted)); [|lia]. lia.
      - rewrite decide_False in Hst by done.
        destruct (decide (pc (back s) = NotStarted)) as [E|]; [|lia].
        by rewrite decide_True by auto. }
    eauto.
Qed.

Lemma initial_ok storage1 storage2 o :
  sink_ok o -> sink_contents o = [] -> inv 0 (initial SIZE storage1 storage2 o).
Proof.
  intros Ho Hc. split; try done.
  split; cbn; [|by intros ? [= <-]; apply bzero_empty|done|constructor].
  eexists. split; [done|]. apply empty_ok, bzero_empty.
Qed.

(** The bytes a label adds to those accepted. *)
Definition label_taken (l : label) : bytes :=
  match l with Append _ m => taken SIZE m | _ => [] end.

Lemma run_accepted ls (s s' : @Sys O) :
  run SIZE ls s = Ret s' -> accepted s' = accepted s ++ concat (label_taken <$> ls).
Proof.
  revert s. induction ls as [|l ls IH]; intros s; cbn [run].
  - intros [= <-]. cbn. by rewrite app_nil_r.
  - intros (s1 & E & E')%bind_Ret. rewrite (IH _ E'). cbn [fmap list_fmap concat].
    rewrite app_assoc. f_equal. destruct l; cbn [step label_taken] in *;
      apply bind_Ret in E as (? & _ & [= <-]) || injection E as <-; by rewrite ?app_nil_r.
Qed.

Lemma run_app ls ks (s : @Sys O) : run SIZE (ls ++ ks) s = s ← run SIZE ls s; run SIZE ks s.
Proof.
  revert s. induction ls as [|l ls IH]; intros s; [done|]. cbn [run app].
  destruct (step SIZE l s) as [s1|]; [|done]. ostep. apply IH.
Qed.

(** ** A turn of the back end while the front end is quiet *)

Definition quiet (s : @Sys O) (cur spare1 spare2 : FixedBuffer) : Prop :=
  front s = mkAsyncLogging true (Some cur) (nextBuffer_ (front s)) [] /\
  nextBuffer_ (front s) <> None /\
  back s = mkBack Test (Some spare1) (Some spare2) [] (output (back s)) /\
  sink_ok (output (back s)).

Definition turn : list label := [Tick; Tick; Tick; Tick].

Lemma quiet_turn s cur spare1 spare2 :
  quiet s cur spare1 spare2 -> zlen (data_ cur) = SIZE ->
  zlen (sink_contents (output (back s))) < 2 ^ 62 -> exists s',
    run SIZE turn s = Ret s' /\ quiet s' spare1 (reset cur) spare2 /\
    sink_contents (output (back s')) = sink_contents (output (back s)) ++ data_ cur /\
    accepted s' = accepted s.
Proof.
  destruct s as [a b acc wr]. intros (Ha & Hn & Hb & Ho) Hd Hs. cbn [front back output] in *.
  destruct (nextBuffer_ a) as [nx|] eqn:En; [|done]. rewrite Ha, Hb. clear Hn.
  unfold turn. simpl. unfold tick, write_out. simpl.
  assert (FixedBuffer.length SIZE cur = zlen (data_ cur)) as ->.
  { unfold FixedBuffer.length, FixedBuffer.end_. rewrite Hd. apply i32_small. lia. }
  unfold FixedBuffer.data.
  destruct (sink_append_ok (data_ cur) (output b)) as (o1 & -> & Ho1 & Hc1); [done|lia|done|].
  simpl. destruct (sink_flush_ok o1 Ho1) as (o2 & -> & Ho2 & Hc2). simpl.
  eexists. split; [done|]. cbn [front back output fst snd].
  split_and!; [|by rewrite Hc2, Hc1|done]. by split_and!.
Qed.

(** ** A turn of the back end, whatever the front end holds *)

(** The front end holds no text. *)
Definition clear (a : AsyncLogging) : Prop :=
  texts (buffers_ a) = [] /\ texts [currentBuffer_ a] = [].

Lemma swap_clear n s : inv n s -> pc (back s) = Lock \/ pc (back s) = Waiting ->
  clear (fst (swap_buffers (front s) (back s))) /\
  pc (snd (swap_buffers (front s) (back s))) = Writing.
Proof.
  intros [_ Hk _ _ _ _ _] Hpc.
  assert (some_empty (newBuffer1 (back s)) /\ buffersToWrite (back s) = []) as [(b & Hb & He) Hbw].
  { unfold back_ok in Hk. by destruct Hpc as [Hpc|Hpc]; rewrite Hpc in Hk; destruct Hk as (? & _ & ?). }
  unfold clear, swap_buffers. destruct (nextBuffer_ (front s)); cbn; rewrite Hbw, Hb; cbn;
    rewrite empty_text by done; done.
Qed.

Lemma swap_running a (b : @Back O) : running_ (fst (swap_buffers a b)) = running_ a.
Proof. unfold swap_buffers. by destruct (nextBuffer_ a). Qed.

Lemma step_test s : pc (back s) = Test -> running_ (front s) = true ->
  step SIZE Tick s = Ret (mkSys (front s) (set_pc Lock (back s)) (accepted s) (written s)).
Proof. intros Hp Hr. unfold step, tick. rewrite Hp, Hr. cbn. by rewrite app_nil_r. Qed.

Lemma step_wait s : pc (back s) = Lock -> buffers_ (front s) = [] ->
  step SIZE Tick s = Ret (mkSys (front s) (set_pc Waiting (back s)) (accepted s) (written s)).
Proof. intros Hp Hb. unfold step, tick. rewrite Hp, Hb. cbn. by rewrite app_nil_r. Qed.

Lemma step_swap s : pc (back s) = Lock /\ buffers_ (front s) <> [] \/ pc (back s) = Waiting ->
  let r := swap_buffers (front s) (back s) in
  step SIZE Tick s = Ret (mkSys (fst r) (snd r) (accepted s) (written s)).
Proof.
  intros Hp r. unfold step, tick. destruct Hp as [[Hp Hb]|Hp]; rewrite Hp.
  - destruct (decide (buffers_ (front s) = [])); [done|]. cbn. by rewrite app_nil_r.
  - cbn. by rewrite app_nil_r.
Qed.

(** Writing what was swapped out. *)
Lemma step_write n s : inv n s -> SIZE * Z.of_nat n < 2 ^ 62 -> pc (back s) = Writing -> clear (front s) ->
  exists s', step SIZE Tick s = Ret s' /\ inv (S n) s' /\ accepted s' = accepted s /\
    front s' = front s /\ pc (back s') = Test /\ accepted s = concat (text <$> written s').
Proof.
  intros Hi Hn Hp [C1 C2]. destruct (tick_ok n s Hi Hn) as (s' & E & I' & _).
  destruct (write_out_ok n s Hi Hp Hn) as (b' & Eb & Pb & _). exists s'.
  assert (accepted s' = accepted s /\ front s' = front s /\ pc (back s') = Test) as (Ha & Hf & Hp').
  { revert E. unfold step, tick. rewrite Hp, Eb. ostep. by intros [= <-]. }
  split_and!; [done..|]. pose proof I' as [_ Hk _ Hacc _ _ _]. rewrite <- Ha, Hacc, Hf, C1, C2, !app_nil_r.
  unfold back_ok in Hk. rewrite Hp' in Hk. destruct Hk as (_ & _ & ->). by rewrite app_nil_r.
Qed.

(** Between the phases without a turn only [pc] changes. *)
Lemma inv_idle n s p : inv n s -> pc (back s) = Test \/ pc (back s) = Lock -> p = Lock \/ p = Waiting ->
  inv n (mkSys (front s) (set_pc p (back s)) (accepted s) (written s)).
Proof.
  intros [] Hp Hq. split; try done. unfold back_ok in *.
  destruct Hp as [Hp|Hp]; rewrite Hp in inv_back0; by destruct Hq as [->| ->].
Qed.

(** Everything accepted before a turn is written after it. *)
Lemma turn_writes_all n s : inv n s -> SIZE * Z.of_nat (n + 4) < 2 ^ 62 ->
  pc (back s) = Test -> running_ (front s) = true -> exists s',
    run SIZE turn s = Ret s' /\ inv (n + 4) s' /\ accepted s' = accepted s /\
    accepted s = concat (text <$> written s').
Proof.
  intros Hi Hn Hpc Hr. unfold turn. cbn [run]. rewrite step_test by done. ostep.
  set (s1 := mkSys _ _ _ _). assert (inv n s1) as I1 by (apply inv_idle; auto).
  destruct (decide (buffers_ (front s) = [])) as [Eb|Eb].
  - rewrite step_wait by done. ostep. set (s2 := mkSys _ _ _ _).
    assert (inv n s2) as I2 by (apply inv_idle; auto).
    destruct (swap_clear n s2 I2) as [C3 P3]; [by right|]. pose proof (swap_ok n s2 I2 ltac:(by right)) as I3.
    rewrite step_swap by by right. ostep.
    destruct (step_write _ _ I3) as (s4 & -> & I4 & A4 & _ & _ & W4); [nia|done|done|]. ostep.
    exists s4. split_and!; [done|apply (inv_mono (S (S n))); [lia|done]|done|done].
  - assert (pc (back s1) = Lock /\ buffers_ (front s1) <> [] \/ pc (back s1) = Waiting) as P1 by by left.
    destruct (swap_clear n s1 I1) as [C3 P3]; [by left|]. pose proof (swap_ok n s1 I1 P1) as I3.
    rewrite step_swap by done. ostep.
    destruct (step_write _ _ I3) as (s4 & -> & I4 & A4 & F4 & P4 & W4); [nia|done|done|]. ostep.
    assert (running_ (front s4) = true) as R4 by (rewrite F4; cbn; by rewrite swap_running).
    rewrite step_test by done. ostep. eexists. split_and!; [done| |done|done].
    apply (inv_mono (S (S n))); [lia|]. apply inv_idle; auto.
Qed.

End AsyncLemmas.
End AsyncLemmas.

Module AsyncLoggingProps.
Import FileUtil LogFile LogFileLemmas LogFileSink.
Import FixedBuffer(FixedBuffer, data_, cur_, reset, bzero).
Import AsyncLogging AsyncLemmas.

(** Appending records one after the other. *)
Fixpoint append_all (e : Env) (ms : list bytes) (s : LogFile * IO) : outcome (LogFile * IO) :=
  match ms with
  | [] => mret s
  | m :: ms => s ← LogFile.append e m (zlen m) s; append_all e ms s
  end.

Lemma append_records_works e ms l io :
  io_ok e -> wf l io -> Forall (fun m => zlen m < 2 ^ 31) ms ->
  zlen (contents l io) + zlen (concat ms) < 2 ^ 62 ->
  works e (fun '(l', io') => wf l' io' /\
    contents l' io' = contents l io ++ concat ms /\ rollSize_ l' = rollSize_ l /\
    (ms <> [] -> size_bound e l' io')) (append_all e ms (l, io)).
Proof.
  intros He Hw Hm. revert l io Hw. induction Hm as [|m ms Hm _ IH]; intros l io Hw Hs.
  - cbn. by rewrite app_nil_r.
  - cbn [append_all concat] in *. rewrite zlen_app in Hs.
    pose proof (zlen_nonneg m). pose proof (zlen_nonneg (concat ms)).
    eapply works_bind; [apply LogFile_append_works; [done|done|lia|done|lia]|].
    intros [l1 io1] (Hw1 & Hc1 & Hr1 & Hb1). rewrite slice_all in Hc1.
    specialize (IH l1 io1 Hw1). rewrite Hc1, Hr1, zlen_app, <- app_assoc in IH. specialize (IH ltac:(lia)).
    destruct ms as [|m2 ms]; [cbn in *; rewrite app_nil_r in *; naive_solver|].
    destruct (append_all e (m2 :: ms) (l1, io1)) as [[l' io']|x]; [|exact IH]. naive_solver.
Qed.

(** C36: a [LogFile] loses and reorders nothing over its rolls: the files it
    made, in the order of creation, hold exactly the records appended, those
    closed are on disk in full, and after an append the open file exceeds the
    roll size only within the second of the last roll.  Every append returns,
    whatever short counts [fwrite] gives, as long as it gives no zero: the only
    ways not to return are an [fwrite] that takes nothing of what it is given,
    which is retried at once (for ever, if the disk stays full), and an
    [fopen] that fails, whose null stream is used.  The clock is past the
    epoch, and [fclose] writes out what is buffered. *)
Theorem LogFile_keeps_records (e : Env) (basename : bytes) (rollSize flushInterval checkEveryN : Z)
    (ms : list bytes) :
  io_ok e -> 0 <= rollSize < 2 ^ 62 -> Forall (fun m => zlen m < 2 ^ 31) ms ->
  zlen (concat ms) < 2 ^ 62 ->
  match s ← new_LogFile e basename rollSize flushInterval checkEveryN new_IO; append_all e ms s with
  | Ret (l, io) => exists f,
      file_ l = Some f /\
      concat (file_bytes <$> closed io) ++ file_bytes (fp_ f) = concat ms /\
      Forall synced (closed io) /\
      (ms <> [] -> rollSize < zlen (file_bytes (fp_ f)) -> time e (pred (times io)) <= lastRoll_ l)
  | Err x => x = OutOfFuel /\ (exists i r, 0 < r /\ fwrite_ret e i r = 0) \/
      x = NullDeref /\ (exists p, fopen_ok e p = false)
  end.
Proof.
  intros He Hr Hm Hs.
  pose proof (new_LogFile_works e basename rollSize flushInterval checkEveryN new_IO He Hr eq_refl) as X.
  destruct (new_LogFile _ _ _ _ _ _) as [[l0 io0]|x]; [|exact X]. destruct X as (Hw0 & Hc0 & Hr0). ostep.
  pose proof (append_records_works e ms l0 io0 He Hw0 Hm) as X. rewrite Hc0, zlen_nil in X.
  specialize (X ltac:(lia)). destruct (append_all e ms (l0, io0)) as [[l io]|x]; [|exact X].
  destruct X as (Hw & Hc & Hrl & Hb). destruct Hw as [(f & Hf & Hwb) Hcl _]. exists f. split_and!; [done| |done|].
  - rewrite <- (app_nil_l (concat ms)), <- Hc. unfold contents. by rewrite Hf.
  - intros Hne Hlt. apply (Hb Hne f Hf). rewrite Hrl, Hr0, Hwb. done.
Qed.

(** C18: under every interleaving of appends, a start, stops and steps of the
    back end, [AsyncLogging] never dereferences a null buffer or takes one from
    an empty vector, and loses and reorders no record it accepts: the records
    appended (but for those as long as a buffer) are, in order, the texts of
    the buffers written, of those the back end is writing, of those queued and
    of the current one; the file holds the whole storage of each buffer
    written. *)
Theorem async_keeps_records {O} `{LOG_SINK_LAWS O} (SIZE : Z) (storage1 storage2 : bytes) (o : O)
    (ls : list label) :
  0 < SIZE < 2 ^ 31 -> sink_ok o -> sink_contents o = [] ->
  Forall (label_ok SIZE) ls ->
  (length (filter (fun l => is_start l = true) ls) <= 1)%nat ->
  SIZE * Z.of_nat (length ls) < 2 ^ 62 -> exists s,
    run SIZE ls (initial SIZE storage1 storage2 o) = Ret s /\
    concat (label_taken SIZE <$> ls) =
      concat (text <$> written s) ++ texts (buffersToWrite (back s)) ++
      texts (buffers_ (front s)) ++ texts [currentBuffer_ (front s)] /\
    sink_contents (output (back s)) = concat (data_ <$> written s) /\
    Forall (fun b => zlen (data_ b) = SIZE) (written s).
Proof.
  intros HS Ho Hc Hl Hst Hn.
  destruct (run_ok SIZE HS ls 0 (initial SIZE storage1 storage2 o)) as (s & E & Hi);
    [by apply initial_ok|done|done|done|].
  exists s. split; [done|]. split_and!.
  - rewrite <- (inv_accepted _ _ _ Hi). symmetry. exact (run_accepted SIZE ls _ _ E).
  - apply (inv_contents _ _ _ Hi).
  - eapply Forall_impl; [apply (inv_written _ _ _ Hi)|]. by intros b [].
Qed.

(** The back end hands the whole storage of a buffer to the file, and
    takes a written buffer back without clearing it, so after one record has
    been appended three quiet turns put it into the file twice, each time
    followed by zeros up to the size of the buffer. *)
Theorem reused_buffers_repeat_records {O} `{LOG_SINK_LAWS O} (SIZE : Z)
    (storage : bytes) (o : O) (m : bytes) :
  0 < SIZE < 2 ^ 31 -> sink_ok o -> sink_contents o = [] -> zlen m < SIZE -> exists s,
    run SIZE ([Start storage storage; Append storage m] ++ turn ++ turn ++ turn)
      (initial SIZE storage storage o) = Ret s /\
    accepted s = m /\
    let zeros k := replicate (Z.to_nat k) NUL in
    sink_contents (output (back s)) =
      (m ++ zeros (SIZE - zlen m)) ++ zeros SIZE ++ (m ++ zeros (SIZE - zlen m)).
Proof.
  intros HS Ho Hc Hm. cbv zeta. set (zeros k := replicate (Z.to_nat k) NUL). rewrite run_app. pose proof (zlen_nonneg m).
  cbn [run step initial front back pc]. rewrite bool_decide_eq_true_2 by done. ostep.
  unfold append. cbn [run step front back set_running new_AsyncLogging currentBuffer_ running_
    nextBuffer_ buffers_]. ostep.
  destruct (bzero_empty SIZE HS storage) as [Hbl Hb0].
  rewrite (avail_ok SIZE HS), Hb0, Z.sub_0_r by (apply (empty_ok SIZE HS); by split).
  if_true. rewrite u64_small by lia.
  rewrite (append_fresh SIZE HS) by done. ostep.
  set (A := FixedBuffer.buf m _).
  assert (data_ A = m ++ zeros (SIZE - zlen m)) as EA.
  { done. }
  assert (zlen (data_ A) = SIZE) as HA by (rewrite EA, zlen_app; unfold zeros;
    rewrite zlen_replicate; lia).
  rewrite run_app. cbn [back front].
  set (Z0 := bzero SIZE (FixedBuffer.new_FixedBuffer storage)) in *.
  assert (data_ Z0 = zeros SIZE) as EZ by done.
  match goal with |- context [run SIZE turn ?s] => set (s0 := s) end.
  assert (quiet s0 A Z0 Z0) as Q0 by (by subst s0; unfold quiet).
  destruct (quiet_turn SIZE HS s0 A Z0 Z0 Q0) as (s1 & -> & Q1 & C1 & A1);
    [done|subst s0; cbn; rewrite Hc, zlen_nil; lia|]. ostep. rewrite run_app.
  destruct (quiet_turn SIZE HS s1 _ _ _ Q1) as (s2 & -> & Q2 & C2 & A2);
    [done|rewrite C1; subst s0; cbn [back output enter initial]; rewrite Hc, app_nil_l, HA; lia|]. ostep.
  destruct (quiet_turn SIZE HS s2 _ _ _ Q2) as (s3 & -> & Q3 & C3 & A3);
    [done|rewrite C2, C1; subst s0; cbn [back output enter initial]; rewrite Hc, app_nil_l, zlen_app, HA, EZ;
      unfold zeros; rewrite zlen_replicate; lia|].
  exists s3. split; [done|]. split.
  - rewrite A3, A2, A1. subst s0. cbn [accepted]. unfold taken. by if_true.
  - rewrite C3, C2, C1. subst s0. cbn [back output enter initial]. rewrite Hc, app_nil_l, EZ.
    cbn [data_ reset FixedBuffer.reset]. by rewrite EA, <- app_assoc.
Qed.

(** A record appended after the last turn is not written: [stop] ends the back
    end at its next test. *)
Lemma stop_drops_pending {O} `{LOG_SINK_LAWS O} (SIZE : Z) (storage : bytes) (o : O) (m : bytes) :
  0 < SIZE < 2 ^ 31 -> sink_ok o -> sink_contents o = [] -> zlen m < SIZE -> exists s,
    run SIZE [Start storage storage; Append storage m; Stop; Tick; Tick]
      (initial SIZE storage storage o) = Ret s /\
    pc (back s) = Done /\ accepted s = m /\ sink_contents (output (back s)) = [].
Proof.
  intros HS Ho Hc Hm. pose proof (zlen_nonneg m). simpl. unfold append. simpl.
  destruct (bzero_empty SIZE HS storage) as [Hbl Hb0].
  rewrite (avail_ok SIZE HS), Hb0, Z.sub_0_r by (apply (empty_ok SIZE HS); by split).
  if_true. rewrite u64_small by lia. rewrite (append_fresh SIZE HS) by done.
  simpl. unfold tick. simpl.
  destruct (sink_flush_ok o Ho) as (o1 & -> & Ho1 & Hc1). simpl.
  eexists. split; [done|]. cbn. rewrite Hc1. unfold taken. by if_true.
Qed.

(** ** Witnesses *)

(** [fwrite] accepts at most four bytes at a time; a second passes between
    readings of the clock. *)
Definition demo_env : Env :=
  mkEnv (fun _ r => Z.min r 4) (fun _ => true) (fun i => 86400 * 300 + Z.of_nat i)
    (fun _ => LoggerProps.demo_tm).

Lemma demo_env_ok : env_ok demo_env.
Proof. repeat split; cbn; intros; lia || done. Qed.

Definition demo_ms : list bytes := [str "first record"; str "second"; str "third"].

Lemma LogFile_keeps_records_witness :
  exists l io f,
    (s ← new_LogFile demo_env (str "echo") 8 3 1024 new_IO; append_all demo_env demo_ms s) =
      Ret (l, io) /\
    file_ l = Some f /\
    concat (file_bytes <$> closed io) ++ file_bytes (fp_ f) = str "first recordsecondthird" /\
    length (closed io) = 2%nat.
Proof.
  pose proof (LogFile_keeps_records demo_env (str "echo") 8 3 1024 demo_ms (env_io _ demo_env_ok)
    ltac:(lia) ltac:(repeat constructor; vm_compute; done) ltac:(vm_compute; done)) as X.
  destruct (s ← new_LogFile demo_env (str "echo") 8 3 1024 new_IO; append_all demo_env demo_ms s)
    as [[l io]|x] eqn:E; [|vm_compute in E; discriminate E].
  destruct X as (f & Hf & Hc & _). exists l, io, f. split_and!; [reflexivity|exact Hf|exact Hc|].
  revert E. vm_compute. intros [= _ <-]. reflexivity.
Defined.

(** A sink that keeps what it is given. *)
#[local] Instance list_sink : LOG_SINK bytes := {
  sink_append d len o := d ← read_mem d 0 len; mret (o ++ d);
  sink_flush o := mret o;
  sink_contents o := o;
  sink_ok _ := True
}.

#[local] Instance list_sink_laws : LOG_SINK_LAWS bytes.
Proof.
  split.
  - intros d o _ _ _. cbn. rewrite read_mem_in by auto with wf lia || (pose proof (zlen_nonneg d); lia).
    eexists. split; [done|]. by rewrite slice_all.
  - intros o _. by exists o.
Qed.

Definition demo_storage : bytes := replicate 8 "?"%char.
Definition demo_labels : list label :=
  [Append demo_storage (str "abc"); Start demo_storage demo_storage;
   Append demo_storage (str "de"); Tick; Append demo_storage (str "fghi"); Tick; Tick;
   Append demo_storage (str "j"); Stop; Tick].

Lemma async_keeps_records_witness : exists s,
  run 8 demo_labels (initial 8 demo_storage demo_storage []) = Ret s /\
  concat (label_taken 8 <$> demo_labels) = str "abcdefghij" /\
  concat (text <$> written s) = str "abcdefghi" /\
  texts [currentBuffer_ (front s)] = str "j" /\ pc (back s) = Done.
Proof.
  destruct (async_keeps_records 8 demo_storage demo_storage [] demo_labels) as (s & E & _).
  - lia.
  - exact Logic.I.
  - reflexivity.
  - repeat constructor; vm_compute; done.
  - vm_compute. lia.
  - vm_compute. reflexivity.
  - exists s. split; [exact E|]. revert E. vm_compute. intros [= <-]. split_and!; reflexivity.
Defined.

Lemma reused_buffers_repeat_records_witness : exists s,
  run 8 ([Start demo_storage demo_storage; Append demo_storage (str "abc")] ++ turn ++ turn ++ turn)
    (initial 8 demo_storage demo_storage []) = Ret s /\
  accepted s = str "abc" /\
  is_prefix (str "abc") (drop 16 (output (back s))) = true.
Proof.
  destruct (reused_buffers_repeat_records 8 demo_storage [] (str "abc")) as (s & E & Ha & Hc).
  - lia.
  - exact Logic.I.
  - reflexivity.
  - vm_compute. reflexivity.
  - exists s. split_and!; [exact E|exact Ha|].
    change (output (back s)) with (sink_contents (output (back s))). rewrite Hc. reflexivity.
Defined.

End AsyncLoggingProps.
