(* ===== verification/Mysql.v ===== *)
(** * MySQL connections and their pool ([src/mysql/MysqlConn.*],
    [src/mysql/ConnectionPool.*])

    The MySQL client library is not part of the repository: [MYSQL_API] lists
    the functions the code calls, over an abstract state [M] of the library and
    the server.  The configuration file is read by a vendored JSON library, so
    what it yields is the argument [Config].  The pool's threads work under one
    mutex; a run is any interleaving of their critical sections. *)

From S2P Require Import Prelude.

(** A fetched row: fields may be SQL NULL. *)
Abbreviation Row := (list (option bytes)).

(** Handles of connections and results are addresses. *)
Class MYSQL_API (M : Type) := {
  mysql_init : M -> option Z * M;
  mysql_set_character_set : Z -> bytes -> M -> M;
  mysql_real_connect : Z -> bytes -> bytes -> bytes -> bytes -> Z -> M -> bool * M;
  mysql_query : Z -> bytes -> M -> Z * M;
  mysql_store_result : Z -> M -> option Z * M;
  mysql_free_result : Z -> M -> M;
  mysql_fetch_row : Z -> M -> option Row * M;
  mysql_num_fields : Z -> M -> Z;
  mysql_fetch_lengths : Z -> M -> list Z;
  mysql_autocommit : Z -> bool -> M -> Z * M;
  mysql_commit : Z -> M -> Z * M;
  mysql_rollback : Z -> M -> Z * M;
  mysql_close : Z -> M -> M
}.

Module MysqlConn.

Section MysqlConn.
Context {M : Type} `{MYSQL_API M}.

(** [m_alivetime] is a reading of the steady clock in nanoseconds. *)
Record MysqlConn := mkMysqlConn {
  conn_ : option Z;
  result_ : option Z;
  row_ : option Row;
  m_alivetime : Z
}.

Definition set_result (r : option Z) (c : MysqlConn) : MysqlConn :=
  mkMysqlConn (conn_ c) r (row_ c) (m_alivetime c).
Definition set_row (r : option Row) (c : MysqlConn) : MysqlConn :=
  mkMysqlConn (conn_ c) (result_ c) r (m_alivetime c).

(** Setting the character set goes through the handle. *)
Definition new_MysqlConn (m : M) : outcome (MysqlConn * M) :=
  let '(p, m) := mysql_init m in
  h ← deref NullDeref p;
  mret (mkMysqlConn p None None 0, mysql_set_character_set h (str "utf8") m).

Definition freeResult (c : MysqlConn) (m : M) : MysqlConn * M :=
  match result_ c with
  | Some r => (set_result None c, mysql_free_result r m)
  | None => (c, m)
  end.

Definition delete_MysqlConn (c : MysqlConn) (m : M) : M :=
  let m := match conn_ c with Some h => mysql_close h m | None => m end in
  snd (freeResult c m).

Definition connect (user passwd dbName ip : bytes) (port : Z) (c : MysqlConn) (m : M)
    : outcome (bool * M) :=
  h ← deref NullDeref (conn_ c);
  mret (mysql_real_connect h (c_str ip) (c_str user) (c_str passwd) (c_str dbName) port m).

Definition update (sql : bytes) (c : MysqlConn) (m : M) : outcome (bool * M) :=
  h ← deref NullDeref (conn_ c);
  let '(e, m) := mysql_query h (c_str sql) m in
  mret (if negb (e =? 0) then (false, m) else (true, m)).

Definition query (sql : bytes) (c : MysqlConn) (m : M) : outcome (bool * (MysqlConn * M)) :=
  let '(c, m) := freeResult c m in
  h ← deref NullDeref (conn_ c);
  let '(e, m) := mysql_query h (c_str sql) m in
  if negb (e =? 0) then mret (false, (c, m))
  else let '(r, m) := mysql_store_result h m in mret (true, (set_result r c, m)).

Definition next (c : MysqlConn) (m : M) : bool * (MysqlConn * M) :=
  match result_ c with
  | Some r =>
      let '(row, m) := mysql_fetch_row r m in
      (bool_decide (is_Some row), (set_row row c, m))
  | None => (false, (c, m))
  end.

(** A field of the current row; [std::string(val, length)] of a NULL field
    reads nothing when its length is 0. *)
Definition value (index : Z) (c : MysqlConn) (m : M) : outcome bytes :=
  r ← deref NullDeref (result_ c);
  let rowCount := i32 (mysql_num_fields r m) in
  if (rowCount <=? index) || (index <? 0) then mret []
  else
    row ← deref NullDeref (row_ c);
    val ← deref OutOfBounds (row !! Z.to_nat index);
    length ← deref OutOfBounds (mysql_fetch_lengths r m !! Z.to_nat index);
    match val with
    | Some d => read_mem d 0 length
    | None => check (length =? 0) NullDeref;; mret []
    end.

(** The C functions return 0 for success; [bool] of the result is returned. *)
Definition transaction (c : MysqlConn) (m : M) : outcome (bool * M) :=
  h ← deref NullDeref (conn_ c);
  let '(e, m) := mysql_autocommit h false m in mret (negb (e =? 0), m).
Definition commit (c : MysqlConn) (m : M) : outcome (bool * M) :=
  h ← deref NullDeref (conn_ c);
  let '(e, m) := mysql_commit h m in mret (negb (e =? 0), m).
Definition rollbock (c : MysqlConn) (m : M) : outcome (bool * M) :=
  h ← deref NullDeref (conn_ c);
  let '(e, m) := mysql_rollback h m in mret (negb (e =? 0), m).

(** [now] is a reading of the steady clock. *)
Definition refreshAliveTime (now : Z) (c : MysqlConn) : MysqlConn :=
  mkMysqlConn (conn_ c) (result_ c) (row_ c) now.
Definition getAliveTime (now : Z) (c : MysqlConn) : Z :=
  Z.quot (now - m_alivetime c) (1000 * 1000).

End MysqlConn.
End MysqlConn.

Module ConnectionPool.
Import MysqlConn(MysqlConn, new_MysqlConn, delete_MysqlConn, connect, refreshAliveTime, getAliveTime).

Section ConnectionPool.
Context {M : Type} `{MYSQL_API M}.

(** The members [parseJsonFile] sets. *)
Record Config := mkConfig {
  ip_ : bytes; user_ : bytes; passwd_ : bytes; dbName_ : bytes;
  port_ : Z;
  minSize_ : Z; maxSize_ : Z; timeout_ : Z; maxIdleTime_ : Z
}.

(** A connection object on the heap: its address and its members. *)
Abbreviation Obj := (nat * MysqlConn)%type.

Record ConnectionPool := mkConnectionPool {
  conf : Config;
  currentSize_ : Z;
  connectionQueue_ : list Obj;
  next_address : nat          (** where the next [new MysqlConn] is *)
}.

Definition set_queue (q : list Obj) (p : ConnectionPool) : ConnectionPool :=
  mkConnectionPool (conf p) (currentSize_ p) q (next_address p).
Definition set_size (n : Z) (p : ConnectionPool) : ConnectionPool :=
  mkConnectionPool (conf p) n (connectionQueue_ p) (next_address p).

(** The JSON library's reading of [conf.json]. *)
Definition parseJsonFile (json : Config) (p : ConnectionPool) : ConnectionPool :=
  mkConnectionPool json (currentSize_ p) (connectionQueue_ p) (next_address p).

(** The result of [connect] is not looked at. *)
Definition addConnection (now : Z) (p : ConnectionPool) (m : M) : outcome (ConnectionPool * M) :=
  let c := conf p in
  r ← new_MysqlConn m;
  let '(conn, m) := r in
  r ← connect (user_ c) (passwd_ c) (dbName_ c) (ip_ c) (port_ c) conn m;
  let conn := refreshAliveTime now conn in
  size ← incr32 (currentSize_ p);
  mret (mkConnectionPool c size
    (connectionQueue_ p ++ [(next_address p, conn)]) (S (next_address p)), snd r).

(** The callers of [addConnection] count the connection once more. *)
Definition add_counted (now : Z) (p : ConnectionPool) (m : M) : outcome (ConnectionPool * M) :=
  r ← addConnection now p m;
  size ← incr32 (currentSize_ (fst r));
  mret (set_size size (fst r), snd r).

(** The loop of the constructor. *)
Fixpoint add_loop (n : nat) (now : Z) (p : ConnectionPool) (m : M) : outcome (ConnectionPool * M) :=
  match n with
  | O => mret (p, m)
  | S n => r ← add_counted now p m; add_loop n now (fst r) (snd r)
  end.

(** No constructor sets [currentSize_]: the pool is a static local of
    [getConnectionPool], so it is zero before the constructor runs. *)
Definition new_ConnectionPool (json : Config) (now : Z) (m : M) : outcome (ConnectionPool * M) :=
  let p := parseJsonFile json (mkConnectionPool json 0 [] 0) in
  add_loop (Z.to_nat (minSize_ (conf p))) now p m.

(** One turn of the producer's loop, past the wait for an empty queue. *)
Definition produceConnection (now : Z) (p : ConnectionPool) (m : M) : outcome (ConnectionPool * M) :=
  match connectionQueue_ p with
  | _ :: _ => mret (p, m)
  | [] =>
      if currentSize_ p <? maxSize_ (conf p) then add_counted now p m else mret (p, m)
  end.

(** The inner loop of the recycler; it ends with the queue. *)
Fixpoint recycle_loop (fuel : nat) (now : Z) (p : ConnectionPool) (m : M) : ConnectionPool * M :=
  match fuel with
  | O => (p, m)
  | S fuel =>
      match connectionQueue_ p with
      | (a, conn) :: q =>
          if u64 (minSize_ (conf p)) <? zlen (connectionQueue_ p) then
            if maxIdleTime_ (conf p) <=? getAliveTime now conn then
              recycle_loop fuel now (set_size (currentSize_ p - 1) (set_queue q p))
                (delete_MysqlConn conn m)
            else (p, m)
          else (p, m)
      | [] => (p, m)
      end
  end.

Definition recycleConnection (now : Z) (p : ConnectionPool) (m : M) : ConnectionPool * M :=
  recycle_loop (length (connectionQueue_ p)) now p m.

(** [getConnection] once the queue is not empty; [None] while it waits. *)
Definition getConnection (p : ConnectionPool) : option (Obj * ConnectionPool) :=
  match connectionQueue_ p with
  | o :: q => Some (o, set_queue q p)
  | [] => None
  end.

(** The deleter of the [shared_ptr] that [getConnection] returns. *)
Definition give_back (now : Z) (o : Obj) (p : ConnectionPool) : ConnectionPool :=
  set_queue (connectionQueue_ p ++ [(fst o, refreshAliveTime now (snd o))]) p.

Fixpoint delete_loop (fuel : nat) (p : ConnectionPool) (m : M) : ConnectionPool * M :=
  match fuel with
  | O => (p, m)
  | S fuel =>
      match connectionQueue_ p with
      | (_, conn) :: q =>
          delete_loop fuel (set_size (currentSize_ p - 1) (set_queue q p)) (delete_MysqlConn conn m)
      | [] => (p, m)
      end
  end.

Definition delete_ConnectionPool (p : ConnectionPool) (m : M) : ConnectionPool * M :=
  delete_loop (length (connectionQueue_ p)) p m.

(** ** Runs *)

Inductive label := Produce (now : Z) | Recycle (now : Z) | Get | GiveBack (i : nat) (now : Z).

(** The pool, the connections clients hold, and the library. *)
Record Sys := mkSys { pool : ConnectionPool; leased : list Obj; lib : M }.

Definition step (l : label) (s : Sys) : outcome Sys :=
  match l with
  | Produce now => r ← produceConnection now (pool s) (lib s); mret (mkSys (fst r) (leased s) (snd r))
  | Recycle now =>
      let r := recycleConnection now (pool s) (lib s) in mret (mkSys (fst r) (leased s) (snd r))
  | Get =>
      mret match getConnection (pool s) with
           | Some (o, p) => mkSys p (leased s ++ [o]) (lib s)
           | None => s
           end
  | GiveBack i now =>
      mret match leased s !! i with
           | Some o => mkSys (give_back now o (pool s)) (delete i (leased s)) (lib s)
           | None => s
           end
  end.

Fixpoint run (ls : list label) (s : Sys) : outcome Sys :=
  match ls with
  | [] => mret s
  | l :: ls => s ← step l s; run ls s
  end.

(** The connections that exist, by address. *)
Definition live (s : Sys) : list nat := fst <$> connectionQueue_ (pool s) ++ leased s.

Definition made (s : Sys) : Z := Z.of_nat (next_address (pool s)).
Definition destroyed (s : Sys) : Z := made s - zlen (live s).

End ConnectionPool.
End ConnectionPool.

Module MysqlLemmas.
Import MysqlConn ConnectionPool.

Section MysqlLemmas.
Context {M : Type} `{MYSQL_API M}.
Implicit Types (s : @Sys M) (p : ConnectionPool) (m : M).

(** What [currentSize_] is kept to. *)
Definition size_limit (c : Config) : Z := Z.max (2 * Z.max 0 (minSize_ c)) (maxSize_ c + 1).

(** The addresses of the queue and of the leased connections are distinct and
    have been used; [currentSize_] counts every connection made twice. *)
Record inv (c : Config) (s : @Sys M) : Prop := {
  inv_conf : conf (pool s) = c;
  inv_nodup : NoDup (live s);
  inv_used : Forall (fun a => (a < next_address (pool s))%nat) (live s);
  inv_size : currentSize_ (pool s) = made s + zlen (live s);
  inv_bound : made s + zlen (live s) <= size_limit c;
  inv_int : currentSize_ (pool s) < 2 ^ 31
}.

(** Making a connection fails only when the library is out of memory or the
    counter at its end. *)
Definition pool_fault (c : Config) (f : fault) : Prop :=
  f = NullDeref /\ (exists m : M, fst (mysql_init m) = None) \/
  f = Overflow /\ 2 ^ 31 <= size_limit c.

(** There is room for one more connection below the limit. *)
Definition room (c : Config) s : Prop := made s + zlen (live s) + 2 <= size_limit c.

Lemma add_counted_cases now p m :
  match add_counted now p m with
  | Ret r => exists o, currentSize_ p + 2 < 2 ^ 31 /\
      fst r = mkConnectionPool (conf p) (currentSize_ p + 2)
        (connectionQueue_ p ++ [(next_address p, o)]) (S (next_address p))
  | Err f => f = NullDeref /\ (exists m : M, fst (mysql_init m) = None) \/
      f = Overflow /\ 2 ^ 31 <= currentSize_ p + 2
  end.
Proof.
  unfold add_counted, addConnection, new_MysqlConn.
  destruct (mysql_init m) as [[h|] m1] eqn:Ei; ostep; [|left; split; [done|exists m; by rewrite Ei]].
  unfold connect. cbn [conn_]. ostep. destruct (incr32 (currentSize_ p)) as [n|f] eqn:E1; ostep.
  2:{ apply incr32_Err in E1 as [-> ?]. right. split; [done|lia]. }
  apply incr32_Ret in E1 as [-> _]. cbn [fst currentSize_].
  destruct (incr32 (currentSize_ p + 1)) as [n|f] eqn:E2; ostep.
  - apply incr32_Ret in E2 as [-> ?]. eexists. split; [lia|]. unfold set_size. cbn. f_equal. lia.
  - apply incr32_Err in E2 as [-> ?]. right. split; [done|lia].
Qed.

Lemma live_perm s c n o :
  live (mkSys (mkConnectionPool c n (connectionQueue_ (pool s) ++ [o])
    (S (next_address (pool s)))) (leased s) (lib s)) ≡ₚ fst o :: live s.
Proof. unfold live. cbn. rewrite !fmap_app. cbn. solve_Permutation. Qed.

(** Moving connections between the queue and the clients. *)
Lemma inv_move c s s' :
  inv c s -> conf (pool s') = c -> next_address (pool s') = next_address (pool s) ->
  currentSize_ (pool s') = currentSize_ (pool s) -> live s' ≡ₚ live s -> inv c s'.
Proof.
  intros [] Hc Hn Hs Hp. unfold made in *.
  assert (zlen (live s') = zlen (live s)) as El by (unfold zlen; by rewrite Hp).
  split; unfold made; rewrite ?Hn, ?El, ?Hs, ?Hp; done.
Qed.

(** Making a connection when there is room. *)
Lemma inv_add c s now : inv c s -> room c s ->
  match add_counted now (pool s) (lib s) with
  | Ret r => inv c (mkSys (fst r) (leased s) (snd r)) /\
      made (mkSys (fst r) (leased s) (snd r)) = made s + 1 /\
      zlen (live (mkSys (fst r) (leased s) (snd r))) = zlen (live s) + 1
  | Err f => pool_fault c f
  end.
Proof.
  intros [Hc Hd Hu Hs Hb Hi] Hr. unfold room in Hr.
  pose proof (add_counted_cases now (pool s) (lib s)) as X.
  destruct (add_counted _ _ _) as [[p' m']|f]; [|destruct X as [?|[? ?]]; [by left|right; split; [done|lia]]].
  destruct X as (o & Hn & E). cbn [fst snd] in *. subst p'. set (s' := mkSys _ _ _).
  assert (live s' ≡ₚ next_address (pool s) :: live s) as P by exact (live_perm s _ _ (_, o)).
  assert (zlen (live s') = zlen (live s) + 1) as El by (unfold zlen; rewrite P; cbn; lia).
  assert (made s' = made s + 1) as Em by (unfold made; cbn; lia).
  split_and!; [split|done|done].
  - done.
  - rewrite P. constructor; [|done]. intros Hin. rewrite Forall_forall in Hu.
    specialize (Hu _ Hin). cbn in Hu. lia.
  - rewrite P. cbn. constructor; [lia|]. eapply Forall_impl; [exact Hu|]. cbn. lia.
  - rewrite El, Em. cbn. lia.
  - rewrite El, Em. lia.
  - cbn. lia.
Qed.

Lemma inv_recycle c fuel now p m ls m0 :
  inv c (mkSys p ls m0) -> forall m1,
  inv c (mkSys (fst (recycle_loop fuel now p m)) ls m1).
Proof.
  revert p m. induction fuel as [|fuel IH]; intros p m Hi m1; [by destruct Hi; split|].
  cbn [recycle_loop]. destruct (connectionQueue_ p) as [|[a conn] q] eqn:Eq; [by destruct Hi; split|].
  destruct (_ <? _); [|by destruct Hi; split]. destruct (_ <=? _); [|by destruct Hi; split].
  apply IH. destruct Hi as [Hc Hd Hu Hs Hb Hn]. unfold made, live in *. cbn [pool leased lib] in *.
  rewrite Eq in *. cbn in Hd, Hu, Hs, Hb, Hn. rewrite zlen_cons in *.
  apply NoDup_cons in Hd as [_ Hd]. apply Forall_cons in Hu as [_ Hu].
  split; cbn; try done; unfold made, live; cbn; lia.
Qed.

Lemma inv_step c l s : inv c s ->
  match step l s with Ret s' => inv c s' | Err f => pool_fault c f end.
Proof.
  intros Hi. destruct l as [now|now| |i now]; cbn [step].
  - unfold produceConnection. destruct (connectionQueue_ (pool s)) as [|o q] eqn:Eq; ostep.
    2:{ by apply (inv_move c s); [|apply Hi|..]. }
    destruct (_ <? _) eqn:Elt; reflect_bools; [|ostep; by apply (inv_move c s); [|apply Hi|..]].
    assert (room c s) as Hr.
    { destruct Hi as [<- _ _ Hs _ _]. unfold room, size_limit. lia. }
    pose proof (inv_add c s now Hi Hr) as X.
    destruct (add_counted _ _ _) as [r|f]; ostep; [apply X|done].
  - destruct s as [p ls m]. by eapply inv_recycle.
  - unfold getConnection. destruct (connectionQueue_ (pool s)) as [|o q] eqn:Eq; [done|].
    apply (inv_move c s); [done|apply Hi|done|done|].
    unfold live. cbn. rewrite Eq. cbn. rewrite !fmap_app. cbn. solve_Permutation.
  - destruct (leased s !! i) as [o|] eqn:El; [|done]. cbn.
    apply (inv_move c s); [done|apply Hi|done|done|].
    unfold live. cbn. rewrite (delete_Permutation (leased s) i o El) at 2.
    rewrite !fmap_app. cbn. solve_Permutation.
Qed.

Lemma inv_run c ls s : inv c s ->
  match run ls s with Ret s' => inv c s' | Err f => pool_fault c f end.
Proof.
  revert s. induction ls as [|l ls IH]; intros s Hi; cbn [run]; [done|].
  pose proof (inv_step c l s Hi) as X. destruct (step l s) as [s1|f]; ostep; [by apply IH|done].
Qed.

Lemma recycle_made now s ls m :
  made s <= made (mkSys (fst (recycleConnection now (pool s) (lib s))) ls m).
Proof.
  unfold recycleConnection, made. cbn [pool]. generalize (length (connectionQueue_ (pool s))) (lib s).
  intros fuel. generalize (pool s). induction fuel as [|fuel IH]; intros p m0; [done|]. cbn [recycle_loop].
  destruct (connectionQueue_ p) as [|[a c] q]; [done|]. destruct (_ <? _); [|done].
  destruct (_ <=? _); [|done]. etrans; [|apply IH]. done.
Qed.

(** Connections are not unmade. *)
Lemma made_run ls s s' : run ls s = Ret s' -> made s <= made s'.
Proof.
  revert s. induction ls as [|l ls IH]; intros s; cbn [run]; [by intros [= <-]|].
  intros (s1 & E & E')%bind_Ret. etrans; [|by apply IH]. clear E' IH.
  destruct l as [now|now| |i now]; cbn [step] in E.
  - apply bind_Ret in E as ([p m] & Ep & [= <-]). unfold produceConnection in Ep. cbn [fst].
    destruct (connectionQueue_ (pool s)); [destruct (_ <? _)|]; [|by injection Ep as <- _|by injection Ep as <- _].
    pose proof (add_counted_cases now (pool s) (lib s)) as X. rewrite Ep in X.
    destruct X as (o & _ & E). cbn [fst] in E. subst p. unfold made. cbn. lia.
  - injection E as <-. apply recycle_made.
  - injection E as <-. destruct (getConnection (pool s)) as [[o p]|] eqn:Eg; [|done].
    unfold getConnection in Eg. destruct (connectionQueue_ (pool s)); [done|]. by injection Eg as _ <-.
  - injection E as <-. by destruct (leased s !! i).
Qed.

(** The constructor's loop makes [n] connections. *)
Lemma inv_add_loop c n now s : inv c s ->
  made s + zlen (live s) + 2 * Z.of_nat n <= size_limit c ->
  match add_loop n now (pool s) (lib s) with
  | Ret r => inv c (mkSys (fst r) (leased s) (snd r)) /\ made (mkSys (fst r) (leased s) (snd r)) = made s + Z.of_nat n
  | Err f => pool_fault c f
  end.
Proof.
  revert s. induction n as [|n IH]; intros s Hi Hm; cbn [add_loop].
  - ostep. unfold made. cbn. destruct s. split; [done|cbn; lia].
  - pose proof (inv_add c s now Hi ltac:(unfold room; lia)) as X.
    destruct (add_counted _ _ _) as [[p1 m1]|f]; ostep; [|done]. cbn [fst snd] in *.
    destruct X as (X1 & X2 & X3). specialize (IH _ X1 ltac:(lia)). cbn [pool lib leased] in IH.
    destruct (add_loop n now p1 m1); [|done]. destruct IH as [? ->]. split; [done|lia].
Qed.

End MysqlLemmas.
End MysqlLemmas.

Module MysqlProps.
Import MysqlConn ConnectionPool MysqlLemmas.

(** The pool from its construction, and then any interleaving. *)
Definition pool_run {M} `{MYSQL_API M} (json : Config) (now : Z) (ls : list label) (m : M) : outcome Sys :=
  r ← new_ConnectionPool json now m; run ls (mkSys (fst r) [] (snd r)).

(** C39: from the construction of the pool, under every interleaving of the
    producer, the recycler and clients that take and give back connections,
    no connection is handed out twice or both queued and leased; the
    constructor makes [minSize_] of them; and [currentSize_] counts each
    connection made twice and each destroyed one once, so that over its whole
    life the pool makes at most [maxSize_ + 1] connections (or
    [2 * minSize_]), however many it has destroyed.  A run fails only when the
    client library has no memory for a handle, or, when that limit is past
    the range of [int], by overflow of the counter. *)
Theorem pool_accounting {M} `{MYSQL_API M} (json : Config) (now : Z) (m : M) (ls : list label) :
  match pool_run json now ls m with
  | Ret s =>
      NoDup (live s) /\ Z.max 0 (minSize_ json) <= made s /\
      currentSize_ (pool s) = 2 * zlen (live s) + destroyed s /\
      0 <= currentSize_ (pool s) < 2 ^ 31 /\ 0 <= destroyed s /\
      made s <= Z.max (2 * Z.max 0 (minSize_ json)) (maxSize_ json + 1)
  | Err f =>
      f = NullDeref /\ (exists m : M, fst (mysql_init m) = None) \/
      f = Overflow /\ 2 ^ 31 <= Z.max (2 * Z.max 0 (minSize_ json)) (maxSize_ json + 1)
  end.
Proof.
  set (s0 := mkSys (mkConnectionPool json 0 [] 0) [] m).
  assert (inv json s0) as Hi0.
  { split; unfold made, live; cbn; [done|apply NoDup_nil_2|constructor|done| |lia].
    unfold size_limit, zlen. cbn. lia. }
  unfold pool_run, new_ConnectionPool, parseJsonFile. cbn [conf currentSize_ connectionQueue_ next_address].
  pose proof (inv_add_loop json (Z.to_nat (minSize_ json)) now s0 Hi0) as X. cbn [pool lib s0 leased] in X.
  specialize (X ltac:(unfold made, live, zlen, size_limit, s0; cbn; lia)).
  destruct (add_loop _ _ _ _) as [[p m1]|f]; ostep; [|exact X]. cbn [fst snd] in *. destruct X as [Hi Hm].
  pose proof (inv_run json ls _ Hi) as Y. pose proof (made_run ls (mkSys p [] m1)) as Z.
  destruct (run ls _) as [s|f]; [|exact Y].
  destruct Y as [_ Hd Hu Hs Hb Hn]. unfold destroyed.
  assert (zlen (live s) <= made s) as Hle.
  { unfold made, zlen. apply inj_le. rewrite <- (length_seq (next_address (pool s)) 0).
    apply submseteq_length, NoDup_submseteq; [done|]. intros a Ha.
    rewrite Forall_forall in Hu. specialize (Hu a Ha). apply elem_of_seq. lia. }
  unfold size_limit in Hb. pose proof (zlen_nonneg (live s)). cbn [snd] in Z.
  assert (made s0 = 0) as Hm0 by done. rewrite Hm0 in Hm.
  split_and!; [done|specialize (Z s eq_refl); lia|lia..].
Qed.

(** ** Witness: a library whose connections always succeed *)

#[local] Instance demo_api : MYSQL_API unit := {
  mysql_init m := (Some 1, m);
  mysql_set_character_set _ _ m := m;
  mysql_real_connect _ _ _ _ _ _ m := (true, m);
  mysql_query _ _ m := (0, m);
  mysql_store_result _ m := (None, m);
  mysql_free_result _ m := m;
  mysql_fetch_row _ m := (None, m);
  mysql_num_fields _ _ := 0;
  mysql_fetch_lengths _ _ := [];
  mysql_autocommit _ _ m := (0, m);
  mysql_commit _ m := (0, m);
  mysql_rollback _ m := (0, m);
  mysql_close _ m := m
}.

Definition demo_conf : Config := mkConfig [] [] [] [] 3306 1 4 1000 10.

(** One connection, leased, and three turns of the producer: only one more
    is made, though [maxSize_] is 4. *)
Definition demo_labels : list label :=
  [Get; Produce 1; Get; Produce 2; Get; Produce 3; Get; GiveBack 0 4].

(** Only two connections are made and the counter is at the limit of 4. *)
Example demo_pool :
  match pool_run demo_conf 0 demo_labels tt with
  | Ret s => live s = [0%nat; 1%nat] /\ currentSize_ (pool s) = 4
  | Err _ => False
  end.
Proof. vm_compute. split; reflexivity. Qed.

End MysqlProps.
