(* ===== verification/Echo.v ===== *)
(** * The echo servers ([src/example/echoServer.cc], [echoServerAsync.cc])

    Both programs register the same callbacks with a [TcpServer]; the second
    one sends its log to an [AsyncLogging]. *)

From S2P Require Import Prelude Buffer Channel Poller EventLoop Socket TcpConnection Threads TcpServer Timer Logger AsyncLogging.

Module EchoServer.

Inductive echo_cb := OnConnectionCb | OnMessageCb.

Record EchoServer (Cb : Type) := mkEchoServer {
  loop_ : Z;
  server_ : TcpServer.TcpServer echo_cb Cb
}.
Arguments mkEchoServer {Cb}.
Arguments loop_ {Cb}.
Arguments server_ {Cb}.

Definition new_EchoServer {Cb} (inet_ntop : Z -> bytes) (loop : Z)
    (addr : InetAddress.InetAddress) (name : bytes) (sockfd bind_ret : Z)
    : outcome (EchoServer Cb) :=
  '(s, _) ← TcpServer.new_TcpServer inet_ntop (Some loop) addr name TcpServer.kNoReusePort
              sockfd bind_ret;
  mret (mkEchoServer loop
          (TcpServer.setMessageCallback (Some OnMessageCb)
            (TcpServer.setConnectionCallback (Some OnConnectionCb) s))).

(** [start]: the [TcpServer] of [h] is the server of the world. *)
Definition start {Cb P E S} `{Channel.POLLER P, EVENTFD E}
    (startLoop : Z -> EventLoopThread.EventLoopThread Cb -> Z * EventLoopThread.EventLoopThread Cb)
    (numCreated_ tid acc_self listen_ret : Z) (h : EchoServer Cb)
    (w : TcpServer.World echo_cb Cb P E S) :=
  TcpServer.start startLoop numCreated_ tid acc_self listen_ret
    (TcpServer.set_server (server_ h) w).

Section Callbacks.
Context {U P E S R : Type} `{Channel.POLLER P, EVENTFD E, SOCKET S}.
Implicit Types e : TcpConnection.Env U P E S R.
(** The connection, and the thread its callbacks run on. *)
Context (inet_ntop : Z -> bytes) (self tid : Z).

(** [onConnection]: the operands of its log statement. *)
Definition onConnection e : outcome (list bytes) :=
  let conn := TcpConnection.conn e in
  peer ← InetAddress.toIpPort inet_ntop (TcpConnection.peerAddress conn);
  mret [if TcpConnection.connected conn then str "Connection UP : " else str "Connection DOWN : ";
        c_str peer].

(** [onMessage(conn, &inputBuffer_, time)]; [ptr] is the address of [msg].
    The operands of the log statement of [echoServer.cc] come first. *)
Definition onMessage (localtime : Z -> Timestamp.tm) (ptr : Z) (time : Timestamp.Timestamp) e
    : outcome (list bytes * TcpConnection.Env U P E S R) :=
  '(msg, buf) ← Buffer.retrieveAllAsString (TcpConnection.inputBuffer_ (TcpConnection.conn e));
  let e1 := TcpConnection.upd_conn (TcpConnection.set_inputBuffer buf) e in
  let log := [TcpConnection.name (TcpConnection.conn e); str " echo "; fmt_u (zlen msg);
              str " bytes, "; str "data received at ";
              Timestamp.toFormattedString localtime false time] in
  e2 ← TcpConnection.send self tid ptr msg e1;
  mret (log, e2).

End Callbacks.

(** [main] up to [loop.loop()]. *)
Definition main_server {Cb} (inet_ntop : Z -> bytes) (loop sockfd bind_ret : Z)
    : outcome (EchoServer Cb) :=
  new_EchoServer inet_ntop loop (InetAddress.new_InetAddress 8080 (str "127.0.0.1"))
    (str "EchoServer") sockfd bind_ret.

(** ** The asynchronous log of [echoServerAsync.cc] *)

Definition kRollSize : Z := 500 * 1000 * 1000.

(** [asyncOutput] appends through the global pointer; it is an output function
    of [Logging]. *)
Definition asyncOutput (storage : bytes)
    : @Logging.OutputFunc (option AsyncLogging.AsyncLogging) :=
  fun msg len g_asyncLog =>
    a ← deref NullDeref g_asyncLog;
    a ← AsyncLogging.append kLargeBuffer storage msg len a;
    mret (Some a).

(** [strncpy(name, argv0, 256)] and [::basename]: [basename] is the C
    library's. *)
Definition setLogging (basename : bytes -> bytes) (argv0 storage1 storage2 : bytes)
    (g : @Logging.Globals (option AsyncLogging.AsyncLogging))
    : bytes * @Logging.Globals (option AsyncLogging.AsyncLogging) :=
  let g := Logging.setOutput (asyncOutput storage1) g in
  let name := take 256 argv0 in
  let a := AsyncLogging.set_running true
             (AsyncLogging.new_AsyncLogging kLargeBuffer storage1 storage2) in
  (basename name, Logging.mkGlobals (Logging.g_logLevel g) (Logging.g_output g)
                    (Logging.g_flush g) (Some a)).

(** ** The property *)

(** On its loop thread the echo server's message callback sends back
    exactly the bytes it received: whatever the socket accepts at once, bytes
    already sent or still buffered followed by the received ones reach the
    peer in order (or the program has aborted in [LOG_FATAL]), and the input
    buffer is left empty. *)
Theorem echo_server_echoes {U P E S R : Type} `{Channel.POLLER_LAWS P, EVENTFD E, SOCKET_LAWS S}
    (self : Z) (a : bytes) (localtime : Z -> Timestamp.tm) (ptr : Z) (time : Timestamp.Timestamp)
    (e : TcpConnection.Env U P E S R) :
  TcpConnection.no_reset (S := S) -> TcpConnection.refines_pipe (a, false) e ->
  let b := TcpConnection.inputBuffer_ (TcpConnection.conn e) in
  Buffer.wf b -> zlen (Buffer.content b) < 2 ^ 31 ->
  zlen (Buffer.buffer_ (TcpConnection.outputBuffer_ (TcpConnection.conn e))) +
    zlen (Buffer.content b) <= Buffer.max_size ->
  match onMessage self (EventLoop.threadId_ (TcpConnection.loop e)) localtime ptr time e with
  | Err f => TcpConnection.aborts (P := P) f
  | Ret (_, e') =>
      TcpConnection.refines_pipe (a ++ Buffer.content b, false) e' /\
      Buffer.content (TcpConnection.inputBuffer_ (TcpConnection.conn e')) = []
  end.
Proof.
  intros Hr Href b W Hl Hm. unfold onMessage. fold b.
  rewrite Buffer.retrieveAllAsString_ok by done. ostep.
  set (e1 := TcpConnection.upd_conn _ e).
  assert (TcpConnection.refines_pipe (a, false) e1) as Href1 by exact Href.
  pose proof (TcpConnection.send_pipe self (a, false) ptr (Buffer.content b) e1 Hr Href1 Hl Hm) as X.
  change (TcpConnection.loop e1) with (TcpConnection.loop e) in X.
  destruct (TcpConnection.send _ _ _ _ _) as [e2|f]; ostep; [|done].
  destruct X as (X1 & _ & _ & X2). split; [done|]. rewrite X2. apply Buffer.content_retrieveAll.
Qed.

(** A connection with a message in its input buffer. *)
Definition demo_e (message : bytes) : TcpConnection.demo_env :=
  TcpConnection.set_sock (TcpConnection.mkTcpSocket [] false [3; 1000] [])
    (TcpConnection.upd_conn
       (TcpConnection.set_inputBuffer
          (Buffer.mkBuffer (str "........" ++ message) 8 (8 + zlen message)))
       TcpConnection.demo_w).

Lemma echo_server_echoes_witness :
  match onMessage 5 1 (fun _ => LoggerProps.demo_tm) 100 (Timestamp.mkTimestamp 7)
          (demo_e (str "hello")) with
  | Ret (_, e') => TcpConnection.refines_pipe (str "hello", false) e'
  | Err _ => False
  end.
Proof.
  pose proof (echo_server_echoes 5 [] (fun _ => LoggerProps.demo_tm) 100 (Timestamp.mkTimestamp 7)
    (demo_e (str "hello"))) as X.
  change (EventLoop.threadId_ (TcpConnection.loop (demo_e (str "hello")))) with 1 in X.
  destruct (onMessage _ _ _ _ _ (demo_e (str "hello"))) as [[log e']|f] eqn:Ee.
  - apply X.
    + exact TcpConnection.tcp_no_reset.
    + split_and!; try reflexivity; vm_compute; split_and!; reflexivity || discriminate.
    + vm_compute. split_and!; discriminate.
    + vm_compute. reflexivity.
    + vm_compute. discriminate.
  - exfalso. revert Ee. vm_compute. discriminate.
Defined.

End EchoServer.
