(* ===== verification/LogService.v ===== *)
(** * The log of [echoServerAsync.cc], end to end ([src/logger/*],
    [src/example/echoServerAsync.cc])

    [setLogging] makes [AsyncLogging::append] the output of every log
    statement.  A [Program] is the logging side of such a program: the
    globals of [Logging], with the front end as the state of the output
    function, the back-end thread with its [LogFile], and each thread's
    [ThreadInfo].  Threads execute log statements in any order, and the back
    end gets on in between; a statement reaches the shared state in one
    critical section, the one of [append]. *)

From S2P Require Import Prelude Timer Logger AsyncLogging Echo.

Module LogService.
Import LogStream LogStreamLemmas Logging LoggingLemmas.
Import FileUtil LogFile LogFileLemmas LogFileSink.
Import AsyncLogging AsyncLemmas.

(** A log statement: the level of its macro, what the clocks and [localtime]
    gave, its position (the path of the file up to the last slash, its base
    name, the line and the function) and its operands, with the text they are
    to write. *)
Record Statement := mkStatement {
  level : LogLevel;
  clock : Clock;
  dir : bytes;
  base : bytes;
  line : Z;
  func : bytes;
  operands : LogStream -> outcome LogStream;
  operand_text : bytes
}.

Definition file (st : Statement) : bytes := dir st ++ "/"%char :: base st.

Section Program.
(** The file system and the clock of the back end. *)
Context (env : FileUtil.Env).
Abbreviation Output := (LogFile * IO)%type.
Abbreviation globals_t := (@Globals (option AsyncLogging)).

#[local] Instance file_sink : LOG_SINK Output := LogFile_sink env.

(** The macro of the level; there is none for [TRACE]. *)
Definition log (st : Statement) (th : ThreadInfo) (g : globals_t)
    : outcome (ThreadInfo * (globals_t * bool)) :=
  match level st with
  | DEBUG => LOG_DEBUG (clock st) th (file st) (line st) (func st) (operands st) g
  | INFO => LOG_INFO (clock st) th (file st) (line st) (operands st) g
  | WARN => LOG_WARN (clock st) th (file st) (line st) (operands st) g
  | ERROR => LOG_ERROR (clock st) th (file st) (line st) (operands st) g
  | FATAL => LOG_FATAL (clock st) th (file st) (line st) (operands st) g
  | TRACE | LEVEL_COUNT => mret (th, (g, false))
  end.

Record Program := mkProgram {
  globals : globals_t;
  backend : @Back Output;
  threads : gmap Z ThreadInfo;
  aborted : bool
}.

Definition thread_info (tid : Z) (s : Program) : ThreadInfo :=
  default new_ThreadInfo (threads s !! tid).

(** The globals of [Logging] before [main]; the standard output is not part of
    the state. *)
Definition default_globals : globals_t :=
  mkGlobals initLogLevel (fun _ _ w => mret w) (fun w => mret w) None.

(** [setLogging(argv[0])], the back-end thread having constructed its locals;
    [s1] to [s4] are what the four buffers find in their storage. *)
Definition start (basename : bytes -> bytes) (argv0 s1 s2 s3 s4 : bytes) : outcome Program :=
  let '(name, g1) := EchoServer.setLogging basename argv0 s1 s2 default_globals in
  output ← new_LogFile env name EchoServer.kRollSize 0 1024 new_IO;
  mret (mkProgram g1 (enter kLargeBuffer s3 s4 (mkBack NotStarted None None [] output)) ∅ false).

(** A thread executes a log statement; the level is set; the log is stopped;
    the back end gets to its next blocking or observable point. *)
Inductive event :=
  | Log (tid : Z) (st : Statement)
  | SetLevel (l : LogLevel)
  | StopLog
  | BackEnd.

Definition set_front (a : AsyncLogging) (g : globals_t) : globals_t :=
  mkGlobals (g_logLevel g) (g_output g) (g_flush g) (Some a).

Definition happen (ev : event) (s : Program) : outcome Program :=
  if aborted s then mret s else
  match ev with
  | Log tid st =>
      '(th, (g, b)) ← log st (thread_info tid s) (globals s);
      mret (mkProgram g (backend s) (<[tid := th]> (threads s)) b)
  | SetLevel l => mret (mkProgram (setLogLevel l (globals s)) (backend s) (threads s) false)
  | StopLog =>
      a ← deref NullDeref (world (globals s));
      mret (mkProgram (set_front (set_running false a) (globals s)) (backend s) (threads s) false)
  | BackEnd =>
      a ← deref NullDeref (world (globals s));
      '(a, b) ← tick kLargeBuffer a (backend s);
      mret (mkProgram (set_front a (globals s)) b (threads s) false)
  end.

Fixpoint happens (evs : list event) (s : Program) : outcome Program :=
  match evs with
  | [] => mret s
  | ev :: evs => s ← happen ev s; happens evs s
  end.

(** What the files hold, in the order they were made. *)
Definition on_file (s : Program) : bytes := contents (fst (output (backend s))) (snd (output (backend s))).

(** ** The records of a run *)

(** [LOG_DEBUG] writes the function's name first. *)
Definition prefix (st : Statement) : bytes :=
  match level st with DEBUG => func st ++ [" "%char] | _ => [] end.

(** What a statement hands to the output. *)
Definition record (st : Statement) : bytes :=
  padded (record_text (clock st) (level st) (prefix st ++ operand_text st) (base st) (line st)).

(** Whether it does, at the level [l]. *)
Definition enabled (l : LogLevel) (st : Statement) : bool :=
  match level st with
  | DEBUG | INFO => level_num l <=? level_num (level st)
  | WARN | ERROR | FATAL => true
  | TRACE | LEVEL_COUNT => false
  end.

Definition fatal (st : Statement) : bool := level_num (level st) =? level_num FATAL.

(** The bytes the statements of a run log: nothing happens after a fatal
    one. *)
Fixpoint logged (l : LogLevel) (evs : list event) : bytes :=
  match evs with
  | [] => []
  | Log _ st :: evs =>
      (if enabled l st then record st else []) ++ (if fatal st then [] else logged l evs)
  | SetLevel l' :: evs => logged l' evs
  | (StopLog | BackEnd) :: evs => logged l evs
  end.

(** A statement that can be executed: its operands write their text, and the
    record fits its buffer. *)
Record valid (st : Statement) : Prop := mkValid {
  v_clock : clock_valid (clock st);
  v_base : "/"%char ∉ base st;
  v_line : in_range64 (line st);
  v_func : NUL ∉ func st;
  v_operands : LoggingLemmas.writes (operands st) ((stamp (clock st) ++ level_name (level st)) ++ prefix st) (operand_text st);
  v_fits : zlen (prefix st ++ operand_text st) + zlen (base st) + 82 <= kSmallBuffer
}.

Definition event_ok (ev : event) : Prop :=
  match ev with Log _ st => valid st | _ => True end.


(** ** One statement *)

Lemma record_size st : valid st -> zlen (record st) = kSmallBuffer.
Proof.
  intros [Hc _ Hl _ _ Hf]. unfold record, padded. rewrite zlen_app. apply zlen_pad.
  assert (zlen (stamp (clock st)) = 24) by (unfold zlen; by rewrite stamp_length).
  assert (zlen (level_name (level st)) <= 6) by (by destruct (level st)).
  pose proof (fmt_d_length64 (line st) ltac:(unfold in_range64 in *; lia)).
  unfold record_text, source_text. rewrite !zlen_app, zlen_cons, zlen_app, zlen_cons, zlen_nil.
  change (zlen (str " - ")) with 3. rewrite zlen_app in Hf. unfold kSmallBuffer in *. lia.
Qed.

(** The function's name and a space are operands like the others. *)
Lemma statement_func {W} (c : Clock) th f l fn n operands (g : @Globals W) :
  statement (Logger4 c th f n l fn) operands g =
  statement (new_Impl c th l 0 f n)
    (fun s => s ← shl_cstr (Some (fn ++ [NUL])) s; s ← shl_char " "%char s; operands s) g.
Proof.
  unfold statement, Logger4. destruct (new_Impl _ _ _ _ _ _) as [[th' i]|]; [|done]. ostep.
  destruct (shl_cstr _ _) as [s1|]; [|done]. ostep. destruct (shl_char _ _) as [s2|]; [|done]. ostep.
  change (stream_ (set_stream s2 i)) with s2. by destruct (operands s2).
Qed.

(** The function and the operands of a statement write [prefix] and text. *)
Definition all_operands (st : Statement) : LogStream -> outcome LogStream :=
  match level st with
  | DEBUG => fun s => s ← shl_cstr (Some (func st ++ [NUL])) s; s ← shl_char " "%char s; operands st s
  | _ => operands st
  end.

Lemma all_operands_write st : valid st ->
  LoggingLemmas.writes (all_operands st) (stamp (clock st) ++ level_name (level st)) (prefix st ++ operand_text st).
Proof.
  intros [Hc _ _ Hfn Ho Hf]. unfold LoggingLemmas.writes, all_operands, prefix in *.
  assert (zlen (stamp (clock st)) = 24) as Hs by (unfold zlen; by rewrite stamp_length).
  assert (zlen (level_name (level st)) <= 6) as Hl by (by destruct (level st)).
  rewrite app_assoc. destruct (level st); rewrite ?app_nil_r in *; try exact Ho.
  pose proof (zlen_nonneg (operand_text st)). pose proof (zlen_nonneg (base st)).
  rewrite !zlen_app, zlen_cons, zlen_nil in Hf. unfold kSmallBuffer in Hf.
  rewrite shl_cstr_clean by (done || (rewrite zlen_app; unfold kSmallBuffer; lia)). ostep.
  rewrite shl_char_clean by (rewrite !zlen_app; unfold kSmallBuffer; lia). ostep.
  rewrite <- !app_assoc in *. exact Ho.
Qed.

(** What a statement does to the globals. *)
Lemma log_ok st th (g : globals_t) : valid st -> length (t_time th) = 64%nat ->
  log st th g =
    if enabled (g_logLevel g) st then
      w ← g_output g (record st) kSmallBuffer (world g);
      w ← (if fatal st then g_flush g w else mret w);
      mret (after_time (clock st) th, (mkGlobals (g_logLevel g) (g_output g) (g_flush g) w, fatal st))
    else mret (th, (g, false)).
Proof.
  intros V Hth. pose proof (all_operands_write st V) as Ho. destruct V as [Hc Hb Hl _ _ Hf].
  assert (level st <> LEVEL_COUNT -> statement (new_Impl (clock st) th (level st) 0 (file st) (line st))
      (all_operands st) g =
    (w ← g_output g (record st) kSmallBuffer (world g);
     w ← (if fatal st then g_flush g w else mret w);
     mret (after_time (clock st) th, (mkGlobals (g_logLevel g) (g_output g) (g_flush g) w, fatal st)))) as S.
  { intros Hn. by apply (statement_ok _ _ _ _ _ _ _ _ (dir st)). }
  unfold log, enabled. unfold all_operands in S. destruct (level st) eqn:El; try done;
    unfold LOG_DEBUG, LOG_INFO, LOG_WARN, LOG_ERROR, LOG_FATAL, logLevel, Logger2, Logger3;
    rewrite ?statement_func, S by done; unfold fatal; rewrite El; [|done..]; by case_ifs.
Qed.

(** ** A program is an [AsyncLogging] system *)

(** What the events are for it; [s1] is the storage a new buffer finds. *)
Fixpoint labels_of (s1 : bytes) (l : LogLevel) (evs : list event) : list label :=
  match evs with
  | [] => []
  | Log _ st :: evs =>
      (if enabled l st then [Append s1 (record st)] else []) ++ (if fatal st then [] else labels_of s1 l evs)
  | SetLevel l' :: evs => labels_of s1 l' evs
  | StopLog :: evs => Stop :: labels_of s1 l evs
  | BackEnd :: evs => Tick :: labels_of s1 l evs
  end.

Record runs_as (s1 : bytes) (p : Program) (y : @Sys Output) : Prop := mkRunsAs {
  r_front : world (globals p) = Some (front y);
  r_back : backend p = back y;
  r_output : g_output (globals p) = EchoServer.asyncOutput s1;
  r_flush w : g_flush (globals p) w = Ret w;
  r_threads tid : length (t_time (thread_info tid p)) = 64%nat
}.

Lemma after_time_length c th : clock_valid c -> length (t_time th) = 64%nat ->
  length (t_time (after_time c th)) = 64%nat.
Proof.
  intros [_ Htm] Hth. unfold after_time. cbn [t_time]. rewrite sprint_length; [done|].
  rewrite date_text_split, length_app, minute_text_length, second_text_length by done. lia.
Qed.

Lemma happens_aborted evs : forall p, aborted p = true -> happens evs p = Ret p.
Proof. induction evs as [|ev evs IH]; intros p Ha; simpl; [done|]. unfold happen. rewrite Ha. ostep. by apply IH. Qed.

Lemma fatal_enabled l st : enabled l st = false -> fatal st = false.
Proof. unfold enabled, fatal. by destruct (level st). Qed.

Lemma threads_length p tid th : (forall tid, length (t_time (thread_info tid p)) = 64%nat) ->
  length (t_time th) = 64%nat ->
  forall g b a tid', length (t_time (thread_info tid' (mkProgram g b (<[tid := th]> (threads p)) a))) = 64%nat.
Proof.
  intros Hp Hth g b a tid'. unfold thread_info in *. simpl. destruct (decide (tid = tid')) as [->|Hne].
  - by rewrite lookup_insert_eq.
  - rewrite lookup_insert_ne by done. apply Hp.
Qed.

Lemma output_append s1 r a a' : AsyncLogging.append kLargeBuffer s1 r kSmallBuffer a = Ret a' ->
  EchoServer.asyncOutput s1 r kSmallBuffer (Some a) = Ret (Some a').
Proof. intros E. unfold EchoServer.asyncOutput. ostep. by rewrite E. Qed.

Lemma happens_as s1 evs : forall p y y',
  runs_as s1 p y -> aborted p = false -> Forall event_ok evs ->
  AsyncLogging.run kLargeBuffer (labels_of s1 (g_logLevel (globals p)) evs) y = Ret y' ->
  exists p', happens evs p = Ret p' /\ runs_as s1 p' y'.
Proof.
  induction evs as [|ev evs IH]; intros p y y' R Ha Hok Hrun; [injection Hrun as <-; by exists p|].
  apply Forall_cons in Hok as [Hev Hok]. cbn [happens]. unfold happen. rewrite Ha. destruct ev as [tid st|l| |]; cbn [labels_of] in Hrun.
  - rewrite (log_ok st _ _ Hev) by apply R. destruct R as [Rf Rb Ro Rl Rt].
    destruct (enabled _ st) eqn:Een.
    + rewrite Ro, Rf. cbn [app run step] in Hrun.
      apply bind_Ret in Hrun as (y1 & Hy1 & Hrun). apply bind_Ret in Hy1 as (a & Ha1 & [= <-]).
      rewrite (record_size st Hev) in Ha1.
      rewrite (output_append _ _ _ _ Ha1). ostep.
      assert ((if fatal st then g_flush (globals p) (Some a) else mret (Some a)) = Ret (Some a)) as ->
        by (rewrite Rl; by destruct (fatal st)). ostep.
      set (p1 := mkProgram _ _ _ _). set (y1 := mkSys a _ _ _) in Hrun.
      assert (runs_as s1 p1 y1) as R1 by (split; try done; intros; apply threads_length; [done|apply after_time_length; [apply Hev|done]]).
      destruct (fatal st) eqn:Ef; [|by apply (IH _ _ _ R1)].
      rewrite happens_aborted by done. injection Hrun as <-. eauto.
    + rewrite (fatal_enabled _ _ Een) in Hrun. ostep. eapply IH; [|reflexivity|exact Hok|exact Hrun].
      split; try done. intros. by apply threads_length.
  - eapply IH; [|reflexivity|exact Hok|exact Hrun]. destruct R. by split.
  - rewrite (r_front _ _ _ R). ostep. cbn [run step] in Hrun.
    eapply IH; [|reflexivity|exact Hok|exact Hrun]. destruct R. by split.
  - rewrite (r_front _ _ _ R), (r_back _ _ _ R). ostep. cbn [run step] in Hrun.
    apply bind_Ret in Hrun as (y1 & Hy1 & Hrun). apply bind_Ret in Hy1 as ([a b] & Ht & [= <-]).
    rewrite Ht. ostep. eapply IH; [|reflexivity|exact Hok|exact Hrun]. destruct R. by split.
Qed.


(** *** What the labels take *)

Lemma labels_taken s1 evs : forall l, Forall event_ok evs ->
  concat (label_taken kLargeBuffer <$> labels_of s1 l evs) = logged l evs.
Proof.
  induction evs as [|ev evs IH]; intros l Hok; [done|]. apply Forall_cons in Hok as [Hev Hok].
  destruct ev as [tid st|l'| |]; cbn [labels_of logged]; try by apply IH.
  rewrite fmap_app, concat_app. f_equal; [|destruct (fatal st); [done|by apply IH]].
  destruct (enabled l st); [|done]. simpl. unfold taken. rewrite (record_size st Hev), app_nil_r. done.
Qed.

Lemma labels_length s1 evs : forall l, (length (labels_of s1 l evs) <= length evs)%nat.
Proof.
  induction evs as [|ev evs IH]; intros l; [simpl; lia|]. destruct ev as [tid st|l'| |]; cbn [labels_of length].
  - rewrite length_app. destruct (enabled l st), (fatal st); cbn [length]; pose proof (IH l); lia.
  - pose proof (IH l'). lia.
  - pose proof (IH l). lia.
  - pose proof (IH l). lia.
Qed.

Lemma labels_ok s1 evs : forall l, zlen s1 = kLargeBuffer -> Forall event_ok evs ->
  Forall (label_ok kLargeBuffer) (labels_of s1 l evs) /\
  filter (fun l => is_start l = true) (labels_of s1 l evs) = [].
Proof.
  induction evs as [|ev evs IH]; intros l Hs Hok; [by split|]. apply Forall_cons in Hok as [Hev Hok].
  destruct ev as [tid st|l'| |]; cbn [labels_of]; [| |rewrite filter_cons_False by done..];
    try (destruct (IH l Hs Hok); split; [by constructor|done]); [|by apply IH].
  destruct (IH l Hs Hok) as [H1 H2]. rewrite Forall_app, filter_app.
  destruct (enabled l st), (fatal st); simpl; rewrite ?H2; split; try done; split; try done;
    repeat constructor; by rewrite ?(record_size st Hev).
Qed.

Lemma start_ok basename argv0 s1 s2 s3 s4 : env_ok env -> exists p o,
  start basename argv0 s1 s2 s3 s4 = Ret p /\ aborted p = false /\ g_logLevel (globals p) = INFO /\
  runs_as s1 p (mkSys (set_running true (new_AsyncLogging kLargeBuffer s1 s2))
    (enter kLargeBuffer s3 s4 (mkBack NotStarted None None [] o)) [] []) /\
  sink_ok o /\ sink_contents o = [].
Proof.
  intros He. unfold start, EchoServer.setLogging. cbn [fst snd].
  destruct (new_LogFile_ok env (basename (take 256 argv0)) EchoServer.kRollSize 0 1024 new_IO He)
    as (l & io & -> & Hw & Hc & _); [unfold EchoServer.kRollSize; lia|done|]. ostep.
  do 2 eexists. split; [done|]. by split_and!.
Qed.

Lemma run_sys evs p o s1 s2 s3 s4 :
  runs_as s1 p (mkSys (set_running true (new_AsyncLogging kLargeBuffer s1 s2))
    (enter kLargeBuffer s3 s4 (mkBack NotStarted None None [] o)) [] []) ->
  env_ok env -> aborted p = false -> g_logLevel (globals p) = INFO -> sink_ok o -> sink_contents o = [] ->
  zlen s1 = kLargeBuffer -> Forall event_ok evs ->
  kLargeBuffer * Z.of_nat (S (length evs)) < 2 ^ 62 ->
  exists p' y, happens evs p = Ret p' /\ runs_as s1 p' y /\
    inv kLargeBuffer (S (length evs)) y /\ accepted y = logged INFO evs.
Proof.
  intros R He Ha Hl Ho Hc Hs Hok Hn. set (y0 := mkSys _ _ _ _) in R.
  pose proof (LogFile_sink_laws env He) as Laws. assert (0 < kLargeBuffer < 2 ^ 31) as HS by done.
  assert (AsyncLogging.run kLargeBuffer [Start s3 s4] (initial kLargeBuffer s1 s2 o) = Ret y0) as E0 by done.
  destruct (labels_ok s1 evs INFO Hs Hok) as [L1 L2]. pose proof (labels_length s1 evs INFO) as L3.
  destruct (run_ok kLargeBuffer HS (Start s3 s4 :: labels_of s1 INFO evs) 0 (initial kLargeBuffer s1 s2 o))
    as (y & E & I).
  - by apply initial_ok.
  - by constructor.
  - rewrite filter_cons_True, L2 by done. done.
  - cbn [length]. unfold kLargeBuffer in *. lia.
  - cbn [AsyncLogging.run] in E, E0. apply bind_Ret in E0 as (y1 & E1 & [= ->]). rewrite E1 in E.
    cbn [mbind outcome_bind] in E. rewrite <- Hl in E.
    destruct (happens_as s1 evs p y0 y R Ha Hok E) as (p' & Ep & R').
    exists p', y. split_and!; [done|done| |].
    + eapply inv_mono; [|exact I]. cbn [length]. lia.
    + rewrite (run_accepted _ _ _ _ E). simpl. rewrite Hl. by apply labels_taken.
Qed.

End Program.

(** ** Properties *)

(** C19: the log of the asynchronous echo server, end to end, while the disk
    takes something of every write: every [fopen] succeeds and every [fwrite]
    takes at least one byte ([append_loop_spins] shows what happens
    otherwise), the clock being past the epoch.  Whatever threads execute log
    statements - each of which has a record that fits the 4000 bytes of its
    buffer, and operands that print their text, unlike the [operator<<] of
    [double], which does not return - in any order with the back end's work,
    changes of the level and a stop: nothing faults, and what the enabled
    statements logged is, record by record and in the order of their appends,
    the text of the buffers written to the files (which hold the whole storage
    of those buffers), of those being written, of those queued and of the
    current one.  When the back end is at the start of its loop, one turn
    later everything logged before is on file. *)
Theorem log_service_delivers env basename argv0 s1 s2 s3 s4 evs
  (Henv : env_ok env) (Hs1 : zlen s1 = kLargeBuffer) (Hok : Forall event_ok evs)
  (Hn : kLargeBuffer * Z.of_nat (length evs + 5) < 2 ^ 62) :
  exists p0 p a bufs,
    start env basename argv0 s1 s2 s3 s4 = Ret p0 /\ happens env evs p0 = Ret p /\
    world (globals p) = Some a /\
    logged INFO evs = concat (text <$> bufs) ++ texts (buffersToWrite (backend p)) ++
      texts (buffers_ a) ++ texts [currentBuffer_ a] /\
    on_file p = concat (FixedBuffer.data_ <$> bufs) /\
    (aborted p = false -> running_ a = true -> pc (backend p) = Test ->
     exists p' bufs', happens env [BackEnd; BackEnd; BackEnd; BackEnd] p = Ret p' /\
       logged INFO evs = concat (text <$> bufs') /\
       on_file p' = concat (FixedBuffer.data_ <$> bufs')).
Proof.
  destruct (start_ok env basename argv0 s1 s2 s3 s4 Henv) as (p0 & o & -> & Ha & Hl & R & Ho & Hc).
  destruct (run_sys env evs p0 o s1 s2 s3 s4 R) as (p & y & Ep & R' & I & Hacc); try done;
    [unfold kLargeBuffer in *; lia|].
  pose proof (LogFile_sink_laws env Henv) as Laws. assert (0 < kLargeBuffer < 2 ^ 31) as HS by done.
  exists p0, p, (front y), (written y). split_and!; [done|done|apply R'| | |].
  - rewrite <- Hacc, (inv_accepted _ _ _ I), (r_back _ _ _ R'). done.
  - unfold on_file. rewrite (r_back _ _ _ R'). apply (inv_contents _ _ _ I).
  - intros Hab Hr Hpc. rewrite (r_back _ _ _ R') in Hpc.
    destruct (turn_writes_all kLargeBuffer HS _ y I) as (y' & Ey & I' & _ & Hw);
      [unfold kLargeBuffer in *; lia|done|done|].
    destruct (happens_as env s1 [BackEnd; BackEnd; BackEnd; BackEnd] p y y' R' Hab) as (p' & Ep' & R2);
      [by repeat constructor|exact Ey|].
    exists p', (written y'). split_and!; [done|by rewrite <- Hacc|].
    unfold on_file. rewrite (r_back _ _ _ R2). apply (inv_contents _ _ _ I').
Qed.

(** A fatal statement ends the program with its record in the front end:
    [setLogging] leaves [g_flush] flushing the standard output, and nothing
    moves the record to the file. *)
Lemma fatal_record_lost env basename argv0 s1 s2 s3 s4 evs tid st
  (Henv : env_ok env) (Hs1 : zlen s1 = kLargeBuffer) (Hok : Forall event_ok evs)
  (Hst : valid st) (Hfatal : level st = FATAL)
  (Hn : kLargeBuffer * Z.of_nat (length evs + 5) < 2 ^ 62) :
  exists p0 p, start env basename argv0 s1 s2 s3 s4 = Ret p0 /\ happens env evs p0 = Ret p /\
    (aborted p = false -> exists p', happens env [Log tid st] p = Ret p' /\
       aborted p' = true /\ on_file p' = on_file p /\ forall evs', happens env evs' p' = Ret p').
Proof.
  destruct (start_ok env basename argv0 s1 s2 s3 s4 Henv) as (p0 & o & -> & Ha & Hl & R & Ho & Hc).
  destruct (run_sys env evs p0 o s1 s2 s3 s4 R) as (p & y & Ep & R' & I & Hacc); try done;
    [unfold kLargeBuffer in *; lia|].
  pose proof (LogFile_sink_laws env Henv) as Laws. assert (0 < kLargeBuffer < 2 ^ 31) as HS by done.
  exists p0, p. split_and!; [done|done|]. intros Hab.
  destruct (front_append_ok kLargeBuffer HS s1 (record st) (front y)) as (a & Eap & _);
    [apply I|done|by rewrite record_size|]. rewrite record_size in Eap by done.
  destruct R' as [Rf _ Rout Rl Rt].
  assert (log st (thread_info tid p) (globals p) = Ret (after_time (clock st) (thread_info tid p),
    (mkGlobals (g_logLevel (globals p)) (g_output (globals p)) (g_flush (globals p)) (Some a), true))) as El.
  { rewrite log_ok by done. unfold enabled, fatal. rewrite Hfatal, Rout, Rf. simpl.
    rewrite (output_append _ _ _ _ Eap). ostep. by rewrite Rl. }
  exists (mkProgram (mkGlobals (g_logLevel (globals p)) (g_output (globals p)) (g_flush (globals p)) (Some a))
    (backend p) (<[tid := after_time (clock st) (thread_info tid p)]> (threads p)) true).
  split_and!; [|done|done|intros evs'; by apply happens_aborted].
  cbn [happens]. unfold happen. rewrite Hab, El. by ostep.
Qed.
(** *** Two threads log; the second one's statement is below the level. *)

Definition demo_statement (l : LogLevel) : Statement :=
  mkStatement l LoggerProps.demo_clock (str "/srv/net") (str "echo.cc") 60 (str "main")
    LoggerProps.demo_operands (str "pid = -42").

Lemma demo_valid l : l <> TRACE -> l <> LEVEL_COUNT -> valid (demo_statement l).
Proof.
  intros H1 H2. split; cbn -[in_range64].
  - exact LoggerProps.demo_clock_valid.
  - apply (bool_decide_unpack _). vm_compute. exact Logic.I.
  - unfold in_range64. lia.
  - apply (bool_decide_unpack _). vm_compute. exact Logic.I.
  - by destruct l; vm_compute.
  - by destruct l; vm_compute.
Qed.

Definition demo_events : list event :=
  [Log 1 (demo_statement INFO); Log 2 (demo_statement DEBUG); BackEnd; SetLevel DEBUG;
   Log 2 (demo_statement DEBUG); BackEnd].

Definition demo_storage : bytes := replicate (Z.to_nat kLargeBuffer) "?"%char.

Lemma log_service_delivers_witness : exists p0 p a bufs,
  start AsyncLoggingProps.demo_env id (str "echo") demo_storage [] [] [] = Ret p0 /\
  happens AsyncLoggingProps.demo_env demo_events p0 = Ret p /\ world (globals p) = Some a /\
  padded (str "2022/10/26 21:30:000456 INFO  pid = -42 - echo.cc:60" ++ [LF]) ++
    padded (str "2022/10/26 21:30:000456 DEBUG main pid = -42 - echo.cc:60" ++ [LF]) =
  concat (text <$> bufs) ++ texts (buffersToWrite (backend p)) ++
    texts (buffers_ a) ++ texts [currentBuffer_ a].
Proof.
  destruct (log_service_delivers AsyncLoggingProps.demo_env id (str "echo") demo_storage [] [] [] demo_events)
    as (p0 & p & a & bufs & H1 & H2 & H3 & H4 & _).
  - exact AsyncLoggingProps.demo_env_ok.
  - unfold demo_storage. rewrite zlen_replicate. apply Z2Nat.id. unfold kLargeBuffer. lia.
  - repeat constructor; by apply demo_valid.
  - vm_compute. reflexivity.
  - exists p0, p, a, bufs. split_and!; [exact H1|exact H2|exact H3|]. rewrite <- H4. vm_compute. reflexivity.
Defined.

End LogService.
