(* ===== verification/Service.v ===== *)
(** * Services, end to end

    Servers of [Lifecycle] whose callbacks are those of
    [src/example/echoServer.cc]: the sessions of [Session] are computed for
    them, so that what their peers get is told without the network. *)

From S2P Require Import Prelude Buffer Channel Poller EventLoop Socket TcpConnection Threads TcpServer Lifecycle Session Http HttpServer Timer Logger Echo.

Module Service.
Import Lifecycle Session.

(** ** The echo service *)

Section Echo.
Context {V Cb K E S : Type} `{EPOLL K, EVENTFD E, SOCKET S}.
Implicit Types (e : TcpConnection.Env (TcpServer.conn_cb V) (EPollPoller.EPollPoller K) E S
  (TcpServer.World V Cb (EPollPoller.EPollPoller K) E S)).

(** What [Lifecycle.user] does for [echo] is what [EchoServer::onMessage]
    does, but for the log. *)
Lemma user_is_onMessage a v t localtime ptr time e :
  Buffer.wf (TcpConnection.inputBuffer_ (TcpConnection.conn e)) ->
  user echo a v (TcpConnection.OnMessage t) e =
    ('(_, e') ← EchoServer.onMessage a (EventLoop.threadId_ (TcpConnection.loop e)) localtime ptr time e;
     mret e').
Proof.
  intros W. unfold user, EchoServer.onMessage, echo. rewrite Buffer.retrieveAllAsString_ok by done. ostep.
  assert (Buffer.retrieve (zlen (Buffer.content (TcpConnection.inputBuffer_ (TcpConnection.conn e))))
    (TcpConnection.inputBuffer_ (TcpConnection.conn e)) =
    Buffer.retrieveAll (TcpConnection.inputBuffer_ (TcpConnection.conn e))) as ->.
  { unfold Buffer.retrieve. rewrite Buffer.readable_content by done. by rewrite Z.ltb_irrefl. }
  simpl. unfold TcpConnection.send, EventLoop.isInLoopThread. simpl. rewrite Z.eqb_refl.
  case_decide; [|done].
  match goal with |- (x ← ?m; mret x) = _ => by destruct m end.
Qed.

End Echo.

(** ** The HTTP service *)

Section Http.
Context (order : gmap bytes bytes -> list (bytes * bytes)).
Context (httpCallback : HttpRequest.HttpRequest -> HttpResponse.HttpResponse -> HttpResponse.HttpResponse).

Abbreviation response req := (HttpResponse.render order (HttpServer.response_to httpCallback req)).
Abbreviation closes req := (HttpResponse.closeConnection (HttpServer.response_to httpCallback req)).
Abbreviation bad_request := HttpServer.bad_request.
Abbreviation reply := (HttpServer.reply order httpCallback).

Definition rest_of (p : HttpContext.parsed) (s : bytes) : bytes :=
  match p with
  | HttpContext.NoLine | HttpContext.BadLine _ => s
  | HttpContext.Partial _ rest | HttpContext.Complete _ rest => rest
  end.

Definition http_actions (p : HttpContext.parsed) : list action :=
  match p with
  | HttpContext.NoLine | HttpContext.BadLine _ => [Send bad_request; Shutdown]
  | HttpContext.Partial _ _ => []
  | HttpContext.Complete req _ => Send (response req) :: (if closes req then [Shutdown] else [])
  end.

(** The callbacks [HttpServer] gives to its [TcpServer]. *)
Definition http (v : HttpServer.http_cb) (ev : TcpConnection.event) (s : bytes) : Z * list action :=
  match v, ev with
  | HttpServer.OnMessageCb, TcpConnection.OnMessage t =>
      let p := HttpContext.parse_message t s in (zlen s - zlen (rest_of p s), http_actions p)
  | _, _ => (0, [])
  end.

(** *** The program is [HttpServer::onMessage] *)

Section Program.
Context {Cb K E S : Type} `{EPOLL_LAWS K, EVENTFD E, SOCKET_LAWS S, !SOCKET_INPUT S, !SOCKET_INPUT_LAWS S}.
Implicit Types (e : TcpConnection.Env (TcpServer.conn_cb HttpServer.http_cb) (EPollPoller.EPollPoller K) E S
  (TcpServer.World HttpServer.http_cb Cb (EPollPoller.EPollPoller K) E S)).

Lemma send_then_shutdown a d e :
  do_actions a [Send d; Shutdown] e =
    (e' ← TcpConnection.send a (EventLoop.threadId_ (TcpConnection.loop e)) 0 d e;
     TcpConnection.shutdown a (EventLoop.threadId_ (TcpConnection.loop e)) e').
Proof.
  simpl. destruct (TcpConnection.send _ _ _ _ _) as [e1|] eqn:E1; [|done]. ostep.
  rewrite <- (k_thread _ _ (send_calm a 0 d e e1 E1)).
  by match goal with |- (x ← ?m; mret x) = _ => destruct m end.
Qed.

(** A response that fits is sent as it is rendered. *)
Lemma onRequest_is_send a req e : zlen (response req) < 2 ^ 31 ->
  HttpServer.onRequest order httpCallback a (EventLoop.threadId_ (TcpConnection.loop e)) req e =
    do_actions a (Send (response req) :: (if closes req then [Shutdown] else [])) e.
Proof.
  intros Hl. unfold HttpServer.onRequest. set (resp := HttpServer.response_to httpCallback req) in *.
  assert (Buffer.wf (Buffer.new_Buffer Buffer.kInitialSize)) as W0.
  { apply Buffer.wf_new. vm_compute. split; discriminate. }
  destruct (HttpResponse.appendToBuffer_ok order resp _ W0 Hl) as (buf & -> & W & C).
  { assert (zlen (Buffer.buffer_ (Buffer.new_Buffer Buffer.kInitialSize)) = 1032) as -> by
      (vm_compute; reflexivity). unfold Buffer.max_size. lia. }
  ostep. rewrite Buffer.content_new in C. cbn [app] in C.
  assert (('(_, e1) ← TcpConnection.send_Buffer a (EventLoop.threadId_ (TcpConnection.loop e)) buf e;
           mret e1) = TcpConnection.send a (EventLoop.threadId_ (TcpConnection.loop e)) 0 (HttpResponse.render order resp) e) as Es.
  { unfold TcpConnection.send_Buffer, TcpConnection.send, EventLoop.isInLoopThread. rewrite Z.eqb_refl.
    case_decide; [|done]. rewrite Buffer.read_content, C by done. ostep.
    match goal with |- ('(_, x) ← (y ← ?m; _); _) = _ => by destruct m end. }
  transitivity (e1 ← TcpConnection.send a (EventLoop.threadId_ (TcpConnection.loop e)) 0 (HttpResponse.render order resp) e;
    if HttpResponse.closeConnection resp
    then TcpConnection.shutdown a (EventLoop.threadId_ (TcpConnection.loop e)) e1 else mret e1).
  { rewrite <- Es. by destruct (TcpConnection.send_Buffer _ _ _ _) as [[]|]. }
  destruct (HttpResponse.closeConnection resp); [symmetry; apply send_then_shutdown|done].
Qed.

(** On a message, what [Lifecycle.user] does for [http] is what
    [HttpServer::onMessage] does. *)
Definition http_is_onMessage : Prop := forall a t fuel e,
  let i := TcpConnection.inputBuffer_ (TcpConnection.conn e) in
  Buffer.wf i -> Buffer.content i <> [] -> (length (Buffer.content i) + 1 < fuel)%nat ->
  (forall req rest, HttpContext.parse_message t (Buffer.content i) = HttpContext.Complete req rest ->
     zlen (response req) < 2 ^ 31) ->
  HttpServer.onMessage order httpCallback a (EventLoop.threadId_ (TcpConnection.loop e)) fuel 0 t e =
    (e' ← user http a HttpServer.OnMessageCb (TcpConnection.OnMessage t) e; mret (Some e')).

Lemma user_is_http_onMessage : http_is_onMessage.
Proof.
  intros a t fuel e i W Hn Hf Hresp. unfold HttpServer.onMessage, user. fold i. simpl.
  destruct (HttpContext.parseRequest_ok fuel t i W ltac:(lia)) as (c & buf & ok & Ep & Wb & O).
  pose proof (HttpContext.parseRequest_buffer _ _ _ _ _ _ _ W Hn Ep) as Eb. rewrite Ep. ostep.
  assert (ok = false -> buf = i) as Hfalse.
  { intros ->. by apply HttpContext.parseRequest_false in Ep. }
  destruct (HttpContext.parse_message t (Buffer.content i)) as [|r|r rest|r rest]; simpl in O.
  1,2: destruct O as [-> ->]; rewrite (Hfalse eq_refl) in *; simpl rest_of; rewrite <- Eb;
    unfold http_actions; rewrite send_then_shutdown;
    change (TcpConnection.loop (TcpConnection.upd_conn _ e)) with (TcpConnection.loop e);
    match goal with |- ?m ≫= _ = _ => by destruct m end.
  - destruct O as (-> & <- & ->). simpl rest_of. by rewrite <- Eb.
  - destruct O as (-> & <- & ->). simpl rest_of. rewrite <- Eb. ostep.
    change (HttpContext.gotAll _) with true. cbn [HttpContext.request_]. cbv iota.
    set (e1 := TcpConnection.upd_conn _ e).
    change (TcpConnection.loop e) with (TcpConnection.loop e1).
    by rewrite (onRequest_is_send a r e1 (Hresp r _ eq_refl)).
Qed.

End Program.
#[global] Arguments http_is_onMessage Cb K E S {_ _ _}.

(** *** What a server answers

    The chunks of one connection, in order: what is sent, whether the server
    is closing, and what is kept for the next chunk. *)

Definition answer (st : bytes * bool * bytes) (c : Z * bytes) : bytes * bool * bytes :=
  let '(out, closing, rest) := st in
  let '(out', closing', rest') := reply out c.1 (rest ++ c.2) in
  if closing then (out, true, rest') else (out', closing', rest').

Definition answers (chunks : list (Z * bytes)) : bytes * bool * bytes := foldl answer ([], false, []) chunks.

Lemma rest_suffix t s : rest_of (HttpContext.parse_message t s) s `suffix_of` s.
Proof.
  destruct (HttpContext.parse_message t s) as [|r|r rest|r rest] eqn:E; simpl; [done|done|..];
    eapply HttpContext.parse_message_rest; eauto.
Qed.

Lemma drop_suffix (u s : bytes) : u `suffix_of` s -> drop (Z.to_nat (zlen s - zlen u)) s = u.
Proof.
  intros [k ->]. rewrite zlen_app. replace (zlen k + zlen u - zlen u) with (zlen k) by lia.
  unfold zlen. rewrite Nat2Z.id. apply drop_app_length.
Qed.

Lemma http_message t s : call http HttpServer.OnMessageCb (TcpConnection.OnMessage t) s =
  let '(out, closing, rest) := reply (output s) t (input s) in
  match phase s with
  | TcpConnection.kConnected =>
      mkSession (if closing : bool then TcpConnection.kDisconnecting else TcpConnection.kConnected) rest out
  | p => mkSession p rest (output s)
  end.
Proof.
  destruct s as [p i o]. unfold call, HttpServer.reply, http. simpl. rewrite (drop_suffix _ _ (rest_suffix t i)).
  destruct (HttpContext.parse_message t i) as [|r|r rest|r rest]; simpl; [by destruct p..|].
  destruct (closes r); by destruct p.
Qed.

(** Every other callback does nothing. *)
Lemma http_quiet v ev s : (forall t, v = HttpServer.OnMessageCb -> ev <> TcpConnection.OnMessage t) ->
  call http v ev s = s.
Proof.
  intros Hv. destruct s as [p i o]. unfold call, http.
  destruct v, ev; try done. by destruct (Hv receiveTime).
Qed.

Lemma http_call_opt vc ev s : (forall t, ev <> TcpConnection.OnMessage t) -> call_opt http vc ev s = s.
Proof. intros Hev. destruct vc as [v|]; [|done]. apply http_quiet. auto. Qed.

(** A session of the program is [answers] to the chunks up to the hang-up. *)
Definition explains (chunks : list (Z * bytes)) (late : bytes) (g : stage) (s : session) (r : bytes) : Prop :=
  let '(out, closing, rest) := answers chunks in
  concat chunks.*2 ++ late = r /\ output s = out /\
  match g with
  | Before => chunks = [] /\ late = [] /\ s = mkSession TcpConnection.kConnecting [] []
  | Open => late = [] /\ input s = rest /\
      phase s = (if closing then TcpConnection.kDisconnecting else TcpConnection.kConnected)
  | Closed => phase s = TcpConnection.kDisconnected
  end.

(** A message, whether new bytes or only what is buffered. *)
Lemma explains_message t d chunks late g s r : g <> Before -> explains chunks late g s r ->
  exists chunks' late', explains chunks' late' g
    (call http HttpServer.OnMessageCb (TcpConnection.OnMessage t) (set_input (input s ++ d) s)) (r ++ d).
Proof.
  intros Hg Hx. unfold explains in *. rewrite http_message. simpl.
  destruct g; [done| |].
  - exists (chunks ++ [(t, d)]), []. unfold answers in *. rewrite foldl_snoc.
    destruct (foldl _ _ chunks) as [[out closing] rest]. destruct Hx as (Hr & Ho & -> & Hi & Hp).
    rewrite Hi, Hp, Ho. simpl. rewrite fmap_app, concat_app. simpl. rewrite !app_nil_r in *. rewrite <- Hr.
    destruct (reply out t (rest ++ d)) as [[out' closing'] rest']. by destruct closing.
  - exists chunks, (late ++ d). destruct (answers chunks) as [[out closing] rest].
    destruct Hx as (<- & Ho & Hp). rewrite app_assoc.
    destruct (reply (output s) t (input s ++ d)) as [[out' closing'] rest']. by rewrite Hp.
Qed.

Lemma explains_same chunks late g s r :
  explains chunks late g s r -> explains chunks late g s (r ++ []).
Proof. by rewrite app_nil_r. Qed.

Lemma http_session vc tr g : stage_of false tr = Some g ->
  exists chunks late, explains chunks late g (session_of http vc (Some HttpServer.OnMessageCb) tr) (received tr).
Proof.
  revert g. induction tr as [|o tr IH] using rev_ind; intros g; [intros [= <-]; by exists [], []|].
  rewrite stage_snoc, session_snoc, received_snoc.
  destruct (stage_of false tr) as [g0|]; [|by destruct o]. destruct (IH _ eq_refl) as (chunks & late & Hx). clear IH.
  revert Hx. generalize (session_of http vc (Some HttpServer.OnMessageCb) tr) (received tr). intros s r Hx.
  destruct g0, o as [|t d| |v ev]; try done; intros [= <-]; simpl; rewrite ?http_call_opt by done;
    try (by apply (explains_message t d chunks late)).
  - exists chunks, late. apply explains_same. unfold explains in *.
    destruct (answers chunks) as [[out closing] rest] eqn:Ea.
    destruct Hx as (Hr & Ho & -> & -> & ->). injection Ea as <- <- <-. done.
  - exists chunks, late. apply explains_same. unfold explains in *.
    destruct (answers chunks) as [[out closing] rest]. destruct Hx as (Hr & Ho & _). done.
  - destruct v, ev as [|t| | |n]; try (exists chunks, late; by rewrite http_quiet, app_nil_r).
    destruct (explains_message t [] chunks late Open s r) as (c' & l' & Hx'); [done|done|].
    exists c', l'. rewrite app_nil_r in Hx'. by destruct s.
  - exists chunks, late. apply explains_same. unfold explains in *.
    destruct (answers chunks) as [[out closing] rest]. destruct Hx as (Hr & Ho & _). done.
  - destruct v, ev as [|t| | |n]; try (exists chunks, late; by rewrite http_quiet, app_nil_r).
    destruct (explains_message t [] chunks late Closed s r) as (c' & l' & Hx'); [done|done|].
    exists c', l'. rewrite app_nil_r in Hx'. by destruct s.
Qed.

(** What the program passes to [send] is short when its responses are. *)
Lemma http_sendable total :
  (forall t b req rest, zlen b <= total -> HttpContext.parse_message t b = HttpContext.Complete req rest ->
     zlen (response req) < 2 ^ 31) ->
  forall v ev b, zlen b <= total -> 0 <= (http v ev b).1 /\ Forall sendable (http v ev b).2.
Proof.
  intros HB v ev b Hb. destruct v, ev as [|t| | |n]; try by split.
  pose proof (suffix_length _ _ (rest_suffix t b)). split; [simpl; unfold zlen; lia|]. simpl.
  assert (zlen bad_request < 2 ^ 31) by (vm_compute; reflexivity).
  destruct (HttpContext.parse_message t b) as [|r|r rest|r rest] eqn:Ep; simpl; try by repeat constructor.
  constructor; [by eapply HB|]. destruct (closes r); by repeat constructor.
Qed.

End Http.

(** C6: the echo service, end to end.  A connection is accepted on a server
    whose callbacks are the echo server's, at any moment of its life; after
    that the loops of the server accept, dispatch, run functors and release
    in any order, while no other thread calls the connection (calls of others
    are not overtaken by a close).  The peer sends less than 2 GB and does not
    reset the connection under a write.  Then, unless the connection has been
    destroyed, what it has sent or holds in its output buffer is a prefix of
    what its peer sends; and until the peer hangs up nothing is missing: those
    bytes followed by the bytes not yet read are all of them. *)
Theorem echo_service_conserves {V Cb K E S} `{EPOLL_LAWS K, EVENTFD E, SOCKET_LAWS S,
    !SOCKET_INPUT S, !SOCKET_INPUT_LAWS S}
  (static : Z -> gmap Z (Channel.Channel chan_cb)) heap acc_self listen_ret
  (w w1 w2 w3 : TcpServer.World V Cb (EPollPoller.EPollPoller K) E S) ls1 ls2 a fd sk local peer
  (Hs : started static w)
  (Hord : orderly echo static heap acc_self listen_ret (ls1 ++ Accept a fd sk local peer :: ls2) w = true)
  (Hreset : TcpConnection.no_reset (S := S))
  (Hr1 : run echo static heap acc_self listen_ret ls1 w = Ret w1)
  (Hf : fresh static a fd w1)
  (Ho : sk_out sk = []) (Hsh : sk_shut sk = false) (Hl : zlen (sk_unread sk) < 2 ^ 31)
  (Hr2 : step echo static heap acc_self listen_ret (Accept a fd sk local peer) w1 = Ret w2)
  (Hr3 : run echo static heap acc_self listen_ret ls2 w2 = Ret w3)
  (Hown : forallb (own_thread a) ls2 = true) :
  released_in echo static heap acc_self listen_ret a ls2 w2 \/
  exists c s, TcpServer.conns w3 !! a = Some c /\ TcpServer.socks w3 !! a = Some s /\
    let sent := sk_out s ++ Buffer.content (TcpConnection.outputBuffer_ c) in
    sent `prefix_of` sk_unread sk /\
    (TcpConnection.state_ c <> TcpConnection.kDisconnected -> sent ++ sk_unread s = sk_unread sk).
Proof.
  set (vc := TcpServer.connectionCallback_ (TcpServer.server w1)).
  set (vm := TcpServer.messageCallback_ (TcpServer.server w1)).
  destruct (accepted_traced echo static heap acc_self listen_ret false w w1 w2 w3 ls1 ls2 a fd sk local peer)
    as [X|(c & s & tr & Hc & Hs3 & A & Hst)]; try done; [|lia|by left|right].
  - intros v ev b Hb. pose proof (zlen_nonneg b).
    destruct ev; simpl; (split; [lia|]); repeat constructor. simpl. lia.
  - exists c, s. split_and!; [done|done|]. fold vc vm in A, Hst. cbv zeta.
    destruct (a_output _ _ _ _ _ _ _ _ A) as (_ & ->). rewrite (a_phase _ _ _ _ _ _ _ _ A).
    pose proof (a_unread _ _ _ _ _ _ _ _ A) as Hu.
    split; [etrans; [apply (echo_output vc vm); by eexists|rewrite <- Hu; by apply prefix_app_r]|].
    intros Hp. destruct (echo_session vc vm tr _ Hst) as [Hi Hg]. rewrite <- Hu. f_equal.
    destruct (phase (session_of echo vc vm tr)) eqn:Eph; simpl in Hg; try done.
    + destruct Hg as [-> ->]. done.
    + destruct Hg as [_ Hg]. pose proof (a_heard _ _ _ _ _ _ _ _ A) as Hh. rewrite <- Hg.
      destruct vm as [m|]; [by rewrite Hi, app_nil_r|]. rewrite Hh in Hg by done.
      by apply app_eq_nil in Hg as [-> ->].
    + by destruct Hg.
Qed.

(** C7: the HTTP service, end to end.  A connection is accepted on a server
    whose message callback is [HttpServer::onMessage] (of which [http] is an
    exact account), at any moment of its life, and then the loops accept,
    dispatch, run functors and release in any order, while no other thread
    calls the connection (calls of others are not overtaken by a close).  No
    response to a request that can come from the peer's bytes, of which there
    are less than 2^62, is as long as 2 GB, and the peer does not reset the
    connection under a write.  Unless
    the connection has been destroyed, its bytes have come in chunks, and what it has sent or holds in its output buffer is
    exactly what the sequential reference [answers] says: chunk after chunk,
    what is buffered is parsed once, a complete request is answered with the
    callback's response, anything that has no request line with a 400, and
    after a response that closes nothing more is sent.  Until the peer hangs
    up every chunk has been answered, and the connection is shutting down
    exactly when an answer said so. *)
Theorem http_service_answers {Cb K E S} `{EPOLL_LAWS K, EVENTFD E, SOCKET_LAWS S,
    !SOCKET_INPUT S, !SOCKET_INPUT_LAWS S}
  order httpCallback (static : Z -> gmap Z (Channel.Channel chan_cb)) heap acc_self listen_ret
  (w w1 w2 w3 : TcpServer.World HttpServer.http_cb Cb (EPollPoller.EPollPoller K) E S)
  ls1 ls2 a fd sk local peer
  (Hs : started static w)
  (Hord : orderly (http order httpCallback) static heap acc_self listen_ret
    (ls1 ++ Accept a fd sk local peer :: ls2) w = true)
  (Hreset : TcpConnection.no_reset (S := S))
  (HB : forall t b req rest, zlen b <= zlen (sk_unread sk) ->
     HttpContext.parse_message t b = HttpContext.Complete req rest ->
     zlen (HttpResponse.render order (HttpServer.response_to httpCallback req)) < 2 ^ 31)
  (Hl : zlen (sk_unread sk) < 2 ^ 62)
  (Hr1 : run (http order httpCallback) static heap acc_self listen_ret ls1 w = Ret w1)
  (Hm : TcpServer.messageCallback_ (TcpServer.server w1) = Some HttpServer.OnMessageCb)
  (Hf : fresh static a fd w1) (Ho : sk_out sk = []) (Hsh : sk_shut sk = false)
  (Hr2 : step (http order httpCallback) static heap acc_self listen_ret (Accept a fd sk local peer) w1 = Ret w2)
  (Hr3 : run (http order httpCallback) static heap acc_self listen_ret ls2 w2 = Ret w3)
  (Hown : forallb (own_thread a) ls2 = true) :
  http_is_onMessage order httpCallback Cb K E S /\
  (released_in (http order httpCallback) static heap acc_self listen_ret a ls2 w2 \/
   exists c s chunks late, TcpServer.conns w3 !! a = Some c /\ TcpServer.socks w3 !! a = Some s /\
     let '(out, closing, _) := answers order httpCallback chunks in
     concat chunks.*2 ++ late ++ sk_unread s = sk_unread sk /\
     sk_out s ++ Buffer.content (TcpConnection.outputBuffer_ c) = out /\
     (TcpConnection.state_ c <> TcpConnection.kDisconnected ->
      late = [] /\ (TcpConnection.state_ c = TcpConnection.kDisconnecting <-> closing = true))).
Proof.
  split; [apply (user_is_http_onMessage order httpCallback (S := S))|].
  set (vc := TcpServer.connectionCallback_ (TcpServer.server w1)).
  destruct (accepted_traced (http order httpCallback) static heap acc_self listen_ret false
    w w1 w2 w3 ls1 ls2 a fd sk local peer)
    as [X|(c & s & tr & Hc & Hs3 & A & Hst)]; try done; [by apply http_sendable|by left|right].
  rewrite Hm in A, Hst. fold vc in A, Hst.
  destruct (http_session order httpCallback vc tr _ Hst) as (chunks & late & Hx).
  exists c, s, chunks, late. split_and!; [done|done|]. unfold explains in Hx.
  destruct (answers order httpCallback chunks) as [[out closing] rest] eqn:Ea. destruct Hx as (Hr & <- & Hg).
  split_and!; [|apply A|].
  - rewrite app_assoc, Hr. apply A.
  - rewrite (a_phase _ _ _ _ _ _ _ _ A). intros Hd.
    destruct (phase _) eqn:Ep; simpl in Hg; [by destruct Hd|..].
    + destruct Hg as (-> & -> & _). destruct closing; [discriminate Ea|by split; [|split]].
    + destruct Hg as (-> & _ & Hp). destruct closing; (split; [done|]); by split.
    + destruct Hg as (-> & _ & Hp). destruct closing; (split; [done|]); by split.
Qed.

(** The client of [demo_life], up to the echo of its two bytes. *)
Lemma echo_service_conserves_witness :
  released_in echo (fun _ => ∅) (fun _ => None) 300 0 500 [RunFunctor 20; Event 500 1 7]
    (after (take 1 demo_life)) \/
  exists c s, TcpServer.conns (after (take 1 demo_life ++ [RunFunctor 20; Event 500 1 7])) !! 500 = Some c /\
    let sent := TcpConnection.ts_out s ++ Buffer.content (TcpConnection.outputBuffer_ c) in
    sent `prefix_of` str "hi".
Proof.
  assert (runs_through (take 1 demo_life) = true) as R1 by (vm_compute; reflexivity).
  assert (runs_through (take 1 demo_life ++ [RunFunctor 20; Event 500 1 7]) = true) as R2
    by (vm_compute; reflexivity).
  set (sk := TcpConnection.mkTcpSocket [] false [100] [Buffer.Done (str "hi"); Buffer.Done []]).
  set (ad := InetAddress.new_InetAddress 8080 []).
  pose proof (reached_step echo demo_world _ R1 : step echo (fun _ => ∅) (fun _ => None) 300 0
    (Accept 500 9 sk (InetAddress.addr_ ad) ad) demo_world = Ret (after (take 1 demo_life))) as S1.
  assert (orderly echo (fun _ => ∅) (fun _ => None) 300 0
    [Accept 500 9 sk (InetAddress.addr_ ad) ad; RunFunctor 20; Event 500 1 7] demo_world = true) as Hord
    by (vm_compute; reflexivity).
  assert (fresh (fun _ => ∅) 500 9 demo_world) as Hf
    by (apply (bool_decide_eq_true_1 _); vm_compute; reflexivity).
  pose proof (demo_after_app _ _ R1 R2) as S2.
  assert (zlen (sk_unread sk) < 2 ^ 31) as Hl by (vm_compute; reflexivity).
  set (w2 := after (take 1 demo_life)) in *. clearbody w2.
  set (w3 := after (take 1 demo_life ++ _)) in *. clearbody w3.
  destruct (echo_service_conserves (fun _ => ∅) (fun _ => None) 300 0 demo_world demo_world w2 w3 []
    [RunFunctor 20; Event 500 1 7] 500 9 sk (InetAddress.addr_ ad) ad demo_started Hord
    TcpConnection.tcp_no_reset eq_refl Hf eq_refl eq_refl Hl S1 S2 eq_refl)
    as [X|(c & s & Hc & _ & Hp & _)].
  - left. exact X.
  - right. exists c, s. exact (conj Hc Hp).
Defined.

(** A server with the default callback, and a client with one request. *)
Definition http_demo : demo_World HttpServer.http_cb :=
  demo_serving (Some HttpServer.OnConnectionCb) (Some HttpServer.OnMessageCb).
Definition http_client : TcpConnection.tcp_socket :=
  TcpConnection.mkTcpSocket [] false [100]
    [Buffer.Done (str "GET / HTTP/1.1" ++ Buffer.kCRLF ++ Buffer.kCRLF); Buffer.Done []].
Definition http_accept : label :=
  let ad := InetAddress.new_InetAddress 8080 [] in Accept 500 9 http_client (InetAddress.addr_ ad) ad.
Definition http_default := http map_to_list HttpServer.defaultHttpCallback.

Lemma http_service_answers_witness :
  released_in http_default (fun _ => ∅) (fun _ => None) 300 0 500 [RunFunctor 20; Event 500 1 7]
    (reached http_default http_demo [http_accept]) \/
  exists c s chunks late,
    TcpServer.conns (reached http_default http_demo ([http_accept] ++ [RunFunctor 20; Event 500 1 7])) !! 500 = Some c /\
    let '(out, closing, _) := answers map_to_list HttpServer.defaultHttpCallback chunks in
    concat chunks.*2 ++ late ++ sk_unread s = sk_unread http_client /\
    TcpConnection.ts_out s ++ Buffer.content (TcpConnection.outputBuffer_ c) = out.
Proof.
  assert (reaches http_default http_demo [http_accept] = true) as R1 by (vm_compute; reflexivity).
  assert (reaches http_default http_demo ([http_accept] ++ [RunFunctor 20; Event 500 1 7]) = true) as R2
    by (vm_compute; reflexivity).
  pose proof (reached_step http_default http_demo http_accept R1) as S1.
  pose proof (reached_app http_default http_demo _ _ R1 R2) as S2.
  assert (orderly http_default (fun _ => ∅) (fun _ => None) 300 0
    [http_accept; RunFunctor 20; Event 500 1 7] http_demo = true) as Hord by (vm_compute; reflexivity).
  assert (fresh (fun _ => ∅) 500 9 http_demo) as Hf
    by (apply (bool_decide_eq_true_1 _); vm_compute; reflexivity).
  assert (forall t b req rest, zlen b <= zlen (sk_unread http_client) ->
    HttpContext.parse_message t b = HttpContext.Complete req rest ->
    zlen (HttpResponse.render map_to_list (HttpServer.response_to HttpServer.defaultHttpCallback req)) < 2 ^ 31)
    as HB by (intros t b req rest _ _; vm_compute; reflexivity).
  assert (zlen (sk_unread http_client) < 2 ^ 62) as Hl by (vm_compute; reflexivity).
  set (w2 := reached http_default http_demo [http_accept]) in *. clearbody w2.
  set (w3 := reached http_default http_demo _) in *. clearbody w3.
  set (ad := InetAddress.new_InetAddress 8080 []).
  destruct (http_service_answers map_to_list HttpServer.defaultHttpCallback (fun _ => ∅) (fun _ => None) 300 0
    http_demo http_demo w2 w3 [] [RunFunctor 20; Event 500 1 7] 500 9 http_client (InetAddress.addr_ ad) ad
    (serving_started _ _) Hord TcpConnection.tcp_no_reset HB Hl eq_refl eq_refl Hf eq_refl eq_refl S1 S2 eq_refl)
    as [_ [X|(c & s & chunks & late & Hc & _ & Ha)]].
  - left. exact X.
  - right. exists c, s, chunks, late. split; [exact Hc|].
    destruct (answers map_to_list HttpServer.defaultHttpCallback chunks) as [[out closing] rest].
    destruct Ha as (Ha & Hb & _). exact (conj Ha Hb).
Defined.

(** What that client gets. *)
Example http_demo_answer :
  TcpConnection.ts_out <$> TcpServer.socks (reached http_default http_demo ([http_accept] ++ [RunFunctor 20; Event 500 1 7])) !! 500 =
  Some (str "HTTP/1.1 404 Not Found" ++ Buffer.kCRLF ++ str "Connection: close" ++ Buffer.kCRLF ++ Buffer.kCRLF).
Proof. vm_compute. reflexivity. Qed.

(** Two requests in one chunk, to a callback that keeps the connection: the
    second is buffered, and answered only when more bytes come. *)
Definition keep_alive : HttpRequest.HttpRequest -> HttpResponse.HttpResponse -> HttpResponse.HttpResponse :=
  fun _ r => HttpResponse.setCloseConnection false (HttpResponse.setStatusCode HttpResponse.k200Ok r).

Example pipelined_request_waits :
  let get := str "GET / HTTP/1.1" ++ Buffer.kCRLF ++ Buffer.kCRLF in
  let ok := HttpResponse.render map_to_list (HttpServer.response_to keep_alive HttpRequest.new_HttpRequest) in
  answers map_to_list keep_alive [(0, get ++ get)] = (ok, false, get) /\
  answers map_to_list keep_alive [(0, get); (0, get)] = (ok ++ ok, false, []).
Proof. vm_compute. split; reflexivity. Qed.

End Service.
